(* ===== verification/_CoqProject ===== *)
-Q . S2P
Prelude.v
Frame.v
GoPath.v
Diff.v
DiffSpec.v
DirtySet.v
Scopes.v
Types.v
Delivery.v
Store.v
MemoryStore.v
Json.v
BoltStore.v
Scanner.v
Normalize.v
Debounce.v
WatchTree.v
Session.v
Tracker.v
Expected.v
Reconcile.v
ReconcileSpec.v
ReconcileTree.v
ReconcileBolt.v
ReconcileBoltSpec.v
Staging.v
Integrity.v
Locked.v
Checker.v
Observer.v
TrackerRun.v
Backend.v
Native.v
