(* ===== verification/Prelude.v ===== *)
(** * fsrecon: a verification library

    fsrecon watches a directory tree.  A [Tracker] keeps a snapshot of the tree,
    turns native notifications into dirty scopes, rescans them, and reports the
    differences as semantic events; a [ChangeSink] receives them in batches, as
    numbered generations that are retried until they are accepted.  An [Observer]
    is the lighter alternative that only emits invalidation hints.

    ** Parts, files and sources

    - [Prelude] (this file): machine integers with their wrap-around, errors and
      [errors.Is], the state-and-error monad [M S A] in which all fallible and
      stateful code is written (a failure keeps the mutations made before it, as in
      Go), [forM] for loops, sorted keys.  [Frame]: invariants through monadic code.
    - [GoPath]: the path functions of path/filepath (Unix), and paths as lists of
      components.
    - [Diff], [DiffSpec]: internal/reconcile, the diff engine and its specification.
    - [DirtySet]: internal/dirtyset, the trie of dirty scopes.  [Scopes]: the list
      version [collapseScopes] of reconcile.go.
    - [Types]: the public data (state.go, event.go, config.go, report.go, expected.go)
      and the conversions of reconcile.go.
    - [Delivery]: delivery.go, the batches of a generation.
    - [Store]: the store interfaces of store.go as a typeclass with laws;
      [MemoryStore]: the in-memory store; [Json], [BoltStore]: the documents and the
      operations of bolt_store.go.
    - [Scanner]: internal/scanner.  [Normalize]: internal/normalize and the event
      operations of internal/backend.  [Debounce]: internal/debounce.  [WatchTree]:
      internal/watchtree.
    - [Tracker]: the state of the tracker, [New] and its state changes.  [Expected]:
      the loading of expected state.  [Reconcile]: [reconcileScopes] with all its
      closures, and the resumption of pending generations; [ReconcileSpec],
      [ReconcileTree]: its theorems.  [ReconcileBolt]: [reconcileBoltLocked] of
      reconcile_bolt.go, the full reconciliation through a temporary bbolt index;
      [ReconcileBoltSpec]: its theorems; [Staging]: the changes and the expected
      entries it keeps in the index.  [Session]: session.go.  [Integrity]: [Scrub];
      [Checker]: the SHA-256 checker of integrity.go.  [Locked]: what the operations
      under the tracker's lock leave alone.  [TrackerRun]: [Start], the goroutines of
      [run], and [Close].
    - [Observer]: observer.go and observer_types.go.
    - [Backend]: internal/backend/fsnotify, with its pump and its channels;
      [Native]: the backend and the tracker's goroutines side by side.

    ** How the code is modelled

    A struct is a record, with one definition per operation that returns the next
    record; code that can fail or calls out is an action of [M].  What is not in the
    repository is a parameter: the file system ([FileSystem]), the clock, the
    context ([ctx] is [ctx.Err()]), the fsnotify library ([native_laws]), bbolt
    ([BoltDB] with [BoltDBLaws], [BoltIndex] with [BoltIndexLaws]), the hash
    function, random bytes, and the application's callbacks (expected provider, sink,
    integrity checker).  Each of these acts on a world [W] that may change
    arbitrarily between calls, except the filter, which is a function of the path and
    the state: that a filter answers alike to the same question is assumed.  The theorems about reconciliation hold for all of
    them; those about an unchanging directory take a file system that [behaves_as] a
    tree.  A component is used through an interface: the tracker is written against
    the class [SnapshotStore] and its theorems against [SnapshotStoreLaws], which
    both stores discharge; the watch tree is written against a backend with
    [backend_laws], which [Backend] discharges from the laws of the library for the
    paths whose errors it does not misread.  Goroutines are steps of a relation, with
    a program counter where a critical section is left between two effects
    ([TrackerRun], [Backend]).  The lock that reconciliations and scrubs hold is taken
    and released by steps of their own, with its owner in the state ([rn_mu]); integrityMu is
    only taken by holders of reconcileMu, so the two are one lock here.  A section under one of the short locks is
    one step.  A channel is its contents, its capacity and whether it is closed; the
    panics of a send on a closed channel and of a second close are values.
    The zero [time.Time] is [zeroTime], the first instant of the year 1.  A Go map is a [gmap]; where
    the code ranges over one, the order is a parameter, or shown not to matter.
    The checks for a nil context and nil receivers are left out.

    ** What is shown

    - The diff emits exactly the specified changes, once each, its replay on the old
      snapshot gives the new one, it is silent exactly on equal sides, and it
      accounts for every scanned path ([DiffSpec]).
    - A reconciliation commits exactly what it scanned and reports exactly the
      differences, for any store with the laws of [Store], over scopes the store walks
      completely and states it can represent; a failed one commits nothing; a pending
      one is frozen, and the attempt that succeeds has delivered all its batches and
      then committed it ([ReconcileSpec]).  On a tree that does not change it
      converges in one run and is then silent ([ReconcileTree]).
    - The fast path through the temporary index leaves the same snapshot and reports
      the same changes as the diff engine, up to order, on an unchanging tree without
      expected state, wherever identities occur once on each side and no added path
      has the identity of a path still present; a failure of it changes nothing
      ([ReconcileBoltSpec]).  The changes it stages are delivered in the order they
      were staged, the expected entries it stages are those of the generic path, and
      comparing with them gives the missing, invalid and orphan changes of the diff
      engine ([Staging]).
    - The two stores are finite maps with ordered scoped walks and agree with each
      other where the keys of the Bolt store allow it; its documents round-trip.
    - The dirty set is a minimal cover; the debounce timer fires after a quiet
      period; the run loop never forgets an event it has received, and once the run is
      started no interleaving of its goroutines with calls and [Close] sends on a
      closed public channel or closes one twice ([TrackerRun]).
    - The native backend never panics, delivers events in order or leaves an error
      behind, and its [Close] returns; the watch tree over it has every registration of the
      library that it has not misread, and is registered but for the watches the
      library gave up by itself ([Backend]).  From the pump to the worker no event inside the
      root is forgotten, whether or not its channel had room ([Native]).
    - The observer owes a covering hint for every event until it is sent, within its
      configured bounds.  A scrub accounts for every file it checks, and on an
      unchanging tree reports exactly the rejected ones; the SHA-256 checker hashes
      exactly the contents of the file ([Checker]).
    - Executions of the model show where the code departs from its documentation: a
      Bolt walk that misses a subtree, a directory that vanishes during a scan, a
      path that is not UTF-8, a change forgotten behind a pending generation, a
      dirty state that sticks, a hint narrowed by coalescing, moves of the fast path
      that depend on the names, an overflow the observer does not see, a path
      that is taken for the text of an error, a directory that is not watched again
      after it came back, scopes collapsed at a backslash, and a [Start] that panics
      when it meets [Close].

    ** Fuel

    [walkDir] of the scanner recurses on directories and batches that the world
    supplies, so it takes fuel; twice the number of nodes of a tree is enough
    ([scan_tree_exact]).  A run out of fuel is [None] in the scanner and the error
    [OutOfFuel] in its callers, never a success.  [WalkDir] of the observer takes
    fuel for its depth in the same way, and the read loop of the checker for its
    reads, of which one more than the bytes of the file is enough
    ([check_fingerprints]).  All other functions are structural.

    ** Not modelled

    Windows identities, the command line and the examples are system calls and
    printing around the library.  The public channels of the observer are their
    contents and whether they are finished; the panics of its channels are not
    modelled.  The handling of one native event by the observer is one step, which
    loses no behaviour of a flush in between ([flush_tree]).  The tracker calls [Add], [Remove] and [Close] of its backend as actions of the world
    ([Native] composes the channels, [watch_tree_over_backend] the registrations).
    The steps to come: the exact directories that the observer watches, and the fast
    path with expected state from end to end. *)

From stdpp Require Export sorting relations strings gmap fin_maps.
From stdpp Require Export tactics base list.

#[global] Set Default Goal Selector "!".

(** ** Machine integers

    [uint64] counters and [int64] sizes and nanosecond times are kept in [Z]
    with their wrap-around written out. *)
Definition u64 (z : Z) : Z := z `mod` 2 ^ 64.
Definition u32 (z : Z) : Z := z `mod` 2 ^ 32.
Definition i64 (z : Z) : Z := (z + 2 ^ 63) `mod` 2 ^ 64 - 2 ^ 63.

(** ** Errors

    A Go [error] is a sentinel value, possibly wrapped by [fmt.Errorf] with
    [%w].  [errors.Is] walks the wrapping chain. *)
Inductive sentinel : Type :=
  | ErrAlreadyStarted
  | ErrClosed
  | ErrSymlink
  | ErrHardlink
  | ErrBackendStopped
  | ErrNoIntegrity
  | ErrAtomicStoreRequired
  | ErrObserverFollowSymlinksUnsupported
  | ErrOverflow
  | ScannerErrSymlink
  | ErrNotExist
  | ErrBucketNotFound
  | Canceled
  | ErrNonExistentWatch
  | ErrEventOverflow
  | EINVAL
  | OutOfFuel  (* not a Go error: a fuelled loop of the model was cut off *)
  | ErrText (msg : string).

Inductive error : Type :=
  | Sentinel (s : sentinel)
  | Wrapf (context : string) (cause : error).

#[global] Instance sentinel_eq_dec : EqDecision sentinel.
Proof. solve_decision. Defined.
#[global] Instance error_eq_dec : EqDecision error.
Proof. solve_decision. Defined.

Fixpoint errors_Is (e : error) (target : sentinel) : bool :=
  match e with
  | Sentinel s => bool_decide (s = target)
  | Wrapf _ cause => errors_Is cause target
  end.

Definition errors_New (msg : string) : error := Sentinel (ErrText msg).

(** ** The state-and-error monad

    Code that mutates state and can fail is a function from the state to a
    result and the next state: a failure keeps the mutations made before it,
    as in Go. *)
Definition M (S A : Type) : Type := S → (A + error) * S.

#[global] Instance M_ret S : MRet (M S) := λ A a s, (inl a, s).
#[global] Instance M_bind S : MBind (M S) := λ A B f m s,
  match m s with
  | (inl a, s') => f a s'
  | (inr e, s') => (inr e, s')
  end.

Definition throw {S A} (e : error) : M S A := λ s, (inr e, s).
Definition modify {S} (f : S → S) : M S () := λ s, (inl (), f s).
Definition gets {S A} (f : S → A) : M S A := λ s, (inl (f s), s).

(** [try m] runs [m] and returns its error as a value. *)
Definition try {S A} (m : M S A) : M S (A + error) := λ s,
  let '(r, s') := m s in (inl r, s').

(** [wrapping c m] is [if err := m(); err != nil { return Errorf(c, err) }]. *)
Definition wrapping {S A} (context : string) (m : M S A) : M S A := λ s,
  match m s with
  | (inl a, s') => (inl a, s')
  | (inr e, s') => (inr (Wrapf context e), s')
  end.

(** A [for range] loop over a slice whose body can return an error. *)
Fixpoint forM {S A} (l : list A) (body : A → M S ()) : M S () :=
  match l with
  | [] => mret ()
  | x :: l' => body x ;; forM l' body
  end.

(** The same, with an accumulator the body updates. *)
Fixpoint foldM {S A B} (body : B → A → M S B) (b : B) (l : list A) : M S B :=
  match l with
  | [] => mret b
  | x :: l' => b' ← body b x; foldM body b' l'
  end.

(** A computation that needs no state. *)
Definition lift {S A} (r : A + error) : M S A :=
  match r with inl a => mret a | inr e => throw e end.

(** An action on the second component of a paired state. *)
Definition onSnd {X S A} (m : M S A) : M (X * S) A := λ '(x, s),
  let '(r, s') := m s in (r, (x, s')).

(** An update of the first component. *)
Definition updFst {X S} (f : X → X) : M (X * S) () := λ '(x, s), (inl (), (f x, s)).

(** ** Sorting of map keys *)
Definition sort_strings (l : list string) : list string := merge_sort String.le l.

Definition sortedKeys {V} (m : gmap string V) : list string :=
  sort_strings (map_to_list m).*1.

(** ** Automation *)
Create HintDb fsrecon.
Create Rewrite HintDb fsrecon.

Ltac inv_M :=
  repeat match goal with
  | H : (inl _, _) = (inl _, _) |- _ => injection H as H; subst
  | H : (inr _, _) = (inr _, _) |- _ => injection H as H; subst
  | H : (inl _, _) = (inr _, _) |- _ => discriminate H
  | H : (inr _, _) = (inl _, _) |- _ => discriminate H
  end.

(** Prove a decidable closed proposition by evaluating its decision procedure. *)
Ltac by_decide := apply (bool_decide_unpack _); vm_compute; exact I.

(** Case on the first [if decide] or [match] of the goal. *)
Ltac cases := repeat first [ case_decide | case_match ]; simplify_eq/=.

(** ** Generic lemmas *)

Lemma sort_strings_perm l : sort_strings l ≡ₚ l.
Proof. apply merge_sort_Permutation. Qed.

Lemma sort_strings_sorted l : Sorted String.le (sort_strings l).
Proof. apply (Sorted_merge_sort _). Qed.

Lemma sort_strings_ext l1 l2 : l1 ≡ₚ l2 → sort_strings l1 = sort_strings l2.
Proof.
  intros Hp. apply (Sorted_unique String.le).
  - apply sort_strings_sorted.
  - apply sort_strings_sorted.
  - by rewrite !sort_strings_perm.
Qed.

Lemma elem_of_sort_strings x l : x ∈ sort_strings l ↔ x ∈ l.
Proof. by rewrite sort_strings_perm. Qed.

Lemma elem_of_sortedKeys {V} (m : gmap string V) k :
  k ∈ sortedKeys m ↔ is_Some (m !! k).
Proof.
  unfold sortedKeys. rewrite elem_of_sort_strings, list_elem_of_fmap. split.
  - intros ([k' v] & -> & Hin%elem_of_map_to_list). by exists v.
  - intros [v Hv%elem_of_map_to_list]. by exists (k, v).
Qed.

Lemma NoDup_sortedKeys {V} (m : gmap string V) : NoDup (sortedKeys m).
Proof. unfold sortedKeys. rewrite sort_strings_perm. apply NoDup_fst_map_to_list. Qed.

Lemma length_sortedKeys {V} (m : gmap string V) : length (sortedKeys m) = size m.
Proof.
  unfold sortedKeys. rewrite sort_strings_perm, length_fmap. apply length_map_to_list.
Qed.

Lemma bind_run {S A B} (m : M S A) (k : A → M S B) s :
  (m ≫= k) s = match m s with (inl a, s') => k a s' | (inr e, s') => (inr e, s') end.
Proof. done. Qed.

Lemma onSnd_run {A S R} (m : M S R) (a : A) s : onSnd m (a, s) = let '(r, s') := m s in (r, (a, s')).
Proof. done. Qed.

Lemma forM_app {S A} (l1 l2 : list A) (f : A → M S ()) s :
  forM (l1 ++ l2) f s = (forM l1 f ;; forM l2 f) s.
Proof.
  revert s. induction l1 as [|x l1 IH]; intros s; [done|].
  simpl. unfold mbind, M_bind in *. destruct (f x s) as [[[]|e] s']; [apply IH|done].
Qed.

Lemma bind_assoc {S A B C} (m : M S A) (f : A → M S B) (g : B → M S C) s :
  ((m ≫= f) ≫= g) s = (m ≫= (λ a, f a ≫= g)) s.
Proof. unfold mbind, M_bind. by destruct (m s) as [[a|e] s']. Qed.

(** Folds over a map that append lists or add numbers. *)
Section map_folds.
Context {V B : Type}.
Implicit Types m : gmap string V.

Lemma elem_of_fold_app (f : string → V → list B) m x :
  x ∈ map_fold (λ k v acc, acc ++ f k v) [] m ↔ ∃ k v, m !! k = Some v ∧ x ∈ f k v.
Proof.
  rewrite map_fold_foldr. setoid_rewrite <-elem_of_map_to_list.
  induction (map_to_list m) as [|[k v] l IH]; simpl; [set_solver|].
  rewrite elem_of_app, IH. set_solver.
Qed.

Lemma NoDup_fold_app (f : string → V → list B) m :
  (∀ k v, m !! k = Some v → NoDup (f k v)) →
  (∀ k1 v1 k2 v2 x, m !! k1 = Some v1 → m !! k2 = Some v2 → x ∈ f k1 v1 → x ∈ f k2 v2 → k1 = k2) →
  NoDup (map_fold (λ k v acc, acc ++ f k v) [] m).
Proof.
  rewrite map_fold_foldr. setoid_rewrite <-elem_of_map_to_list.
  pose proof (NoDup_fst_map_to_list m) as Hnd. revert Hnd.
  induction (map_to_list m) as [|[k v] l IH]; simpl; intros Hnd H1 H2; [constructor|].
  apply NoDup_cons in Hnd as [Hk Hnd]. apply NoDup_app. split_and!.
  - apply IH; [done|set_solver|]. intros k1 v1 k2 v2 x ? ? ? ?.
    by apply (H2 k1 v1 k2 v2 x); [right|right|..].
  - intros x Hx Hkv. assert (∃ k' v', (k', v') ∈ l ∧ x ∈ f k' v') as (k' & v' & Hl & Hx').
    { revert Hx. clear. induction l as [|[k' v'] l IH]; simpl; set_solver. }
    apply Hk. assert (k = k') as -> by (eapply (H2 k v k' v' x); [left|right|..]; done).
    apply list_elem_of_fmap. by exists (k', v').
  - apply H1. left.
Qed.

Lemma length_fold_app (f : string → V → list B) (g : string → V → nat) m :
  (∀ k v, m !! k = Some v → length (f k v) = g k v) →
  length (map_fold (λ k v acc, acc ++ f k v) [] m) = map_fold (λ k v acc, g k v + acc) 0 m.
Proof.
  rewrite !map_fold_foldr. setoid_rewrite <-elem_of_map_to_list.
  induction (map_to_list m) as [|[k v] l IH]; simpl; intros H; [done|].
  rewrite length_app, IH, (H k v) by set_solver. lia.
Qed.

Lemma fmap_fold_app {C} (g : B → C) (f1 : string → V → list C) (f2 : string → V → list B) m :
  (∀ k v, m !! k = Some v → f1 k v = g <$> f2 k v) →
  map_fold (λ k v acc, acc ++ f1 k v) [] m = g <$> map_fold (λ k v acc, acc ++ f2 k v) [] m.
Proof.
  rewrite !map_fold_foldr. setoid_rewrite <-elem_of_map_to_list.
  induction (map_to_list m) as [|[k v] l IH]; simpl; intros H; [done|].
  rewrite fmap_app, IH, (H k v) by set_solver. done.
Qed.
End map_folds.

Lemma sum_fold_delete {V} (f : V → nat) (m : gmap string V) k v :
  m !! k = Some v →
  map_fold (λ _ c acc, f c + acc) 0 m = f v + map_fold (λ _ c acc, f c + acc) 0 (delete k m).
Proof.
  intros H. rewrite (map_fold_delete_L _ _ k v m); [done| |done]. intros. lia.
Qed.

(** The sorted keys depend on the domain only. *)
Lemma sortedKeys_dom {V V'} (m : gmap string V) (m' : gmap string V') :
  (∀ k, is_Some (m !! k) ↔ is_Some (m' !! k)) → sortedKeys m = sortedKeys m'.
Proof.
  intros H. apply sort_strings_ext, NoDup_Permutation; [apply NoDup_fst_map_to_list..|].
  intros k. rewrite <-(elem_of_sort_strings k (map_to_list m).*1), <-(elem_of_sort_strings k (map_to_list m').*1).
  fold (sortedKeys m) (sortedKeys m'). by rewrite !elem_of_sortedKeys.
Qed.

Lemma filter_all {A} (P : A → Prop) `{!∀ x, Decision (P x)} (l : list A) :
  Forall P l → filter P l = l.
Proof. induction 1; [done|]. rewrite filter_cons_True by done. by f_equal. Qed.

Lemma filter_ext_in {A} (P Q : A → Prop) `{!∀ x, Decision (P x), !∀ x, Decision (Q x)} (l : list A) :
  (∀ x, x ∈ l → P x ↔ Q x) → filter P l = filter Q l.
Proof.
  induction l as [|x l IH]; intros Hext; [done|]. rewrite !filter_cons.
  rewrite (decide_ext (P x) (Q x)) by (apply Hext; left).
  rewrite IH; [done|]. intros y ?. apply Hext. by right.
Qed.

Lemma filter_none {A} (P : A → Prop) `{!∀ x, Decision (P x)} (l : list A) :
  Forall (λ x, ¬ P x) l → filter P l = [].
Proof. induction 1; [done|]. by rewrite filter_cons_False. Qed.

Lemma StronglySorted_filter {A} (R : relation A) (P : A → Prop) `{!∀ x, Decision (P x)} l :
  StronglySorted R l → StronglySorted R (filter P l).
Proof.
  induction 1 as [|x l Hs IH Hx]; [constructor|]. rewrite filter_cons. case_decide; [|done].
  constructor; [done|]. rewrite Forall_forall in *.
  intros y [_ Hy]%list_elem_of_filter. by apply Hx.
Qed.

Lemma StronglySorted_lookup {A} (R : relation A) (l : list A) i j a b :
  StronglySorted R l → l !! i = Some a → l !! j = Some b → i < j → R a b.
Proof.
  intros Hs. revert i j. induction Hs as [|x l Hs IH Hx]; intros i j Hi Hj Hij; [done|].
  destruct j as [|j]; [lia|]. destruct i as [|i]; simplify_eq/=.
  - rewrite Forall_lookup in Hx. by eapply Hx.
  - eapply (IH i j); [done..|lia].
Qed.

(** The longest initial segment that satisfies [P]. *)
Fixpoint take_while {A} (P : A → bool) (l : list A) : list A :=
  match l with
  | [] => []
  | x :: l' => if P x then x :: take_while P l' else []
  end.

Lemma take_while_prefix {A} (P : A → bool) l : take_while P l `prefix_of` filter (λ x, P x = true) l.
Proof.
  induction l as [|x l IH]; simpl; [done|]. destruct (P x) eqn:E; [|apply prefix_nil].
  rewrite filter_cons_True by done. by apply prefix_cons.
Qed.

Lemma take_while_fmap {A B} (P : B → bool) (f : A → B) l :
  take_while P (f <$> l) = f <$> take_while (P ∘ f) l.
Proof.
  induction l as [|x l IH]; [done|]. cbn. change (((P ∘ f) x)) with (P (f x)).
  destruct (P (f x)); [|done]. cbn. f_equal. exact IH.
Qed.

Lemma take_while_ext {A} (P Q : A → bool) l :
  (∀ x, x ∈ l → P x = Q x) → take_while P l = take_while Q l.
Proof.
  induction l as [|x l IH]; intros H; simpl; [done|]. rewrite (H x) by left.
  destruct (Q x); [|done]. f_equal. apply IH. intros y ?. apply H. by right.
Qed.

(** On a sorted list whose rejected elements follow the accepted ones, the
    initial segment is all of them. *)
Lemma take_while_filter (P : string → bool) l :
  StronglySorted String.le l →
  (∀ p q, p ∈ l → q ∈ l → P p = false → P q = true → String.le q p) →
  take_while P l = filter (λ x, P x = true) l.
Proof.
  induction 1 as [|x l Hs IH Hx]; intros Hord; [done|]. simpl. destruct (P x) eqn:E.
  - rewrite filter_cons_True by done. f_equal. apply IH. intros p q ??. apply Hord; by right.
  - rewrite filter_cons_False by congruence. symmetry. apply filter_none.
    apply Forall_forall. intros q Hq HPq. rewrite Forall_forall in Hx.
    assert (q = x) as ->; [|congruence]. apply (anti_symm String.le); [|by apply Hx].
    apply Hord; [left|by right|done..].
Qed.

Lemma filter_sortedKeys {V} (P : string → Prop) `{!∀ x, Decision (P x)} (m : gmap string V) :
  filter P (sortedKeys m) = sortedKeys (filter (λ kv, P kv.1) m).
Proof.
  apply (StronglySorted_unique String.le).
  - apply StronglySorted_filter. apply (Sorted_StronglySorted _), sort_strings_sorted.
  - apply (Sorted_StronglySorted _), sort_strings_sorted.
  - apply NoDup_Permutation.
    + apply NoDup_filter, NoDup_sortedKeys.
    + apply NoDup_sortedKeys.
    + intros k. rewrite list_elem_of_filter, !elem_of_sortedKeys. split.
      * intros [HP [v Hv]]. exists v. by apply map_lookup_filter_Some.
      * intros [v [Hv HP]%map_lookup_filter_Some]. eauto.
Qed.


#[export] Hint Resolve sort_strings_sorted NoDup_sortedKeys : fsrecon.
#[export] Hint Rewrite @elem_of_sortedKeys elem_of_sort_strings : fsrecon.
