(* ===== verification/Frame.v ===== *)
(** * Frames: invariants through monadic code

    [preserves I m]: the action [m] keeps [I], whether it succeeds or fails.  The
    rules follow the combinators of the monad, so that an invariant of long
    stateful code reduces to its primitive steps. *)

From S2P Require Import Prelude.

Definition preserves {S A} (I : S → Prop) (m : M S A) : Prop := ∀ s, I s → I (m s).2.

Section rules.
Context {S : Type} (I : S → Prop).

Lemma preserves_ret {A} (a : A) : preserves I (mret a).
Proof. by intros s. Qed.
Lemma preserves_throw {A} e : preserves I (throw (A := A) e).
Proof. by intros s. Qed.
Lemma preserves_gets {A} (f : S → A) : preserves I (gets f).
Proof. by intros s. Qed.
Lemma preserves_modify f : (∀ s, I s → I (f s)) → preserves I (modify f).
Proof. intros H s Hs. by apply H. Qed.
Lemma preserves_lift {A} (r : A + error) : preserves I (lift r).
Proof. by destruct r; intros s. Qed.

Lemma preserves_bind {A B} (m : M S A) (k : A → M S B) :
  preserves I m → (∀ a, preserves I (k a)) → preserves I (m ≫= k).
Proof.
  intros Hm Hk s Hs. specialize (Hm s Hs). rewrite bind_run.
  destruct (m s) as [[a|e] s']; [by apply Hk|done].
Qed.

Lemma preserves_try {A} (m : M S A) : preserves I m → preserves I (try m).
Proof. intros Hm s Hs. specialize (Hm s Hs). unfold try. by destruct (m s) as [r s']. Qed.

Lemma preserves_wrapping {A} c (m : M S A) : preserves I m → preserves I (wrapping c m).
Proof. intros Hm s Hs. specialize (Hm s Hs). unfold wrapping. by destruct (m s) as [[a|e] s']. Qed.

Lemma preserves_forM {A} (l : list A) (f : A → M S ()) :
  (∀ a, a ∈ l → preserves I (f a)) → preserves I (forM l f).
Proof.
  induction l as [|a l IH]; intros Hf; cbn [forM]; [apply preserves_ret|].
  apply preserves_bind; [apply Hf; left|]. intros _. apply IH. intros x ?. apply Hf. by right.
Qed.

Lemma preserves_foldM {A B} (f : B → A → M S B) b l :
  (∀ b a, preserves I (f b a)) → preserves I (foldM f b l).
Proof.
  intros Hf. revert b. induction l as [|a l IH]; intros b; cbn [foldM]; [apply preserves_ret|].
  by apply preserves_bind; [apply Hf|].
Qed.

Lemma preserves_if {A} (b : bool) (m n : M S A) :
  preserves I m → preserves I n → preserves I (if b then m else n).
Proof. by destruct b. Qed.

Lemma preserves_decide {A P} `{Decision P} (m n : M S A) :
  (P → preserves I m) → (¬ P → preserves I n) → preserves I (if decide P then m else n).
Proof. intros. case_decide; auto. Qed.
End rules.

(** [keeps I E m]: from [I], the action ends in [I] when it succeeds and in [E] when
    it fails. *)
Definition keeps {S A} (I E : S → Prop) (m : M S A) : Prop :=
  ∀ s, I s → match m s with (inl _, s') => I s' | (inr _, s') => E s' end.

Lemma keeps_same {S A} (I : S → Prop) (m : M S A) : keeps I I m ↔ preserves I m.
Proof. split; intros Hm s Hs; specialize (Hm s Hs); by destruct (m s) as [[a|e] s']. Qed.

Section keeps.
Context {S : Type} (I E : S → Prop).

Lemma keeps_preserves {A} (m : M S A) : (∀ s, I s → E s) → preserves I m → keeps I E m.
Proof. intros HE Hm s Hs. specialize (Hm s Hs). destruct (m s) as [[a|e] s']; [done|by apply HE]. Qed.

Lemma keeps_ret {A} (a : A) : keeps I E (mret a).
Proof. by intros s. Qed.

Lemma keeps_bind {A B} (m : M S A) (k : A → M S B) :
  keeps I E m → (∀ a, keeps I E (k a)) → keeps I E (m ≫= k).
Proof.
  intros Hm Hk s Hs. specialize (Hm s Hs). rewrite bind_run.
  destruct (m s) as [[a|e] s']; [by apply Hk|done].
Qed.

Lemma keeps_if {A} (b : bool) (m n : M S A) : keeps I E m → keeps I E n → keeps I E (if b then m else n).
Proof. by destruct b. Qed.
End keeps.

Lemma preserves_onSnd {X S A} (I : X * S → Prop) (m : M S A) :
  (∀ x, preserves (λ s, I (x, s)) m) → preserves I (onSnd m).
Proof.
  intros Hm [x s] Hs. specialize (Hm x s Hs). unfold onSnd. by destruct (m s) as [r s'].
Qed.

Lemma preserves_updFst {X S} (I : X * S → Prop) (f : X → X) :
  (∀ x s, I (x, s) → I (f x, s)) → preserves I (updFst f).
Proof. intros H [x s] Hs. by apply H. Qed.

Create HintDb frame.
#[export] Hint Resolve preserves_ret preserves_throw preserves_gets preserves_lift preserves_bind
  preserves_try preserves_wrapping preserves_if preserves_onSnd : frame.

(** Reduce an invariant to the primitive steps of the code. *)
Ltac frame_step :=
  match goal with
  | |- preserves _ (mret _) => apply preserves_ret
  | |- preserves _ (throw _) => apply preserves_throw
  | |- preserves _ (gets _) => apply preserves_gets
  | |- preserves _ (lift _) => apply preserves_lift
  | |- preserves _ (_ ≫= _) => apply preserves_bind; [|intros ?]
  | |- preserves _ (try _) => apply preserves_try
  | |- preserves _ (wrapping _ _) => apply preserves_wrapping
  | |- preserves _ (if decide _ then _ else _) => apply preserves_decide; intros ?
  | |- preserves _ (if ?b then _ else _) => apply preserves_if
  | |- preserves _ (match ?x with _ => _ end) => destruct x
  end.
Ltac frame := repeat frame_step.
