(* ===== verification/GoPath.v ===== *)
(** * Paths: the part of Go's [path/filepath] and [strings] the program uses

    Unix paths: the separator is the slash and volume names are empty.  A path
    is a byte string; the lemmas relate it to the list of its components, the
    form in which the tries and the subtree relation of the program are
    understood.  [abs cs] is the clean absolute path with components [cs]. *)

From Stdlib Require Import Ascii.
From S2P Require Import Prelude.

(** ** Definitions *)

Definition Separator : ascii := "/"%char.
Definition Backslash : ascii := "\"%char.

(** [strings.Split(s, "/")]. *)
Fixpoint Split (s : string) : list string :=
  match s with
  | EmptyString => [""]
  | String c s' =>
      if decide (c = Separator) then "" :: Split s'
      else match Split s' with
           | w :: ws => String c w :: ws
           | [] => [String c ""]
           end
  end.

(** [strings.Join(ws, "/")]. *)
Fixpoint join_sep (ws : list string) : string :=
  match ws with
  | [] => ""
  | [w] => w
  | w :: ws' => w +:+ String Separator (join_sep ws')
  end.

Definition HasPrefix (s prefix : string) : bool := String.prefix prefix s.

(** [len(s) > 0 && s[len(s)-1] == c], i.e. [strings.HasSuffix(s, "c")]. *)
Fixpoint HasSuffix (s : string) (c : ascii) : bool :=
  match s with
  | EmptyString => false
  | String a EmptyString => bool_decide (a = c)
  | String _ s' => HasSuffix s' c
  end.

(** [strings.TrimSpace(s) == ""]: the bytes of [s] are Unicode white space. *)
Fixpoint all_space (s : string) : bool :=
  match s with
  | EmptyString => true
  | String "194" (String c s') =>
      bool_decide (c = "133"%char ∨ c = "160"%char) && all_space s'
  | String "225" (String "154" (String "128" s')) => all_space s'
  | String "226" (String "128" (String c s')) =>
      bool_decide ((128 ≤ nat_of_ascii c ≤ 138) ∨ c = "168"%char ∨ c = "169"%char
                   ∨ c = "175"%char) && all_space s'
  | String "226" (String "129" (String "159" s')) => all_space s'
  | String "227" (String "128" (String "128" s')) => all_space s'
  | String c s' => Ascii.is_space c && all_space s'
  end.

Definition IsAbs (path : string) : bool :=
  match path with
  | String c _ => bool_decide (c = Separator)
  | EmptyString => false
  end.

(** The element stack of [filepath.Clean], innermost element first. *)
Fixpoint clean_go (rooted : bool) (out parts : list string) : list string :=
  match parts with
  | [] => out
  | c :: cs =>
      if decide (c = "" ∨ c = ".") then clean_go rooted out cs
      else if decide (c = "..") then
        match out with
        | [] => clean_go rooted (if rooted then [] else [".."]) cs
        | top :: out' =>
            if decide (top = "..") then clean_go rooted (".." :: out) cs
            else clean_go rooted out' cs
        end
      else clean_go rooted (c :: out) cs
  end.

Definition comps (path : string) : list string :=
  reverse (clean_go (IsAbs path) [] (Split path)).

Definition abs (cs : list string) : string := String Separator (join_sep cs).

Definition Clean (path : string) : string :=
  if IsAbs path then abs (comps path)
  else let body := join_sep (comps path) in
       if decide (body = "") then "." else body.

(** [filepath.Join(a, b)]. *)
Definition Join (a b : string) : string :=
  if decide (a = "") then (if decide (b = "") then "" else Clean b)
  else Clean (a +:+ String Separator b).

(** [filepath.Dir]: everything up to the last separator, cleaned. *)
Definition Dir (path : string) : string :=
  Clean (join_sep (removelast (Split path) ++ [""])).

Definition words (path : string) : list string := filter (λ w, w ≠ "") (Split path).

Fixpoint strip (b t : list string) : list string * list string :=
  match b, t with
  | x :: b', y :: t' => if decide (x = y) then strip b' t' else (b, t)
  | _, _ => (b, t)
  end.

(** [filepath.Rel]; [None] is its error. *)
Definition Rel (basepath targpath : string) : option string :=
  let b := Clean basepath in
  let t := Clean targpath in
  if decide (b = t) then Some "."
  else if decide (IsAbs b = IsAbs t) then
    let '(rb, rt) := strip (if decide (b = ".") then [] else words b) (words t) in
    match rb with
    | [] => Some (join_sep rt)
    | x :: _ =>
        if decide (x = "..") then None
        else Some (join_sep (replicate (length rb) ".." ++ rt))
    end
  else None.

(** [within] of internal/dirtyset; internal/normalize and internal/watchtree have
    the same function. *)
Definition within (root path : string) : bool :=
  match Rel root path with
  | Some relative =>
      negb (bool_decide (relative = "..")) &&
      negb (bool_decide (3 < String.length relative) && HasPrefix relative "../")
  | None => false
  end.

(** [withinObserver] of observer.go, which also rejects the relative path [../]. *)
Definition withinObserver (root path : string) : bool :=
  match Rel root path with
  | Some rel =>
      negb (bool_decide (rel = "..")) &&
      negb (bool_decide (3 ≤ String.length rel) && HasPrefix rel "../")
  | None => false
  end.

(** [pathHasPrefix] of store.go. *)
Definition pathHasPrefix (path prefix : string) : bool :=
  if decide (prefix = "" ∨ path = prefix) then true
  else if negb (HasPrefix path prefix) then false
  else HasSuffix prefix Separator || HasSuffix prefix Backslash ||
       match String.get (String.length prefix) path with
       | Some c => bool_decide (c = Separator ∨ c = Backslash)
       | None => false
       end.

(** A name that can be a component of a clean path. *)
Fixpoint no_sep (w : string) : bool :=
  match w with
  | EmptyString => true
  | String c w' => negb (bool_decide (c = Separator)) && no_sep w'
  end.

Definition good (c : string) : Prop :=
  c ≠ "" ∧ c ≠ "." ∧ c ≠ ".." ∧ no_sep c = true.

#[global] Instance good_dec c : Decision (good c).
Proof. apply _. Defined.

(** A clean absolute path. *)
Definition clean_abs (p : string) : Prop := IsAbs p = true ∧ Clean p = p.

#[global] Instance clean_abs_dec p : Decision (clean_abs p).
Proof. apply _. Defined.

(** ** Splitting and joining *)

Lemma Split_not_nil s : Split s ≠ [].
Proof. destruct s as [|c s]; simpl; [done|]. cases; done. Qed.

Lemma no_sep_app a b : no_sep (a +:+ b) = no_sep a && no_sep b.
Proof.
  induction a as [|c a IH]; [done|]. simpl.
  change (String c a +:+ b) with (String c (a +:+ b)). simpl. rewrite IH.
  by rewrite andb_assoc.
Qed.

Lemma Split_no_sep s : Forall (λ w, no_sep w = true) (Split s).
Proof.
  induction s as [|c s IH]; simpl; [by repeat constructor|].
  case_decide; [by constructor|].
  destruct (Split s) as [|w ws].
  - constructor; [|done]. simpl. by rewrite bool_decide_false.
  - inv IH. constructor; [|done]. simpl. rewrite bool_decide_false by done. done.
Qed.

Lemma Split_single w : no_sep w = true → Split w = [w].
Proof.
  induction w as [|c w IH]; simpl; [done|].
  intros [Hc Hw]%andb_true_iff. rewrite negb_true_iff, bool_decide_eq_false in Hc.
  rewrite decide_False by done. by rewrite IH.
Qed.

Lemma Split_app_sep w s :
  no_sep w = true → Split (w +:+ String Separator s) = w :: Split s.
Proof.
  induction w as [|c w IH]; intros Hw; [done|].
  simpl in Hw. apply andb_true_iff in Hw as [Hc Hw].
  rewrite negb_true_iff, bool_decide_eq_false in Hc.
  change (String c w +:+ String Separator s) with (String c (w +:+ String Separator s)).
  simpl. rewrite decide_False by done. by rewrite IH.
Qed.

Lemma Split_join_sep ws :
  ws ≠ [] → Forall (λ w, no_sep w = true) ws → Split (join_sep ws) = ws.
Proof.
  induction ws as [|w ws IH]; [done|]. intros _ Hall. inv Hall.
  destruct ws as [|w' ws]; [by apply Split_single|].
  change (join_sep (w :: w' :: ws)) with (w +:+ String Separator (join_sep (w' :: ws))).
  rewrite Split_app_sep by done. by rewrite IH.
Qed.

Lemma join_sep_Split s : join_sep (Split s) = s.
Proof.
  induction s as [|c s IH]; simpl; [done|].
  pose proof (Split_not_nil s). case_decide; subst.
  - destruct (Split s) as [|w ws]; [done|].
    change (join_sep ("" :: w :: ws)) with ("" +:+ String Separator (join_sep (w :: ws))).
    by rewrite IH.
  - destruct (Split s) as [|w ws]; [done|]. destruct ws as [|w' ws].
    + simpl in *. by rewrite IH.
    + change (join_sep (String c w :: w' :: ws))
        with (String c w +:+ String Separator (join_sep (w' :: ws))).
      change (String c w +:+ ?x) with (String c (w +:+ x)). f_equal. exact IH.
Qed.

Lemma good_no_sep c : good c → no_sep c = true.
Proof. by intros (?&?&?&?). Qed.

Lemma good_all_no_sep cs : Forall good cs → Forall (λ w, no_sep w = true) cs.
Proof. intros Hg. eapply Forall_impl; [exact Hg|]. apply good_no_sep. Qed.

Lemma Split_abs cs :
  Forall good cs → Split (abs cs) = "" :: match cs with [] => [""] | _ => cs end.
Proof.
  intros Hg. unfold abs. simpl. f_equal. destruct cs as [|c cs]; [done|].
  rewrite Split_join_sep; [done|done|]. by apply good_all_no_sep.
Qed.

(** ** Clean paths and component lists *)

Lemma clean_go_rooted_good out parts :
  Forall good out → Forall (λ w, no_sep w = true) parts →
  Forall good (clean_go true out parts).
Proof.
  revert out. induction parts as [|c cs IH]; intros out Ho Hp; simpl; [done|].
  inv Hp. case_decide as Hc; [by apply IH|]. case_decide as Hd.
  - destruct out as [|top out']; [by apply IH|]. inv Ho.
    case_decide; [|by apply IH]. unfold good in *. naive_solver.
  - apply IH; [|done]. constructor; [|done]. split_and!; naive_solver.
Qed.

Lemma clean_go_good_id rooted out cs :
  Forall good cs → clean_go rooted out cs = reverse cs ++ out.
Proof.
  revert out. induction cs as [|c cs IH]; intros out Hg; simpl; [done|].
  inv Hg. destruct H1 as (?&?&?&?). rewrite decide_False by naive_solver.
  rewrite decide_False by done. rewrite IH by done.
  by rewrite reverse_cons, <-app_assoc.
Qed.

Lemma IsAbs_abs cs : IsAbs (abs cs) = true.
Proof. done. Qed.

Lemma comps_good p : IsAbs p = true → Forall good (comps p).
Proof.
  intros Hp. unfold comps. rewrite Hp. apply Forall_reverse.
  apply clean_go_rooted_good; [done|]. apply Split_no_sep.
Qed.

Lemma comps_abs cs : Forall good cs → comps (abs cs) = cs.
Proof.
  intros Hg. unfold comps. rewrite IsAbs_abs, Split_abs by done. simpl.
  destruct cs as [|c cs]; [done|].
  rewrite clean_go_good_id by done. by rewrite app_nil_r, reverse_involutive.
Qed.

Lemma Clean_abs cs : Forall good cs → Clean (abs cs) = abs cs.
Proof. intros Hg. unfold Clean. by rewrite IsAbs_abs, comps_abs. Qed.

Lemma Clean_IsAbs p : IsAbs p = true → Clean p = abs (comps p).
Proof. intros Hp. unfold Clean. by rewrite Hp. Qed.

Lemma abs_inj cs ds : Forall good cs → Forall good ds → abs cs = abs ds → cs = ds.
Proof. intros Hc Hd E. by rewrite <-(comps_abs cs), <-(comps_abs ds), E. Qed.

Lemma clean_abs_spec p : clean_abs p ↔ p = abs (comps p) ∧ Forall good (comps p).
Proof.
  split.
  - intros [Ha Hc]. rewrite Clean_IsAbs in Hc by done. split; [done|by apply comps_good].
  - intros [Hp Hg]. rewrite Hp. split; [done|by apply Clean_abs].
Qed.

Lemma clean_abs_abs cs : Forall good cs → clean_abs (abs cs).
Proof. intros Hg. split; [done|by apply Clean_abs]. Qed.

Lemma clean_abs_Clean p : IsAbs p = true → clean_abs (Clean p).
Proof.
  intros Hp. rewrite Clean_IsAbs by done. apply clean_abs_abs. by apply comps_good.
Qed.

Lemma clean_abs_elim p : clean_abs p → ∃ cs, p = abs cs ∧ Forall good cs ∧ comps p = cs.
Proof. intros [E G]%clean_abs_spec. eauto. Qed.

(** [Clean] is idempotent on absolute paths. *)
Lemma Clean_idemp p : IsAbs p = true → Clean (Clean p) = Clean p.
Proof. intros Hp. by apply clean_abs_Clean. Qed.

Lemma comps_inj p q : clean_abs p → clean_abs q → comps p = comps q → p = q.
Proof. intros [Hp _]%clean_abs_spec [Hq _]%clean_abs_spec E. by rewrite Hp, Hq, E. Qed.

(** Eliminate a clean absolute path in favour of its components. *)
Ltac abs_path p cs :=
  let Hg := fresh "Hg" cs in
  match goal with
  | H : clean_abs p |- _ =>
      apply clean_abs_elim in H as (cs & -> & Hg & _)
  end.

(** ** Relative paths and the subtree relation *)

Lemma words_abs cs : Forall good cs → words (abs cs) = cs.
Proof.
  intros Hg. unfold words. rewrite Split_abs by done.
  rewrite filter_cons_False by naive_solver. destruct cs as [|c cs]; [done|].
  apply filter_all. eapply Forall_impl; [exact Hg|]. by intros ? (?&?).
Qed.

Lemma strip_spec b t :
  ∃ k, b = k ++ (strip b t).1 ∧ t = k ++ (strip b t).2 ∧
       ((strip b t).1 = [] ↔ b `prefix_of` t).
Proof.
  revert t. induction b as [|x b IH]; intros t; simpl.
  { exists []. split_and!; [done..|]. split; [|done]. intros _. apply prefix_nil. }
  destruct t as [|y t]; simpl.
  { exists []. split_and!; [done..|]. split; [done|]. by intros ?%prefix_nil_not. }
  case_decide; subst; simpl.
  - destruct (IH t) as (k & Hb & Ht & Hp). exists (y :: k). simpl.
    split_and!; [by f_equal|by f_equal|]. rewrite Hp. split; [apply prefix_cons|].
    apply prefix_cons_inv_2.
  - exists []. split_and!; [done..|]. split; [done|].
    by intros ?%prefix_cons_inv_1.
Qed.

Lemma Rel_abs r q :
  Forall good r → Forall good q →
  Rel (abs r) (abs q) =
    Some (if decide (r = q) then "."
          else join_sep (replicate (length (strip r q).1) ".." ++ (strip r q).2)).
Proof.
  intros Hr Hq. unfold Rel. rewrite !Clean_abs by done.
  case_decide as E; [apply abs_inj in E; [|done..]; by rewrite decide_True|].
  rewrite (decide_False (P := r = q)) by congruence.
  rewrite decide_True by done. rewrite decide_False by done.
  rewrite !words_abs by done.
  destruct (strip_spec r q) as (k & Er & _ & _).
  destruct (strip r q) as [[|x rb] rt]; [done|]. rewrite decide_False; [done|].
  simpl in Er. intros ->. rewrite Er in Hr. apply Forall_app in Hr as [_ Hr]. inv Hr.
  unfold good in *. naive_solver.
Qed.

Lemma string_cons_app c a b : String c a +:+ b = String c (a +:+ b).
Proof. done. Qed.

Lemma HasPrefix_spec s p : HasPrefix s p = true ↔ ∃ s', s = p +:+ s'.
Proof.
  unfold HasPrefix. revert s. induction p as [|c p IH]; intros s; simpl.
  - split; [by exists s|]. by destruct s.
  - destruct s as [|a s]; simpl; [split; [done|]; by intros [? ?]|].
    setoid_rewrite string_cons_app.
    destruct (ascii_dec c a) as [->|Hne].
    + rewrite IH. split; intros [s' E]; exists s'; by simplify_eq.
    + split; [done|]. intros [s' E]. by simplify_eq.
Qed.

(** A relative path made of good components does not climb. *)
Lemma join_sep_good_not_up ws :
  Forall good ws → ws ≠ [] → join_sep ws ≠ ".." ∧ HasPrefix (join_sep ws) "../" = false.
Proof.
  intros Hg Hne. pose proof (Split_join_sep ws Hne (good_all_no_sep _ Hg)) as HS.
  destruct ws as [|w ws]; [done|]. inv Hg. split.
  - intros E. rewrite E in HS. simpl in HS. simplify_eq. unfold good in *. naive_solver.
  - apply not_true_is_false. intros [s' E]%HasPrefix_spec.
    change ("../" +:+ s') with (String "." (String "." (String Separator s'))) in E.
    rewrite E in HS. simpl in HS.
    simplify_eq. unfold good in *. naive_solver.
Qed.

Lemma join_sep_up n ws :
  n ≠ 0 → Forall good ws →
  let s := join_sep (replicate n ".." ++ ws) in
  s = ".." ∨ (3 < String.length s ∧ HasPrefix s "../" = true).
Proof.
  intros Hn Hg. destruct n as [|n]; [done|]. simpl.
  destruct (replicate n ".." ++ ws) as [|w l] eqn:E; [by left|right].
  assert (w ≠ "") as Hw.
  { destruct n as [|n]; simpl in E; [|by simplify_eq].
    subst. inv Hg. unfold good in *. naive_solver. }
  rewrite HasPrefix_spec, !string_cons_app. split.
  - assert (String.length (join_sep (w :: l)) ≠ 0); [|simpl in *; lia].
    destruct w as [|c w]; [done|]. by destruct l.
  - by exists (join_sep (w :: l)).
Qed.

(** The subtree test of the program is the prefix order on components. *)
Lemma within_abs r q :
  Forall good r → Forall good q → within (abs r) (abs q) = true ↔ r `prefix_of` q.
Proof.
  intros Hr Hq. unfold within. rewrite Rel_abs by done.
  case_decide as E; [subst; by split|].
  destruct (strip_spec r q) as (k & Er & Eq & Hp). rewrite <-Hp.
  assert (Forall good (strip r q).2) as Hg.
  { rewrite Eq in Hq. by apply Forall_app in Hq as []. }
  destruct (strip r q) as [rb rt]; simpl in *. destruct rb as [|x rb].
  - assert (rt ≠ []) as Hne by (intros ->; congruence).
    destruct (join_sep_good_not_up rt Hg Hne) as [H1 H2]. simpl. rewrite H2.
    rewrite bool_decide_false by done. by rewrite andb_false_r.
  - split; [|done]. destruct (join_sep_up (length (x :: rb)) rt ltac:(done) Hg) as [->|[H1 H2]].
    + done.
    + rewrite H2, (bool_decide_true _ H1). by rewrite andb_comm.
Qed.

(** [filepath.Rel] has no empty elements, so it never ends in a separator. *)
Lemma Rel_no_trailing b t : Rel b t ≠ Some "../".
Proof.
  assert (∀ ws : list string, Forall (λ w, w ≠ "" ∧ no_sep w = true) ws → join_sep ws ≠ "../") as Hj.
  { intros ws Hws E. destruct (decide (ws = [])) as [->|Hne]; [done|].
    assert (Split (join_sep ws) = ws) as Hs by (apply Split_join_sep; [done|]; eapply Forall_impl; [exact Hws|]; naive_solver).
    rewrite E in Hs. rewrite <-Hs in Hws. apply Forall_cons in Hws as [_ [[? _] _]%Forall_cons]. done. }
  assert (∀ p, Forall (λ w, w ≠ "" ∧ no_sep w = true) (words p)) as Hwords.
  { intros p. apply Forall_forall. intros w [Hw Hin]%list_elem_of_filter. split; [done|].
    pose proof (Split_no_sep p) as Hall. rewrite Forall_forall in Hall. by apply Hall. }
  unfold Rel. case_decide; [done|]. case_decide; [|done].
  destruct (strip _ (words (Clean t))) as [rb rt] eqn:Es.
  assert (Forall (λ w, w ≠ "" ∧ no_sep w = true) rt) as Hrt.
  { destruct (strip_spec (if decide (Clean b = ".") then [] else words (Clean b)) (words (Clean t))) as (k & _ & Ht & _).
    rewrite Es in Ht. pose proof (Hwords (Clean t)) as Hw. rewrite Ht in Hw. by apply Forall_app in Hw as [_ Hw]. }
  destruct rb as [|x rb]; [by intros [= E%Hj]|]. destruct (decide (x = "..")); [done|]. intros E.
  assert (join_sep (replicate (length (x :: rb)) ".." ++ rt) = "../") as E' by congruence.
  revert E'. apply Hj, Forall_app_2; [|done].
  apply Forall_replicate. done.
Qed.

(** The two spellings of the test agree. *)
Lemma withinObserver_within root path : withinObserver root path = within root path.
Proof.
  unfold withinObserver, within. pose proof (Rel_no_trailing root path) as Hne. destruct (Rel root path) as [r|]; [|done].
  f_equal. f_equal. destruct (HasPrefix r "../") eqn:E; [|by rewrite !andb_false_r]. rewrite !andb_true_r.
  apply HasPrefix_spec in E as [s ->]. destruct s as [|c s]; [done|]. by rewrite !bool_decide_true by (simpl; lia).
Qed.

Lemma Clean_nonempty p : Clean p ≠ "".
Proof. unfold Clean. cases; try done. Qed.

Lemma Rel_Clean_l p q : IsAbs p = true → Rel (Clean p) q = Rel p q.
Proof. intros Hp. unfold Rel. by rewrite Clean_idemp. Qed.

Lemma Rel_Clean_r p q : IsAbs q = true → Rel p (Clean q) = Rel p q.
Proof. intros Hp. unfold Rel. by rewrite Clean_idemp. Qed.

Lemma clean_go_words rooted out parts :
  let P := λ w, w ≠ "" ∧ no_sep w = true in
  Forall P out → Forall (λ w, no_sep w = true) parts → Forall P (clean_go rooted out parts).
Proof.
  intros P. revert out. induction parts as [|c cs IH]; intros out Ho Hp; simpl; [done|].
  inv Hp. case_decide; [by apply IH|]. case_decide.
  - destruct out as [|top out'].
    + apply IH; [|done]. destruct rooted; repeat constructor; done.
    + inv Ho. case_decide; apply IH; repeat constructor; try done. all: by apply H5.
  - apply IH; [|done]. constructor; [|done]. split; [naive_solver|done].
Qed.

Lemma IsAbs_join_sep ws :
  Forall (λ w, w ≠ "" ∧ no_sep w = true) ws → IsAbs (join_sep ws) = false.
Proof.
  destruct ws as [|w ws]; [done|]. intros Hw. inv Hw. destruct H1 as [Hne Hs].
  destruct w as [|c w]; [done|]. simpl in Hs. apply andb_true_iff in Hs as [Hs _].
  apply negb_true_iff in Hs. by destruct ws.
Qed.

Lemma IsAbs_Clean q : IsAbs (Clean q) = IsAbs q.
Proof.
  unfold Clean. destruct (IsAbs q) eqn:Hq; [done|]. cbv zeta. case_decide; [done|].
  apply IsAbs_join_sep. unfold comps. apply Forall_reverse, clean_go_words; [done|].
  apply Split_no_sep.
Qed.

(** A relative path is never inside an absolute root. *)
Lemma within_relative r q : IsAbs r = true → IsAbs q = false → within r q = false.
Proof.
  intros Hr Hq. unfold within, Rel. rewrite decide_False.
  - rewrite decide_False; [done|]. rewrite !IsAbs_Clean. congruence.
  - intros E. apply (f_equal IsAbs) in E. rewrite !IsAbs_Clean in E. congruence.
Qed.

Lemma within_inv r p :
  clean_abs r → within r (Clean p) = true → clean_abs (Clean p) ∧ comps r `prefix_of` comps (Clean p).
Proof.
  intros Hr Hw. destruct (IsAbs p) eqn:Hp.
  - pose proof (clean_abs_Clean p Hp) as Hc. split; [done|].
    apply clean_abs_spec in Hr as [Er Gr]. pose proof Hc as Hc'.
    apply clean_abs_spec in Hc' as [Ec Gc]. rewrite Er, Ec in Hw.
    by apply within_abs in Hw.
  - rewrite within_relative in Hw; [done|by destruct Hr|by rewrite IsAbs_Clean].
Qed.

(** ** [Join] and [Dir] *)

Lemma string_app_nil_r s : s +:+ "" = s.
Proof. induction s as [|c s IH]; [done|]. change (String c s +:+ "") with (String c (s +:+ "")). by rewrite IH. Qed.

Lemma string_app_assoc a b c : (a +:+ b) +:+ c = a +:+ (b +:+ c).
Proof.
  induction a as [|x a IH]; [done|].
  change (String x (a +:+ b) +:+ c = String x (a +:+ (b +:+ c))).
  change (String x (a +:+ b) +:+ c) with (String x ((a +:+ b) +:+ c)). by rewrite IH.
Qed.

Lemma join_sep_snoc ws w :
  ws ≠ [] → join_sep (ws ++ [w]) = join_sep ws +:+ String Separator w.
Proof.
  induction ws as [|x ws IH]; [done|]. intros _. destruct ws as [|y ws]; [done|].
  change (join_sep ((x :: y :: ws) ++ [w])) with (x +:+ String Separator (join_sep ((y :: ws) ++ [w]))).
  rewrite IH by done.
  change (join_sep (x :: y :: ws)) with (x +:+ String Separator (join_sep (y :: ws))).
  by rewrite string_app_assoc.
Qed.

Lemma comps_of_abs_app cs name :
  Forall good cs → good name → comps (abs cs +:+ String Separator name) = cs ++ [name].
Proof.
  intros Hg Hn. unfold comps. change (IsAbs (abs cs +:+ _)) with true.
  change (abs cs +:+ String Separator name) with (String Separator (join_sep cs +:+ String Separator name)).
  simpl. destruct cs as [|c cs].
  - simpl. change ("" +:+ String Separator name) with (String Separator name). simpl.
    rewrite Split_single by by apply good_no_sep. destruct Hn as (?&?&?&?).
    simpl. rewrite !decide_False by naive_solver. done.
  - rewrite <-join_sep_snoc by done.
    assert (Forall good ((c :: cs) ++ [name])) as Hg' by (apply Forall_app_2; [done|by constructor]).
    rewrite Split_join_sep; [|by destruct cs|by apply good_all_no_sep].
    rewrite clean_go_good_id by done. by rewrite app_nil_r, reverse_involutive.
Qed.

Lemma Join_abs cs name :
  Forall good cs → good name → Join (abs cs) name = abs (cs ++ [name]).
Proof.
  intros Hg Hn. unfold Join. rewrite decide_False by done.
  rewrite Clean_IsAbs by done. by rewrite comps_of_abs_app.
Qed.

Lemma clean_go_app rooted out a b :
  clean_go rooted out (a ++ b) = clean_go rooted (clean_go rooted out a) b.
Proof.
  revert out. induction a as [|c a IH]; intros out; simpl; [done|].
  cases; try done; apply IH.
Qed.

Lemma Dir_abs cs : Forall good cs → Dir (abs cs) = abs (removelast cs).
Proof.
  intros Hg. unfold Dir. rewrite Split_abs by done. destruct cs as [|c cs]; [done|].
  assert (Forall good (removelast (c :: cs))) as Hr.
  { revert Hg. generalize (c :: cs). intros l. induction 1 as [|x l Hx Hl IH]; [done|].
    simpl. destruct l; [done|]. by constructor. }
  change (removelast ("" :: c :: cs)) with ("" :: removelast (c :: cs)).
  set (r := removelast (c :: cs)) in *. clearbody r.
  assert (IsAbs (join_sep (("" :: r) ++ [""])) = true) as Ha by (destruct r; reflexivity).
  rewrite Clean_IsAbs by done. f_equal. unfold comps. rewrite Ha.
  rewrite Split_join_sep; [|done|].
  - simpl. rewrite clean_go_app, (clean_go_good_id true [] r) by done. simpl.
    by rewrite app_nil_r, reverse_involutive.
  - simpl. constructor; [done|]. apply Forall_app. split; [by apply good_all_no_sep|].
    by repeat constructor.
Qed.

(** ** The prefix test of the stores

    [pathHasPrefix] accepts a backslash as separator; on a path without one it
    is the prefix order on components. *)

Fixpoint no_backslash (w : string) : bool :=
  match w with
  | EmptyString => true
  | String c w' => negb (bool_decide (c = Backslash)) && no_backslash w'
  end.

Lemma no_backslash_app a b : no_backslash (a +:+ b) = no_backslash a && no_backslash b.
Proof. induction a as [|c a IH]; [done|]. rewrite string_cons_app. simpl. by rewrite IH, andb_assoc. Qed.

Lemma Split_app a s : Split (a +:+ String Separator s) = Split a ++ Split s.
Proof.
  induction a as [|c a IH]; [done|]. rewrite string_cons_app. simpl.
  case_decide; [by rewrite IH|]. rewrite IH.
  pose proof (Split_not_nil a). by destruct (Split a).
Qed.

Lemma HasSuffix_no_backslash s : no_backslash s = true → HasSuffix s Backslash = false.
Proof.
  induction s as [|c s IH]; [done|]. simpl. intros [Hc Hs]%andb_true_iff.
  apply negb_true_iff in Hc. destruct s; [done|]. by apply IH.
Qed.

Lemma HasSuffix_no_sep s : no_sep s = true → HasSuffix s Separator = false.
Proof.
  induction s as [|c s IH]; [done|]. simpl. intros [Hc Hs]%andb_true_iff.
  apply negb_true_iff in Hc. destruct s; [done|]. by apply IH.
Qed.

Lemma HasSuffix_app a b c : b ≠ "" → HasSuffix (a +:+ b) c = HasSuffix b c.
Proof.
  intros Hb. induction a as [|x a IH]; [done|]. rewrite string_cons_app. simpl.
  destruct (a +:+ b) eqn:E; [|done]. destruct a; [|done]. by simpl in E.
Qed.

Lemma HasSuffix_abs cs : Forall good cs → cs ≠ [] → HasSuffix (abs cs) Separator = false.
Proof.
  intros Hg Hne. destruct (exists_last Hne) as (l & c & ->).
  apply Forall_app in Hg as [Hl Hc]. inv Hc.
  assert (HasSuffix c Separator = false) as Hs by by apply HasSuffix_no_sep, good_no_sep.
  assert (c ≠ "") by by destruct H1. unfold abs. destruct l as [|x l].
  - simpl. by destruct c.
  - rewrite join_sep_snoc by done.
    change (String Separator (?a +:+ String Separator c))
      with ((String Separator a) +:+ String Separator c).
    rewrite HasSuffix_app by done. by destruct c.
Qed.

Lemma get_app a c s : String.get (String.length a) (a +:+ String c s) = Some c.
Proof. induction a as [|x a IH]; [done|]. rewrite string_cons_app. simpl. done. Qed.

Lemma join_sep_app_prefix r q :
  q ≠ [] → r ≠ [] → join_sep (r ++ q) = join_sep r +:+ String Separator (join_sep q).
Proof.
  intros Hq. induction r as [|x r IH]; [done|]. intros _.
  destruct r as [|y r]; [by destruct q|].
  change (join_sep ((x :: y :: r) ++ q)) with (x +:+ String Separator (join_sep ((y :: r) ++ q))).
  rewrite IH by done.
  change (join_sep (x :: y :: r)) with (x +:+ String Separator (join_sep (y :: r))).
  by rewrite string_app_assoc.
Qed.

Lemma pathHasPrefix_complete p r :
  Forall good p → Forall good r → r `prefix_of` p → pathHasPrefix (abs p) (abs r) = true.
Proof.
  intros Hp Hr [k ->]. unfold pathHasPrefix. case_decide as E; [done|].
  assert (k ≠ []) as Hk by (intros ->; rewrite app_nil_r in E; naive_solver).
  destruct (decide (r = [])) as [->|Hne].
  { replace (HasPrefix (abs ([] ++ k)) (abs [])) with true; [done|].
    symmetry. apply HasPrefix_spec. by exists (join_sep k). }
  unfold abs. rewrite join_sep_app_prefix by done. rewrite <-string_cons_app.
  replace (HasPrefix _ _) with true by (symmetry; apply HasPrefix_spec; eauto).
  rewrite get_app, bool_decide_true by naive_solver. by rewrite !orb_true_r.
Qed.

Lemma pathHasPrefix_sound p r :
  Forall good p → Forall good r → no_backslash (abs p) = true →
  pathHasPrefix (abs p) (abs r) = true → r `prefix_of` p.
Proof.
  intros Hp Hr Hb. unfold pathHasPrefix. case_decide as E.
  { destruct E as [E|E%abs_inj]; [done|by subst|done..]. }
  destruct (HasPrefix (abs p) (abs r)) eqn:HP; [|done]. cbn [negb].
  destruct (decide (r = [])) as [->|Hne]; [intros _; apply prefix_nil|].
  rewrite HasSuffix_abs by done.
  apply HasPrefix_spec in HP as [s' Es]. rewrite Es, no_backslash_app in Hb.
  apply andb_true_iff in Hb as [Hb1 Hb2]. rewrite HasSuffix_no_backslash by done. cbn [orb].
  rewrite Es. destruct s' as [|c s'].
  { rewrite string_app_nil_r in Es. destruct E. by right. }
  rewrite get_app. intros Hc%bool_decide_eq_true. destruct Hc as [->| ->]; [|done].
  apply (f_equal Split) in Es. rewrite Split_app, !Split_abs in Es by done.
  destruct r as [|x r]; [done|]. simpl in Es. destruct p as [|y p]; simplify_eq/=.
  { inv Hr. unfold good in *. naive_solver. }
  apply prefix_cons, prefix_app_r. done.
Qed.

Lemma pathHasPrefix_abs p r :
  Forall good p → Forall good r → no_backslash (abs p) = true →
  pathHasPrefix (abs p) (abs r) = true ↔ r `prefix_of` p.
Proof.
  intros. split; [by apply pathHasPrefix_sound|by apply pathHasPrefix_complete].
Qed.
