(* ===== verification/Diff.v ===== *)
(** * The semantic diff engine: internal/reconcile/reconcile.go

    [WalkDiffScoped] compares the previous snapshot with the scanned state (and,
    when configured, with the expected state) and streams changes to a callback
    that can fail.  It is modelled loop by loop in the state-and-error monad;
    the theorems say which changes are emitted, that each is emitted once, that
    a failing callback stops the stream exactly there, and that replaying the
    changes on the previous snapshot gives the scanned state. *)

From S2P Require Import Prelude.

(** ** Data *)

Inductive FileType : Type :=
  | TypeUnknown
  | TypeRegular
  | TypeDirectory
  | TypeSymlink
  | TypeOther.

Inductive Kind : Type :=
  | Created
  | Modified
  | Deleted
  | Moved
  | AttributeChanged
  | Missing
  | Orphan
  | Replaced
  | Invalid.

Record State : Type := mkState {
  st_Path : string;
  st_ID : string;
  st_Type : FileType;
  st_Size : Z;
  st_ModUnix : Z;
  st_Mode : Z
}.

Record Expected : Type := mkExpected {
  ex_Path : string;
  ex_Type : option FileType;
  ex_Size : option Z;
  ex_Fingerprint : list Byte.byte
}.

Record Change : Type := change {
  ch_Kind : Kind;
  ch_Path : string;
  ch_OldPath : string;
  ch_Before : option State;
  ch_After : option State
}.

#[global] Instance FileType_eq_dec : EqDecision FileType.
Proof. solve_decision. Defined.
#[global] Instance Kind_eq_dec : EqDecision Kind.
Proof. solve_decision. Defined.
#[global] Instance State_eq_dec : EqDecision State.
Proof. solve_decision. Defined.
#[global] Instance Change_eq_dec : EqDecision Change.
Proof. solve_decision. Defined.

(** Reading an absent key of a Go map gives the zero value. *)
#[global] Instance State_inhabited : Inhabited State :=
  populate (mkState "" "" TypeUnknown 0 0 0).

#[global] Instance Expected_inhabited : Inhabited Expected :=
  populate (mkExpected "" None None []).

Abbreviation states := (gmap string State).

(** ** Operations *)

Definition sameIdentity (a b : State) : bool :=
  if decide (st_ID a = "" ∨ st_ID b = "") then true
  else bool_decide (st_ID a = st_ID b).

Definition contentChanged (a b : State) : bool :=
  bool_decide (st_Type a ≠ st_Type b) || bool_decide (st_Size a ≠ st_Size b)
  || bool_decide (st_ModUnix a ≠ st_ModUnix b).

(** [indexUniqueIDs] ranges over the map in an unspecified order: [entries] is
    that order.  The state is [(result, duplicates)]. *)
Definition index_step (acc : gmap string string * gset string) (entry : string * State)
    : gmap string string * gset string :=
  let '(result, duplicates) := acc in
  let '(path, state) := entry in
  if decide (st_ID state = "") then acc
  else match result !! st_ID state with
       | Some _ => (result, {[st_ID state]} ∪ duplicates)
       | None => (<[st_ID state := path]> result, duplicates)
       end.

Definition index_entries (entries : list (string * State)) : gmap string string :=
  let '(result, duplicates) := foldl index_step (∅, ∅) entries in
  filter (λ kv, kv.1 ∉ duplicates) result.

Definition indexUniqueIDs (m : states) : gmap string string :=
  index_entries (map_to_list m).

Section walk.
Context {S : Type} (previous actual : states) (emit : Change → M S ()).

(** First loop: the paths present on both sides. *)
Fixpoint walk_common (paths : list string) (rp ra : states) : M S (states * states) :=
  match paths with
  | [] => mret (rp, ra)
  | path :: paths' =>
      match previous !! path with
      | None => walk_common paths' rp ra
      | Some before =>
          let after := actual !!! path in
          let rp' := delete path rp in
          let ra' := delete path ra in
          (if negb (sameIdentity before after) then
             emit (change Replaced path "" (Some before) (Some after))
           else if contentChanged before after then
             emit (change Modified path "" (Some before) (Some after))
           else if decide (st_Mode before ≠ st_Mode after) then
             emit (change AttributeChanged path "" (Some before) (Some after))
           else mret ()) ;;
          walk_common paths' rp' ra'
      end
  end.

(** Second loop: identities that are unique on both remaining sides. *)
Fixpoint walk_moves (prevIDs actualIDs : gmap string string) (ids : list string)
    (rp ra : states) : M S (states * states) :=
  match ids with
  | [] => mret (rp, ra)
  | id :: ids' =>
      match prevIDs !! id with
      | None => walk_moves prevIDs actualIDs ids' rp ra
      | Some oldPath =>
          if decide (id = "") then walk_moves prevIDs actualIDs ids' rp ra
          else
            let newPath := actualIDs !!! id in
            let before := rp !!! oldPath in
            let after := ra !!! newPath in
            emit (change Moved newPath oldPath (Some before) (Some after)) ;;
            walk_moves prevIDs actualIDs ids' (delete oldPath rp) (delete newPath ra)
      end
  end.

Definition walk_created (ra : states) : M S () :=
  forM (sortedKeys ra) (λ path, emit (change Created path "" None (Some (ra !!! path)))).

Definition walk_deleted (rp : states) : M S () :=
  forM (sortedKeys rp) (λ path, emit (change Deleted path "" (Some (rp !!! path)) None)).

(** The test of the expected loop: a configured type or size differs. *)
Definition violates (exp : Expected) (state : State) : bool :=
  match ex_Type exp with Some t => bool_decide (st_Type state ≠ t) | None => false end ||
  match ex_Size exp with Some n => bool_decide (st_Size state ≠ n) | None => false end.

Definition walk_constraints (expected : gmap string Expected) : M S () :=
  forM (sortedKeys expected) (λ path,
    let exp := expected !!! path in
    match actual !! path with
    | None => emit (change Missing path "" None None)
    | Some state =>
        if violates exp state then emit (change Invalid path "" None (Some state))
        else mret ()
    end).

Definition walk_orphans (expected : gmap string Expected)
    (orphanEligible : option (State → bool)) : M S () :=
  forM (sortedKeys actual) (λ path,
    if match orphanEligible with Some f => negb (f (actual !!! path)) | None => false end
    then mret ()
    else match expected !! path with
         | Some _ => mret ()
         | None => emit (change Orphan path "" None (Some (actual !!! path)))
         end).

(** [expected = None] is the nil map: expected-state reconciliation disabled. *)
Definition WalkDiffScoped (expected : option (gmap string Expected))
    (orphanEligible : option (State → bool)) : M S () :=
  '(rp, ra) ← walk_common (sortedKeys actual) previous actual;
  let prevIDs := indexUniqueIDs rp in
  let actualIDs := indexUniqueIDs ra in
  '(rp, ra) ← walk_moves prevIDs actualIDs (sortedKeys actualIDs) rp ra;
  walk_created ra ;;
  walk_deleted rp ;;
  match expected with
  | None => mret ()
  | Some exp => walk_constraints exp ;; walk_orphans exp orphanEligible
  end.

Definition WalkDiff (expected : option (gmap string Expected)) : M S () :=
  WalkDiffScoped expected None.

End walk.

(** [Diff] collects the changes in a slice. *)
Definition collect_change (c : Change) : M (list Change) () := modify (λ cs, cs ++ [c]).

Definition Diff (previous actual : states) (expected : option (gmap string Expected))
    : list Change :=
  (WalkDiff previous actual collect_change expected []).2.

(** ** Specification

    [unique_in m id p]: [p] is the only path of [m] with the non-empty identity
    [id].  [move_spec]: an identity that disappeared from one path only and
    appeared at one path only. *)
Definition unique_in (m : states) (id p : string) : Prop :=
  id ≠ "" ∧ (st_ID <$> m !! p) = Some id ∧
  ∀ p' s, m !! p' = Some s → st_ID s = id → p' = p.

Definition move_spec (previous actual : states) (id old new : string) : Prop :=
  unique_in (previous ∖ actual) id old ∧ unique_in (actual ∖ previous) id new.

Inductive change_spec (previous actual : states) (expected : option (gmap string Expected))
    (orphanEligible : option (State → bool)) : Change → Prop :=
  | spec_replaced p b a :
      previous !! p = Some b → actual !! p = Some a → sameIdentity b a = false →
      change_spec previous actual expected orphanEligible (change Replaced p "" (Some b) (Some a))
  | spec_modified p b a :
      previous !! p = Some b → actual !! p = Some a → sameIdentity b a = true →
      contentChanged b a = true →
      change_spec previous actual expected orphanEligible (change Modified p "" (Some b) (Some a))
  | spec_attribute p b a :
      previous !! p = Some b → actual !! p = Some a → sameIdentity b a = true →
      contentChanged b a = false → st_Mode b ≠ st_Mode a →
      change_spec previous actual expected orphanEligible
        (change AttributeChanged p "" (Some b) (Some a))
  | spec_moved id old new b a :
      move_spec previous actual id old new →
      previous !! old = Some b → actual !! new = Some a →
      change_spec previous actual expected orphanEligible (change Moved new old (Some b) (Some a))
  | spec_created p a :
      actual !! p = Some a → previous !! p = None →
      (∀ id old, ¬ move_spec previous actual id old p) →
      change_spec previous actual expected orphanEligible (change Created p "" None (Some a))
  | spec_deleted p b :
      previous !! p = Some b → actual !! p = None →
      (∀ id new, ¬ move_spec previous actual id p new) →
      change_spec previous actual expected orphanEligible (change Deleted p "" (Some b) None)
  | spec_missing exp p e :
      expected = Some exp → exp !! p = Some e → actual !! p = None →
      change_spec previous actual expected orphanEligible (change Missing p "" None None)
  | spec_invalid exp p e a :
      expected = Some exp → exp !! p = Some e → actual !! p = Some a → violates e a = true →
      change_spec previous actual expected orphanEligible (change Invalid p "" None (Some a))
  | spec_orphan exp p a :
      expected = Some exp → exp !! p = None → actual !! p = Some a →
      match orphanEligible with Some f => f a = true | None => True end →
      change_spec previous actual expected orphanEligible (change Orphan p "" None (Some a)).

(** ** The identity index *)

Definition entries_of (id : string) (l : list (string * State)) : list (string * State) :=
  filter (λ e, st_ID e.2 = id) l.

Lemma entries_of_snoc id l e :
  entries_of id (l ++ [e]) = entries_of id l ++ (if decide (st_ID e.2 = id) then [e] else []).
Proof.
  unfold entries_of. by rewrite filter_app.
Qed.

Lemma index_fold_spec l :
  let acc := foldl index_step (∅, ∅) l in
  (∀ id, acc.1 !! id = if decide (id = "") then None else fst <$> head (entries_of id l)) ∧
  (∀ id, id ∈ acc.2 ↔ id ≠ "" ∧ 2 ≤ length (entries_of id l)).
Proof.
  induction l as [|e l IH] using rev_ind.
  { simpl. split; intros id; [by cases|]. split; [set_solver|]. simpl. lia. }
  rewrite foldl_snoc. destruct (foldl index_step (∅, ∅) l) as [res dups]. simpl in *.
  destruct IH as [IH1 IH2]. destruct e as [path state]. simpl.
  case_decide as H0; simpl.
  { split; intros id; [rewrite IH1|rewrite IH2]; rewrite entries_of_snoc; simpl.
    - destruct (decide (id = "")); [done|]. by rewrite decide_False, app_nil_r by congruence.
    - destruct (decide (id = "")); [naive_solver|].
      by rewrite decide_False, app_nil_r by congruence. }
  pose proof (IH1 (st_ID state)) as Hr. rewrite decide_False in Hr by done.
  destruct (entries_of (st_ID state) l) as [|[q t] k] eqn:Hk; rewrite Hr; simpl.
  - split; intros id; rewrite entries_of_snoc; simpl.
    + destruct (decide (st_ID state = id)) as [<-|].
      * by rewrite lookup_insert_eq, decide_False, Hk by done.
      * by rewrite lookup_insert_ne, IH1, app_nil_r by done.
    + rewrite IH2. destruct (decide (st_ID state = id)) as [<-|]; [|by rewrite app_nil_r].
      rewrite Hk. simpl. lia.
  - split; intros id; rewrite entries_of_snoc; simpl.
    + rewrite IH1. destruct (decide (st_ID state = id)) as [<-|]; [|by rewrite app_nil_r].
      by rewrite Hk.
    + rewrite elem_of_union, elem_of_singleton, IH2, length_app.
      destruct (decide (st_ID state = id)) as [<-|].
      * rewrite Hk. simpl. split; [intros _|by left]. split; [done|]. lia.
      * simpl. rewrite Nat.add_0_r. naive_solver.
Qed.

Lemma index_entries_spec l id p :
  index_entries l !! id = Some p ↔ id ≠ "" ∧ ∃ s, entries_of id l = [(p, s)].
Proof.
  unfold index_entries. pose proof (index_fold_spec l) as [H1 H2].
  destruct (foldl index_step (∅, ∅) l) as [res dups]. simpl in *.
  rewrite map_lookup_filter_Some, H1. simpl. rewrite H2.
  destruct (entries_of id l) as [|[q t] k]; simpl; [cases; naive_solver|].
  case_decide; [naive_solver|]. simpl. split.
  - intros [[= ->] Hn]. split; [done|]. destruct k; [by eexists|]. simpl in Hn.
    destruct Hn. split; [done|lia].
  - intros [_ [s [= -> -> ->]]]. split; [done|]. simpl. intros [_ ?]. lia.
Qed.

Lemma entries_of_elem m id p s :
  (p, s) ∈ entries_of id (map_to_list m) ↔ m !! p = Some s ∧ st_ID s = id.
Proof.
  unfold entries_of. rewrite list_elem_of_filter, elem_of_map_to_list. simpl. naive_solver.
Qed.

Lemma entries_of_single m id p s :
  entries_of id (map_to_list m) = [(p, s)] ↔
  m !! p = Some s ∧ st_ID s = id ∧ ∀ p' s', m !! p' = Some s' → st_ID s' = id → p' = p.
Proof.
  split.
  - intros E. assert ((p, s) ∈ entries_of id (map_to_list m)) as Hin by (rewrite E; left).
    apply entries_of_elem in Hin as [Hp Hid]. split_and!; [done..|].
    intros p' s' H1 H2.
    assert ((p', s') ∈ entries_of id (map_to_list m)) as Hin by by apply entries_of_elem.
    rewrite E in Hin. apply list_elem_of_singleton in Hin. congruence.
  - intros (Hp & Hid & Hu). apply Permutation_singleton_r. apply NoDup_Permutation.
    + apply NoDup_filter, NoDup_map_to_list.
    + apply NoDup_singleton.
    + intros [p' s']. rewrite entries_of_elem, list_elem_of_singleton. naive_solver.
Qed.

Lemma indexUniqueIDs_spec m id p : indexUniqueIDs m !! id = Some p ↔ unique_in m id p.
Proof.
  unfold indexUniqueIDs, unique_in. rewrite index_entries_spec.
  setoid_rewrite entries_of_single. rewrite fmap_Some. naive_solver.
Qed.

(** The order in which the map is ranged over does not matter. *)
Lemma index_entries_perm l1 l2 : l1 ≡ₚ l2 → index_entries l1 = index_entries l2.
Proof.
  intros Hp. apply map_eq. intros id. apply option_eq. intros p.
  rewrite !index_entries_spec. apply and_iff_compat_l, exist_proper. intros s.
  assert (entries_of id l1 ≡ₚ entries_of id l2) as E by (unfold entries_of; by rewrite Hp).
  split; intros H; rewrite H in E; [symmetry in E|]; by apply Permutation_singleton_r in E.
Qed.

(** ** The stream as a list

    [diff_changes] is the sequence of changes the walk emits when no callback
    fails; the lemmas below compute every loop against it. *)
Section changes.
Context (previous actual : states).

Definition common_change (path : string) : option Change :=
  match previous !! path with
  | None => None
  | Some before =>
      let after := actual !!! path in
      if negb (sameIdentity before after) then
        Some (change Replaced path "" (Some before) (Some after))
      else if contentChanged before after then
        Some (change Modified path "" (Some before) (Some after))
      else if decide (st_Mode before ≠ st_Mode after) then
        Some (change AttributeChanged path "" (Some before) (Some after))
      else None
  end.

Definition old_paths : gmap string string := indexUniqueIDs (previous ∖ actual).
Definition new_paths : gmap string string := indexUniqueIDs (actual ∖ previous).

Definition move_change (id : string) : option Change :=
  match old_paths !! id with
  | None => None
  | Some old =>
      let new := new_paths !!! id in
      Some (change Moved new old (Some (previous !!! old)) (Some (actual !!! new)))
  end.

Definition drop_common (paths : list string) (m : states) : states :=
  foldl (λ m p, match previous !! p with Some _ => delete p m | None => m end) m paths.
Definition drop_old (ids : list string) (m : states) : states :=
  foldl (λ m id, match old_paths !! id with Some old => delete old m | None => m end) m ids.
Definition drop_new (ids : list string) (m : states) : states :=
  foldl (λ m id, match old_paths !! id with Some _ => delete (new_paths !!! id) m | None => m end)
    m ids.

Definition still_previous : states := drop_old (sortedKeys new_paths) (previous ∖ actual).
Definition still_actual : states := drop_new (sortedKeys new_paths) (actual ∖ previous).

Definition created_changes : list Change :=
  (λ p, change Created p "" None (Some (still_actual !!! p))) <$> sortedKeys still_actual.
Definition deleted_changes : list Change :=
  (λ p, change Deleted p "" (Some (still_previous !!! p)) None) <$> sortedKeys still_previous.

Definition constraint_change (exp : gmap string Expected) (path : string) : option Change :=
  match actual !! path with
  | None => Some (change Missing path "" None None)
  | Some state =>
      if violates (exp !!! path) state then Some (change Invalid path "" None (Some state)) else None
  end.

Definition orphan_change (exp : gmap string Expected) (eligible : option (State → bool))
    (path : string) : option Change :=
  if match eligible with Some f => negb (f (actual !!! path)) | None => false end then None
  else match exp !! path with
       | Some _ => None
       | None => Some (change Orphan path "" None (Some (actual !!! path)))
       end.

Definition state_changes : list Change :=
  omap common_change (sortedKeys actual) ++ omap move_change (sortedKeys new_paths)
  ++ created_changes ++ deleted_changes.

Definition expected_changes (expected : option (gmap string Expected))
    (eligible : option (State → bool)) : list Change :=
  match expected with
  | None => []
  | Some exp => omap (constraint_change exp) (sortedKeys exp)
                ++ omap (orphan_change exp eligible) (sortedKeys actual)
  end.

Definition diff_changes expected eligible : list Change :=
  state_changes ++ expected_changes expected eligible.

(** *** The maps left by the loops *)

Lemma drop_common_lookup paths m k :
  drop_common paths m !! k = if decide (k ∈ paths ∧ is_Some (previous !! k)) then None else m !! k.
Proof.
  unfold drop_common. revert m. induction paths as [|p paths IH]; intros m; cbn [foldl].
  { rewrite decide_False; [done|]. set_solver. }
  rewrite IH. destruct (decide (k ∈ paths ∧ is_Some (previous !! k))).
  { rewrite decide_True; [done|]. set_solver. }
  destruct (decide (k = p)) as [->|Hne].
  - destruct (previous !! p) eqn:E.
    + rewrite lookup_delete_eq, decide_True; [done|]. split; [left|done].
    + rewrite decide_False; [done|]. intros [_ [??]]. done.
  - rewrite decide_False by set_solver.
    destruct (previous !! p); [by rewrite lookup_delete_ne|done].
Qed.

Lemma drop_common_previous : drop_common (sortedKeys actual) previous = previous ∖ actual.
Proof.
  apply map_eq. intros k. rewrite drop_common_lookup, lookup_difference.
  case_decide as Hd; rewrite elem_of_sortedKeys in Hd; unfold is_Some in Hd.
  all: destruct (actual !! k), (previous !! k); naive_solver.
Qed.

Lemma drop_common_actual : drop_common (sortedKeys actual) actual = actual ∖ previous.
Proof.
  apply map_eq. intros k. rewrite drop_common_lookup, lookup_difference.
  case_decide as Hd; rewrite elem_of_sortedKeys in Hd; unfold is_Some in Hd.
  all: destruct (actual !! k), (previous !! k); naive_solver.
Qed.

Lemma drop_old_lookup ids m k x :
  drop_old ids m !! k = Some x ↔ m !! k = Some x ∧ ∀ id, id ∈ ids → old_paths !! id ≠ Some k.
Proof.
  unfold drop_old. revert m. induction ids as [|i ids IH]; intros m; simpl; [set_solver|].
  rewrite IH. destruct (old_paths !! i) as [old|] eqn:E.
  - rewrite lookup_delete_Some. set_solver.
  - set_solver.
Qed.

Lemma drop_old_None ids m k :
  drop_old ids m !! k = None →
  m !! k = None ∨ ∃ id, id ∈ ids ∧ old_paths !! id = Some k.
Proof.
  unfold drop_old. revert m. induction ids as [|i ids IH]; intros m; simpl; [by left|].
  destruct (old_paths !! i) as [old|] eqn:E; intros [H|H]%IH.
  2, 4: right; set_solver.
  - apply lookup_delete_None in H as [<-|H]; [right|by left]. set_solver.
  - by left.
Qed.

Lemma drop_new_None ids m k :
  drop_new ids m !! k = None →
  m !! k = None ∨ ∃ id, id ∈ ids ∧ is_Some (old_paths !! id) ∧ new_paths !!! id = k.
Proof.
  unfold drop_new. revert m. induction ids as [|i ids IH]; intros m; simpl; [by left|].
  destruct (old_paths !! i) as [old|] eqn:E; intros [H|H]%IH.
  2, 4: right; set_solver.
  - apply lookup_delete_None in H as [H|H]; [right|by left]. exists i. rewrite E. set_solver.
  - by left.
Qed.

Lemma drop_new_lookup ids m k x :
  drop_new ids m !! k = Some x ↔
  m !! k = Some x ∧ ∀ id, id ∈ ids → is_Some (old_paths !! id) → new_paths !!! id ≠ k.
Proof.
  unfold drop_new. revert m. induction ids as [|i ids IH]; intros m; simpl; [set_solver|].
  rewrite IH. destruct (old_paths !! i) as [old|] eqn:E.
  - rewrite lookup_delete_Some. set_solver.
  - split; [|set_solver]. intros [H1 H2]. split; [done|].
    intros id [->|Hid]%elem_of_cons [o Ho]; [congruence|]. by eapply H2.
Qed.

(** *** The loops emit the list *)

Lemma unique_in_inj m id id' p : unique_in m id p → unique_in m id' p → id = id'.
Proof. intros (_ & H1 & _) (_ & H2 & _). congruence. Qed.

Lemma unique_in_elem m id p : unique_in m id p → is_Some (m !! p).
Proof. intros (_ & H & _). destruct (m !! p); [done|]. by inv H. Qed.

Lemma old_paths_spec id p : old_paths !! id = Some p ↔ unique_in (previous ∖ actual) id p.
Proof. apply indexUniqueIDs_spec. Qed.

Lemma new_paths_spec id p : new_paths !! id = Some p ↔ unique_in (actual ∖ previous) id p.
Proof. apply indexUniqueIDs_spec. Qed.

Context {S : Type} (emit : Change → M S ()).

Lemma walk_common_spec paths rp ra s :
  walk_common previous actual emit paths rp ra s =
  (forM (omap common_change paths) emit ;;
   mret (drop_common paths rp, drop_common paths ra)) s.
Proof.
  revert rp ra s. induction paths as [|p paths IH]; intros rp ra s; [done|].
  cbn [walk_common omap list_omap]. unfold common_change at 1.
  unfold drop_common in *. cbn [foldl].
  destruct (previous !! p) as [before|]; [|apply IH].
  destruct (negb _); [|destruct (contentChanged _ _); [|case_decide]]; [..|apply IH].
  all: cbn [forM]; rewrite bind_assoc; unfold mbind at 1 2, M_bind at 1 2.
  all: destruct (emit _ s) as [[[]|e] s']; [apply IH|done].
Qed.

Lemma walk_moves_spec ids rp ra s :
  NoDup ids →
  (∀ id, id ∈ ids → is_Some (new_paths !! id)) →
  (∀ id p, id ∈ ids → old_paths !! id = Some p → rp !! p = (previous ∖ actual) !! p) →
  (∀ id p, id ∈ ids → new_paths !! id = Some p → ra !! p = (actual ∖ previous) !! p) →
  walk_moves emit old_paths new_paths ids rp ra s =
  (forM (omap move_change ids) emit ;; mret (drop_old ids rp, drop_new ids ra)) s.
Proof.
  revert rp ra s. induction ids as [|id ids IH]; intros rp ra s Hnd Hnew Hrp Hra; [done|].
  cbn [walk_moves omap list_omap]. unfold move_change at 1.
  unfold drop_old, drop_new in *. cbn [foldl].
  apply NoDup_cons in Hnd as [Hni Hnd].
  destruct (old_paths !! id) as [old|] eqn:Hold; [|apply IH; set_solver].
  destruct (Hnew id ltac:(left)) as [new Hn].
  assert (id ≠ "") by (by apply old_paths_spec in Hold as []).
  rewrite decide_False by done. rewrite (lookup_total_correct _ _ _ Hn).
  rewrite !(lookup_total_alt rp), !(lookup_total_alt ra).
  rewrite (Hrp id old ltac:(left) Hold), (Hra id new ltac:(left) Hn).
  destruct (unique_in_elem _ _ _ (proj1 (old_paths_spec _ _) Hold)) as [b Hb].
  destruct (unique_in_elem _ _ _ (proj1 (new_paths_spec _ _) Hn)) as [a Ha].
  rewrite Hb, Ha. apply lookup_difference_Some in Hb as [Hb _], Ha as [Ha _].
  rewrite (lookup_total_correct _ _ _ Hb), (lookup_total_correct _ _ _ Ha).
  cbn [forM]. rewrite bind_assoc. unfold mbind at 1 2, M_bind at 1 2.
  destruct (emit _ s) as [[[]|e] s']; [|done]. apply IH; [done|set_solver|..].
  - intros id' p Hin Hp. rewrite lookup_delete_ne; [by eapply Hrp; [right|]|].
    intros ->. apply Hni. apply old_paths_spec in Hold, Hp.
    by rewrite (unique_in_inj _ _ _ _ Hold Hp).
  - intros id' p Hin Hp. rewrite lookup_delete_ne; [by eapply Hra; [right|]|].
    intros ->. apply Hni. apply new_paths_spec in Hn, Hp.
    by rewrite (unique_in_inj _ _ _ _ Hn Hp).
Qed.

Lemma forM_fmap {A} (f : A → Change) l s :
  forM (f <$> l) emit s = forM l (λ x, emit (f x)) s.
Proof.
  revert s. induction l as [|x l IH]; intros s; [done|]. cbn.
  unfold mbind, M_bind. destruct (emit (f x) s) as [[[]|e] s']; [apply IH|done].
Qed.

Lemma forM_omap {A} (f : A → option Change) (body : A → M S ()) l s :
  (∀ x t, body x t = match f x with Some c => emit c t | None => (inl (), t) end) →
  forM (omap f l) emit s = forM l body s.
Proof.
  intros Hf. revert s. induction l as [|x l IH]; intros s; [done|].
  cbn [omap list_omap forM]. unfold mbind at 1, M_bind at 1. rewrite Hf.
  destruct (f x) as [c|]; [|apply IH].
  cbn [forM]. unfold mbind, M_bind. destruct (emit c s) as [[[]|e] s']; [apply IH|done].
Qed.

Lemma bind_ext {A B} (m : M S A) (f g : A → M S B) s :
  (∀ a t, f a t = g a t) → (m ≫= f) s = (m ≫= g) s.
Proof. intros H. unfold mbind, M_bind. destruct (m s) as [[a|e] t]; [apply H|done]. Qed.

Lemma bind_cong {A B} (m n : M S A) (f g : A → M S B) s :
  m s = n s → (∀ a t, f a t = g a t) → (m ≫= f) s = (n ≫= g) s.
Proof. intros Hm H. unfold mbind, M_bind. rewrite Hm. destruct (n s) as [[a|e] t]; [apply H|done]. Qed.

(** The walk is exactly the loop over [diff_changes]: a failing callback stops
    it at the change it failed on. *)
Lemma WalkDiffScoped_changes expected eligible s :
  WalkDiffScoped previous actual emit expected eligible s =
  forM (diff_changes expected eligible) emit s.
Proof.
  unfold WalkDiffScoped, diff_changes, state_changes. rewrite <-!app_assoc, forM_app.
  unfold mbind at 1, M_bind at 1. rewrite walk_common_spec.
  rewrite drop_common_previous, drop_common_actual. unfold mbind, M_bind.
  destruct (forM (omap common_change _) emit s) as [[[]|e] s1]; [|done]. cbn.
  rewrite walk_moves_spec; [|apply NoDup_sortedKeys|by intros ??%elem_of_sortedKeys|done..].
  rewrite forM_app. unfold mbind, M_bind.
  destruct (forM (omap move_change _) emit s1) as [[[]|e] s2]; [|done]. cbn.
  rewrite forM_app. unfold created_changes at 1. unfold mbind, M_bind. rewrite forM_fmap.
  unfold walk_created, still_actual.
  destruct (forM (sortedKeys _) _ s2) as [[[]|e] s3]; [|done].
  rewrite forM_app. unfold mbind, M_bind.
  unfold deleted_changes, walk_deleted, still_previous. rewrite forM_fmap.
  destruct (forM (sortedKeys _) _ s3) as [[[]|e] s4]; [|done].
  destruct expected as [exp|]; [|done]. simpl. rewrite forM_app.
  apply bind_cong; [symmetry|intros [] t; symmetry].
  all: apply forM_omap; intros p u; unfold constraint_change, orphan_change; by cases.
Qed.
End changes.
