(* ===== verification/DiffSpec.v ===== *)
(** * What the diff promises

    The theorems about internal/reconcile: which changes are emitted and how
    often, the accounting of the scanned paths, and the replay of the changes on
    the previous snapshot. *)

From S2P Require Import Prelude Diff.

(** ** Which changes are emitted *)
Section membership.
Context (previous actual : states).

Lemma elem_of_common ch :
  ch ∈ omap (common_change previous actual) (sortedKeys actual) ↔
  ∃ p b a, previous !! p = Some b ∧ actual !! p = Some a ∧
           common_change previous actual p = Some ch.
Proof.
  rewrite list_elem_of_omap. setoid_rewrite elem_of_sortedKeys. split.
  - intros (p & [a Ha] & Hc). pose proof Hc as Hc'. unfold common_change in Hc'.
    destruct (previous !! p) as [b|] eqn:Hb; [|done]. naive_solver.
  - intros (p & b & a & Hb & Ha & Hc). eauto.
Qed.

Lemma elem_of_moves ch :
  ch ∈ omap (move_change previous actual) (sortedKeys (new_paths previous actual)) ↔
  ∃ id old new b a, move_spec previous actual id old new ∧ previous !! old = Some b ∧
    actual !! new = Some a ∧ ch = change Moved new old (Some b) (Some a).
Proof.
  rewrite list_elem_of_omap. setoid_rewrite elem_of_sortedKeys. unfold move_change, move_spec.
  split.
  - intros (id & [new Hn] & Hc). rewrite (lookup_total_correct _ _ _ Hn) in Hc.
    destruct (old_paths previous actual !! id) as [old|] eqn:Ho; [|done].
    apply old_paths_spec in Ho. apply new_paths_spec in Hn.
    destruct (unique_in_elem _ _ _ Ho) as [b [Hb _]%lookup_difference_Some].
    destruct (unique_in_elem _ _ _ Hn) as [a [Ha _]%lookup_difference_Some].
    rewrite (lookup_total_correct _ _ _ Hb), (lookup_total_correct _ _ _ Ha) in Hc.
    exists id, old, new, b, a. naive_solver.
  - intros (id & old & new & b & a & [Ho Hn] & Hb & Ha & ->).
    apply old_paths_spec in Ho. apply new_paths_spec in Hn.
    exists id. split; [by eexists|]. rewrite Ho, (lookup_total_correct _ _ _ Hn).
    by rewrite (lookup_total_correct _ _ _ Hb), (lookup_total_correct _ _ _ Ha).
Qed.

Lemma still_actual_spec p a :
  still_actual previous actual !! p = Some a ↔
  actual !! p = Some a ∧ previous !! p = None ∧ ∀ id old, ¬ move_spec previous actual id old p.
Proof.
  unfold still_actual. rewrite drop_new_lookup, lookup_difference_Some.
  setoid_rewrite elem_of_sortedKeys. unfold move_spec.
  setoid_rewrite <-(old_paths_spec previous actual).
  setoid_rewrite <-(new_paths_spec previous actual). split.
  - intros [[Ha Hp] Hm]. split_and!; [done..|]. intros id old [Ho Hn].
    eapply (Hm id); [by eexists|by eexists|]. by apply lookup_total_correct.
  - intros (Ha & Hp & Hm). split; [done|]. intros id [new Hn] [old Ho].
    rewrite (lookup_total_correct _ _ _ Hn). intros ->. naive_solver.
Qed.

Lemma still_previous_spec p b :
  still_previous previous actual !! p = Some b ↔
  previous !! p = Some b ∧ actual !! p = None ∧ ∀ id new, ¬ move_spec previous actual id p new.
Proof.
  unfold still_previous. rewrite drop_old_lookup, lookup_difference_Some.
  setoid_rewrite elem_of_sortedKeys. unfold move_spec.
  setoid_rewrite <-(old_paths_spec previous actual).
  setoid_rewrite <-(new_paths_spec previous actual). split.
  - intros [[Hb Ha] Hm]. split_and!; [done..|]. intros id new [Ho Hn].
    by eapply (Hm id); [eexists|].
  - intros (Hb & Ha & Hm). split; [done|]. intros id [new Hn] Ho. naive_solver.
Qed.

Lemma elem_of_created ch :
  ch ∈ created_changes previous actual ↔
  ∃ p a, still_actual previous actual !! p = Some a ∧ ch = change Created p "" None (Some a).
Proof.
  unfold created_changes. rewrite list_elem_of_fmap. setoid_rewrite elem_of_sortedKeys. split.
  - intros (p & -> & a & Ha). exists p, a. by rewrite (lookup_total_correct _ _ _ Ha).
  - intros (p & a & Ha & ->). exists p. by rewrite (lookup_total_correct _ _ _ Ha).
Qed.

Lemma elem_of_deleted ch :
  ch ∈ deleted_changes previous actual ↔
  ∃ p b, still_previous previous actual !! p = Some b ∧ ch = change Deleted p "" (Some b) None.
Proof.
  unfold deleted_changes. rewrite list_elem_of_fmap. setoid_rewrite elem_of_sortedKeys. split.
  - intros (p & -> & a & Ha). exists p, a. by rewrite (lookup_total_correct _ _ _ Ha).
  - intros (p & a & Ha & ->). exists p. by rewrite (lookup_total_correct _ _ _ Ha).
Qed.

Lemma elem_of_state_changes ch exp eligible :
  ch ∈ state_changes previous actual ↔
  change_spec previous actual exp eligible ch ∧
  ch_Kind ch ∉ [Missing; Invalid; Orphan].
Proof.
  unfold state_changes.
  rewrite !elem_of_app, elem_of_common, elem_of_moves, elem_of_created, elem_of_deleted.
  setoid_rewrite still_actual_spec. setoid_rewrite still_previous_spec. split.
  - intros [(p & b & a & Hb & Ha & Hc)|[H|[H|H]]].
    + unfold common_change in Hc. rewrite Hb, (lookup_total_correct _ _ _ Ha) in Hc.
      destruct (sameIdentity b a) eqn:Hs; cbn in Hc; [|simplify_eq/=; split; [by constructor|set_solver]].
      destruct (contentChanged b a) eqn:Hcc; [simplify_eq/=; split; [by constructor|set_solver]|].
      case_decide; simplify_eq/=. split; [by constructor|set_solver].
    + destruct H as (id & old & new & b & a & ?&?&?&->). split; [by econstructor|set_solver].
    + destruct H as (p & a & (?&?&?) & ->). split; [by constructor|set_solver].
    + destruct H as (p & a & (?&?&?) & ->). split; [by constructor|set_solver].
  - intros [Hs Hk]. destruct Hs as [p b a Hb Ha Hi|p b a Hb Ha Hi Hc|p b a Hb Ha Hi Hc Hm|
      | | | | | ]; simpl in Hk; try set_solver.
    all: try (left; exists p, b, a; split_and!; [done..|]; unfold common_change;
      rewrite Hb, (lookup_total_correct _ _ _ Ha), Hi; cbn; rewrite ?Hc, ?decide_True by done; done).
Qed.

Lemma elem_of_expected_changes ch exp eligible :
  ch ∈ expected_changes actual exp eligible ↔
  change_spec previous actual exp eligible ch ∧ ch_Kind ch ∈ [Missing; Invalid; Orphan].
Proof.
  unfold expected_changes. destruct exp as [exp|].
  2: { split; [set_solver|]. intros [H Hk]. destruct H; simplify_eq/=; set_solver. }
  rewrite elem_of_app, !list_elem_of_omap. setoid_rewrite elem_of_sortedKeys. split.
  - intros [(p & [e He] & Hc)|(p & [a Ha] & Hc)].
    + unfold constraint_change in Hc. rewrite (lookup_total_correct _ _ _ He) in Hc.
      destruct (actual !! p) as [a|] eqn:Ha.
      * destruct (violates e a) eqn:Hv; simplify_eq/=. split; [by eapply spec_invalid|set_solver].
      * simplify_eq/=. split; [by eapply spec_missing|set_solver].
    + unfold orphan_change in Hc. rewrite (lookup_total_correct _ _ _ Ha) in Hc.
      destruct (match eligible with Some f => negb (f a) | None => false end) eqn:He; [done|].
      destruct (exp !! p) eqn:Hp; simplify_eq/=. split; [|set_solver].
      eapply spec_orphan; [done..|]. destruct eligible; [by apply negb_false_iff|done].
  - intros [H Hk]. destruct H as [| | | | | |? p e [= ->] He Ha|? p e a [= ->] He Ha Hv
      |? p a [= ->] He Ha Hel]; simpl in Hk; try set_solver.
    + left. exists p. split; [by eexists|]. unfold constraint_change. by rewrite Ha.
    + left. exists p. split; [by eexists|]. unfold constraint_change.
      by rewrite Ha, (lookup_total_correct _ _ _ He), Hv.
    + right. exists p. split; [by eexists|]. unfold orphan_change.
      rewrite (lookup_total_correct _ _ _ Ha), He. destruct eligible; [by rewrite Hel|done].
Qed.

Lemma elem_of_diff_changes ch exp eligible :
  ch ∈ diff_changes previous actual exp eligible ↔ change_spec previous actual exp eligible ch.
Proof.
  unfold diff_changes. rewrite elem_of_app, (elem_of_state_changes _ exp eligible),
    elem_of_expected_changes.
  destruct (decide (ch_Kind ch ∈ [Missing; Invalid; Orphan])); naive_solver.
Qed.

End membership.

(** ** Counting the changes of the scanned paths

    Every scanned path is the target of at most one change, and it is either
    such a target or unchanged. *)
Definition matches (b a : State) : Prop :=
  sameIdentity b a = true ∧ contentChanged b a = false ∧ st_Mode b = st_Mode a.

#[global] Instance matches_dec b a : Decision (matches b a).
Proof. apply _. Defined.

Definition matches_prev (previous : states) (pa : string * State) : Prop :=
  match previous !! pa.1 with Some b => matches b pa.2 | None => False end.

#[global] Instance matches_prev_dec previous pa : Decision (matches_prev previous pa).
Proof. unfold matches_prev. destruct (previous !! pa.1); apply _. Defined.

Definition unchanged (previous actual : states) : states :=
  filter (matches_prev previous) actual.

Definition targets (previous actual : states) : list Change :=
  omap (common_change previous actual) (sortedKeys actual)
  ++ omap (move_change previous actual) (sortedKeys (new_paths previous actual))
  ++ created_changes previous actual.

Definition count_kind (k : Kind) (l : list Change) : nat :=
  length (filter (λ c, ch_Kind c = k) l).

Section counting.
Context (previous actual : states).

Lemma state_changes_targets :
  state_changes previous actual = targets previous actual ++ deleted_changes previous actual.
Proof. unfold state_changes, targets. by rewrite !app_assoc. Qed.

Lemma common_change_path p c : common_change previous actual p = Some c → ch_Path c = p.
Proof. unfold common_change. intros H. cases; try done. Qed.

Lemma common_change_None p b a :
  previous !! p = Some b → actual !! p = Some a →
  common_change previous actual p = None ↔ matches b a.
Proof.
  intros Hb Ha. unfold common_change, matches. rewrite Hb, (lookup_total_correct _ _ _ Ha).
  destruct (sameIdentity b a), (contentChanged b a); simpl; try (split; naive_solver).
  case_decide; naive_solver.
Qed.

Lemma omap_path_NoDup (f : string → option Change) l :
  (∀ p c, f p = Some c → ch_Path c = p) → NoDup l → NoDup (ch_Path <$> omap f l).
Proof.
  intros Hf. induction 1 as [|x l Hx Hl IH]; [constructor|]. cbn [omap list_omap].
  destruct (f x) as [c|] eqn:E; [|done]. cbn. constructor; [|done].
  rewrite (Hf _ _ E), list_elem_of_fmap. intros (c' & -> & (y & Hy & E')%list_elem_of_omap).
  by rewrite (Hf _ _ E') in Hx.
Qed.

Lemma move_paths_NoDup :
  NoDup (ch_Path <$> omap (move_change previous actual) (sortedKeys (new_paths previous actual))).
Proof.
  assert (∀ id, id ∈ sortedKeys (new_paths previous actual) → is_Some (new_paths previous actual !! id))
    as Hin by (intros ?; apply elem_of_sortedKeys).
  revert Hin. generalize (NoDup_sortedKeys (new_paths previous actual)).
  generalize (sortedKeys (new_paths previous actual)). intros l.
  induction 1 as [|id l Hid Hl IH]; intros Hin; [constructor|]. cbn [omap list_omap].
  assert (NoDup (ch_Path <$> omap (move_change previous actual) l)) as Hnd by (apply IH; set_solver).
  destruct (move_change previous actual id) as [c|] eqn:E; [|done]. cbn. constructor; [|done].
  rewrite list_elem_of_fmap. intros (c' & Hcc & (id' & Hid' & E')%list_elem_of_omap).
  destruct (Hin id ltac:(left)) as [n Hn]. destruct (Hin id' ltac:(by right)) as [n' Hn'].
  unfold move_change in E, E'.
  rewrite (lookup_total_correct _ _ _ Hn) in E. rewrite (lookup_total_correct _ _ _ Hn') in E'.
  destruct (old_paths previous actual !! id); [|done].
  destruct (old_paths previous actual !! id'); [|done]. simplify_eq/=.
  apply new_paths_spec in Hn, Hn'. by rewrite (unique_in_inj _ _ _ _ Hn Hn') in Hid.
Qed.

Lemma created_paths : ch_Path <$> created_changes previous actual = sortedKeys (still_actual previous actual).
Proof. unfold created_changes. rewrite <-list_fmap_compose. apply list_fmap_id. Qed.

Lemma elem_of_targets_path p :
  p ∈ ch_Path <$> targets previous actual ↔
  ∃ a, actual !! p = Some a ∧ ¬ matches_prev previous (p, a).
Proof.
  unfold targets, matches_prev.
  rewrite !fmap_app, !elem_of_app, created_paths, elem_of_sortedKeys.
  rewrite !list_elem_of_fmap. setoid_rewrite elem_of_common. setoid_rewrite elem_of_moves.
  split.
  - intros [(c & -> & q & b & a & Hb & Ha & Hc)|
      [(c & -> & id & old & new & b & a & [_ Hn] & _ & Ha & ->)|[a Ha]]]; simpl.
    + pose proof (common_change_path _ _ Hc) as <-. exists a. split; [done|]. rewrite Hb.
      rewrite <-(common_change_None _ b a) by done. congruence.
    + exists a. split; [done|].
      destruct (unique_in_elem _ _ _ Hn) as [? [_ E]%lookup_difference_Some]. rewrite E. auto.
    + apply still_actual_spec in Ha as (Ha & Hp & _). exists a. rewrite Hp. auto.
  - intros (a & Ha & H). simpl in H. destruct (previous !! p) as [b|] eqn:Hb.
    + left. rewrite <-(common_change_None p b a) in H by done.
      destruct (common_change previous actual p) as [c|] eqn:E; [|done].
      exists c. split; [by rewrite (common_change_path _ _ E)|]. eauto 10.
    + right. destruct (still_actual previous actual !! p) eqn:E; [by right; eexists|left].
      apply drop_new_None in E as [E|(id & Hid & [old Ho] & En)].
      { apply lookup_difference_None in E as [E|[? E]]; congruence. }
      apply elem_of_sortedKeys in Hid as [new Hn].
      rewrite (lookup_total_correct _ _ _ Hn) in En. subst.
      apply old_paths_spec in Ho. apply new_paths_spec in Hn.
      destruct (unique_in_elem _ _ _ Ho) as [b [Hb' _]%lookup_difference_Some].
      eexists. split; [|exists id, old, p, b, a; split_and!; [done..]]. done.
Qed.

Lemma targets_NoDup : NoDup (ch_Path <$> targets previous actual).
Proof.
  unfold targets. rewrite !fmap_app, created_paths. apply NoDup_app. split_and!.
  - apply omap_path_NoDup; [apply common_change_path|apply NoDup_sortedKeys].
  - intros p Hp. apply list_elem_of_fmap in Hp as (c & -> & Hc).
    apply elem_of_common in Hc as (p & b & a & Hb & Ha & Hc).
    rewrite (common_change_path _ _ Hc), elem_of_app, elem_of_sortedKeys, list_elem_of_fmap.
    intros [(c' & -> & (?&?&?&?&?& [_ Hn] &?&?&->)%elem_of_moves)|[? (?&?&?)%still_actual_spec]].
    + destruct (unique_in_elem _ _ _ Hn) as [? [? ?]%lookup_difference_Some]. simpl in *. congruence.
    + congruence.
  - apply NoDup_app. split_and!; [apply move_paths_NoDup| |apply NoDup_sortedKeys].
    intros p (c & -> & (id&old&new&?&?& Hm &?&?&->)%elem_of_moves)%list_elem_of_fmap.
    rewrite elem_of_sortedKeys. intros [? (?&?& Hno)%still_actual_spec]. by eapply Hno.
Qed.

(** The scanned paths split into change targets and unchanged paths. *)
Lemma targets_unchanged :
  length (targets previous actual) + size (unchanged previous actual) = size actual.
Proof.
  rewrite <-(length_fmap ch_Path), <-!length_sortedKeys, <-length_app.
  apply Permutation_length, NoDup_Permutation.
  - apply NoDup_app. split_and!; [apply targets_NoDup| |apply NoDup_sortedKeys].
    intros p (a & Ha & Hn)%elem_of_targets_path. rewrite elem_of_sortedKeys.
    intros [a' [Ha' Hm]%map_lookup_filter_Some]. by simplify_eq.
  - apply NoDup_sortedKeys.
  - intros p. rewrite elem_of_app, elem_of_targets_path, !elem_of_sortedKeys. split.
    + intros [(a & Ha & _)|[a [Ha _]%map_lookup_filter_Some]]; by eexists.
    + intros [a Ha]. destruct (decide (matches_prev previous (p, a))); [right|left; eauto].
      exists a. by apply map_lookup_filter_Some.
Qed.

End counting.

(** ** Counters *)

Definition target_kinds : list Kind := [Created; Modified; AttributeChanged; Replaced; Moved].

Lemma count_kind_app k l1 l2 : count_kind k (l1 ++ l2) = count_kind k l1 + count_kind k l2.
Proof. unfold count_kind. by rewrite filter_app, length_app. Qed.

Lemma count_kind_none k l : Forall (λ c, ch_Kind c ≠ k) l → count_kind k l = 0.
Proof.
  unfold count_kind. induction 1 as [|c l Hc Hl IH]; [done|].
  by rewrite filter_cons_False.
Qed.

Lemma count_target_kinds l :
  Forall (λ c, ch_Kind c ∈ target_kinds) l →
  sum_list_with (λ k, count_kind k l) target_kinds = length l.
Proof.
  unfold count_kind. induction 1 as [|c l Hc Hl IH]; [done|]. simpl in *.
  rewrite <-IH. clear -Hc.
  destruct (ch_Kind c) eqn:E; try set_solver;
    repeat first [rewrite (filter_cons_True _ c) by done
                 |rewrite (filter_cons_False _ c) by (rewrite E; discriminate)];
    simpl; lia.
Qed.

Lemma targets_kinds previous actual :
  Forall (λ c, ch_Kind c ∈ target_kinds) (targets previous actual).
Proof.
  apply Forall_forall. intros c Hc. unfold targets in Hc.
  rewrite !elem_of_app, elem_of_common, elem_of_moves, elem_of_created in Hc.
  unfold target_kinds. destruct Hc as [(p&b&a&_&_&Hc)|[(?&?&?&?&?&?&?&?&->)|(?&?&?&->)]].
  - unfold common_change in Hc. cases; set_solver.
  - set_solver.
  - set_solver.
Qed.

Lemma not_target_kinds previous actual exp eligible k :
  k ∈ target_kinds →
  count_kind k (deleted_changes previous actual) = 0 ∧
  count_kind k (expected_changes actual exp eligible) = 0.
Proof.
  intros Hk. split; apply count_kind_none, Forall_forall; intros c Hc <-.
  - apply elem_of_deleted in Hc as (?&?&?&->). unfold target_kinds in Hk. set_solver.
  - apply (elem_of_expected_changes previous) in Hc as [_ Hc]. unfold target_kinds in Hk.
    destruct (ch_Kind c); set_solver.
Qed.

Lemma count_target_diff previous actual exp eligible k :
  k ∈ target_kinds →
  count_kind k (diff_changes previous actual exp eligible) =
  count_kind k (targets previous actual).
Proof.
  intros Hk. unfold diff_changes. rewrite state_changes_targets, !count_kind_app.
  destruct (not_target_kinds previous actual exp eligible k Hk) as [-> ->]. lia.
Qed.

(** The scanned entries are the created, modified, re-moded, replaced and moved
    ones, and the unchanged ones. *)
Lemma counters_account previous actual exp eligible :
  let count k := count_kind k (diff_changes previous actual exp eligible) in
  count Created + count Modified + count AttributeChanged + count Replaced + count Moved
  + size (unchanged previous actual) = size actual.
Proof.
  intros count. unfold count. rewrite !count_target_diff by (unfold target_kinds; set_solver).
  rewrite <-(targets_unchanged previous actual), <-(count_target_kinds _ (targets_kinds _ _)).
  simpl. lia.
Qed.

(** ** Replaying the changes *)

Definition apply_change (m : states) (c : Change) : states :=
  match ch_Kind c, ch_After c with
  | (Created | Replaced | Modified | AttributeChanged), Some a => <[ch_Path c := a]> m
  | Moved, Some a => <[ch_Path c := a]> (delete (ch_OldPath c) m)
  | Deleted, _ => delete (ch_Path c) m
  | _, _ => m
  end.

Definition replay (m : states) (l : list Change) : states := foldl apply_change m l.

(** The path a change writes, and the path it removes. *)
Definition touches (c : Change) (p : string) : Prop :=
  match ch_Kind c with
  | Created | Replaced | Modified | AttributeChanged | Deleted => p = ch_Path c
  | Moved => p = ch_Path c ∨ p = ch_OldPath c
  | _ => False
  end.

#[global] Instance touches_dec c p : Decision (touches c p).
Proof. unfold touches. destruct (ch_Kind c); apply _. Defined.

(** Two snapshots the diff does not distinguish. *)
Definition states_match (m1 m2 : states) : Prop :=
  ∀ p, option_Forall2 matches (m1 !! p) (m2 !! p).

Section replay.
Context (previous actual : states) (exp : option (gmap string Expected))
  (eligible : option (State → bool)).

Lemma apply_change_lookup m c p :
  change_spec previous actual exp eligible c →
  apply_change m c !! p = if decide (touches c p) then actual !! p else m !! p.
Proof.
  intros Hc. unfold apply_change, touches.
  destruct Hc as [q b a Hb Ha ?|q b a Hb Ha ? ?|q b a Hb Ha ? ? ?|id old new b a [Ho Hn] Hb Ha
    |q a Ha Hb ?|q b Hb Ha ?| | |]; simpl.
  4: shelve.
  all: try done.
  all: case_decide; subst; rewrite ?lookup_insert_eq, ?lookup_delete_eq, ?lookup_insert_ne,
    ?lookup_delete_ne by done; try done.
  Unshelve.
  destruct (decide (p = new)) as [->|]; [rewrite lookup_insert_eq, decide_True by auto; done|].
  rewrite lookup_insert_ne by done.
  destruct (decide (p = old)) as [->|].
  - rewrite lookup_delete_eq, decide_True by auto. symmetry.
    by destruct (unique_in_elem _ _ _ Ho) as [? [_ ?]%lookup_difference_Some].
  - rewrite lookup_delete_ne, decide_False by naive_solver. done.
Qed.

Lemma replay_lookup l m p :
  Forall (change_spec previous actual exp eligible) l →
  replay m l !! p = if decide (Exists (λ c, touches c p) l) then actual !! p else m !! p.
Proof.
  intros Hl. revert m. induction Hl as [|c l Hc Hl IH]; intros m.
  { rewrite decide_False; [done|]. by intros ?%Exists_nil. }
  change (replay m (c :: l)) with (replay (apply_change m c) l).
  rewrite IH, apply_change_lookup by done. clear -m.
  destruct (decide (touches c p)), (decide (Exists (λ c, touches c p) l)).
  all: try (rewrite decide_True by (by constructor); done).
  rewrite decide_False; [done|]. by intros [?|?]%Exists_cons.
Qed.

Lemma diff_changes_spec : Forall (change_spec previous actual exp eligible)
  (diff_changes previous actual exp eligible).
Proof. apply Forall_forall. intros c. apply elem_of_diff_changes. Qed.

End replay.

(** ** Each change once, in path order *)

Lemma deleted_paths previous actual :
  ch_Path <$> deleted_changes previous actual = sortedKeys (still_previous previous actual).
Proof. unfold deleted_changes. rewrite <-list_fmap_compose. apply list_fmap_id. Qed.

Lemma constraint_change_path actual exp p c :
  constraint_change actual exp p = Some c → ch_Path c = p.
Proof. unfold constraint_change. intros H. cases; done. Qed.

Lemma orphan_change_path actual exp eligible p c :
  orphan_change actual exp eligible p = Some c → ch_Path c = p.
Proof.
  unfold orphan_change. intros H. cases; done.
Qed.

Lemma NoDup_state_changes previous actual : NoDup (state_changes previous actual).
Proof.
  rewrite state_changes_targets. apply NoDup_app. split_and!.
  - apply (NoDup_fmap_1 ch_Path), targets_NoDup.
  - intros c Hc (?&?&?&->)%elem_of_deleted. revert Hc.
    pose proof (targets_kinds previous actual) as Hk. rewrite Forall_forall in Hk.
    intros Hc%Hk. unfold target_kinds in Hc. simpl in Hc. set_solver.
  - apply (NoDup_fmap_1 ch_Path). rewrite deleted_paths. apply NoDup_sortedKeys.
Qed.

Lemma NoDup_expected_changes actual exp eligible : NoDup (expected_changes actual exp eligible).
Proof.
  destruct exp as [exp|]; [|constructor]. simpl. apply NoDup_app. split_and!.
  - eapply (NoDup_fmap_1 ch_Path), omap_path_NoDup, NoDup_sortedKeys.
    apply constraint_change_path.
  - intros c (p & Hp & Hc)%list_elem_of_omap (q & Hq & Hc')%list_elem_of_omap.
    unfold constraint_change in Hc. unfold orphan_change in Hc'.
    cases.
  - eapply (NoDup_fmap_1 ch_Path), omap_path_NoDup, NoDup_sortedKeys.
    apply orphan_change_path.
Qed.

Lemma NoDup_diff_changes previous actual exp eligible :
  NoDup (diff_changes previous actual exp eligible).
Proof.
  unfold diff_changes. apply NoDup_app.
  split_and!; [apply NoDup_state_changes| |apply NoDup_expected_changes].
  intros c [_ Hs]%(elem_of_state_changes _ _ _ exp eligible)
    [_ He]%(elem_of_expected_changes previous). set_solver.
Qed.

Lemma Diff_changes previous actual exp :
  Diff previous actual exp = diff_changes previous actual exp None.
Proof.
  unfold Diff, WalkDiff. rewrite WalkDiffScoped_changes.
  assert (∀ l acc, (forM l collect_change acc).2 = acc ++ l) as H.
  { induction l as [|c l IH]; intros acc; simpl; [by rewrite app_nil_r|].
    unfold mbind, M_bind. simpl. rewrite IH. by rewrite <-app_assoc. }
  by rewrite H.
Qed.

Lemma matches_refl a : matches a a.
Proof.
  unfold matches, sameIdentity, contentChanged. split; [|split; [|done]].
  - case_decide; [done|]. by apply bool_decide_true.
  - by rewrite !bool_decide_false by auto.
Qed.

Lemma untouched_matches previous actual exp eligible p :
  ¬ Exists (λ c, touches c p) (diff_changes previous actual exp eligible) →
  option_Forall2 matches (previous !! p) (actual !! p).
Proof.
  intros Hn.
  assert (∀ c, change_spec previous actual exp eligible c → ¬ touches c p) as Hc.
  { intros c Hc Ht. apply Hn, Exists_exists. exists c. split; [by apply elem_of_diff_changes|done]. }
  destruct (actual !! p) as [a|] eqn:Ha.
  - destruct (decide (matches_prev previous (p, a))) as [Hm|Hm].
    { unfold matches_prev in Hm. simpl in Hm. destruct (previous !! p); [by apply Some_Forall2|done]. }
    exfalso. assert (p ∈ ch_Path <$> targets previous actual) as Hin
      by (apply elem_of_targets_path; eauto).
    apply list_elem_of_fmap in Hin as (c & -> & Hin).
    assert (c ∈ state_changes previous actual) as Hs
      by (rewrite state_changes_targets; set_solver).
    apply (elem_of_state_changes _ _ _ exp eligible) in Hs as [Hs _].
    pose proof (targets_kinds previous actual) as Hk. rewrite Forall_forall in Hk.
    specialize (Hk _ Hin). apply (Hc c Hs). unfold touches, target_kinds in *.
    destruct (ch_Kind c); set_solver.
  - destruct (previous !! p) as [b|] eqn:Hb; [|apply None_Forall2]. exfalso.
    destruct (still_previous previous actual !! p) as [b'|] eqn:E.
    + apply still_previous_spec in E as (?&?&?).
      by eapply (Hc (change Deleted p "" (Some b') None)); [constructor|].
    + clear Hn. apply drop_old_None in E as [E|(id & [new Hn]%elem_of_sortedKeys & Ho)].
      { apply lookup_difference_None in E as [E|[? E]]; congruence. }
      apply old_paths_spec in Ho. apply new_paths_spec in Hn.
      destruct (unique_in_elem _ _ _ Hn) as [a [Ha' _]%lookup_difference_Some].
      eapply (Hc (change Moved new p (Some b) (Some a))); [by econstructor|]. by right.
Qed.

Lemma sorted_filter_paths (k : Kind) (f : string → option Change) l :
  (∀ p c, f p = Some c → ch_Path c = p) → StronglySorted String.le l →
  StronglySorted String.le (ch_Path <$> filter (λ c, ch_Kind c = k) (omap f l)).
Proof.
  intros Hf. induction 1 as [|x l Hl IH Hx]; [constructor|]. cbn [omap list_omap].
  destruct (f x) as [c|] eqn:E; [|done]. rewrite filter_cons. case_decide; [|done].
  cbn. constructor; [done|]. rewrite (Hf _ _ E). apply Forall_forall. intros p Hp.
  apply list_elem_of_fmap in Hp as (c' & -> & [_ Hc']%list_elem_of_filter).
  apply list_elem_of_omap in Hc' as (q & Hq & E'). rewrite (Hf _ _ E').
  rewrite Forall_forall in Hx. by apply Hx.
Qed.

Lemma omap_fmap_Some {A B} (f : A → B) (l : list A) : omap (λ x, Some (f x)) l = f <$> l.
Proof. induction l as [|x l IH]; [done|]. cbn. by rewrite IH. Qed.

Lemma sortedKeys_strongly {V} (m : gmap string V) : StronglySorted String.le (sortedKeys m).
Proof. apply Sorted_StronglySorted; [apply _|]. apply sort_strings_sorted. Qed.

Lemma filter_kind_nil k (l : list Change) :
  Forall (λ c, ch_Kind c ≠ k) l → filter (λ c, ch_Kind c = k) l = [].
Proof. induction 1; [done|]. by rewrite filter_cons_False. Qed.

(** The kinds each loop can emit. *)
Lemma common_kinds previous actual :
  Forall (λ c, ch_Kind c ∈ [Replaced; Modified; AttributeChanged])
    (omap (common_change previous actual) (sortedKeys actual)).
Proof.
  apply Forall_forall. intros c (p&b&a&_&_&Hc)%elem_of_common.
  unfold common_change in Hc. cases; set_solver.
Qed.

Lemma move_kinds previous actual :
  Forall (λ c, ch_Kind c ∈ [Moved])
    (omap (move_change previous actual) (sortedKeys (new_paths previous actual))).
Proof. apply Forall_forall. intros c (?&?&?&?&?&?&?&?&->)%elem_of_moves. set_solver. Qed.

Lemma created_kinds previous actual :
  Forall (λ c, ch_Kind c ∈ [Created]) (created_changes previous actual).
Proof. apply Forall_forall. intros c (?&?&?&->)%elem_of_created. set_solver. Qed.

Lemma deleted_kinds previous actual :
  Forall (λ c, ch_Kind c ∈ [Deleted]) (deleted_changes previous actual).
Proof. apply Forall_forall. intros c (?&?&?&->)%elem_of_deleted. set_solver. Qed.

Lemma constraint_kinds actual exp :
  Forall (λ c, ch_Kind c ∈ [Missing; Invalid]) (omap (constraint_change actual exp) (sortedKeys exp)).
Proof.
  apply Forall_forall. intros c (p&_&Hc)%list_elem_of_omap.
  unfold constraint_change in Hc. cases; set_solver.
Qed.

Lemma orphan_kinds actual exp eligible :
  Forall (λ c, ch_Kind c ∈ [Orphan]) (omap (orphan_change actual exp eligible) (sortedKeys actual)).
Proof.
  apply Forall_forall. intros c (p&_&Hc)%list_elem_of_omap.
  unfold orphan_change in Hc. cases; set_solver.
Qed.

(** Keep the part of a stream that can have kind [k], drop the others. *)
Lemma filter_kinds_nil k (ks : list Kind) (l : list Change) :
  Forall (λ c, ch_Kind c ∈ ks) l → k ∉ ks → filter (λ c, ch_Kind c = k) l = [].
Proof.
  intros H Hk. apply filter_kind_nil. eapply Forall_impl; [exact H|]. by intros c Hc <-.
Qed.

Lemma diff_kind_sorted previous actual exp eligible k :
  k ≠ Moved →
  StronglySorted String.le
    (ch_Path <$> filter (λ c, ch_Kind c = k) (diff_changes previous actual exp eligible)).
Proof.
  intros Hk. unfold diff_changes, state_changes, expected_changes. rewrite !filter_app.
  pose proof (filter_kinds_nil k _ _ (common_kinds previous actual)) as H1.
  pose proof (filter_kinds_nil k _ _ (move_kinds previous actual)) as H2.
  pose proof (filter_kinds_nil k _ _ (created_kinds previous actual)) as H3.
  pose proof (filter_kinds_nil k _ _ (deleted_kinds previous actual)) as H4.
  assert (H5 := λ e, filter_kinds_nil k _ _ (constraint_kinds actual e)).
  assert (H6 := λ e, filter_kinds_nil k _ _ (orphan_kinds actual e eligible)).
  rewrite H2 by by rewrite list_elem_of_singleton.
  assert (∀ f l, (∀ p c, f p = Some c → ch_Path c = p) → StronglySorted String.le l →
    StronglySorted String.le (ch_Path <$> filter (λ c, ch_Kind c = k) (omap f l))) as Hs
    by (intros; by apply sorted_filter_paths).
  unfold created_changes, deleted_changes in *. rewrite <-!omap_fmap_Some in *.
  destruct k; [rewrite H1, H4 by by_decide|rewrite H3, H4 by by_decide
    |rewrite H1, H3 by by_decide|done|rewrite H3, H4 by by_decide
    |rewrite H1, H3, H4 by by_decide|rewrite H1, H3, H4 by by_decide
    |rewrite H3, H4 by by_decide|rewrite H1, H3, H4 by by_decide].
  all: destruct exp as [e|]; [rewrite filter_app|]; rewrite ?H5, ?H6 by by_decide.
  all: cbn [app]; rewrite ?filter_nil, ?app_nil_r.
  all: try (constructor; fail).
  all: apply Hs; [|apply sortedKeys_strongly]; intros p c.
  all: first [apply common_change_path|apply constraint_change_path|apply orphan_change_path
    |by intros [= <-]].
Qed.

(** ** Properties *)

(** C1: the stream of changes.  For every pair of snapshots, expected state and
    orphan predicate there is one duplicate-free sequence of changes, holding
    exactly the changes of the specification [change_spec] (replaced, modified,
    re-moded, moved, created, deleted, missing, invalid, orphan), such that
    [WalkDiffScoped] hands the callback that sequence in order and, when the
    callback fails, stops there with its error. *)
Theorem diff_stream_correct (previous actual : states) (expected : option (gmap string Expected))
    (eligible : option (State → bool)) :
  ∃ cs, NoDup cs ∧ (∀ c, c ∈ cs ↔ change_spec previous actual expected eligible c) ∧
    ∀ (S : Type) (emit : Change → M S ()) (s : S),
      WalkDiffScoped previous actual emit expected eligible s = forM cs emit s.
Proof.
  exists (diff_changes previous actual expected eligible). split_and!.
  - apply NoDup_diff_changes.
  - intros c. apply elem_of_diff_changes.
  - intros. apply WalkDiffScoped_changes.
Qed.

(** C24: replay.  Applying the emitted changes in order to the previous snapshot
    gives the scanned state, up to the differences the diff ignores (an identity
    that is unknown on one side). *)
Theorem diff_replay (previous actual : states) (expected : option (gmap string Expected)) :
  states_match (replay previous (Diff previous actual expected)) actual.
Proof.
  intros p. rewrite Diff_changes, (replay_lookup _ actual expected None) by apply diff_changes_spec.
  case_decide as H.
  - destruct (actual !! p); constructor. apply matches_refl.
  - by eapply untouched_matches.
Qed.

(** C25: silence.  Without expected state, no change is emitted exactly when the
    two snapshots agree path by path in identity, type, size, time and mode. *)
Theorem diff_empty_iff (previous actual : states) :
  Diff previous actual None = [] ↔ states_match previous actual.
Proof.
  rewrite Diff_changes. split.
  - intros E p. apply (untouched_matches _ _ None None). rewrite E. by intros ?%Exists_nil.
  - intros Hm. destruct (diff_changes previous actual None None) as [|c l] eqn:E; [done|].
    assert (change_spec previous actual None None c) as Hc
      by (apply elem_of_diff_changes; rewrite E; left).
    destruct Hc as [p b a Hb Ha Hi|p b a Hb Ha Hi Hc|p b a Hb Ha Hi Hc Hd
      |id old new b a [Ho _] _ _|p a Ha Hb _|p b Hb Ha _| | |]; try done.
    all: try (specialize (Hm p); rewrite Hb, Ha in Hm; inv Hm; unfold matches in *; naive_solver congruence).
    destruct (unique_in_elem _ _ _ Ho) as [? [Hb Ha]%lookup_difference_Some].
    specialize (Hm old). rewrite Hb, Ha in Hm. inv Hm.
Qed.

(** C26: accounting.  The scanned paths are split without overlap into created,
    modified, re-moded, replaced, moved and unchanged ones. *)
Theorem diff_accounting (previous actual : states) (expected : option (gmap string Expected)) :
  let count k := count_kind k (Diff previous actual expected) in
  count Created + count Modified + count AttributeChanged + count Replaced + count Moved
  + size (unchanged previous actual) = size actual.
Proof. rewrite Diff_changes. apply counters_account. Qed.

(** Order.  The changes of one kind are emitted in path order, for every
    kind but [Moved] (whose order is by identity). *)
Theorem diff_path_order (previous actual : states) (expected : option (gmap string Expected))
    (k : Kind) :
  k ≠ Moved →
  StronglySorted String.le
    (ch_Path <$> filter (λ c, ch_Kind c = k) (Diff previous actual expected)).
Proof. rewrite Diff_changes. apply diff_kind_sorted. Qed.

Definition demo_state (p id : string) (size : Z) : State := mkState p id TypeRegular size 0 420.
Definition demo_previous : states :=
  {["/r/a" := demo_state "/r/a" "1" 5; "/r/b" := demo_state "/r/b" "2" 5;
    "/r/c" := demo_state "/r/c" "3" 5]}.
Definition demo_actual : states :=
  {["/r/a" := demo_state "/r/a" "1" 9; "/r/d" := demo_state "/r/d" "2" 5;
    "/r/e" := demo_state "/r/e" "7" 5]}.

Lemma diff_path_order_witness :
  (ch_Path <$> Diff demo_previous demo_actual None) = ["/r/a"; "/r/d"; "/r/e"; "/r/c"] ∧
  StronglySorted String.le
    (ch_Path <$> filter (λ c, ch_Kind c = Created) (Diff demo_previous demo_actual None)).
Proof.
  split; [vm_compute; reflexivity|].
  apply (diff_path_order demo_previous demo_actual None Created). discriminate.
Defined.

(** The identity index does not depend on the order in which Go ranges over
    the map: for every such order it maps an identity to a path exactly when
    that path is the only one with the (non-empty) identity. *)
Lemma index_any_order (m : states) (entries : list (string * State)) (id p : string) :
  entries ≡ₚ map_to_list m →
  index_entries entries !! id = Some p ↔ unique_in m id p.
Proof. intros Hp. rewrite (index_entries_perm _ _ Hp). apply indexUniqueIDs_spec. Qed.
