(* ===== verification/DirtySet.v ===== *)
(** * The dirty set: internal/dirtyset/dirtyset.go

    A prefix trie of path components that keeps a minimal set of subtrees to
    reconcile.  Children are a Go map, hence a [gmap]; a nil map is the empty
    map.  The theorems relate [Add] and [Drain] to the set of minimal elements of
    the added paths. *)

From S2P Require Import Prelude GoPath.

#[local] Set Warnings "-register-all".

(** ** Definitions *)

Inductive node : Type :=
  | Node (dirty : bool) (children : gmap string node).

Definition dirty (n : node) : bool := let 'Node d _ := n in d.
Definition children (n : node) : gmap string node := let 'Node _ ch := n in ch.

(** [&node{}]. *)
Definition empty_node : node := Node false ∅.

Record Set_ : Type := mkSet {
  ds_root : string;
  ds_tree : node;
  ds_size : Z
}.

Definition New (root : string) : Set_ := mkSet (Clean root) empty_node 0.

Fixpoint countDirty (current : node) : nat :=
  match current with
  | Node d ch => (if d then 1 else 0) + map_fold (λ _ child count, countDirty child + count) 0 ch
  end.

(** The descent of [Add] along the components, rebuilding the trie on the way
    back.  [None] is the early [return false] at a dirty node; otherwise the new
    node and the number of dirty nodes that were below the target. *)
Fixpoint add_parts (current : node) (parts : list string) : option (node * nat) :=
  if dirty current then None
  else match parts with
       | [] => Some (Node true ∅, countDirty current)
       | part :: parts' =>
           let child := default empty_node (children current !! part) in
           match add_parts child parts' with
           | None => None
           | Some (child', removed) =>
               Some (Node false (<[part := child']> (children current)), removed)
           end
       end.

Definition relative_to (root path : string) : string :=
  match Rel root path with
  | Some relative =>
      if bool_decide (relative = "..") || HasPrefix relative "../" then "." else relative
  | None => "."
  end.

Definition Add (s : Set_) (path : string) : bool * Set_ :=
  let path := Clean path in
  let path := if within (ds_root s) path then path else ds_root s in
  let relative := relative_to (ds_root s) path in
  let parts := if decide (relative = ".") then [] else Split relative in
  match add_parts (ds_tree s) parts with
  | None => (false, s)
  | Some (tree, removed) =>
      (true, mkSet (ds_root s) tree (ds_size s + 1 - Z.of_nat removed))
  end.

Definition Len (s : Set_) : Z := ds_size s.

Fixpoint collect (current : node) (path : string) : list string :=
  match current with
  | Node d ch =>
      if d then [path]
      else map_fold (λ name child paths, paths ++ collect child (Join path name)) [] ch
  end.

Definition Drain (s : Set_) : list string * Set_ :=
  (sort_strings (collect (ds_tree s) (ds_root s)), mkSet (ds_root s) empty_node 0).

(** ** The trie as a set of component lists *)

(** The node reached by [ps] is dirty. *)
Fixpoint dirty_at (n : node) (ps : list string) : bool :=
  match ps with
  | [] => dirty n
  | p :: ps' => match children n !! p with Some c => dirty_at c ps' | None => false end
  end.

(** The component lists of the dirty nodes. *)
Fixpoint dirty_paths (n : node) : list (list string) :=
  match n with
  | Node d ch =>
      (if d then [[]] else []) ++
      map_fold (λ name child acc, acc ++ (cons name <$> dirty_paths child)) [] ch
  end.

(** A dirty node has no children, and names are path components. *)
Inductive wf : node → Prop :=
  | wf_node d ch :
      (d = true → ch = ∅) → (∀ name child, ch !! name = Some child → good name) →
      (∀ name child, ch !! name = Some child → wf child) → wf (Node d ch).

Fixpoint node_size (n : node) : nat :=
  match n with
  | Node _ ch => S (map_fold (λ _ child acc, node_size child + acc) 0 ch)
  end.

(** *** Induction *)

Lemma node_ind' (P : node → Prop) :
  (∀ d ch, (∀ name child, ch !! name = Some child → P child) → P (Node d ch)) → ∀ n, P n.
Proof.
  intros H n. remember (node_size n) as k eqn:Hk. revert n Hk.
  induction (lt_wf k) as [k _ IH]. intros [d ch] ->. apply H. intros name child Hc.
  eapply (IH (node_size child)); [|done]. simpl. rewrite (sum_fold_delete _ _ _ _ Hc). lia.
Qed.

Lemma wf_inv d ch :
  wf (Node d ch) → (d = true → ch = ∅) ∧ (∀ name child, ch !! name = Some child → good name) ∧
  (∀ name child, ch !! name = Some child → wf child).
Proof. by inversion 1. Qed.

Lemma wf_empty : wf empty_node.
Proof. constructor; [done|..]; intros ??; by rewrite lookup_empty. Qed.

Lemma wf_child n p : wf n → wf (default empty_node (children n !! p)).
Proof.
  destruct n as [d ch]. intros (_ & _ & H)%wf_inv. simpl.
  destruct (ch !! p) eqn:E; [by eapply H|apply wf_empty].
Qed.

Lemma dirty_at_empty ps : dirty_at empty_node ps = false.
Proof. destruct ps; simpl; [done|]. by rewrite lookup_empty. Qed.

Lemma dirty_at_cons n p ps :
  dirty_at n (p :: ps) = dirty_at (default empty_node (children n !! p)) ps.
Proof. simpl. destruct (children n !! p); [done|]. simpl. by rewrite dirty_at_empty. Qed.

(** In a well-formed trie the dirty nodes form an antichain. *)
Lemma wf_antichain n ps qs :
  wf n → dirty_at n ps = true → dirty_at n (ps ++ qs) = true → qs = [].
Proof.
  revert n. induction ps as [|p ps IH]; intros n Hwf Hp Hq.
  - destruct n as [d ch]. apply wf_inv in Hwf as (Hd & _). simpl in *. subst.
    destruct qs as [|q qs]; [done|]. rewrite (Hd eq_refl) in Hq. simpl in Hq.
    by rewrite lookup_empty in Hq.
  - simpl app in Hq. rewrite dirty_at_cons in Hp, Hq.
    eapply IH; [|exact Hp|exact Hq]. by apply wf_child.
Qed.

(** *** The list of dirty paths *)

Lemma elem_of_dirty_paths n ps : ps ∈ dirty_paths n ↔ dirty_at n ps = true.
Proof.
  revert ps. induction n as [d ch IH] using node_ind'. intros ps. simpl dirty_paths.
  rewrite elem_of_app, elem_of_fold_app. split.
  - intros [H|(name & child & Hc & H)].
    + destruct d; [|set_solver]. apply list_elem_of_singleton in H as ->. done.
    + apply list_elem_of_fmap in H as (qs & -> & Hq). simpl. rewrite Hc. by apply (IH _ _ Hc).
  - destruct ps as [|p ps]; simpl; [intros ->; set_solver|].
    destruct (ch !! p) as [c|] eqn:Hc; [|done]. intros H. right. exists p, c.
    split; [done|]. apply list_elem_of_fmap. exists ps. split; [done|]. by apply (IH _ _ Hc).
Qed.

Lemma NoDup_dirty_paths n : NoDup (dirty_paths n).
Proof.
  induction n as [d ch IH] using node_ind'. simpl. apply NoDup_app. split_and!.
  - destruct d; repeat constructor; set_solver.
  - intros ps Hps (name & child & Hc & H)%elem_of_fold_app.
    destruct d; [|set_solver]. apply list_elem_of_singleton in Hps as ->. set_solver.
  - apply NoDup_fold_app.
    + intros k v Hv. apply (NoDup_fmap_2 _), IH with k. done.
    + intros k1 v1 k2 v2 x _ _ (?&->&_)%list_elem_of_fmap (?&?&_)%list_elem_of_fmap. by simplify_eq.
Qed.

Lemma countDirty_length n : countDirty n = length (dirty_paths n).
Proof.
  induction n as [d ch IH] using node_ind'. simpl. rewrite length_app. f_equal; [by destruct d|].
  symmetry. apply length_fold_app. intros k v Hv. rewrite length_fmap. by rewrite (IH k v Hv).
Qed.

Lemma collect_paths n cs :
  wf n → Forall good cs → collect n (abs cs) = (λ ps, abs (cs ++ ps)) <$> dirty_paths n.
Proof.
  revert cs. induction n as [d ch IH] using node_ind'. intros cs (Hd & Hn & Hc)%wf_inv Hg.
  simpl. destruct d.
  - rewrite (Hd eq_refl), map_fold_empty. simpl. by rewrite app_nil_r.
  - simpl. apply fmap_fold_app. intros k v Hv.
    assert (good k) by by eapply Hn.
    rewrite Join_abs by done. rewrite (IH k v Hv); [|by eapply Hc|by apply Forall_app_2; [|constructor]].
    rewrite <-list_fmap_compose. apply list_fmap_ext. intros i ps _. simpl.
    by rewrite <-app_assoc.
Qed.

(** *** Adding a component list *)

Lemma add_parts_None n parts :
  add_parts n parts = None ↔ ∃ qs, qs `prefix_of` parts ∧ dirty_at n qs = true.
Proof.
  revert n. induction parts as [|p parts IH]; intros n; simpl.
  - destruct (dirty n) eqn:Hd.
    + split; [|done]. intros _. by exists [].
    + split; [done|]. intros (qs & ->%prefix_nil_inv & H). simpl in H. congruence.
  - destruct (dirty n) eqn:Hd.
    { split; [|done]. intros _. exists []. split; [apply prefix_nil|done]. }
    specialize (IH (default empty_node (children n !! p))).
    destruct (add_parts _ parts) as [[c r]|].
    + split; [done|]. intros (qs & Hp & Hq).
      assert (Some (c, r) = None); [|done]. apply IH. destruct qs as [|q qs].
      { simpl in Hq. congruence. }
      pose proof (prefix_cons_inv_1 _ _ _ _ Hp) as ->. apply prefix_cons_inv_2 in Hp.
      exists qs. by rewrite dirty_at_cons in Hq.
    + split; [|done]. intros _. destruct (proj1 IH eq_refl) as (qs & Hp & Hq).
      exists (p :: qs). rewrite dirty_at_cons. split; [by apply prefix_cons|done].
Qed.

Lemma add_parts_dirty n parts n' removed ps :
  add_parts n parts = Some (n', removed) →
  dirty_at n' ps = true ↔ ps = parts ∨ (dirty_at n ps = true ∧ ¬ parts `prefix_of` ps).
Proof.
  revert n n' ps. induction parts as [|p parts IH]; intros n n' ps; simpl.
  - destruct (dirty n); [done|]. intros [= <- <-]. destruct ps as [|q ps].
    + split; [by left|done].
    + simpl. rewrite lookup_empty. split; [done|]. intros [?|[_ []]]; [done|]. apply prefix_nil.
  - destruct (dirty n) eqn:Hd; [done|].
    destruct (add_parts _ parts) as [[c r]|] eqn:E; [|done]. intros [= <- <-].
    destruct ps as [|q ps].
    { simpl. split; [done|]. intros [?|[? _]]; congruence. }
    rewrite !dirty_at_cons. simpl children. destruct (decide (q = p)) as [->|Hne].
    + rewrite lookup_insert_eq. simpl default. rewrite (IH _ _ _ E).
      split; intros [Heq|[? Hn]]; [left; congruence|right; split; [done|]|left; congruence|right; split; [done|]].
      * by intros ?%prefix_cons_inv_2.
      * intros ?. by apply Hn, prefix_cons.
    + rewrite lookup_insert_ne by done. split; [intros H; right; split; [done|]|].
      * intros Hp. by apply Hne, symmetry, (prefix_cons_inv_1 _ _ _ _ Hp).
      * intros [?|[? _]]; [congruence|done].
Qed.

Lemma add_parts_wf n parts n' removed :
  wf n → Forall good parts → add_parts n parts = Some (n', removed) → wf n'.
Proof.
  revert n n'. induction parts as [|p parts IH]; intros n n' Hwf Hg; simpl.
  - destruct (dirty n); [done|]. intros [= <- <-].
    constructor; [done|..]; intros ??; by rewrite lookup_empty.
  - destruct (dirty n) eqn:Hd; [done|]. inv Hg.
    destruct (add_parts _ parts) as [[c r]|] eqn:E; [|done]. intros [= <- <-].
    apply IH in E; [|by apply wf_child|done].
    destruct n as [d ch]. apply wf_inv in Hwf as (_ & Hn & Hc). simpl in *.
    constructor; [done|..]; intros name child [[<- <-]|[? ?]]%lookup_insert_Some; eauto.
Qed.

Lemma add_parts_count n parts n' removed :
  add_parts n parts = Some (n', removed) → countDirty n' + removed = countDirty n + 1.
Proof.
  revert n n'. induction parts as [|p parts IH]; intros n n'; simpl.
  - destruct (dirty n); [done|]. intros [= <- <-]. simpl. rewrite map_fold_empty. lia.
  - destruct (dirty n) eqn:Hd; [done|].
    destruct (add_parts _ parts) as [[c r]|] eqn:E; [|done]. intros [= <- <-].
    apply IH in E. destruct n as [d ch]. simpl in *. subst d. simpl.
    rewrite (sum_fold_delete countDirty (<[p:=c]> ch) p c) by apply lookup_insert_eq.
    rewrite delete_insert_eq. destruct (ch !! p) as [c0|] eqn:Hc; simpl in E.
    + rewrite (sum_fold_delete countDirty ch p c0 Hc). lia.
    + rewrite map_fold_empty in E. rewrite delete_id by done. lia.
Qed.

(** ** The set *)

(** The scope an added path stands for: itself inside the root, else the root. *)
Definition scope_of (root path : string) : string :=
  if within root (Clean path) then Clean path else root.

Definition inv_set (s : Set_) : Prop :=
  clean_abs (ds_root s) ∧ wf (ds_tree s) ∧ ds_size s = Z.of_nat (countDirty (ds_tree s)).

Definition scopes (s : Set_) : list string := collect (ds_tree s) (ds_root s).

Lemma strip_prefix r q : strip r (r ++ q) = ([], q).
Proof. induction r as [|x r IH]; simpl; [done|]. by rewrite decide_True. Qed.

Lemma relative_to_abs r q :
  Forall good r → Forall good q →
  (let relative := relative_to (abs r) (abs (r ++ q)) in
   if decide (relative = ".") then [] else Split relative) = q.
Proof.
  intros Hr Hq. cbv zeta. unfold relative_to.
  rewrite Rel_abs by (done || by apply Forall_app_2). rewrite strip_prefix. simpl.
  destruct q as [|x q].
  { rewrite app_nil_r, (decide_True (P := r = r)) by done. done. }
  assert (r ≠ r ++ x :: q) as Hne.
  { intros E. apply (f_equal length) in E. rewrite length_app in E. simpl in E. lia. }
  rewrite (decide_False (P := r = r ++ x :: q)) by done.
  destruct (join_sep_good_not_up (x :: q) Hq ltac:(done)) as [H1 H2].
  rewrite (bool_decide_false _ H1), H2. cbn [orb].
  pose proof (Split_join_sep (x :: q) ltac:(done) (good_all_no_sep _ Hq)) as HS.
  rewrite decide_False; [exact HS|]. intros E. rewrite E in HS. simpl in HS. inv HS.
  inv Hq. unfold good in *. naive_solver.
Qed.

Lemma scope_of_spec root path :
  clean_abs root →
  ∃ q, Forall good q ∧ scope_of root path = abs (comps root ++ q) ∧
       Forall good (comps root) ∧ root = abs (comps root).
Proof.
  intros Hr. pose proof Hr as [Er Gr]%clean_abs_spec. unfold scope_of.
  destruct (within root (Clean path)) eqn:Hw.
  - apply within_inv in Hw as [Hc [q Hq]]; [|done].
    apply clean_abs_spec in Hc as [Ec Gc]. exists q. rewrite Hq in Ec, Gc.
    apply Forall_app in Gc as [_ Gq]. done.
  - exists []. rewrite app_nil_r. done.
Qed.

Lemma scope_of_clean root path : clean_abs root → clean_abs (scope_of root path).
Proof.
  intros (q & Hq & -> & Hg & _)%(scope_of_spec root path).
  apply clean_abs_abs. by apply Forall_app_2.
Qed.

Lemma within_app r a b :
  Forall good r → Forall good a → Forall good b →
  within (abs (r ++ a)) (abs (r ++ b)) = true ↔ a `prefix_of` b.
Proof.
  intros. rewrite within_abs by by apply Forall_app_2.
  split; [apply prefix_app_inv|apply prefix_app].
Qed.

Lemma dirty_paths_good n ps : wf n → ps ∈ dirty_paths n → Forall good ps.
Proof.
  rewrite elem_of_dirty_paths. revert n. induction ps as [|p ps IH]; intros n Hwf H; [done|].
  destruct n as [d ch]. pose proof Hwf as (_ & Hn & Hc)%wf_inv. simpl in H.
  destruct (ch !! p) as [c|] eqn:E; [|done]. constructor; [by eapply Hn|].
  eapply IH; [|done]. by eapply Hc.
Qed.

Lemma elem_of_scopes s sc :
  inv_set s →
  sc ∈ scopes s ↔ ∃ ps, dirty_at (ds_tree s) ps = true ∧ Forall good ps ∧
                        sc = abs (comps (ds_root s) ++ ps).
Proof.
  intros ([Er Gr]%clean_abs_spec & Hwf & _). unfold scopes. rewrite Er at 1.
  rewrite collect_paths by done. rewrite list_elem_of_fmap.
  setoid_rewrite <-elem_of_dirty_paths. split.
  - intros (ps & -> & H). exists ps. split_and!; [done| |done]. by eapply dirty_paths_good.
  - intros (ps & H & _ & ->). eauto.
Qed.

Lemma Add_spec s path :
  inv_set s →
  let p := scope_of (ds_root s) path in
  inv_set (Add s path).2 ∧ ds_root (Add s path).2 = ds_root s ∧
  if (Add s path).1 then
    (∀ sc, sc ∈ scopes s → within sc p = false) ∧
    (∀ sc, sc ∈ scopes (Add s path).2 ↔ sc = p ∨ (sc ∈ scopes s ∧ within p sc = false))
  else (Add s path).2 = s ∧ ∃ sc, sc ∈ scopes s ∧ within sc p = true.
Proof.
  intros Hinv p. pose proof Hinv as (Hr & Hwf & Hs).
  destruct (scope_of_spec (ds_root s) path Hr) as (q & Hq & Ep & Gr & Er).
  unfold Add. fold (scope_of (ds_root s) path).
  pose proof (relative_to_abs _ q Gr Hq) as Hparts. cbv zeta in Hparts |- *.
  rewrite <-Ep, <-Er in Hparts. rewrite Hparts. unfold p. rewrite Ep.
  destruct (add_parts (ds_tree s) q) as [[tree removed]|] eqn:E; simpl.
  - assert (inv_set (mkSet (ds_root s) tree (ds_size s + 1 - Z.of_nat removed))) as Hinv'.
    { split; [done|split; [exact (add_parts_wf _ _ _ _ Hwf Hq E)|]]. simpl. apply add_parts_count in E. lia. }
    split; [done|split; [done|split]].
    + intros sc (ps & Hd & Hg & ->)%elem_of_scopes; [|done].
      apply not_true_is_false. rewrite within_app by done. intros Hp.
      assert (add_parts (ds_tree s) q = None) by (apply add_parts_None; eauto). congruence.
    + intros sc. rewrite !elem_of_scopes by done. simpl.
      setoid_rewrite (add_parts_dirty _ _ _ _ _ E). split.
      * intros (ps & [->|[Hd Hn]] & Hg & ->); [by left|right]. split; [eauto|].
        apply not_true_is_false. by rewrite within_app.
      * intros [->|[(ps & Hd & Hg & ->) Hn]]; [exists q; auto|]. exists ps. split_and!; [|done..].
        right. split; [done|]. rewrite <-(within_app (comps (ds_root s))) by done. by rewrite Hn.
  - split; [done|split; [done|split; [done|]]]. apply add_parts_None in E as (qs & Hp & Hd).
    assert (Forall good qs) as Hgq.
    { destruct Hp as [k ->]. by apply Forall_app in Hq as []. }
    exists (abs (comps (ds_root s) ++ qs)). rewrite elem_of_scopes, within_app by done. eauto.
Qed.

Lemma inv_New root : IsAbs root = true → inv_set (New root).
Proof.
  intros H. split; [by apply clean_abs_Clean|split; [apply wf_empty|]].
  simpl. by rewrite map_fold_empty.
Qed.

Lemma scopes_New root : scopes (New root) = [].
Proof. unfold scopes. simpl. by rewrite map_fold_empty. Qed.

Lemma scopes_clean s sc : inv_set s → sc ∈ scopes s → clean_abs sc.
Proof.
  intros Hi (ps & _ & Hg & ->)%elem_of_scopes; [|done]. destruct Hi as ([_ Gr]%clean_abs_spec & _).
  apply clean_abs_abs. by apply Forall_app_2.
Qed.

Lemma within_trans a b c :
  clean_abs a → clean_abs b → clean_abs c →
  within a b = true → within b c = true → within a c = true.
Proof.
  intros (ca & -> & ? & _)%clean_abs_elim (cb & -> & ? & _)%clean_abs_elim
    (cc & -> & ? & _)%clean_abs_elim.
  rewrite !within_abs by done. apply transitivity.
Qed.

Lemma within_refl a : clean_abs a → within a a = true.
Proof. intros (ca & -> & ? & _)%clean_abs_elim. by apply within_abs. Qed.

Lemma within_antisym a b :
  clean_abs a → clean_abs b → within a b = true → within b a = true → a = b.
Proof.
  intros (ca & -> & ? & _)%clean_abs_elim (cb & -> & ? & _)%clean_abs_elim.
  rewrite !within_abs by done. intros H1 H2. f_equal. by apply (anti_symm prefix).
Qed.

(** [add_all] is a sequence of [Add] calls. *)
Definition add_all (s : Set_) (paths : list string) : Set_ :=
  foldl (λ s p, (Add s p).2) s paths.

(** The minimal elements of the added scopes. *)
Definition minimal_cover (root : string) (paths out : list string) : Prop :=
  NoDup out ∧
  (∀ p, p ∈ paths → ∃ sc, sc ∈ out ∧ within sc (scope_of root p) = true) ∧
  (∀ sc, sc ∈ out → ∃ p, p ∈ paths ∧ sc = scope_of root p) ∧
  (∀ a b, a ∈ out → b ∈ out → within a b = true → a = b).

Lemma scopes_NoDup s : inv_set s → NoDup (scopes s).
Proof.
  intros ([Er Gr]%clean_abs_spec & Hwf & _). unfold scopes. rewrite Er at 1.
  rewrite collect_paths by done. apply NoDup_fmap_2_strong; [|apply NoDup_dirty_paths].
  intros x y Hx Hy E. apply abs_inj in E; [by apply app_inv_head in E|..].
  all: apply Forall_app_2; [done|]; by eapply dirty_paths_good.
Qed.

Lemma scopes_antichain s a b :
  inv_set s → a ∈ scopes s → b ∈ scopes s → within a b = true → a = b.
Proof.
  intros Hi (pa & Ha & Ga & ->)%elem_of_scopes (pb & Hb & Gb & ->)%elem_of_scopes; [|done..].
  destruct Hi as ([_ Gr]%clean_abs_spec & Hwf & _).
  rewrite within_app by done. intros [k ->].
  by rewrite (wf_antichain _ _ _ Hwf Ha Hb), app_nil_r.
Qed.

Lemma length_scopes s : inv_set s → length (scopes s) = countDirty (ds_tree s).
Proof.
  intros ([Er Gr]%clean_abs_spec & Hwf & _). unfold scopes. rewrite Er at 1.
  rewrite collect_paths by done. by rewrite length_fmap, countDirty_length.
Qed.

Lemma add_all_snoc s paths p : add_all s (paths ++ [p]) = (Add (add_all s paths) p).2.
Proof. unfold add_all. by rewrite foldl_snoc. Qed.

Lemma add_all_cover root paths :
  IsAbs root = true →
  let s := add_all (New root) paths in
  inv_set s ∧ ds_root s = Clean root ∧ minimal_cover (Clean root) paths (scopes s).
Proof.
  intros Hr. simpl. induction paths as [|p paths IH] using rev_ind.
  { split; [by apply inv_New|split; [done|]]. simpl. rewrite scopes_New.
    split_and!; [constructor|set_solver..]. }
  destruct IH as (Hi & Er & _ & Hcov & Hsub & _).
  pose proof (scope_of_clean (Clean root) p (clean_abs_Clean _ Hr)) as Hsc.
  rewrite add_all_snoc. set (s := add_all (New root) paths) in *.
  pose proof (Add_spec s p Hi) as (Hi' & Er' & H). rewrite Er in H.
  split; [done|split; [congruence|split_and!; [by apply scopes_NoDup|..]]].
  3: { intros a b. by apply scopes_antichain. }
  - destruct (Add s p) as [[] s'] eqn:E; simpl in *.
    + destruct H as [_ H]. intros x [Hx| ->%list_elem_of_singleton]%elem_of_app.
      2: { exists (scope_of (Clean root) p). split; [apply H; by left|by apply within_refl]. }
      destruct (Hcov x Hx) as (sc & Hin & Hw).
      destruct (within (scope_of (Clean root) p) sc) eqn:Hps.
      * exists (scope_of (Clean root) p). split; [apply H; by left|].
        eapply within_trans; [..|exact Hps|exact Hw]; [done|exact (scopes_clean s sc Hi Hin)|].
        by apply scope_of_clean, clean_abs_Clean.
      * exists sc. split; [|done]. apply H. by right.
    + destruct H as [-> (sc & Hin & Hw)]. intros x [Hx| ->%list_elem_of_singleton]%elem_of_app; eauto.
  - destruct (Add s p) as [[] s'] eqn:E; simpl in *.
    + destruct H as [_ H]. intros sc [->|[Hin _]]%H; [set_solver|].
      destruct (Hsub sc Hin) as (x & ? & ->). set_solver.
    + destruct H as [-> _]. intros sc (x & ? & ->)%Hsub. set_solver.
Qed.

Lemma minimal_cover_perm root paths out out' :
  out ≡ₚ out' → minimal_cover root paths out → minimal_cover root paths out'.
Proof.
  intros Hp (H1 & H2 & H3 & H4). unfold minimal_cover. rewrite <-Hp.
  split_and!; [done|intros p Hin|intros sc Hin|intros a b Ha Hb].
  - destruct (H2 p Hin) as (sc & ? & ?). exists sc. by rewrite <-Hp.
  - apply H3. by rewrite Hp.
  - apply H4; by rewrite Hp.
Qed.

(** A minimal cover is determined by the added paths. *)
Lemma minimal_cover_unique root paths out out' :
  clean_abs root → minimal_cover root paths out → minimal_cover root paths out' → out ≡ₚ out'.
Proof.
  intros Hr.
  assert (∀ o o', minimal_cover root paths o → minimal_cover root paths o' → ∀ sc, sc ∈ o → sc ∈ o')
    as Hsub.
  { intros o o' (_ & Hc & Hs & Ha) (_ & Hc' & Hs' & _) sc Hin.
    destruct (Hs sc Hin) as (p & Hp & ->). destruct (Hc' p Hp) as (t & Ht & Hw).
    destruct (Hs' t Ht) as (q & Hq & ->). destruct (Hc q Hq) as (u & Hu & Hw').
    destruct (Hs u Hu) as (v & _ & ->).
    pose proof (scope_of_clean root p Hr). pose proof (scope_of_clean root q Hr).
    pose proof (scope_of_clean root v Hr).
    assert (scope_of root v = scope_of root p) as E by (apply Ha; [done|done|eapply within_trans; [..|exact Hw'|exact Hw]; done]).
    rewrite E in Hw'. assert (scope_of root p = scope_of root q) as -> by by apply within_antisym. done. }
  intros H H'. apply NoDup_Permutation; [by destruct H|by destruct H'|].
  intros sc. split; by apply Hsub.
Qed.

(** ** Properties *)

(** C6: the dirty set keeps a minimal cover.  After any sequence of [Add] calls
    on a fresh set, [Drain] returns, sorted, pairwise unnested scopes; every
    added path (a path outside the root standing for the root) lies in one of
    them and every one of them was added; [Len] is their number, and the set is
    empty afterwards. *)
Theorem drain_minimal_cover (root : string) (paths : list string) :
  IsAbs root = true →
  let s := add_all (New root) paths in
  let out := (Drain s).1 in
  Sorted String.le out ∧ minimal_cover (Clean root) paths out ∧
  Len s = Z.of_nat (length out) ∧ (Drain s).2 = New root.
Proof.
  intros Hr. simpl. destruct (add_all_cover root paths Hr) as (Hi & Er & Hc).
  set (s := add_all (New root) paths) in *. fold (scopes s).
  split; [apply sort_strings_sorted|split; [|split]].
  - eapply minimal_cover_perm; [|exact Hc]. symmetry. apply sort_strings_perm.
  - unfold Len. rewrite sort_strings_perm, length_scopes by done. by destruct Hi as (_ & _ & ->).
  - rewrite Er. done.
Qed.

Lemma drain_minimal_cover_witness :
  let s := add_all (New "/data") ["/data/a/x"; "/data/b"; "/data/a"; "/etc"; "/data/c"] in
  (Drain s).1 = ["/data"] ∧ Len s = Z.of_nat (length (Drain s).1).
Proof.
  split; [vm_compute; reflexivity|].
  apply (drain_minimal_cover "/data" ["/data/a/x"; "/data/b"; "/data/a"; "/etc"; "/data/c"]).
  vm_compute. reflexivity.
Defined.

(** C40: [Add] reports a change of the minimal set: it returns true exactly when
    the scopes a [Drain] would return change, and leaves the set alone when it
    returns false. *)
Theorem add_reports_change (root : string) (paths : list string) (path : string) :
  IsAbs root = true →
  let s := add_all (New root) paths in
  ((Add s path).1 = true ↔ (Drain (Add s path).2).1 ≠ (Drain s).1) ∧
  ((Add s path).1 = false → (Add s path).2 = s).
Proof.
  intros Hr. simpl. destruct (add_all_cover root paths Hr) as (Hi & Er & _).
  set (s := add_all (New root) paths) in *. fold (scopes s). fold (scopes (Add s path).2).
  pose proof (Add_spec s path Hi) as (_ & Er' & H). rewrite Er in H.
  destruct (Add s path) as [[] s']; simpl in *.
  - split; [|done]. split; [intros _ E|done]. destruct H as [Hno Hin].
    assert (scope_of (Clean root) path ∈ scopes s) as Hp.
    { rewrite <-(elem_of_sort_strings _ (scopes s)), <-E, elem_of_sort_strings. apply Hin. by left. }
    apply Hno in Hp. rewrite within_refl in Hp; [done|].
    by apply scope_of_clean, clean_abs_Clean.
  - destruct H as [-> _]. split; [|done]. done.
Qed.

Lemma add_reports_change_witness :
  let s := add_all (New "/data") ["/data/a"] in
  (Add s "/data/a/b").1 = false ∧ (Add s "/data/a/b").2 = s.
Proof.
  split; [vm_compute; reflexivity|].
  apply (add_reports_change "/data" ["/data/a"] "/data/a/b"); vm_compute; reflexivity.
Defined.
