(* ===== verification/Scopes.v ===== *)
(** * Collapsing requested scopes: [collapseScopes] of reconcile.go

    The tracker collapses the scopes of a partial reconciliation with a
    quadratic list routine; it computes the same minimal cover as the trie of
    internal/dirtyset. *)

From S2P Require Import Prelude GoPath DirtySet.

(** One iteration of the loop of [collapseScopes]. *)
Definition collapse_step (root : string) (paths : list string) (requested : string) : list string :=
  let path := Clean requested in
  let path := if pathHasPrefix path root then path else root in
  if existsb (λ existing, pathHasPrefix path existing) paths then paths
  else List.filter (λ existing, negb (pathHasPrefix existing path)) paths ++ [path].

Definition collapseScopes (root : string) (requested : list string) : list string :=
  foldl (collapse_step root) [] requested.

(** ** Lemmas *)

Lemma pathHasPrefix_within p r :
  clean_abs p → clean_abs r → no_backslash p = true → pathHasPrefix p r = within r p.
Proof.
  intros (cp & -> & ? & _)%clean_abs_elim (cr & -> & ? & _)%clean_abs_elim Hb.
  apply eq_bool_prop_intro. rewrite !Is_true_true, pathHasPrefix_abs, within_abs by done. done.
Qed.

Lemma pathHasPrefix_relative p r : IsAbs p = false → IsAbs r = true → pathHasPrefix p r = false.
Proof.
  intros Hp Hr. unfold pathHasPrefix. rewrite decide_False.
  - replace (HasPrefix p r) with false; [done|]. symmetry. apply not_true_is_false.
    intros [s E]%HasPrefix_spec. destruct r as [|c r]; [done|]. subst. simpl in *. congruence.
  - intros [->| ->]; [done|congruence].
Qed.

Lemma collapse_scope root p :
  clean_abs root → no_backslash (Clean p) = true →
  (if pathHasPrefix (Clean p) root then Clean p else root) = scope_of root p.
Proof.
  intros Hr Hb. unfold scope_of. destruct (IsAbs p) eqn:Hp.
  - rewrite pathHasPrefix_within; [done|by apply clean_abs_Clean|done|done].
  - rewrite pathHasPrefix_relative, within_relative; try done; try (by destruct Hr).
    all: by rewrite IsAbs_Clean.
Qed.

Lemma collapse_cover root requested :
  clean_abs root → no_backslash root = true →
  Forall (λ p, no_backslash (Clean p) = true) requested →
  minimal_cover root requested (collapseScopes root requested) ∧
  Forall (λ sc, no_backslash sc = true) (collapseScopes root requested).
Proof.
  intros Hr Hbr. induction requested as [|p l IH] using rev_ind; intros Hb.
  { split; [|constructor]. split_and!; [constructor|set_solver..]. }
  apply Forall_app in Hb as [Hl Hp]. inv Hp. destruct (IH Hl) as [(Hnd & Hcov & Hsub & Hanti) Hnb].
  unfold collapseScopes. rewrite foldl_snoc. fold (collapseScopes root l).
  unfold collapse_step. rewrite collapse_scope by done.
  set (out := collapseScopes root l) in *. set (q := scope_of root p).
  assert (clean_abs q) as Hq by by apply scope_of_clean.
  assert (no_backslash q = true) as Hbq.
  { unfold q, scope_of. by destruct (within root (Clean p)). }
  assert (∀ sc, sc ∈ out → clean_abs sc ∧ no_backslash sc = true) as Hout.
  { intros sc Hin. rewrite Forall_forall in Hnb. split; [|by apply Hnb].
    destruct (Hsub sc Hin) as (x & _ & ->). by apply scope_of_clean. }
  destruct (existsb _ out) eqn:Hex.
  - apply existsb_exists in Hex as (sc & Hin & Hpre). apply list_elem_of_In in Hin.
    rewrite pathHasPrefix_within in Hpre by (done || by apply Hout).
    split; [|done]. split_and!; [done| | |done].
    + intros x [Hx| ->%list_elem_of_singleton]%elem_of_app; eauto.
    + intros t (x & ? & ->)%Hsub. set_solver.
  - assert (∀ sc, sc ∈ out → within sc q = false) as Hno.
    { intros sc Hin. apply not_true_is_false. intros Hw.
      assert (existsb (λ existing, pathHasPrefix q existing) out = true); [|congruence].
      apply existsb_exists. exists sc. rewrite <-list_elem_of_In.
      rewrite pathHasPrefix_within by (done || by apply Hout). done. }
    assert (∀ sc, sc ∈ List.filter (λ e, negb (pathHasPrefix e q)) out ↔ sc ∈ out ∧ within q sc = false)
      as Hf.
    { intros sc. rewrite list_elem_of_In, filter_In, <-list_elem_of_In, negb_true_iff.
      split; intros [Hin Hw]; split; try done; pose proof (Hout sc Hin) as [??].
      all: rewrite pathHasPrefix_within in * by done; done. }
    split; [split_and!|].
    + apply NoDup_app. split_and!; [by apply NoDup_ListNoDup, List.NoDup_filter, NoDup_ListNoDup| |apply NoDup_singleton].
      intros sc [Hin _]%Hf ->%list_elem_of_singleton. apply Hno in Hin.
      by rewrite within_refl in Hin.
    + intros x [Hx| ->%list_elem_of_singleton]%elem_of_app.
      2: { exists q. split; [set_solver|by apply within_refl]. }
      destruct (Hcov x Hx) as (sc & Hin & Hw). destruct (within q sc) eqn:Hqs.
      * exists q. split; [set_solver|]. eapply within_trans; [..|exact Hqs|exact Hw]; [done|by apply Hout|].
        by apply scope_of_clean.
      * exists sc. split; [|done]. apply elem_of_app. left. by apply Hf.
    + intros sc [[Hin _]%Hf| ->%list_elem_of_singleton]%elem_of_app; [|set_solver].
      destruct (Hsub sc Hin) as (x & ? & ->). set_solver.
    + intros a b [[Ha Ha']%Hf| ->%list_elem_of_singleton]%elem_of_app
        [[Hb' Hb'']%Hf| ->%list_elem_of_singleton]%elem_of_app Hw; [by apply Hanti| | |done].
      * apply Hno in Ha. congruence.
      * congruence.
    + apply Forall_app. split; [|by constructor]. apply Forall_forall. intros sc [Hin _]%Hf.
      by apply Hout.
Qed.

(** ** Properties *)

(** C27: the two collapses agree.  For a clean absolute root and paths without
    backslashes, [collapseScopes] returns a permutation of what the dirty set
    drains after the same requests. *)
Theorem collapse_agrees_with_dirtyset (root : string) (requested : list string) :
  clean_abs root → no_backslash root = true →
  Forall (λ p, no_backslash (Clean p) = true) requested →
  collapseScopes root requested ≡ₚ (Drain (add_all (New root) requested)).1.
Proof.
  intros Hr Hb Hq. destruct (collapse_cover root requested Hr Hb Hq) as [Hc _].
  destruct (add_all_cover root requested (proj1 Hr)) as (_ & _ & Hc').
  rewrite (proj2 Hr) in Hc'. simpl. rewrite sort_strings_perm.
  by eapply minimal_cover_unique.
Qed.

Lemma collapse_agrees_with_dirtyset_witness :
  collapseScopes "/d" ["/d/b/c"; "/d/a"; "/d/b"; "/d/a/x"] = ["/d/a"; "/d/b"] ∧
  collapseScopes "/d" ["/d/b/c"; "/d/a"; "/d/b"; "/d/a/x"]
  ≡ₚ (Drain (add_all (New "/d") ["/d/b/c"; "/d/a"; "/d/b"; "/d/a/x"])).1.
Proof.
  split; [vm_compute; reflexivity|].
  apply (collapse_agrees_with_dirtyset "/d" ["/d/b/c"; "/d/a"; "/d/b"; "/d/a/x"]).
  - by_decide.
  - vm_compute. reflexivity.
  - repeat constructor.
Defined.

(** With a backslash in a name the two differ: [pathHasPrefix] takes it for a
    separator, so [collapseScopes] drops a directory that the dirty set keeps beside
    its namesake. *)
Theorem collapse_backslash_differs :
  let sibling := "/d/a" +:+ String (Ascii.ascii_of_nat 92) "b" in
  collapseScopes "/d" ["/d/a"; sibling] = ["/d/a"] ∧
  (Drain (add_all (New "/d") ["/d/a"; sibling])).1 = ["/d/a"; sibling].
Proof. split; vm_compute; reflexivity. Qed.
