(* ===== verification/Types.v ===== *)
(** * Public data of the package: state.go, event.go, config.go, expected.go,
    report.go, errors.go and the conversions of reconcile.go and tracker.go

    Enumerations that cross the API ([FileType], [EventKind], [EventSource],
    policies) are [uint8] values in Go and keep their numeric values here, so an
    out-of-range value has the behaviour of the [default] branches.  An instant
    is its number of nanoseconds since the epoch. *)

From S2P Require Import Prelude Diff.

(** The zero [time.Time]: the first instant of the year 1. *)
Definition zeroTime : Z := (-62135596800) * 1000000000.

(** ** state.go *)

Record FileID : Type := newFileID { id_value : string }.

#[global] Instance FileID_eq_dec : EqDecision FileID.
Proof. solve_decision. Defined.

Definition IsZero (id : FileID) : bool := bool_decide (id_value id = "").

Definition Equal (id other : FileID) : bool :=
  bool_decide (id_value id ≠ "") && bool_decide (id_value id = id_value other).

Definition MarshalText (id : FileID) : string + error := inl (id_value id).
Definition UnmarshalText (id : option FileID) (text : string) : FileID + error :=
  match id with
  | None => inr (errors_New "fsrecon: unmarshal FileID into nil receiver")
  | Some _ => inl (newFileID text)
  end.

Definition FileTypeUnknown : Z := 0.
Definition FileTypeRegular : Z := 1.
Definition FileTypeDirectory : Z := 2.
Definition FileTypeSymlink : Z := 3.
Definition FileTypeOther : Z := 4.

(** [names[i]] with the bounds test of the [String] methods. *)
Definition name_of (names : list string) (t : Z) : string :=
  if decide (Z.of_nat (length names) ≤ t)%Z then "UNKNOWN"
  else default "" (names !! Z.to_nat t).

Definition FileType_names : list string := ["UNKNOWN"; "REGULAR"; "DIRECTORY"; "SYMLINK"; "OTHER"].
Definition FileType_String (t : Z) : string := name_of FileType_names t.

Record FileState : Type := mkFileState {
  fs_Path : string;
  fs_ID : FileID;
  fs_Type : Z;
  fs_Size : Z;
  fs_ModTime : Z;
  fs_Mode : Z
}.

#[global] Instance FileState_eq_dec : EqDecision FileState.
Proof. solve_decision. Defined.

#[global] Instance FileState_inhabited : Inhabited FileState :=
  populate (mkFileState "" (newFileID "") 0 0 0 0).

(** ** event.go *)

Definition EventCreated : Z := 0.
Definition EventModified : Z := 1.
Definition EventDeleted : Z := 2.
Definition EventMoved : Z := 3.
Definition EventAttributeChanged : Z := 4.
Definition EventMissing : Z := 5.
Definition EventOrphan : Z := 6.
Definition EventReplaced : Z := 7.
Definition EventInvalid : Z := 8.
Definition EventCorrupt : Z := 9.
Definition EventOverflow : Z := 10.
Definition EventRescanRequired : Z := 11.

Definition EventKind_names : list string :=
  ["CREATED"; "MODIFIED"; "DELETED"; "MOVED"; "ATTRIBUTE_CHANGED"; "MISSING"; "ORPHAN";
   "REPLACED"; "INVALID"; "CORRUPT"; "OVERFLOW"; "RESCAN_REQUIRED"].
Definition EventKind_String (k : Z) : string := name_of EventKind_names k.

Definition SourceWatcher : Z := 0.
Definition SourceReconcile : Z := 1.
Definition SourceIntegrity : Z := 2.

Definition EventSource_names : list string := ["WATCHER"; "RECONCILE"; "INTEGRITY"].
Definition EventSource_String (s : Z) : string := name_of EventSource_names s.

Record Event : Type := mkEvent {
  ev_Kind : Z;
  ev_Path : string;
  ev_OldPath : string;
  ev_Before : option FileState;
  ev_After : option FileState;
  ev_Source : Z;
  ev_Time : Z
}.

#[global] Instance Event_eq_dec : EqDecision Event.
Proof. solve_decision. Defined.

Record ChangeBatch : Type := mkBatch {
  cb_SessionID : string;
  cb_Generation : Z;
  cb_Sequence : Z;
  cb_Final : bool;
  cb_Events : list Event
}.

(** ** config.go and expected.go *)

Definition IgnoreSymlinks : Z := 0.
Definition ReportSymlinks : Z := 1.
Definition FollowSymlinks : Z := 2.
Definition RejectSymlinks : Z := 3.

Definition AllowHardlinks : Z := 0.
Definition ReportHardlinks : Z := 1.
Definition RejectHardlinks : Z := 2.

Definition ExpectedRegularFiles : Z := 0.
Definition ExpectedAllEntries : Z := 1.

Definition defaultEventBuffer : Z := 256.
Definition defaultDebounceWindow : Z := 100 * 1000000.
Definition defaultReportEventLimit : Z := 10000.
Definition defaultChangeBatchSize : Z := 256.

Record ExpectedEntry : Type := mkExpectedEntry {
  ee_Path : string;
  ee_Type : option Z;
  ee_Size : option Z;
  ee_Fingerprint : list Byte.byte
}.

(** ** report.go *)

Record ReconcileReport : Type := mkReport {
  rp_Generation : Z;
  rp_StartedAt : Z;
  rp_Duration : Z;
  rp_Scanned : Z;
  rp_Healthy : Z;
  rp_Created : Z;
  rp_Modified : Z;
  rp_Deleted : Z;
  rp_Moved : Z;
  rp_Replaced : Z;
  rp_Missing : Z;
  rp_Orphan : Z;
  rp_Invalid : Z;
  rp_Corrupt : Z;
  rp_Events : list Event;
  rp_EventsTruncated : Z
}.

Definition zero_report : ReconcileReport := mkReport 0 zeroTime 0 0 0 0 0 0 0 0 0 0 0 0 [] 0.

Record IntegrityReport : Type := mkIntegrityReport {
  ir_Generation : Z;
  ir_StartedAt : Z;
  ir_Duration : Z;
  ir_Scanned : Z;
  ir_Healthy : Z;
  ir_Corrupt : Z;
  ir_Events : list Event;
  ir_EventsTruncated : Z
}.

Definition zero_integrity_report : IntegrityReport := mkIntegrityReport 0 zeroTime 0 0 0 0 [] 0.

(** ** Conversions between the public and the internal data (reconcile.go) *)

Definition internalTypeFromPublic (fileType : Z) : Diff.FileType :=
  if decide (fileType = FileTypeRegular) then Diff.TypeRegular
  else if decide (fileType = FileTypeDirectory) then Diff.TypeDirectory
  else if decide (fileType = FileTypeSymlink) then Diff.TypeSymlink
  else if decide (fileType = FileTypeOther) then Diff.TypeOther
  else Diff.TypeUnknown.

Definition fileTypeFromInternal (fileType : Diff.FileType) : Z :=
  match fileType with
  | Diff.TypeRegular => FileTypeRegular
  | Diff.TypeDirectory => FileTypeDirectory
  | Diff.TypeSymlink => FileTypeSymlink
  | Diff.TypeOther => FileTypeOther
  | Diff.TypeUnknown => FileTypeUnknown
  end.

(** [ModTime.UnixNano()] is an [int64]; [uint32(state.Mode)] a [uint32]. *)
Definition toInternalState (path : string) (state : FileState) : Diff.State :=
  Diff.mkState path (id_value (fs_ID state)) (internalTypeFromPublic (fs_Type state))
    (fs_Size state) (i64 (fs_ModTime state)) (u32 (fs_Mode state)).

Definition toInternalStates (m : gmap string FileState) : gmap string Diff.State :=
  map_imap (λ path state, Some (toInternalState path state)) m.

Definition fromInternalState (state : Diff.State) : FileState :=
  mkFileState (Diff.st_Path state) (newFileID (Diff.st_ID state))
    (fileTypeFromInternal (Diff.st_Type state)) (Diff.st_Size state)
    (Diff.st_ModUnix state) (Diff.st_Mode state).

(** The [default] branch of the switch, an unknown internal kind, is not a value
    of [Kind]. *)
Definition eventKindFromInternal (kind : Diff.Kind) : Z :=
  match kind with
  | Diff.Created => EventCreated
  | Diff.Modified => EventModified
  | Diff.Deleted => EventDeleted
  | Diff.Moved => EventMoved
  | Diff.AttributeChanged => EventAttributeChanged
  | Diff.Missing => EventMissing
  | Diff.Orphan => EventOrphan
  | Diff.Replaced => EventReplaced
  | Diff.Invalid => EventInvalid
  end.

(** [now] is the value of [time.Now()]. *)
Definition eventFromChange (now : Z) (c : Diff.Change) : Event :=
  mkEvent (eventKindFromInternal (Diff.ch_Kind c)) (Diff.ch_Path c) (Diff.ch_OldPath c)
    (fromInternalState <$> Diff.ch_Before c) (fromInternalState <$> Diff.ch_After c)
    SourceReconcile now.

(** ** File modes (tracker.go, io/fs) *)

Definition ModeDir : Z := 2 ^ 31.
Definition ModeSymlink : Z := 2 ^ 27.
Definition ModeType : Z :=
  Z.lor (2 ^ 31) (Z.lor (2 ^ 27) (Z.lor (2 ^ 25) (Z.lor (2 ^ 24) (Z.lor (2 ^ 26) (Z.lor (2 ^ 21) (2 ^ 19)))))).

Definition mode_IsRegular (mode : Z) : bool := bool_decide (Z.land mode ModeType = 0%Z).
Definition mode_IsDir (mode : Z) : bool := bool_decide (Z.land mode ModeDir ≠ 0%Z).
Definition mode_IsSymlink (mode : Z) : bool := bool_decide (Z.land mode ModeSymlink ≠ 0%Z).

Definition fileType (mode : Z) : Z :=
  if mode_IsRegular mode then FileTypeRegular
  else if mode_IsDir mode then FileTypeDirectory
  else if mode_IsSymlink mode then FileTypeSymlink
  else FileTypeOther.

(** ** Counting events in a report *)

Definition countEvent (r : ReconcileReport) (kind : Z) : ReconcileReport :=
  let '(mkReport g st du sc he cr mo de mv re mi orp iv co evs tr) := r in
  let inc n := u64 (n + 1) in
  if decide (kind = EventCreated) then mkReport g st du sc he (inc cr) mo de mv re mi orp iv co evs tr
  else if decide (kind = EventModified ∨ kind = EventAttributeChanged) then
    mkReport g st du sc he cr (inc mo) de mv re mi orp iv co evs tr
  else if decide (kind = EventDeleted) then mkReport g st du sc he cr mo (inc de) mv re mi orp iv co evs tr
  else if decide (kind = EventMoved) then mkReport g st du sc he cr mo de (inc mv) re mi orp iv co evs tr
  else if decide (kind = EventReplaced) then mkReport g st du sc he cr mo de mv (inc re) mi orp iv co evs tr
  else if decide (kind = EventMissing) then mkReport g st du sc he cr mo de mv re (inc mi) orp iv co evs tr
  else if decide (kind = EventOrphan) then mkReport g st du sc he cr mo de mv re mi (inc orp) iv co evs tr
  else if decide (kind = EventInvalid) then mkReport g st du sc he cr mo de mv re mi orp (inc iv) co evs tr
  else if decide (kind = EventCorrupt) then mkReport g st du sc he cr mo de mv re mi orp iv (inc co) evs tr
  else r.

(** [t.addReportEvent]: detail is kept up to [t.config.ReportEventLimit]. *)
Definition addReportEvent (limit : Z) (r : ReconcileReport) (event : Event) : ReconcileReport :=
  let '(mkReport g st du sc he cr mo de mv re mi orp iv co evs tr) := r in
  if decide (Z.of_nat (length evs) < limit)%Z then
    mkReport g st du sc he cr mo de mv re mi orp iv co (evs ++ [event]) tr
  else mkReport g st du sc he cr mo de mv re mi orp iv co evs (u64 (tr + 1)).

(** Every call site counts the event and then adds its detail. *)
Definition recordEvent (limit : Z) (r : ReconcileReport) (event : Event) : ReconcileReport :=
  addReportEvent limit (countEvent r (ev_Kind event)) event.

Definition recordEvents (limit : Z) (r : ReconcileReport) (events : list Event) : ReconcileReport :=
  foldl (recordEvent limit) r events.

(** [cloneEvents] copies the slice and gives every copy its own [Before] and
    [After] values. *)
Definition cloneEvent (event : Event) : Event :=
  mkEvent (ev_Kind event) (ev_Path event) (ev_OldPath event)
    (match ev_Before event with Some value => Some value | None => None end)
    (match ev_After event with Some value => Some value | None => None end)
    (ev_Source event) (ev_Time event).
Definition cloneEvents (events : list Event) : list Event := cloneEvent <$> events.

(** ** Lemmas *)

Lemma cloneEvents_id events : cloneEvents events = events.
Proof.
  unfold cloneEvents. rewrite <-(list_fmap_id events) at 2. apply list_fmap_ext.
  intros i [k p o [b|] [a|] s t] _; done.
Qed.

Lemma u64_add_idemp a b : u64 (u64 a + b) = u64 (a + b).
Proof. unfold u64. by rewrite Zplus_mod_idemp_l. Qed.

Lemma u64_small z : (0 ≤ z < 2 ^ 64)%Z → u64 z = z.
Proof. apply Z.mod_small. Qed.

Lemma u64_sub_idemp a b : u64 (u64 a - u64 b) = u64 (a - b).
Proof. unfold u64. by rewrite <-Zminus_mod. Qed.

Lemma i64_small z : (- 2 ^ 63 ≤ z < 2 ^ 63)%Z → i64 z = z.
Proof. intros H. unfold i64. rewrite Z.mod_small; lia. Qed.

Lemma lookup_toInternalStates m p :
  toInternalStates m !! p = toInternalState p <$> m !! p.
Proof. unfold toInternalStates. rewrite map_lookup_imap. by destruct (m !! p). Qed.

(** The counter a kind increments. *)
Definition counter (r : ReconcileReport) (kind : Z) : Z :=
  if decide (kind = EventCreated) then rp_Created r
  else if decide (kind = EventModified ∨ kind = EventAttributeChanged) then rp_Modified r
  else if decide (kind = EventDeleted) then rp_Deleted r
  else if decide (kind = EventMoved) then rp_Moved r
  else if decide (kind = EventReplaced) then rp_Replaced r
  else if decide (kind = EventMissing) then rp_Missing r
  else if decide (kind = EventOrphan) then rp_Orphan r
  else if decide (kind = EventInvalid) then rp_Invalid r
  else if decide (kind = EventCorrupt) then rp_Corrupt r
  else 0.

(** The events that increment the counter of [kind]. *)
Definition same_counter (kind kind' : Z) : Prop :=
  kind = kind' ∨ (kind ∈ [EventModified; EventAttributeChanged] ∧ kind' ∈ [EventModified; EventAttributeChanged]).
#[global] Instance same_counter_dec k k' : Decision (same_counter k k').
Proof. apply _. Defined.

Definition count_events (kind : Z) (events : list Event) : Z :=
  Z.of_nat (length (filter (λ e, same_counter kind (ev_Kind e)) events)).

Definition counted_kinds : list Z :=
  [EventCreated; EventModified; EventDeleted; EventMoved; EventReplaced; EventMissing;
   EventOrphan; EventInvalid; EventCorrupt].

Lemma countEvent_counter r kind k :
  k ∈ counted_kinds →
  counter (countEvent r kind) k =
  if decide (same_counter k kind) then u64 (counter r k + 1) else counter r k.
Proof.
  intros Hk. destruct r. unfold counted_kinds in Hk.
  repeat (apply elem_of_cons in Hk as [->|Hk]); [..|set_solver].
  all: unfold countEvent, counter, same_counter.
  all: destruct (decide (kind = EventCreated)) as [->|]; [done|].
  all: destruct (decide (kind = EventModified ∨ kind = EventAttributeChanged)) as [[->| ->]|]; [done..|].
  all: destruct (decide (kind = EventDeleted)) as [->|]; [done|].
  all: destruct (decide (kind = EventMoved)) as [->|]; [done|].
  all: destruct (decide (kind = EventReplaced)) as [->|]; [done|].
  all: destruct (decide (kind = EventMissing)) as [->|]; [done|].
  all: destruct (decide (kind = EventOrphan)) as [->|]; [done|].
  all: destruct (decide (kind = EventInvalid)) as [->|]; [done|].
  all: destruct (decide (kind = EventCorrupt)) as [->|]; [done|].
  all: rewrite (decide_False (P := _ = kind ∨ _)); [done|].
  all: intros [<-|[_ Hm]]; [by auto|].
  all: rewrite !elem_of_cons, elem_of_nil in Hm; tauto.
Qed.

Lemma addReportEvent_counter limit r e k : counter (addReportEvent limit r e) k = counter r k.
Proof. destruct r. unfold addReportEvent. by case_decide. Qed.

Lemma countEvent_events r k :
  rp_Events (countEvent r k) = rp_Events r ∧ rp_EventsTruncated (countEvent r k) = rp_EventsTruncated r.
Proof. destruct r. unfold countEvent. repeat case_decide; done. Qed.

(** The fields recording leaves alone. *)
Definition same_header (r r' : ReconcileReport) : Prop :=
  rp_Generation r = rp_Generation r' ∧ rp_StartedAt r = rp_StartedAt r' ∧
  rp_Duration r = rp_Duration r' ∧ rp_Scanned r = rp_Scanned r' ∧ rp_Healthy r = rp_Healthy r'.

#[global] Instance same_header_equiv : Equivalence same_header.
Proof.
  unfold same_header. split; [done|intros ??; naive_solver|]. intros ???. intuition congruence.
Qed.

Lemma recordEvent_header limit r e : same_header (recordEvent limit r e) r.
Proof.
  destruct r. unfold recordEvent, countEvent. repeat case_decide; unfold addReportEvent;
    case_decide; done.
Qed.

Lemma recordEvents_header limit r evs : same_header (recordEvents limit r evs) r.
Proof.
  unfold recordEvents. revert r. induction evs as [|e evs IH]; intros r; [done|]. simpl.
  etrans; [apply IH|apply recordEvent_header].
Qed.

Lemma count_events_cons k e evs :
  count_events k (e :: evs) =
  ((if decide (same_counter k (ev_Kind e)) then 1 else 0) + count_events k evs)%Z.
Proof. unfold count_events. rewrite filter_cons. case_decide; simpl; lia. Qed.

Lemma recordEvents_counter limit r evs k :
  k ∈ counted_kinds →
  u64 (counter (recordEvents limit r evs) k) = u64 (counter r k + count_events k evs).
Proof.
  intros Hk. unfold recordEvents. revert r. induction evs as [|e evs IH]; intros r; simpl.
  { f_equal. unfold count_events. simpl. lia. }
  rewrite IH, count_events_cons. unfold recordEvent.
  rewrite addReportEvent_counter, countEvent_counter by done.
  case_decide; [rewrite u64_add_idemp|]; f_equal; lia.
Qed.

Lemma recordEvents_in_range limit r evs k :
  k ∈ counted_kinds → counter r k = u64 (counter r k) →
  counter (recordEvents limit r evs) k = u64 (counter (recordEvents limit r evs) k).
Proof.
  intros Hk. unfold recordEvents. revert r. induction evs as [|e evs IH]; intros r Hr; [done|].
  simpl. apply IH. unfold recordEvent. rewrite addReportEvent_counter, countEvent_counter by done.
  case_decide; [|done]. unfold u64. by rewrite Z.mod_mod.
Qed.

Lemma recordEvents_detail limit r evs :
  (Z.of_nat (length (rp_Events r)) ≤ limit)%Z →
  rp_Events (recordEvents limit r evs) = take (Z.to_nat limit) (rp_Events r ++ evs) ∧
  u64 (rp_EventsTruncated (recordEvents limit r evs)) =
  u64 (rp_EventsTruncated r + Z.of_nat (length (rp_Events r ++ evs) - Z.to_nat limit)).
Proof.
  unfold recordEvents. revert r. induction evs as [|e evs IH]; intros r Hr; simpl.
  { rewrite app_nil_r. split; [by rewrite take_ge by lia|]. f_equal. lia. }
  pose proof (countEvent_events r (ev_Kind e)) as [He Ht]. unfold recordEvent at 2 4.
  destruct (decide (Z.of_nat (length (rp_Events r)) < limit)%Z) as [Hlt|Hge].
  - assert (rp_Events (addReportEvent limit (countEvent r (ev_Kind e)) e) = rp_Events r ++ [e] ∧
      rp_EventsTruncated (addReportEvent limit (countEvent r (ev_Kind e)) e) = rp_EventsTruncated r)
      as [H1 H2].
    { destruct (countEvent r (ev_Kind e)). simpl in *. subst. by rewrite decide_True. }
    destruct (IH (addReportEvent limit (countEvent r (ev_Kind e)) e)) as [IH1 IH2].
    { rewrite H1, length_app. simpl. lia. }
    rewrite IH1, IH2, H1, H2, <-!app_assoc. done.
  - assert (rp_Events (addReportEvent limit (countEvent r (ev_Kind e)) e) = rp_Events r ∧
      rp_EventsTruncated (addReportEvent limit (countEvent r (ev_Kind e)) e) =
      u64 (rp_EventsTruncated r + 1)) as [H1 H2].
    { destruct (countEvent r (ev_Kind e)). simpl in *. subst. by rewrite decide_False. }
    destruct (IH (addReportEvent limit (countEvent r (ev_Kind e)) e)) as [IH1 IH2].
    { by rewrite H1. }
    rewrite IH1, IH2, H1, H2, u64_add_idemp, !take_app_le by lia. split; [done|].
    f_equal. rewrite !length_app. simpl. lia.
Qed.

(** ** Properties *)

(** C28: reports stay complete under truncation.  Recording a sequence of events
    in a fresh report with a non-negative detail limit gives, for every counted
    kind, the number of its events (modulo 2^64; attribute changes count as
    modifications), keeps exactly the first [limit] events as detail and counts
    the others in [EventsTruncated]. *)
Theorem report_complete (limit : Z) (events : list Event) (k : Z) :
  (0 ≤ limit)%Z → k ∈ counted_kinds →
  let r := recordEvents limit zero_report events in
  counter r k = u64 (count_events k events) ∧
  rp_Events r = take (Z.to_nat limit) events ∧
  u64 (rp_EventsTruncated r) = u64 (Z.of_nat (length events - Z.to_nat limit)).
Proof.
  intros Hl Hk r. unfold r. destruct (recordEvents_detail limit zero_report events) as [H1 H2]; [done|].
  assert (counter zero_report k = 0%Z) as H0 by (unfold counter; repeat case_decide; done).
  split; [|done]. rewrite recordEvents_in_range by (done || by rewrite H0).
  rewrite recordEvents_counter by done. by rewrite H0.
Qed.

Definition demo_event (kind : Z) (path : string) : Event :=
  mkEvent kind path "" None None SourceReconcile 0.

Lemma report_complete_witness :
  let events := [demo_event EventCreated "/a"; demo_event EventModified "/b";
                 demo_event EventAttributeChanged "/c"; demo_event EventModified "/d"] in
  let r := recordEvents 2 zero_report events in
  rp_Modified r = 3%Z ∧ rp_Events r = take 2 events.
Proof.
  split; [vm_compute; reflexivity|].
  apply (report_complete 2 _ EventModified); [done|]. by_decide.
Defined.

(** The states the diff engine represents: a valid type, a time in the [int64]
    nanosecond range and a 32-bit mode. *)
Definition internal_ok (state : FileState) : Prop :=
  (0 ≤ fs_Type state ≤ 4)%Z ∧ (- 2 ^ 63 ≤ fs_ModTime state < 2 ^ 63)%Z ∧ (0 ≤ fs_Mode state < 2 ^ 32)%Z.

Lemma internal_roundtrip (state : FileState) :
  internal_ok state → fromInternalState (toInternalState (fs_Path state) state) = state.
Proof.
  intros (Ht & Hm & Hmode). destruct state as [p [v] t sz m mo]. simpl in *.
  unfold fromInternalState, toInternalState. simpl. rewrite i64_small by done.
  assert (u32 mo = mo) as -> by by apply Z.mod_small.
  assert (t = 0 ∨ t = 1 ∨ t = 2 ∨ t = 3 ∨ t = 4)%Z as Hc by lia.
  by destruct Hc as [->|[->|[->|[->| ->]]]].
Qed.

(** Metadata survives the conversion to the diff engine and back: a state
    with a valid type, a time in the [int64] nanosecond range and a 32-bit mode
    is restored exactly, under the path it is stored at. *)
Theorem internal_state_roundtrip (path : string) (state : FileState) :
  (0 ≤ fs_Type state ≤ 4)%Z → (- 2 ^ 63 ≤ fs_ModTime state < 2 ^ 63)%Z →
  (0 ≤ fs_Mode state < 2 ^ 32)%Z → fs_Path state = path →
  fromInternalState (toInternalState path state) = state.
Proof. intros Ht Hm Hmode <-. by apply internal_roundtrip. Qed.

Lemma internal_state_roundtrip_witness :
  let s := mkFileState "/a" (newFileID "1:2") FileTypeSymlink 7 1700000000000000000 134218239 in
  fromInternalState (toInternalState "/a" s) = s.
Proof. apply (internal_state_roundtrip "/a"); simpl; unfold FileTypeSymlink; try lia; reflexivity. Defined.
