(* ===== verification/Delivery.v ===== *)
(** * Authoritative delivery: delivery.go and the delivery of reconcile.go

    The change batcher cuts a generation of events into bounded batches for the
    [ChangeSink].  The sink is application code: an action on a world [W] that
    can fail, and a parameter of the model. *)

From S2P Require Import Prelude Types.

Record changeBatcher : Type := mkBatcher {
  bt_sessionID : string;
  bt_generation : Z;
  bt_sequence : Z;
  bt_limit : Z;
  bt_pending : list Event
}.

Definition newChangeBatcher (sessionID : string) (generation limit : Z) : changeBatcher :=
  mkBatcher sessionID generation 0 limit [].

Section delivery.
Context {W : Type} (sink : option (ChangeBatch → M W ())).

(** [flush]: the batch is handed to the sink; on an error the pending events and
    the sequence are kept. *)
Definition flush (final : bool) : M (changeBatcher * W) () := λ '(b, w),
  match sink with
  | None => (inl (), (b, w))
  | Some apply =>
      let batch := mkBatch (bt_sessionID b) (bt_generation b) (bt_sequence b) final (bt_pending b) in
      match apply batch w with
      | (inl _, w') =>
          (inl (), (mkBatcher (bt_sessionID b) (bt_generation b) (u64 (bt_sequence b + 1))
                      (bt_limit b) [], w'))
      | (inr e, w') => (inr (Wrapf "fsrecon: deliver batch" e), (b, w'))
      end
  end.

Definition batcher_Add (event : Event) : M (changeBatcher * W) () :=
  match sink with
  | None => mret ()
  | Some _ =>
      b ← gets fst;
      (if decide (Z.of_nat (length (bt_pending b)) = bt_limit b) then flush false else mret ()) ;;
      modify (λ '(b, w), (mkBatcher (bt_sessionID b) (bt_generation b) (bt_sequence b)
                            (bt_limit b) (bt_pending b ++ [event]), w))
  end.

Definition Finish : M (changeBatcher * W) () :=
  b ← gets fst;
  match sink with
  | None => mret ()
  | Some _ => if decide (bt_pending b = []) then mret () else flush true
  end.

(** The delivery of one generation: [deliverPending] of reconcile.go, and the
    loops of [resumePendingIntegrity], [Scrub] and [reconcileBoltLocked]. *)
Definition deliver (sessionID : string) (generation limit : Z) (events : list Event) : M W () := λ w,
  let '(r, (_, w')) :=
    (forM events batcher_Add ;; Finish) (newChangeBatcher sessionID generation limit, w) in
  (r, w').

End delivery.

(** ** The batches of a generation *)

Section batches.
Context (sessionID : string) (generation limit : Z).

(** The batches sent from sequence [n] with [q] pending and [events] to come. *)
Fixpoint batches_from (n : Z) (q events : list Event) : list ChangeBatch :=
  match events with
  | [] => if decide (q = []) then [] else [mkBatch sessionID generation n true q]
  | e :: events' =>
      if decide (Z.of_nat (length q) = limit) then
        mkBatch sessionID generation n false q :: batches_from (u64 (n + 1)) [e] events'
      else batches_from n (q ++ [e]) events'
  end.

Definition batches (events : list Event) : list ChangeBatch := batches_from 0 [] events.

Context {W : Type} (apply : ChangeBatch → M W ()).

Definition send (b : ChangeBatch) : M W () := wrapping "fsrecon: deliver batch" (apply b).

Lemma batcher_Add_run e n q w :
  batcher_Add (Some apply) e (mkBatcher sessionID generation n limit q, w) =
  if decide (Z.of_nat (length q) = limit) then
    match apply (mkBatch sessionID generation n false q) w with
    | (inl _, w') => (inl (), (mkBatcher sessionID generation (u64 (n + 1)) limit [e], w'))
    | (inr err, w') => (inr (Wrapf "fsrecon: deliver batch" err),
                        (mkBatcher sessionID generation n limit q, w'))
    end
  else (inl (), (mkBatcher sessionID generation n limit (q ++ [e]), w)).
Proof.
  cbn [batcher_Add]. rewrite bind_run. cbn [gets fst bt_pending bt_limit].
  rewrite bind_run. case_decide; [|done]. cbn.
  by destruct (apply _ w) as [[[]|err] w'].
Qed.

Lemma deliver_from n q events w :
  (let '(r, (_, w')) :=
     (forM events (batcher_Add (Some apply)) ;; Finish (Some apply))
       (mkBatcher sessionID generation n limit q, w) in (r, w')) =
  forM (batches_from n q events) send w.
Proof.
  revert n q w. induction events as [|e events IH]; intros n q w.
  - cbn. unfold Finish, gets, mbind, M_bind. simpl. case_decide; [done|]. cbn.
    unfold send, wrapping. unfold mbind, M_bind. by destruct (apply _ w) as [[[]|?] ?].
  - cbn [forM batches_from]. rewrite bind_assoc.
    rewrite bind_run, batcher_Add_run. case_decide as Hl; [|apply IH].
    cbn [forM]. rewrite bind_run. unfold send at 1, wrapping.
    destruct (apply _ w) as [[[]|err] w']; [|done]. apply IH.
Qed.

Lemma deliver_batches events w :
  deliver (Some apply) sessionID generation limit events w = forM (batches events) send w.
Proof. apply deliver_from. Qed.

(** What the batches are, from sequence [n]. *)
Record batch_spec (n : Z) (events : list Event) (bs : list ChangeBatch) : Prop := {
  spec_events : concat (cb_Events <$> bs) = events;
  spec_identity : Forall (λ b, cb_SessionID b = sessionID ∧ cb_Generation b = generation) bs;
  spec_sequence : ∀ i b, bs !! i = Some b → cb_Sequence b = u64 (n + Z.of_nat i);
  spec_final : ∀ i b, bs !! i = Some b → cb_Final b = bool_decide (S i = length bs);
  spec_size : Forall (λ b, cb_Events b ≠ [] ∧ (Z.of_nat (length (cb_Events b)) ≤ limit)%Z) bs;
  spec_full : ∀ i b, bs !! i = Some b → S i < length bs → Z.of_nat (length (cb_Events b)) = limit
}.

Lemma batches_from_spec n q events :
  (0 < limit)%Z → (Z.of_nat (length q) ≤ limit)%Z → n = u64 n →
  batch_spec n (q ++ events) (batches_from n q events).
Proof.
  intros Hl. revert n q. induction events as [|e events IH]; intros n q Hq Hn; cbn [batches_from].
  - rewrite app_nil_r. case_decide as H; [subst; by split|].
    assert (0 < length q) by (destruct q; [done|simpl; lia]). split; simpl.
    + by rewrite app_nil_r.
    + by repeat constructor.
    + intros [|i] b; simpl; [|by rewrite lookup_nil]. intros [= <-]. simpl. by rewrite Z.add_0_r.
    + intros [|i] b; simpl; [|by rewrite lookup_nil]. by intros [= <-].
    + constructor; [done|constructor].
    + intros i b _ Hi. lia.
  - case_decide as H.
    + destruct (IH (u64 (n + 1)) [e]) as [H1 H2 H3 H4 H5 H6];
        [simpl; lia|unfold u64; by rewrite Z.mod_mod|].
      assert (batches_from (u64 (n + 1)) [e] events ≠ []) as Hne
        by (intros E; by rewrite E in H1).
      assert (0 < length (batches_from (u64 (n + 1)) [e] events))
        by (destruct (batches_from (u64 (n + 1)) [e] events); [done|simpl; lia]).
      split.
      * rewrite fmap_cons. cbn [concat cb_Events]. by rewrite H1.
      * by constructor.
      * intros [|i] b; simpl; [intros [= <-]; simpl; by rewrite Z.add_0_r|].
        intros Hb%H3. rewrite Hb, u64_add_idemp. f_equal. lia.
      * intros [|i] b; simpl.
        { intros [= <-]. simpl. rewrite bool_decide_false; [done|]. lia. }
        intros Hb%H4. rewrite Hb. apply bool_decide_ext. lia.
      * constructor; [|done]. simpl. split; [|done]. intros ->. simpl in *. lia.
      * intros [|i] b; simpl; [by intros [= <-]|]. intros Hb Hi. apply (H6 i b Hb). lia.
    + replace (q ++ e :: events) with ((q ++ [e]) ++ events) by by rewrite <-app_assoc.
      apply IH; [rewrite length_app; simpl; lia|done].
Qed.

End batches.

(** ** Properties *)

(** C21: delivery.  For a positive batch size, delivering a generation hands the
    sink one fixed list of batches in order and stops at the first error: their
    events concatenate to the generation's events, all carry its session and
    generation, sequences count up from zero, exactly the last batch is [Final],
    none is empty or larger than the limit and all but the last are full.  The
    list depends on the events only, so a retry sends the same batches. *)
Theorem deliver_correct (sessionID : string) (generation limit : Z) (events : list Event) :
  (0 < limit)%Z →
  ∃ bs, batch_spec sessionID generation limit 0 events bs ∧
    ∀ (W : Type) (apply : ChangeBatch → M W ()) (w : W),
      deliver (Some apply) sessionID generation limit events w =
      forM bs (λ b, wrapping "fsrecon: deliver batch" (apply b)) w.
Proof.
  intros Hl. exists (batches sessionID generation limit events). split.
  - apply (batches_from_spec _ _ _ 0 [] events); [done|simpl; lia|done].
  - intros. apply deliver_batches.
Qed.

Definition demo_events (n : nat) : list Event :=
  (λ i, demo_event EventCreated (String.append "/f" (String (Ascii.ascii_of_nat (97 + i)) "")))
  <$> seq 0 n.

Lemma deliver_correct_witness :
  cb_Sequence <$> batches "s" 1 2 (demo_events 5) = [0; 1; 2]%Z ∧
  ∃ bs, batch_spec "s" 1 2 0 (demo_events 5) bs ∧
    ∀ (W : Type) (apply : ChangeBatch → M W ()) (w : W),
      deliver (Some apply) "s" 1 2 (demo_events 5) w =
      forM bs (λ b, wrapping "fsrecon: deliver batch" (apply b)) w.
Proof. split; [vm_compute; reflexivity|]. apply (deliver_correct "s" 1 2 (demo_events 5)). lia. Defined.
