(* ===== verification/Store.v ===== *)
(** * The snapshot-store contract: the interfaces of store.go

    [SnapshotStore] is what a store offers to the tracker, as a typeclass over
    the store's own state.  [ctx] is [ctx.Err()] as an action: it fails with the context's error
    when the context is done.  A mutation updates the store whether it fails or not.
    [SnapshotStoreLaws] states what the tracker relies on, against the finite map
    [store_view] the store stands for. *)

From S2P Require Import Prelude Frame GoPath Types.

Abbreviation view := (gmap string FileState).

(** The batch operations on the abstract map: deletes first, then puts. *)
Definition view_puts (m : view) (puts : list FileState) : view :=
  foldl (λ m state, <[fs_Path state := state]> m) m puts.
Definition view_deletes (m : view) (deletes : list string) : view :=
  foldl (λ m path, delete path m) m deletes.
Definition view_apply (m : view) (puts : list FileState) (deletes : list string) : view :=
  view_puts (view_deletes m deletes) puts.

(** The entries a walk of [scope] visits: those at or below [scope], in path order. *)
Definition scope_view (m : view) (scope : string) : view :=
  filter (λ pv, within scope pv.1 = true) m.
Definition scope_entries (m : view) (scope : string) : list FileState :=
  (λ p, m !!! p) <$> sortedKeys (scope_view m scope).

(** A snapshot keyed by clean absolute paths. *)
Definition view_ok (m : view) : Prop :=
  ∀ p st, m !! p = Some st → clean_abs p ∧ fs_Path st = p.

(** [St] is the store's own state; the operations run in the world [W] of the
    caller, which its context and callbacks read and change. *)
Class SnapshotStore (St : Type) : Type := {
  store_Get {W} : St → M W () → string → M W (option FileState);
  store_Put {W} : M W () → FileState → M (St * W) ();
  store_Delete {W} : M W () → string → M (St * W) ();
  store_Walk {W} : St → M W () → string → (FileState → M W ()) → M W ();
  (** Whether the store implements [BatchSnapshotStore]; [store_Apply] is its
      method. *)
  store_batch : St → bool;
  store_Apply {W} : M W () → list FileState → list string → M (St * W) ()
}.

(** A mutation that replaces the store when it succeeds. *)
Definition mutating {St W} (op : St → M W St) : M (St * W) () := λ '(s, w),
  match op s w with
  | (inl s', w') => (inl (), (s', w'))
  | (inr e, w') => (inr e, (s, w'))
  end.

(** [ctx] never reports cancellation. *)
Definition ctx_live {W} (ctx : M W ()) : Prop := ∀ w, ctx w = (inl (), w).

(** [ctx] and [fn] as seen through a projection [π] of the world: [ctx] leaves it
    alone and [fn] changes it by [g]. *)
Definition ctx_frames {W X} (π : W → X) (ctx : M W ()) : Prop := ∀ w, π (ctx w).2 = π w.
Definition fn_updates {W X A} (π : W → X) (g : X → A → X) (fn : A → M W ()) : Prop :=
  ∀ a w w', fn a w = (inl (), w') → π w' = g (π w) a.

Class SnapshotStoreLaws (St : Type) `{SnapshotStore St} : Type := {
  store_view : St → view;
  store_ok : St → Prop;
  (** The states the store can represent. *)
  state_ok : FileState → Prop;
  (** The scopes a walk of the store visits completely. *)
  scope_ok : St → string → Prop;
  store_view_ok s : store_ok s → view_ok (store_view s);
  store_Get_law {W} s (ctx : M W ()) p r w w' : store_ok s → clean_abs p →
    store_Get s ctx p w = (inl r, w') → r = store_view s !! p;
  store_Put_law {W} s s' (ctx : M W ()) st w w' :
    store_ok s → clean_abs (fs_Path st) → state_ok st →
    store_Put ctx st (s, w) = (inl (), (s', w')) →
    store_ok s' ∧ store_view s' = <[fs_Path st := st]> (store_view s);
  store_Delete_law {W} s s' (ctx : M W ()) p w w' : store_ok s → clean_abs p →
    store_Delete ctx p (s, w) = (inl (), (s', w')) →
    store_ok s' ∧ store_view s' = delete p (store_view s);
  store_Apply_law {W} s s' (ctx : M W ()) puts deletes w w' : store_ok s → store_batch s = true →
    Forall (λ st, clean_abs (fs_Path st) ∧ state_ok st) puts → Forall clean_abs deletes →
    store_Apply ctx puts deletes (s, w) = (inl (), (s', w')) →
    store_ok s' ∧ store_view s' = view_apply (store_view s) puts deletes;
  (** A batch store applies all of a batch or nothing. *)
  store_Apply_atomic {W} s s' (ctx : M W ()) puts deletes e w w' : store_batch s = true →
    store_Apply ctx puts deletes (s, w) = (inr e, (s', w')) → s' = s;
  (** A walk touches the caller's world through its context and callback only. *)
  store_Walk_frame {W} (I : W → Prop) s (ctx : M W ()) scope fn :
    preserves I ctx → (∀ st, preserves I (fn st)) → preserves I (store_Walk s ctx scope fn);
  (** A walk that returns nil has called back on every entry of the scope. *)
  store_Walk_law {W X} (π : W → X) (g : X → FileState → X) s (ctx : M W ()) scope fn w w' :
    store_ok s → clean_abs scope → scope_ok s scope →
    ctx_frames π ctx → fn_updates π g fn →
    store_Walk s ctx scope fn w = (inl (), w') →
    π w' = foldl g (π w) (scope_entries (store_view s) scope);
  (** Without cancellation a walk is the loop over those entries. *)
  store_Walk_live {W} s (ctx : M W ()) scope fn w :
    store_ok s → clean_abs scope → scope_ok s scope → ctx_live ctx →
    store_Walk s ctx scope fn w = forM (scope_entries (store_view s) scope) fn w
}.

(** ** Lemmas *)

Lemma mutating_inl {St W} (op : St → M W St) s w s' w' :
  mutating op (s, w) = (inl (), (s', w')) → op s w = (inl s', w').
Proof. unfold mutating. destruct (op s w) as [[x|e] w1]; [|done]. intros Heq. by injection Heq as <- <-. Qed.

Lemma mutating_inr {St W} (op : St → M W St) s w e s' w' : mutating op (s, w) = (inr e, (s', w')) → s' = s.
Proof. unfold mutating. destruct (op s w) as [[x|e'] w1]; [done|]. intros Heq. by injection Heq as <- <-. Qed.

Lemma view_deletes_lookup m deletes p :
  view_deletes m deletes !! p = if decide (p ∈ deletes) then None else m !! p.
Proof.
  unfold view_deletes. revert m. induction deletes as [|d ds IH]; intros m; cbn [foldl].
  { rewrite decide_False; [done|set_solver]. }
  rewrite IH. destruct (decide (p ∈ ds)); [rewrite decide_True by set_solver; done|].
  destruct (decide (p = d)) as [->|]; [rewrite lookup_delete_eq, decide_True by set_solver; done|].
  rewrite lookup_delete_ne, decide_False by set_solver. done.
Qed.

Lemma view_puts_lookup_ne m puts p :
  p ∉ fs_Path <$> puts → view_puts m puts !! p = m !! p.
Proof.
  unfold view_puts. revert m. induction puts as [|st puts IH]; intros m Hp; [done|].
  cbn [foldl]. rewrite IH by set_solver. apply lookup_insert_ne. set_solver.
Qed.

Lemma view_puts_lookup m puts st :
  NoDup (fs_Path <$> puts) → st ∈ puts → view_puts m puts !! fs_Path st = Some st.
Proof.
  unfold view_puts. revert m. induction puts as [|st' puts IH]; intros m Hnd Hin; [set_solver|].
  cbn [fmap list_fmap] in Hnd. apply NoDup_cons in Hnd as [Hn Hnd]. cbn [foldl].
  apply elem_of_cons in Hin as [->|Hin]; [|by apply IH].
  fold (view_puts (<[fs_Path st' := st']> m) puts). rewrite view_puts_lookup_ne by done.
  apply lookup_insert_eq.
Qed.

Lemma view_apply_ok m puts deletes :
  view_ok m → Forall (λ st, clean_abs (fs_Path st)) puts → view_ok (view_apply m puts deletes).
Proof.
  intros Hm Hp. unfold view_apply.
  assert (view_ok (view_deletes m deletes)) as Hd.
  { intros p st. rewrite view_deletes_lookup. case_decide; [done|]. apply Hm. }
  revert Hd. generalize (view_deletes m deletes). unfold view_puts.
  induction Hp as [|st puts Hst Hp IH]; intros m' Hd; [done|]. cbn [foldl]. apply IH.
  intros p s [[<- <-]|[_ H]]%lookup_insert_Some; [done|by apply Hd].
Qed.

(** ** Loops that check the context *)

Lemma forM_ctx_frames {W X A} (π : W → X) (g : X → A → X) (ctx : M W ()) (fn : A → M W ()) l w w' :
  ctx_frames π ctx → fn_updates π g fn →
  forM l (λ a, ctx ;; fn a) w = (inl (), w') → π w' = foldl g (π w) l.
Proof.
  intros Hc Hf. revert w. induction l as [|a l IH]; intros w; cbn [forM foldl]; [by intros [= ->]|].
  rewrite bind_run, bind_run. destruct (ctx w) as [[[]|e] w1] eqn:E; [|done].
  destruct (fn a w1) as [[[]|e] w2] eqn:E2; [|done]. intros H. rewrite (IH _ H).
  rewrite (Hf _ _ _ E2). specialize (Hc w). rewrite E in Hc. cbn in Hc. by rewrite Hc.
Qed.

Lemma forM_ctx_live {W A} (ctx : M W ()) (fn : A → M W ()) l w :
  ctx_live ctx → forM l (λ a, ctx ;; fn a) w = forM l fn w.
Proof.
  intros Hc. revert w. induction l as [|a l IH]; intros w; cbn [forM]; [done|].
  rewrite !bind_run, Hc. destruct (fn a w) as [[[]|e] w2]; [apply IH|done].
Qed.

Lemma forM_frames {W X A} (π : W → X) (g : X → A → X) (fn : A → M W ()) l w w' :
  fn_updates π g fn → forM l fn w = (inl (), w') → π w' = foldl g (π w) l.
Proof.
  intros Hf H. apply (forM_ctx_frames π g (mret ()) fn); [by intros ?|done|].
  by rewrite (forM_ctx_live (mret ())) by by intros ?.
Qed.
