(* ===== verification/MemoryStore.v ===== *)
(** * The in-memory store: [MemoryStore] of store.go

    A map of entries and a trie of path components that indexes them for scoped
    walks.  The lock sections are atomic operations on the pair; the theorems say
    that the trie always indexes exactly the entries and keeps no dead branch. *)

From S2P Require Import Prelude Frame GoPath Types Store.

#[local] Set Warnings "-register-all".

(** ** Definitions *)

Inductive memoryPathNode : Type :=
  | MNode (terminal : bool) (path : string) (children : gmap string memoryPathNode).

Definition mn_terminal (n : memoryPathNode) : bool := let 'MNode t _ _ := n in t.
Definition mn_path (n : memoryPathNode) : string := let 'MNode _ p _ := n in p.
Definition mn_children (n : memoryPathNode) : gmap string memoryPathNode := let 'MNode _ _ c := n in c.

(** [memoryPathNode{}]. *)
Definition zero_node : memoryPathNode := MNode false "" ∅.

Record MemoryStore : Type := mkMemoryStore {
  ms_entries : view;
  ms_paths : memoryPathNode
}.

Definition NewMemoryStore : MemoryStore := mkMemoryStore ∅ zero_node.

(** [pathParts]; the volume name is empty. *)
Definition pathParts (path : string) : list string :=
  let path := Clean path in
  let anchor := if IsAbs path then "/" else "." in
  anchor :: filter (λ part, part ≠ "" ∧ part ≠ ".") (Split path).

Fixpoint insert_path (n : memoryPathNode) (parts : list string) (path : string) : memoryPathNode :=
  match parts with
  | [] => MNode true path (mn_children n)
  | part :: parts' =>
      let child := default zero_node (mn_children n !! part) in
      MNode (mn_terminal n) (mn_path n) (<[part := insert_path child parts' path]> (mn_children n))
  end.

Fixpoint find_path (n : memoryPathNode) (parts : list string) : option memoryPathNode :=
  match parts with
  | [] => Some n
  | part :: parts' =>
      match mn_children n !! part with
      | None => None
      | Some child => find_path child parts'
      end
  end.

(** [removeMemoryPath]: the returned flag tells the parent to drop the node. *)
Fixpoint removeMemoryPath (n : memoryPathNode) (parts : list string) : bool * memoryPathNode :=
  match parts with
  | [] => (bool_decide (size (mn_children n) = 0), MNode false "" (mn_children n))
  | part :: parts' =>
      match mn_children n !! part with
      | None => (false, n)
      | Some child =>
          let '(drop, child') := removeMemoryPath child parts' in
          let children' := if drop then delete part (mn_children n)
                           else <[part := child']> (mn_children n) in
          (negb (mn_terminal n) && bool_decide (size children' = 0),
           MNode (mn_terminal n) (mn_path n) children')
      end
  end.

Definition remove_path (n : memoryPathNode) (parts : list string) : memoryPathNode :=
  (removeMemoryPath n parts).2.

Fixpoint collect_paths (n : memoryPathNode) : list string :=
  match n with
  | MNode terminal path ch =>
      (if terminal then [path] else []) ++
      map_fold (λ _ child acc, acc ++ collect_paths child) [] ch
  end.

(** The bodies of the lock sections of [Put], [Delete] and [Apply]. *)
Definition put_entry (s : MemoryStore) (state : FileState) : MemoryStore :=
  let paths := match ms_entries s !! fs_Path state with
               | None => insert_path (ms_paths s) (pathParts (fs_Path state)) (fs_Path state)
               | Some _ => ms_paths s
               end in
  mkMemoryStore (<[fs_Path state := state]> (ms_entries s)) paths.

Definition delete_entry (s : MemoryStore) (path : string) : MemoryStore :=
  mkMemoryStore (delete path (ms_entries s)) (remove_path (ms_paths s) (pathParts path)).

Section operations.
Context {W : Type}.

Definition mem_Get (s : MemoryStore) (ctx : M W ()) (path : string) : M W (option FileState) :=
  ctx ;; mret (ms_entries s !! path).

Definition mem_Put (s : MemoryStore) (ctx : M W ()) (state : FileState) : M W MemoryStore :=
  ctx ;; mret (put_entry s state).

Definition mem_Delete (s : MemoryStore) (ctx : M W ()) (path : string) : M W MemoryStore :=
  ctx ;; mret (delete_entry s path).

Definition mem_Apply (s : MemoryStore) (ctx : M W ()) (puts : list FileState)
    (deletes : list string) : M W MemoryStore :=
  ctx ;; mret (foldl put_entry (foldl delete_entry s deletes) puts).

(** The entries are read under the lock; the callback runs outside it. *)
Definition mem_WalkScope (s : MemoryStore) (ctx : M W ()) (scope : string)
    (fn : FileState → M W ()) : M W () :=
  ctx ;;
  match find_path (ms_paths s) (pathParts scope) with
  | None => mret ()
  | Some node =>
      let paths := sort_strings (collect_paths node) in
      let states := (λ path, ms_entries s !!! path) <$> paths in
      forM states (λ state, ctx ;; fn state)
  end.

Definition mem_Walk := mem_WalkScope.

End operations.

#[global] Instance MemoryStore_store : SnapshotStore MemoryStore := {
  store_Get := @mem_Get;
  store_Put _ ctx state := mutating (λ s, mem_Put s ctx state);
  store_Delete _ ctx path := mutating (λ s, mem_Delete s ctx path);
  store_Walk := @mem_WalkScope;
  store_batch _ := true;
  store_Apply _ ctx puts deletes := mutating (λ s, mem_Apply s ctx puts deletes)
}.

(** A sequence of store operations, as a client issues them. *)
Inductive mem_op : Type :=
  | OpPut (state : FileState)
  | OpDelete (path : string)
  | OpApply (puts : list FileState) (deletes : list string).

Definition run_op (s : MemoryStore) (op : mem_op) : MemoryStore :=
  match op with
  | OpPut state => put_entry s state
  | OpDelete path => delete_entry s path
  | OpApply puts deletes => foldl put_entry (foldl delete_entry s deletes) puts
  end.

(** What the operation does to the map the store stands for. *)
Definition view_op (m : view) (op : mem_op) : view :=
  match op with
  | OpPut state => <[fs_Path state := state]> m
  | OpDelete path => delete path m
  | OpApply puts deletes => view_apply m puts deletes
  end.

Definition op_ok (op : mem_op) : Prop :=
  match op with
  | OpPut state => clean_abs (fs_Path state)
  | OpDelete path => clean_abs path
  | OpApply puts deletes => Forall (λ st, clean_abs (fs_Path st)) puts ∧ Forall clean_abs deletes
  end.

(** ** The trie as a partial map from component lists to paths *)

Fixpoint stored_at (n : memoryPathNode) (ps : list string) : option string :=
  match ps with
  | [] => if mn_terminal n then Some (mn_path n) else None
  | p :: ps' => match mn_children n !! p with Some c => stored_at c ps' | None => None end
  end.

Fixpoint mnode_size (n : memoryPathNode) : nat :=
  match n with
  | MNode _ _ ch => S (map_fold (λ _ child acc, mnode_size child + acc) 0 ch)
  end.

Lemma mnode_ind' (P : memoryPathNode → Prop) :
  (∀ t path ch, (∀ name child, ch !! name = Some child → P child) → P (MNode t path ch)) →
  ∀ n, P n.
Proof.
  intros H n. remember (mnode_size n) as k eqn:Hk. revert n Hk.
  induction (lt_wf k) as [k _ IH]. intros [t path ch] ->. apply H. intros name child Hc.
  eapply (IH (mnode_size child)); [|done]. simpl. rewrite (sum_fold_delete _ _ _ _ Hc). lia.
Qed.

Lemma stored_at_zero ps : stored_at zero_node ps = None.
Proof. destruct ps; simpl; [done|]. by rewrite lookup_empty. Qed.

Lemma stored_at_cons n p ps :
  stored_at n (p :: ps) = stored_at (default zero_node (mn_children n !! p)) ps.
Proof. simpl. destruct (mn_children n !! p); [done|]. simpl. by rewrite stored_at_zero. Qed.

Lemma stored_at_insert n parts path qs :
  stored_at (insert_path n parts path) qs =
  if decide (qs = parts) then Some path else stored_at n qs.
Proof.
  revert n qs. induction parts as [|p parts IH]; intros n qs.
  { destruct qs as [|q qs]; [done|]. rewrite decide_False by done. done. }
  destruct qs as [|q qs]; [rewrite decide_False by done; done|].
  rewrite !stored_at_cons. cbn [insert_path mn_children].
  destruct (decide (q = p)) as [->|Hne].
  - rewrite lookup_insert_eq. simpl default. rewrite IH.
    destruct (decide (qs = parts)); [subst; by rewrite decide_True|].
    rewrite decide_False; [done|congruence].
  - rewrite lookup_insert_ne by done. rewrite decide_False; [done|congruence].
Qed.

(** A node the parent drops holds nothing. *)
Lemma removeMemoryPath_drop n parts :
  (removeMemoryPath n parts).1 = true →
  mn_terminal (removeMemoryPath n parts).2 = false ∧ mn_children (removeMemoryPath n parts).2 = ∅.
Proof.
  destruct parts as [|p parts]; simpl.
  - rewrite bool_decide_eq_true. intros H. by rewrite map_size_empty_iff in H.
  - destruct (mn_children n !! p) as [c|]; [|done].
    destruct (removeMemoryPath c parts) as [drop c']. simpl.
    rewrite andb_true_iff, negb_true_iff, bool_decide_eq_true, map_size_empty_iff. done.
Qed.

Lemma stored_at_dead n ps :
  mn_terminal n = false → mn_children n = ∅ → stored_at n ps = None.
Proof. intros Ht Hc. destruct ps; simpl; [by rewrite Ht|]. by rewrite Hc, lookup_empty. Qed.

Lemma stored_at_remove n parts qs :
  stored_at (remove_path n parts) qs = if decide (qs = parts) then None else stored_at n qs.
Proof.
  revert n qs. unfold remove_path. induction parts as [|p parts IH]; intros n qs.
  { destruct qs as [|q qs]; [done|]. by rewrite decide_False. }
  simpl. destruct (mn_children n !! p) as [c|] eqn:Ec.
  2: { case_decide; [subst|done]. simpl. by rewrite Ec. }
  specialize (IH c). pose proof (removeMemoryPath_drop c parts) as Hd.
  destruct (removeMemoryPath c parts) as [drop c']. cbn [fst snd] in *.
  destruct qs as [|q qs]; [done|].
  rewrite !stored_at_cons. cbn [mn_children]. destruct (decide (q = p)) as [->|Hne].
  - rewrite Ec. simpl default.
    replace (stored_at (default zero_node ((if drop then delete p (mn_children n)
      else <[p:=c']> (mn_children n)) !! p)) qs) with (stored_at c' qs).
    + rewrite IH. destruct (decide (qs = parts)); [subst; by rewrite decide_True|].
      rewrite decide_False; [done|congruence].
    + destruct drop.
      * rewrite lookup_delete_eq. simpl default. rewrite stored_at_zero.
        destruct (Hd eq_refl). by apply stored_at_dead.
      * by rewrite lookup_insert_eq.
  - rewrite (decide_False (P := q :: qs = p :: parts)) by congruence. f_equal. f_equal.
    destruct drop; [by rewrite lookup_delete_ne|by rewrite lookup_insert_ne].
Qed.

Lemma stored_at_find n ps qs :
  stored_at n (ps ++ qs) = match find_path n ps with Some n' => stored_at n' qs | None => None end.
Proof.
  revert n. induction ps as [|p ps IH]; intros n; simpl; [done|].
  destruct (mn_children n !! p); [apply IH|done].
Qed.

Lemma elem_of_collect_paths n p :
  p ∈ collect_paths n ↔ ∃ qs, stored_at n qs = Some p.
Proof.
  revert p. induction n as [t path ch IH] using mnode_ind'. intros p. simpl collect_paths.
  rewrite elem_of_app, elem_of_fold_app. split.
  - intros [H|(name & child & Hc & H)].
    + exists []. simpl. destruct t; [|set_solver]. by apply list_elem_of_singleton in H as ->.
    + apply (IH _ _ Hc) in H as [qs H]. exists (name :: qs). simpl. by rewrite Hc.
  - intros [[|q qs] H]; simpl in H; [destruct t; [|done]; set_solver|].
    destruct (ch !! q) as [c|] eqn:Hc; [|done]. right. exists q, c. split; [done|].
    apply (IH _ _ Hc). eauto.
Qed.

(** No path is stored at two places. *)
Definition unique_paths (n : memoryPathNode) : Prop :=
  ∀ ps qs p, stored_at n ps = Some p → stored_at n qs = Some p → ps = qs.

Lemma NoDup_collect_paths n : unique_paths n → NoDup (collect_paths n).
Proof.
  induction n as [t path ch IH] using mnode_ind'. intros Hu. simpl. apply NoDup_app. split_and!.
  - destruct t; repeat constructor; set_solver.
  - intros p Hp (name & child & Hc & [qs H]%elem_of_collect_paths)%elem_of_fold_app.
    destruct t; [|set_solver]. apply list_elem_of_singleton in Hp as ->.
    assert ([] = name :: qs); [|done]. apply (Hu _ _ path); simpl; [done|by rewrite Hc].
  - apply NoDup_fold_app.
    + intros name child Hc. apply (IH _ _ Hc). intros ps qs p H1 H2.
      assert (name :: ps = name :: qs); [|congruence]. apply (Hu _ _ p); simpl; by rewrite Hc.
    + intros k1 v1 k2 v2 p Hk1 Hk2 [qs1 H1]%elem_of_collect_paths [qs2 H2]%elem_of_collect_paths.
      assert (k1 :: qs1 = k2 :: qs2); [|congruence].
      apply (Hu _ _ p); simpl; by rewrite ?Hk1, ?Hk2.
Qed.

(** *** No dead branch *)

Definition alive (n : memoryPathNode) : Prop := mn_terminal n = true ∨ mn_children n ≠ ∅.

(** Every node below the root is needed: it stores a path or has children; a
    node that stores no path holds the empty string. *)
Inductive pruned : memoryPathNode → Prop :=
  | pruned_node t path ch :
      (t = false → path = "") →
      (∀ name child, ch !! name = Some child → alive child ∧ pruned child) → pruned (MNode t path ch).

Lemma pruned_inv t path ch :
  pruned (MNode t path ch) →
  (t = false → path = "") ∧ ∀ name child, ch !! name = Some child → alive child ∧ pruned child.
Proof. by inversion 1. Qed.

Lemma pruned_zero : pruned zero_node.
Proof. constructor; [done|]. intros ??. by rewrite lookup_empty. Qed.

Lemma pruned_insert n parts path :
  pruned n → pruned (insert_path n parts path) ∧ alive (insert_path n parts path).
Proof.
  revert n. induction parts as [|p parts IH]; intros [t q ch] Hn; simpl.
  - split; [|by left]. constructor; [done|]. by eapply pruned_inv.
  - pose proof (pruned_inv _ _ _ Hn) as [Ht Hc].
    assert (pruned (default zero_node (ch !! p))) as Hd.
    { destruct (ch !! p) as [c|] eqn:E; [by eapply Hc|apply pruned_zero]. }
    apply IH in Hd as [Hp Ha]. split; [|right; apply insert_non_empty].
    constructor; [done|]. intros name child [[<- <-]|[_ H]]%lookup_insert_Some; [done|by eapply Hc].
Qed.

Lemma pruned_remove n parts :
  pruned n →
  pruned (removeMemoryPath n parts).2 ∧
  (alive n → (removeMemoryPath n parts).1 = false → alive (removeMemoryPath n parts).2).
Proof.
  revert n. induction parts as [|p parts IH]; intros [t q ch] Hn; simpl.
  - split; [constructor; [done|by eapply pruned_inv]|]. intros _ H%bool_decide_eq_false.
    right. simpl. by rewrite map_size_empty_iff in H.
  - pose proof (pruned_inv _ _ _ Hn) as [Ht Hc]. destruct (ch !! p) as [c|] eqn:E; [|done].
    destruct (Hc _ _ E) as [Ha Hp]. specialize (IH c Hp) as [IH1 IH2].
    destruct (removeMemoryPath c parts) as [drop c']; simpl in *. split.
    + constructor; [done|]. intros name child. destruct drop.
      * intros [_ H]%lookup_delete_Some. by eapply Hc.
      * intros [[<- <-]|[_ H]]%lookup_insert_Some; [by split; [apply IH2|]|by eapply Hc].
    + intros _ H. unfold alive; simpl. destruct t; [by left|right]. simpl in H.
      rewrite bool_decide_eq_false in H. by rewrite map_size_empty_iff in H.
Qed.

(** A pruned trie that stores nothing below its root has no nodes below it. *)
Lemma pruned_alive n : pruned n → alive n → ∃ ps, is_Some (stored_at n ps).
Proof.
  induction n as [t path ch IH] using mnode_ind'. intros Hc [Ht|Hne]; simpl in *.
  - exists []. simpl. rewrite Ht. eauto.
  - apply map_choose in Hne as (name & child & E).
    destruct (pruned_inv _ _ _ Hc) as [_ Hch]. destruct (Hch _ _ E) as [Ha Hp].
    destruct (IH _ _ E Hp Ha) as [ps H]. exists (name :: ps). simpl. by rewrite E.
Qed.

(** A pruned trie is determined by what it stores. *)
Lemma pruned_ext n m :
  pruned n → pruned m → (∀ ps, stored_at n ps = stored_at m ps) → n = m.
Proof.
  assert (∀ ch ch' name child, (∀ name child, ch !! name = Some child → alive child ∧ pruned child) →
    ch !! name = Some child → ch' !! name = None →
    ¬ ∀ ps, stored_at (MNode false "" ch) (name :: ps) = stored_at (MNode false "" ch') (name :: ps))
    as Hmiss.
  { intros ch ch' name child Hch E E' H. destruct (Hch _ _ E) as [Ha Hp].
    destruct (pruned_alive _ Hp Ha) as [ps [q Hq]]. specialize (H ps). simpl in H.
    rewrite E, E' in H. congruence. }
  revert m. induction n as [t path ch IH] using mnode_ind'. intros [t' path' ch'].
  intros [Hp Hch]%pruned_inv [Hp' Hch']%pruned_inv Hext.
  assert (t = t' ∧ path = path') as [<- <-].
  { specialize (Hext []). simpl in Hext. destruct t, t'; simplify_eq; [done|]. by rewrite Hp, Hp'. }
  f_equal. apply map_eq. intros name.
  destruct (ch !! name) as [c|] eqn:E, (ch' !! name) as [c'|] eqn:E'; [|exfalso..|done].
  - f_equal. eapply IH; [done|by eapply Hch|by eapply Hch'|]. intros ps.
    specialize (Hext (name :: ps)). simpl in Hext. by rewrite E, E' in Hext.
  - eapply (Hmiss ch ch'); [done..|]. intros ps. apply (Hext (name :: ps)).
  - eapply (Hmiss ch' ch); [done..|]. intros ps. symmetry. apply (Hext (name :: ps)).
Qed.

(** ** The invariant *)

Record mem_ok (s : MemoryStore) : Prop := {
  mem_entries_ok : view_ok (ms_entries s);
  mem_index ps p : stored_at (ms_paths s) ps = Some p ↔
    ps = pathParts p ∧ is_Some (ms_entries s !! p);
  mem_pruned : pruned (ms_paths s)
}.

Lemma pathParts_abs cs : Forall good cs → pathParts (abs cs) = "/" :: cs.
Proof.
  intros Hg. unfold pathParts. rewrite Clean_abs by done. simpl. f_equal.
  rewrite filter_cons_False by naive_solver. destruct cs as [|c cs]; [done|].
  rewrite Split_join_sep by (done || by apply good_all_no_sep).
  apply filter_all. eapply Forall_impl; [exact Hg|]. by intros ? (?&?&?).
Qed.

Lemma pathParts_clean p : clean_abs p → pathParts p = "/" :: comps p.
Proof. intros (cs & -> & Hg & ->)%clean_abs_elim. by apply pathParts_abs. Qed.

Lemma pathParts_inj p q : clean_abs p → clean_abs q → pathParts p = pathParts q → p = q.
Proof.
  intros Hp Hq. rewrite !pathParts_clean by done. intros [=]. by apply comps_inj.
Qed.

Lemma mem_ok_new : mem_ok NewMemoryStore.
Proof.
  split; simpl.
  - intros p st. by rewrite lookup_empty.
  - intros ps p. rewrite stored_at_zero, lookup_empty. split; [done|]. by intros [_ [? ?]].
  - apply pruned_zero.
Qed.

Lemma put_entry_ok s state :
  mem_ok s → clean_abs (fs_Path state) →
  mem_ok (put_entry s state) ∧ ms_entries (put_entry s state) = <[fs_Path state := state]> (ms_entries s).
Proof.
  intros Hs Hc. split; [|done]. destruct Hs as [He Hi Hp]. unfold put_entry. split; cbn [ms_entries ms_paths].
  - intros p st [[<- <-]|[_ H]]%lookup_insert_Some; [done|by apply He].
  - intros ps p. destruct (ms_entries s !! fs_Path state) as [old|] eqn:E.
    + rewrite Hi, lookup_insert. case_decide as Hd; [subst|done].
      rewrite E. split; intros [? _]; eauto.
    + rewrite stored_at_insert, lookup_insert. case_decide as Hps.
      * subst ps. split; [intros [= <-]; rewrite decide_True by done; eauto|].
        case_decide as Hd; [by subst|]. intros [Heq [st Hst]].
        destruct (He _ _ Hst) as [Hcl _]. destruct Hd. by apply pathParts_inj in Heq.
      * rewrite Hi. case_decide as Hd; [subst|done]. rewrite E. split; [by intros [_ []]|].
        by intros [? _].
  - destruct (ms_entries s !! fs_Path state); [done|]. by apply pruned_insert.
Qed.

Lemma delete_entry_ok s path :
  mem_ok s → clean_abs path →
  mem_ok (delete_entry s path) ∧ ms_entries (delete_entry s path) = delete path (ms_entries s).
Proof.
  intros [He Hi Hp] Hc. split; [|done]. unfold delete_entry. split; cbn [ms_entries ms_paths].
  - intros p st [_ H]%lookup_delete_Some. by apply He.
  - intros ps p. rewrite stored_at_remove, lookup_delete. case_decide as Hps.
    + subst ps. split; [done|]. intros [Heq Hs]. case_decide as Hd; [by destruct Hs|].
      destruct Hs as [st Hst]. destruct (He _ _ Hst) as [Hcl _].
      destruct Hd. by apply pathParts_inj in Heq.
    + rewrite Hi. case_decide as Hd; [subst|done]. split; [by intros [? _]|by intros [_ []]].
  - by apply pruned_remove.
Qed.

Lemma foldl_put_ok s puts :
  mem_ok s → Forall (λ st, clean_abs (fs_Path st)) puts →
  mem_ok (foldl put_entry s puts) ∧ ms_entries (foldl put_entry s puts) = view_puts (ms_entries s) puts.
Proof.
  intros Hs Hp. revert s Hs. induction Hp as [|st puts Hst Hp IH]; intros s Hs; [done|].
  destruct (put_entry_ok s st Hs Hst) as [H1 H2]. cbn [foldl]. destruct (IH _ H1) as [H3 ->].
  split; [done|]. by rewrite H2.
Qed.

Lemma foldl_delete_ok s deletes :
  mem_ok s → Forall clean_abs deletes →
  mem_ok (foldl delete_entry s deletes) ∧
  ms_entries (foldl delete_entry s deletes) = view_deletes (ms_entries s) deletes.
Proof.
  intros Hs Hp. revert s Hs. induction Hp as [|p deletes Hst Hp IH]; intros s Hs; [done|].
  destruct (delete_entry_ok s p Hs Hst) as [H1 H2]. cbn [foldl]. destruct (IH _ H1) as [H3 ->].
  split; [done|]. by rewrite H2.
Qed.

Lemma run_op_ok s op :
  mem_ok s → op_ok op → mem_ok (run_op s op) ∧ ms_entries (run_op s op) = view_op (ms_entries s) op.
Proof.
  intros Hs. destruct op as [st|p|puts deletes]; simpl.
  - by apply put_entry_ok.
  - by apply delete_entry_ok.
  - intros [Hp Hd]. destruct (foldl_delete_ok s deletes Hs Hd) as [H1 H2].
    destruct (foldl_put_ok _ puts H1 Hp) as [H3 H4]. split; [done|]. by rewrite H4, H2.
Qed.

Lemma run_ops_ok ops s :
  mem_ok s → Forall op_ok ops →
  mem_ok (foldl run_op s ops) ∧ ms_entries (foldl run_op s ops) = foldl view_op (ms_entries s) ops.
Proof.
  intros Hs Ho. revert s Hs. induction Ho as [|op ops Hop Ho IH]; intros s Hs; [done|].
  destruct (run_op_ok s op Hs Hop) as [H1 H2]. cbn [foldl]. destruct (IH _ H1) as [H3 ->].
  split; [done|]. by rewrite H2.
Qed.

(** ** Scoped walks *)

Lemma elem_of_scope_view m scope p :
  is_Some (scope_view m scope !! p) ↔ within scope p = true ∧ is_Some (m !! p).
Proof.
  unfold scope_view. split.
  - intros [st [H1 H2]%map_lookup_filter_Some]. eauto.
  - intros [H1 [st H2]]. exists st. by apply map_lookup_filter_Some.
Qed.

Lemma collect_scope s scope :
  mem_ok s → clean_abs scope →
  match find_path (ms_paths s) (pathParts scope) with
  | Some node => sort_strings (collect_paths node)
  | None => []
  end = sortedKeys (scope_view (ms_entries s) scope).
Proof.
  intros [He Hi _] Hsc. unfold sortedKeys.
  replace (match find_path (ms_paths s) (pathParts scope) with
    | Some node => sort_strings (collect_paths node) | None => [] end)
    with (sort_strings match find_path (ms_paths s) (pathParts scope) with
    | Some node => collect_paths node | None => [] end) by by destruct find_path.
  apply sort_strings_ext, NoDup_Permutation; [|apply NoDup_fst_map_to_list|].
  - destruct (find_path _ _) as [node|] eqn:E; [|constructor]. apply NoDup_collect_paths.
    intros ps qs p H1 H2. pose proof (stored_at_find (ms_paths s) (pathParts scope)) as Hf.
    rewrite E in Hf. rewrite <-Hf in H1, H2. apply Hi in H1 as [H1 _], H2 as [H2 _].
    rewrite <-H2 in H1. by apply app_inv_head in H1.
  - intros p. rewrite <-(elem_of_sort_strings p (map_to_list _).*1). fold (sortedKeys (scope_view (ms_entries s) scope)).
    rewrite elem_of_sortedKeys, elem_of_scope_view.
    transitivity (∃ qs, stored_at (ms_paths s) (pathParts scope ++ qs) = Some p).
    { setoid_rewrite stored_at_find. destruct (find_path _ _); [apply elem_of_collect_paths|].
      split; [set_solver|]. by intros [? ?]. }
    setoid_rewrite Hi. rewrite pathParts_clean by done.
    assert (∀ st, ms_entries s !! p = Some st → clean_abs p) as Hcl by (intros st H; by apply (He p st)).
    split.
    + intros (qs & Hq & [st Hst]). specialize (Hcl st Hst). rewrite pathParts_clean in Hq by done.
      split; [|eauto]. injection Hq as Hq. apply clean_abs_spec in Hcl as [Ep Gp].
      apply clean_abs_spec in Hsc as [Es Gs]. rewrite Ep, Es. apply within_abs; [done..|].
      rewrite <-Hq. by exists qs.
    + intros [Hw [st Hst]]. specialize (Hcl st Hst).
      destruct (within_inv scope p Hsc) as [_ [qs Hq]]; [by destruct Hcl as [_ ->]|].
      destruct Hcl as [Ha Hcp]. rewrite Hcp in Hq. exists qs.
      rewrite pathParts_clean by done. rewrite Hq. eauto.
Qed.

Lemma mem_WalkScope_spec {W} s (ctx : M W ()) scope fn w :
  mem_ok s → clean_abs scope →
  mem_WalkScope s ctx scope fn w =
  (ctx ;; forM (scope_entries (ms_entries s) scope) (λ st, ctx ;; fn st)) w.
Proof.
  intros Hs Hsc. unfold mem_WalkScope, scope_entries. rewrite <-collect_scope by done.
  rewrite !bind_run. destruct (ctx w) as [[[]|e] w']; [|done]. by destruct find_path.
Qed.

(** What a context check followed by a pure result returns. *)
Lemma ctx_mret_inv {W A} (ctx : M W ()) (a r : A) w w' :
  (ctx ;; mret a) w = (inl r, w') → r = a.
Proof. rewrite bind_run. destruct (ctx w) as [[[]|e] w1]; [|done]. by intros [= -> _]. Qed.

#[global] Instance MemoryStore_laws : SnapshotStoreLaws MemoryStore.
Proof.
  refine {| store_view := ms_entries; store_ok := mem_ok; state_ok := λ _, True;
            scope_ok := λ _ _, True |}.
  - intros s Hs. by apply mem_entries_ok.
  - intros W s ctx p r w w' Hs Hp. apply ctx_mret_inv.
  - intros W s s' ctx st w w' Hs Hc _ E. apply (mutating_inl (λ s, mem_Put s ctx st)), ctx_mret_inv in E as ->. by apply put_entry_ok.
  - intros W s s' ctx p w w' Hs Hc E. apply (mutating_inl (λ s, mem_Delete s ctx p)), ctx_mret_inv in E as ->. by apply delete_entry_ok.
  - intros W s s' ctx puts deletes w w' Hs _ Hp Hd E. apply (mutating_inl (λ s, mem_Apply s ctx puts deletes)), ctx_mret_inv in E as ->.
    apply (run_op_ok s (OpApply puts deletes)); [done|]. split; [|done].
    eapply Forall_impl; [exact Hp|]. by intros st [? _].
  - intros W s s' ctx puts deletes e w w' _. apply (mutating_inr (λ s, mem_Apply s ctx puts deletes)).
  - intros W I s ctx scope fn Hctx Hfn. cbn [store_Walk MemoryStore_store]. unfold mem_WalkScope.
    apply preserves_bind; [done|intros _]. destruct (find_path _ _); [|apply preserves_ret].
    apply preserves_forM. intros st _. by apply preserves_bind.
  - intros W X π g s ctx scope fn w w' Hs Hc _ Hctx Hfn. cbn [store_Walk MemoryStore_store].
    rewrite mem_WalkScope_spec by done. rewrite bind_run.
    destruct (ctx w) as [[[]|e] w1] eqn:E; [|done]. intros H.
    rewrite (forM_ctx_frames π g ctx fn _ w1 w') by done. specialize (Hctx w). rewrite E in Hctx.
    cbn in Hctx. by rewrite Hctx.
  - intros W s ctx scope fn w Hs Hc _ Hctx. cbn [store_Walk MemoryStore_store].
    rewrite mem_WalkScope_spec by done. rewrite bind_run, Hctx. by apply forM_ctx_live.
Defined.

(** ** Properties *)

Lemma mem_ok_canonical s1 s2 : mem_ok s1 → mem_ok s2 → ms_entries s1 = ms_entries s2 → s1 = s2.
Proof.
  intros [_ H1 P1] [_ H2 P2]. destruct s1 as [e t1], s2 as [e' t2]. simpl in *. intros <-.
  f_equal. apply pruned_ext; [done..|]. intros ps. apply option_eq. intros p. by rewrite H1, H2.
Qed.

(** The concrete operations of the witnesses. *)
Definition demo_state (path : string) : FileState :=
  mkFileState path (newFileID "") FileTypeRegular 3 100 420.
Definition demo_ops : list mem_op :=
  [OpPut (demo_state "/d"); OpPut (demo_state "/d/a"); OpPut (demo_state "/d/a.txt");
   OpPut (demo_state "/d/a/x"); OpPut (demo_state "/e"); OpDelete "/d/a";
   OpApply [demo_state "/d/b"] ["/e"]].

(** C20: the in-memory store is a map with scoped walks.  After any sequence of
    puts, deletes and batches, [Get] returns what the map holds and [WalkScope]
    calls its callback on exactly the entries at or below the scope, in path
    order, checking the context before each and stopping at the first error. *)
Theorem memory_store_refines_map {W} (ops : list mem_op) (ctx : M W ()) (path scope : string)
    (fn : FileState → M W ()) (w : W) :
  Forall op_ok ops → clean_abs scope →
  let s := foldl run_op NewMemoryStore ops in
  let m := foldl view_op ∅ ops in
  mem_Get s ctx path w = (ctx ;; mret (m !! path)) w ∧
  mem_WalkScope s ctx scope fn w = (ctx ;; forM (scope_entries m scope) (λ st, ctx ;; fn st)) w.
Proof.
  intros Ho Hsc s m. destruct (run_ops_ok ops NewMemoryStore mem_ok_new Ho) as [Hs Hm].
  change m with (foldl view_op (ms_entries NewMemoryStore) ops). rewrite <-Hm.
  split; [done|]. by apply mem_WalkScope_spec.
Qed.

Lemma memory_store_refines_map_witness :
  Forall op_ok demo_ops ∧
  mem_WalkScope (W := list string) (foldl run_op NewMemoryStore demo_ops) (mret ()) "/d"
    (λ st, modify (λ seen, seen ++ [fs_Path st])) [] =
  (inl (), ["/d"; "/d/a.txt"; "/d/a/x"; "/d/b"]).
Proof.
  assert (Forall op_ok demo_ops) as H by (repeat constructor; by_decide).
  split; [exact H|].
  rewrite (proj2 (memory_store_refines_map demo_ops (mret ()) "/d" "/d"
    (λ st, modify (λ seen, seen ++ [fs_Path st])) [] H ltac:(by_decide))).
  vm_compute. reflexivity.
Defined.

(** C33: the path index is canonical.  Two histories that leave the same entries
    leave the same store, index included: deletes free every index node that no
    remaining entry needs, and emptying the store gives back the fresh one. *)
Theorem memory_index_canonical (ops1 ops2 : list mem_op) :
  Forall op_ok ops1 → Forall op_ok ops2 →
  foldl view_op ∅ ops1 = foldl view_op ∅ ops2 →
  foldl run_op NewMemoryStore ops1 = foldl run_op NewMemoryStore ops2.
Proof.
  intros H1 H2 E. destruct (run_ops_ok ops1 NewMemoryStore mem_ok_new H1) as [Hs1 Hm1].
  destruct (run_ops_ok ops2 NewMemoryStore mem_ok_new H2) as [Hs2 Hm2].
  apply mem_ok_canonical; [done..|]. rewrite Hm1, Hm2. exact E.
Qed.

Lemma memory_index_canonical_witness :
  foldl run_op NewMemoryStore (demo_ops ++ [OpApply [] ["/d"; "/d/a.txt"; "/d/a/x"; "/d/b"]]) =
  NewMemoryStore.
Proof.
  apply (memory_index_canonical
    (demo_ops ++ [OpApply [] ["/d"; "/d/a.txt"; "/d/a/x"; "/d/b"]]) []).
  - repeat constructor; by_decide.
  - constructor.
  - vm_compute. reflexivity.
Defined.
