(* ===== verification/Json.v ===== *)
(** * Stored documents: the part of [encoding/json] the program uses

    A marshalled value is modelled by the JSON document its text denotes: an
    object is the list of its members in struct order, a [time.Time] member is the
    instant its RFC 3339 text denotes, a [[]byte] member the bytes of its base64
    text.  [Marshal] replaces every byte of a string that is not part of a valid
    UTF-8 sequence by U+FFFD, and refuses an instant whose year is outside
    [0, 9999].  [Unmarshal] matches members with fields without regard to case,
    assigns a field once for each of its members in document order, keeps what an
    absent member would set, merges an object into what its pointer already points
    to, and fails on a member of another kind and on a number outside the field's
    width.  A string in a time or byte field is kept as the value it denotes there,
    so a document with such a string in another field is read as one of the wrong
    kind. *)

From Stdlib Require Import Ascii.
From S2P Require Import Prelude GoPath Types.

#[local] Set Warnings "-register-all".

(** ** Definitions *)

Inductive json : Type :=
  | JNull
  | JString (s : string)
  | JNumber (z : Z)
  | JTime (t : Z)
  | JBytes (b : list Byte.byte)
  | JObject (members : list (string * json)).

(** *** UTF-8 *)

Definition byte_in (lo hi : nat) (c : ascii) : bool :=
  (lo <=? nat_of_ascii c) && (nat_of_ascii c <=? hi).

Definition cont (c : ascii) : bool := byte_in 128 191 c.

(** The valid two, three and four byte sequences of [unicode/utf8]. *)
Definition utf8_2 (a b : ascii) : bool := byte_in 194 223 a && cont b.
Definition utf8_3 (a b c : ascii) : bool :=
  ((byte_in 224 224 a && byte_in 160 191 b) || (byte_in 225 236 a && cont b) ||
   (byte_in 237 237 a && byte_in 128 159 b) || (byte_in 238 239 a && cont b)) && cont c.
Definition utf8_4 (a b c d : ascii) : bool :=
  ((byte_in 240 240 a && byte_in 144 191 b) || (byte_in 241 243 a && cont b) ||
   (byte_in 244 244 a && byte_in 128 143 b)) && cont c && cont d.

(** [U+FFFD] in UTF-8. *)
Definition replacement (s : string) : string :=
  String "239" (String "191" (String "189" s)).

(** The string [Unmarshal] reads back from what [Marshal] wrote for [s]. *)
Fixpoint sanitize (s : string) : string :=
  match s with
  | EmptyString => EmptyString
  | String a s1 =>
      if byte_in 0 127 a then String a (sanitize s1)
      else match s1 with
      | String b s2 =>
          if utf8_2 a b then String a (String b (sanitize s2))
          else match s2 with
          | String c s3 =>
              if utf8_3 a b c then String a (String b (String c (sanitize s3)))
              else match s3 with
              | String d s4 =>
                  if utf8_4 a b c d then String a (String b (String c (String d (sanitize s4))))
                  else replacement (sanitize s1)
              | EmptyString => replacement (sanitize s1)
              end
          | EmptyString => replacement (sanitize s1)
          end
      | EmptyString => replacement (sanitize s1)
      end
  end.

Definition valid_utf8 (s : string) : Prop := sanitize s = s.

(** *** Members *)

Definition JText (s : string) : json := JString (sanitize s).

(** Nanoseconds since the epoch of the first instants of the years 0 and 10000. *)
Definition year_0 : Z := (-62167219200) * 1000000000.
Definition year_10000 : Z := 253402300800 * 1000000000.

Definition time_MarshalJSON (t : Z) : json + error :=
  if decide (year_0 ≤ t < year_10000)%Z then inl (JTime t)
  else inr (errors_New "Time.MarshalJSON: year outside of range [0,9999]").

(** *** Matching members with fields

    A member belongs to the field whose name equals its own under case folding.  The
    names of the fields are ASCII; of the other characters only the long s and the
    Kelvin sign fold to an ASCII letter. *)

Definition to_upper (c : ascii) : ascii :=
  if byte_in 97 122 c then ascii_of_nat (nat_of_ascii c - 32) else c.

Fixpoint foldName (s : string) : string :=
  match s with
  | EmptyString => EmptyString
  | String "197" (String "191" s) => String "S" (foldName s)
  | String "226" (String "132" (String "170" s)) => String "K" (foldName s)
  | String c s => String (to_upper c) (foldName s)
  end.

(** The values of the members that belong to field [name], in document order. *)
Definition values (members : list (string * json)) (name : string) : list json :=
  omap (λ m, if String.eqb (foldName m.1) (foldName name) then Some m.2 else None) members.

(** The error-or-value monad of the codecs. *)
Definition ebind {A B} (m : A + error) (k : A → B + error) : B + error :=
  match m with inl a => k a | inr e => inr e end.

Declare Scope json_scope.
Delimit Scope json_scope with json.
Notation "'let?' x := m 'in' k" := (ebind m (λ x, k))
  (at level 10, x pattern, m at level 100, k at level 200) : json_scope.
Open Scope json_scope.

Definition type_error (name : string) : error :=
  Wrapf name (errors_New "json: cannot unmarshal value into field").

(** A field is assigned once for each of its members, the last one winning, and keeps
    its value when it has none. *)
Fixpoint assign {A} (read : A → json → A + error) (field : A) (vs : list json) : A + error :=
  match vs with
  | [] => inl field
  | v :: vs => let? field := read field v in assign read field vs
  end.

Definition get {A} (read : A → json → A + error) (field : A) (o : list (string * json)) (name : string) : A + error :=
  assign read field (values o name).

(** A null leaves a field that is not a pointer, a slice or a map as it is. *)
Definition read_string (field : string) (v : json) : string + error :=
  match v with
  | JNull => inl field
  | JString s => inl s
  | _ => inr (type_error "string")
  end.

(** A number in [lo, hi]. *)
Definition read_number (lo hi : Z) (field : Z) (v : json) : Z + error :=
  match v with
  | JNull => inl field
  | JNumber z => if decide (lo ≤ z ≤ hi)%Z then inl z else inr (type_error "number")
  | _ => inr (type_error "number")
  end.

Definition read_uint8 := read_number 0 255.
Definition read_uint32 := read_number 0 (2 ^ 32 - 1).
Definition read_int64 := read_number (- 2 ^ 63) (2 ^ 63 - 1).

Definition read_time (field : Z) (v : json) : Z + error :=
  match v with
  | JNull => inl field
  | JTime t => inl t
  | _ => inr (type_error "time.Time")
  end.

(** A pointer member: null makes it nil, another value is read into what it points
    to, a new zero value when it is nil. *)
Definition read_pointer {A} (zero : A) (read : A → json → A + error) (field : option A) (v : json) :
    option A + error :=
  match v with
  | JNull => inl None
  | _ => let? a := read (default zero field) v in inl (Some a)
  end.

Definition read_bytes (field : list Byte.byte) (v : json) : list Byte.byte + error :=
  match v with
  | JNull => inl []
  | JBytes b => inl b
  | _ => inr (type_error "[]byte")
  end.

(** ** storedFileState (bolt_store.go) *)

Record storedFileState : Type := mkStored {
  sf_Path : string;
  sf_ID : string;
  sf_Type : Z;
  sf_Size : Z;
  sf_ModTime : Z;
  sf_Mode : Z;
  sf_Schema : Z
}.

Definition zero_stored : storedFileState := mkStored "" "" 0 0 zeroTime 0 0.

(** The struct's fields in order, [id] omitted when empty. *)
Definition marshal_stored (s : storedFileState) : json + error :=
  let? mod_time := time_MarshalJSON (sf_ModTime s) in
  inl (JObject ([("path", JText (sf_Path s))] ++
    (if decide (sf_ID s = "") then [] else [("id", JText (sf_ID s))]) ++
    [("type", JNumber (sf_Type s)); ("size", JNumber (sf_Size s)); ("mod_time", mod_time);
     ("mode", JNumber (sf_Mode s)); ("schema", JNumber (sf_Schema s))])).

(** [json.Unmarshal] into [s]. *)
Definition unmarshal_stored (s : storedFileState) (d : json) : storedFileState + error :=
  match d with
  | JNull => inl s
  | JObject o =>
      let? path := get read_string (sf_Path s) o "path" in
      let? id := get read_string (sf_ID s) o "id" in
      let? type := get read_uint8 (sf_Type s) o "type" in
      let? size := get read_int64 (sf_Size s) o "size" in
      let? mod_time := get read_time (sf_ModTime s) o "mod_time" in
      let? mode := get read_uint32 (sf_Mode s) o "mode" in
      let? schema := get read_uint8 (sf_Schema s) o "schema" in
      inl (mkStored path id type size mod_time mode schema)
  | _ => inr (type_error "storedFileState")
  end.

(** [storedState] of reconcile_bolt.go, also the literal of [encodeFileState]. *)
Definition storedState (state : FileState) : storedFileState :=
  mkStored (fs_Path state) (id_value (fs_ID state)) (fs_Type state) (fs_Size state)
    (fs_ModTime state) (u32 (fs_Mode state)) 1.

Definition fileStateFromStored (stored : storedFileState) : FileState :=
  mkFileState (sf_Path stored) (newFileID (sf_ID stored)) (sf_Type stored) (sf_Size stored)
    (sf_ModTime stored) (sf_Mode stored).

Definition encodeFileState (state : FileState) : json + error := marshal_stored (storedState state).

Definition decodeFileState (data : json) : FileState + error :=
  let? stored := unmarshal_stored zero_stored data in
  if decide (sf_Schema stored ≠ 1%Z) then inr (errors_New "unsupported snapshot schema")
  else inl (fileStateFromStored stored).

(** ** stagedEvent (reconcile_bolt.go) *)

Record stagedEvent : Type := mkStaged {
  se_Kind : Z;
  se_Path : string;
  se_OldPath : string;
  se_Before : option storedFileState;
  se_After : option storedFileState;
  se_Source : Z;
  se_Time : Z
}.

Definition zero_staged : stagedEvent := mkStaged 0 "" "" None None 0 zeroTime.

Definition staged_of (event : Event) : stagedEvent :=
  mkStaged (ev_Kind event) (ev_Path event) (ev_OldPath event) (storedState <$> ev_Before event)
    (storedState <$> ev_After event) (ev_Source event) (ev_Time event).

(** A pointer member with [omitempty]. *)
Definition marshal_optional (name : string) (s : option storedFileState) :
    list (string * json) + error :=
  match s with
  | None => inl []
  | Some s => let? d := marshal_stored s in inl [(name, d)]
  end.

Definition marshal_staged (s : stagedEvent) : json + error :=
  let? before := marshal_optional "before" (se_Before s) in
  let? after := marshal_optional "after" (se_After s) in
  let? time := time_MarshalJSON (se_Time s) in
  inl (JObject ([("kind", JNumber (se_Kind s)); ("path", JText (se_Path s))] ++
    (if decide (se_OldPath s = "") then [] else [("old_path", JText (se_OldPath s))]) ++
    before ++ after ++ [("source", JNumber (se_Source s)); ("time", time)])).

Definition unmarshal_staged (s : stagedEvent) (d : json) : stagedEvent + error :=
  match d with
  | JNull => inl s
  | JObject o =>
      let? kind := get read_uint8 (se_Kind s) o "kind" in
      let? path := get read_string (se_Path s) o "path" in
      let? old_path := get read_string (se_OldPath s) o "old_path" in
      let? before := get (read_pointer zero_stored unmarshal_stored) (se_Before s) o "before" in
      let? after := get (read_pointer zero_stored unmarshal_stored) (se_After s) o "after" in
      let? source := get read_uint8 (se_Source s) o "source" in
      let? time := get read_time (se_Time s) o "time" in
      inl (mkStaged kind path old_path before after source time)
  | _ => inr (type_error "stagedEvent")
  end.

Definition eventFromStaged (stored : stagedEvent) : Event :=
  mkEvent (se_Kind stored) (se_Path stored) (se_OldPath stored)
    (fileStateFromStored <$> se_Before stored) (fileStateFromStored <$> se_After stored)
    (se_Source stored) (se_Time stored).

Definition encodeStagedEvent (event : Event) : json + error := marshal_staged (staged_of event).

Definition decodeStagedEvent (value : json) : Event + error :=
  let? stored := unmarshal_staged zero_staged value in inl (eventFromStaged stored).

(** ** Values the codecs restore *)

(** The fields of Go values are within their width by type; [storable] adds that
    the strings are UTF-8 and the time has a year JSON accepts. *)
Record storable (state : FileState) : Prop := {
  storable_path : valid_utf8 (fs_Path state);
  storable_id : valid_utf8 (id_value (fs_ID state));
  storable_type : (0 ≤ fs_Type state ≤ 255)%Z;
  storable_size : (- 2 ^ 63 ≤ fs_Size state ≤ 2 ^ 63 - 1)%Z;
  storable_time : (year_0 ≤ fs_ModTime state < year_10000)%Z;
  storable_mode : (0 ≤ fs_Mode state ≤ 2 ^ 32 - 1)%Z
}.

#[global] Instance storable_dec state : Decision (storable state).
Proof.
  refine (cast_if (decide (valid_utf8 (fs_Path state) ∧ valid_utf8 (id_value (fs_ID state)) ∧
    (0 ≤ fs_Type state ≤ 255)%Z ∧ (- 2 ^ 63 ≤ fs_Size state ≤ 2 ^ 63 - 1)%Z ∧
    (year_0 ≤ fs_ModTime state < year_10000)%Z ∧ (0 ≤ fs_Mode state ≤ 2 ^ 32 - 1)%Z))).
  - abstract (split; tauto).
  - abstract (intros []; tauto).
Defined.

Record stageable (event : Event) : Prop := {
  stageable_kind : (0 ≤ ev_Kind event ≤ 255)%Z;
  stageable_source : (0 ≤ ev_Source event ≤ 255)%Z;
  stageable_path : valid_utf8 (ev_Path event);
  stageable_old : valid_utf8 (ev_OldPath event);
  stageable_before : ∀ s, ev_Before event = Some s → storable s;
  stageable_after : ∀ s, ev_After event = Some s → storable s;
  stageable_time : (year_0 ≤ ev_Time event < year_10000)%Z
}.

(** ** Lemmas *)

Lemma read_number_in lo hi field z : (lo ≤ z ≤ hi)%Z → read_number lo hi field (JNumber z) = inl z.
Proof. intros H. unfold read_number. by rewrite decide_True. Qed.

(** A field with one member takes its value. *)
Lemma get_one {A} (read : A → json → A + error) field o name v a :
  values o name = [v] → read field v = inl a → get read field o name = inl a.
Proof. intros E R. unfold get. rewrite E. simpl. by rewrite R. Qed.

(** A field with no member keeps its value. *)
Lemma get_none {A} (read : A → json → A + error) field o name :
  values o name = [] → get read field o name = inl field.
Proof. intros E. unfold get. by rewrite E. Qed.

Lemma ebind_inl {A B} (m : A + error) (k : A → B + error) a : m = inl a → ebind m k = k a.
Proof. by intros ->. Qed.

Lemma ebind_inv {A B} (m : A + error) (k : A → B + error) b : ebind m k = inl b → ∃ a, m = inl a ∧ k a = inl b.
Proof. destruct m; [eauto|done]. Qed.

(** Opens the bindings of a decoder that succeeded. *)
Ltac decoded :=
  repeat match goal with
  | H : ebind _ _ = inl _ |- _ => apply ebind_inv in H as (? & ? & H)
  end.

(** Reads the next field of a document whose members are known. *)
Ltac read_field :=
  first [ erewrite ebind_inl by (apply get_none; reflexivity)
        | erewrite ebind_inl by (eapply get_one; [reflexivity|];
            first [reflexivity | eassumption | by apply read_number_in]) ].

Lemma marshal_stored_roundtrip state :
  storable state →
  ∃ o, marshal_stored (storedState state) = inl (JObject o) ∧
       unmarshal_stored zero_stored (JObject o) = inl (storedState state).
Proof.
  intros [Hp Hi Ht Hs Hm Ho]. destruct state as [p [id] t sz m mo]. simpl in *.
  unfold marshal_stored, storedState, time_MarshalJSON. simpl.
  rewrite decide_True by done. simpl. eexists. split; [reflexivity|].
  assert (u32 mo = mo) as -> by (apply Z.mod_small; lia).
  unfold unmarshal_stored, JText, valid_utf8 in *. rewrite Hp, Hi.
  destruct (decide (id = "")) as [->|Hne]; cbn [app]; repeat read_field; reflexivity.
Qed.

Lemma fileState_stored state : storable state → fileStateFromStored (storedState state) = state.
Proof.
  intros [_ _ _ _ _ Ho]. destruct state as [p [id] t sz m mo]. simpl in *.
  unfold fileStateFromStored, storedState. simpl. f_equal. apply Z.mod_small. lia.
Qed.

Lemma encode_decode state :
  storable state → ∃ d, encodeFileState state = inl d ∧ decodeFileState d = inl state.
Proof.
  intros Hs. destruct (marshal_stored_roundtrip state Hs) as (o & E & D).
  exists (JObject o). split; [done|]. unfold decodeFileState. rewrite D. simpl.
  by rewrite fileState_stored.
Qed.

(** Whatever [encodeFileState] writes for a storable state is read back. *)
Lemma decode_encoded state d :
  storable state → encodeFileState state = inl d → decodeFileState d = inl state.
Proof. intros Hs E. destruct (encode_decode state Hs) as (d' & E' & D). congruence. Qed.

Lemma eventFromStaged_of event : stageable event → eventFromStaged (staged_of event) = event.
Proof.
  intros [_ _ _ _ Hb Ha _]. destruct event as [k p o b a src t]. unfold eventFromStaged. simpl in *.
  f_equal.
  - destruct b as [s|]; [|done]. simpl. f_equal. apply fileState_stored. by apply Hb.
  - destruct a as [s|]; [|done]. simpl. f_equal. apply fileState_stored. by apply Ha.
Qed.

(** A pointer to a state, marshalled and read back. *)
Lemma marshal_optional_roundtrip name (s : option FileState) :
  (∀ st, s = Some st → storable st) →
  ∃ l, marshal_optional name (storedState <$> s) = inl l ∧
    match s with
    | None => l = []
    | Some st => ∃ d, l = [(name, d)] ∧
        read_pointer zero_stored unmarshal_stored None d = inl (Some (storedState st))
    end.
Proof.
  intros Hs. destruct s as [st|]; simpl; [|by exists []].
  destruct (marshal_stored_roundtrip st (Hs st eq_refl)) as (o & E & D). rewrite E. simpl.
  exists [(name, JObject o)]. split; [done|]. exists (JObject o). split; [done|].
  unfold read_pointer. cbn [default]. by rewrite D.
Qed.

Lemma staged_roundtrip event :
  stageable event →
  ∃ d, encodeStagedEvent event = inl d ∧ decodeStagedEvent d = inl event.
Proof.
  intros Hev. pose proof Hev as [Hk Hsrc Hp Ho Hb Ha Ht].
  destruct event as [k p old b a src t]. cbn [ev_Kind ev_Path ev_OldPath ev_Before ev_After ev_Source ev_Time] in *.
  destruct (marshal_optional_roundtrip "before" b Hb) as (lb & Eb & Db).
  destruct (marshal_optional_roundtrip "after" a Ha) as (la & Ea & Da).
  unfold encodeStagedEvent, marshal_staged. cbn [staged_of se_Before se_After ev_Before ev_After].
  rewrite Eb, Ea. cbn [ebind]. unfold time_MarshalJSON. rewrite decide_True by done. cbn [ebind].
  eexists. split; [reflexivity|]. unfold decodeStagedEvent.
  rewrite (ebind_inl _ _ (staged_of (mkEvent k p old b a src t))); [by rewrite eventFromStaged_of|].
  unfold staged_of, unmarshal_staged, JText, valid_utf8 in *.
  cbn [se_Kind se_Path se_OldPath se_Source se_Time ev_Kind ev_Path ev_OldPath ev_Before ev_After ev_Source ev_Time].
  rewrite Hp, Ho.
  destruct (decide (old = "")) as [->|Hne], b as [b|], a as [a|];
    try destruct Db as (db & -> & Db); try destruct Da as (da & -> & Da); subst; cbn [app];
    repeat read_field; reflexivity.
Qed.
