(* ===== verification/BoltStore.v ===== *)
(** * The persistent store: [BoltStore] of bolt_store.go

    bbolt is third-party code and a parameter: [BoltDB] names the calls the store
    makes and [BoltDBLaws] states its documented behaviour.  A bucket is a map
    ordered by key bytes, a cursor visits it in that order, [Update] commits the
    whole body or nothing, [View] reads a committed state.  [MapDB] is an instance
    of both classes. *)

From Stdlib Require Import Ascii.
From S2P Require Import Prelude Frame GoPath DirtySet Types Store MemoryStore Json.

(** ** bbolt *)

Class BoltDB (DB Bk : Type) : Type := {
  bk_Get : Bk → string → option json;
  bk_Put : Bk → string → json → Bk + error;
  bk_Delete : Bk → string → Bk + error;
  (** [Cursor.Seek] and the pairs the following [Next] calls return. *)
  bk_Seek : Bk → string → list (string * json);
  (** [tx.DeleteBucket(snapshotBucket)] and [tx.CreateBucket(snapshotBucket)]. *)
  tx_DeleteBucket : Bk → option error;
  tx_CreateBucket : Bk + error;
  (** [tx.Bucket(snapshotBucket)] at the start of a transaction. *)
  db_Bucket : DB → Bk;
  db_Update {W} : DB → (Bk → M W Bk) → M W DB;
  db_View {W A} : DB → (Bk → M W A) → M W A;
  db_Close : DB → option error
}.

Class BoltDBLaws (DB Bk : Type) `{BoltDB DB Bk} : Type := {
  bk_map : Bk → gmap string json;
  bk_Get_law b k : bk_Get b k = bk_map b !! k;
  bk_Put_law b k v b' : bk_Put b k v = inl b' → bk_map b' = <[k := v]> (bk_map b);
  bk_Delete_law b k b' : bk_Delete b k = inl b' → bk_map b' = delete k (bk_map b);
  bk_Seek_law b k :
    bk_Seek b k = (λ p, (p, default JNull (bk_map b !! p))) <$> filter (String.le k) (sortedKeys (bk_map b));
  tx_CreateBucket_law b : tx_CreateBucket = inl b → bk_map b = ∅;
  db_Update_law {W} db (body : Bk → M W Bk) w db' w' :
    db_Update db body w = (inl db', w') → ∃ b, body (db_Bucket db) w = (inl b, w') ∧ db_Bucket db' = b;
  db_View_law {W A} db (body : Bk → M W A) w : db_View db body w = body (db_Bucket db) w
}.

(** ** Definitions *)

Section store.
Context {DB Bk : Type} `{BoltDB DB Bk}.

Record BoltStore : Type := mkBoltStore {
  bs_db : DB;
  bs_closed : bool
}.

Definition database (s : BoltStore) : DB + error :=
  if bs_closed s then inr (errors_New "fsrecon: bolt store is closed") else inl (bs_db s).

Definition bolt_Close (s : BoltStore) : option error * BoltStore :=
  if bs_closed s then (None, s) else (db_Close (bs_db s), mkBoltStore (bs_db s) true).

Section operations.
Context {W : Type}.

(** [bolt.Open], [db.Update] with [CreateBucketIfNotExists], and [db.Close] are
    actions on the file of the database. *)
Definition OpenBoltStore (bolt_Open : string → M W DB) (createBucket : DB → M W DB) (bolt_close : DB → M W ())
    (path : string) : M W BoltStore :=
  if decide (path = "") then throw (errors_New "fsrecon: bolt store path is required")
  else
    db ← wrapping "fsrecon: open bolt store" (bolt_Open (Clean path));
    r ← try (createBucket db);
    match r with
    | inr err =>
        _ ← try (bolt_close db);
        throw (Wrapf "fsrecon: initialize bolt store" err)
    | inl db' => mret (mkBoltStore db' false)
    end.

Definition bolt_Get (s : BoltStore) (ctx : M W ()) (path : string) : M W (option FileState) :=
  ctx ;;
  db ← lift (database s);
  db_View db (λ bucket,
    match bk_Get bucket path with
    | None => mret None
    | Some value => state ← lift (decodeFileState value); mret (Some state)
    end).

(** The bodies of the two loops of [Apply]. *)
Definition apply_delete (ctx : M W ()) (bucket : Bk) (path : string) : M W Bk :=
  ctx ;; lift (bk_Delete bucket path).
Definition apply_put (ctx : M W ()) (bucket : Bk) (state : FileState) : M W Bk :=
  ctx ;;
  value ← lift (encodeFileState state);
  lift (bk_Put bucket (fs_Path state) value).

Definition bolt_Apply (s : BoltStore) (ctx : M W ()) (puts : list FileState)
    (deletes : list string) : M W BoltStore :=
  ctx ;;
  db ← lift (database s);
  db' ← db_Update db (λ bucket,
    bucket ← foldM (apply_delete ctx) bucket deletes;
    foldM (apply_put ctx) bucket puts);
  mret (mkBoltStore db' (bs_closed s)).

Definition bolt_Put (s : BoltStore) (ctx : M W ()) (state : FileState) : M W BoltStore :=
  bolt_Apply s ctx [state] [].
Definition bolt_Delete (s : BoltStore) (ctx : M W ()) (path : string) : M W BoltStore :=
  bolt_Apply s ctx [] [path].

(** The cursor loop of [WalkScope] over the pairs from the seek position on. *)
Fixpoint walk_cursor (ctx : M W ()) (prefix : string) (fn : FileState → M W ())
    (pairs : list (string * json)) : M W () :=
  match pairs with
  | [] => mret ()
  | (path, value) :: rest =>
      ctx ;;
      if negb (pathHasPrefix path prefix) then mret ()
      else
        state ← wrapping "decode snapshot" (lift (decodeFileState value));
        fn state ;;
        walk_cursor ctx prefix fn rest
  end.

Definition bolt_WalkScope (s : BoltStore) (ctx : M W ()) (prefix : string)
    (fn : FileState → M W ()) : M W () :=
  ctx ;;
  db ← lift (database s);
  db_View db (λ bucket, walk_cursor ctx prefix fn (bk_Seek bucket prefix)).

Definition bolt_Walk := bolt_WalkScope.

(** [replaceSnapshot]: the bucket is recreated and filled from the pairs of the
    source bucket's cursor, in one transaction. *)
Definition copy_pair (ctx : M W ()) (destination : Bk) (kv : string * json) : M W Bk :=
  ctx ;; lift (bk_Put destination kv.1 kv.2).

Definition replaceSnapshot (s : BoltStore) (ctx : M W ()) (source : list (string * json)) :
    M W BoltStore :=
  db ← lift (database s);
  db' ← db_Update db (λ bucket,
    match tx_DeleteBucket bucket with
    | Some err =>
        if negb (errors_Is err ErrBucketNotFound) then throw err
        else destination ← lift tx_CreateBucket; foldM (copy_pair ctx) destination source
    | None => destination ← lift tx_CreateBucket; foldM (copy_pair ctx) destination source
    end);
  mret (mkBoltStore db' (bs_closed s)).
End operations.

#[global] Instance BoltStore_store : SnapshotStore BoltStore := {
  store_Get := @bolt_Get;
  store_Put _ ctx state := mutating (λ s, bolt_Put s ctx state);
  store_Delete _ ctx path := mutating (λ s, bolt_Delete s ctx path);
  store_Walk := @bolt_WalkScope;
  store_batch _ := true;
  store_Apply _ ctx puts deletes := mutating (λ s, bolt_Apply s ctx puts deletes)
}.
End store.

Arguments BoltStore : clear implicits.

(** An in-memory instance of the bbolt interface; a key must not be empty. *)
Definition MapBucket : Type := gmap string json.
Definition MapDB : Type := MapBucket.

#[global] Instance MapDB_bolt : BoltDB MapDB MapBucket := {
  bk_Get b k := (b : gmap string json) !! k;
  bk_Put b k v := if decide (k = "") then inr (errors_New "key required")
                  else inl (<[k := v]> (b : gmap string json));
  bk_Delete b k := inl (delete k (b : gmap string json));
  bk_Seek b k := (λ p, (p, default JNull ((b : gmap string json) !! p))) <$>
    filter (String.le k) (sortedKeys (b : gmap string json));
  tx_DeleteBucket _ := None;
  tx_CreateBucket := inl ∅;
  db_Bucket db := db;
  db_Update W db body := body db;
  db_View W A db body := body db;
  db_Close _ := None
}.

#[global] Instance MapDB_laws : BoltDBLaws MapDB MapBucket.
Proof.
  refine {| bk_map := λ b : MapBucket, (b : gmap string json) |}.
  - done.
  - intros b k v b'. simpl. case_decide; [done|]. by intros [= <-].
  - by intros b k b' [= <-].
  - done.
  - by intros b [= <-].
  - intros W db body w db' w' H. by exists db'.
  - done.
Defined.

(** ** Byte order and prefixes *)

Lemma le_cons a s b t :
  String.le (String a s) (String b t) ↔
  (N_of_ascii a < N_of_ascii b)%N ∨ (a = b ∧ String.le s t).
Proof.
  unfold String.le, String.leb. simpl. unfold Ascii.compare.
  destruct (N.compare_spec (N_of_ascii a) (N_of_ascii b)) as [E|E|E]; simpl.
  - apply (f_equal ascii_of_N) in E. rewrite !ascii_N_embedding in E. subst.
    split; [by right|]. intros [?|[_ ?]]; [lia|done].
  - split; [by left|done].
  - split; [done|]. intros [?|[-> _]]; lia.
Qed.

Lemma le_nil s : String.le "" s.
Proof. by destruct s. Qed.

Lemma le_app a s t : String.le (a +:+ s) (a +:+ t) ↔ String.le s t.
Proof.
  induction a as [|c a IH]; [done|]. rewrite !string_cons_app, le_cons, IH.
  split; [intros [?|[_ ?]]; [lia|done]|by right].
Qed.

Lemma le_app_prefix s x : String.le s (s +:+ x).
Proof. rewrite <-(string_app_nil_r s) at 1. rewrite le_app. apply le_nil. Qed.

(** A string above [s] that does not extend [s] is above every extension of [s]. *)
Lemma le_not_prefix s p x : String.le s p → HasPrefix p s = false → String.le (s +:+ x) p.
Proof.
  revert p. induction s as [|a s IH]; intros p Hle Hp; [by destruct p|].
  destruct p as [|b p]; [done|]. rewrite string_cons_app. apply le_cons in Hle. apply le_cons.
  destruct Hle as [?|[-> Hle]]; [by left|]. right. split; [done|]. apply IH; [done|].
  unfold HasPrefix in *. simpl in Hp. by destruct (ascii_dec b b).
Qed.

(** The stored paths that end a cursor walk of [scope] early: those that extend
    [scope] with a byte below the separator. *)
Definition no_early_sibling (scope p : string) : Prop :=
  within scope p = true ∨
  ∀ c rest, p = scope +:+ String c rest → (N_of_ascii Separator < N_of_ascii c)%N.

Lemma within_string scope p :
  clean_abs scope → clean_abs p → within scope p = true → scope ≠ "/" →
  p = scope ∨ ∃ rest, p = scope +:+ String Separator rest.
Proof.
  intros (r & -> & Hr & _)%clean_abs_elim (q & -> & Hq & _)%clean_abs_elim.
  rewrite within_abs by done. intros [k ->] Hne. destruct k as [|x k]; [left; by rewrite app_nil_r|].
  right. exists (join_sep (x :: k)). unfold abs. rewrite join_sep_app_prefix; [done|done|].
  by intros ->.
Qed.

Lemma within_root p : clean_abs p → within "/" p = true.
Proof.
  intros (q & -> & Hq & _)%clean_abs_elim. change "/" with (abs []).
  apply within_abs; [done..|]. apply prefix_nil.
Qed.

Lemma within_le scope p : clean_abs scope → clean_abs p → within scope p = true → String.le scope p.
Proof.
  intros Hs Hp Hw. destruct (decide (scope = "/")) as [->|Hne].
  - destruct (clean_abs_elim p Hp) as (q & -> & _). apply (le_app_prefix "/" (join_sep q)).
  - destruct (within_string scope p Hs Hp Hw Hne) as [->|[rest ->]]; [done|apply le_app_prefix].
Qed.

Lemma no_early_sibling_order scope p q :
  clean_abs scope → clean_abs p → clean_abs q → no_early_sibling scope p →
  String.le scope p → within scope p = false → within scope q = true → String.le q p.
Proof.
  intros Hs Hp Hq Hsib Hle Hwp Hwq.
  destruct (decide (scope = "/")) as [->|Hne]; [by rewrite within_root in Hwp|].
  destruct Hsib as [?|Hsib]; [congruence|].
  destruct (HasPrefix p scope) eqn:HP.
  - apply HasPrefix_spec in HP as [rest ->]. destruct rest as [|c rest].
    { rewrite string_app_nil_r in Hwp. by rewrite within_refl in Hwp. }
    specialize (Hsib c rest eq_refl).
    destruct (within_string scope q Hs Hq Hwq Hne) as [->|[x ->]]; [apply le_app_prefix|].
    apply le_app, le_cons. by left.
  - destruct (within_string scope q Hs Hq Hwq Hne) as [->|[x ->]]; [done|by apply le_not_prefix].
Qed.

(** ** The store as a map of decoded states *)

Section laws.
Context {DB Bk : Type} `{BoltDBLaws DB Bk}.

Definition decoded (v : json) : option FileState :=
  match decodeFileState v with inl st => Some st | inr _ => None end.

Definition bucket_view (b : Bk) : view := omap decoded (bk_map b).

(** Every stored value decodes to a state stored under its own path. *)
Definition bucket_ok (b : Bk) : Prop :=
  ∀ k v, bk_map b !! k = Some v →
    clean_abs k ∧ no_backslash k = true ∧ ∃ st, decodeFileState v = inl st ∧ fs_Path st = k.

(** The states a bucket represents under their own path. *)
Definition bolt_state_ok (st : FileState) : Prop := storable st ∧ no_backslash (fs_Path st) = true.

Definition bolt_view (s : BoltStore DB) : view := bucket_view (db_Bucket (bs_db s)).
Definition bolt_ok (s : BoltStore DB) : Prop := bucket_ok (db_Bucket (bs_db s)).
Definition bolt_scope_ok (s : BoltStore DB) (scope : string) : Prop :=
  ∀ p, is_Some (bolt_view s !! p) → no_early_sibling scope p.

Lemma bucket_view_lookup b k : bucket_view b !! k = bk_map b !! k ≫= decoded.
Proof. unfold bucket_view. by rewrite lookup_omap. Qed.

Lemma bucket_view_is_Some b k : bucket_ok b → is_Some (bucket_view b !! k) ↔ is_Some (bk_map b !! k).
Proof.
  intros Hb. rewrite bucket_view_lookup. destruct (bk_map b !! k) as [v|] eqn:E; simpl; [|done].
  destruct (Hb _ _ E) as (_ & _ & st & D & _). unfold decoded. rewrite D. split; eauto.
Qed.

Lemma bucket_view_ok b : bucket_ok b → view_ok (bucket_view b).
Proof.
  intros Hb p st. rewrite bucket_view_lookup. destruct (bk_map b !! p) as [v|] eqn:E; simpl; [|done].
  destruct (Hb _ _ E) as (? & _ & st' & D & ?). unfold decoded. rewrite D. by intros [= <-].
Qed.

Lemma bk_Put_ok b st v b' :
  bucket_ok b → clean_abs (fs_Path st) → bolt_state_ok st →
  encodeFileState st = inl v → bk_Put b (fs_Path st) v = inl b' →
  bucket_ok b' ∧ bucket_view b' = <[fs_Path st := st]> (bucket_view b).
Proof.
  intros Hb Hc [Hst Hbs] He Hput. apply bk_Put_law in Hput.
  pose proof (decode_encoded _ _ Hst He) as Hd. split.
  - intros k v'. rewrite Hput. intros [[<- <-]|[_ ?]]%lookup_insert_Some; [eauto|by apply Hb].
  - apply map_eq. intros k. rewrite bucket_view_lookup, Hput, !lookup_insert.
    case_decide; [|by rewrite bucket_view_lookup]. simpl. unfold decoded. by rewrite Hd.
Qed.

Lemma bk_Delete_ok b p b' :
  bucket_ok b → bk_Delete b p = inl b' →
  bucket_ok b' ∧ bucket_view b' = delete p (bucket_view b).
Proof.
  intros Hb Hd%bk_Delete_law. split.
  - intros k v. rewrite Hd. intros [_ ?]%lookup_delete_Some. by apply Hb.
  - apply map_eq. intros k. rewrite bucket_view_lookup, Hd, !lookup_delete.
    case_decide; [done|by rewrite bucket_view_lookup].
Qed.

Lemma lift_inv {W A} (r : A + error) (a : A) (w w' : W) : lift r w = (inl a, w') → r = inl a ∧ w' = w.
Proof. destruct r; simpl; [|done]. intros Heq. inv Heq. done. Qed.

Lemma bind_inv {W A B} (m : M W A) (k : A → M W B) w r w' :
  (m ≫= k) w = (inl r, w') → ∃ a w1, m w = (inl a, w1) ∧ k a w1 = (inl r, w').
Proof. rewrite bind_run. destruct (m w) as [[a|e] w1]; [eauto|done]. Qed.

Lemma foldM_delete_ok {W} (ctx : M W ()) deletes b w b' w' :
  bucket_ok b → foldM (apply_delete ctx) b deletes w = (inl b', w') →
  bucket_ok b' ∧ bucket_view b' = view_deletes (bucket_view b) deletes.
Proof.
  revert b w. induction deletes as [|p ds IH]; intros b w Hb; cbn [foldM].
  { intros Heq. by inv Heq. }
  intros (b1 & w1 & E & E')%bind_inv. apply bind_inv in E as (_ & w2 & _ & [E _]%lift_inv).
  destruct (bk_Delete_ok _ _ _ Hb E) as [Hb1 Hv]. destruct (IH _ _ Hb1 E') as [Hb2 ->].
  split; [done|]. by rewrite Hv.
Qed.

Lemma foldM_put_ok {W} (ctx : M W ()) puts b w b' w' :
  bucket_ok b → Forall (λ st, clean_abs (fs_Path st) ∧ bolt_state_ok st) puts →
  foldM (apply_put ctx) b puts w = (inl b', w') →
  bucket_ok b' ∧ bucket_view b' = view_puts (bucket_view b) puts.
Proof.
  revert b w. induction puts as [|st puts IH]; intros b w Hb Hp; cbn [foldM].
  { intros Heq. by inv Heq. }
  apply Forall_cons in Hp as [[Hc Hst] Hp].
  intros (b1 & w1 & E & E')%bind_inv. apply bind_inv in E as (_ & w2 & _ & E).
  apply bind_inv in E as (v & w3 & [Ev _]%lift_inv & [E _]%lift_inv).
  destruct (bk_Put_ok _ _ _ _ Hb Hc Hst Ev E) as [Hb1 Hv]. destruct (IH _ _ Hb1 Hp E') as [Hb2 ->].
  split; [done|]. by rewrite Hv.
Qed.

Lemma bolt_Apply_ok {W} s (ctx : M W ()) puts deletes w s' w' :
  bolt_ok s → Forall (λ st, clean_abs (fs_Path st) ∧ bolt_state_ok st) puts →
  bolt_Apply s ctx puts deletes w = (inl s', w') →
  bolt_ok s' ∧ bolt_view s' = view_apply (bolt_view s) puts deletes.
Proof.
  intros Hs Hp (_ & w1 & _ & E)%bind_inv. apply bind_inv in E as (db & w2 & [Edb _]%lift_inv & E).
  apply bind_inv in E as (db' & w3 & E & E').
  assert (db = bs_db s) as ->.
  { unfold database in Edb. destruct (bs_closed s); [done|]. by inv Edb. }
  apply db_Update_law in E as (b & (b1 & w4 & E1 & E2)%bind_inv & Eb). inv E'.
  unfold bolt_ok, bolt_view in *. simpl.
  destruct (foldM_delete_ok _ _ _ _ _ _ Hs E1) as [Hb1 Hv1].
  destruct (foldM_put_ok _ _ _ _ _ _ Hb1 Hp E2) as [Hb2 Hv2].
  split; [done|]. by rewrite Hv2, Hv1.
Qed.

(** *** Scoped walks *)

(** The states a cursor walk reaches. *)
Definition reached (prefix : string) (pairs : list (string * json)) : list FileState :=
  omap (λ kv, decoded kv.2) (take_while (λ kv, pathHasPrefix kv.1 prefix) pairs).

Definition decodes (kv : string * json) : Prop := ∃ st, decodeFileState kv.2 = inl st.

Lemma reached_cons prefix k v st rest :
  decodeFileState v = inl st →
  reached prefix ((k, v) :: rest) =
  if pathHasPrefix k prefix then st :: reached prefix rest else [].
Proof.
  intros D. unfold reached. simpl. destruct (pathHasPrefix k prefix); [|done]. simpl.
  unfold decoded at 1. by rewrite D.
Qed.

Lemma walk_cursor_frames {W X} (π : W → X) g (ctx : M W ()) prefix fn pairs w w' :
  Forall decodes pairs → ctx_frames π ctx → fn_updates π g fn →
  walk_cursor ctx prefix fn pairs w = (inl (), w') → π w' = foldl g (π w) (reached prefix pairs).
Proof.
  intros Hd Hc Hf. revert w. induction Hd as [|[k v] pairs [st D] Hd IH]; intros w; cbn [walk_cursor].
  { intros Heq. by inv Heq. }
  intros ([] & w1 & E & E')%bind_inv. rewrite (reached_cons _ _ _ _ _ D).
  assert (π w1 = π w) as <- by (specialize (Hc w); by rewrite E in Hc).
  destruct (pathHasPrefix k prefix); cbn [negb] in E'; [|by inv E'].
  simpl in D. rewrite D in E'. apply bind_inv in E' as (st' & w2 & E1 & E'). cbn in E1. inv E1.
  apply bind_inv in E' as ([] & w3 & E1 & E'). simpl. rewrite (IH _ E'). by rewrite (Hf _ _ _ E1).
Qed.

Lemma walk_cursor_live {W} (ctx : M W ()) prefix fn pairs w :
  Forall decodes pairs → ctx_live ctx →
  walk_cursor ctx prefix fn pairs w = forM (reached prefix pairs) fn w.
Proof.
  intros Hd Hc. revert w. induction Hd as [|[k v] pairs [st D] Hd IH]; intros w; [done|].
  cbn [walk_cursor]. rewrite bind_run, Hc, (reached_cons _ _ _ _ _ D). simpl in D.
  destruct (pathHasPrefix k prefix); cbn [negb]; [|done]. rewrite D, bind_run.
  change (wrapping "decode snapshot" (lift (inl st)) w) with (@inl FileState error st, w).
  cbn [forM]. rewrite !bind_run. destruct (fn st w) as [[[]|e] w1]; [apply IH|done].
Qed.

Lemma Seek_decodes b k : bucket_ok b → Forall decodes (bk_Seek b k).
Proof.
  intros Hb. rewrite bk_Seek_law. apply Forall_fmap, Forall_forall. intros p Hp. simpl.
  apply list_elem_of_filter in Hp as [_ [v Hv]%elem_of_sortedKeys]. unfold decodes. simpl.
  rewrite Hv. simpl. destruct (Hb _ _ Hv) as (_ & _ & st & D & _). eauto.
Qed.

Lemma key_prefix b scope p :
  bucket_ok b → clean_abs scope → is_Some (bk_map b !! p) →
  pathHasPrefix p scope = within scope p.
Proof.
  intros Hb Hs [v Hv]. destruct (Hb _ _ Hv) as (Hp & Hn & _). apply eq_bool_prop_intro.
  rewrite !Is_true_true. abs_path p q. abs_path scope r.
  by rewrite pathHasPrefix_abs, within_abs.
Qed.

(** The keys from the seek position that lie in the scope are all of them. *)
Lemma keys_from_scope b scope :
  bucket_ok b → clean_abs scope →
  filter (λ p, within scope p = true) (filter (String.le scope) (sortedKeys (bk_map b))) =
  sortedKeys (scope_view (bucket_view b) scope).
Proof.
  intros Hb Hs. etrans; [|exact (filter_sortedKeys (λ p, within scope p = true) (bucket_view b))].
  rewrite <-(sortedKeys_dom (bk_map b) (bucket_view b)) by (intros k; by rewrite bucket_view_is_Some).
  rewrite list_filter_filter. apply filter_ext_in. intros p Hp%elem_of_sortedKeys.
  split; [naive_solver|]. intros Hw. split; [done|]. destruct Hp as [v Hv].
  destruct (Hb _ _ Hv) as (Hc & _). by apply within_le.
Qed.

Lemma reached_states b scope :
  bucket_ok b → clean_abs scope →
  reached scope (bk_Seek b scope) =
  (λ p, bucket_view b !!! p) <$>
    take_while (within scope) (filter (String.le scope) (sortedKeys (bk_map b))).
Proof.
  intros Hb Hs. unfold reached. rewrite bk_Seek_law, take_while_fmap.
  rewrite (take_while_ext _ (within scope)).
  2: { intros p [_ Hp%elem_of_sortedKeys]%list_elem_of_filter. simpl. by apply (key_prefix b). }
  assert (Forall (λ p, is_Some (bk_map b !! p))
    (take_while (within scope) (filter (String.le scope) (sortedKeys (bk_map b))))) as Hall.
  { apply Forall_forall. intros p Hp.
    eapply elem_of_prefix in Hp; [|apply take_while_prefix].
    apply list_elem_of_filter in Hp as [_ [_ Hp%elem_of_sortedKeys]%list_elem_of_filter]. done. }
  induction Hall as [|p l [v Hv] Hall IH]; [done|]. simpl. rewrite Hv. simpl.
  destruct (Hb _ _ Hv) as (_ & _ & st & D & _). unfold decoded at 1. rewrite D. simpl. f_equal; [|done].
  rewrite lookup_total_alt, bucket_view_lookup, Hv. simpl. unfold decoded. by rewrite D.
Qed.

(** In every bucket a walk reaches an initial segment of the scope's entries. *)
Lemma reached_prefix b scope :
  bucket_ok b → clean_abs scope →
  reached scope (bk_Seek b scope) `prefix_of` scope_entries (bucket_view b) scope.
Proof.
  intros Hb Hs. rewrite reached_states by done. unfold scope_entries.
  rewrite <-keys_from_scope by done.
  destruct (take_while_prefix (within scope) (filter (String.le scope) (sortedKeys (bk_map b)))) as [k ->].
  rewrite fmap_app. by exists ((λ p, bucket_view b !!! p) <$> k).
Qed.

Lemma reached_all b scope :
  bucket_ok b → clean_abs scope →
  (∀ p, is_Some (bucket_view b !! p) → no_early_sibling scope p) →
  reached scope (bk_Seek b scope) = scope_entries (bucket_view b) scope.
Proof.
  intros Hb Hs Hsib. rewrite reached_states by done. unfold scope_entries.
  rewrite <-keys_from_scope by done. f_equal. apply take_while_filter.
  { apply StronglySorted_filter, (Sorted_StronglySorted _), sort_strings_sorted. }
  intros p q [Hle Hp%elem_of_sortedKeys]%list_elem_of_filter [_ Hq%elem_of_sortedKeys]%list_elem_of_filter Hwp Hwq.
  apply (no_early_sibling_order scope); try done.
  - destruct Hp as [v Hv]. by destruct (Hb _ _ Hv).
  - destruct Hq as [v Hv]. by destruct (Hb _ _ Hv).
  - apply Hsib. by rewrite bucket_view_is_Some.
Qed.

Lemma database_inv (s : BoltStore DB) (db : DB) : database s = inl db → db = bs_db s ∧ bs_closed s = false.
Proof. unfold database. destruct (bs_closed s); [done|]. by intros [= ->]. Qed.

(** An open store; a closed one refuses every operation. *)
Definition bolt_open (s : BoltStore DB) : Prop := bs_closed s = false ∧ bolt_ok s.

Lemma bolt_Apply_closed {W} (s s' : BoltStore DB) (ctx : M W ()) puts deletes w w' :
  bolt_Apply s ctx puts deletes w = (inl s', w') → bs_closed s' = bs_closed s.
Proof.
  intros (_ & w1 & _ & E)%bind_inv. apply bind_inv in E as (db & w2 & _ & E).
  apply bind_inv in E as (db' & w3 & _ & E). by inv E.
Qed.

#[global] Instance BoltStore_laws : SnapshotStoreLaws (BoltStore DB).
Proof.
  refine {| store_view := bolt_view; store_ok := bolt_open; state_ok := bolt_state_ok;
            scope_ok := bolt_scope_ok |}.
  - intros s [_ Hs]. by apply bucket_view_ok.
  - intros W s ctx p r w w' [_ Hs] Hp E.
    apply bind_inv in E as (_ & w1 & _ & E). apply bind_inv in E as (db & w2 & [[-> _]%database_inv _]%lift_inv & E).
    rewrite db_View_law, bk_Get_law in E. unfold bolt_view. rewrite bucket_view_lookup.
    destruct (bk_map _ !! p) as [v|]; [|by inv E].
    apply bind_inv in E as (st & w3 & [E _]%lift_inv & E'). inv E'. simpl. unfold decoded. by rewrite E.
  - intros W s s' ctx st w w' [Hcl Hs] Hc Hst E. apply (mutating_inl (λ s, bolt_Put s ctx st)) in E.
    destruct (bolt_Apply_ok s ctx [st] [] w s' w' Hs) as [H1 H2]; [by apply Forall_singleton|done|].
    split; [|by rewrite H2]. split; [|done].
    by rewrite (bolt_Apply_closed _ _ _ _ _ _ _ E).
  - intros W s s' ctx p w w' [Hcl Hs] Hc E. apply (mutating_inl (λ s, bolt_Delete s ctx p)) in E.
    destruct (bolt_Apply_ok s ctx [] [p] w s' w' Hs) as [H1 H2]; [done..|].
    split; [|by rewrite H2]. split; [|done].
    by rewrite (bolt_Apply_closed _ _ _ _ _ _ _ E).
  - intros W s s' ctx puts deletes w w' [Hcl Hs] _ Hp _ E. apply (mutating_inl (λ s, bolt_Apply s ctx puts deletes)) in E.
    destruct (bolt_Apply_ok s ctx puts deletes w s' w' Hs Hp E) as [H1 H2].
    split; [|done]. split; [|done].
    by rewrite (bolt_Apply_closed _ _ _ _ _ _ _ E).
  - intros W s s' ctx puts deletes e w w' _. apply (mutating_inr (λ s, bolt_Apply s ctx puts deletes)).
  - intros W I s ctx scope fn Hctx Hfn. cbn [store_Walk BoltStore_store]. unfold bolt_WalkScope.
    apply preserves_bind; [done|intros _]. apply preserves_bind; [frame|intros db].
    intros w Hw. rewrite db_View_law. revert w Hw. fold (preserves I (walk_cursor ctx scope fn (bk_Seek (db_Bucket db) scope))).
    induction (bk_Seek (db_Bucket db) scope) as [|[k v] l IH]; cbn [walk_cursor]; frame; done || apply Hfn.
  - intros W X π g s ctx scope fn w w' [Hcl Hs] Hsc Hsib Hctx Hfn E.
    apply bind_inv in E as ([] & w1 & E1 & E).
    apply bind_inv in E as (db & w2 & [[-> _]%database_inv ->]%lift_inv & E).
    rewrite db_View_law in E.
    apply (walk_cursor_frames π g) in E as ->; [|by apply Seek_decodes|done..].
    rewrite (reached_all _ _ Hs Hsc Hsib). specialize (Hctx w). rewrite E1 in Hctx. simpl in Hctx. by rewrite Hctx.
  - intros W s ctx scope fn w [Hcl Hs] Hsc Hsib Hctx. cbn [store_Walk BoltStore_store].
    unfold bolt_WalkScope. rewrite bind_run, Hctx, bind_run. unfold database. rewrite Hcl. cbn.
    rewrite db_View_law. rewrite walk_cursor_live by (done || by apply Seek_decodes).
    by rewrite (reached_all _ _ Hs Hsc Hsib).
Defined.
End laws.

(** ** Histories *)

Section histories.
Context {DB Bk : Type} `{BoltDBLaws DB Bk} {W : Type}.

Definition bolt_step (ctx : M W ()) (s : BoltStore DB) (op : mem_op) : M W (BoltStore DB) :=
  match op with
  | OpPut state => bolt_Put s ctx state
  | OpDelete path => bolt_Delete s ctx path
  | OpApply puts deletes => bolt_Apply s ctx puts deletes
  end.

Definition bolt_run (ctx : M W ()) (s : BoltStore DB) (ops : list mem_op) : M W (BoltStore DB) :=
  foldM (bolt_step ctx) s ops.

(** The operations of a history that can be stored. *)
Definition op_storable (op : mem_op) : Prop :=
  op_ok op ∧ match op with
  | OpPut state => bolt_state_ok state
  | OpDelete _ => True
  | OpApply puts _ => Forall bolt_state_ok puts
  end.

Lemma bolt_step_ok ctx s op w s' w' :
  bolt_open s → op_storable op → bolt_step ctx s op w = (inl s', w') →
  bolt_open s' ∧ bolt_view s' = view_op (bolt_view s) op.
Proof.
  intros [Hcl Hs] [Hok Hst] E.
  assert (∃ puts deletes, bolt_Apply s ctx puts deletes w = (inl s', w') ∧
    Forall (λ st, clean_abs (fs_Path st) ∧ bolt_state_ok st) puts ∧
    view_op (bolt_view s) op = view_apply (bolt_view s) puts deletes) as (puts & deletes & E' & Hp & ->).
  { destruct op as [st|p|puts deletes].
    - exists [st], []. split; [exact E|split; [by apply Forall_singleton|done]].
    - exists [], [p]. split; [exact E|split; [constructor|done]].
    - destruct Hok as [Hok _]. exists puts, deletes. split; [exact E|split; [by apply Forall_and|done]]. }
  destruct (bolt_Apply_ok _ _ _ _ _ _ _ Hs Hp E') as [H1 H2].
  split; [|done]. split; [|done]. by rewrite (bolt_Apply_closed _ _ _ _ _ _ _ E').
Qed.

Lemma bolt_run_ok ctx s ops w s' w' :
  bolt_open s → Forall op_storable ops → bolt_run ctx s ops w = (inl s', w') →
  bolt_open s' ∧ bolt_view s' = foldl view_op (bolt_view s) ops.
Proof.
  intros Hs Ho. revert s w Hs. induction Ho as [|op ops Hop Ho IH]; intros s w Hs; cbn [bolt_run foldM foldl].
  { intros E. by inv E. }
  intros (s1 & w1 & E & E')%bind_inv. destruct (bolt_step_ok _ _ _ _ _ _ Hs Hop E) as [Hs1 Hv].
  destruct (IH _ _ Hs1 E') as [Hs2 ->]. split; [done|]. by rewrite Hv.
Qed.

Lemma bolt_Get_live (s : BoltStore DB) (ctx : M W ()) p w :
  bolt_open s → ctx_live ctx → bolt_Get s ctx p w = (inl (bolt_view s !! p), w).
Proof.
  intros [Hcl Hs] Hc. unfold bolt_Get. rewrite bind_run, Hc, bind_run. unfold database. rewrite Hcl.
  change (lift (inl (bs_db s)) w) with (@inl DB error (bs_db s), w). cbn iota.
  rewrite db_View_law, bk_Get_law. unfold bolt_view. rewrite bucket_view_lookup.
  destruct (bk_map (db_Bucket (bs_db s)) !! p) as [v|] eqn:E; [|done].
  destruct (Hs _ _ E) as (_ & _ & st & D & _). simpl. unfold decoded. by rewrite D.
Qed.

Lemma copy_pairs_map (ctx : M W ()) pairs b w b' w' :
  foldM (copy_pair ctx) b pairs w = (inl b', w') →
  bk_map b' = foldl (λ m kv, <[kv.1 := kv.2]> m) (bk_map b) pairs.
Proof.
  revert b w. induction pairs as [|kv pairs IH]; intros b w; cbn [foldM foldl].
  { intros E. by inv E. }
  intros (b1 & w1 & E & E')%bind_inv. apply bind_inv in E as (_ & w2 & _ & [E%bk_Put_law _]%lift_inv).
  rewrite (IH _ _ E'). by rewrite E.
Qed.

End histories.

(** Inserting the pairs of a map's sorted keys rebuilds the map. *)
Lemma rebuild_map (m : gmap string json) :
  foldl (λ m kv, <[kv.1 := kv.2]> m) ∅ ((λ p, (p, default JNull (m !! p))) <$> sortedKeys m) = m.
Proof.
  assert (∀ ks (acc : gmap string json) p,
    (foldl (λ m kv, <[kv.1 := kv.2]> m) acc ((λ p, (p, default JNull (m !! p))) <$> ks)) !! p =
    if decide (p ∈ ks) then Some (default JNull (m !! p)) else acc !! p) as Hf.
  { induction ks as [|k ks IH]; intros acc p; [done|]. rewrite fmap_cons. cbn [foldl fst snd].
    rewrite IH. destruct (decide (p ∈ ks)); [rewrite decide_True by set_solver; done|].
    rewrite lookup_insert. destruct (decide (k = p)) as [->|]; [rewrite decide_True by set_solver; done|].
    rewrite (decide_False (P := p ∈ k :: ks)) by set_solver. done. }
  apply map_eq. intros p. rewrite Hf. destruct (decide (p ∈ sortedKeys m)) as [Hp|Hp].
  - apply elem_of_sortedKeys in Hp as [v ->]. done.
  - rewrite elem_of_sortedKeys, <-eq_None_not_Some in Hp. by rewrite Hp.
Qed.

(** ** Properties *)

(** C23: the two stores are interchangeable.  After a history of storable
    operations that an initially empty Bolt store accepted, its [Get] and its
    [WalkScope] return what the in-memory store returns after the same history;
    the walk for a scope that no stored path extends with a byte below the
    separator. *)
Theorem bolt_memory_agree {DB Bk W W'} `{BoltDBLaws DB Bk} (ctx : M W ()) (ctx' : M W' ())
    (s0 s : BoltStore DB) (ops : list mem_op) (w w1 : W) (path scope : string)
    (fn : FileState → M W' ()) (w' : W') :
  bolt_open s0 → bolt_view s0 = ∅ → Forall op_storable ops →
  bolt_run ctx s0 ops w = (inl s, w1) → ctx_live ctx' →
  clean_abs scope → (∀ p, is_Some (bolt_view s !! p) → no_early_sibling scope p) →
  let mem := foldl run_op NewMemoryStore ops in
  bolt_Get s ctx' path w' = mem_Get mem ctx' path w' ∧
  bolt_WalkScope s ctx' scope fn w' = mem_WalkScope mem ctx' scope fn w'.
Proof.
  intros Hs0 Hv0 Hops Hrun Hctx Hsc Hsib mem.
  destruct (bolt_run_ok _ _ _ _ _ _ Hs0 Hops Hrun) as [Hs Hv]. rewrite Hv0 in Hv.
  assert (Forall op_ok ops) as Hok by (eapply Forall_impl; [exact Hops|]; by intros op [? _]).
  destruct (run_ops_ok ops NewMemoryStore mem_ok_new Hok) as [Hm Hmv].
  change (ms_entries NewMemoryStore) with (∅ : view) in Hmv. split.
  - rewrite bolt_Get_live by done. unfold mem_Get. rewrite bind_run, Hctx. unfold mem. by rewrite Hmv, Hv.
  - etrans; [exact (store_Walk_live s ctx' scope fn w' Hs Hsc Hsib Hctx)|].
    etrans; [|symmetry; exact (store_Walk_live mem ctx' scope fn w' Hm Hsc I Hctx)].
    change (forM (scope_entries (bolt_view s) scope) fn w' = forM (scope_entries (ms_entries mem) scope) fn w').
    unfold mem. by rewrite Hv, Hmv.
Qed.

Definition demo_bolt : BoltStore MapDB := mkBoltStore (∅ : MapDB) false.

Lemma demo_bolt_open : bolt_open demo_bolt.
Proof.
  split; [done|]. intros k v Hk. change ((∅ : gmap string json) !! k = Some v) in Hk.
  by rewrite lookup_empty in Hk.
Qed.

(** What [demo_bolt] becomes after a history it accepts. *)
Definition demo_after (ops : list mem_op) : BoltStore MapDB :=
  match bolt_run (mret ()) demo_bolt ops () with (inl s, _) => s | _ => demo_bolt end.

Lemma demo_siblings p :
  is_Some (bolt_view (demo_after demo_ops) !! p) → no_early_sibling "/d" p.
Proof.
  assert (sortedKeys (bolt_view (demo_after demo_ops)) = ["/d"; "/d/a.txt"; "/d/a/x"; "/d/b"]) as E
    by (vm_compute; reflexivity).
  rewrite <-elem_of_sortedKeys, E. intros Hp. left.
  assert (Forall (λ p, within "/d" p = true) ["/d"; "/d/a.txt"; "/d/a/x"; "/d/b"]) as Hall by by_decide.
  rewrite Forall_forall in Hall. by apply Hall.
Qed.

Lemma bolt_memory_agree_witness :
  bolt_WalkScope (demo_after demo_ops) (mret ()) "/d" (λ st, modify (λ seen, seen ++ [fs_Path st])) [] =
  mem_WalkScope (foldl run_op NewMemoryStore demo_ops) (mret ()) "/d"
    (λ st, modify (λ seen, seen ++ [fs_Path st])) [].
Proof.
  apply (bolt_memory_agree (mret ()) (mret ()) demo_bolt (demo_after demo_ops) demo_ops () () "/d" "/d").
  - exact demo_bolt_open.
  - vm_compute. reflexivity.
  - repeat (apply Forall_cons; split); [..|apply Forall_nil; exact I]; by_decide.
  - vm_compute. reflexivity.
  - intros ?. reflexivity.
  - by_decide.
  - exact demo_siblings.
Defined.

(** A scoped walk of the Bolt store is sound but can stop early.  Without
    cancellation it calls back, in path order, on an initial segment of the
    entries at or below the scope: no entry outside the scope and none twice. *)
Theorem bolt_walk_initial_segment {DB Bk W} `{BoltDBLaws DB Bk} (s : BoltStore DB)
    (ctx : M W ()) (scope : string) (fn : FileState → M W ()) (w : W) :
  bolt_open s → clean_abs scope → ctx_live ctx →
  ∃ visited, visited `prefix_of` scope_entries (bolt_view s) scope ∧
    bolt_WalkScope s ctx scope fn w = forM visited fn w.
Proof.
  intros [Hcl Hs] Hsc Hctx. exists (reached scope (bk_Seek (db_Bucket (bs_db s)) scope)).
  split; [by apply reached_prefix|]. unfold bolt_WalkScope. rewrite bind_run, Hctx, bind_run.
  unfold database. rewrite Hcl. change (lift (inl (bs_db s)) w) with (@inl DB error (bs_db s), w).
  cbn iota. rewrite db_View_law. apply walk_cursor_live; [by apply Seek_decodes|done].
Qed.

(** A store holding [/d/a], [/d/a.txt] and [/d/a/x]. *)
Definition early_ops : list mem_op :=
  [OpApply [demo_state "/d/a"; demo_state "/d/a.txt"; demo_state "/d/a/x"] []].
Definition early_bolt : BoltStore MapDB := demo_after early_ops.

Lemma early_bolt_open : bolt_open early_bolt.
Proof.
  eapply (bolt_run_ok (mret ()) demo_bolt early_ops () early_bolt ()).
  - exact demo_bolt_open.
  - apply Forall_singleton. by_decide.
  - vm_compute. reflexivity.
Qed.

Lemma bolt_walk_initial_segment_witness :
  ∃ visited, visited `prefix_of` scope_entries (bolt_view early_bolt) "/d/a" ∧
    bolt_WalkScope early_bolt (mret ()) "/d/a" (λ st, modify (λ seen, seen ++ [fs_Path st])) [] =
    forM visited (λ st, modify (λ seen, seen ++ [fs_Path st])) [].
Proof.
  apply (bolt_walk_initial_segment early_bolt); [exact early_bolt_open|by_decide|]. intros ?. reflexivity.
Defined.

(** The early stop loses entries.  In a Bolt store that holds [/d/a],
    [/d/a.txt] and [/d/a/x] the walk of [/d/a] calls back on [/d/a] only; the
    in-memory store with the same entries visits [/d/a/x] as well. *)
Theorem bolt_walk_misses_subtree :
  let visit := λ st : FileState, modify (λ seen : list string, seen ++ [fs_Path st]) in
  (bolt_WalkScope early_bolt (mret ()) "/d/a" visit []).2 = ["/d/a"] ∧
  (mem_WalkScope (foldl run_op NewMemoryStore early_ops) (mret ()) "/d/a" visit []).2 =
    ["/d/a"; "/d/a/x"].
Proof. split; vm_compute; reflexivity. Qed.

(** A replacement that succeeds fills the new bucket from the pairs. *)
Lemma replaceSnapshot_map {DB Bk W} `{BoltDBLaws DB Bk} (s s' : BoltStore DB) (ctx : M W ()) pairs (w w' : W) :
  replaceSnapshot s ctx pairs w = (inl s', w') →
  bk_map (db_Bucket (bs_db s')) = foldl (λ m kv, <[kv.1 := kv.2]> m) ∅ pairs ∧ bs_closed s = false ∧ bs_closed s' = false.
Proof.
  intros (db & w1 & [[-> Hcl]%database_inv ->]%lift_inv & E)%bind_inv.
  apply bind_inv in E as (db' & w2 & E & E'). inv E'. simpl. split; [|done].
  apply db_Update_law in E as (b & E & Eb).
  assert (∃ b0 w3, tx_CreateBucket = inl b0 ∧ foldM (copy_pair ctx) b0 pairs w3 = (inl b, w')) as (b0 & w3 & Hb0 & Hcopy).
  { destruct (tx_DeleteBucket _) as [err|]; [destruct (negb (errors_Is err ErrBucketNotFound)); [done|]|].
    all: apply bind_inv in E as (b0 & w3 & [Hb0 _]%lift_inv & E); eauto. }
  by rewrite Eb, (copy_pairs_map _ _ _ _ _ _ Hcopy), (tx_CreateBucket_law _ Hb0).
Qed.

(** Replacing the snapshot copies the staged bucket exactly: afterwards the
    store's bucket holds the pairs of the source bucket and nothing else. *)
Theorem replaceSnapshot_exact {DB Bk W} `{BoltDBLaws DB Bk} (s s' : BoltStore DB) (ctx : M W ())
    (source : Bk) (w w' : W) :
  replaceSnapshot s ctx (bk_Seek source "") w = (inl s', w') →
  bk_map (db_Bucket (bs_db s')) = bk_map source ∧ bs_closed s = false.
Proof.
  intros (-> & -> & _)%replaceSnapshot_map. split; [|done]. rewrite bk_Seek_law.
  rewrite filter_all by (apply Forall_forall; intros p _; apply le_nil). apply rebuild_map.
Qed.

Lemma replaceSnapshot_exact_witness :
  ∃ s', replaceSnapshot early_bolt (mret ()) (bk_Seek (bs_db early_bolt) "") () = (inl s', ()) ∧
    bk_map (db_Bucket (bs_db s')) = bk_map (bs_db early_bolt).
Proof.
  exists early_bolt. assert (replaceSnapshot early_bolt (mret ()) (bk_Seek (bs_db early_bolt) "") () =
    (inl early_bolt, ())) as E by (vm_compute; reflexivity).
  split; [exact E|].
  apply (replaceSnapshot_exact early_bolt early_bolt (mret ()) (bs_db early_bolt) () ()). exact E.
Defined.

(** C32: the snapshot codec is lossless.  A state whose strings are UTF-8 and whose
    time has a four-digit year is encoded, and decoding gives it back; a document
    of another schema is refused. *)
Theorem snapshot_codec (state : FileState) (path id : string) (type size time mode schema : Z) :
  storable state → (0 ≤ schema ≤ 255)%Z → schema ≠ 1%Z →
  (∃ d, encodeFileState state = inl d ∧ decodeFileState d = inl state) ∧
  ∀ d, marshal_stored (mkStored path id type size time mode schema) = inl d →
    ∃ e, decodeFileState d = inr e.
Proof.
  intros Hs Hr Hsc. split; [by apply encode_decode|]. intros d.
  unfold marshal_stored, time_MarshalJSON. simpl. case_decide; [|done]. intros [= <-].
  unfold decodeFileState. destruct (unmarshal_stored _ _) as [st|e] eqn:E; [|by eexists].
  cbn [ebind]. rewrite decide_True; [by eexists|]. revert E. unfold unmarshal_stored, JText.
  destruct (decide (id = "")); intros E; decoded; injection E as <-; cbn [sf_Schema];
    rewrite (get_one read_uint8 _ _ "schema" (JNumber schema) schema) in * by (done || by apply read_number_in); congruence.
Qed.

Lemma snapshot_codec_witness :
  let state := mkFileState "/data/é" (newFileID "1:2") FileTypeRegular 7 1700000000000000000 420 in
  storable state ∧ ∃ d, encodeFileState state = inl d ∧ decodeFileState d = inl state.
Proof.
  split; [by_decide|].
  apply (snapshot_codec (mkFileState "/data/é" (newFileID "1:2") FileTypeRegular 7 1700000000000000000 420)
    "" "" 0 0 0 0 2); [by_decide|lia|lia].
Defined.

(** A file name that is not UTF-8 does not survive the store: [/d/<0xFF>] is
    encoded without an error and read back under another path. *)
Theorem invalid_utf8_path_lost :
  let state := demo_state ("/d/" +:+ String "255" "") in
  ∃ d st, encodeFileState state = inl d ∧ decodeFileState d = inl st ∧ fs_Path st ≠ fs_Path state.
Proof. do 2 eexists. split; [vm_compute; reflexivity|split; [vm_compute; reflexivity|]]. by vm_compute. Qed.
