(* ===== verification/Scanner.v ===== *)
(** * The scanner: internal/scanner (Linux and macOS identities)

    The file system is a parameter: [FileSystem] names the calls of the [os]
    package the scanner makes, as actions on a world [W] that can change between
    calls.  A directory handle is explicit: [ReadDir] returns the next batch of
    names, the read error ([EOF] at the end) and the advanced handle.  [walkDir]
    takes fuel, one unit per directory and per batch; [None] means the fuel ran
    out.  [TreeFS] is a file system that does not change, for which the scan is
    shown to finish and to emit what the tree holds. *)

From Stdlib Require Import Ascii.
From S2P Require Import Prelude Frame GoPath Types Store.

#[local] Set Warnings "-register-all".

(** ** Identities *)

Record FileInfo : Type := mkInfo {
  fi_Mode : Z;
  fi_Size : Z;
  fi_ModTime : Z;
  (** [info.Sys()] as a [*syscall.Stat_t]: device, inode and link count. *)
  fi_Sys : option (Z * Z * Z)
}.

Definition hex_digit (d : Z) : ascii :=
  if decide (d < 10)%Z then ascii_of_N (Z.to_N (48 + d)) else ascii_of_N (Z.to_N (87 + d)).

(** [fmt.Sprintf("%x", z)] of a [uint64]: at most sixteen digits. *)
Fixpoint hex_go (fuel : nat) (z : Z) (acc : string) : string :=
  match fuel with
  | 0 => acc
  | S fuel' =>
      let acc := String (hex_digit (z `mod` 16)) acc in
      if decide (z `div` 16 = 0)%Z then acc else hex_go fuel' (z `div` 16) acc
  end.
Definition hex (z : Z) : string := hex_go 16 z "".

Definition fileIdentity (info : FileInfo) : (string * Z) + error :=
  match fi_Sys info with
  | None => inl ("", 0%Z)
  | Some (dev, ino, nlink) => inl (hex (u64 dev) +:+ ":" +:+ hex (u64 ino), u64 nlink)
  end.

(** ** Entries *)

Record Entry : Type := mkEntry {
  en_Path : string;
  en_Identity : string;
  en_Type : Z;
  en_Size : Z;
  en_ModTime : Z;
  en_Mode : Z;
  en_Links : Z
}.

Definition makeEntry (path : string) (info : FileInfo) : Entry + error :=
  match fileIdentity info with
  | inr err => inr err
  | inl (id, links) =>
      inl (mkEntry path id (Z.land (fi_Mode info) ModeType) (fi_Size info) (fi_ModTime info)
             (fi_Mode info) links)
  end.

(** The policies of the scanner package have the values of config.go. *)
Definition scannerPolicy (policy : Z) : Z :=
  if decide (policy = IgnoreSymlinks) then IgnoreSymlinks
  else if decide (policy = ReportSymlinks) then ReportSymlinks
  else if decide (policy = FollowSymlinks) then FollowSymlinks
  else if decide (policy = RejectSymlinks) then RejectSymlinks
  else IgnoreSymlinks.

(** [stateFromEntry] of tracker.go. *)
Definition stateFromEntry (entry : Entry) : FileState :=
  mkFileState (en_Path entry) (newFileID (en_Identity entry)) (fileType (en_Mode entry))
    (en_Size entry) (en_ModTime entry) (en_Mode entry).

Record Scanner : Type := mkScanner {
  sn_Recursive : bool;
  sn_SymlinkPolicy : Z;
  sn_Filter : option (Entry → bool)
}.

Definition filtered (s : Scanner) (entry : Entry) : bool :=
  match sn_Filter s with Some f => negb (f entry) | None => false end.

Definition directoryBatchSize : nat := 1024.

(** [io.EOF]. *)
Definition EOF : error := errors_New "EOF".

(** The [os] calls of the scanner. *)
Class FileSystem (W H : Type) : Type := {
  os_Lstat : string → M W FileInfo;
  os_Stat : string → M W FileInfo;
  os_Open : string → M W H;
  h_ReadDir : H → nat → M W (list string * option error * H)
}.

(** ** Scanning *)

Section scan.
Context {W H : Type} `{FileSystem W H} (s : Scanner) (ctx : M W ()) (fn : Entry → M W ()).

(** The map [seen] is shared by the whole scan: [None] when the policy does not
    follow links. *)
Abbreviation seen_t := (option (gset string)).

(** The outcome of the symlink switch of [walkDir] and of the [Stat] after it:
    [None] skips the entry. *)
Definition resolveLink (path : string) (info : FileInfo) : M W (option FileInfo) :=
  if negb (mode_IsSymlink (fi_Mode info)) then mret (Some info)
  else if decide (sn_SymlinkPolicy s = IgnoreSymlinks) then mret None
  else if decide (sn_SymlinkPolicy s = RejectSymlinks) then
    throw (Wrapf "scan" (Sentinel ScannerErrSymlink))
  else if decide (sn_SymlinkPolicy s = FollowSymlinks) then
    r ← try (os_Stat path);
    match r with
    | inl target => mret (Some target)
    | inr err => if errors_Is err ErrNotExist then mret None else throw err
    end
  else mret (Some info).

(** One iteration of the loop over the names of a batch; [walk] is the recursive
    call. *)
Definition visitEntry (walk : string → seen_t → M W (option seen_t)) (dir name : string)
    (seen : seen_t) : M W (option seen_t) :=
  ctx ;;
  let path := Join dir name in
  r ← try (os_Lstat path);
  match r with
  | inr err => if errors_Is err ErrNotExist then mret (Some seen) else throw err
  | inl info =>
      resolved ← resolveLink path info;
      match resolved with
      | None => mret (Some seen)
      | Some info =>
          entry ← lift (makeEntry path info);
          if filtered s entry then mret (Some seen)
          else
            fn entry ;;
            if negb (sn_Recursive s) || negb (mode_IsDir (fi_Mode info)) then mret (Some seen)
            else match seen with
                 | None => walk path None
                 | Some ids =>
                     if decide (en_Identity entry = "") then walk path seen
                     else if decide (en_Identity entry ∈ ids) then mret (Some seen)
                     else walk path (Some ({[en_Identity entry]} ∪ ids))
                 end
      end
  end.

Fixpoint visitEntries (walk : string → seen_t → M W (option seen_t)) (dir : string)
    (names : list string) (seen : seen_t) : M W (option seen_t) :=
  match names with
  | [] => mret (Some seen)
  | name :: names' =>
      r ← visitEntry walk dir name seen;
      match r with
      | None => mret None
      | Some seen' => visitEntries walk dir names' seen'
      end
  end.

Fixpoint walkDir (fuel : nat) (dir : string) (seen : seen_t) : M W (option seen_t) :=
  match fuel with
  | 0 => mret None
  | S fuel' =>
      ctx ;;
      directory ← os_Open dir;
      walkBatches fuel' dir directory seen
  end
(** The [for] loop over the batches of an open directory. *)
with walkBatches (fuel : nat) (dir : string) (directory : H) (seen : seen_t) : M W (option seen_t) :=
  match fuel with
  | 0 => mret None
  | S fuel' =>
      '(names, readErr, directory') ← h_ReadDir directory directoryBatchSize;
      r ← visitEntries (walkDir fuel') dir names seen;
      match r with
      | None => mret None
      | Some seen' =>
          match readErr with
          | Some err => if decide (err = EOF) then mret (Some seen') else throw err
          | None => walkBatches fuel' dir directory' seen'
          end
      end
  end.

Definition emit (path : string) (info : FileInfo) : M W () :=
  ctx ;;
  entry ← lift (makeEntry path info);
  if filtered s entry then mret () else fn entry.

(** The part of [Scan] after the root's symlink switch. *)
Definition scanResolved (fuel : nat) (root : string) (info : FileInfo) : M W (option ()) :=
  if negb (mode_IsDir (fi_Mode info)) then emit root info ;; mret (Some ())
  else
    let seen := if decide (sn_SymlinkPolicy s = FollowSymlinks) then
                  match fileIdentity info with
                  | inl (id, _) => Some (if decide (id = "") then ∅ else {[id]})
                  | inr _ => Some ∅
                  end
                else None in
    r ← walkDir fuel root seen;
    mret (match r with None => None | Some _ => Some () end).

Definition Scan (fuel : nat) (root : string) : M W (option ()) :=
  let root := Clean root in
  info ← os_Lstat root;
  if mode_IsSymlink (fi_Mode info) then
    if decide (sn_SymlinkPolicy s = IgnoreSymlinks) then mret (Some ())
    else if decide (sn_SymlinkPolicy s = RejectSymlinks) then
      throw (Wrapf "scan" (Sentinel ScannerErrSymlink))
    else if decide (sn_SymlinkPolicy s = ReportSymlinks) then emit root info ;; mret (Some ())
    else if decide (sn_SymlinkPolicy s = FollowSymlinks) then
      info ← os_Stat root; scanResolved fuel root info
    else scanResolved fuel root info
  else scanResolved fuel root info.
End scan.

(** ** A file system that does not change *)

Inductive tree : Type :=
  | TFile (info : FileInfo)
  | TDir (info : FileInfo) (children : list (string * tree)).

Definition tree_info (t : tree) : FileInfo :=
  match t with TFile i => i | TDir i _ => i end.
Definition tree_children (t : tree) : list (string * tree) :=
  match t with TFile _ => [] | TDir _ ch => ch end.

Fixpoint child (ch : list (string * tree)) (name : string) : option tree :=
  match ch with
  | [] => None
  | (n, t) :: rest => if decide (n = name) then Some t else child rest name
  end.

Fixpoint find (t : tree) (cs : list string) : option tree :=
  match cs with
  | [] => Some t
  | c :: cs' => match child (tree_children t) c with Some t' => find t' cs' | None => None end
  end.

Fixpoint tree_size (t : tree) : nat :=
  match t with
  | TFile _ => 1
  | TDir _ ch => S (sum_list ((λ c, S (tree_size c.2)) <$> ch))
  end.

(** The fuel a scan of the directory needs. *)
Definition need (t : tree) : nat := 2 * tree_size t.

(** Directories have directory modes, leaves do not, and the names of a directory
    are distinct path components. *)
Inductive tree_wf : tree → Prop :=
  | wf_file i : mode_IsDir (fi_Mode i) = false → tree_wf (TFile i)
  | wf_dir i ch :
      mode_IsDir (fi_Mode i) = true → mode_IsSymlink (fi_Mode i) = false →
      Forall good ch.*1 → NoDup ch.*1 → Forall (λ c, tree_wf c.2) ch → tree_wf (TDir i ch).

(** The file system of a tree mounted at the root.  Its links dangle. *)
Section tree_fs.
Context {W : Type} (fs : tree).

Definition tree_Lstat (path : string) : M W FileInfo :=
  match find fs (comps path) with
  | Some t => mret (tree_info t)
  | None => throw (Sentinel ErrNotExist)
  end.
Definition tree_Stat (path : string) : M W FileInfo :=
  match find fs (comps path) with
  | Some t => if mode_IsSymlink (fi_Mode (tree_info t)) then throw (Sentinel ErrNotExist)
              else mret (tree_info t)
  | None => throw (Sentinel ErrNotExist)
  end.
Definition tree_Open (path : string) : M W (list string) :=
  match find fs (comps path) with
  | Some (TDir _ ch) => mret ch.*1
  | Some (TFile _) => throw (errors_New "not a directory")
  | None => throw (Sentinel ErrNotExist)
  end.
Definition tree_ReadDir (names : list string) (n : nat) :
    M W (list string * option error * list string) :=
  match names with
  | [] => mret ([], Some EOF, [])
  | _ => mret (take n names, None, drop n names)
  end.

Definition TreeFS : FileSystem W (list string) := {|
  os_Lstat := tree_Lstat; os_Stat := tree_Stat; os_Open := tree_Open; h_ReadDir := tree_ReadDir |}.

(** A file system that answers as the tree, in whatever world it runs. *)
Record behaves_as (FS : FileSystem W (list string)) : Prop := {
  ba_Lstat p w : os_Lstat p w = tree_Lstat p w;
  ba_Open p w : os_Open p w = tree_Open p w;
  ba_ReadDir h n w : h_ReadDir h n w = tree_ReadDir h n w
}.

Lemma TreeFS_behaves : behaves_as TreeFS.
Proof. done. Qed.
End tree_fs.
Arguments behaves_as {_} _ _.

(** ** What a scan emits *)

Definition entry_of (path : string) (info : FileInfo) : Entry :=
  match makeEntry path info with
  | inl e => e
  | inr _ => mkEntry path "" 0 0 0 0 0
  end.

(** The entries below a directory: each child that the policy and the filter
    admit, followed by the entries below it. *)
Fixpoint scan_spec (s : Scanner) (dir : string) (t : tree) : list Entry :=
  match t with
  | TFile _ => []
  | TDir _ ch =>
      concat ((λ '(name, c),
        let path := Join dir name in
        let entry := entry_of path (tree_info c) in
        if mode_IsSymlink (fi_Mode (tree_info c)) && bool_decide (sn_SymlinkPolicy s = IgnoreSymlinks)
        then []
        else if filtered s entry then []
        else entry :: (if sn_Recursive s then scan_spec s path c else [])) <$> ch)
  end.

(** ** Lemmas *)

Lemma child_size_length (ch : list (string * tree)) c :
  c ∈ ch → tree_size c.2 + length ch ≤ sum_list ((λ c, S (tree_size c.2)) <$> ch).
Proof.
  assert (∀ l : list (string * tree), length l ≤ sum_list ((λ c, S (tree_size c.2)) <$> l)) as Hl.
  { induction l as [|x l IH]; [done|]. rewrite fmap_cons. cbn [length sum_list_with]. unfold id in *. lia. }
  induction ch as [|c' ch IH]; intros Hc; [by apply not_elem_of_nil in Hc|].
  rewrite fmap_cons. cbn [length sum_list_with]. unfold id in *.
  apply elem_of_cons in Hc as [->|Hc]; [specialize (Hl ch); lia|specialize (IH Hc); lia].
Qed.

Lemma tree_ind' (P : tree → Prop) :
  (∀ i, P (TFile i)) → (∀ i ch, (∀ c, c ∈ ch → P c.2) → P (TDir i ch)) → ∀ t, P t.
Proof.
  intros Hf Hd t. remember (tree_size t) as k eqn:Hk. revert t Hk.
  induction (lt_wf k) as [k _ IH]. intros [i|i ch] ->; [apply Hf|]. apply Hd. intros c Hc.
  eapply (IH (tree_size c.2)); [|done].
  pose proof (child_size_length ch c Hc). cbn [tree_size]. lia.
Qed.

Lemma child_lookup ch name c : NoDup ch.*1 → (name, c) ∈ ch → child ch name = Some c.
Proof.
  induction ch as [|[n t] ch IH]; intros Hnd Hin; [by apply not_elem_of_nil in Hin|].
  cbn in Hnd. apply NoDup_cons in Hnd as [Hn Hnd]. simpl.
  apply elem_of_cons in Hin as [[= <- <-]|Hin]; [by rewrite decide_True|].
  rewrite decide_False; [by apply IH|]. intros ->. apply Hn. apply list_elem_of_fmap. by exists (name, c).
Qed.

Lemma find_app t cs ds : find t (cs ++ ds) = find t cs ≫= λ t', find t' ds.
Proof. revert t. induction cs as [|c cs IH]; intros t; simpl; [done|]. destruct (child _ c); [apply IH|done]. Qed.

Lemma makeEntry_ok path info : makeEntry path info = inl (entry_of path info).
Proof.
  unfold entry_of, makeEntry, fileIdentity. by destruct (fi_Sys info) as [[[dev ino] nlink]|].
Qed.

Lemma forM_bind_app {W A B} (l1 l2 : list A) (f : A → M W ()) (k : M W B) w :
  ((forM (l1 ++ l2) f) ;; k) w = ((forM l1 f) ;; ((forM l2 f) ;; k)) w.
Proof.
  rewrite bind_run, forM_app, !bind_run. destruct (forM l1 f w) as [[[]|e] w1]; [|done].
  by rewrite !bind_run.
Qed.

Section tree_scan.
Context {W : Type} (fs : tree) (s : Scanner) (ctx : M W ()) (fn : Entry → M W ()).
Context (Hctx : ctx_live ctx).
Context (FS : FileSystem W (list string)) (Hfs : behaves_as fs FS).
Context (Hpolicy : sn_SymlinkPolicy s = IgnoreSymlinks ∨ sn_SymlinkPolicy s = ReportSymlinks).

Abbreviation walkDirT := (@walkDir W (list string) FS s ctx fn).
Abbreviation walkBatchesT := (@walkBatches W (list string) FS s ctx fn).
Abbreviation visitEntryT := (@visitEntry W (list string) FS s ctx fn).
Abbreviation visitEntriesT := (@visitEntries W (list string) FS s ctx fn).

Definition child_spec (dir : string) (nc : string * tree) : list Entry :=
  let '(name, c) := nc in
  let path := Join dir name in
  let entry := entry_of path (tree_info c) in
  if mode_IsSymlink (fi_Mode (tree_info c)) && bool_decide (sn_SymlinkPolicy s = IgnoreSymlinks)
  then []
  else if filtered s entry then []
  else entry :: (if sn_Recursive s then scan_spec s path c else []).

Lemma scan_spec_dir dir i ch : scan_spec s dir (TDir i ch) = concat (child_spec dir <$> ch).
Proof. done. Qed.

(** What [resolveLink] makes of a child under the two policies. *)
Lemma resolveLink_tree path info w :
  @resolveLink W (list string) FS s path info w =
  (inl (if mode_IsSymlink (fi_Mode info) && bool_decide (sn_SymlinkPolicy s = IgnoreSymlinks)
        then None else Some info), w).
Proof.
  unfold resolveLink. destruct (mode_IsSymlink (fi_Mode info)); cbn [negb andb]; [|done].
  destruct Hpolicy as [->| ->]; done.
Qed.

Lemma visitEntry_tree (walk : string → option (gset string) → M W (option (option (gset string))))
    cs t name c w :
  find fs cs = Some t → child (tree_children t) name = Some c →
  Forall good cs → good name → tree_wf c →
  (∀ w', sn_Recursive s = true → mode_IsDir (fi_Mode (tree_info c)) = true →
    walk (abs (cs ++ [name])) None w' =
    (forM (scan_spec s (abs (cs ++ [name])) c) fn ;; mret (Some None)) w') →
  visitEntryT walk (abs cs) name None w =
  (forM (child_spec (abs cs) (name, c)) fn ;; mret (Some None)) w.
Proof.
  intros Hf Hc Hg Hn Hwf Hwalk. unfold visitEntry, child_spec. rewrite bind_run, Hctx.
  rewrite Join_abs by done. cbv zeta. rewrite bind_run. unfold try. rewrite (ba_Lstat _ _ Hfs). unfold tree_Lstat.
  rewrite comps_abs by (apply Forall_app_2; [done|by constructor]).
  rewrite find_app, Hf. simpl. rewrite Hc. simpl.
  rewrite bind_run, resolveLink_tree.
  destruct (mode_IsSymlink _ && bool_decide _) eqn:Hl; [done|].
  rewrite bind_run, makeEntry_ok. simpl. destruct (filtered s _) eqn:Hfi; [done|].
  rewrite !bind_run. cbn [forM]. rewrite bind_run.
  destruct (fn _ w) as [[[]|e] w1]; [|done].
  destruct (sn_Recursive s) eqn:Hr; cbn [negb orb]; [|done].
  destruct (mode_IsDir (fi_Mode (tree_info c))) eqn:Hd; cbn [negb].
  - rewrite Hwalk by done. by rewrite bind_run.
  - inv Hwf; [done|]. simpl in Hd. congruence.
Qed.

(** A recursive walk that does what it should for the children of a directory. *)
Definition walks_children (cs : list string) (ch : list (string * tree)) (k : nat) : Prop :=
  ∀ name c fuel w, (name, c) ∈ ch → k ≤ fuel → mode_IsDir (fi_Mode (tree_info c)) = true →
    walkDirT fuel (abs (cs ++ [name])) None w =
    (forM (scan_spec s (abs (cs ++ [name])) c) fn ;; mret (Some None)) w.

Section directory.
Context (cs : list string) (i : FileInfo) (ch : list (string * tree)) (k : nat).
Context (Hfind : find fs cs = Some (TDir i ch)) (Hcs : Forall good cs).
Context (Hwf : tree_wf (TDir i ch)) (Hwalk : walks_children cs ch k).

Lemma visitEntries_tree sub fuel w :
  sub ⊆ ch → k ≤ fuel →
  visitEntriesT (walkDirT fuel) (abs cs) sub.*1 None w =
  (forM (concat (child_spec (abs cs) <$> sub)) fn ;; mret (Some None)) w.
Proof.
  intros Hsub Hk. revert w. induction sub as [|[name c] sub IH]; intros w; [done|].
  rewrite !fmap_cons. cbn [fst visitEntries concat]. rewrite bind_run, forM_bind_app.
  assert ((name, c) ∈ ch) as Hin by (apply Hsub; left).
  inversion Hwf as [|? ? _ _ Hgood Hnd Hcwf]; subst.
  rewrite (visitEntry_tree _ cs (TDir i ch) name c); [|done|by apply child_lookup|done|..].
  - rewrite !bind_run. destruct (forM (child_spec _ _) fn w) as [[[]|e] w1]; [|done].
    cbn [mret M_ret]. rewrite IH; [by rewrite bind_run|]. intros x Hx. apply Hsub. by right.
  - rewrite Forall_forall in Hgood. apply Hgood, list_elem_of_fmap. by exists (name, c).
  - rewrite Forall_forall in Hcwf. by apply (Hcwf (name, c)).
  - intros w' _ Hd. by apply Hwalk.
Qed.

Lemma walkBatches_tree fuel sub w :
  sub ⊆ ch → length sub + 1 + k ≤ fuel →
  walkBatchesT fuel (abs cs) sub.*1 None w =
  (forM (concat (child_spec (abs cs) <$> sub)) fn ;; mret (Some None)) w.
Proof.
  revert sub w. induction fuel as [|fuel IH]; intros sub w Hsub Hf; [lia|].
  cbn [walkBatches]. rewrite bind_run, (ba_ReadDir _ _ Hfs). unfold tree_ReadDir.
  destruct sub as [|nc sub]; [done|].
  destruct ((nc :: sub).*1) as [|n ns] eqn:E; [done|]. rewrite <-E. cbn [mret M_ret].
  rewrite <-fmap_take, <-fmap_drop, bind_run.
  rewrite visitEntries_tree; [|by etrans; [apply subseteq_take|]|lia].
  replace (concat (child_spec (abs cs) <$> nc :: sub))
    with (concat (child_spec (abs cs) <$> take directoryBatchSize (nc :: sub)) ++
          concat (child_spec (abs cs) <$> drop directoryBatchSize (nc :: sub)))
    by (by rewrite <-concat_app, <-fmap_app, take_drop).
  rewrite forM_bind_app, !bind_run.
  destruct (forM _ fn w) as [[[]|e] w1]; [|done]. cbn [mret M_ret].
  rewrite IH; [by rewrite bind_run|by etrans; [apply subseteq_drop|]|].
  rewrite length_drop. simpl in *. lia.
Qed.
End directory.

Lemma walkDir_tree t cs fuel w :
  tree_wf t → find fs cs = Some t → Forall good cs → mode_IsDir (fi_Mode (tree_info t)) = true →
  need t ≤ fuel →
  walkDirT fuel (abs cs) None w = (forM (scan_spec s (abs cs) t) fn ;; mret (Some None)) w.
Proof.
  revert cs fuel w. induction t as [i|i ch IH] using tree_ind'; intros cs fuel w Hwf Hf Hcs Hd Hn.
  { inversion Hwf as [? Hm|]; subst. cbn [tree_info] in Hd. congruence. }
  unfold need in Hn. cbn [tree_size] in Hn. destruct fuel as [|fuel]; [lia|].
  cbn [walkDir]. rewrite bind_run, Hctx, bind_run, (ba_Open _ _ Hfs). unfold tree_Open.
  rewrite comps_abs, Hf by done. cbn [mret M_ret]. rewrite scan_spec_dir.
  set (sum := sum_list ((λ c : string * tree, S (tree_size c.2)) <$> ch)) in *.
  apply (walkBatches_tree cs i ch (2 * sum - length ch)); [done..| |done|].
  - intros name c fuel' w' Hin Hk Hdir. inversion Hwf as [|? ? _ _ Hgood Hnd Hcwf]; subst.
    rewrite Forall_forall in Hgood. rewrite Forall_forall in Hcwf.
    assert (good name) by (apply Hgood, list_elem_of_fmap; by exists (name, c)).
    pose proof (child_size_length ch (name, c) Hin) as Hsz. cbn [snd] in Hsz. fold sum in Hsz.
    apply (IH (name, c) Hin); [by apply (Hcwf (name, c))| |by apply Forall_app_2; [|constructor]|done|].
    + rewrite find_app, Hf. cbn. by rewrite (child_lookup ch name c).
    + unfold need. cbn [snd]. lia.
  - assert (length ch ≤ sum); [|lia]. destruct ch as [|c ch']; [simpl; lia|].
    pose proof (child_size_length (c :: ch') c ltac:(left)) as Hsz. fold sum in Hsz. lia.
Qed.

Lemma Scan_tree cs t fuel w :
  tree_wf t → find fs cs = Some t → Forall good cs → mode_IsDir (fi_Mode (tree_info t)) = true →
  need t ≤ fuel →
  @Scan W (list string) FS s ctx fn fuel (abs cs) w =
  (forM (scan_spec s (abs cs) t) fn ;; mret (Some ())) w.
Proof.
  intros Hwf Hf Hcs Hd Hn. unfold Scan. rewrite Clean_abs by done. rewrite bind_run.
  rewrite (ba_Lstat _ _ Hfs). unfold tree_Lstat. rewrite comps_abs, Hf by done. cbn [mret M_ret].
  assert (mode_IsSymlink (fi_Mode (tree_info t)) = false) as ->.
  { inversion Hwf as [? Hm|? ? _ Hs]; subst; [cbn [tree_info] in Hd; congruence|done]. }
  unfold scanResolved. rewrite Hd. cbn [negb].
  rewrite decide_False by (destruct Hpolicy as [->| ->]; done).
  rewrite bind_run, (walkDir_tree t) by done. rewrite !bind_run. by destruct (forM _ fn w) as [[[]|e] w1].
Qed.
End tree_scan.

(** ** Invariants through a scan of any file system *)

Section frame.
Context {W H : Type} `{FileSystem W H} (s : Scanner) (ctx : M W ()) (fn : Entry → M W ()).
Context (I E : W → Prop).

(** What a scan needs of its parts: the calls of the file system and the context
    keep the invariant [I]; the callback keeps it on every clean absolute path, and
    a failing one may leave [E]. *)
Record scan_frame : Prop := {
  fr_weaken w : I w → E w;
  fr_ctx : preserves I ctx;
  fr_Lstat p : preserves I (os_Lstat p);
  fr_Stat p : preserves I (os_Stat p);
  fr_Open p : preserves I (os_Open p);
  fr_ReadDir h n : preserves I (h_ReadDir h n);
  fr_fn e : clean_abs (en_Path e) → keeps I E (fn e)
}.

Context (Hfr : scan_frame).

(** Everything but the callback keeps the invariant. *)
Lemma keeps_frame {A} (m : M W A) : preserves I m → keeps I E m.
Proof. apply keeps_preserves, Hfr. Qed.

Lemma entry_path p info e : makeEntry p info = inl e → en_Path e = p.
Proof.
  unfold makeEntry. destruct (fileIdentity info) as [[id links]|err]; [|done]. by intros [= <-].
Qed.

Lemma Join_clean dir name : clean_abs dir → clean_abs (Join dir name).
Proof.
  intros [Ha _]. destruct dir as [|c dir]; [done|]. unfold Join. rewrite decide_False by done.
  by apply clean_abs_Clean.
Qed.

Lemma resolveLink_preserves path info : preserves I (resolveLink s path info).
Proof. unfold resolveLink. frame. by apply fr_Stat. Qed.

Lemma keeps_entry {A} path info (k : Entry → M W A) :
  clean_abs path → (∀ e, clean_abs (en_Path e) → keeps I E (k e)) →
  keeps I E (lift (makeEntry path info) ≫= k).
Proof.
  intros Hp Hk w Hw. rewrite bind_run. destruct (makeEntry path info) as [e|err] eqn:Ee; [|by apply Hfr].
  apply Hk; [|done]. by rewrite (entry_path _ _ _ Ee).
Qed.

Lemma visitEntry_keeps walk dir name seen :
  clean_abs dir → (∀ p sn, clean_abs p → keeps I E (walk p sn)) →
  keeps I E (visitEntry s ctx fn walk dir name seen).
Proof.
  intros Hd Hwalk. pose proof (Join_clean dir name Hd) as Hj. unfold visitEntry.
  apply keeps_bind; [apply keeps_frame; by apply fr_ctx|intros _].
  apply keeps_bind; [apply keeps_frame; frame; by apply fr_Lstat|intros r].
  destruct r as [info|err]; [|apply keeps_frame; frame].
  apply keeps_bind; [apply keeps_frame, resolveLink_preserves|intros [info'|]]; [|apply keeps_ret].
  apply keeps_entry; [done|]. intros e He. apply keeps_if; [apply keeps_ret|].
  apply keeps_bind; [by apply fr_fn|intros _]. apply keeps_if; [apply keeps_ret|].
  destruct seen as [ids|]; [|by apply Hwalk]. repeat case_decide; first [apply keeps_ret|by apply Hwalk].
Qed.

Lemma visitEntries_keeps walk dir names seen :
  clean_abs dir → (∀ p sn, clean_abs p → keeps I E (walk p sn)) →
  keeps I E (visitEntries s ctx fn walk dir names seen).
Proof.
  intros Hd Hwalk. revert seen. induction names as [|name names IH]; intros seen; cbn [visitEntries]; [apply keeps_ret|].
  apply keeps_bind; [by apply visitEntry_keeps|]. intros [sn|]; [apply IH|apply keeps_ret].
Qed.

Lemma walkDir_keeps fuel :
  (∀ dir seen, clean_abs dir → keeps I E (walkDir s ctx fn fuel dir seen)) ∧
  (∀ dir h seen, clean_abs dir → keeps I E (walkBatches s ctx fn fuel dir h seen)).
Proof.
  induction fuel as [fuel IH] using lt_wf_ind. destruct fuel as [|fuel]; [split; intros; apply keeps_ret|].
  destruct (IH fuel ltac:(lia)) as [IHd IHb]. split.
  - intros dir seen Hd. cbn [walkDir]. apply keeps_bind; [apply keeps_frame; by apply fr_ctx|intros _].
    apply keeps_bind; [apply keeps_frame; by apply fr_Open|intros h]. by apply IHb.
  - intros dir h seen Hd. cbn [walkBatches].
    apply keeps_bind; [apply keeps_frame; by apply fr_ReadDir|intros [[names err] h']].
    apply keeps_bind; [apply visitEntries_keeps; [done|]; intros; by apply IHd|].
    intros [sn|]; [|apply keeps_ret]. destruct err as [e|]; [apply keeps_frame; frame|by apply IHb].
Qed.

Lemma emit_keeps path info : clean_abs path → keeps I E (emit s ctx fn path info).
Proof.
  intros Hp. unfold emit. apply keeps_bind; [apply keeps_frame; by apply fr_ctx|intros _].
  apply keeps_entry; [done|]. intros e He. apply keeps_if; [apply keeps_ret|by apply fr_fn].
Qed.

Lemma Scan_keeps fuel root : IsAbs root = true → keeps I E (Scan s ctx fn fuel root).
Proof.
  intros Hr. pose proof (clean_abs_Clean root Hr) as Hc. unfold Scan.
  apply keeps_bind; [apply keeps_frame; by apply fr_Lstat|intros info].
  assert (∀ info, keeps I E (scanResolved s ctx fn fuel (Clean root) info)) as Hres.
  { intros i. unfold scanResolved. apply keeps_if.
    - apply keeps_bind; [by apply emit_keeps|intros _; apply keeps_ret].
    - apply keeps_bind; [by apply walkDir_keeps|intros ?; apply keeps_ret]. }
  apply keeps_if; [|apply Hres]. repeat case_decide.
  - apply keeps_ret.
  - apply keeps_frame. frame.
  - apply keeps_bind; [by apply emit_keeps|intros _; apply keeps_ret].
  - apply keeps_bind; [apply keeps_frame; by apply fr_Stat|]. intros i. apply Hres.
  - apply Hres.
Qed.
End frame.

(** *** Identities *)

(** The value of a digit and of a string of digits after a prefix of value [a]. *)
Definition digit_value (c : ascii) : Z :=
  let n := Z.of_N (N_of_ascii c) in if decide (n < 58)%Z then (n - 48)%Z else (n - 87)%Z.
Fixpoint unhex (s : string) (a : Z) : Z :=
  match s with
  | EmptyString => a
  | String c s' => unhex s' (16 * a + digit_value c)
  end.

Fixpoint no_colon (s : string) : bool :=
  match s with
  | EmptyString => true
  | String c s' => negb (bool_decide (c = ":"%char)) && no_colon s'
  end.

Lemma hex_digit_value d : (0 ≤ d < 16)%Z → digit_value (hex_digit d) = d ∧ hex_digit d ≠ ":"%char.
Proof.
  intros Hd. assert (d ∈ (Z.of_nat <$> seq 0 16)) as Hin.
  { apply list_elem_of_fmap. exists (Z.to_nat d). split; [lia|]. apply elem_of_seq. lia. }
  revert Hin. generalize d. clear. apply Forall_forall. repeat constructor; (done || by vm_compute).
Qed.

Lemma unhex_go fuel z acc :
  (0 ≤ z < 16 ^ Z.of_nat fuel)%Z → unhex (hex_go fuel z acc) 0 = unhex acc z.
Proof.
  revert z acc. induction fuel as [|fuel IH]; intros z acc Hz.
  { assert (z = 0)%Z as -> by lia. done. }
  rewrite Nat2Z.inj_succ, Z.pow_succ_r in Hz by lia. cbn [hex_go].
  pose proof (Z.mod_pos_bound z 16 ltac:(lia)) as Hm. pose proof (Z.div_mod z 16 ltac:(lia)) as Hdm.
  destruct (hex_digit_value (z `mod` 16) Hm) as [Hv _]. case_decide as Hq.
  - cbn [unhex]. rewrite Hv. f_equal. lia.
  - rewrite IH by lia. cbn [unhex]. rewrite Hv. f_equal. lia.
Qed.

Lemma hex_inj a b : (0 ≤ a < 2 ^ 64)%Z → (0 ≤ b < 2 ^ 64)%Z → hex a = hex b → a = b.
Proof.
  intros Ha Hb E. apply (f_equal (λ s, unhex s 0)) in E. unfold hex in E.
  rewrite !unhex_go in E by lia. done.
Qed.

Lemma no_colon_hex_go fuel z acc : no_colon acc = true → (0 ≤ z)%Z → no_colon (hex_go fuel z acc) = true.
Proof.
  revert z acc. induction fuel as [|fuel IH]; intros z acc Ha Hz; [done|]. cbn [hex_go].
  pose proof (Z.mod_pos_bound z 16 ltac:(lia)) as Hm.
  destruct (hex_digit_value (z `mod` 16) Hm) as [_ Hc].
  assert (no_colon (String (hex_digit (z `mod` 16)) acc) = true).
  { cbn [no_colon]. by rewrite bool_decide_false. }
  case_decide; [done|]. apply IH; [done|]. apply Z.div_pos; lia.
Qed.

Lemma colon_inj a b x y :
  no_colon a = true → no_colon b = true → a +:+ ":" +:+ x = b +:+ ":" +:+ y → a = b ∧ x = y.
Proof.
  revert b. induction a as [|c a IH]; intros [|d b] Ha Hb E.
  - change (String ":" x = String ":" y) in E. by simplify_eq.
  - change (String ":" x = String d (b +:+ ":" +:+ y)) in E. by simplify_eq.
  - change (String c (a +:+ ":" +:+ x) = String ":" y) in E. by simplify_eq.
  - cbn [no_colon] in Ha, Hb. apply andb_true_iff in Ha as [_ Ha], Hb as [_ Hb].
    change (String c (a +:+ ":" +:+ x) = String d (b +:+ ":" +:+ y)) in E.
    simplify_eq. destruct (IH b Ha Hb ltac:(done)) as [-> ->]. done.
Qed.

(** ** Properties *)

(** C22: a scan of an unchanging directory tree finishes and reports it exactly.
    On every file system that answers as the tree, under the policies that ignore or
    report links, with fuel twice the size of the tree, [Scan] calls back once per admitted entry, each directory before what is
    below it, never descends into a filtered directory, and stops at the first
    error of the callback. *)
Theorem scan_tree_exact {W} (fs t : tree) (FS : FileSystem W (list string)) (s : Scanner) (ctx : M W ()) (fn : Entry → M W ())
    (cs : list string) (fuel : nat) (w : W) :
  behaves_as fs FS → ctx_live ctx →
  sn_SymlinkPolicy s = IgnoreSymlinks ∨ sn_SymlinkPolicy s = ReportSymlinks →
  tree_wf t → find fs cs = Some t → Forall good cs →
  mode_IsDir (fi_Mode (tree_info t)) = true → 2 * tree_size t ≤ fuel →
  @Scan W (list string) FS s ctx fn fuel (abs cs) w =
  (forM (scan_spec s (abs cs) t) fn ;; mret (Some ())) w.
Proof. intros. by eapply Scan_tree. Qed.

Definition demo_info (mode ino : Z) : FileInfo := mkInfo mode 10 1000 (Some (1, ino, 1)%Z).
Definition demo_tree : tree :=
  TDir (demo_info ModeDir 2)
    [("b", TFile (demo_info 420 3));
     ("a", TDir (demo_info ModeDir 4) [("x", TFile (demo_info 420 5)); ("l", TFile (demo_info ModeSymlink 6))])].
Definition demo_fs : tree := TDir (demo_info ModeDir 1) [("data", demo_tree)].

Lemma demo_tree_wf : tree_wf demo_tree.
Proof.
  repeat (first [apply wf_dir | apply wf_file | apply Forall_cons; split | apply Forall_nil
    | by_decide | reflexivity | exact I]).
Qed.

Lemma scan_tree_exact_witness :
  @Scan (list string) (list string) (TreeFS demo_fs) (mkScanner true IgnoreSymlinks None) (mret ())
    (λ e, modify (λ seen, seen ++ [en_Path e])) 20 "/data" [] =
  (inl (Some ()), ["/data/b"; "/data/a"; "/data/a/x"]).
Proof.
  change "/data" with (abs ["data"]).
  rewrite (scan_tree_exact demo_fs demo_tree (TreeFS demo_fs)); [vm_compute; reflexivity|apply TreeFS_behaves|intros ?; reflexivity|by left|
    exact demo_tree_wf|reflexivity|by_decide|reflexivity|vm_compute; lia].
Defined.

(** Identities are faithful: two files with device, inode and link data get
    the same identity exactly when device and inode are equal. *)
Theorem fileIdentity_faithful (i1 i2 : FileInfo) (d1 n1 l1 d2 n2 l2 : Z) :
  fi_Sys i1 = Some (d1, n1, l1) → fi_Sys i2 = Some (d2, n2, l2) →
  (0 ≤ d1 < 2 ^ 64)%Z → (0 ≤ n1 < 2 ^ 64)%Z → (0 ≤ d2 < 2 ^ 64)%Z → (0 ≤ n2 < 2 ^ 64)%Z →
  ∃ id1 id2 k1 k2, fileIdentity i1 = inl (id1, k1) ∧ fileIdentity i2 = inl (id2, k2) ∧
    id1 ≠ "" ∧ (id1 = id2 ↔ d1 = d2 ∧ n1 = n2).
Proof.
  intros E1 E2 Hd1 Hn1 Hd2 Hn2. unfold fileIdentity. rewrite E1, E2, (u64_small d1), (u64_small n1), (u64_small d2), (u64_small n2) by done.
  do 4 eexists. split; [reflexivity|split; [reflexivity|split]].
  - by destruct (hex d1).
  - split; [|by intros [-> ->]]. intros E. apply colon_inj in E as [Ed En]; [|apply no_colon_hex_go; [done|lia]..].
    split; by apply hex_inj.
Qed.

Lemma fileIdentity_faithful_witness :
  ∃ id1 id2 k1 k2, fileIdentity (demo_info 420 17) = inl (id1, k1) ∧
    fileIdentity (demo_info 420 18) = inl (id2, k2) ∧ id1 ≠ "" ∧
    (id1 = id2 ↔ (1 = 1 ∧ 17 = 18)%Z).
Proof.
  apply (fileIdentity_faithful (demo_info 420 17) (demo_info 420 18) 1 17 1 1 18 1);
    try reflexivity; lia.
Defined.
