(* ===== verification/Normalize.v ===== *)
(** * Raw events and hints: internal/backend/backend.go, internal/normalize and
    [mapOp] of internal/backend/fsnotify

    A native event names a path; reconciliation needs the directory around it.
    Operations are the bits of a [uint8]. *)

From S2P Require Import Prelude GoPath DirtySet Types.

(** ** backend.go *)

Definition OpCreate : Z := 1.
Definition OpWrite : Z := 2.
Definition OpRemove : Z := 4.
Definition OpRename : Z := 8.
Definition OpChmod : Z := 16.

Record RawEvent : Type := mkRaw {
  raw_Path : string;
  raw_Op : Z;
  raw_Time : Z
}.

(** [mapOp]; the arguments are [op.Has(fsnotify.Create)] and so on. *)
Definition mapOp (create write remove rename chmod : bool) : Z :=
  let result := 0%Z in
  let result := if create then Z.lor result OpCreate else result in
  let result := if write then Z.lor result OpWrite else result in
  let result := if remove then Z.lor result OpRemove else result in
  let result := if rename then Z.lor result OpRename else result in
  if chmod then Z.lor result OpChmod else result.

(** ** normalize.go *)

Record Hint : Type := mkHint {
  h_Scope : string;
  h_Uncertain : bool
}.

Definition normalize_Event (event : RawEvent) (root : string) : option Hint :=
  let root := Clean root in
  let path := Clean (raw_Path event) in
  if negb (within root path) then None
  else
    let scope := Dir path in
    let scope := if bool_decide (path = root) || negb (within root scope) then root else scope in
    Some (mkHint scope (negb (bool_decide (Z.land (raw_Op event) (Z.lor OpRemove OpRename) = 0%Z)))).

(** ** Properties *)

Lemma removelast_prefix {A} (l : list A) : removelast l `prefix_of` l.
Proof.
  induction l as [|x l IH]; [done|]. cbn. destruct l; [apply prefix_nil|]. by apply prefix_cons.
Qed.

Lemma removelast_longer {A} (r l : list A) : r `prefix_of` l → r ≠ l → r `prefix_of` removelast l.
Proof.
  intros [k ->] Hne. destruct (decide (k = [])) as [->|Hk]; [by rewrite app_nil_r in Hne|].
  rewrite removelast_app by done. by apply prefix_app_r.
Qed.

(** The scope of a hint, and when there is one. *)
Lemma normalize_spec (event : RawEvent) (root : string) :
  IsAbs root = true →
  (normalize_Event event root = None ↔ within (Clean root) (Clean (raw_Path event)) = false) ∧
  ∀ h, normalize_Event event root = Some h →
    clean_abs (h_Scope h) ∧ within (Clean root) (h_Scope h) = true ∧
    within (h_Scope h) (Clean (raw_Path event)) = true ∧
    (h_Scope h = if decide (Clean (raw_Path event) = Clean root) then Clean root
                 else Dir (Clean (raw_Path event))).
Proof.
  intros Hr. pose proof (clean_abs_Clean root Hr) as Hcr. unfold normalize_Event.
  destruct (within (Clean root) (Clean (raw_Path event))) eqn:Hw; cbn [negb]; [|done].
  split; [done|]. intros h [= <-]. cbn [h_Scope].
  pose proof (within_inv _ _ Hcr Hw) as [Hcp Hpre].
  destruct (clean_abs_elim _ Hcr) as (r & Er & Gr & Cr), (clean_abs_elim _ Hcp) as (p & Ep & Gp & Cp).
  rewrite Cr, Cp in Hpre. rewrite Er, Ep in *. destruct (decide (abs p = abs r)) as [E|Hne].
  - rewrite bool_decide_true by done. cbn [orb]. rewrite E. split; [done|].
    by rewrite !within_refl by done.
  - rewrite bool_decide_false by done. cbn [orb].
    assert (r ≠ p) as Hne' by (intros ->; done).
    assert (Forall good (removelast p)) as Grp.
    { destruct (removelast_prefix p) as [k Hk]. rewrite Hk in Gp. by apply Forall_app in Gp as []. }
    pose proof (removelast_longer r p Hpre Hne') as Hrl. rewrite Dir_abs by done.
    assert (within (abs r) (abs (removelast p)) = true) as Hin by by apply within_abs.
    rewrite Hin. cbn [negb]. split; [by apply clean_abs_abs|split; [done|split; [|done]]].
    apply within_abs; [done..|]. apply removelast_prefix.
Qed.

(** C35: a hint covers its event.  An event is dropped exactly when its path is
    outside the root; otherwise the hint's scope lies inside the root, contains the
    path, and is the path's parent directory, or the root for the root itself. *)
Theorem normalize_covers (event : RawEvent) (root : string) :
  IsAbs root = true →
  (normalize_Event event root = None ↔ within (Clean root) (Clean (raw_Path event)) = false) ∧
  ∀ h, normalize_Event event root = Some h →
    clean_abs (h_Scope h) ∧ within (Clean root) (h_Scope h) = true ∧
    within (h_Scope h) (Clean (raw_Path event)) = true ∧
    (h_Scope h = if decide (Clean (raw_Path event) = Clean root) then Clean root
                 else Dir (Clean (raw_Path event))).
Proof. apply normalize_spec. Qed.

Lemma normalize_covers_witness :
  normalize_Event (mkRaw "/data/a/b.txt" (mapOp true true false false false) 0) "/data" =
    Some (mkHint "/data/a" false) ∧
  within "/data/a" (Clean "/data/a/b.txt") = true.
Proof.
  split; [vm_compute; reflexivity|].
  apply (normalize_covers (mkRaw "/data/a/b.txt" (mapOp true true false false false) 0) "/data"
    ltac:(reflexivity)) with (h := mkHint "/data/a" false).
  vm_compute. reflexivity.
Defined.
