(* ===== verification/Debounce.v ===== *)
(** * The quiet-period timer: internal/debounce

    A [time.Timer] is its deadline while it runs and the tick buffered in its
    channel.  Time passes in steps: the runtime moves an expired deadline into the
    buffer.  [t_ch] says whether [C()] is the timer's channel or nil. *)

From S2P Require Import Prelude.

Record gotimer : Type := mkGoTimer {
  gt_deadline : option Z;
  gt_tick : bool
}.

Record Timer : Type := mkTimer {
  t_window : Z;
  t_timer : option gotimer;
  t_ch : bool
}.

Definition New (window : Z) : Timer := mkTimer window None false.

(** [timer.Stop()]: whether the call stopped a running timer. *)
Definition gotimer_Stop (g : gotimer) : bool * gotimer :=
  match gt_deadline g with
  | Some _ => (true, mkGoTimer None (gt_tick g))
  | None => (false, g)
  end.

Definition Trigger (now : Z) (t : Timer) : Timer :=
  match t_timer t with
  | None => mkTimer (t_window t) (Some (mkGoTimer (Some (now + t_window t)%Z) false)) true
  | Some g =>
      let '(stopped, g) := gotimer_Stop g in
      (* the select drains the channel when the timer had already fired *)
      let g := if stopped then g else mkGoTimer (gt_deadline g) false in
      mkTimer (t_window t) (Some (mkGoTimer (Some (now + t_window t)%Z) (gt_tick g))) true
  end.

Definition Stop (t : Timer) : Timer :=
  mkTimer (t_window t)
    (match t_timer t with Some g => Some (gotimer_Stop g).2 | None => None end) false.

(** The runtime at time [now]. *)
Definition advance (now : Z) (t : Timer) : Timer :=
  match t_timer t with
  | Some (mkGoTimer (Some d) tick) =>
      if decide (d ≤ now)%Z then mkTimer (t_window t) (Some (mkGoTimer None true)) (t_ch t) else t
  | _ => t
  end.

(** [case <-quiet.C()]: [Some] when a tick can be received. *)
Definition receive (t : Timer) : option Timer :=
  match t_ch t, t_timer t with
  | true, Some g => if gt_tick g then Some (mkTimer (t_window t) (Some (mkGoTimer (gt_deadline g) false)) true)
                    else None
  | _, _ => None
  end.

(** ** Histories *)

Inductive action : Type :=
  | ATrigger
  | AStop
  | APass
  | AReceive.

(** One action at time [now]; a blocked receive changes nothing.  The second
    component is the time of the last trigger since which neither a stop nor a
    received tick happened. *)
Definition step (now : Z) (a : action) (st : Timer * option Z) : Timer * option Z :=
  let '(t, last) := st in
  match a with
  | ATrigger => (Trigger now t, Some now)
  | AStop => (Stop t, None)
  | APass => (advance now t, last)
  | AReceive => match receive t with Some t' => (t', None) | None => (t, last) end
  end.

(** Actions at non-decreasing times from [from] on. *)
Inductive history (window : Z) : Z → Timer * option Z → Prop :=
  | history_new now : history window now (New window, None)
  | history_step from now a st :
      history window from st → (from ≤ now)%Z → history window now (step now a st).

Record timer_inv (window now : Z) (st : Timer * option Z) : Prop := {
  ti_window : t_window st.1 = window;
  (** a running timer expires one window after the last trigger *)
  ti_deadline g d : t_timer st.1 = Some g → gt_deadline g = Some d →
    gt_tick g = false ∧ (t_ch st.1 = true → ∃ l, st.2 = Some l ∧ d = (l + window)%Z);
  (** a receivable tick is at least one window later than the last trigger *)
  ti_tick g : t_timer st.1 = Some g → t_ch st.1 = true → gt_tick g = true →
    ∃ l, st.2 = Some l ∧ (l + window ≤ now)%Z;
  ti_last l : st.2 = Some l → (l ≤ now)%Z ∧ t_ch st.1 = true ∧
    ∃ g, t_timer st.1 = Some g ∧ (gt_deadline g = Some (l + window)%Z ∨ gt_tick g = true)
}.

Lemma timer_inv_le window from now st :
  timer_inv window from st → (from ≤ now)%Z → timer_inv window now st.
Proof.
  intros [Hw Hd Ht Hl] Hle. split; [done|done|..].
  - intros g Hg Hch Htick. destruct (Ht g Hg Hch Htick) as (l & ? & ?). exists l. split; [done|lia].
  - intros l Hlast. destruct (Hl l Hlast) as (? & ? & ?). split; [lia|done].
Qed.

Lemma Trigger_inv window now t last :
  timer_inv window now (t, last) →
  Trigger now t = mkTimer window (Some (mkGoTimer (Some (now + window)%Z) false)) true.
Proof.
  destruct t as [wd [[[d|] tick]|] ch]; intros [Hw Hd _ _]; simpl in *; subst wd; try done.
  destruct (Hd _ d eq_refl eq_refl) as [Htk _]. simpl in Htk. by subst.
Qed.

Lemma timer_inv_step window from now a st :
  timer_inv window from st → (from ≤ now)%Z → timer_inv window now (step now a st).
Proof.
  intros Hinv Hle. apply (timer_inv_le _ _ now) in Hinv; [|done].
  destruct st as [t last]. destruct a; cbn [step].
  - rewrite (Trigger_inv _ _ _ _ Hinv). split; simpl; [done|..].
    + intros g d [= <-] [= <-]. simpl. eauto.
    + by intros g [= <-].
    + intros l [= <-]. split; [lia|]. split; [done|]. eauto.
  - destruct t as [wd [[[d|] tick]|] ch], Hinv as [Hw _ _ _]; split; simpl in *; try done.
    all: by intros g d' [= <-].
  - destruct t as [wd [[[d|] tick]|] ch]; try done. cbn [advance t_timer].
    unfold advance. cbn [t_timer]. case_decide; [|done]. destruct Hinv as [Hw Hd _ Hl]. simpl in *.
    split; simpl; [done|by intros g d' [= <-]|..].
    + intros g [= <-] Hch _. destruct (Hd _ d eq_refl eq_refl) as [_ Hd']. destruct (Hd' Hch) as (l & -> & ->).
      eauto.
    + intros l Hlast. destruct (Hl l Hlast) as (? & ? & _). split; [done|]. split; [done|]. eauto.
  - destruct (receive t) as [t'|] eqn:E; [|done]. destruct t as [wd [[dl tick]|] []]; try done.
    unfold receive in E. simpl in E. destruct tick; [|done]. injection E as <-.
    destruct Hinv as [Hw Hd _ _]. split; simpl in *; [done| |by intros g [= <-]|done].
    intros g d [= <-]. simpl. intros ->. by destruct (Hd _ d eq_refl eq_refl).
Qed.

Lemma timer_inv_history window now st : history window now st → timer_inv window now st.
Proof.
  induction 1 as [now|from now a st _ IH Hle]; [by split|]. by apply (timer_inv_step window from).
Qed.

(** C36: the timer fires after a quiet period and only then.  In every history at
    non-decreasing times, a tick can be received only when a trigger since the last
    stop or tick lies at least one window back; and once the runtime has reached
    that time, the tick can be received. *)
Theorem debounce_quiet_period (window now : Z) (st : Timer * option Z) :
  history window now st →
  (∀ t', receive st.1 = Some t' → ∃ l, st.2 = Some l ∧ (l + window ≤ now)%Z) ∧
  (∀ l, st.2 = Some l → (l + window ≤ now)%Z → is_Some (receive (advance now st.1))).
Proof.
  intros H%timer_inv_history. destruct st as [[wd [g|] ch] last], H as [Hw Hd Ht Hl]; simpl in *.
  - split.
    + unfold receive; simpl. destruct ch; [|done]. destruct (gt_tick g) eqn:E; [|done]. intros t' _.
      by apply (Ht g).
    + intros l Hlast Hle. destruct (Hl l Hlast) as (_ & -> & g' & [= <-] & Hg).
      destruct g as [dl tick]; simpl in *. unfold advance, receive; simpl.
      destruct Hg as [->|Ht']; [rewrite decide_True by done; simpl; eauto|].
      rewrite Ht'. destruct dl as [d|]; simpl; [case_decide; simpl|]; eauto.
  - split; [by destruct ch|]. intros l Hlast _. destruct (Hl l Hlast) as (_ & _ & ? & ? & _). done.
Qed.

Lemma debounce_quiet_period_witness :
  let st := step 130 APass (step 30 ATrigger (step 0 ATrigger (New 100, None))) in
  history 100 130 st ∧ is_Some (receive (advance 130 st.1)).
Proof.
  assert (history 100 130 (step 130 APass (step 30 ATrigger (step 0 ATrigger (New 100, None))))) as H.
  { apply (history_step 100 30); [|lia]. apply (history_step 100 0); [|lia].
    apply (history_step 100 0); [|lia]. apply history_new. }
  split; [exact H|]. apply (debounce_quiet_period 100 130 _ H) with (l := 30%Z); [reflexivity|lia].
Defined.
