(* ===== verification/WatchTree.v ===== *)
(** * Recursive watch registrations: internal/watchtree

    The tree remembers which directories are registered with the native backend.
    The backend is a parameter: two actions on a world [W].  [sort.Slice] by
    descending length leaves the order of equal lengths open; the model sorts the
    set's elements by a stable merge. *)

From S2P Require Import Prelude GoPath DirtySet Types.

(** ** Error texts *)

Definition sentinel_text (s : sentinel) : string :=
  match s with
  | ErrAlreadyStarted => "fsrecon: tracker already started"
  | ErrClosed => "fsrecon: tracker is closed"
  | ErrSymlink => "fsrecon: symlink rejected by policy"
  | ErrHardlink => "fsrecon: hardlink rejected by policy"
  | ErrBackendStopped => "fsrecon: native watch backend stopped"
  | ErrNoIntegrity => "fsrecon: no integrity checker configured"
  | ErrAtomicStoreRequired => "fsrecon: ChangeSink requires a BatchSnapshotStore"
  | ErrObserverFollowSymlinksUnsupported => "fsrecon: observer FollowSymlinks is unsupported"
  | ErrOverflow => "filesystem event queue overflow"
  | ScannerErrSymlink => "symlink rejected by policy"
  | ErrNotExist => "file does not exist"
  | ErrBucketNotFound => "bucket not found"
  | Canceled => "context canceled"
  | ErrNonExistentWatch => "fsnotify: can't remove non-existent watch"
  | ErrEventOverflow => "fsnotify: queue or buffer overflow"
  | EINVAL => "invalid argument"
  | OutOfFuel => "out of fuel"
  | ErrText msg => msg
  end.

(** [err.Error()]. *)
Fixpoint Error (e : error) : string :=
  match e with
  | Sentinel s => sentinel_text s
  | Wrapf context cause => context +:+ ": " +:+ Error cause
  end.

(** [strings.Contains]. *)
Fixpoint Contains (s sub : string) : bool :=
  HasPrefix s sub ||
  match s with
  | EmptyString => false
  | String _ s' => Contains s' sub
  end.

Definition isAlreadyGone (err : error) : bool :=
  Contains (Error err) "not found" || Contains (Error err) "invalid argument".

(** ** Definitions *)

Record Tree : Type := mkTree {
  wt_root : string;
  wt_watched : gset string
}.

Definition New (root : string) : Tree :=
  let root := Clean root in mkTree root {[root]}.

Definition inAnyScope (path : string) (scopes : list string) : bool :=
  existsb (λ scope, within (Clean scope) path) scopes.

Definition longer (a b : string) : Prop := String.length b ≤ String.length a.
#[global] Instance longer_dec a b : Decision (longer a b).
Proof. unfold longer. apply _. Defined.

Definition by_length_desc (l : list string) : list string := merge_sort longer l.

Definition Count (t : Tree) : nat := size (wt_watched t).
Definition IsWatched (t : Tree) (path : string) : bool := bool_decide (Clean path ∈ wt_watched t).

Section operations.
Context {W : Type} (backend_Add backend_Remove : string → M W ()).

Definition watch (path : string) : M (Tree * W) () :=
  modify (λ '(t, w), (mkTree (wt_root t) ({[path]} ∪ wt_watched t), w)).
Definition unwatch (path : string) : M (Tree * W) () :=
  modify (λ '(t, w), (mkTree (wt_root t) (wt_watched t ∖ {[path]}), w)).

Definition Add (path : string) : M (Tree * W) () :=
  let path := Clean path in
  t ← gets fst;
  if negb (within (wt_root t) path) then
    throw (errors_New ("watch path " +:+ path +:+ " is outside root " +:+ wt_root t))
  else if decide (path ∈ wt_watched t) then mret ()
  else onSnd (backend_Add path) ;; watch path.

(** The paths [Sync] removes, children first. *)
Definition sync_removes (t : Tree) (scopes : list string) (observed : gset string) : list string :=
  by_length_desc (filter (λ path, path ≠ wt_root t ∧ inAnyScope path scopes = true ∧ path ∉ observed)
    (elements (wt_watched t))).

Definition Sync (scopes : list string) (observed : gset string) : M (Tree * W) () :=
  t ← gets fst;
  forM (sync_removes t scopes observed) (λ path, onSnd (backend_Remove path) ;; unwatch path).

Definition subtree_removes (t : Tree) (path : string) : list string :=
  by_length_desc (filter (λ watched, watched ≠ wt_root t ∧ within path watched = true)
    (elements (wt_watched t))).

Definition RemoveSubtree (path : string) : M (Tree * W) () :=
  let path := Clean path in
  t ← gets fst;
  forM (subtree_removes t path) (λ watched,
    r ← try (onSnd (backend_Remove watched));
    match r with
    | inr err => if isAlreadyGone err then unwatch watched else throw err
    | inl _ => unwatch watched
    end).
End operations.

(** ** The removal order *)

Lemma by_length_desc_perm l : by_length_desc l ≡ₚ l.
Proof. apply merge_sort_Permutation. Qed.

Lemma by_length_desc_sorted l :
  StronglySorted longer (by_length_desc l).
Proof.
  apply Sorted_StronglySorted; [intros a b c; unfold longer; lia|].
  apply Sorted_merge_sort. intros a b. unfold longer. lia.
Qed.

Lemma string_length_app a b : String.length (a +:+ b) = String.length a + String.length b.
Proof. induction a as [|c a IH]; [done|]. rewrite string_cons_app. simpl. by rewrite IH. Qed.

(** A proper descendant has a longer path. *)
Lemma within_longer a b :
  clean_abs a → clean_abs b → within a b = true → a ≠ b → String.length a < String.length b.
Proof.
  intros (ca & -> & Ga & _)%clean_abs_elim (cb & -> & Gb & _)%clean_abs_elim.
  rewrite within_abs by done. intros [k ->] Hne.
  destruct k as [|x k]; [by rewrite app_nil_r in Hne|].
  apply Forall_app in Gb as [_ Gk]. inv Gk. destruct H1 as [Hx _].
  assert (0 < String.length (join_sep (x :: k))).
  { destruct x; [done|]. destruct k; simpl; lia. }
  unfold abs. cbn [String.length]. destruct ca as [|c ca]; [simpl in *; lia|].
  rewrite join_sep_app_prefix by done. rewrite string_length_app. cbn [String.length]. lia.
Qed.

(** ** The tree mirrors the backend *)

Section mirror.
Context {W : Type} (backend_Add backend_Remove : string → M W ()).

(** What the backend promises of its registrations [regs], for the clean paths of
    [named]: a call that succeeds has changed them, one that fails has not; an error
    whose text says that the watch is gone means that it is not registered. *)
Record backend_laws (named : string → Prop) (regs : W → gset string) : Prop := {
  add_ok p w w' : clean_abs p → named p → backend_Add p w = (inl (), w') → regs w' = {[p]} ∪ regs w;
  add_err p w e w' : clean_abs p → named p → backend_Add p w = (inr e, w') → regs w' = regs w;
  remove_ok p w w' : clean_abs p → named p → backend_Remove p w = (inl (), w') → regs w' = regs w ∖ {[p]};
  remove_err p w e w' : clean_abs p → named p → backend_Remove p w = (inr e, w') →
    regs w' = regs w ∧ (isAlreadyGone e = true → p ∉ regs w)
}.

Context (named : string → Prop) (regs : W → gset string) (Hlaws : backend_laws named regs).

Definition mirror (st : Tree * W) : Prop :=
  wt_watched st.1 = regs st.2 ∧ wt_root st.1 ∈ wt_watched st.1 ∧ clean_abs (wt_root st.1) ∧
  ∀ p, p ∈ wt_watched st.1 → clean_abs p ∧ within (wt_root st.1) p = true ∧ named p.

Lemma mirror_unwatch t w w' p :
  mirror (t, w) → p ≠ wt_root t → regs w' = regs w ∖ {[p]} →
  mirror (mkTree (wt_root t) (wt_watched t ∖ {[p]}), w').
Proof.
  intros (Hm & Hr & Hc & Hall) Hp Hregs. unfold mirror in *. simpl in *.
  split; [by rewrite Hm, Hregs|split; [set_solver|split; [done|]]]. intros q Hq. apply Hall. set_solver.
Qed.

Lemma Add_mirror path st :
  mirror st → named (Clean path) → mirror (Add backend_Add path st).2 ∧
  ((Add backend_Add path st).1 = inl () → Clean path ∈ wt_watched (Add backend_Add path st).2.1).
Proof.
  destruct st as [t w]. intros Hmir Hname. pose proof Hmir as (Hm & Hr & Hc & Hall). simpl in *.
  unfold Add. rewrite bind_run. cbn [gets fst].
  destruct (within (wt_root t) (Clean path)) eqn:Hw; cbn [negb]; [|done].
  case_decide as Hin; [done|]. destruct (within_inv (wt_root t) path Hc Hw) as [Hcp _].
  rewrite bind_run. unfold onSnd.
  destruct (backend_Add (Clean path) w) as [[[]|e] w'] eqn:E; simpl.
  - apply (add_ok _ _ Hlaws) in E; [|done..]. split; [|set_solver].
    split; simpl; [by rewrite Hm, E|split; [set_solver|split; [done|]]].
    intros q [->%elem_of_singleton|Hq]%elem_of_union; [|by apply Hall].
    done.
  - apply (add_err _ _ Hlaws) in E; [|done..]. split; [|done]. unfold mirror; simpl. by rewrite E.
Qed.

Lemma Sync_loop_mirror l t w :
  mirror (t, w) → wt_root t ∉ l → Forall (λ p, clean_abs p ∧ named p) l →
  let '(r, st') := forM l (λ path, onSnd (backend_Remove path) ;; unwatch path) (t, w) in
  mirror st' ∧ wt_root st'.1 = wt_root t ∧
  (r = inl () → wt_watched st'.1 = wt_watched t ∖ list_to_set l).
Proof.
  revert t w. induction l as [|p l IH]; intros t w Hm Hl Hn; cbn [forM].
  { split; [done|split; [done|]]. intros _. simpl. set_solver. }
  apply Forall_cons in Hn as [[Hcp Hnp] Hn].
  rewrite !bind_run. unfold onSnd at 1. destruct (backend_Remove p w) as [[[]|e] w'] eqn:E; simpl.
  - apply (remove_ok _ _ Hlaws) in E; [|done..].
    assert (mirror (mkTree (wt_root t) (wt_watched t ∖ {[p]}), w')) as Hm'.
    { apply mirror_unwatch with w; [done|set_solver|done]. }
    specialize (IH _ _ Hm' ltac:(simpl; set_solver) Hn). destruct (forM l _ _) as [r st'].
    destruct IH as (? & ? & Hr). split; [done|split; [done|]]. intros Heq. rewrite (Hr Heq). simpl. set_solver.
  - apply (remove_err _ _ Hlaws) in E as [E _]; [|done..]. split; [|done]. unfold mirror in *. simpl in *. by rewrite E.
Qed.

Lemma RemoveSubtree_loop_mirror l t w :
  mirror (t, w) → wt_root t ∉ l → Forall (λ p, clean_abs p ∧ named p) l →
  let '(r, st') := forM l (λ watched, r ← try (onSnd (backend_Remove watched));
    match r with
    | inr err => if isAlreadyGone err then unwatch watched else throw err
    | inl _ => unwatch watched
    end) (t, w) in
  mirror st' ∧ wt_root st'.1 = wt_root t ∧
  (r = inl () → wt_watched st'.1 = wt_watched t ∖ list_to_set l).
Proof.
  revert t w. induction l as [|p l IH]; intros t w Hm Hl Hn; cbn [forM].
  { split; [done|split; [done|]]. intros _. simpl. set_solver. }
  apply Forall_cons in Hn as [[Hcp Hnp] Hn].
  assert (∀ w', regs w' = regs w ∖ {[p]} →
    mirror (mkTree (wt_root t) (wt_watched t ∖ {[p]}), w')) as Hun.
  { intros w' ?. apply mirror_unwatch with w; [done|set_solver|done]. }
  rewrite !bind_run. unfold try, onSnd at 1.
  destruct (backend_Remove p w) as [[[]|e] w'] eqn:E; cbn -[unwatch].
  - apply (remove_ok _ _ Hlaws) in E; [|done..]. simpl.
    specialize (IH _ _ (Hun _ E) ltac:(simpl; set_solver) Hn). destruct (forM l _ _) as [r st'].
    destruct IH as (? & ? & Hr). split; [done|split; [done|]]. intros Heq. rewrite (Hr Heq). simpl. set_solver.
  - apply (remove_err _ _ Hlaws) in E as [E Hgone]; [|done..]. destruct (isAlreadyGone e); simpl.
    + assert (regs w' = regs w ∖ {[p]}) as E' by (specialize (Hgone eq_refl); set_solver).
      specialize (IH _ _ (Hun _ E') ltac:(simpl; set_solver) Hn). destruct (forM l _ _) as [r st'].
      destruct IH as (? & ? & Hr). split; [done|split; [done|]]. intros Heq. rewrite (Hr Heq). simpl. set_solver.
    + split; [|done]. unfold mirror in *. simpl in *. by rewrite E.
Qed.
End mirror.

Arguments backend_laws {_} _ _ _ _.
Arguments mirror {_} _ _ _.

Lemma elem_of_sync_removes t scopes observed p :
  p ∈ sync_removes t scopes observed ↔
  p ∈ wt_watched t ∧ p ≠ wt_root t ∧ inAnyScope p scopes = true ∧ p ∉ observed.
Proof.
  unfold sync_removes. rewrite by_length_desc_perm, list_elem_of_filter, elem_of_elements. tauto.
Qed.

Lemma elem_of_subtree_removes t path p :
  p ∈ subtree_removes t path ↔ p ∈ wt_watched t ∧ p ≠ wt_root t ∧ within path p = true.
Proof.
  unfold subtree_removes. rewrite by_length_desc_perm, list_elem_of_filter, elem_of_elements. tauto.
Qed.

(** ** Histories *)

Inductive tree_op : Type :=
  | WAdd (path : string)
  | WSync (scopes : list string) (observed : gset string)
  | WRemoveSubtree (path : string).

Definition run_tree_op {W} (backend_Add backend_Remove : string → M W ()) (st : Tree * W)
    (op : tree_op) : Tree * W :=
  match op with
  | WAdd path => (Add backend_Add path st).2
  | WSync scopes observed => (Sync backend_Remove scopes observed st).2
  | WRemoveSubtree path => (RemoveSubtree backend_Remove path st).2
  end.

Lemma Sync_mirror {W} (backend_Add backend_Remove : string → M W ()) named regs scopes observed t w :
  backend_laws backend_Add backend_Remove named regs → mirror named regs (t, w) →
  let '(r, st') := Sync backend_Remove scopes observed (t, w) in
  mirror named regs st' ∧ wt_root st'.1 = wt_root t ∧
  (r = inl () → wt_watched st'.1 = wt_watched t ∖ list_to_set (sync_removes t scopes observed)).
Proof.
  intros Hl Hm. unfold Sync. rewrite bind_run. cbn [gets fst].
  apply (Sync_loop_mirror backend_Add); [done..| |]; [rewrite elem_of_sync_removes; tauto|].
  apply Forall_forall. intros p (Hp & _)%elem_of_sync_removes. destruct Hm as (_ & _ & _ & Hall). by apply Hall in Hp as (? & _ & ?).
Qed.

Lemma RemoveSubtree_mirror {W} (backend_Add backend_Remove : string → M W ()) named regs path t w :
  backend_laws backend_Add backend_Remove named regs → mirror named regs (t, w) →
  let '(r, st') := RemoveSubtree backend_Remove path (t, w) in
  mirror named regs st' ∧ wt_root st'.1 = wt_root t ∧
  (r = inl () → wt_watched st'.1 = wt_watched t ∖ list_to_set (subtree_removes t (Clean path))).
Proof.
  intros Hl Hm. unfold RemoveSubtree. rewrite bind_run. cbn [gets fst].
  apply (RemoveSubtree_loop_mirror backend_Add); [done..| |]; [rewrite elem_of_subtree_removes; tauto|].
  apply Forall_forall. intros p (Hp & _)%elem_of_subtree_removes. destruct Hm as (_ & _ & _ & Hall). by apply Hall in Hp as (? & _ & ?).
Qed.

(** The paths an operation may register. *)
Definition op_named (named : string → Prop) (op : tree_op) : Prop :=
  match op with WAdd path => named (Clean path) | _ => True end.

Lemma run_tree_op_mirror {W} (backend_Add backend_Remove : string → M W ()) named regs st op :
  backend_laws backend_Add backend_Remove named regs → mirror named regs st → op_named named op →
  mirror named regs (run_tree_op backend_Add backend_Remove st op).
Proof.
  intros Hl Hm Hop. destruct st as [t w], op as [path|scopes observed|path]; simpl.
  - by apply (Add_mirror backend_Add backend_Remove named regs Hl).
  - pose proof (Sync_mirror _ _ _ _ scopes observed t w Hl Hm) as H.
    destruct (Sync backend_Remove scopes observed (t, w)) as [r st']. by destruct H.
  - pose proof (RemoveSubtree_mirror _ _ _ _ path t w Hl Hm) as H.
    destruct (RemoveSubtree backend_Remove path (t, w)) as [r st']. by destruct H.
Qed.

Lemma run_tree_ops_mirror {W} (backend_Add backend_Remove : string → M W ()) named regs root w ops :
  backend_laws backend_Add backend_Remove named regs → IsAbs root = true → regs w = {[Clean root]} →
  named (Clean root) → Forall (op_named named) ops →
  mirror named regs (foldl (run_tree_op backend_Add backend_Remove) (New root, w) ops).
Proof.
  intros Hl Hr Hw Hn Hops. assert (mirror named regs (New root, w)) as Hm.
  { pose proof (clean_abs_Clean root Hr). split; simpl; [done|split; [set_solver|split; [done|]]].
    intros p ->%elem_of_singleton. split; [done|]. split; [by apply within_refl|done]. }
  revert Hm. generalize (New root, w). induction Hops as [|op ops Hop Hops IH]; intros st Hm; [done|]. simpl.
  apply IH. by apply run_tree_op_mirror.
Qed.

(** ** Properties *)

(** A backend that keeps a set and refuses the paths of [bad]. *)
Definition demo_Add (bad : gset string) (p : string) : M (gset string) () :=
  if decide (p ∈ bad) then throw (errors_New "permission denied") else modify (λ regs, {[p]} ∪ regs).
Definition demo_Remove (p : string) : M (gset string) () := λ regs,
  if decide (p ∈ regs) then (inl (), regs ∖ {[p]}) else (inr (errors_New "watch not found"), regs).

Lemma demo_backend_laws bad : backend_laws (demo_Add bad) demo_Remove (λ _, True) id.
Proof.
  split; unfold demo_Add, demo_Remove, id.
  - intros p w w' _ _. case_decide; [done|]. by intros [= <-].
  - intros p w e w' _ _. case_decide; [|done]. by intros [= _ <-].
  - intros p w w' _ _. case_decide; [|done]. by intros [= <-].
  - intros p w e w' _ _. case_decide; [done|]. by intros [= <- <-].
Qed.

(** The tree mirrors the backend.  After any sequence of [Add], [Sync] and
    [RemoveSubtree] calls on paths for which the backend keeps its promises, successful or failed half way, the watched set is the
    backend's set of registrations; the root stays registered and every
    registration lies inside the root. *)
Theorem watch_tree_mirrors_backend {W} (backend_Add backend_Remove : string → M W ())
    (named : string → Prop) (regs : W → gset string) (root : string) (w : W) (ops : list tree_op) :
  backend_laws backend_Add backend_Remove named regs → IsAbs root = true → regs w = {[Clean root]} →
  named (Clean root) → Forall (op_named named) ops →
  let st := foldl (run_tree_op backend_Add backend_Remove) (New root, w) ops in
  wt_watched st.1 = regs st.2 ∧ wt_root st.1 ∈ wt_watched st.1 ∧
  ∀ p, p ∈ wt_watched st.1 → within (wt_root st.1) p = true.
Proof.
  intros Hl Hr Hw Hn Hops. cbv zeta. set (st := foldl _ _ ops).
  assert (mirror named regs st) as (? & ? & _ & Hall) by by apply run_tree_ops_mirror.
  split_and!; [done..|]. intros p ?. by apply Hall.
Qed.

Lemma watch_tree_mirrors_backend_witness :
  let st := foldl (run_tree_op (demo_Add {["/d/x"]}) demo_Remove) (New "/d", {["/d"]})
    [WAdd "/d/a"; WAdd "/d/x"; WAdd "/d/a/b"; WSync ["/d/a"] {["/d/a"]}] in
  st.2 = {["/d"; "/d/a"]} ∧ wt_watched st.1 = id st.2.
Proof.
  split; [vm_compute; reflexivity|].
  apply (watch_tree_mirrors_backend (demo_Add {["/d/x"]}) demo_Remove (λ _, True) id "/d" {["/d"]}
    [WAdd "/d/a"; WAdd "/d/x"; WAdd "/d/a/b"; WSync ["/d/a"] {["/d/a"]}]);
    [apply demo_backend_laws|reflexivity|reflexivity|exact I|repeat (apply Forall_cons; split; [exact I|]); apply Forall_nil; exact I].
Defined.

(** C37: [Sync] prunes exactly.  When it succeeds, the registrations left are the
    old ones that are the root, lie outside the scopes or were observed; a
    directory is deregistered only after the registered directories below it. *)
Theorem sync_exact {W} (backend_Add backend_Remove : string → M W ()) (named : string → Prop) (regs : W → gset string)
    (scopes : list string) (observed : gset string) (t t' : Tree) (w w' : W) :
  backend_laws backend_Add backend_Remove named regs → mirror named regs (t, w) →
  Sync backend_Remove scopes observed (t, w) = (inl (), (t', w')) →
  (∀ p, p ∈ wt_watched t' ↔ p ∈ wt_watched t ∧
     (p = wt_root t ∨ inAnyScope p scopes = false ∨ p ∈ observed)) ∧
  ∀ i j a b, sync_removes t scopes observed !! i = Some a → sync_removes t scopes observed !! j = Some b →
    within a b = true → a ≠ b → j < i.
Proof.
  intros Hl Hm E. split.
  - pose proof (Sync_mirror _ _ _ _ scopes observed t w Hl Hm) as H. rewrite E in H.
    destruct H as (_ & _ & H). specialize (H eq_refl). simpl in H. intros p.
    rewrite H, elem_of_difference, elem_of_list_to_set, elem_of_sync_removes.
    destruct (decide (p = wt_root t)), (inAnyScope p scopes), (decide (p ∈ observed)); naive_solver.
  - intros i j a b Ha Hb Hw Hne.
    assert (∀ x, x ∈ sync_removes t scopes observed → clean_abs x) as Hcl.
    { intros x (Hx & _)%elem_of_sync_removes. destruct Hm as (_ & _ & _ & Hall). by apply Hall. }
    pose proof (within_longer a b (Hcl _ (list_elem_of_lookup_2 _ _ _ Ha))
      (Hcl _ (list_elem_of_lookup_2 _ _ _ Hb)) Hw Hne) as Hlen.
    destruct (decide (j < i)) as [|Hji]; [done|]. exfalso.
    assert (i < j) as Hij by (destruct (decide (i = j)) as [->|]; [congruence|lia]).
    pose proof (by_length_desc_sorted (filter (λ path, path ≠ wt_root t ∧ inAnyScope path scopes = true ∧
      path ∉ observed) (elements (wt_watched t)))) as Hs.
    pose proof (StronglySorted_lookup _ _ _ _ _ _ Hs Ha Hb Hij) as Hlo. unfold longer in Hlo. lia.
Qed.

Definition demo_watched : Tree := mkTree "/d" {["/d"; "/d/a"; "/d/a/b"; "/d/c"]}.

Lemma demo_watched_mirror : mirror (λ _, True) id (demo_watched, {["/d"; "/d/a"; "/d/a/b"; "/d/c"]}).
Proof.
  split; [done|split; [by_decide|split; [by_decide|]]]. simpl.
  assert (set_Forall (λ p, clean_abs p ∧ within "/d" p = true ∧ True) ({["/d"; "/d/a"; "/d/a/b"; "/d/c"]} : gset string))
    as H by by_decide. exact H.
Qed.

Lemma sync_exact_witness :
  ∃ t' w', Sync demo_Remove ["/d/a"] ∅ (demo_watched, {["/d"; "/d/a"; "/d/a/b"; "/d/c"]}) = (inl (), (t', w')) ∧
  ∀ p, p ∈ wt_watched t' ↔ p ∈ wt_watched demo_watched ∧
     (p = wt_root demo_watched ∨ inAnyScope p ["/d/a"] = false ∨ p ∈ (∅ : gset string)).
Proof.
  exists (mkTree "/d" {["/d"; "/d/c"]}), {["/d"; "/d/c"]}.
  assert (Sync demo_Remove ["/d/a"] ∅ (demo_watched, {["/d"; "/d/a"; "/d/a/b"; "/d/c"]}) =
    (inl (), (mkTree "/d" {["/d"; "/d/c"]}, {["/d"; "/d/c"]}))) as E by (vm_compute; reflexivity).
  split; [exact E|].
  apply (sync_exact (demo_Add ∅) demo_Remove (λ _, True) id ["/d/a"] ∅ demo_watched _ _ _
    (demo_backend_laws ∅) demo_watched_mirror E).
Defined.
