(* ===== verification/Session.v ===== *)
(** * Session identifiers: session.go

    Sixteen random bytes in lower-case hexadecimal.  The source of random bytes is
    an action of the world. *)

From Stdlib Require Import Ascii.
From S2P Require Import Prelude.

(** ** Definitions *)

(** A digit of [encoding/hex]. *)
Definition hexDigit (n : N) : ascii := ascii_of_N (if decide (n < 10)%N then 48 + n else 87 + n).

(** [hex.EncodeToString]; a byte is a character. *)
Fixpoint EncodeToString (bytes : string) : string :=
  match bytes with
  | EmptyString => ""
  | String b rest =>
      String (hexDigit (N_of_ascii b / 16)) (String (hexDigit (N_of_ascii b mod 16)) (EncodeToString rest))
  end.

(** [rand.Read] fills [n] bytes. *)
Definition newSessionID {W} (rand_Read : nat → M W string) : M W string :=
  value ← rand_Read 16;
  mret (EncodeToString value).

(** ** Properties *)

Definition is_hex (c : ascii) : bool :=
  let n := N_of_ascii c in ((48 <=? n) && (n <=? 57) || (97 <=? n) && (n <=? 102))%N.

Fixpoint all_hex (s : string) : bool :=
  match s with EmptyString => true | String c s' => is_hex c && all_hex s' end.

Lemma hexDigit_value n : (n < 16)%N → N_of_ascii (hexDigit n) = (if decide (n < 10)%N then 48 + n else 87 + n)%N.
Proof. intros Hn. unfold hexDigit. apply N_ascii_embedding. case_decide; lia. Qed.

Lemma hexDigit_inj n m : (n < 16)%N → (m < 16)%N → hexDigit n = hexDigit m → n = m.
Proof.
  intros Hn Hm E. apply (f_equal N_of_ascii) in E. rewrite !hexDigit_value in E by done. repeat case_decide; lia.
Qed.

Lemma hexDigit_hex n : (n < 16)%N → is_hex (hexDigit n) = true.
Proof.
  intros Hn. unfold is_hex. rewrite hexDigit_value by done. cbv zeta.
  apply orb_true_iff. rewrite !andb_true_iff, !N.leb_le. case_decide; lia.
Qed.

Lemma byte_digits c : (N_of_ascii c / 16 < 16)%N ∧ (N_of_ascii c mod 16 < 16)%N.
Proof.
  pose proof (N_ascii_bounded c). split; [apply N.Div0.div_lt_upper_bound; lia|apply N.mod_lt; lia].
Qed.

Lemma encode_length s : String.length (EncodeToString s) = 2 * String.length s.
Proof. induction s as [|c s IH]; [done|]. cbn [EncodeToString String.length]. lia. Qed.

Lemma encode_hex s : all_hex (EncodeToString s) = true.
Proof.
  induction s as [|c s IH]; [done|]. destruct (byte_digits c). cbn [EncodeToString all_hex]. by rewrite !hexDigit_hex.
Qed.

Lemma encode_inj s t : EncodeToString s = EncodeToString t → s = t.
Proof.
  revert t. induction s as [|c s IH]; intros [|d t] E; try done. cbn [EncodeToString] in E. injection E as E1 E2 E3.
  destruct (byte_digits c), (byte_digits d). apply hexDigit_inj in E1; [|done..]. apply hexDigit_inj in E2; [|done..].
  f_equal; [|by apply IH]. rewrite <-(ascii_N_embedding c), <-(ascii_N_embedding d). f_equal.
  rewrite (N.div_mod (N_of_ascii c) 16), (N.div_mod (N_of_ascii d) 16) by done. by rewrite E1, E2.
Qed.

(** A session identifier is faithful to its random bytes: it has two
    hexadecimal digits for each of the sixteen bytes, and two sessions share an
    identifier only if they drew the same bytes. *)
Theorem session_id_faithful {W} (rand_Read : nat → M W string) w w' id bytes :
  rand_Read 16 w = (inl bytes, w') → newSessionID rand_Read w = (inl id, w') →
  String.length id = 2 * String.length bytes ∧ all_hex id = true ∧
  ∀ w2 w2' bytes2, rand_Read 16 w2 = (inl bytes2, w2') → newSessionID rand_Read w2 = (inl id, w2') → bytes2 = bytes.
Proof.
  intros Hr E. unfold newSessionID in E. rewrite bind_run, Hr in E. injection E as <-.
  split; [apply encode_length|]. split; [apply encode_hex|].
  intros w2 w2' bytes2 Hr2 E2. unfold newSessionID in E2. rewrite bind_run, Hr2 in E2. injection E2 as E2. by apply encode_inj.
Qed.

(** A world that is the list of random bytes to come. *)
Definition demo_rand (n : nat) : M string string := λ w, (inl (String.substring 0 n w), String.substring n (String.length w) w).

Lemma session_id_faithful_witness :
  newSessionID demo_rand "0123456789abcdef...." = (inl "30313233343536373839616263646566", "....") ∧
  all_hex "30313233343536373839616263646566" = true.
Proof.
  split; [vm_compute; reflexivity|].
  apply (session_id_faithful demo_rand "0123456789abcdef...." "...." "30313233343536373839616263646566" "0123456789abcdef");
    vm_compute; reflexivity.
Defined.
