(* ===== verification/Tracker.v ===== *)
(** * The tracker's state: tracker.go, config.go, pending.go

    The fields of [Tracker] that its operations change, the construction and
    validation of [New], the consistency state machine ([setState], [markDirty],
    [markBackendUnhealthy], [setConsistentState]) and the bounded channels.  The
    application's callbacks (filter, change sink, expected provider, integrity
    checker) are parameters that act on the world [W].  The [events] and [errors]
    channels are what they buffer, and whether they are closed; a panic is a value. *)

From S2P Require Import Prelude GoPath Types Store MemoryStore WatchTree.

(** ** Configuration *)

(** An expected-state provider streams entries and then returns an error or nil.
    A conforming one returns the callback's error, so a stream is its entries and
    its own final error.  [ep_WalkExpectedScope] is [Some] when the provider
    implements [ScopedExpectedProvider]. *)
Record ExpectedProvider (W : Type) : Type := mkProvider {
  ep_WalkExpected : string → M W (list ExpectedEntry * option error);
  ep_WalkExpectedScope : option (string → string → M W (list ExpectedEntry * option error))
}.
Arguments mkProvider {_}.
Arguments ep_WalkExpected {_}.
Arguments ep_WalkExpectedScope {_}.

Record IntegrityResult : Type := mkIntegrityResult {
  in_Valid : bool;
  in_Fingerprint : list Byte.byte;
  in_Reason : string
}.

Record Config (W St : Type) : Type := mkConfig {
  cf_Root : string;
  cf_Recursive : bool;
  cf_Expected : option (ExpectedProvider W);
  cf_ExpectedScope : Z;
  cf_ChangeSink : option (ChangeBatch → M W ());
  cf_Integrity : option (FileState → M W IntegrityResult);
  cf_Store : option St;
  cf_Filter : option (string → FileState → bool);
  cf_SymlinkPolicy : Z;
  cf_HardlinkPolicy : Z;
  cf_DebounceWindow : Z;
  cf_ReconcileInterval : Z;
  cf_EventBuffer : Z;
  cf_ReportEventLimit : Z;
  cf_ChangeBatchSize : Z
}.
Arguments mkConfig {_ _}.
Arguments cf_Root {_ _}.
Arguments cf_Recursive {_ _}.
Arguments cf_Expected {_ _}.
Arguments cf_ExpectedScope {_ _}.
Arguments cf_ChangeSink {_ _}.
Arguments cf_Integrity {_ _}.
Arguments cf_Store {_ _}.
Arguments cf_Filter {_ _}.
Arguments cf_SymlinkPolicy {_ _}.
Arguments cf_HardlinkPolicy {_ _}.
Arguments cf_DebounceWindow {_ _}.
Arguments cf_ReconcileInterval {_ _}.
Arguments cf_EventBuffer {_ _}.
Arguments cf_ReportEventLimit {_ _}.
Arguments cf_ChangeBatchSize {_ _}.

(** ** State *)

Inductive TrackerState : Type :=
  | StateCreated
  | StateStarting
  | StateSyncing
  | StateSynced
  | StateDirty
  | StateReconciling
  | StateStopped
  | StateDegraded.

#[global] Instance TrackerState_eq_dec : EqDecision TrackerState.
Proof. solve_decision. Defined.

Definition TrackerState_String (s : TrackerState) : string :=
  match s with
  | StateCreated => "CREATED"
  | StateStarting => "STARTING"
  | StateSyncing => "SYNCING"
  | StateSynced => "SYNCED"
  | StateDirty => "DIRTY"
  | StateReconciling => "RECONCILING"
  | StateStopped => "STOPPED"
  | StateDegraded => "DEGRADED"
  end.

Record trackerStats : Type := mkStats {
  sx_eventsReceived : Z;
  sx_eventsCoalesced : Z;
  sx_reconciliations : Z;
  sx_filesScanned : Z;
  sx_missingDetected : Z;
  sx_orphansDetected : Z;
  sx_dirtyPaths : Z;
  sx_integrityScanned : Z;
  sx_corruptDetected : Z;
  sx_publicEventsDropped : Z;
  sx_reportEventsTruncated : Z;
  sx_backendOverflows : Z
}.

(** The public counters. *)
Record Stats : Type := mkPublicStats {
  ps_EventsReceived : Z;
  ps_EventsCoalesced : Z;
  ps_EventsDropped : Z;
  ps_PublicEventsDropped : Z;
  ps_ReportEventsTruncated : Z;
  ps_BackendOverflows : Z;
  ps_Reconciliations : Z;
  ps_FilesScanned : Z;
  ps_MissingDetected : Z;
  ps_OrphansDetected : Z;
  ps_DirtyPaths : Z;
  ps_QueueDepth : Z;
  ps_IntegrityScanned : Z;
  ps_CorruptDetected : Z
}.

Definition zero_stats : trackerStats := mkStats 0 0 0 0 0 0 0 0 0 0 0 0.

Inductive pendingKind : Type :=
  | pendingReconcile
  | pendingIntegrity.

Record pendingGeneration : Type := mkPending {
  pg_kind : pendingKind;
  pg_sessionID : string;
  pg_generation : Z;
  pg_report : ReconcileReport;
  pg_events : list Event;
  pg_puts : list FileState;
  pg_deletes : list string;
  pg_integrity : option IntegrityReport
}.

(** The two public channels, which are closed together.  A send on a closed channel
    and a second close panic. *)
Inductive chanState : Type := ChannelsOpen | ChannelsClosed | Panicked.

#[global] Instance chanState_eq_dec : EqDecision chanState.
Proof. solve_decision. Defined.

(** [tk_events] and [tk_errors]: what the channels buffer.  [tk_closeOnce]: whether
    [closeOnce] has run. *)
Record Tracker (St : Type) : Type := mkTracker {
  tk_root : string;
  tk_store : St;
  tk_state : TrackerState;
  tk_started : bool;
  tk_closed : bool;
  tk_backendHealthy : bool;
  tk_sessionID : string;
  tk_watchTree : option Tree;
  tk_events : list Event;
  tk_errors : list error;
  tk_stats : trackerStats;
  tk_generation : Z;
  tk_pending : option pendingGeneration;
  tk_dirtyPending : bool;
  tk_channels : chanState;
  tk_closeOnce : bool
}.
Arguments mkTracker {_}.
Arguments tk_root {_}.
Arguments tk_store {_}.
Arguments tk_state {_}.
Arguments tk_started {_}.
Arguments tk_closed {_}.
Arguments tk_backendHealthy {_}.
Arguments tk_sessionID {_}.
Arguments tk_watchTree {_}.
Arguments tk_events {_}.
Arguments tk_errors {_}.
Arguments tk_stats {_}.
Arguments tk_generation {_}.
Arguments tk_pending {_}.
Arguments tk_dirtyPending {_}.
Arguments tk_channels {_}.
Arguments tk_closeOnce {_}.

Section setters.
Context {St : Type}.
Implicit Types t : Tracker St.

Definition set_store t (x : St) := let '(mkTracker r _ s st cl bh id wt ev er sx g p d ch on) := t in
  mkTracker r x s st cl bh id wt ev er sx g p d ch on.
Definition set_state_field t x := let '(mkTracker r so _ st cl bh id wt ev er sx g p d ch on) := t in
  mkTracker r so x st cl bh id wt ev er sx g p d ch on.
Definition set_started t x := let '(mkTracker r so s _ cl bh id wt ev er sx g p d ch on) := t in
  mkTracker r so s x cl bh id wt ev er sx g p d ch on.
Definition set_closed t x := let '(mkTracker r so s st _ bh id wt ev er sx g p d ch on) := t in
  mkTracker r so s st x bh id wt ev er sx g p d ch on.
Definition set_backendHealthy t x := let '(mkTracker r so s st cl _ id wt ev er sx g p d ch on) := t in
  mkTracker r so s st cl x id wt ev er sx g p d ch on.
Definition set_watchTree t x := let '(mkTracker r so s st cl bh id _ ev er sx g p d ch on) := t in
  mkTracker r so s st cl bh id x ev er sx g p d ch on.
Definition set_events t x := let '(mkTracker r so s st cl bh id wt _ er sx g p d ch on) := t in
  mkTracker r so s st cl bh id wt x er sx g p d ch on.
Definition set_errors t x := let '(mkTracker r so s st cl bh id wt ev _ sx g p d ch on) := t in
  mkTracker r so s st cl bh id wt ev x sx g p d ch on.
Definition set_stats t x := let '(mkTracker r so s st cl bh id wt ev er _ g p d ch on) := t in
  mkTracker r so s st cl bh id wt ev er x g p d ch on.
Definition set_generation t x := let '(mkTracker r so s st cl bh id wt ev er sx _ p d ch on) := t in
  mkTracker r so s st cl bh id wt ev er sx x p d ch on.
Definition set_pending t x := let '(mkTracker r so s st cl bh id wt ev er sx g _ d ch on) := t in
  mkTracker r so s st cl bh id wt ev er sx g x d ch on.
Definition set_dirtyPending t x := let '(mkTracker r so s st cl bh id wt ev er sx g p _ ch on) := t in
  mkTracker r so s st cl bh id wt ev er sx g p x ch on.
Definition set_channels t x := let '(mkTracker r so s st cl bh id wt ev er sx g p d _ on) := t in
  mkTracker r so s st cl bh id wt ev er sx g p d x on.
Definition set_closeOnce t x := let '(mkTracker r so s st cl bh id wt ev er sx g p d ch _) := t in
  mkTracker r so s st cl bh id wt ev er sx g p d ch x.

(** *** The consistency state *)

Definition setState t (state : TrackerState) : Tracker St :=
  if tk_closed t then t else set_state_field t state.

Definition markBackendUnhealthy t : Tracker St :=
  if tk_closed t then t else set_state_field (set_backendHealthy t false) StateDegraded.

Definition markDirty t : Tracker St :=
  if tk_closed t then t
  else if tk_started t && negb (tk_backendHealthy t) then set_state_field t StateDegraded
  else set_state_field t StateDirty.

Definition setConsistentState t : Tracker St :=
  if tk_closed t then t
  else if tk_started t && negb (tk_backendHealthy t) then set_state_field t StateDegraded
  else if tk_dirtyPending t then set_state_field t StateDirty
  else set_state_field t StateSynced.

(** *** Channels *)

Definition add_dropped (s : trackerStats) : trackerStats :=
  let '(mkStats a b c d e f g h i j k l) := s in mkStats a b c d e f g h i (u64 (j + 1)) k l.

(** [sendEvent]: a full buffer drops the event and counts it. *)
Definition sendEvent (buffer : Z) t (event : Event) : Tracker St :=
  match tk_channels t with
  | ChannelsOpen =>
      if decide (Z.of_nat (length (tk_events t)) < buffer)%Z then set_events t (tk_events t ++ [event])
      else set_stats t (add_dropped (tk_stats t))
  | _ => set_channels t Panicked
  end.

Definition errorsBuffer : nat := 16.

Definition sendError t (err : error) : Tracker St :=
  match tk_channels t with
  | ChannelsOpen =>
      if decide (length (tk_errors t) < errorsBuffer) then set_errors t (tk_errors t ++ [err]) else t
  | _ => set_channels t Panicked
  end.

(** [closeChannels], through [closeOnce]. *)
Definition closeChannels t : Tracker St :=
  if tk_closeOnce t then t
  else set_channels (set_closeOnce t true) (match tk_channels t with ChannelsOpen => ChannelsClosed | _ => Panicked end).

(** [Stats]; [QueueDepth] is the number of events waiting for the application. *)
Definition tracker_Stats t : Stats :=
  let s := tk_stats t in
  let publicDropped := sx_publicEventsDropped s in
  mkPublicStats (sx_eventsReceived s) (sx_eventsCoalesced s) publicDropped publicDropped (sx_reportEventsTruncated s)
    (sx_backendOverflows s) (sx_reconciliations s) (sx_filesScanned s) (sx_missingDetected s) (sx_orphansDetected s)
    (sx_dirtyPaths s) (Z.of_nat (length (tk_events t))) (sx_integrityScanned s) (sx_corruptDetected s).

(** The statistics of a committed reconciliation. *)
Definition addReportStats (s : trackerStats) (r : ReconcileReport) : trackerStats :=
  let '(mkStats a b c d e f g h i j k l) := s in
  mkStats a b (u64 (c + 1)) (u64 (d + rp_Scanned r)) (u64 (e + rp_Missing r)) (u64 (f + rp_Orphan r))
    g h i j (u64 (k + rp_EventsTruncated r)) l.

(** The statistics of a committed scrub. *)
Definition addIntegrityStats (s : trackerStats) (r : IntegrityReport) : trackerStats :=
  let '(mkStats a b c d e f g h i j k l) := s in
  mkStats a b c d e f g (u64 (h + ir_Scanned r)) (u64 (i + ir_Corrupt r)) j (u64 (k + ir_EventsTruncated r)) l.
End setters.

(** ** New *)

Section new.
Context {W St : Type} `{SnapshotStore St}.

(** The checks of [New] in order; the zero value of a size means its default.
    [newSessionID] reads random bytes and [Abs] the working directory: both are
    actions.  [newMemoryStore] is the store of a configuration without one. *)
Definition New (newSessionID : M W string) (Abs : string → M W string) (newMemoryStore : St)
    (config : Config W St) : M W (Config W St * Tracker St) :=
  if all_space (cf_Root config) then throw (errors_New "fsrecon: root is required")
  else if decide (cf_EventBuffer config < 0)%Z then throw (errors_New "fsrecon: event buffer cannot be negative")
  else if decide (cf_ReportEventLimit config < 0)%Z then
    throw (errors_New "fsrecon: report event limit cannot be negative")
  else if decide (cf_ChangeBatchSize config < 0)%Z then
    throw (errors_New "fsrecon: change batch size cannot be negative")
  else if decide (cf_ReconcileInterval config < 0)%Z then
    throw (errors_New "fsrecon: reconcile interval cannot be negative")
  else if decide (cf_DebounceWindow config < 0)%Z then
    throw (errors_New "fsrecon: debounce window cannot be negative")
  else if decide (RejectSymlinks < cf_SymlinkPolicy config)%Z then throw (errors_New "fsrecon: invalid symlink policy")
  else if decide (RejectHardlinks < cf_HardlinkPolicy config)%Z then
    throw (errors_New "fsrecon: invalid hardlink policy")
  else if decide (ExpectedAllEntries < cf_ExpectedScope config)%Z then
    throw (errors_New "fsrecon: invalid expected entry scope")
  else
    sessionID ← wrapping "fsrecon: create session id" newSessionID;
    root ← wrapping "fsrecon: resolve root" (Abs (cf_Root config));
    let root := Clean root in
    let store := default newMemoryStore (cf_Store config) in
    if match cf_ChangeSink config with Some _ => negb (store_batch store) | None => false end then
      throw (Sentinel ErrAtomicStoreRequired)
    else
      let nonzero n d := if decide (n = 0)%Z then d else n in
      mret (mkConfig root (cf_Recursive config) (cf_Expected config) (cf_ExpectedScope config)
              (cf_ChangeSink config) (cf_Integrity config) (Some store) (cf_Filter config)
              (cf_SymlinkPolicy config) (cf_HardlinkPolicy config)
              (nonzero (cf_DebounceWindow config) defaultDebounceWindow)
              (cf_ReconcileInterval config)
              (nonzero (cf_EventBuffer config) defaultEventBuffer)
              (nonzero (cf_ReportEventLimit config) defaultReportEventLimit)
              (nonzero (cf_ChangeBatchSize config) defaultChangeBatchSize),
            mkTracker root store StateCreated false false false sessionID None [] [] zero_stats 0 None false ChannelsOpen false).
End new.

(** What [New] guarantees of the configuration it returns. *)
Record config_ok {W St} `{SnapshotStore St} (config : Config W St) : Prop := {
  ok_root : clean_abs (cf_Root config);
  ok_buffer : (0 < cf_EventBuffer config)%Z;
  ok_limit : (0 < cf_ReportEventLimit config)%Z;
  ok_batch : (0 < cf_ChangeBatchSize config)%Z;
  ok_interval : (0 ≤ cf_ReconcileInterval config)%Z;
  ok_window : (0 < cf_DebounceWindow config)%Z;
  ok_sink store : is_Some (cf_ChangeSink config) → cf_Store config = Some store → store_batch store = true
}.

(** ** Lemmas *)

Section lemmas.
Context {St : Type}.
Implicit Types t : Tracker St.

(** A tracker that is closed stays in its state. *)
Lemma markDirty_closed t : tk_closed t = true → markDirty t = t.
Proof. intros H. unfold markDirty. by rewrite H. Qed.

(** The states of an open tracker after each transition. *)
Lemma state_transitions t s :
  tk_closed t = false →
  tk_state (setState t s) = s ∧
  tk_state (markDirty t) = (if tk_started t && negb (tk_backendHealthy t) then StateDegraded else StateDirty) ∧
  tk_state (markBackendUnhealthy t) = StateDegraded ∧
  tk_state (setConsistentState t) =
    (if tk_started t && negb (tk_backendHealthy t) then StateDegraded
     else if tk_dirtyPending t then StateDirty else StateSynced).
Proof.
  intros Hc. unfold setState, markDirty, markBackendUnhealthy, setConsistentState. rewrite Hc.
  destruct t; simpl. by destruct tk_started0, tk_backendHealthy0, tk_dirtyPending0.
Qed.
End lemmas.

(** ** Properties *)

(** A configuration [New] accepts. *)
Definition config_valid {W St} `{SnapshotStore St} (mem : St) (config : Config W St) : Prop :=
  all_space (cf_Root config) = false ∧ (0 ≤ cf_EventBuffer config)%Z ∧ (0 ≤ cf_ReportEventLimit config)%Z ∧
  (0 ≤ cf_ChangeBatchSize config)%Z ∧ (0 ≤ cf_ReconcileInterval config)%Z ∧ (0 ≤ cf_DebounceWindow config)%Z ∧
  (cf_SymlinkPolicy config ≤ RejectSymlinks)%Z ∧ (cf_HardlinkPolicy config ≤ RejectHardlinks)%Z ∧
  (cf_ExpectedScope config ≤ ExpectedAllEntries)%Z ∧ (is_Some (cf_ChangeSink config) → store_batch (default mem (cf_Store config)) = true).

Lemma New_cases {W St} `{SnapshotStore St} (newSessionID : M W string) (Abs : string → M W string)
    (mem : St) (config : Config W St) (w : W) :
  (∀ w, ∃ id w', newSessionID w = (inl id, w')) →
  (∀ p w, ∃ q w', Abs p w = (inl q, w') ∧ IsAbs q = true) →
  (config_valid mem config ∧ ∃ config' t w', New newSessionID Abs mem config w = (inl (config', t), w') ∧
    config_ok config' ∧ tk_root t = cf_Root config' ∧ tk_state t = StateCreated ∧ tk_closed t = false) ∨
  (¬ config_valid mem config ∧ ∃ e w', New newSessionID Abs mem config w = (inr e, w')).
Proof.
  intros Hid Habs. unfold New, config_valid, RejectSymlinks, RejectHardlinks, ExpectedAllEntries.
  destruct (all_space (cf_Root config)) eqn:Hroot; [right; split; [by intros [? _]|by do 2 eexists]|].
  repeat (case_decide; [right; split; [intros Hv; destruct_and! Hv; lia|by do 2 eexists]|]).
  destruct (Hid w) as (id & w1 & Eid), (Habs (cf_Root config) w1) as (q & w2 & Eabs & Hq).
  unfold mbind, M_bind, wrapping. rewrite !Eid, !Eabs.
  destruct (cf_ChangeSink config) as [sink|] eqn:Hsink; [destruct (store_batch (default mem (cf_Store config))) eqn:Hb; cbn [negb]|].
  2: { right. split; [|do 2 eexists; reflexivity]. intros (_ & _ & _ & _ & _ & _ & _ & _ & _ & Hs).
       by specialize (Hs (mk_is_Some _ _ eq_refl)). }
  all: left; split; [split_and!; (done || lia || by intros [? ?])|].
  all: do 3 eexists; split; [reflexivity|split; [|done]]; split; simpl;
    unfold defaultEventBuffer, defaultReportEventLimit, defaultChangeBatchSize, defaultDebounceWindow;
    try case_decide; (lia || done || (by apply clean_abs_Clean) || (intros ? Hs Heq; by injection Heq as <-) || (intros ? [? Hs]; congruence)).
Qed.

(** C38: [New] validates.  It succeeds exactly when the root is not blank, no
    size or duration is negative, the policies are in range and a change sink
    comes with an atomic store (given a session id and an absolute working
    directory); the configuration it returns then has a clean absolute root and
    positive sizes. *)
Theorem new_validates {W St} `{SnapshotStore St} (newSessionID : M W string) (Abs : string → M W string)
    (mem : St) (config : Config W St) (w : W) :
  (∀ w, ∃ id w', newSessionID w = (inl id, w')) →
  (∀ p w, ∃ q w', Abs p w = (inl q, w') ∧ IsAbs q = true) →
  ((∃ config' t w', New newSessionID Abs mem config w = (inl (config', t), w')) ↔ config_valid mem config) ∧
  ∀ config' t w', New newSessionID Abs mem config w = (inl (config', t), w') →
    config_ok config' ∧ tk_root t = cf_Root config' ∧ tk_state t = StateCreated ∧ tk_closed t = false.
Proof.
  intros Hid Habs. destruct (New_cases newSessionID Abs mem config w Hid Habs)
    as [(Hv & config' & t & w' & E & Hok)|(Hv & e & w' & E)]; rewrite E.
  - split; [split; [done|eauto]|]. intros ? ? ? Heq. by injection Heq as <- <- <-.
  - split; [|done]. split; [by intros (? & ? & ? & ?)|done].
Qed.

Definition demo_config : Config () MemoryStore :=
  mkConfig "data" true None ExpectedRegularFiles None None None None IgnoreSymlinks AllowHardlinks 0 0 0 0 0.

Lemma new_validates_witness :
  config_valid NewMemoryStore demo_config ∧
  ∃ config' t w', New (mret "session") (λ p, mret ("/" +:+ p)) NewMemoryStore demo_config () =
    (inl (config', t), w').
Proof.
  assert (config_valid NewMemoryStore demo_config) as H.
  { unfold config_valid. split_and!; try (vm_compute; congruence). }
  split; [exact H|].
  apply (new_validates (mret "session") (λ p, mret ("/" +:+ p)) NewMemoryStore demo_config ()).
  - intros w. do 2 eexists. reflexivity.
  - intros p w. do 2 eexists. split; reflexivity.
  - exact H.
Defined.
