(* ===== verification/Expected.v ===== *)
(** * Expected state: [expectedPath], [expectedRootCanBeExpected] and
    [loadExpectedScopes] of reconcile.go

    The application streams the entries it expects; the tracker resolves their
    paths below the root, filters them and keeps those inside the requested
    scopes. *)

From S2P Require Import Prelude GoPath DirtySet Types Diff Store WatchTree Scanner Tracker.

(** ** Definitions *)

Definition expectedPath (root path : string) : string + error :=
  if all_space path then inr (errors_New "fsrecon: expected path is empty")
  else
    let path := if IsAbs path then path else Join root path in
    let path := Clean path in
    match Rel root path with
    | None => inr (errors_New ("fsrecon: expected path " +:+ path +:+ " is outside root"))
    | Some rel =>
        if bool_decide (rel = "..") || HasPrefix rel "../" then
          inr (errors_New ("fsrecon: expected path " +:+ path +:+ " is outside root"))
        else inl path
    end.

Section expected.
Context {W H St : Type} `{FileSystem W H} `{SnapshotStore St}.
Context (config : Config W St) (ctx : M W ()).

Abbreviation TW := (Tracker St * W)%type.

(** A directory root is not an application object; a file root, a missing root
    without a snapshot and a missing root that was a file are. *)
Definition expectedRootCanBeExpected : M TW bool :=
  t ← gets fst;
  r ← try (onSnd (os_Lstat (tk_root t)));
  match r with
  | inl info => mret (negb (mode_IsDir (fi_Mode info)))
  | inr err =>
      if negb (errors_Is err ErrNotExist) then throw err
      else
        found ← onSnd (store_Get (tk_store t) ctx (tk_root t));
        match found with
        | None => mret true
        | Some state => mret (negb (bool_decide (fs_Type state = FileTypeDirectory)))
        end
  end.

(** The type an entry stands for: a manifest of regular files gives none. *)
Definition entryType (entry : ExpectedEntry) : option Z :=
  match ee_Type entry with
  | Some t => Some t
  | None => if decide (cf_ExpectedScope config = ExpectedRegularFiles) then Some FileTypeRegular else None
  end.

Definition expectedFiltered (path : string) (entry : ExpectedEntry) : bool :=
  match cf_Filter config with
  | None => false
  | Some filter =>
      negb (filter path (mkFileState path (newFileID "") (default FileTypeUnknown (entryType entry)) 0 zeroTime 0))
  end.

(** The closure [consume]: one streamed entry added to the map. *)
Definition consume (root : string) (scopes : list string) (rootExpectedAllowed : bool)
    (expected : gmap string Expected) (entry : ExpectedEntry) : gmap string Expected + error :=
  match expectedPath root (ee_Path entry) with
  | inr err => inr err
  | inl path =>
      if expectedFiltered path entry then inl expected
      else
        let inScope := if decide (path = root) then bool_decide (is_Some (ee_Type entry)) || rootExpectedAllowed
                       else existsb (λ scope, pathHasPrefix path scope) scopes in
        if negb inScope then inl expected
        else inl (<[path := mkExpected path (internalTypeFromPublic <$> entryType entry)
                              (ee_Size entry) (ee_Fingerprint entry)]> expected)
  end.

(** One provider walk feeding [consume]. *)
Definition consumeStream (root : string) (scopes : list string) (allowed : bool)
    (expected : gmap string Expected) (stream : M W (list ExpectedEntry * option error)) :
    M TW (gmap string Expected) :=
  '(entries, err) ← onSnd stream;
  expected ← foldM (λ m e, lift (consume root scopes allowed m e)) expected entries;
  match err with Some e => throw e | None => mret expected end.

Definition loadExpectedScopes (scopes : list string) : M TW (option (gmap string Expected)) :=
  match cf_Expected config with
  | None => mret None
  | Some provider =>
      t ← gets fst;
      allowed ← wrapping "fsrecon: inspect expected root" expectedRootCanBeExpected;
      expected ← wrapping "fsrecon: walk expected state"
        match ep_WalkExpectedScope provider with
        | Some walk =>
            foldM (λ m scope, consumeStream (tk_root t) scopes allowed m (walk (tk_root t) scope)) ∅ scopes
        | None => consumeStream (tk_root t) scopes allowed ∅ (ep_WalkExpected provider (tk_root t))
        end;
      mret (Some expected)
  end.

Definition loadExpected : M TW (option (gmap string Expected)) :=
  t ← gets fst; loadExpectedScopes [tk_root t].
End expected.

(** ** Lemmas *)

(** The test of [expectedPath] agrees with [within] on clean absolute paths. *)
Lemma expectedPath_within root path :
  clean_abs root → clean_abs path →
  match Rel root path with
  | None => true
  | Some rel => bool_decide (rel = "..") || HasPrefix rel "../"
  end = negb (within root path).
Proof.
  intros (r & -> & Gr & _)%clean_abs_elim (p & -> & Gp & _)%clean_abs_elim.
  pose proof (within_abs r p Gr Gp) as Hw. pose proof (Rel_abs r p Gr Gp) as HR. rewrite HR.
  destruct (strip_spec r p) as (k & Er & Ep & Hp). case_decide as E.
  { subst. replace (within (abs p) (abs p)) with true; [done|]. symmetry. by apply Hw. }
  destruct (within (abs r) (abs p)) eqn:Hin.
  - assert ((strip r p).1 = []) as Hs by (apply Hp; by apply Hw). rewrite Hs in *. cbn [length replicate app].
    assert (Forall good (strip r p).2) as Hg by (rewrite Ep in Gp; by apply Forall_app in Gp as []).
    destruct (join_sep_good_not_up (strip r p).2 Hg) as [H1 H2].
    { intros E2. rewrite E2, app_nil_r in Ep. rewrite app_nil_r in Er. congruence. }
    rewrite H2, bool_decide_false by done. done.
  - assert (length (strip r p).1 ≠ 0) as Hne.
    { intros E0%length_zero_iff_nil. apply Hp, Hw in E0. done. }
    assert (Forall good (strip r p).2) as Hg by (rewrite Ep in Gp; by apply Forall_app in Gp as []).
    destruct (join_sep_up _ _ Hne Hg) as [->|[_ H2]]; [done|]. rewrite H2. by rewrite orb_true_r.
Qed.

Lemma IsAbs_Join root path : IsAbs root = true → IsAbs (Join root path) = true.
Proof.
  destruct root as [|c root]; [done|]. intros Ha. unfold Join. rewrite decide_False by done.
  by rewrite IsAbs_Clean.
Qed.

Lemma expectedPath_spec root path p :
  clean_abs root → expectedPath root path = inl p →
  clean_abs p ∧ within root p = true ∧
  p = Clean (if IsAbs path then path else Join root path).
Proof.
  intros Hr. unfold expectedPath. destruct (all_space path); [done|].
  set (q := if IsAbs path then path else Join root path).
  assert (IsAbs q = true) as Hq.
  { unfold q. destruct (IsAbs path) eqn:Ha; [done|]. apply IsAbs_Join. by destruct Hr. }
  pose proof (clean_abs_Clean q Hq) as Hcq. pose proof (expectedPath_within root (Clean q) Hr Hcq) as Hw.
  cbv zeta. destruct (Rel root (Clean q)) as [rel|]; [|done]. rewrite Hw.
  destruct (within root (Clean q)) eqn:Hin; cbn [negb]; [|done]. intros E. injection E as <-. by split; [|split].
Qed.

(** ** Properties *)

(** C39: expected entries stay inside the root.  An entry path that is accepted
    resolves, from the root when relative, to a clean absolute path inside the
    root; a blank path and one that climbs out are refused. *)
Theorem expectedPath_confined (root path : string) :
  clean_abs root →
  match expectedPath root path with
  | inl p => clean_abs p ∧ within root p = true ∧ p = Clean (if IsAbs path then path else Join root path)
  | inr _ => all_space path = true ∨
             within root (Clean (if IsAbs path then path else Join root path)) = false
  end.
Proof.
  intros Hr. destruct (expectedPath root path) as [p|err] eqn:E; [by apply expectedPath_spec|].
  unfold expectedPath in E. destruct (all_space path); [by left|right].
  set (q := if IsAbs path then path else Join root path) in *.
  assert (IsAbs q = true) as Hq.
  { unfold q. destruct (IsAbs path) eqn:Ha; [done|]. apply IsAbs_Join. by destruct Hr. }
  pose proof (expectedPath_within root (Clean q) Hr (clean_abs_Clean q Hq)) as Hw. cbv zeta in E.
  apply negb_true_iff. rewrite <-Hw. destruct (Rel root (Clean q)) as [rel|]; [|done].
  by destruct (bool_decide (rel = "..") || HasPrefix rel "../").
Qed.

Lemma expectedPath_confined_witness :
  expectedPath "/data" "a/../b" = inl "/data/b" ∧ within "/data" "/data/b" = true ∧
  expectedPath "/data" "../x" = inr (errors_New "fsrecon: expected path /x is outside root").
Proof.
  assert (expectedPath "/data" "a/../b" = inl "/data/b") as E by (vm_compute; reflexivity).
  split; [exact E|]. split; [|vm_compute; reflexivity].
  pose proof (expectedPath_confined "/data" "a/../b" ltac:(by_decide)) as H. rewrite E in H. apply H.
Defined.
