(* ===== verification/Reconcile.v ===== *)
(** * Reconciliation: [reconcileScopes], [deliverPending], [resumePending] and
    [resumePendingIntegrity]

    The locals that the closures of [reconcileScopes] share are the record
    [locals]; the body runs in the monad over the locals, the tracker and the
    world.  An error of the body is the [fail] closure: the duration is set, the
    tracker marked dirty, and the report made so far returned with the error.
    [clock] is [time.Now()].  [fast] is the Bolt fast path, taken when the store is
    a [BoltStore]. *)

From S2P Require Import Prelude GoPath DirtySet Scopes Types Diff Delivery Store WatchTree Scanner Tracker Expected.

(** ** Data *)

Record locals : Type := mkLocals {
  lc_report : ReconcileReport;
  lc_previous : view;
  lc_actual : view;
  lc_policyEvents : list Event;
  lc_observed : gset string;
  lc_allEvents : list Event
}.

Definition with_report (f : ReconcileReport → ReconcileReport) (l : locals) : locals :=
  mkLocals (f (lc_report l)) (lc_previous l) (lc_actual l) (lc_policyEvents l) (lc_observed l) (lc_allEvents l).
Definition with_previous (f : view → view) (l : locals) : locals :=
  mkLocals (lc_report l) (f (lc_previous l)) (lc_actual l) (lc_policyEvents l) (lc_observed l) (lc_allEvents l).
Definition with_actual (f : view → view) (l : locals) : locals :=
  mkLocals (lc_report l) (lc_previous l) (f (lc_actual l)) (lc_policyEvents l) (lc_observed l) (lc_allEvents l).
Definition with_policyEvents (f : list Event → list Event) (l : locals) : locals :=
  mkLocals (lc_report l) (lc_previous l) (lc_actual l) (f (lc_policyEvents l)) (lc_observed l) (lc_allEvents l).
Definition with_observed (f : gset string → gset string) (l : locals) : locals :=
  mkLocals (lc_report l) (lc_previous l) (lc_actual l) (lc_policyEvents l) (f (lc_observed l)) (lc_allEvents l).
Definition with_allEvents (f : list Event → list Event) (l : locals) : locals :=
  mkLocals (lc_report l) (lc_previous l) (lc_actual l) (lc_policyEvents l) (lc_observed l) (f (lc_allEvents l)).

(** Fields of the report set outside [countEvent]. *)
Definition set_rp_Duration (d : Z) (r : ReconcileReport) : ReconcileReport :=
  let '(mkReport g st _ sc he cr mo de mv re mi orp iv co evs tr) := r in
  mkReport g st d sc he cr mo de mv re mi orp iv co evs tr.
Definition set_rp_StartedAt (z : Z) (r : ReconcileReport) : ReconcileReport :=
  let '(mkReport g _ du sc he cr mo de mv re mi orp iv co evs tr) := r in
  mkReport g z du sc he cr mo de mv re mi orp iv co evs tr.
Definition set_rp_Healthy (h : Z) (r : ReconcileReport) : ReconcileReport :=
  let '(mkReport g st du sc _ cr mo de mv re mi orp iv co evs tr) := r in
  mkReport g st du sc h cr mo de mv re mi orp iv co evs tr.
Definition inc_rp_Scanned (r : ReconcileReport) : ReconcileReport :=
  let '(mkReport g st du sc he cr mo de mv re mi orp iv co evs tr) := r in
  mkReport g st du (u64 (sc + 1)) he cr mo de mv re mi orp iv co evs tr.

(** The scanner runs in the extended state with the file system of the world. *)
#[global] Instance FileSystem_lift {X W H} `{FileSystem W H} : FileSystem (X * W) H := {
  os_Lstat p := onSnd (os_Lstat p);
  os_Stat p := onSnd (os_Stat p);
  os_Open p := onSnd (os_Open p);
  h_ReadDir h n := onSnd (h_ReadDir h n)
}.

Section reconcile.
Context {W H St : Type} `{FileSystem W H} `{SnapshotStore St}.
Context (config : Config W St) (ctx : M W ()) (clock : W → Z * W).
Context (backend_Add backend_Remove : string → M W ()) (fuel : nat).

Abbreviation TW := (Tracker St * W)%type.
Abbreviation LW := (locals * TW)%type.

Definition time_Now {X} : M (X * W) Z := λ '(x, w), let '(z, w') := clock w in (inl z, (x, w')).

(** ** Scanning the scopes *)

(** [tree.Add] of the tracker's watch tree, when it has one. *)
Definition watchAdd (path : string) : M TW () := λ '(t, w),
  match tk_watchTree t with
  | None => (inl (), (t, w))
  | Some tree =>
      let '(r, (tree', w')) := WatchTree.Add backend_Add path (tree, w) in
      (r, (set_watchTree t (Some tree'), w'))
  end.

Definition watchSync (scopes : list string) (observed : gset string) : M TW () := λ '(t, w),
  match tk_watchTree t with
  | None => (inl (), (t, w))
  | Some tree =>
      let '(r, (tree', w')) := WatchTree.Sync backend_Remove scopes observed (tree, w) in
      (r, (set_watchTree t (Some tree'), w'))
  end.

Definition scannerFilter : option (Entry → bool) :=
  match cf_Filter config with
  | None => None
  | Some f => Some (λ entry, let state := stateFromEntry entry in f (fs_Path state) state)
  end.

Definition theScanner : Scanner :=
  mkScanner (cf_Recursive config) (scannerPolicy (cf_SymlinkPolicy config)) scannerFilter.

(** The callback of [s.Scan]. *)
Definition onEntry (entry : Entry) : M LW () :=
  let state := stateFromEntry entry in
  (if bool_decide (fs_Type state = FileTypeDirectory) && cf_Recursive config then
     wrapping "add recursive watch" (onSnd (watchAdd (fs_Path state))) ;;
     updFst (with_observed (union {[fs_Path state]}))
   else mret ()) ;;
  (if bool_decide (fs_Type state = FileTypeRegular) && bool_decide (1 < en_Links entry)%Z then
     if decide (cf_HardlinkPolicy config = RejectHardlinks) then
       throw (Wrapf (en_Path entry) (Sentinel ErrHardlink))
     else if decide (cf_HardlinkPolicy config = ReportHardlinks) then
       z ← onSnd time_Now;
       updFst (with_policyEvents (λ evs, evs ++
         [mkEvent EventInvalid (fs_Path state) "" None (Some state) SourceReconcile z]))
     else mret ()
   else mret ()) ;;
  updFst (with_actual (<[fs_Path state := state]>)) ;;
  updFst (with_report inc_rp_Scanned).

Definition scanScope (scope : string) : M LW () :=
  r ← try (os_Lstat scope);
  match r with
  | inr statErr =>
      if errors_Is statErr ErrNotExist then mret () else throw (Wrapf "fsrecon: stat scope" statErr)
  | inl info =>
      (if mode_IsDir (fi_Mode info) then
         updFst (with_previous (delete scope)) ;; updFst (with_observed (union {[scope]}))
       else mret ()) ;;
      r ← try (Scan theScanner (onSnd (onSnd ctx)) onEntry fuel scope);
      match r with
      | inl (Some _) => mret ()
      | inl None => throw (Sentinel OutOfFuel)
      | inr err =>
          if errors_Is err ErrNotExist then mret ()
          else throw (Wrapf "fsrecon: scan"
                 (if errors_Is err ScannerErrSymlink then Wrapf "scan" (Sentinel ErrSymlink) else err))
      end
  end.

(** The snapshot entries of the scopes. *)
Definition loadPrevious (scopes : list string) : M LW () :=
  forM scopes (λ scope,
    wrapping "fsrecon: walk snapshot" (
      t ← gets (λ s, s.2.1);
      store_Walk (tk_store t) (onSnd (onSnd ctx)) scope (λ state,
        updFst (with_previous (<[fs_Path state := state]>))))).

(** ** Comparing *)

Definition orphanEligible (state : State) : bool :=
  bool_decide (cf_ExpectedScope config = ExpectedAllEntries) ||
  bool_decide (fileTypeFromInternal (st_Type state) = FileTypeRegular).

(** [countEvent], [addReportEvent] and the append to [allEvents]. *)
Definition recordOne (event : Event) (l : locals) : locals :=
  with_allEvents (λ evs, evs ++ [event])
    (with_report (λ r, recordEvent (cf_ReportEventLimit config) r event) l).

Definition emitChange (change : Change) : M LW () :=
  z ← onSnd time_Now;
  updFst (recordOne (eventFromChange z change)).

Definition compareStates (expected : option (gmap string Expected)) : M LW () :=
  l ← gets fst;
  WalkDiffScoped (toInternalStates (lc_previous l)) (toInternalStates (lc_actual l)) emitChange
    expected (Some orphanEligible) ;;
  forM (lc_policyEvents l) (λ event, updFst (recordOne event)).

(** ** Committing *)

Definition deletesOf (l : locals) : list string := (map_to_list (lc_previous l ∖ lc_actual l)).*1.
Definition putsOf (l : locals) : list FileState := (map_to_list (lc_actual l)).*2.

(** [deliverPending]. *)
Definition deliverPending : M TW () :=
  t ← gets fst;
  match tk_pending t, cf_ChangeSink config with
  | Some p, Some sink =>
      onSnd (deliver (Some sink) (pg_sessionID p) (pg_generation p) (cf_ChangeBatchSize config) (pg_events p))
  | _, _ => mret ()
  end.

(** A mutation of the tracker's store. *)
Definition onStore (op : M (St * W) ()) : M TW () := λ '(t, w),
  let '(r, (s', w')) := op (tk_store t, w) in (r, (set_store t s', w')).

(** An error is wrapped in its context on a first attempt, and returned as it is
    when a pending generation is resumed. *)
Definition in_context {S A} (wrap : bool) (context : string) (m : M S A) : M S A :=
  if wrap then wrapping context m else m.

(** The snapshot mutation of a generation: one batch when the store is atomic. *)
Definition applySnapshot (wrap : bool) (puts : list FileState) (deletes : list string) : M TW () :=
  t ← gets fst;
  if store_batch (tk_store t) then
    in_context wrap "fsrecon: apply snapshot batch" (onStore (store_Apply ctx puts deletes))
  else
    forM deletes (λ path,
      in_context wrap "fsrecon: delete snapshot" (onStore (store_Delete ctx path))) ;;
    forM puts (λ state,
      in_context wrap "fsrecon: put snapshot" (onStore (store_Put ctx state))).

(** Freezing the generation and handing it to the sink, when there is one. *)
Definition journal (l : locals) : M TW () :=
  match cf_ChangeSink config with
  | None => mret ()
  | Some _ =>
      updFst (λ t, set_pending t (Some (mkPending pendingReconcile (tk_sessionID t)
        (rp_Generation (lc_report l)) (lc_report l) (cloneEvents (lc_allEvents l)) (putsOf l) (deletesOf l) None))) ;;
      deliverPending
  end.

(** Entries that meet their constraints. *)
Definition satisfied (actual : view) (path : string) (entry : Expected) : bool :=
  match actual !! path with
  | None => false
  | Some state =>
      match ex_Type entry with Some ty => bool_decide (internalTypeFromPublic (fs_Type state) = ty) | None => true end &&
      match ex_Size entry with Some n => bool_decide (fs_Size state = n) | None => true end
  end.

Definition healthyOf (expected : option (gmap string Expected)) (l : locals) : Z :=
  let r := lc_report l in
  match expected with
  | Some exp => u64 (rp_Healthy r + Z.of_nat (size (filter (λ kv, satisfied (lc_actual l) kv.1 kv.2 = true) exp)))
  | None => u64 (Z.of_nat (size (lc_actual l)) - rp_Created r - rp_Modified r - rp_Replaced r)
  end.

(** The end of a committed generation. *)
Definition publish (events : list Event) : M TW () :=
  updFst (λ t, foldl (sendEvent (cf_EventBuffer config)) t events).

Definition finishReport (expected : option (gmap string Expected)) : M LW () :=
  updFst (λ l, with_report (set_rp_Healthy (healthyOf expected l)) l) ;;
  z ← onSnd time_Now;
  updFst (with_report (λ r, set_rp_Duration (z - rp_StartedAt r) r)) ;;
  l ← gets fst;
  onSnd (updFst (λ t, set_stats t (addReportStats (tk_stats t) (lc_report l)))) ;;
  onSnd (updFst (λ t, setConsistentState (set_generation t (rp_Generation (lc_report l))))) ;;
  onSnd (publish (rp_Events (lc_report l))).

(** The generic path after the scopes are known: reading the snapshot, the file
    system and the expected state, *)
Definition observe (scopes : list string) : M LW (option (gmap string Expected)) :=
  loadPrevious scopes ;;
  forM scopes scanScope ;;
  (if cf_Recursive config then
     l ← gets fst;
     wrapping "fsrecon: sync recursive watches" (onSnd (watchSync scopes (lc_observed l)))
   else mret ()) ;;
  onSnd (loadExpectedScopes config ctx scopes).

(** comparing, delivering and committing. *)
Definition reconcileBody (scopes : list string) : M LW () :=
  expected ← observe scopes;
  compareStates expected ;;
  l ← gets fst;
  onSnd (journal l) ;;
  onSnd (applySnapshot true (putsOf l) (deletesOf l)) ;;
  onSnd (updFst (λ t, set_pending t None)) ;;
  finishReport expected.

(** ** Resuming a pending generation *)

Definition stamp (started : Z) (r : ReconcileReport) : TW → ReconcileReport * TW := λ '(t, w),
  let '(z, w') := clock w in (set_rp_Duration (z - started) (set_rp_StartedAt started r), (t, w')).

Definition resumePending (p : pendingGeneration) : TW → (ReconcileReport * option error) * TW := λ '(t, w),
  let '(started, w) := clock w in
  match (deliverPending ;; applySnapshot false (pg_puts p) (pg_deletes p)) (t, w) with
  | (inr err, tw) => let '(r, tw) := stamp started (pg_report p) tw in ((r, Some err), tw)
  | (inl _, (t, w)) =>
      let t := set_pending t None in
      let t := set_generation t (pg_generation p) in
      let t := set_stats t (addReportStats (tk_stats t) (pg_report p)) in
      let t := setConsistentState t in
      let '(r, tw) := stamp started (pg_report p) (t, w) in ((r, None), tw)
  end.

(** [resumePendingIntegrity] of integrity.go. *)
Definition resumePendingIntegrity : TW → (IntegrityReport * option error) * TW := λ '(t, w),
  match tk_pending t with
  | Some p =>
      match pg_integrity p with
      | Some report =>
          match deliver (cf_ChangeSink config) (pg_sessionID p) (pg_generation p) (cf_ChangeBatchSize config)
                  (pg_events p) w with
          | (inr err, w) => ((report, Some err), (t, w))
          | (inl _, w) =>
              let t := set_pending t None in
              let t := set_generation t (pg_generation p) in
              let t := set_stats t (addIntegrityStats (tk_stats t) report) in
              ((report, None), (foldl (sendEvent (cf_EventBuffer config)) t (ir_Events report), w))
          end
      | None => ((zero_integrity_report, Some (errors_New "fsrecon: no pending integrity generation")), (t, w))
      end
  | None => ((zero_integrity_report, Some (errors_New "fsrecon: no pending integrity generation")), (t, w))
  end.

(** ** reconcileScopes *)

Context (fast : option (ReconcileReport → TW → (ReconcileReport * option error) * TW)).

(** The [fail] closure. *)
Definition fail (l : locals) (err : error) : TW → (ReconcileReport * option error) * TW := λ '(t, w),
  let '(z, w') := clock w in
  ((set_rp_Duration (z - rp_StartedAt (lc_report l)) (lc_report l), Some err), (markDirty t, w')).

(** A new generation, from [t.setState(StateReconciling)] on. *)
Definition newGeneration (requested : list string) : TW → (ReconcileReport * option error) * TW := λ '(t, w),
  let t := setState t StateReconciling in
  let '(started, w) := clock w in
  let report := mkReport (u64 (tk_generation t + 1)) started 0 0 0 0 0 0 0 0 0 0 0 0 [] 0 in
  let scopes := collapseScopes (tk_root t) requested in
  match scopes with
  | [] =>
      let '(z, w) := clock w in
      let t := setConsistentState (set_generation t (rp_Generation report)) in
      ((set_rp_Duration (z - started) report, None), (t, w))
  | _ =>
      match fast, cf_ChangeSink config, decide (scopes = [tk_root t]) with
      | Some reconcileBoltLocked, None, left _ => reconcileBoltLocked report (t, w)
      | _, _, _ =>
          match reconcileBody scopes (mkLocals report ∅ ∅ [] {[tk_root t]} [], (t, w)) with
          | (inr err, (l, tw)) => fail l err tw
          | (inl _, (l, tw)) => ((lc_report l, None), tw)
          end
      end
  end.

(** The part under [reconcileMu], after the check that the tracker is not closed. *)
Definition reconcileLocked (requested : list string) : TW → (ReconcileReport * option error) * TW := λ '(t, w),
  match tk_pending t with
  | None => newGeneration requested (t, w)
  | Some p =>
      match pg_kind p with
      | pendingReconcile => resumePending p (t, w)
      | pendingIntegrity =>
          match resumePendingIntegrity (t, w) with
          | ((_, Some err), tw) => ((zero_report, Some err), tw)
          | ((_, None), tw) => newGeneration requested tw
          end
      end
  end.

Definition reconcileScopes (requested : list string) : TW → (ReconcileReport * option error) * TW := λ '(t, w),
  if tk_closed t then ((zero_report, Some (Sentinel ErrClosed)), (t, w)) else reconcileLocked requested (t, w).

Definition Reconcile : TW → (ReconcileReport * option error) * TW := λ '(t, w),
  reconcileScopes [tk_root t] (t, w).
End reconcile.
