(* ===== verification/ReconcileSpec.v ===== *)
(** * What a reconciliation does

    Lemmas on the phases of [reconcileBody] for every file system, store and
    application callback, and the theorems about a generation: what it commits,
    that a failed one commits nothing, and that a pending one is frozen. *)

From S2P Require Import Prelude Frame GoPath DirtySet Scopes Types Diff DiffSpec Delivery Store.
From S2P Require Import MemoryStore BoltStore WatchTree Scanner Tracker Expected Reconcile.

(** A failing sequence fails in its first or in its second part. *)
Lemma bind_err {S A B} (m : M S A) (k : A → M S B) s e s' :
  (m ≫= k) s = (inr e, s') →
  m s = (inr e, s') ∨ ∃ a s1, m s = (inl a, s1) ∧ k a s1 = (inr e, s').
Proof. rewrite bind_run. destruct (m s) as [[a|e'] s1]; [eauto|]. intros Heq. injection Heq as <- <-. by left. Qed.

(** A tracker that differs from [t0] in the watch tree and the pending generation
    only. *)
Definition core {St} (t0 t : Tracker St) : Prop := ∃ wt p, t = set_pending (set_watchTree t0 wt) p.

Lemma core_refl {St} (t : Tracker St) : core t t.
Proof. exists (tk_watchTree t), (tk_pending t). by destruct t. Qed.

Lemma core_trans {St} (t1 t2 t3 : Tracker St) : core t1 t2 → core t2 t3 → core t1 t3.
Proof. intros (wt & p & ->) (wt' & p' & ->). exists wt', p'. by destruct t1. Qed.

Lemma core_pending {St} (t0 t : Tracker St) p : core t0 t → core t0 (set_pending t p).
Proof. intros (wt & p' & ->). exists wt, p. by destruct t0. Qed.

Lemma core_watchTree {St} (t0 t : Tracker St) wt : core t0 t → core t0 (set_watchTree t wt).
Proof. intros (wt' & p & ->). exists wt, p. by destruct t0. Qed.

Lemma core_fields {St} (t0 t : Tracker St) :
  core t0 t → tk_store t = tk_store t0 ∧ tk_generation t = tk_generation t0 ∧ tk_root t = tk_root t0 ∧
  tk_closed t = tk_closed t0 ∧ tk_sessionID t = tk_sessionID t0 ∧ tk_started t = tk_started t0 ∧
  tk_backendHealthy t = tk_backendHealthy t0 ∧ tk_dirtyPending t = tk_dirtyPending t0.
Proof. intros (wt & p & ->). by destruct t0. Qed.

(** Inserting the entries of a scope into a map. *)
Lemma insert_entries_lookup (m acc : view) ks p :
  view_ok m → (∀ k, k ∈ ks → is_Some (m !! k)) →
  foldl (λ a st, <[fs_Path st := st]> a) acc ((λ k, m !!! k) <$> ks) !! p =
  if decide (p ∈ ks) then m !! p else acc !! p.
Proof.
  intros Hm. revert acc. induction ks as [|k ks IH]; intros acc Hks; [done|].
  rewrite fmap_cons. cbn [foldl]. destruct (Hks k ltac:(left)) as [st Hst].
  rewrite (lookup_total_correct _ _ _ Hst). destruct (Hm _ _ Hst) as [_ Hpath]. rewrite Hpath.
  rewrite IH by (intros; apply Hks; by right).
  destruct (decide (p ∈ ks)); [rewrite decide_True by set_solver; done|]. rewrite lookup_insert.
  destruct (decide (k = p)) as [->|]; [rewrite decide_True by set_solver; done|].
  rewrite decide_False by set_solver. done.
Qed.

Lemma insert_scope_lookup (m acc : view) scope p :
  view_ok m →
  foldl (λ a st, <[fs_Path st := st]> a) acc (scope_entries m scope) !! p =
  if within scope p && bool_decide (is_Some (m !! p)) then m !! p else acc !! p.
Proof.
  intros Hm. unfold scope_entries. rewrite insert_entries_lookup; [|done|].
  - destruct (within scope p && bool_decide (is_Some (m !! p))) eqn:E.
    + apply andb_true_iff in E as [Hw Hs%bool_decide_eq_true].
      rewrite decide_True; [done|]. rewrite elem_of_sortedKeys. by apply elem_of_scope_view.
    + rewrite decide_False; [done|]. rewrite elem_of_sortedKeys, elem_of_scope_view. intros [Hw Hs].
      by rewrite Hw, bool_decide_true in E.
  - intros k. rewrite elem_of_sortedKeys, elem_of_scope_view. by intros [_ ?].
Qed.

Section phases.
Context {W H St : Type} `{FileSystem W H} `{SnapshotStoreLaws St}.
Context (config : Config W St) (ctx : M W ()) (clock : W → Z * W).
Context (backend_Add backend_Remove : string → M W ()) (fuel : nat).

Abbreviation TW := (Tracker St * W)%type.
Abbreviation LW := (locals * TW)%type.

(** An invariant of the locals and the tracker. *)
Definition LI (J : locals → Tracker St → Prop) : LW → Prop := λ s, J s.1 s.2.1.

Lemma LI_world J {A} (m : M W A) : preserves (LI J) (onSnd (onSnd m)).
Proof. intros [l [t w]] HJ. unfold onSnd. by destruct (m w) as [r w']. Qed.

Lemma LI_clock J : preserves (LI J) (onSnd (time_Now clock)).
Proof. intros [l [t w]] HJ. unfold onSnd, time_Now. by destruct (clock w) as [z w']. Qed.

Lemma LI_locals (J : locals → Tracker St → Prop) f :
  (∀ l t, J l t → J (f l) t) → preserves (LI J) (updFst f).
Proof. intros Hf. apply preserves_updFst. intros l [t w]. apply Hf. Qed.

Lemma LI_tracker (J : locals → Tracker St → Prop) f :
  (∀ l t, J l t → J l (f t)) → preserves (LI J) (onSnd (updFst f)).
Proof. intros Hf [l [t w]] HJ. by apply Hf. Qed.

Lemma LI_watchAdd (J : locals → Tracker St → Prop) p :
  (∀ l t wt, J l t → J l (set_watchTree t wt)) → preserves (LI J) (onSnd (watchAdd backend_Add p)).
Proof.
  intros HJ [l [t w]] Hs. unfold onSnd, watchAdd. destruct (tk_watchTree t) as [tree|]; [|done].
  destruct (WatchTree.Add backend_Add p (tree, w)) as [r [tree' w']]. by apply HJ.
Qed.

Lemma LI_watchSync (J : locals → Tracker St → Prop) scopes obs :
  (∀ l t wt, J l t → J l (set_watchTree t wt)) → preserves (LI J) (onSnd (watchSync backend_Remove scopes obs)).
Proof.
  intros HJ [l [t w]] Hs. unfold onSnd, watchSync. destruct (tk_watchTree t) as [tree|]; [|done].
  destruct (WatchTree.Sync backend_Remove scopes obs (tree, w)) as [r [tree' w']]. by apply HJ.
Qed.

(** *** Loading expected state reads the tracker and the world only *)

Lemma TW_world (J : Tracker St → Prop) {A} (m : M W A) : preserves (λ s : TW, J s.1) (onSnd m).
Proof. intros [t w] HJ. unfold onSnd. by destruct (m w) as [r w']. Qed.

Lemma expectedRoot_preserves (J : Tracker St → Prop) :
  preserves (λ s : TW, J s.1) (expectedRootCanBeExpected ctx).
Proof.
  unfold expectedRootCanBeExpected. apply preserves_bind; [frame|intros t'].
  apply preserves_bind; [apply preserves_try, TW_world|intros r]. destruct r; [frame|].
  apply preserves_if; [frame|]. apply preserves_bind; [apply TW_world|intros found]. frame.
Qed.

Lemma loadExpected_preserves (J : Tracker St → Prop) scopes :
  preserves (λ s : TW, J s.1) (loadExpectedScopes config ctx scopes).
Proof.
  unfold loadExpectedScopes. destruct (cf_Expected config) as [provider|]; [|frame].
  assert (∀ root sc al m st, preserves (λ s : TW, J s.1) (consumeStream config root sc al m st)) as Hcs.
  { intros. unfold consumeStream. apply preserves_bind; [apply TW_world|intros [es err]].
    apply preserves_bind; [apply preserves_foldM; intros; frame|intros m']. frame. }
  apply preserves_bind; [frame|intros t]. apply preserves_bind.
  - apply preserves_wrapping, expectedRoot_preserves.
  - intros al. apply preserves_bind; [apply preserves_wrapping|intros; frame].
    destruct (ep_WalkExpectedScope provider); [apply preserves_foldM; intros; apply Hcs|apply Hcs].
Qed.

(** *** The previous snapshot *)

Definition in_scopes (scopes : list string) (p : string) : bool := existsb (λ scope, within scope p) scopes.

(** The part of the snapshot inside the scopes. *)
Definition scoped (m : view) (scopes : list string) (p : string) : option FileState :=
  if in_scopes scopes p then m !! p else None.

(** Loading changes the previous map only. *)
Definition load_inv (l0 : locals) (t0 : Tracker St) (l : locals) (t : Tracker St) : Prop :=
  t = t0 ∧ l = with_previous (λ _, lc_previous l) l0.

Lemma loadPrevious_preserves l0 t0 scopes :
  preserves (LI (load_inv l0 t0)) (loadPrevious ctx scopes).
Proof.
  unfold loadPrevious. apply preserves_forM. intros scope _. apply preserves_wrapping, preserves_bind; [frame|].
  intros t. apply store_Walk_frame; [apply LI_world|]. intros st. apply LI_locals.
  intros l t' [? ->]. by split.
Qed.

Lemma loadPrevious_lookup scopes l t w l' t' w' p :
  store_ok (tk_store t) → Forall (λ sc, clean_abs sc ∧ scope_ok (tk_store t) sc) scopes →
  loadPrevious ctx scopes (l, (t, w)) = (inl (), (l', (t', w'))) →
  lc_previous l' !! p =
    if in_scopes scopes p && bool_decide (is_Some (store_view (tk_store t) !! p))
    then store_view (tk_store t) !! p else lc_previous l !! p.
Proof.
  intros Hok Hsc. revert l w. induction Hsc as [|sc scopes [Hc Hs] Hsc IH]; intros l w.
  { cbn. intros Heq. by injection Heq as <- _ _. }
  unfold loadPrevious. cbn [forM]. intros ([] & [l1 [t1 w1]] & E & E')%bind_inv.
  assert (t1 = t) as ->.
  { pose proof (loadPrevious_preserves l t [sc] (l, (t, w))) as Hp. unfold loadPrevious in Hp. cbn [forM] in Hp.
    rewrite bind_run, E in Hp. destruct Hp as [Ht _]; [split; [done|]; by destruct l|exact Ht]. }
  rewrite (IH _ _ E'). unfold wrapping in E. rewrite bind_run in E. cbn [gets snd fst] in E.
  destruct (store_Walk _ _ sc _ (l, (t, w))) as [[[]|e] s1] eqn:Ew; [|done]. injection E as ->.
  apply (store_Walk_law (λ s : LW, lc_previous s.1) (λ a st, <[fs_Path st := st]> a)) in Ew; [|done|done|done|..].
  - simpl in Ew. rewrite Ew, insert_scope_lookup by by apply store_view_ok. cbn [in_scopes existsb].
    destruct (within sc p), (bool_decide (is_Some (store_view (tk_store t) !! p))); cbn [orb andb].
    + by destruct (in_scopes scopes p).
    + by rewrite !andb_false_r.
    + done.
    + by rewrite !andb_false_r.
  - intros [l2 [t2 w2]]. unfold onSnd. by destruct (ctx w2) as [r w3].
  - intros st [l2 [t2 w2]] s3 E. by injection E as <-.
Qed.

(** *** Scanning *)

(** What the scan keeps: the tracker's core, the keys of the scanned map, and the
    previous map but for the scopes that are directories. *)
Record scan_inv (t0 : Tracker St) (r0 : ReconcileReport) (prev0 : view) (scopes : list string)
    (l : locals) (t : Tracker St) : Prop := {
  si_core : core t0 t;
  si_report : ∃ n, lc_report l = Nat.iter n inc_rp_Scanned r0;
  si_actual : view_ok (lc_actual l);
  si_previous p : lc_previous l !! p = prev0 !! p ∨ (p ∈ scopes ∧ lc_previous l !! p = None);
  si_events : lc_allEvents l = []
}.

(** Invariants that a scan keeps: closed under the changes [onEntry] and
    [scanScope] make to the locals and the tracker. *)
Record scan_closed (scopes : list string) (J : locals → Tracker St → Prop) : Prop := {
  sc_tree l t wt : J l t → J l (set_watchTree t wt);
  sc_observed f l t : J l t → J (with_observed f l) t;
  sc_policy f l t : J l t → J (with_policyEvents f l) t;
  sc_actual st l t : clean_abs (fs_Path st) → J l t → J (with_actual (<[fs_Path st := st]>) l) t;
  sc_scanned l t : J l t → J (with_report inc_rp_Scanned l) t;
  sc_previous scope l t : scope ∈ scopes → J l t → J (with_previous (delete scope) l) t
}.

(** Only the watch tree differs, the report keeps its generation, the scanned map
    is keyed by path and no event is recorded. *)
Definition tree_only (t0 : Tracker St) (g : Z) (l : locals) (t : Tracker St) : Prop :=
  (∃ wt, t = set_watchTree t0 wt) ∧ rp_Generation (lc_report l) = g ∧ view_ok (lc_actual l) ∧ lc_allEvents l = [].

Lemma scan_closed_tree t0 g scopes : scan_closed scopes (tree_only t0 g).
Proof.
  split; try done.
  - intros l t wt [[wt' ->] ?]. split; [|done]. exists wt. by destruct t0.
  - intros st l t Hst (? & ? & Ha & ?). split_and!; try done. simpl.
    intros p st' [[<- <-]|[_ ?]]%lookup_insert_Some; [by split|by apply Ha].
  - intros l t (? & <- & ? & ?). split_and!; try done. simpl. by destruct (lc_report l).
Qed.

Lemma scan_closed_inv t0 r0 prev0 scopes : scan_closed scopes (scan_inv t0 r0 prev0 scopes).
Proof.
  split.
  - intros l t wt [? ? ? ? ?]. split; [by apply core_watchTree|done..].
  - by intros f l t [].
  - by intros f l t [].
  - intros st l t Hst [? ? Ha ? ?]. split; try done. simpl.
    intros p st' [[<- <-]|[_ ?]]%lookup_insert_Some; [by split|by apply Ha].
  - intros l t [? [n Hn] ? ? ?]. split; try done. exists (S n). simpl. by rewrite Hn.
  - intros scope l t Hsc [? ? ? Hp ?]. split; try done. simpl. intros p. rewrite lookup_delete.
    case_decide; [subst; by right|apply Hp].
Qed.

Section closed.
Context (scopes : list string) (J : locals → Tracker St → Prop) (HJ : scan_closed scopes J).

Lemma onEntry_preserves entry :
  clean_abs (en_Path entry) → preserves (LI J) (onEntry config clock backend_Add entry).
Proof.
  intros Hp. unfold onEntry. cbv zeta. frame.
  - apply LI_watchAdd. apply (sc_tree _ _ HJ).
  - apply LI_locals. apply (sc_observed _ _ HJ).
  - apply LI_clock.
  - apply LI_locals. apply (sc_policy _ _ HJ).
  - apply LI_locals. intros l t. by apply (sc_actual _ _ HJ).
  - apply LI_locals. apply (sc_scanned _ _ HJ).
Qed.

Lemma scanScope_preserves scope :
  clean_abs scope → scope ∈ scopes →
  preserves (LI J) (scanScope config ctx clock backend_Add fuel scope).
Proof.
  intros Hsc Hin. unfold scanScope.
  apply preserves_bind; [apply preserves_try; apply (LI_world _ (os_Lstat scope))|intros r].
  destruct r as [info|err]; [|frame]. apply preserves_bind; [|intros _; apply preserves_bind].
  - frame; apply LI_locals; [intros l t; by apply (sc_previous _ _ HJ)|apply (sc_observed _ _ HJ)].
  - apply preserves_try, keeps_same, Scan_keeps; [|by destruct Hsc].
    split; [done|apply LI_world|intros p; apply (LI_world _ (os_Lstat p))|intros p; apply (LI_world _ (os_Stat p))|
      intros p; apply (LI_world _ (os_Open p))|intros h n; apply (LI_world _ (h_ReadDir h n))|].
    intros e He. by apply keeps_same, onEntry_preserves.
  - intros r. frame.
Qed.

(** Everything [observe] does after loading the snapshot. *)
Definition observe_rest : M LW (option (gmap string Expected)) :=
  forM scopes (scanScope config ctx clock backend_Add fuel) ;;
  (if cf_Recursive config then
     l ← gets fst;
     wrapping "fsrecon: sync recursive watches" (onSnd (watchSync backend_Remove scopes (lc_observed l)))
   else mret ()) ;;
  onSnd (loadExpectedScopes config ctx scopes).

Lemma observe_rest_preserves : Forall clean_abs scopes → preserves (LI J) observe_rest.
Proof.
  intros Hsc. rewrite Forall_forall in Hsc. unfold observe_rest. apply preserves_bind; [|intros _; apply preserves_bind].
  - apply preserves_forM. intros sc Hin. apply scanScope_preserves; [by apply Hsc|done].
  - frame. apply LI_watchSync, (sc_tree _ _ HJ).
  - intros _. apply preserves_onSnd. intros l. by apply (loadExpected_preserves (λ t, J l t)).
Qed.
End closed.

(** *** Comparing *)

Definition recordAll (evs : list Event) (l : locals) : locals :=
  foldl (λ l e, recordOne config e l) l evs.

Lemma recordAll_fields evs l :
  lc_report (recordAll evs l) = recordEvents (cf_ReportEventLimit config) (lc_report l) evs ∧
  lc_allEvents (recordAll evs l) = lc_allEvents l ++ evs ∧
  lc_previous (recordAll evs l) = lc_previous l ∧ lc_actual (recordAll evs l) = lc_actual l ∧
  lc_policyEvents (recordAll evs l) = lc_policyEvents l ∧ lc_observed (recordAll evs l) = lc_observed l.
Proof.
  unfold recordAll, recordEvents. revert l. induction evs as [|e evs IH]; intros l; simpl; [by rewrite app_nil_r|].
  destruct (IH (recordOne config e l)) as (-> & -> & -> & -> & -> & ->). simpl. by rewrite <-app_assoc.
Qed.

(** The event made of a change at some time. *)
Definition event_of (c : Change) (e : Event) : Prop := ∃ z, e = eventFromChange z c.

Lemma emitChanges cs l t w :
  ∃ evs w', Forall2 event_of cs evs ∧
    forM cs (emitChange config clock) (l, (t, w)) = (inl (), (recordAll evs l, (t, w'))).
Proof.
  revert l w. induction cs as [|c cs IH]; intros l w; [by exists [], w|].
  destruct (clock w) as [z w1] eqn:E. destruct (IH (recordOne config (eventFromChange z c) l) w1) as (evs & w' & HF & Er).
  exists (eventFromChange z c :: evs), w'. split; [constructor; [by exists z|done]|].
  cbn [forM]. rewrite bind_run. unfold emitChange at 1. rewrite bind_run. unfold onSnd at 1, time_Now.
  rewrite E. exact Er.
Qed.

Lemma forM_record evs (l : locals) (s : TW) :
  forM evs (λ event, updFst (recordOne config event)) (l, s) = (inl (), (recordAll evs l, s)).
Proof. revert l. induction evs as [|e evs IH]; intros l; [done|]. cbn [forM]. rewrite bind_run. apply IH. Qed.

(** The stream of a comparison: the semantic changes, then the policy events. *)
Definition stream_of (l : locals) (expected : option (gmap string Expected)) (evs : list Event) : Prop :=
  ∃ semantic, evs = semantic ++ lc_policyEvents l ∧
    Forall2 event_of (diff_changes (toInternalStates (lc_previous l)) (toInternalStates (lc_actual l))
      expected (Some (orphanEligible config))) semantic.

Lemma compareStates_run expected l t w :
  ∃ evs w', stream_of l expected evs ∧
    compareStates config clock expected (l, (t, w)) = (inl (), (recordAll evs l, (t, w'))).
Proof.
  unfold compareStates. rewrite bind_run. cbn [gets fst]. rewrite bind_run, WalkDiffScoped_changes.
  destruct (emitChanges (diff_changes (toInternalStates (lc_previous l)) (toInternalStates (lc_actual l))
    expected (Some (orphanEligible config))) l t w) as (evs & w' & HF & ->).
  exists (evs ++ lc_policyEvents l), w'. split; [by exists evs|].
  rewrite forM_record. unfold recordAll. by rewrite foldl_app.
Qed.

(** *** Committing *)

(** The snapshot after a commit, path by path. *)
Definition committed (v prev actual : view) (p : string) : option FileState :=
  match actual !! p with
  | Some st => Some st
  | None => if decide (is_Some (prev !! p)) then None else v !! p
  end.

Lemma putsOf_paths l : view_ok (lc_actual l) → fs_Path <$> putsOf l = (map_to_list (lc_actual l)).*1.
Proof.
  intros Ha. unfold putsOf. rewrite <-list_fmap_compose. apply list_fmap_ext. intros i [p st] Hi. simpl.
  apply list_elem_of_lookup_2, elem_of_map_to_list in Hi. by destruct (Ha _ _ Hi).
Qed.

Lemma commit_lookup v l p :
  view_ok (lc_actual l) →
  view_apply v (putsOf l) (deletesOf l) !! p = committed v (lc_previous l) (lc_actual l) p.
Proof.
  intros Ha. unfold view_apply, committed. pose proof (putsOf_paths l Ha) as Hp.
  destruct (lc_actual l !! p) as [st|] eqn:E.
  - assert (st ∈ putsOf l) as Hin.
    { unfold putsOf. apply list_elem_of_fmap. exists (p, st). split; [done|]. by apply elem_of_map_to_list. }
    destruct (Ha _ _ E) as [_ <-]. apply view_puts_lookup; [|done]. rewrite Hp. apply NoDup_fst_map_to_list.
  - rewrite view_puts_lookup_ne.
    + rewrite view_deletes_lookup. unfold deletesOf.
      assert (p ∈ (map_to_list (lc_previous l ∖ lc_actual l)).*1 ↔ is_Some (lc_previous l !! p)) as Hd.
      { rewrite list_elem_of_fmap. split.
        - intros ([k st] & -> & [Hk _]%elem_of_map_to_list%lookup_difference_Some). by exists st.
        - intros [st Hst]. exists (p, st). split; [done|]. apply elem_of_map_to_list.
          by apply lookup_difference_Some. }
      by rewrite (decide_ext _ _ _ _ Hd).
    + rewrite Hp. intros ([k st] & -> & Hk%elem_of_map_to_list)%list_elem_of_fmap. simpl in E. congruence.
Qed.

Lemma onStore_inv (op : M (St * W) ()) t w r t' w' :
  onStore op (t, w) = (r, (t', w')) → ∃ s', op (tk_store t, w) = (r, (s', w')) ∧ t' = set_store t s'.
Proof.
  unfold onStore. destruct (op (tk_store t, w)) as [r' [s' w1]]. intros Heq. injection Heq as <- <- <-. eauto.
Qed.

Lemma set_store_fields (t : Tracker St) s : tk_store (set_store t s) = s ∧ set_store t (tk_store t) = t ∧
  ∀ s', set_store (set_store t s) s' = set_store t s'.
Proof. by destruct t. Qed.

Lemma in_context_inv {S A} wrap c (m : M S A) s a s' :
  in_context wrap c m s = (inl a, s') → m s = (inl a, s').
Proof.
  destruct wrap; cbn [in_context]; [|done]. unfold wrapping. by destruct (m s) as [[?|?] ?].
Qed.

(** Deletes and puts one at a time, for a store without batches. *)
Lemma store_loop_view {A} (op : A → M (St * W) ()) (f : view → A → view) (ok : A → Prop) wrap c l t w t' w' :
  (∀ a s s' w w', ok a → store_ok s → op a (s, w) = (inl (), (s', w')) →
     store_ok s' ∧ store_view s' = f (store_view s) a) →
  forM l (λ a, in_context wrap c (onStore (op a))) (t, w) = (inl (), (t', w')) →
  ∃ s', t' = set_store t s' ∧
    (Forall ok l → store_ok (tk_store t) → store_ok s' ∧ store_view s' = foldl f (store_view (tk_store t)) l).
Proof.
  intros Hop. revert t w. induction l as [|a l IH]; intros t w; cbn [forM foldl].
  { intros Heq. injection Heq as <- <-. exists (tk_store t). by destruct t. }
  intros ([] & [t1 w1] & E%in_context_inv & E')%bind_inv. apply onStore_inv in E as (s1 & E & ->).
  destruct (set_store_fields t s1) as (Hst & _ & Hset).
  destruct (IH (set_store t s1) w1 E') as (s' & -> & Hv'). exists s'. split; [apply Hset|].
  intros [Ha Hl]%Forall_cons Hs. destruct (Hop _ _ _ _ _ Ha Hs E) as [Hs1 Hv].
  rewrite Hst in Hv'. destruct (Hv' Hl Hs1) as [? Hv2]. split; [done|]. by rewrite Hv2, Hv.
Qed.

Lemma applySnapshot_view wrap puts deletes t w t' w' :
  applySnapshot ctx wrap puts deletes (t, w) = (inl (), (t', w')) →
  ∃ s', t' = set_store t s' ∧
    (store_ok (tk_store t) → Forall (λ st, clean_abs (fs_Path st) ∧ state_ok st) puts → Forall clean_abs deletes →
     store_ok s' ∧ store_view s' = view_apply (store_view (tk_store t)) puts deletes).
Proof.
  unfold applySnapshot. rewrite bind_run. cbn [gets fst]. destruct (store_batch (tk_store t)) eqn:Hb.
  - intros (s' & E & ->)%in_context_inv%onStore_inv. exists s'. split; [done|]. intros Hs Hp Hd.
    by apply (store_Apply_law (tk_store t) s' ctx puts deletes w w').
  - intros ([] & [t1 w1] & E1 & E2)%bind_inv.
    apply (store_loop_view (store_Delete ctx) (λ m p, delete p m) clean_abs) in E1
      as (s1 & -> & Hv1); [|intros; by eapply store_Delete_law].
    destruct (set_store_fields t s1) as (Hst & _ & Hset).
    apply (store_loop_view (store_Put ctx) (λ m st, <[fs_Path st := st]> m)
      (λ st, clean_abs (fs_Path st) ∧ state_ok st)) in E2 as (s2 & -> & Hv2);
      [|intros ? ? ? ? ? [? ?] ? ?; by eapply store_Put_law].
    exists s2. split; [apply Hset|]. intros Hs Hp Hd. rewrite Hst in Hv2.
    destruct (Hv1 Hd Hs) as [Hs1 Hw1], (Hv2 Hp Hs1) as [Hs2 Hw2]. split; [done|]. rewrite Hw2, Hw1. done.
Qed.

(** *** The whole body *)

Definition start (r0 : ReconcileReport) (obs : gset string) : locals := mkLocals r0 ∅ ∅ [] obs [].

Lemma observe_split scopes s :
  observe config ctx clock backend_Add backend_Remove fuel scopes s =
  (loadPrevious ctx scopes ;; observe_rest scopes) s.
Proof. done. Qed.

Lemma observe_success scopes r0 obs t0 w0 expected l t w :
  store_ok (tk_store t0) → Forall (λ sc, clean_abs sc ∧ scope_ok (tk_store t0) sc) scopes →
  observe config ctx clock backend_Add backend_Remove fuel scopes (start r0 obs, (t0, w0)) =
    (inl expected, (l, (t, w))) →
  ∃ prev0, (∀ p, prev0 !! p = scoped (store_view (tk_store t0)) scopes p) ∧
    scan_inv t0 r0 prev0 scopes l t.
Proof.
  intros Hok Hsc. rewrite observe_split. intros ([] & [l1 [t1 w1]] & E & E')%bind_inv.
  pose proof (loadPrevious_preserves (start r0 obs) t0 scopes (start r0 obs, (t0, w0))) as Hl.
  rewrite E in Hl. destruct Hl as [Ht1 Hl1]; [by split|]. simpl in Ht1, Hl1. subst t1.
  exists (lc_previous l1). split.
  - intros p. rewrite (loadPrevious_lookup _ _ _ _ _ _ _ p Hok Hsc E). unfold scoped. simpl. rewrite lookup_empty.
    destruct (in_scopes scopes p); cbn [andb]; [|done].
    case_bool_decide as Hs; [done|]. symmetry. by apply eq_None_not_Some.
  - pose proof (observe_rest_preserves scopes _ (scan_closed_inv t0 r0 (lc_previous l1) scopes)
      ltac:(eapply Forall_impl; [exact Hsc|]; by intros ? []) (l1, (t0, w1))) as Hp.
    rewrite E' in Hp. apply Hp. rewrite Hl1. split; simpl.
    + apply core_refl.
    + by exists 0.
    + intros p st. by rewrite lookup_empty.
    + by left.
    + done.
Qed.

Lemma observe_tree scopes r0 obs t0 w0 :
  Forall clean_abs scopes →
  LI (tree_only t0 (rp_Generation r0))
    (observe config ctx clock backend_Add backend_Remove fuel scopes (start r0 obs, (t0, w0))).2.
Proof.
  intros Hsc. rewrite observe_split.
  assert (preserves (LI (tree_only t0 (rp_Generation r0))) (loadPrevious ctx scopes ;; observe_rest scopes)) as Hp.
  { apply preserves_bind; [|intros _; apply observe_rest_preserves; [apply scan_closed_tree|done]].
    unfold loadPrevious. apply preserves_forM. intros sc _. apply preserves_wrapping, preserves_bind; [frame|].
    intros t. apply store_Walk_frame; [apply LI_world|]. intros st. by apply LI_locals. }
  apply (Hp (start r0 obs, (t0, w0))). split; [exists (tk_watchTree t0); by destruct t0|].
  split; [done|split; [|done]]. intros p st. simpl; by rewrite lookup_empty.
Qed.

Lemma deliverPending_core t w : (deliverPending config (t, w)).2.1 = t.
Proof.
  unfold deliverPending. rewrite bind_run. cbn [gets fst].
  destruct (tk_pending t) as [p|], (cf_ChangeSink config) as [sink|]; try done.
  unfold onSnd. by destruct (deliver _ _ _ _ _ w).
Qed.

Lemma journal_core l t0 t w :
  core t0 t → core t0 (journal config l (t, w)).2.1.
Proof.
  intros Hc. unfold journal. destruct (cf_ChangeSink config) as [sink|] eqn:E; [|done].
  rewrite bind_run. cbn [updFst]. rewrite deliverPending_core. by apply core_pending.
Qed.

(** What the journal leaves pending: the observations of one scan. *)
Record frozen (g : Z) (p : pendingGeneration) : Prop := mkFrozen {
  fz_kind : pg_kind p = pendingReconcile;
  fz_generation : pg_generation p = g;
  fz_content : ∃ previous actual policy semantic expected,
    view_ok actual ∧ pg_events p = semantic ++ policy ∧
    Forall2 event_of (diff_changes (toInternalStates previous) (toInternalStates actual)
      expected (Some (orphanEligible config))) semantic ∧
    ∀ v q, view_apply v (pg_puts p) (pg_deletes p) !! q = committed v previous actual q
}.

Lemma journal_pending expected evs l t w :
  tk_pending t = None → view_ok (lc_actual l) → lc_allEvents l = [] → stream_of l expected evs →
  let t' := (journal config (recordAll evs l) (t, w)).2.1 in
  tk_pending t' = None ∨ ∃ p, tk_pending t' = Some p ∧ frozen (rp_Generation (lc_report l)) p.
Proof.
  intros Hp Hva Hall (semantic & Hev & HF). unfold journal. destruct (cf_ChangeSink config) as [sink|] eqn:E; [|by left].
  rewrite bind_run. cbn [updFst]. cbv zeta. rewrite deliverPending_core. right.
  destruct (recordAll_fields evs l) as (Hr & Ha & Hpv & Hac & _).
  destruct t. simpl. eexists. split; [reflexivity|]. split; [done|simpl|].
  { rewrite Hr. by destruct (recordEvents_header (cf_ReportEventLimit config) (lc_report l) evs) as (-> & _). }
  exists (lc_previous l), (lc_actual l), (lc_policyEvents l), semantic, expected. simpl.
  split; [done|]. split; [by rewrite cloneEvents_id, Ha, Hall, Hev|]. split; [done|].
  intros v q. rewrite commit_lookup by by rewrite Hac. by rewrite Hpv, Hac.
Qed.

Lemma applySnapshot_err wrap puts deletes t w e t' w' :
  store_batch (tk_store t) = true → applySnapshot ctx wrap puts deletes (t, w) = (inr e, (t', w')) → t' = t.
Proof.
  intros Hb. unfold applySnapshot. rewrite bind_run. cbn [gets fst]. rewrite Hb. unfold onStore.
  destruct (store_Apply ctx puts deletes (tk_store t, w)) as [[[]|e1] [s1 w1]] eqn:E; destruct wrap; cbn [in_context];
    unfold wrapping; rewrite ?E; try done.
  all: apply store_Apply_atomic in E as ->; [|done]; intros Heq; injection Heq as _ <- _; by destruct t.
Qed.

(** Sending events changes the queue and the drop counter only. *)
Lemma sendEvents_fields evs (t : Tracker St) :
  let t' := foldl (sendEvent (cf_EventBuffer config)) t evs in
  tk_store t' = tk_store t ∧ tk_generation t' = tk_generation t ∧ tk_pending t' = tk_pending t ∧
  tk_state t' = tk_state t ∧ tk_root t' = tk_root t ∧ tk_closed t' = tk_closed t ∧
  tk_started t' = tk_started t ∧ tk_backendHealthy t' = tk_backendHealthy t ∧
  tk_dirtyPending t' = tk_dirtyPending t ∧ tk_watchTree t' = tk_watchTree t ∧ tk_sessionID t' = tk_sessionID t.
Proof.
  cbv zeta. revert t. induction evs as [|e evs IH]; intros t; [done|]. cbn [foldl].
  destruct (IH (sendEvent (cf_EventBuffer config) t e)) as (-> & -> & -> & -> & -> & -> & -> & -> & -> & -> & ->).
  unfold sendEvent. destruct t as [? ? ? ? ? ? ? ? ? ? ? ? ? ? []]; simpl; try case_decide; done.
Qed.

(** The tracker at the end of a committed generation. *)
Definition finished (t : Tracker St) (r : ReconcileReport) : Tracker St :=
  foldl (sendEvent (cf_EventBuffer config))
    (setConsistentState (set_generation (set_stats t (addReportStats (tk_stats t) r)) (rp_Generation r)))
    (rp_Events r).

Lemma finishReport_run expected l t w :
  ∃ d w', let r := set_rp_Duration d (set_rp_Healthy (healthyOf expected l) (lc_report l)) in
    finishReport config clock expected (l, (t, w)) =
    (inl (), (with_report (λ _, r) l, (finished t r, w'))).
Proof.
  unfold finishReport. rewrite bind_run. cbn [updFst]. rewrite bind_run. unfold onSnd at 1, time_Now.
  destruct (clock w) as [z w1]. exists (z - rp_StartedAt (lc_report l))%Z, w1. cbv zeta.
  destruct l as [r pv ac po ob ev]. destruct r. done.
Qed.

Lemma finished_fields t r :
  tk_store (finished t r) = tk_store t ∧ tk_generation (finished t r) = rp_Generation r ∧
  tk_pending (finished t r) = tk_pending t ∧ tk_root (finished t r) = tk_root t ∧
  tk_closed (finished t r) = tk_closed t ∧ tk_watchTree (finished t r) = tk_watchTree t ∧
  (tk_closed t = false → tk_state (finished t r) =
    if tk_started t && negb (tk_backendHealthy t) then StateDegraded
    else if tk_dirtyPending t then StateDirty else StateSynced).
Proof.
  unfold finished.
  destruct (sendEvents_fields (rp_Events r) (setConsistentState (set_generation (set_stats t
    (addReportStats (tk_stats t) r)) (rp_Generation r)))) as (-> & -> & -> & -> & -> & -> & _ & _ & _ & -> & _).
  destruct t as [ro so s st cl bh id wt ev er sx g p d ch on]; unfold setConsistentState; simpl.
  destruct cl, st, bh, d; done.
Qed.

(** A failed body changes neither the snapshot nor the generation. *)
Lemma reconcileBody_failure scopes r0 obs t0 w0 e l' t' w' :
  Forall clean_abs scopes → store_batch (tk_store t0) = true → tk_pending t0 = None →
  reconcileBody config ctx clock backend_Add backend_Remove fuel scopes (start r0 obs, (t0, w0)) =
    (inr e, (l', (t', w'))) →
  core t0 t' ∧ (tk_pending t' = None ∨ ∃ p, tk_pending t' = Some p ∧ frozen (rp_Generation r0) p).
Proof.
  intros Hsc Hb Hp. pose proof (observe_tree scopes r0 obs t0 w0 Hsc) as Hobs.
  assert (∀ l t, tree_only t0 (rp_Generation r0) l t → core t0 t ∧ tk_pending t = None) as Htree.
  { intros l t [[wt ->] _]. split; [exists wt, (tk_pending t0); by destruct t0|]. by destruct t0. }
  unfold reconcileBody. intros [E|(expected & [l [t1 w1]] & E & E1)]%bind_err; rewrite E in Hobs.
  { destruct (Htree _ _ Hobs). auto. }
  destruct (Htree _ _ Hobs) as [Hcore Hpend]. destruct Hobs as (_ & Hgen & Hva & Hall).
  simpl in Hcore, Hpend, Hgen, Hva, Hall.
  destruct (compareStates_run expected l t1 w1) as (evs & w3 & Hev & Ec').
  apply bind_err in E1 as [E1|([] & s2 & E1 & E2)]; rewrite Ec' in E1; [done|]. injection E1 as <-.
  apply bind_err in E2 as [E2|(l3 & s3 & Eg & E2)]; [done|].
  assert (l3 = recordAll evs l ∧ s3 = (recordAll evs l, (t1, w3))) as [-> ->] by by injection Eg.
  clear Eg. pose proof (journal_core (recordAll evs l) t0 t1 w3 Hcore) as Hjc.
  pose proof (journal_pending expected evs l t1 w3 Hpend Hva Hall Hev) as Hjp. cbv zeta in Hjp. rewrite Hgen in Hjp.
  apply bind_err in E2 as [E2|([] & [l4 [t4 w4]] & Ej & E2)].
  { unfold onSnd in E2. destruct (journal config (recordAll evs l) (t1, w3)) as [rj [tj wj]].
    injection E2 as -> <- <- <-. done. }
  unfold onSnd in Ej. destruct (journal config (recordAll evs l) (t1, w3)) as [rj [tj wj]].
  injection Ej as -> <- -> ->. simpl in *.
  apply bind_err in E2 as [E2|([] & [l5 [t5 w5]] & Ea & E2)].
  { unfold onSnd in E2. destruct (applySnapshot ctx true _ _ (t4, w4)) as [ra [ta wa]] eqn:Eap.
    injection E2 as -> <- <- <-. apply applySnapshot_err in Eap as ->; [done|].
    by destruct (core_fields _ _ Hjc) as (-> & _). }
  apply bind_err in E2 as [E2|([] & [l6 [t6 w6]] & _ & E2)]; [done|].
  destruct (finishReport_run expected l6 t6 w6) as (d & w7 & Hf). cbv zeta in Hf. by rewrite Hf in E2.
Qed.

(** A committed body, from its observations to its report. *)
Lemma reconcileBody_success scopes r0 obs t0 w0 l' t' w' :
  store_ok (tk_store t0) → Forall (λ sc, clean_abs sc ∧ scope_ok (tk_store t0) sc) scopes →
  reconcileBody config ctx clock backend_Add backend_Remove fuel scopes (start r0 obs, (t0, w0)) =
    (inl (), (l', (t', w'))) →
  ∃ expected l t1 w1 evs d t2,
    observe config ctx clock backend_Add backend_Remove fuel scopes (start r0 obs, (t0, w0)) =
      (inl expected, (l, (t1, w1))) ∧
    (∃ prev0, (∀ p, prev0 !! p = scoped (store_view (tk_store t0)) scopes p) ∧ scan_inv t0 r0 prev0 scopes l t1) ∧
    stream_of l expected evs ∧
    (tk_pending t2 = None ∧ core t0 (set_store t2 (tk_store t0)) ∧
       (map_Forall (λ _, state_ok) (lc_actual l) → store_ok (tk_store t2) ∧ ∀ p, store_view (tk_store t2) !! p =
         committed (store_view (tk_store t0)) (lc_previous l) (lc_actual l) p)) ∧
    lc_report l' = set_rp_Duration d (set_rp_Healthy (healthyOf expected (recordAll evs l))
      (recordEvents (cf_ReportEventLimit config) (lc_report l) evs)) ∧
    t' = finished t2 (lc_report l').
Proof.
  intros Hok Hsc. unfold reconcileBody. intros (expected & [l [t1 w1]] & E & E1)%bind_inv.
  destruct (observe_success _ _ _ _ _ _ _ _ _ Hok Hsc E) as (prev0 & Hprev & Hinv).
  apply bind_inv in E1 as ([] & [l2 [t2 w2]] & Ec & E1).
  destruct (compareStates_run expected l t1 w1) as (evs & w3 & Hev & Ec'). rewrite Ec' in Ec.
  injection Ec as <- <- <-. apply bind_inv in E1 as (l3 & s3 & Eg & E1).
  assert (l3 = recordAll evs l ∧ s3 = (recordAll evs l, (t1, w3))) as [-> ->] by by injection Eg.
  clear Eg. destruct (recordAll_fields evs l) as (Hrep & _ & Hpv & Hac & _).
  apply bind_inv in E1 as ([] & [l4 [t4 w4]] & Ej & E1).
  pose proof (journal_core (recordAll evs l) t0 t1 w3 (si_core _ _ _ _ _ _ Hinv)) as Hcore.
  unfold onSnd in Ej. destruct (journal config (recordAll evs l) (t1, w3)) as [rj [tj wj]].
  injection Ej as -> <- -> ->. apply bind_inv in E1 as ([] & [l5 [t5 w5]] & Ea & E1).
  unfold onSnd in Ea. destruct (applySnapshot ctx true _ _ (t4, w4)) as [ra [ta wa]] eqn:Eap.
  injection Ea as -> <- <- <-. destruct (core_fields _ _ Hcore) as (Hst0 & _).
  simpl in Hcore, Hst0.
  assert (view_ok (lc_actual (recordAll evs l))) as Hva by (rewrite Hac; apply (si_actual _ _ _ _ _ _ Hinv)).
  apply applySnapshot_view in Eap as (s' & -> & Hv').
  apply bind_inv in E1 as ([] & [l6 [t6 w6]] & E6 & E1). injection E6 as <- <- <-.
  destruct (finishReport_run expected (recordAll evs l) (set_pending (set_store t4 s') None) wa)
    as (d & w7 & Hf). cbv zeta in Hf. rewrite Hf in E1. injection E1 as <- <- <-.
  exists expected, l, t1, w1, evs, d, (set_pending (set_store t4 s') None).
  split; [done|]. split; [by exists prev0|]. split; [done|]. split; [|split; [by rewrite Hrep|done]].
  split; [by destruct t4|]. split.
  { destruct Hcore as (wt & pe & ->). exists wt, None. by destruct t0. }
  intros Hst. assert (tk_store (set_pending (set_store t4 s') None) = s') as -> by by destruct t4.
  rewrite Hst0 in Hv'. destruct Hv' as [Hs' Hv']; [done|..|split; [done|]].
  - apply Forall_forall. intros st Hin. unfold putsOf in Hin.
    apply list_elem_of_fmap in Hin as ([p st'] & -> & Hin%elem_of_map_to_list). simpl.
    destruct (Hva _ _ Hin) as [? Hpath]. split; [by rewrite Hpath|]. rewrite Hac in Hin. by apply (Hst p).
  - apply Forall_forall. intros p Hin. unfold deletesOf in Hin.
    apply list_elem_of_fmap in Hin as ([p' st'] & -> & [Hin _]%elem_of_map_to_list%lookup_difference_Some).
    rewrite Hpv in Hin. simpl. destruct (si_previous _ _ _ _ _ _ Hinv p') as [Heq|[Hps _]].
    + rewrite Heq, Hprev in Hin. unfold scoped in Hin. destruct (in_scopes scopes p'); [|done].
      by destruct (store_view_ok _ Hok _ _ Hin).
    + rewrite Forall_forall in Hsc. by destruct (Hsc _ Hps).
  - intros p. by rewrite Hv', commit_lookup, Hpv, Hac.
Qed.
End phases.

(** ** Reports *)

(** The header and counters of a report before any event. *)
Definition fresh_report (g st : Z) : ReconcileReport := mkReport g st 0 0 0 0 0 0 0 0 0 0 0 0 [] 0.

Lemma iter_scanned n r :
  let r' := Nat.iter n inc_rp_Scanned r in
  rp_Generation r' = rp_Generation r ∧ rp_Events r' = rp_Events r ∧ rp_EventsTruncated r' = rp_EventsTruncated r ∧
  ∀ k, counter r' k = counter r k.
Proof.
  cbv zeta. induction n as [|n IH]; [done|].
  change (Nat.iter (S n) inc_rp_Scanned r) with (inc_rp_Scanned (Nat.iter n inc_rp_Scanned r)).
  destruct (Nat.iter n inc_rp_Scanned r). exact IH.
Qed.

(** The report of a stream of events on a report without events. *)
Definition report_of (limit : Z) (evs : list Event) (g : Z) (r : ReconcileReport) : Prop :=
  rp_Generation r = g ∧ rp_Events r = take (Z.to_nat limit) evs ∧
  u64 (rp_EventsTruncated r) = u64 (Z.of_nat (length evs - Z.to_nat limit)) ∧
  ∀ k, k ∈ counted_kinds → counter r k = u64 (count_events k evs).

Lemma report_of_stream limit evs g st n d h :
  (0 ≤ limit)%Z →
  report_of limit evs g
    (set_rp_Duration d (set_rp_Healthy h (recordEvents limit (Nat.iter n inc_rp_Scanned (fresh_report g st)) evs))).
Proof.
  intros Hl. destruct (iter_scanned n (fresh_report g st)) as (Hg & He & Ht & Hk). cbv zeta in Hg, He, Ht, Hk.
  set (r0 := Nat.iter n inc_rp_Scanned (fresh_report g st)) in *.
  pose proof (recordEvents_header limit r0 evs) as (Hg' & _).
  destruct (recordEvents_detail limit r0 evs) as [Hd1 Hd2]; [rewrite He; simpl; lia|]. rewrite He, Ht in *.
  assert (∀ k, k ∈ counted_kinds → counter r0 k = 0%Z) as H0.
  { intros k _. rewrite Hk. unfold counter. repeat case_decide; done. }
  assert (∀ k, k ∈ counted_kinds → counter (recordEvents limit r0 evs) k = u64 (count_events k evs)) as Hc.
  { intros k Hin. rewrite recordEvents_in_range by (done || by rewrite H0).
    rewrite recordEvents_counter by done. by rewrite H0. }
  destruct (recordEvents limit r0 evs). unfold report_of. simpl in *.
  split; [by rewrite Hg', Hg|split; [done|split; [done|]]]. exact Hc.
Qed.

(** ** Properties *)

Lemma collapse_clean root requested : clean_abs root → Forall clean_abs (collapseScopes root requested).
Proof.
  intros Hr. unfold collapseScopes. assert (Forall clean_abs []) as Hnil by constructor. revert Hnil.
  generalize ([] : list string) as acc. induction requested as [|q requested IH]; intros acc Hacc; [done|]. cbn [foldl].
  apply IH. unfold collapse_step. destruct (existsb _ acc); [done|].
  apply Forall_app. split; [rewrite Forall_forall in *; intros x; rewrite list_elem_of_In, filter_In, <-list_elem_of_In; naive_solver|].
  apply Forall_singleton. destruct (pathHasPrefix (Clean q) root) eqn:Hp; [|done]. apply clean_abs_Clean.
  destruct (IsAbs q) eqn:Hq; [done|]. rewrite pathHasPrefix_relative in Hp; [done|by rewrite IsAbs_Clean|by destruct Hr].
Qed.

Section properties.
Context {W H St : Type} `{FileSystem W H} `{SnapshotStoreLaws St}.
Context (config : Config W St) (ctx : M W ()) (clock : W → Z * W).
Context (backend_Add backend_Remove : string → M W ()) (fuel : nat).

Abbreviation reconcile :=
  (reconcileScopes config ctx clock backend_Add backend_Remove fuel None).

(** The locals, the tracker and the world at the start of a generation. *)
Definition generation_start (t : Tracker St) (w : W) : locals * (Tracker St * W) :=
  let '(st, w1) := clock w in
  (start (fresh_report (u64 (tk_generation t + 1)) st) {[tk_root t]}, (set_state_field t StateReconciling, w1)).

(** A new generation on the generic path, as a run of the body. *)
Lemma reconcile_body requested t w :
  tk_closed t = false → tk_pending t = None → collapseScopes (tk_root t) requested ≠ [] →
  reconcile requested (t, w) =
  match reconcileBody config ctx clock backend_Add backend_Remove fuel (collapseScopes (tk_root t) requested)
          (generation_start t w) with
  | (inr err, (l, tw)) => fail clock l err tw
  | (inl _, (l, tw)) => ((lc_report l, None), tw)
  end.
Proof.
  intros Hc Hp Hne. unfold reconcileScopes, reconcileLocked. rewrite Hc, Hp. unfold newGeneration, generation_start.
  destruct (clock w) as [st w1]. unfold setState. rewrite Hc.
  assert (tk_root (set_state_field t StateReconciling) = tk_root t ∧
    tk_generation (set_state_field t StateReconciling) = tk_generation t) as [-> ->] by by destruct t.
  by destruct (collapseScopes (tk_root t) requested).
Qed.

Lemma generation_start_fields (t : Tracker St) :
  let t1 := set_state_field t StateReconciling in
  tk_store t1 = tk_store t ∧ tk_generation t1 = tk_generation t ∧ tk_closed t1 = tk_closed t ∧
  tk_started t1 = tk_started t ∧ tk_backendHealthy t1 = tk_backendHealthy t ∧ tk_pending t1 = tk_pending t.
Proof. by destruct t. Qed.

(** C2: what a successful reconciliation commits.  Take any file system, clock and
    application callbacks, a store that keeps [SnapshotStoreLaws], and scopes its
    walk visits completely ([scope_ok]: all of them in memory, those without a
    sibling that sorts before their subtree in Bolt).  With [l] the locals at the end
    of the observation of the requested scopes: the previous entries are those of the
    snapshot inside the scopes, except that the entry of a scope itself may be left
    out (the code drops it when the scope is a directory); when the store can
    represent the scanned states ([state_ok]), the snapshot gets the scanned entries,
    loses the previous ones that were not scanned, and is otherwise untouched; the
    events are the semantic differences of the two, followed by the policy events;
    the report counts all of them and keeps the first ones; the generation advances
    by one and nothing stays pending. *)
Theorem reconcile_commits requested t w r t' w' :
  tk_closed t = false → tk_pending t = None → clean_abs (tk_root t) → (0 ≤ cf_ReportEventLimit config)%Z →
  store_ok (tk_store t) →
  (∀ sc, sc ∈ collapseScopes (tk_root t) requested → scope_ok (tk_store t) sc) →
  collapseScopes (tk_root t) requested ≠ [] →
  reconcile requested (t, w) = ((r, None), (t', w')) →
  let scopes := collapseScopes (tk_root t) requested in
  let v := store_view (tk_store t) in
  ∃ expected l t1 w1 semantic,
    observe config ctx clock backend_Add backend_Remove fuel scopes (generation_start t w) =
      (inl expected, (l, (t1, w1))) ∧
    (∀ p, lc_previous l !! p = scoped v scopes p ∨ (p ∈ scopes ∧ lc_previous l !! p = None)) ∧
    view_ok (lc_actual l) ∧
    (map_Forall (λ _, state_ok) (lc_actual l) → store_ok (tk_store t') ∧
       ∀ p, store_view (tk_store t') !! p = committed v (lc_previous l) (lc_actual l) p) ∧
    Forall2 event_of (diff_changes (toInternalStates (lc_previous l)) (toInternalStates (lc_actual l))
      expected (Some (orphanEligible config))) semantic ∧
    report_of (cf_ReportEventLimit config) (semantic ++ lc_policyEvents l) (u64 (tk_generation t + 1)) r ∧
    tk_generation t' = u64 (tk_generation t + 1) ∧ tk_pending t' = None.
Proof.
  intros Hc Hp Hr Hlim Hok Hsc Hne E scopes v.
  rewrite reconcile_body in E by done. unfold generation_start in *. destruct (clock w) as [st w1].
  destruct (generation_start_fields t) as (Hst1 & _).
  fold scopes in E, Hsc. destruct (reconcileBody _ _ _ _ _ _ scopes _) as [[[]|err] [l' [t2 w2]]] eqn:Eb.
  2: { unfold fail in E. by destruct (clock w2). }
  injection E as <- <- <-.
  apply reconcileBody_success in Eb as (expected & l & t3 & w3 & evs & d & t4 & Eo & (prev0 & Hprev & Hinv) &
    (semantic & -> & HF) & (Hpe & _ & Hv) & Hrep & ->); [|by rewrite Hst1|].
  - destruct (finished_fields config t4 (lc_report l')) as (Hs & Hg & Hpe' & _).
    destruct (si_report _ _ _ _ _ _ Hinv) as [n Hn].
    assert (report_of (cf_ReportEventLimit config) (semantic ++ lc_policyEvents l) (u64 (tk_generation t + 1))
      (lc_report l')) as Hro by (rewrite Hrep, Hn; by apply report_of_stream).
    exists expected, l, t3, w3, semantic. split; [done|]. rewrite Hst1 in Hprev, Hv.
    split; [intros p; unfold v; rewrite <-Hprev; apply (si_previous _ _ _ _ _ _ Hinv)|].
    split; [apply (si_actual _ _ _ _ _ _ Hinv)|]. rewrite Hs. split; [done|]. split; [done|]. split; [done|].
    rewrite Hg, Hpe'. split; [apply Hro|done].
  - pose proof (collapse_clean _ requested Hr) as Hcl. rewrite Forall_forall in Hcl.
    apply Forall_forall. intros sc Hin. split; [by apply Hcl|]. rewrite Hst1. by apply Hsc.
Qed.


(** *** Retrying a pending generation *)

(** The tracker after a resumed generation has committed. *)
Definition resumed (t : Tracker St) (p : pendingGeneration) (s : St) : Tracker St :=
  let t := set_generation (set_pending (set_store t s) None) (pg_generation p) in
  setConsistentState (set_stats t (addReportStats (tk_stats t) (pg_report p))).

Lemma resumed_fields t p s :
  tk_closed t = false →
  tk_store (resumed t p s) = s ∧ tk_pending (resumed t p s) = None ∧
  tk_generation (resumed t p s) = pg_generation p ∧
  tk_state (resumed t p s) = if tk_started t && negb (tk_backendHealthy t) then StateDegraded
    else if tk_dirtyPending t then StateDirty else StateSynced.
Proof.
  intros Hc. destruct t as [ro so st sd cl bh id wt ev er sx g pe d ch on]. simpl in Hc. subst cl.
  unfold resumed, setConsistentState. simpl. by destruct sd, bh, d.
Qed.

(** What one attempt asks of the application and the store: every batch is sent, and
    then the mutation is applied. *)
Definition attempt (sink : ChangeBatch → M W ()) (p : pendingGeneration) : M (St * W) () :=
  onSnd (forM (batches (pg_sessionID p) (pg_generation p) (cf_ChangeBatchSize config) (pg_events p)) (send sink)) ;;
  store_Apply ctx (pg_puts p) (pg_deletes p).

(** A reconciliation with a pending generation is one attempt. *)
Lemma resume_run sink requested t p w :
  tk_closed t = false → tk_pending t = Some p → pg_kind p = pendingReconcile →
  cf_ChangeSink config = Some sink → store_batch (tk_store t) = true →
  let '((_, err), (t', _)) := reconcile requested (t, w) in
  match attempt sink p (tk_store t, (clock w).2) with
  | (inr e, _) => err = Some e ∧ t' = t
  | (inl _, (s', _)) => err = None ∧ t' = resumed t p s'
  end.
Proof.
  intros Hc Hp Hk Hs Hb. unfold reconcileScopes, reconcileLocked. rewrite Hc, Hp, Hk. unfold resumePending.
  destruct (clock w) as [started w1] eqn:Ec. cbn [snd]. rewrite bind_run. unfold deliverPending. rewrite bind_run.
  cbn [gets fst]. rewrite Hp, Hs. unfold attempt. rewrite bind_run, !onSnd_run, deliver_batches.
  destruct (forM _ _ w1) as [[[]|e] w2]; [|unfold stamp; by destruct (clock w2)].
  destruct (applySnapshot ctx false (pg_puts p) (pg_deletes p) (t, w2)) as [[[]|e] [t2 w3]] eqn:Ea.
  - unfold applySnapshot in Ea. rewrite bind_run in Ea. cbn [gets fst] in Ea. rewrite Hb in Ea. cbn [in_context] in Ea.
    apply onStore_inv in Ea as (s' & -> & ->). unfold stamp. by destruct (clock w3).
  - pose proof (applySnapshot_err ctx _ _ _ _ _ _ _ _ Hb Ea) as ->.
    unfold applySnapshot in Ea. rewrite bind_run in Ea. cbn [gets fst] in Ea. rewrite Hb in Ea. cbn [in_context] in Ea.
    apply onStore_inv in Ea as (s' & -> & _). unfold stamp. by destruct (clock w3).
Qed.

(** Reconciliations until one returns nil, each with its own scopes and world: the
    world of that one, and the tracker it leaves. *)
Fixpoint retry (t : Tracker St) (calls : list (list string * W)) : option W * Tracker St :=
  match calls with
  | [] => (None, t)
  | (requested, w) :: rest =>
      match reconcile requested (t, w) with
      | ((_, None), (t', _)) => (Some w, t')
      | ((_, Some _), (t', _)) => retry t' rest
      end
  end.

(** C7: a pending generation is frozen.  Once a generation has been handed to the
    sink, every later reconciliation, whatever its scopes and whatever has happened
    to the file system, is an attempt at exactly that generation.  When all of them
    return errors the tracker is unchanged, and each attempt has failed at the sink
    or the store.  The first that returns nil has, in its own world, sent the sink
    every batch of the frozen events and then applied the frozen mutation to the
    store: the snapshot is the old one with that mutation, the number is that of the
    generation, and nothing is pending. *)
Theorem pending_generation_frozen calls sink t p :
  tk_closed t = false → tk_pending t = Some p → pg_kind p = pendingReconcile →
  cf_ChangeSink config = Some sink → store_batch (tk_store t) = true → store_ok (tk_store t) →
  Forall (λ st, clean_abs (fs_Path st) ∧ state_ok st) (pg_puts p) → Forall clean_abs (pg_deletes p) →
  let run w := attempt sink p (tk_store t, (clock w).2) in
  match retry t calls with
  | (None, t') => t' = t ∧ Forall (λ c, ∃ e s', run c.2 = (inr e, s')) calls
  | (Some w, t') =>
      w ∈ calls.*2 ∧
      (∃ w2 w3, forM (batches (pg_sessionID p) (pg_generation p) (cf_ChangeBatchSize config) (pg_events p)) (send sink)
                  (clock w).2 = (inl (), w2) ∧
                store_Apply ctx (pg_puts p) (pg_deletes p) (tk_store t, w2) = (inl (), (tk_store t', w3))) ∧
      store_ok (tk_store t') ∧
      store_view (tk_store t') = view_apply (store_view (tk_store t)) (pg_puts p) (pg_deletes p) ∧
      tk_pending t' = None ∧ tk_generation t' = pg_generation p
  end.
Proof.
  intros Hc Hp Hk Hs Hb Hok Hputs Hdel. cbv zeta.
  induction calls as [|[requested w] rest IH]; [by split|]. cbn [retry].
  pose proof (resume_run sink requested t p w Hc Hp Hk Hs Hb) as Hrun.
  destruct (reconcile requested (t, w)) as [[r err] [t' w']].
  destruct (attempt sink p (tk_store t, (clock w).2)) as [[[]|e] [s' w2]] eqn:Ea; destruct Hrun as [-> ->].
  - destruct (resumed_fields t p s' Hc) as (-> & -> & -> & _). split; [left|].
    unfold attempt in Ea. apply bind_inv in Ea as ([] & [s1 w1] & E1 & E2). rewrite onSnd_run in E1.
    destruct (forM _ _ (clock w).2) as [[[]|e1] w0] eqn:Ed; [|done]. injection E1 as <- <-.
    destruct (store_Apply_law (tk_store t) s' ctx (pg_puts p) (pg_deletes p) w0 w2) as [? ?]; [done..|].
    split_and!; eauto.
  - destruct (retry t rest) as [[w0|] t'].
    + destruct IH as [Hin ?]. split; [by right|done].
    + destruct IH as [-> HF]. split; [done|]. constructor; [|done]. simpl. rewrite Ea. eauto.
Qed.
End properties.

(** ** Witnesses

    A tracker of [/data] on the demonstration tree, with a snapshot that is out of
    date; the world is the number of batches the sink still refuses and the
    batches it has taken. *)

Definition demo_world : Type := nat * list ChangeBatch.
Definition demo_sink (b : ChangeBatch) : M demo_world () := λ '(refuse, seen),
  match refuse with
  | 0 => (inl (), (0, seen ++ [b]))
  | S n => (inr (errors_New "sink unavailable"), (n, seen))
  end.
Definition demo_clock {W} (w : W) : Z * W := (1000%Z, w).
Definition demo_tracker : Tracker MemoryStore :=
  mkTracker "/data" (run_op NewMemoryStore (OpPut (demo_state "/data/gone"))) StateDirty false false false "session"
    None [] [] zero_stats 7 None false ChannelsOpen false.
Definition demo_sink_config : Config demo_world MemoryStore :=
  mkConfig "/data" true None ExpectedRegularFiles (Some demo_sink) None None None IgnoreSymlinks AllowHardlinks
    1 0 16 100 2.
Definition demo_reconcile := @reconcileScopes demo_world (list string) MemoryStore (TreeFS demo_fs) _
  demo_sink_config (mret ()) demo_clock (λ _, mret ()) (λ _, mret ()) 20 None.

(** The tracker is ready: the hypotheses of the theorems hold of it. *)
Lemma demo_store_ok : mem_ok (tk_store demo_tracker).
Proof. apply (run_op_ok NewMemoryStore (OpPut _)); [exact mem_ok_new|by_decide]. Qed.

(** The same with a Bolt store that knows [/data/gone]. *)
Definition demo_bolt_tracker : Tracker (BoltStore MapDB) :=
  mkTracker "/data" (demo_after [OpPut (demo_state "/data/gone")]) StateDirty false false false "session"
    None [] [] zero_stats 7 None false ChannelsOpen false.
Definition demo_bolt_config : Config demo_world (BoltStore MapDB) :=
  mkConfig "/data" true None ExpectedRegularFiles (Some demo_sink) None None None IgnoreSymlinks AllowHardlinks
    1 0 16 100 2.
Definition demo_bolt_reconcile := @reconcileScopes demo_world (list string) (BoltStore MapDB) (TreeFS demo_fs) _
  demo_bolt_config (mret ()) demo_clock (λ _, mret ()) (λ _, mret ()) 20 None.

Lemma demo_bolt_store_ok :
  bolt_open (tk_store demo_bolt_tracker) ∧ bolt_view (tk_store demo_bolt_tracker) = {["/data/gone" := demo_state "/data/gone"]}.
Proof.
  destruct (bolt_run_ok (mret ()) demo_bolt [OpPut (demo_state "/data/gone")] () (tk_store demo_bolt_tracker) ()) as [Hs Hv].
  - exact demo_bolt_open.
  - apply Forall_cons. split; [by_decide|apply Forall_nil; exact I].
  - vm_compute. reflexivity.
  - split; [exact Hs|]. rewrite Hv. reflexivity.
Qed.

Lemma reconcile_commits_witness :
  (let '((r, err), (t', w')) := demo_reconcile ["/data/a"; "/data/gone"] (demo_tracker, (0, [])) in
   err = None ∧ ∃ expected l semantic,
     view_ok (lc_actual l) ∧
     (∀ p, ms_entries (tk_store t') !! p = committed (ms_entries (tk_store demo_tracker)) (lc_previous l) (lc_actual l) p) ∧
     Forall2 event_of (diff_changes (toInternalStates (lc_previous l)) (toInternalStates (lc_actual l))
       expected (Some (orphanEligible demo_sink_config))) semantic ∧
     report_of 100 (semantic ++ lc_policyEvents l) 8 r) ∧
  (let '((r, err), (t', w')) := demo_bolt_reconcile ["/data"] (demo_bolt_tracker, (0, [])) in
   err = None ∧ ∃ l, bolt_open (tk_store t') ∧ is_Some (lc_actual l !! "/data/b") ∧
     ∀ p, bolt_view (tk_store t') !! p = committed (bolt_view (tk_store demo_bolt_tracker)) (lc_previous l) (lc_actual l) p).
Proof.
  split.
  - destruct (demo_reconcile ["/data/a"; "/data/gone"] (demo_tracker, (0, []))) as [[r err] [t' w']] eqn:E.
    assert (err = None) as -> by (change err with (r, err, (t', w')).1.2; rewrite <-E; vm_compute; reflexivity).
    split; [reflexivity|].
    destruct (@reconcile_commits _ _ _ (TreeFS demo_fs) _ _ demo_sink_config (mret ()) demo_clock (λ _, mret ())
      (λ _, mret ()) 20 ["/data/a"; "/data/gone"] demo_tracker (0, []) r t' w')
      as (expected & l & t1 & w1 & semantic & _ & _ & Ha & Hv & HF & Hr & _);
      [reflexivity|reflexivity|by_decide|vm_compute; congruence|exact demo_store_ok|intros sc _; exact I|discriminate|exact E|].
    destruct Hv as [_ Hv]; [intros p st _; exact I|]. exists expected, l, semantic. auto.
  - destruct (demo_bolt_reconcile ["/data"] (demo_bolt_tracker, (0, []))) as [[r err] [t' w']] eqn:E.
    assert (err = None) as -> by (change err with (r, err, (t', w')).1.2; rewrite <-E; vm_compute; reflexivity).
    split; [reflexivity|]. destruct demo_bolt_store_ok as [Hop Hview].
    destruct (@reconcile_commits _ _ _ (TreeFS demo_fs) _ _ demo_bolt_config (mret ()) demo_clock (λ _, mret ())
      (λ _, mret ()) 20 ["/data"] demo_bolt_tracker (0, []) r t' w')
      as (expected & l & t1 & w1 & semantic & Eo & _ & _ & Hv & _);
      [reflexivity|reflexivity|by_decide|vm_compute; congruence|exact Hop| |discriminate|exact E|].
    { intros sc Hsc. vm_compute in Hsc. apply list_elem_of_singleton in Hsc as ->. intros p Hp. rewrite Hview in Hp.
      destruct Hp as [st [<- _]%lookup_singleton_Some]. by left. }
    apply (f_equal (λ x, lc_actual x.2.1)) in Eo. cbn [snd fst] in Eo. exists l. rewrite <-Eo in *.
    destruct Hv as [Hop' Hv]; [by_decide|]. split; [exact Hop'|]. split; [by_decide|exact Hv].
Defined.


(** The tracker that the refused delivery leaves, retried on another tree. *)
Definition demo_pending : Tracker MemoryStore := (demo_reconcile ["/data"] (demo_tracker, (1, []))).2.1.
Definition demo_retry := @retry demo_world (list string) MemoryStore (TreeFS (TDir (demo_info ModeDir 1) [])) _
  demo_sink_config (mret ()) demo_clock (λ _, mret ()) (λ _, mret ()) 20 demo_pending
  [(["/data/a"], (1, [])); (["/data/b"], (0, []))].

Lemma demo_pending_ok : mem_ok (tk_store demo_pending).
Proof.
  assert (tk_store demo_pending = tk_store demo_tracker) as -> by (vm_compute; reflexivity). apply demo_store_ok.
Qed.

Lemma pending_generation_frozen_witness :
  ∃ t', demo_retry = (Some (0, []), t') ∧
    ms_entries (tk_store t') !! "/data/gone" = None ∧ is_Some (ms_entries (tk_store t') !! "/data/a/x") ∧
    tk_pending t' = None ∧ tk_generation t' = 8%Z.
Proof.
  destruct (tk_pending demo_pending) as [p|] eqn:Hp; [|vm_compute in Hp; discriminate].
  assert (Some p = tk_pending demo_pending) as Hp' by (symmetry; exact Hp). vm_compute in Hp'. injection Hp' as ->.
  pose proof (@pending_generation_frozen _ _ _ (TreeFS (TDir (demo_info ModeDir 1) [])) _ _ demo_sink_config (mret ())
    demo_clock (λ _, mret ()) (λ _, mret ()) 20 [(["/data/a"], (1, [])); (["/data/b"], (0, []))] demo_sink
    demo_pending _ ltac:(vm_compute; reflexivity) Hp ltac:(reflexivity) ltac:(reflexivity) ltac:(reflexivity)
    demo_pending_ok ltac:(repeat constructor; by_decide) ltac:(repeat constructor; by_decide)) as Hf.
  cbv zeta in Hf. fold demo_retry in Hf.
  assert (demo_retry.1 = Some (0, [])) as E by (vm_compute; reflexivity).
  destruct demo_retry as [o t']. simpl in E. subst o. destruct Hf as (_ & _ & _ & Hv & Hn & Hg).
  exists t'. split; [reflexivity|]. split; [|split; [|split; [exact Hn|exact Hg]]].
  all: change (ms_entries (tk_store t')) with (store_view (tk_store t')); rewrite Hv.
  - vm_compute. reflexivity.
  - vm_compute. eexists. reflexivity.
Defined.
