(* ===== verification/ReconcileTree.v ===== *)
(** * Reconciling an unchanging directory

    The default configuration end to end: the in-memory store, no expected state,
    no change sink, and a file system that answers as a directory tree.  A
    reconciliation then succeeds, the snapshot becomes the scanned tree, and a
    second one finds nothing to report. *)

From S2P Require Import Prelude Frame GoPath DirtySet Scopes Types Diff DiffSpec Delivery Store.
From S2P Require Import MemoryStore WatchTree Scanner Tracker Expected Reconcile ReconcileSpec.

(** ** The scanned tree as a snapshot *)

Definition tree_actual (s : Scanner) (dir : string) (t : tree) : view :=
  foldl (λ m e, <[en_Path e := stateFromEntry e]> m) ∅ (scan_spec s dir t).

(** Every scanned path lies strictly below the scanned directory. *)
Lemma scan_spec_below s t cs e :
  tree_wf t → Forall good cs → e ∈ scan_spec s (abs cs) t →
  ∃ k, k ≠ [] ∧ Forall good (cs ++ k) ∧ en_Path e = abs (cs ++ k).
Proof.
  revert cs. induction t as [i|i ch IH] using tree_ind'; intros cs Hwf Hg He; [by apply not_elem_of_nil in He|].
  rewrite scan_spec_dir in He. apply list_elem_of_In, in_concat in He as (l & Hl & He).
  apply list_elem_of_In in Hl, He. apply list_elem_of_fmap in Hl as ([name c] & -> & Hin).
  inversion Hwf as [|? ? _ _ Hgood _ Hcwf]; subst. rewrite Forall_forall in Hgood. rewrite Forall_forall in Hcwf.
  assert (good name) as Hn by (apply Hgood, list_elem_of_fmap; by exists (name, c)).
  assert (Forall good (cs ++ [name])) as Hg' by (apply Forall_app_2; [done|by constructor]).
  unfold child_spec in He. cbv zeta in He. rewrite Join_abs in He by done.
  destruct (_ && _); [by apply not_elem_of_nil in He|].
  destruct (filtered s _); [by apply not_elem_of_nil in He|].
  apply elem_of_cons in He as [->|He].
  { exists [name]. split; [done|]. split; [done|]. unfold entry_of.
    by rewrite makeEntry_ok; unfold entry_of; destruct (makeEntry _ _) eqn:E;
      [apply entry_path in E|]. }
  destruct (sn_Recursive s); [|by apply not_elem_of_nil in He].
  destruct (IH (name, c) Hin (cs ++ [name])) as (k & Hk & Hgk & Hp); [by apply (Hcwf (name, c))|done|done|].
  exists (name :: k). split; [done|]. rewrite <-app_assoc in Hgk, Hp. done.
Qed.

(** A scan visits every path once. *)
Lemma child_spec_below s cs name c e :
  tree_wf c → Forall good (cs ++ [name]) → e ∈ child_spec s (abs cs) (name, c) →
  ∃ k, Forall good (cs ++ name :: k) ∧ en_Path e = abs (cs ++ name :: k).
Proof.
  intros Hwf Hg He. unfold child_spec in He. cbv zeta in He. pose proof Hg as Hg'. apply Forall_app in Hg as [Hg Hn].
  apply Forall_cons in Hn as [Hn _]. rewrite Join_abs in He by done.
  destruct (_ && _); [by apply not_elem_of_nil in He|]. destruct (filtered s _); [by apply not_elem_of_nil in He|].
  apply elem_of_cons in He as [->|He].
  { exists []. split; [done|]. unfold entry_of. destruct (makeEntry _ _) eqn:E; [by apply entry_path in E|done]. }
  destruct (sn_Recursive s); [|by apply not_elem_of_nil in He].
  destruct (scan_spec_below s c (cs ++ [name]) e Hwf Hg' He) as (k & _ & Hgk & Hp).
  exists k. by rewrite <-app_assoc in Hgk, Hp.
Qed.

Lemma scan_spec_NoDup s t cs : tree_wf t → Forall good cs → NoDup (en_Path <$> scan_spec s (abs cs) t).
Proof.
  revert cs. induction t as [i|i ch IH] using tree_ind'; intros cs Hwf Hg; [constructor|]. rewrite scan_spec_dir.
  inversion Hwf as [|? ? _ _ Hgood Hnd Hcwf]; subst. clear Hwf.
  induction ch as [|[name c] ch IHch]; [constructor|]. rewrite !fmap_cons in *. cbn [concat]. rewrite fmap_app.
  apply Forall_cons in Hgood as [Hn Hgood], Hcwf as [Hc Hcwf]. apply NoDup_cons in Hnd as [Hnin Hnd].
  assert (Forall good (cs ++ [name])) as Hg' by by apply Forall_app_2; [|constructor].
  apply NoDup_app. split_and!.
  - unfold child_spec. cbv zeta. rewrite Join_abs by done.
    destruct (_ && _); [constructor|]. destruct (filtered s _); [constructor|]. rewrite fmap_cons. apply NoDup_cons. split.
    + intros Hin. destruct (sn_Recursive s); [|by apply not_elem_of_nil in Hin].
      apply list_elem_of_fmap in Hin as (e & He & Hin).
      destruct (scan_spec_below s c (cs ++ [name]) e Hc Hg' Hin) as (k & Hk & Hgk & Hp).
      assert (en_Path (entry_of (abs (cs ++ [name])) (tree_info c)) = abs (cs ++ [name])) as Hh.
      { unfold entry_of. destruct (makeEntry _ _) eqn:E; [by apply entry_path in E|done]. }
      rewrite Hh, Hp in He. apply abs_inj in He; [|done..]. destruct k; [done|].
      apply (f_equal length) in He. rewrite !length_app in He. simpl in He. lia.
    + destruct (sn_Recursive s); [|constructor]. by apply (IH (name, c) ltac:(left)).
  - intros p Hp Hp'. apply list_elem_of_fmap in Hp as (e & -> & He).
    destruct (child_spec_below s cs name c e Hc Hg' He) as (k & Hgk & Hpe).
    apply list_elem_of_fmap in Hp' as (e' & Hpe' & He'). apply list_elem_of_In, in_concat in He' as (l & Hl & He').
    apply list_elem_of_In in Hl, He'. apply list_elem_of_fmap in Hl as ([name' c'] & -> & Hin).
    rewrite Forall_forall in Hgood. rewrite Forall_forall in Hcwf.
    assert (good name') as Hn' by (apply Hgood, list_elem_of_fmap; by exists (name', c')).
    destruct (child_spec_below s cs name' c' e') as (k' & Hgk' & Hpe''); [by apply (Hcwf (name', c'))| |done|].
    { apply Forall_app_2; [done|by constructor]. }
    rewrite Hpe, Hpe'' in Hpe'. apply abs_inj in Hpe'; [|done..]. simplify_list_eq.
    apply Hnin, list_elem_of_fmap. by exists (name', c').
  - apply IHch; [|done..]. intros nc Hin. apply IH. by right.
Qed.

Lemma foldl_entries_lookup (es : list Entry) (m : view) p st :
  foldl (λ m e, <[en_Path e := stateFromEntry e]> m) m es !! p = Some st →
  m !! p = Some st ∨ ∃ e, e ∈ es ∧ en_Path e = p ∧ st = stateFromEntry e.
Proof.
  revert m. induction es as [|e es IH]; intros m; cbn [foldl]; [by left|].
  intros [Hm|(e' & Hin & Hp)]%IH; [|right; exists e'; by split; [right|]].
  apply lookup_insert_Some in Hm as [[? ?]|[_ ?]]; [|by left].
  right. exists e. by split; [left|].
Qed.

Lemma tree_actual_below s t cs p :
  tree_wf t → Forall good cs → is_Some (tree_actual s (abs cs) t !! p) →
  clean_abs p ∧ within (abs cs) p = true ∧ p ≠ abs cs.
Proof.
  intros Hwf Hg [st [H|(e & Hin & <- & _)]%foldl_entries_lookup]; [by rewrite lookup_empty in H|].
  destruct (scan_spec_below s t cs e Hwf Hg Hin) as (k & Hk & Hgk & ->).
  split; [by apply clean_abs_abs|]. split; [apply within_abs; [done|done|by exists k]|].
  intros E%abs_inj; [|done|done]. apply (f_equal length) in E. rewrite length_app in E.
  destruct k; [done|]. simpl in E. lia.
Qed.

Lemma tree_actual_ok s t cs : tree_wf t → Forall good cs → view_ok (tree_actual s (abs cs) t).
Proof.
  intros Hwf Hg p st Hp. split; [by eapply tree_actual_below|].
  apply foldl_entries_lookup in Hp as [Hp|(e & _ & <- & ->)]; [by rewrite lookup_empty in Hp|done].
Qed.

(** Equal sides have no differences. *)
Lemma diff_changes_same m eligible : diff_changes m m None eligible = [].
Proof.
  destruct (diff_changes m m None eligible) as [|c l] eqn:E; [done|]. exfalso.
  assert (c ∈ diff_changes m m None eligible) as Hc by (rewrite E; left).
  apply elem_of_diff_changes in Hc.
  assert (∀ id p, ¬ unique_in (m ∖ m) id p) as Hno.
  { intros id p [st Hst]%unique_in_elem. by rewrite map_difference_diag, lookup_empty in Hst. }
  destruct Hc as [p b a H1 H2 H3|p b a H1 H2 _ H3|p b a H1 H2 _ _ H3|id old new b a [H3 _] _ _
    |p a H1 H2 _|p b H1 H2 _|? ? ? [=]|? ? ? ? [=]|? ? ? [=]]; simplify_eq.
  - unfold sameIdentity in H3. case_decide; [done|]. by rewrite bool_decide_true in H3.
  - unfold contentChanged in H3. rewrite !bool_decide_false in H3 by naive_solver. done.
  - by apply Hno in H3.
Qed.

(** ** One reconciliation *)

Lemma forM_updFst {X S A} (f : A → X → X) (l : list A) (x : X) (s : S) :
  forM l (λ a, updFst (f a)) (x, s) = (inl (), (foldl (λ x a, f a x) x l, s)).
Proof. revert x. induction l as [|a l IH]; intros x; [done|]. cbn [forM foldl]. rewrite bind_run. apply IH. Qed.

Lemma lift_behaves {X W} fs (FS : FileSystem W (list string)) :
  behaves_as fs FS → behaves_as fs (@FileSystem_lift X W (list string) FS).
Proof.
  intros [Hl Ho Hr]. split.
  - intros p [x w]. cbn [os_Lstat FileSystem_lift onSnd]. rewrite Hl. unfold tree_Lstat. by destruct (find _ _).
  - intros p [x w]. cbn [os_Open FileSystem_lift onSnd]. rewrite Ho. unfold tree_Open.
    by destruct (find _ _) as [[]|].
  - intros h n [x w]. cbn [h_ReadDir FileSystem_lift onSnd]. rewrite Hr. unfold tree_ReadDir. by destruct h.
Qed.

(** The root collapses to itself. *)
Lemma collapse_root cs : Forall good cs → collapseScopes (abs cs) [abs cs] = [abs cs].
Proof.
  intros Hg. unfold collapseScopes, collapse_step. cbn [foldl]. rewrite Clean_abs by done.
  unfold pathHasPrefix. rewrite decide_True by by right. done.
Qed.

(** The default configuration on a directory of the tree. *)
Record plain {W St} (fs t0 : tree) (config : Config W St) (ctx : M W ()) (fuel : nat) (cs : list string) : Prop := {
  pl_ctx : ctx_live ctx;
  pl_links : cf_SymlinkPolicy config = IgnoreSymlinks ∨ cf_SymlinkPolicy config = ReportSymlinks;
  pl_hard : cf_HardlinkPolicy config = AllowHardlinks;
  pl_expected : cf_Expected config = None;
  pl_sink : cf_ChangeSink config = None;
  pl_limit : (0 ≤ cf_ReportEventLimit config)%Z;
  pl_wf : tree_wf t0;
  pl_find : find fs cs = Some t0;
  pl_good : Forall good cs;
  pl_dir : mode_IsDir (fi_Mode (tree_info t0)) = true;
  pl_fuel : need t0 ≤ fuel
}.
Arguments pl_ctx {_ _ _ _ _ _ _ _} _.
Arguments pl_links {_ _ _ _ _ _ _ _} _.
Arguments pl_hard {_ _ _ _ _ _ _ _} _.
Arguments pl_expected {_ _ _ _ _ _ _ _} _.
Arguments pl_sink {_ _ _ _ _ _ _ _} _.
Arguments pl_limit {_ _ _ _ _ _ _ _} _.
Arguments pl_wf {_ _ _ _ _ _ _ _} _.
Arguments pl_find {_ _ _ _ _ _ _ _} _.
Arguments pl_good {_ _ _ _ _ _ _ _} _.
Arguments pl_dir {_ _ _ _ _ _ _ _} _.
Arguments pl_fuel {_ _ _ _ _ _ _ _} _.

Section tree.
Context {W : Type} (fs t0 : tree) (FS : FileSystem W (list string)) (Hfs : behaves_as fs FS).
Context (config : Config W MemoryStore) (ctx : M W ()) (clock : W → Z * W).
Context (backend_Add backend_Remove : string → M W ()) (fuel : nat) (cs : list string).

Context (Hpl : plain fs t0 config ctx fuel cs).

Abbreviation LW := (locals * (Tracker MemoryStore * W))%type.
Abbreviation scanner := (theScanner config).
Abbreviation actual0 := (tree_actual scanner (abs cs) t0).


(** *** Closed forms of the phases *)

Definition addEntry (e : Entry) (l : locals) : locals :=
  let state := stateFromEntry e in
  with_report inc_rp_Scanned (with_actual (<[fs_Path state := state]>)
    (if bool_decide (fs_Type state = FileTypeDirectory) && cf_Recursive config
     then with_observed (union {[fs_Path state]}) l else l)).

Lemma onEntry_plain e l (t : Tracker MemoryStore) w :
  tk_watchTree t = None →
  onEntry config clock backend_Add e (l, (t, w)) = (inl (), (addEntry e l, (t, w))).
Proof.
  intros Ht. unfold onEntry, addEntry. cbv zeta. rewrite bind_run.
  assert (wrapping "add recursive watch" (onSnd (watchAdd backend_Add (fs_Path (stateFromEntry e)))) (l, (t, w)) =
    (inl (), (l, (t, w)))) as Hw by (unfold wrapping, onSnd, watchAdd; by rewrite Ht).
  destruct (bool_decide (fs_Type _ = FileTypeDirectory) && cf_Recursive config).
  - rewrite bind_run, Hw. cbn [updFst]. rewrite bind_run.
    rewrite (decide_False (P := cf_HardlinkPolicy config = RejectHardlinks)) by (rewrite (pl_hard Hpl); done).
    rewrite (decide_False (P := cf_HardlinkPolicy config = ReportHardlinks)) by (rewrite (pl_hard Hpl); done).
    by destruct (_ && _).
  - cbn [mret M_ret]. rewrite bind_run.
    rewrite (decide_False (P := cf_HardlinkPolicy config = RejectHardlinks)) by (rewrite (pl_hard Hpl); done).
    rewrite (decide_False (P := cf_HardlinkPolicy config = ReportHardlinks)) by (rewrite (pl_hard Hpl); done).
    by destruct (_ && _).
Qed.

Lemma forM_onEntry es l (t : Tracker MemoryStore) w :
  tk_watchTree t = None →
  forM es (onEntry config clock backend_Add) (l, (t, w)) =
  (inl (), (foldl (λ l e, addEntry e l) l es, (t, w))).
Proof.
  intros Ht. revert l. induction es as [|e es IH]; intros l; [done|]. cbn [forM foldl].
  rewrite bind_run, onEntry_plain by done. apply IH.
Qed.

Lemma addEntries_fields es l :
  let l' := foldl (λ l e, addEntry e l) l es in
  lc_previous l' = lc_previous l ∧ lc_policyEvents l' = lc_policyEvents l ∧ lc_allEvents l' = lc_allEvents l ∧
  lc_report l' = Nat.iter (length es) inc_rp_Scanned (lc_report l) ∧
  lc_actual l' = foldl (λ m e, <[en_Path e := stateFromEntry e]> m) (lc_actual l) es.
Proof.
  cbv zeta. revert l. induction es as [|e es IH]; intros l; [done|]. cbn [foldl].
  destruct (IH (addEntry e l)) as (-> & -> & -> & -> & ->). unfold addEntry. cbv zeta.
  destruct (_ && _); cbn; (split; [done|split; [done|split; [done|split; [|done]]]]).
  all: change (λ r, inc_rp_Scanned r) with inc_rp_Scanned.
  all: by rewrite <-Nat.iter_succ_r.
Qed.

Lemma loadPrevious_plain l (t : Tracker MemoryStore) w :
  mem_ok (tk_store t) → clean_abs (abs cs) →
  loadPrevious ctx [abs cs] (l, (t, w)) =
  (inl (), (with_previous (λ m, foldl (λ a st, <[fs_Path st := st]> a) m
    (scope_entries (ms_entries (tk_store t)) (abs cs))) l, (t, w))).
Proof.
  intros Hok Hc. unfold loadPrevious. cbn [forM]. rewrite bind_run. unfold wrapping. rewrite bind_run.
  cbn [gets snd fst store_Walk MemoryStore_store]. rewrite mem_WalkScope_spec by done.
  assert (ctx_live (onSnd (X := locals) (onSnd (X := Tracker MemoryStore) ctx))) as Hctx.
  { intros [l' [t' w']]. unfold onSnd. by rewrite (pl_ctx Hpl). }
  rewrite bind_run, Hctx, forM_ctx_live, forM_updFst by done. cbn. do 2 f_equal.
  generalize (scope_entries (ms_entries (tk_store t)) (abs cs)). intros es. revert l.
  induction es as [|st es IH]; intros l; [by destruct l|]. cbn [foldl]. rewrite IH. by destruct l.
Qed.

Lemma scanScope_plain l (t : Tracker MemoryStore) w :
  tk_watchTree t = None →
  scanScope (H := list string) config ctx clock backend_Add fuel (abs cs) (l, (t, w)) =
  (inl (), (foldl (λ l e, addEntry e l)
     (with_observed (union {[abs cs]}) (with_previous (delete (abs cs)) l))
     (scan_spec scanner (abs cs) t0), (t, w))).
Proof.
  intros Ht. unfold scanScope. rewrite bind_run. unfold try.
  rewrite (ba_Lstat fs _ (lift_behaves _ _ (lift_behaves _ _ Hfs))). unfold tree_Lstat.
  rewrite comps_abs, (pl_find Hpl) by apply Hpl. cbn [mret M_ret]. rewrite bind_run, (pl_dir Hpl).
  rewrite bind_run. cbn [updFst]. rewrite bind_run.
  rewrite (Scan_tree fs scanner (onSnd (onSnd ctx)) _) with (t := t0) (cs := cs).
  - rewrite bind_run, forM_onEntry by done. done.
  - intros [l' [t' w']]. unfold onSnd. by rewrite (pl_ctx Hpl).
  - apply (lift_behaves _ _ (lift_behaves _ _ Hfs)).
  - cbn [theScanner sn_SymlinkPolicy]. unfold scannerPolicy.
    destruct (pl_links Hpl) as [->| ->]; [by left|by right].
  - apply Hpl.
  - apply Hpl.
  - apply Hpl.
  - apply Hpl.
  - apply Hpl.
Qed.

(** A snapshot strictly below the root. *)
Definition below_root (v : view) : Prop :=
  ∀ p, is_Some (v !! p) → within (abs cs) p = true ∧ p ≠ abs cs.

Lemma observe_plain r0 (t : Tracker MemoryStore) w :
  tk_watchTree t = None → mem_ok (tk_store t) → below_root (ms_entries (tk_store t)) →
  ∃ l, observe (H := list string) config ctx clock backend_Add backend_Remove fuel [abs cs] (start r0 {[abs cs]}, (t, w)) =
      (inl None, (l, (t, w))) ∧
    lc_previous l = ms_entries (tk_store t) ∧ lc_actual l = actual0 ∧ lc_policyEvents l = [] ∧
    lc_report l = Nat.iter (length (scan_spec scanner (abs cs) t0)) inc_rp_Scanned r0.
Proof.
  intros Ht Hok Hbelow. pose proof (clean_abs_abs cs (pl_good Hpl)) as Hc. unfold observe.
  rewrite bind_run, loadPrevious_plain by done. rewrite bind_run. cbn [forM]. rewrite bind_run, scanScope_plain by done.
  set (l := foldl _ _ (scan_spec scanner (abs cs) t0)).
  destruct (addEntries_fields (scan_spec scanner (abs cs) t0) (with_observed (union {[abs cs]})
    (with_previous (delete (abs cs)) (with_previous (λ m, foldl (λ a st, <[fs_Path st := st]> a) m
    (scope_entries (ms_entries (tk_store t)) (abs cs))) (start r0 {[abs cs]}))))) as (H1 & H2 & _ & H4 & H5).
  fold l in H1, H2, H4, H5. exists l. split.
  - cbn [mret M_ret]. rewrite bind_run. unfold loadExpectedScopes. rewrite (pl_expected Hpl).
    destruct (cf_Recursive config); [|done]. rewrite bind_run. cbn [gets fst].
    unfold wrapping, onSnd at 1, watchSync. rewrite Ht. done.
  - split; [|by rewrite H5, H2, H4]. rewrite H1. cbn. apply map_eq. intros p. rewrite lookup_delete.
    case_decide as Hd.
    + subst. symmetry. apply eq_None_not_Some. intros Hs. by destruct (Hbelow _ Hs).
    + rewrite insert_scope_lookup by by apply mem_entries_ok. rewrite lookup_empty.
      destruct (ms_entries (tk_store t) !! p) as [st|] eqn:E; [|by rewrite andb_false_r].
      destruct (Hbelow p) as [-> _]; [by rewrite E|]. done.
Qed.

Lemma applySnapshot_plain l (t : Tracker MemoryStore) w :
  mem_ok (tk_store t) → lc_previous l = ms_entries (tk_store t) → lc_actual l = actual0 →
  ∃ s', applySnapshot ctx true (putsOf l) (deletesOf l) (t, w) = (inl (), (set_store t s', w)) ∧
    mem_ok s' ∧ ms_entries s' = actual0.
Proof.
  intros Hok Hpv Hac.
  assert (view_ok (lc_actual l)) as Hva by (rewrite Hac; apply tree_actual_ok; apply Hpl).
  exists (run_op (tk_store t) (OpApply (putsOf l) (deletesOf l))). split.
  - unfold applySnapshot. rewrite bind_run. cbn [gets fst store_batch MemoryStore_store in_context]. unfold wrapping, onStore, mutating.
    cbn [store_Apply MemoryStore_store]. unfold mutating, mem_Apply. rewrite bind_run, (pl_ctx Hpl). done.
  - destruct (run_op_ok (tk_store t) (OpApply (putsOf l) (deletesOf l)) Hok) as [H1 H2].
    { split.
      - apply Forall_forall. intros st Hin. unfold putsOf in Hin.
        apply list_elem_of_fmap in Hin as ([p st'] & -> & Hin%elem_of_map_to_list).
        destruct (Hva _ _ Hin) as [? ?]. simpl. congruence.
      - apply Forall_forall. intros p Hin. unfold deletesOf in Hin.
        apply list_elem_of_fmap in Hin as ([p' st'] & -> & [Hin _]%elem_of_map_to_list%lookup_difference_Some).
        rewrite Hpv in Hin. by destruct (mem_entries_ok _ Hok _ _ Hin). }
    split; [done|]. rewrite H2. cbn [view_op]. apply map_eq. intros p. rewrite commit_lookup by done.
    unfold committed. rewrite Hac, Hpv. destruct (actual0 !! p); [done|].
    case_decide as Hd; [done|]. by apply eq_None_not_Some.
Qed.

(** What a reconciliation of the directory does. *)
Record reconciled (t t' : Tracker MemoryStore) (r : ReconcileReport) : Prop := {
  rc_ok : mem_ok (tk_store t');
  rc_entries : ms_entries (tk_store t') = actual0;
  rc_fields : tk_closed t' = false ∧ tk_pending t' = None ∧ tk_watchTree t' = None ∧ tk_root t' = abs cs;
  rc_flags : tk_started t' = tk_started t ∧ tk_backendHealthy t' = tk_backendHealthy t ∧
    tk_dirtyPending t' = tk_dirtyPending t;
  rc_state : tk_state t' = if tk_started t && negb (tk_backendHealthy t) then StateDegraded
                           else if tk_dirtyPending t then StateDirty else StateSynced;
  rc_report : ∃ evs, Forall2 event_of (diff_changes (toInternalStates (ms_entries (tk_store t)))
                  (toInternalStates actual0) None (Some (orphanEligible config))) evs ∧
    report_of (cf_ReportEventLimit config) evs (u64 (tk_generation t + 1)) r;
  rc_healthy : rp_Healthy r = u64 (Z.of_nat (size actual0) - rp_Created r - rp_Modified r - rp_Replaced r);
  rc_generation : tk_generation t' = u64 (tk_generation t + 1)
}.

Abbreviation ReconcileT :=
  (Reconcile (H := list string) config ctx clock backend_Add backend_Remove fuel None).


Lemma reconcileBody_plain g st (t : Tracker MemoryStore) w :
  tk_watchTree t = None → tk_closed t = false → mem_ok (tk_store t) → below_root (ms_entries (tk_store t)) →
  ∃ l evs s' d w',
    let r := set_rp_Duration d (set_rp_Healthy (healthyOf None (recordAll config evs l))
      (recordEvents (cf_ReportEventLimit config) (lc_report l) evs)) in
    reconcileBody (H := list string) config ctx clock backend_Add backend_Remove fuel [abs cs]
      (start (fresh_report g st) {[abs cs]}, (t, w)) =
    (inl (), (with_report (λ _, r) (recordAll config evs l), (finished config (set_pending (set_store t s') None) r, w'))) ∧
    mem_ok s' ∧ ms_entries s' = actual0 ∧ lc_actual l = actual0 ∧
    (∃ n, lc_report l = Nat.iter n inc_rp_Scanned (fresh_report g st)) ∧
    Forall2 event_of (diff_changes (toInternalStates (ms_entries (tk_store t))) (toInternalStates actual0) None
      (Some (orphanEligible config))) evs.
Proof.
  intros Ht Hcl Hok Hbelow.
  destruct (observe_plain (fresh_report g st) t w Ht Hok Hbelow) as (l & Eo & Hpv & Hac & Hpo & Hrep).
  destruct (compareStates_run config clock None l t w) as (evs & w1 & (semantic & Hev & HF) & Ec).
  rewrite Hpo, app_nil_r in Hev. subst semantic. rewrite Hpv, Hac in HF.
  destruct (recordAll_fields config evs l) as (Hr1 & _ & Hp1 & Ha1 & _).
  destruct (applySnapshot_plain (recordAll config evs l) t w1 Hok) as (s' & Ea & Hs' & He'); [congruence..|].
  destruct (finishReport_run config clock None (recordAll config evs l) (set_pending (set_store t s') None) w1)
    as (d & w' & Ef). cbv zeta in Ef.
  exists l, evs, s', d, w'. cbv zeta. rewrite <-Hr1. split; [|by split_and!; eauto].
  unfold reconcileBody. rewrite bind_run, Eo, bind_run, Ec, bind_run. cbn [gets fst]. rewrite bind_run.
  unfold journal. rewrite (pl_sink Hpl). unfold onSnd at 1. cbn [mret M_ret]. rewrite bind_run.
  unfold onSnd at 1. rewrite Ea, bind_run. unfold onSnd at 1. cbn [updFst]. exact Ef.
Qed.

Lemma reconcile_once t w :
  tk_closed t = false → tk_pending t = None → tk_watchTree t = None → tk_root t = abs cs →
  mem_ok (tk_store t) → below_root (ms_entries (tk_store t)) →
  ∃ r t' w', ReconcileT (t, w) = ((r, None), (t', w')) ∧ reconciled t t' r.
Proof.
  intros Hcl Hp Ht Hroot Hok Hbelow. unfold Reconcile, reconcileScopes, reconcileLocked. rewrite Hcl, Hp. unfold newGeneration, setState.
  rewrite Hcl. destruct (clock w) as [st w1].
  assert (tk_root (set_state_field t StateReconciling) = abs cs ∧
    tk_generation (set_state_field t StateReconciling) = tk_generation t ∧
    tk_watchTree (set_state_field t StateReconciling) = None ∧
    tk_closed (set_state_field t StateReconciling) = false ∧
    tk_store (set_state_field t StateReconciling) = tk_store t) as (Hr' & Hg' & Ht' & Hc' & Hs') by by destruct t.
  rewrite Hr', Hroot, collapse_root by apply Hpl.
  destruct (reconcileBody_plain (u64 (tk_generation (set_state_field t StateReconciling) + 1)) st
    (set_state_field t StateReconciling) w1 Ht' Hc') as (l & evs & s' & d & w' & E & Hs & He & Ha & [n Hn] & HF);
    [by rewrite Hs'|by rewrite Hs'|]. cbv zeta in E. unfold start, fresh_report in E. rewrite E. clear E.
  set (r := set_rp_Duration d _). do 3 eexists. split; [reflexivity|].
  assert (report_of (cf_ReportEventLimit config) evs (u64 (tk_generation t + 1)) r) as Hro.
  { unfold r. rewrite Hn, Hg'. apply report_of_stream, Hpl. }
  set (t2 := set_pending (set_store (set_state_field t StateReconciling) s') None).
  destruct (finished_fields config t2 r) as (H1 & H2 & H3 & H4 & H5 & H6 & H7).
  assert (tk_store t2 = s' ∧ tk_pending t2 = None ∧ tk_root t2 = abs cs ∧ tk_closed t2 = false ∧
    tk_watchTree t2 = None ∧ tk_started t2 = tk_started t ∧ tk_backendHealthy t2 = tk_backendHealthy t ∧
    tk_dirtyPending t2 = tk_dirtyPending t) as (K1 & K2 & K3 & K4 & K5 & K6 & K7 & K8) by by destruct t.
  assert (tk_started (finished config t2 r) = tk_started t2 ∧
    tk_backendHealthy (finished config t2 r) = tk_backendHealthy t2 ∧
    tk_dirtyPending (finished config t2 r) = tk_dirtyPending t2) as (F1 & F2 & F3).
  { unfold finished. destruct (sendEvents_fields config (rp_Events r) (setConsistentState (set_generation (set_stats t2
      (addReportStats (tk_stats t2) r)) (rp_Generation r)))) as (_ & _ & _ & _ & _ & _ & -> & -> & -> & _).
    destruct t2 as [ro so sx st2 cl bh id wt ev er ss g p dp ch on]. unfold setConsistentState. simpl.
    by destruct cl, st2, bh, dp. }
  split.
  - by rewrite H1, K1.
  - by rewrite H1, K1.
  - rewrite H5, H3, H6, H4. done.
  - rewrite F1, F2, F3. done.
  - rewrite H7 by done. by rewrite K6, K7, K8.
  - exists evs. rewrite Hs' in HF. done.
  - destruct (recordAll_fields config evs l) as (Hr1 & _ & _ & Ha1 & _).
    unfold r. unfold healthyOf. rewrite Hr1, Ha1, Ha.
    by destruct (recordEvents (cf_ReportEventLimit config) (lc_report l) evs).
  - rewrite H2. apply Hro.
Qed.

(** *** The second reconciliation *)

Lemma actual_below : below_root actual0.
Proof. intros p Hp. apply tree_actual_below in Hp; [tauto|apply Hpl..]. Qed.

Lemma counter_nil r g : report_of (cf_ReportEventLimit config) [] g r → ∀ k, k ∈ counted_kinds → counter r k = 0%Z.
Proof. intros (_ & _ & _ & Hk) k Hin. by rewrite Hk. Qed.

(** C8: reconciliation converges and is idempotent.  On a directory tree that
    does not change, with the default in-memory configuration: a reconciliation
    from any earlier snapshot succeeds, reports the semantic differences and leaves
    exactly the scanned tree as the snapshot ([reconciled]); a second one succeeds,
    has no events, counts nothing but healthy entries, leaves the snapshot alone
    and advances the generation. *)
Theorem reconcile_idempotent t w :
  tk_closed t = false → tk_pending t = None → tk_watchTree t = None → tk_root t = abs cs →
  mem_ok (tk_store t) → below_root (ms_entries (tk_store t)) →
  ∃ r1 t1 w1 r2 t2 w2,
    ReconcileT (t, w) = ((r1, None), (t1, w1)) ∧ reconciled t t1 r1 ∧
    ReconcileT (t1, w1) = ((r2, None), (t2, w2)) ∧ ms_entries (tk_store t2) = actual0 ∧
    rp_Events r2 = [] ∧ (∀ k, k ∈ counted_kinds → counter r2 k = 0%Z) ∧
    rp_Healthy r2 = u64 (Z.of_nat (size actual0)) ∧ tk_state t2 = tk_state t1 ∧
    tk_generation t1 = u64 (tk_generation t + 1) ∧ tk_generation t2 = u64 (tk_generation t1 + 1).
Proof.
  intros Hcl Hp Hwt Hroot Hok Hb.
  destruct (reconcile_once t w Hcl Hp Hwt Hroot Hok Hb) as (r1 & t1 & w1 & E1 & R1).
  destruct (rc_fields _ _ _ R1) as (Hcl1 & Hp1 & Hwt1 & Hroot1).
  destruct (reconcile_once t1 w1 Hcl1 Hp1 Hwt1 Hroot1 (rc_ok _ _ _ R1)) as (r2 & t2 & w2 & E2 & R2).
  { rewrite (rc_entries _ _ _ R1). apply actual_below. }
  exists r1, t1, w1, r2, t2, w2.
  destruct (rc_report _ _ _ R2) as (evs & HF & Hrep).
  rewrite (rc_entries _ _ _ R1), diff_changes_same in HF. apply Forall2_nil_inv_l in HF as ->.
  pose proof (counter_nil _ _ Hrep) as Hk.
  pose proof (Hk EventCreated ltac:(by by_decide)) as Hcr.
  pose proof (Hk EventModified ltac:(by by_decide)) as Hmo.
  pose proof (Hk EventReplaced ltac:(by by_decide)) as Hre.
  destruct (rc_flags _ _ _ R1) as (F1 & F2 & F3).
  split_and!; [exact E1|exact R1|exact E2|apply R2| |exact Hk| | |apply R1|apply R2].
  - destruct Hrep as (_ & -> & _). apply take_nil.
  - rewrite (rc_healthy _ _ _ R2). f_equal. change (rp_Created r2) with (counter r2 EventCreated).
    change (rp_Modified r2) with (counter r2 EventModified). change (rp_Replaced r2) with (counter r2 EventReplaced). lia.
  - rewrite (rc_state _ _ _ R2), (rc_state _ _ _ R1), F1, F2, F3. done.
Qed.
End tree.

(** The tracker of [/data] with the default configuration. *)
Definition demo_cfg : Config () MemoryStore :=
  mkConfig "/data" true None ExpectedRegularFiles None None None None IgnoreSymlinks AllowHardlinks 1 0 16 100 10.
Definition demo_Reconcile := @Reconcile () (list string) MemoryStore (TreeFS demo_fs) _ demo_cfg (mret ()) demo_clock
    (λ _, mret ()) (λ _, mret ()) 20 None.

Lemma demo_plain : plain demo_fs demo_tree demo_cfg (mret ()) 20 ["data"].
Proof.
  split; [by intros []|by left|done|done|done|done|exact demo_tree_wf|done|by_decide|done|vm_compute; lia].
Qed.

Lemma reconcile_idempotent_witness :
  ∃ r1 t1 r2 t2, demo_Reconcile (demo_tracker, ()) = ((r1, None), (t1, ())) ∧
    demo_Reconcile (t1, ()) = ((r2, None), (t2, ())) ∧
    rp_Created r1 = 3%Z ∧ rp_Deleted r1 = 1%Z ∧ rp_Events r2 = [] ∧ rp_Healthy r2 = 3%Z.
Proof.
  destruct (reconcile_idempotent demo_fs demo_tree (TreeFS demo_fs) (TreeFS_behaves demo_fs) demo_cfg (mret ()) demo_clock
    (λ _, mret ()) (λ _, mret ()) 20 ["data"] demo_plain demo_tracker ())
    as (r1 & t1 & [] & r2 & t2 & [] & E1 & _ & E2 & _ & Hev & _ & Hh & _).
  1-4: reflexivity.
  { exact demo_store_ok. }
  { assert (ms_entries (tk_store demo_tracker) = {["/data/gone" := demo_state "/data/gone"]}) as -> by (vm_compute; reflexivity).
    intros p [st [<- _]%lookup_singleton_Some]. split; [reflexivity|discriminate]. }
  exists r1, t1, r2, t2. split; [exact E1|]. split; [exact E2|].
  assert (r1 = (demo_Reconcile (demo_tracker, ())).1.1) as -> by (unfold demo_Reconcile; rewrite E1; reflexivity).
  split; [vm_compute; reflexivity|]. split; [vm_compute; reflexivity|]. split; [exact Hev|].
  rewrite Hh. vm_compute. reflexivity.
Defined.

(** ** A directory that vanishes during the scan *)

(** [/data] holds the directory [a] and the file [z]; another process removes [a]
    right after the scanner has looked at it.  The world says whether it is gone. *)
Definition race_tree (gone : bool) : tree :=
  TDir (demo_info ModeDir 1) [("data", TDir (demo_info ModeDir 2)
    ((if gone then [] else [("a", TDir (demo_info ModeDir 3) [])]) ++ [("z", TFile (demo_info 420 4))]))].

#[local] Instance RaceFS : FileSystem bool (list string) := {|
  os_Lstat p := λ gone, let '(r, _) := tree_Lstat (race_tree gone) p gone in (r, gone || bool_decide (p = "/data/a"));
  os_Stat p := λ gone, tree_Lstat (race_tree gone) p gone;
  os_Open p := λ gone, tree_Open (race_tree gone) p gone;
  h_ReadDir h n := tree_ReadDir h n
|}.

Definition race_config : Config bool MemoryStore :=
  mkConfig "/data" true None ExpectedRegularFiles None None None None IgnoreSymlinks AllowHardlinks 1 0 16 100 10.
Definition race_tracker : Tracker MemoryStore :=
  mkTracker "/data" (run_op NewMemoryStore (OpPut (stateFromEntry (entry_of "/data/z" (demo_info 420 4)))))
    StateSynced false false false "session" None [] [] zero_stats 7 None false ChannelsOpen false.

(** An interrupted scan counts as a complete one.  When a directory vanishes
    between its [Lstat] and its [Open], the scan of the scope stops with
    [ErrNotExist], which [reconcileScopes] takes for a missing scope: the
    reconciliation succeeds, reports [/data/z] deleted and drops it from the
    snapshot, although the file is there throughout and unchanged. *)
Theorem vanished_directory_deletes_siblings :
  let '((r, err), (t', gone)) := Reconcile race_config (mret ()) demo_clock (λ _, mret ()) (λ _, mret ()) 20 None
    (race_tracker, false) in
  err = None ∧ tk_state t' = StateSynced ∧ gone = true ∧
  is_Some (ms_entries (tk_store race_tracker) !! "/data/z") ∧ ms_entries (tk_store t') !! "/data/z" = None ∧
  (λ e, (ev_Kind e, ev_Path e)) <$> rp_Events r = [(EventCreated, "/data/a"); (EventDeleted, "/data/z")] ∧
  (∀ w, (tree_Lstat (W := bool) (race_tree w) "/data/z" w).1 = inl (demo_info 420 4)).
Proof. vm_compute. repeat split; [by eexists|by intros []]. Qed.
