(* ===== verification/ReconcileBolt.v ===== *)
(** * The Bolt fast path: reconcile_bolt.go

    A full reconciliation of a tracker with a [BoltStore] and no sink does not hold
    the two sides in memory: it stages the previous snapshot, the scanned entries
    and the expected state in the buckets of a temporary bbolt index, compares them
    there, and replaces the snapshot by the bucket of scanned entries.

    bbolt is a parameter: [BoltIndex] names the calls made on the index inside a
    transaction, [BoltIndexLaws] states their documented behaviour, and [MapIndex]
    is an instance.  [index_io] are the calls on the file of the index (creating,
    opening, committing), which can fail.  The values of the buckets are documents,
    or raw bytes in the identity and mark buckets. *)

From Stdlib Require Import Ascii.
From S2P Require Import Prelude GoPath DirtySet Types Delivery Store Json BoltStore WatchTree Scanner Tracker Expected Reconcile.

(** ** The index *)

Inductive workBucket : Type :=
  | workPrevious
  | workActual
  | workPreviousID
  | workActualID
  | workExpected
  | workMatched
  | workChanges.

#[global] Instance workBucket_eq_dec : EqDecision workBucket.
Proof. solve_decision. Defined.

Inductive value : Type := Doc (d : json) | Raw (b : string).

Class BoltIndex (Ix : Type) : Type := {
  (** The index with its seven empty buckets. *)
  ix_New : Ix;
  ix_Get : Ix → workBucket → string → option value;
  ix_Put : Ix → workBucket → string → value → Ix + error;
  (** The pairs a cursor returns from [First] on. *)
  ix_Cursor : Ix → workBucket → list (string * value);
  ix_NextSequence : Ix → workBucket → (Z * Ix) + error
}.

Class BoltIndexLaws (Ix : Type) `{BoltIndex Ix} : Type := {
  ix_map : Ix → workBucket → gmap string value;
  ix_seq : Ix → workBucket → Z;
  ix_New_law b : ix_map ix_New b = ∅ ∧ ix_seq ix_New b = 0%Z;
  ix_Get_law ix b k : ix_Get ix b k = ix_map ix b !! k;
  ix_Put_law ix b k v ix' : ix_Put ix b k v = inl ix' →
    (∀ b', ix_map ix' b' = if decide (b' = b) then <[k := v]> (ix_map ix b) else ix_map ix b') ∧
    ∀ b', ix_seq ix' b' = ix_seq ix b';
  (** The errors of [Put] are about keys, values and transactions. *)
  ix_Put_error ix b k v e : ix_Put ix b k v = inr e → errors_Is e ErrNotExist = false;
  ix_Cursor_law ix b :
    ix_Cursor ix b = (λ p, (p, default (Raw "") (ix_map ix b !! p))) <$> sortedKeys (ix_map ix b);
  ix_NextSequence_law ix b n ix' : ix_NextSequence ix b = inl (n, ix') →
    n = (ix_seq ix b + 1)%Z ∧ (∀ b', ix_map ix' b' = ix_map ix b') ∧
    ∀ b', ix_seq ix' b' = if decide (b' = b) then n else ix_seq ix b'
}.

(** Calls on the file of the index. *)
Inductive indexOp : Type := CreateIndexTemp | CloseIndexTemp | OpenIndex | InitIndex | CommitIndex | CloseIndex.

(** ** Documents of expected entries: [json.Marshal] of an [ExpectedEntry] *)

Definition marshal_pointer (n : option Z) : json := match n with None => JNull | Some z => JNumber z end.

Definition marshal_expected (e : ExpectedEntry) : json :=
  JObject [("Path", JText (ee_Path e)); ("Type", marshal_pointer (ee_Type e)); ("Size", marshal_pointer (ee_Size e));
           ("Fingerprint", JBytes (ee_Fingerprint e))].

Definition unmarshal_expected (e : ExpectedEntry) (d : json) : ExpectedEntry + error :=
  match d with
  | JNull => inl e
  | JObject o =>
      let? path := get read_string (ee_Path e) o "Path" in
      let? type := get (read_pointer 0%Z read_uint8) (ee_Type e) o "Type" in
      let? size := get (read_pointer 0%Z read_int64) (ee_Size e) o "Size" in
      let? fingerprint := get read_bytes (ee_Fingerprint e) o "Fingerprint" in
      inl (mkExpectedEntry path type size fingerprint)
  | _ => inr (type_error "ExpectedEntry")
  end.

(** ** Comparing two states *)

Definition sameFileIdentity (before after : FileState) : bool :=
  IsZero (fs_ID before) || IsZero (fs_ID after) || Equal (fs_ID before) (fs_ID after).

Definition fileContentMetadataChanged (before after : FileState) : bool :=
  bool_decide (fs_Type before ≠ fs_Type after) || bool_decide (fs_Size before ≠ fs_Size after) ||
  bool_decide (i64 (fs_ModTime before) ≠ i64 (fs_ModTime after)).

Definition semanticEvent (kind : Z) (path oldPath : string) (before after : option FileState) (now : Z) : Event :=
  mkEvent kind path oldPath before after SourceReconcile now.

(** [binary.BigEndian.PutUint64] into eight bytes. *)
Fixpoint be_bytes (n : nat) (z : Z) : string :=
  match n with
  | 0 => ""
  | S n' => String (ascii_of_N (Z.to_N ((z `div` 256 ^ Z.of_nat n') `mod` 256))) (be_bytes n' z)
  end.
Definition PutUint64 (z : Z) : string := be_bytes 8 z.

(** The bytes of a raw value; the identity buckets hold no documents. *)
Definition raw_bytes (v : option value) : string := match v with Some (Raw b) => b | _ => "" end.

Definition decodeState (v : value) : FileState + error :=
  match v with Doc d => decodeFileState d | Raw _ => inr (type_error "storedFileState") end.

(** The locals that the transactions update. *)
Record boltLocals : Type := mkBoltLocals {
  bl_report : ReconcileReport;
  bl_observed : gset string
}.
Definition bl_with_report (f : ReconcileReport → ReconcileReport) (l : boltLocals) : boltLocals :=
  mkBoltLocals (f (bl_report l)) (bl_observed l).
Definition bl_with_observed (f : gset string → gset string) (l : boltLocals) : boltLocals :=
  mkBoltLocals (bl_report l) (f (bl_observed l)).
Definition inc_rp_Healthy (r : ReconcileReport) : ReconcileReport := set_rp_Healthy (u64 (rp_Healthy r + 1)) r.

Section bolt.
Context {W H DB Bk Ix : Type} `{FileSystem W H} `{BoltDB DB Bk} `{BoltIndex Ix}.
Context (config : Config W (BoltStore DB)) (ctx : M W ()) (clock : W → Z * W).
Context (backend_Add backend_Remove : string → M W ()) (fuel : nat) (index_io : indexOp → M W ()).

Abbreviation TW := (Tracker (BoltStore DB) * W)%type.
Abbreviation BW := (boltLocals * (Ix * TW))%type.

Definition onTW {A} (m : M TW A) : M BW A := onSnd (onSnd m).
Definition onWorld {A} (m : M W A) : M BW A := onSnd (onSnd (onSnd m)).

(** *** Transactions *)

(** [index.Update]: the body and the commit; an error rolls the index back. *)
Definition index_Update (body : M BW ()) : M BW () := λ '(l, (ix, tw)),
  match body (l, (ix, tw)) with
  | (inr e, (l', (_, tw'))) => (inr e, (l', (ix, tw')))
  | (inl _, (l', (ix', (t', w')))) =>
      match index_io CommitIndex w' with
      | (inr e, w'') => (inr e, (l', (ix, (t', w''))))
      | (inl _, w'') => (inl (), (l', (ix', (t', w''))))
      end
  end.

Definition bucket_Get (b : workBucket) (key : string) : M BW (option value) := gets (λ s, ix_Get s.2.1 b key).

Definition bucket_Put (b : workBucket) (key : string) (v : value) : M BW () := λ '(l, (ix, tw)),
  match ix_Put ix b key v with
  | inl ix' => (inl (), (l, (ix', tw)))
  | inr e => (inr e, (l, (ix, tw)))
  end.

Definition bucket_NextSequence (b : workBucket) : M BW Z := λ '(l, (ix, tw)),
  match ix_NextSequence ix b with
  | inl (n, ix') => (inl n, (l, (ix', tw)))
  | inr e => (inr e, (l, (ix, tw)))
  end.

Definition indexIdentity (b : workBucket) (identity path : string) : M BW () :=
  if decide (identity = "") then mret ()
  else
    v ← bucket_Get b identity;
    match v with
    | None => bucket_Put b identity (Raw path)
    | Some _ => if decide (raw_bytes v ≠ path) then bucket_Put b identity (Raw "") else mret ()
    end.

Definition stageReportEvent (event : Event) : M BW () :=
  updFst (bl_with_report (λ r, recordEvent (cf_ReportEventLimit config) r event)) ;;
  sequence ← bucket_NextSequence workChanges;
  doc ← lift (encodeStagedEvent event);
  bucket_Put workChanges (PutUint64 sequence) (Doc doc).

Definition stageSemantic (kind : Z) (path oldPath : string) (before after : option FileState) : M BW () :=
  z ← onTW (time_Now clock);
  stageReportEvent (semanticEvent kind path oldPath before after z).

(** A state and its identity in their buckets. *)
Definition stageState (states identities : workBucket) (state : FileState) : M BW () :=
  doc ← lift (encodeFileState state);
  bucket_Put states (fs_Path state) (Doc doc) ;;
  indexIdentity identities (id_value (fs_ID state)) (fs_Path state).

(** *** Staging *)

Definition stagePrevious : M BW () :=
  t ← gets (λ s, s.2.2.1);
  bolt_Walk (tk_store t) (onWorld ctx) (tk_root t) (stageState workPrevious workPreviousID).

(** The callback of the scan. *)
Definition stageEntry (entry : Entry) : M BW () :=
  let state := stateFromEntry entry in
  (if bool_decide (fs_Type state = FileTypeDirectory) && cf_Recursive config then
     onTW (watchAdd backend_Add (fs_Path state)) ;;
     updFst (bl_with_observed (union {[fs_Path state]}))
   else mret ()) ;;
  (if bool_decide (fs_Type state = FileTypeRegular) && bool_decide (1 < en_Links entry)%Z then
     if decide (cf_HardlinkPolicy config = RejectHardlinks) then
       throw (Wrapf (fs_Path state) (Sentinel ErrHardlink))
     else if decide (cf_HardlinkPolicy config = ReportHardlinks) then
       stageSemantic EventInvalid (fs_Path state) "" None (Some state)
     else mret ()
   else mret ()) ;;
  stageState workActual workActualID state ;;
  updFst (bl_with_report inc_rp_Scanned).

Definition stageActual : M BW () :=
  t ← gets (λ s, s.2.2.1);
  r ← try (Scan (theScanner config) (onWorld ctx) stageEntry fuel (tk_root t));
  match r with
  | inl (Some _) => mret ()
  | inl None => throw (Sentinel OutOfFuel)
  | inr err => if errors_Is err ErrNotExist then mret () else throw err
  end.

(** One streamed entry of the expected state. *)
Definition stageExpectedEntry (rootExpectedAllowed : bool) (entry : ExpectedEntry) : M BW () :=
  t ← gets (λ s, s.2.2.1);
  path ← lift (expectedPath (tk_root t) (ee_Path entry));
  if bool_decide (path = tk_root t) && bool_decide (ee_Type entry = None) && negb rootExpectedAllowed then mret ()
  else if expectedFiltered config path entry then mret ()
  else bucket_Put workExpected path
         (Doc (marshal_expected (mkExpectedEntry path (entryType config entry) (ee_Size entry) (ee_Fingerprint entry)))).

Definition stageExpected (provider : ExpectedProvider W) (rootExpectedAllowed : bool) : M BW () :=
  t ← gets (λ s, s.2.2.1);
  '(entries, err) ← onWorld (ep_WalkExpected provider (tk_root t));
  forM entries (stageExpectedEntry rootExpectedAllowed) ;;
  match err with Some e => throw e | None => mret () end.

(** *** Comparing the buckets *)

(** The first loop: an entry of the actual bucket. *)
Definition compareCommon (path : string) (before after : FileState) : M BW () :=
  bucket_Put workMatched path (Raw (String "001" "")) ;;
  if negb (sameFileIdentity before after) then
    stageSemantic EventReplaced (fs_Path after) "" (Some before) (Some after)
  else if fileContentMetadataChanged before after then
    stageSemantic EventModified (fs_Path after) "" (Some before) (Some after)
  else if decide (fs_Mode before ≠ fs_Mode after) then
    stageSemantic EventAttributeChanged (fs_Path after) "" (Some before) (Some after)
  else mret ().

Definition compareAdded (after : FileState) : M BW () :=
  let created := stageSemantic EventCreated (fs_Path after) "" None (Some after) in
  oldPath ← bucket_Get workPreviousID (id_value (fs_ID after));
  uniqueActual ← bucket_Get workActualID (id_value (fs_ID after));
  marked ← bucket_Get workMatched (raw_bytes oldPath);
  if negb (IsZero (fs_ID after)) && bool_decide (raw_bytes oldPath ≠ "") &&
     bool_decide (raw_bytes uniqueActual = fs_Path after) && bool_decide (marked = None) then
    beforeValue ← bucket_Get workPrevious (raw_bytes oldPath);
    match beforeValue with
    | Some v =>
        before ← lift (decodeState v);
        bucket_Put workMatched (raw_bytes oldPath) (Raw (String "001" "")) ;;
        stageSemantic EventMoved (fs_Path after) (fs_Path before) (Some before) (Some after)
    | None => created
    end
  else created.

Definition compareActual (kv : string * value) : M BW () :=
  onWorld ctx ;;
  after ← lift (decodeState kv.2);
  beforeValue ← bucket_Get workPrevious kv.1;
  match beforeValue with
  | Some v => before ← lift (decodeState v); compareCommon kv.1 before after
  | None => compareAdded after
  end.

(** The second loop: an entry of the previous bucket. *)
Definition compareDeleted (kv : string * value) : M BW () :=
  onWorld ctx ;;
  marked ← bucket_Get workMatched kv.1;
  match marked with
  | Some _ => mret ()
  | None =>
      before ← lift (decodeState kv.2);
      stageSemantic EventDeleted (fs_Path before) "" (Some before) None
  end.

(** The third and fourth loops: the expected state. *)
Definition differs (constraint : option Z) (actual : Z) : bool :=
  match constraint with Some z => bool_decide (actual ≠ z) | None => false end.

Definition decodeExpected (v : value) : ExpectedEntry + error :=
  match v with Doc d => unmarshal_expected (mkExpectedEntry "" None None []) d | Raw _ => inr (type_error "ExpectedEntry") end.

Definition compareExpected (kv : string * value) : M BW () :=
  entry ← lift (decodeExpected kv.2);
  actualValue ← bucket_Get workActual kv.1;
  match actualValue with
  | None => stageSemantic EventMissing (ee_Path entry) "" None None
  | Some v =>
      state ← lift (decodeState v);
      if differs (ee_Type entry) (fs_Type state) || differs (ee_Size entry) (fs_Size state) then
        stageSemantic EventInvalid (fs_Path state) "" None (Some state)
      else updFst (bl_with_report inc_rp_Healthy)
  end.

Definition compareOrphan (kv : string * value) : M BW () :=
  expected ← bucket_Get workExpected kv.1;
  match expected with
  | Some _ => mret ()
  | None =>
      state ← lift (decodeState kv.2);
      if bool_decide (cf_ExpectedScope config = ExpectedRegularFiles) && bool_decide (fs_Type state ≠ FileTypeRegular)
      then mret ()
      else stageSemantic EventOrphan (fs_Path state) "" None (Some state)
  end.

Definition overBucket (b : workBucket) (body : string * value → M BW ()) : M BW () :=
  pairs ← gets (λ s, ix_Cursor s.2.1 b); forM pairs body.

Definition compareBuckets : M BW () :=
  overBucket workActual compareActual ;;
  overBucket workPrevious compareDeleted ;;
  match cf_Expected config with
  | None => mret ()
  | Some _ => overBucket workExpected compareExpected ;; overBucket workActual compareOrphan
  end.

(** *** Delivery and commit *)

(** [index.View]: the staged events are decoded and handed to the batcher. *)
Definition deliverChange (kv : string * value) : M (changeBatcher * W) () :=
  event ← lift (match kv.2 with Doc d => decodeStagedEvent d | Raw _ => inr (type_error "stagedEvent") end);
  batcher_Add (cf_ChangeSink config) event.

Definition deliverChanges : M BW () := λ '(l, (ix, (t, w))),
  let '(r, (_, w')) :=
    (forM (ix_Cursor ix workChanges) deliverChange ;; Finish (cf_ChangeSink config))
      (newChangeBatcher (tk_sessionID t) (rp_Generation (bl_report l)) (cf_ChangeBatchSize config), w) in
  (r, (l, (ix, (t, w')))).

(** The documents of a bucket, as [replaceSnapshot] copies them. *)
Definition documents (pairs : list (string * value)) : list (string * json) :=
  omap (λ kv, match kv.2 with Doc d => Some (kv.1, d) | Raw _ => None end) pairs.

Definition replaceFromIndex : M BW () :=
  source ← gets (λ s, documents (ix_Cursor s.2.1 workActual));
  onTW (onStore (mutating (λ s, replaceSnapshot s ctx source))).

(** The end of a successful run. *)
Definition finishBolt : M BW () :=
  z ← onTW (time_Now clock);
  updFst (bl_with_report (λ r, set_rp_Duration (z - rp_StartedAt r) r)) ;;
  l ← gets fst;
  onTW (updFst (λ t, set_stats t (addReportStats (tk_stats t) (bl_report l)))) ;;
  onTW (updFst (λ t, setConsistentState (set_generation t (rp_Generation (bl_report l))))) ;;
  onTW (publish config (rp_Events (bl_report l))).

(** From the first transaction to the delivery, and the commit. *)
Definition boltPrepare : M BW () :=
  wrapping "fsrecon: stage previous snapshot" (index_Update stagePrevious) ;;
  wrapping "fsrecon: stage actual filesystem" (index_Update stageActual) ;;
  t ← gets (λ s, s.2.2.1);
  (if cf_Recursive config then
     l ← gets fst;
     wrapping "fsrecon: sync recursive watches" (onTW (watchSync backend_Remove [tk_root t] (bl_observed l)))
   else mret ()) ;;
  match cf_Expected config with
  | None => mret ()
  | Some provider =>
      allowed ← wrapping "fsrecon: inspect expected root" (onTW (expectedRootCanBeExpected ctx));
      wrapping "fsrecon: stage expected state" (index_Update (stageExpected provider allowed))
  end ;;
  wrapping "fsrecon: diff persistent snapshot" (index_Update compareBuckets) ;;
  match cf_Expected config with
  | None => updFst (bl_with_report (λ r,
      set_rp_Healthy (u64 (rp_Scanned r - rp_Created r - rp_Modified r - rp_Replaced r)) r))
  | Some _ => mret ()
  end ;;
  deliverChanges.

Definition boltBody : M BW () :=
  boltPrepare ;;
  wrapping "fsrecon: replace persistent snapshot" replaceFromIndex ;;
  finishBolt.

(** The [fail] closure. *)
Definition failBolt (report : ReconcileReport) (err : error) : TW → (ReconcileReport * option error) * TW := λ '(t, w),
  let '(z, w') := clock w in
  ((set_rp_Duration (z - rp_StartedAt report) report, Some err), (markDirty t, w')).

(** The deferred [index.Close] and [os.Remove]. *)
Definition closeIndex {A} : A * TW → A * TW := λ '(a, (t, w)), (a, (t, (index_io CloseIndex w).2)).

(** Creating and opening the file of the index. *)
Definition openIndex : M W () :=
  wrapping "fsrecon: create reconcile index" (index_io CreateIndexTemp) ;;
  wrapping "fsrecon: close reconcile index file" (index_io CloseIndexTemp) ;;
  wrapping "fsrecon: open reconcile index" (index_io OpenIndex).

Definition reconcileBoltLocked (report : ReconcileReport) : TW → (ReconcileReport * option error) * TW := λ '(t, w),
  match openIndex w with
  | (inr err, w) => failBolt report err (t, w)
  | (inl _, w) =>
      match wrapping "fsrecon: initialize reconcile index" (index_io InitIndex) w with
      | (inr err, w) => closeIndex (failBolt report err (t, w))
      | (inl _, w) =>
          match boltBody (mkBoltLocals report {[tk_root t]}, (ix_New, (t, w))) with
          | (inr err, (l, (_, tw))) => closeIndex (failBolt (bl_report l) err tw)
          | (inl _, (l, (_, tw))) => closeIndex ((bl_report l, None), tw)
          end
      end
  end.
End bolt.

(** ** An instance of the index *)

Definition MapIndex : Type := workBucket → gmap string value * Z.

Definition upd_bucket (ix : MapIndex) (b : workBucket) (x : gmap string value * Z) : MapIndex :=
  λ b', if decide (b' = b) then x else ix b'.

#[global] Instance MapIndex_index : BoltIndex MapIndex := {
  ix_New _ := (∅, 0%Z);
  ix_Get ix b k := (ix b).1 !! k;
  ix_Put ix b k v := if decide (k = "") then inr (errors_New "key required")
                     else inl (upd_bucket ix b (<[k := v]> (ix b).1, (ix b).2));
  ix_Cursor ix b := (λ p, (p, default (Raw "") ((ix b).1 !! p))) <$> sortedKeys (ix b).1;
  ix_NextSequence ix b := let n := ((ix b).2 + 1)%Z in inl (n, upd_bucket ix b ((ix b).1, n))
}.

#[global] Instance MapIndex_laws : BoltIndexLaws MapIndex.
Proof.
  refine {| ix_map := λ (ix : MapIndex) b, (ix b).1; ix_seq := λ (ix : MapIndex) b, (ix b).2 |}.
  - done.
  - done.
  - intros ix b k v ix'. simpl. case_decide; [done|]. intros [= <-]. unfold upd_bucket.
    split; intros b'; case_decide; by subst.
  - intros ix b k v e. simpl. case_decide; [|done]. by intros [= <-].
  - done.
  - intros ix b n ix' [= <- <-]. unfold upd_bucket.
    split; [done|]. split; intros b'; case_decide; by subst.
Defined.
