(* ===== verification/ReconcileBoltSpec.v ===== *)
(** * What the Bolt fast path does

    The buckets of the index hold the two sides of the comparison; the comparison
    finds the changes of the diff engine when identities are distinct; a successful
    run replaces the snapshot by the scanned entries, and a failed one changes
    nothing. *)

From S2P Require Import Prelude Frame GoPath DirtySet Types Diff DiffSpec Delivery Store MemoryStore Json BoltStore.
From S2P Require Import WatchTree Scanner Tracker Expected Reconcile ReconcileSpec ReconcileTree ReconcileBolt.

(** ** What the index holds *)

Section staged.
Context {Ix : Type} `{BoltIndexLaws Ix}.

(** A bucket holds the documents of a view. *)
Definition staged_states (ix : Ix) (b : workBucket) (v : view) : Prop :=
  ∀ p, match v !! p with
       | Some st => ∃ d, encodeFileState st = inl d ∧ ix_map ix b !! p = Some (Doc d)
       | None => ix_map ix b !! p = None
       end.

Definition has_id (v : view) (p id : string) : Prop := ∃ st, v !! p = Some st ∧ id_value (fs_ID st) = id.

(** A bucket maps every identity of a view to its only path, or to the empty bytes
    when there are two. *)
Definition staged_ids (ix : Ix) (b : workBucket) (v : view) : Prop :=
  ∀ id, id ≠ "" →
    match ix_map ix b !! id with
    | None => ∀ p, ¬ has_id v p id
    | Some (Raw q) =>
        (has_id v q id ∧ ∀ p, has_id v p id → p = q) ∨
        (q = "" ∧ ∃ p1 p2, p1 ≠ p2 ∧ has_id v p1 id ∧ has_id v p2 id)
    | Some (Doc _) => False
    end.

Definition staged (ix : Ix) (bS bI : workBucket) (v : view) : Prop :=
  staged_states ix bS v ∧ staged_ids ix bI v.

(** Two indexes that agree on a bucket. *)
Lemma staged_ext ix ix' bS bI v :
  ix_map ix' bS = ix_map ix bS → ix_map ix' bI = ix_map ix bI → staged ix bS bI v → staged ix' bS bI v.
Proof. unfold staged, staged_states, staged_ids. intros -> ->. done. Qed.

Lemma staged_New bS bI : staged ix_New bS bI ∅.
Proof.
  split.
  - intros p. rewrite lookup_empty. destruct (ix_New_law bS) as [-> _]. apply lookup_empty.
  - intros id _. destruct (ix_New_law bI) as [-> _]. rewrite lookup_empty. intros p (st & Hp & _).
    by rewrite lookup_empty in Hp.
Qed.

Lemma has_id_insert v p st q id :
  v !! p = None → has_id (<[p := st]> v) q id ↔ (q = p ∧ id_value (fs_ID st) = id) ∨ has_id v q id.
Proof.
  intros Hp. unfold has_id. setoid_rewrite lookup_insert_Some. split.
  - intros (st' & [[-> ->]|[Hne Hq]] & Hid); [by left|right; eauto].
  - intros [[-> Hid]|(st' & Hq & Hid)]; [by exists st; auto|]. exists st'. split; [|done]. right. split; [|done].
    intros ->. congruence.
Qed.

Lemma ids_after ix ix' b v p st :
  let id := id_value (fs_ID st) in
  staged_ids ix b v → v !! p = None → p ≠ "" →
  (id = "" → ix_map ix' b = ix_map ix b) →
  (id ≠ "" → ix_map ix' b = match ix_map ix b !! id with
     | None => <[id := Raw p]> (ix_map ix b)
     | Some x => if decide (raw_bytes (Some x) ≠ p) then <[id := Raw ""]> (ix_map ix b) else ix_map ix b
     end) →
  staged_ids ix' b (<[p := st]> v).
Proof.
  intros id Hs Hp Hne Hzero Hsome i Hi. specialize (Hs i Hi) as Hsi.
  assert (∀ q, has_id v q i → q ≠ p) as Hnp by (intros q (? & ? & _) ->; congruence).
  destruct (decide (id = i)) as [E|E].
  - subst i. rewrite Hsome by done. destruct (ix_map ix b !! id) as [[d|q]|] eqn:El; [done| |].
    + assert (q ≠ p) as Hqp by (destruct Hsi as [[Hq _]|[-> _]]; [by apply Hnp|done]).
      rewrite decide_True by done. rewrite lookup_insert_eq. right. split; [done|].
      destruct Hsi as [[Hq _]|[_ (p1 & p2 & Hd & Hp1 & Hp2)]].
      * exists q, p. split; [done|]. rewrite !has_id_insert by done. auto.
      * exists p1, p2. split; [done|]. rewrite !has_id_insert by done. auto.
    + rewrite lookup_insert_eq. left. split; [rewrite has_id_insert by done; auto|].
      intros q. rewrite has_id_insert by done. intros [[-> _]|Hq]; [done|]. by apply Hsi in Hq.
  - assert (ix_map ix' b !! i = ix_map ix b !! i) as ->.
    { destruct (decide (id = "")) as [E0|E0]; [by rewrite Hzero|]. rewrite Hsome by done.
      destruct (ix_map ix b !! id); [case_decide|]; by rewrite ?lookup_insert_ne. }
    destruct (ix_map ix b !! i) as [[d|q]|]; [done| |].
    + destruct Hsi as [[Hq Hu]|[-> (p1 & p2 & Hd & Hp1 & Hp2)]]; [left|right].
      * split; [rewrite has_id_insert by done; auto|]. intros p'. rewrite has_id_insert by done.
        intros [[_ ?]|?]; [done|by apply Hu].
      * split; [done|]. exists p1, p2. split; [done|]. rewrite !has_id_insert by done. auto.
    + intros p'. rewrite has_id_insert by done. intros [[_ ?]|Hq]; [done|by apply Hsi in Hq].
Qed.
End staged.

(** ** The changes path by path *)

Section by_path.
Context (previous actual : states).

Abbreviation old_index := (indexUniqueIDs (previous ∖ actual)).
Abbreviation new_index := (indexUniqueIDs (actual ∖ previous)).

(** The change of the diff engine at a scanned path, and at a vanished one. *)
Definition change_at (p : string) : list Change :=
  match actual !! p, previous !! p with
  | None, _ => []
  | Some a, Some b =>
      if negb (sameIdentity b a) then [change Replaced p "" (Some b) (Some a)]
      else if contentChanged b a then [change Modified p "" (Some b) (Some a)]
      else if decide (st_Mode b ≠ st_Mode a) then [change AttributeChanged p "" (Some b) (Some a)]
      else []
  | Some a, None =>
      match old_index !! st_ID a with
      | Some old =>
          if decide (new_index !! st_ID a = Some p) then [change Moved p old (previous !! old) (Some a)]
          else [change Created p "" None (Some a)]
      | None => [change Created p "" None (Some a)]
      end
  end.

Definition deletion_at (p : string) : list Change :=
  match previous !! p, actual !! p with
  | Some b, None =>
      if decide (old_index !! st_ID b = Some p ∧ is_Some (new_index !! st_ID b)) then []
      else [change Deleted p "" (Some b) None]
  | _, _ => []
  end.

Definition by_path : list Change := (sortedKeys actual ≫= change_at) ++ (sortedKeys previous ≫= deletion_at).

Lemma added_lookup p a : actual !! p = Some a → previous !! p = None → (actual ∖ previous) !! p = Some a.
Proof. intros. by apply lookup_difference_Some. Qed.
Lemma removed_lookup p b : previous !! p = Some b → actual !! p = None → (previous ∖ actual) !! p = Some b.
Proof. intros. by apply lookup_difference_Some. Qed.

Lemma move_spec_index id old new :
  move_spec previous actual id old new ↔ old_index !! id = Some old ∧ new_index !! id = Some new.
Proof. unfold move_spec. by rewrite !indexUniqueIDs_spec. Qed.

(** The identity of a moved path is that of its state. *)
Lemma move_spec_ids id old new :
  move_spec previous actual id old new →
  (∃ b, previous !! old = Some b ∧ actual !! old = None ∧ st_ID b = id) ∧
  ∃ a, actual !! new = Some a ∧ previous !! new = None ∧ st_ID a = id.
Proof.
  intros [(_ & Ho & _) (_ & Hn & _)]. apply fmap_Some in Ho as (b & [Hb ?]%lookup_difference_Some & Hi).
  apply fmap_Some in Hn as (a & [Ha ?]%lookup_difference_Some & Hi'). split; [exists b|exists a]; auto.
Qed.

Lemma elem_of_change_at eligible p c :
  c ∈ change_at p ↔ ch_Path c = p ∧ ch_Kind c ≠ Deleted ∧ change_spec previous actual None eligible c.
Proof.
  unfold change_at. split.
  - destruct (actual !! p) as [a|] eqn:Ea; [|by rewrite elem_of_nil]. destruct (previous !! p) as [b|] eqn:Eb.
    + destruct (sameIdentity b a) eqn:Es; cbn [negb].
      2: { rewrite list_elem_of_singleton. intros ->. split_and!; [done|done|by constructor]. }
      destruct (contentChanged b a) eqn:Ec.
      { rewrite list_elem_of_singleton. intros ->. split_and!; [done|done|by constructor]. }
      case_decide; [|by rewrite elem_of_nil].
      rewrite list_elem_of_singleton. intros ->. split_and!; [done|done|by constructor].
    + assert ((∀ id old, ¬ move_spec previous actual id old p) →
        c ∈ [change Created p "" None (Some a)] →
        ch_Path c = p ∧ ch_Kind c ≠ Deleted ∧ change_spec previous actual None eligible c) as Hcr.
      { intros Hno ->%list_elem_of_singleton. split_and!; [done|done|by constructor]. }
      assert (∀ id old, move_spec previous actual id old p → id = st_ID a) as Hid.
      { intros id old (_ & (a' & Ha' & _ & <-))%move_spec_ids. congruence. }
      destruct (old_index !! st_ID a) as [old|] eqn:Eo.
      * case_decide as Hn.
        -- rewrite list_elem_of_singleton. intros ->. split_and!; [done|done|].
           assert (move_spec previous actual (st_ID a) old p) as Hm by by apply move_spec_index.
           destruct (move_spec_ids _ _ _ Hm) as ((b & Hb & _) & _). rewrite Hb. by econstructor.
        -- apply Hcr. intros id old' Hm. pose proof (Hid _ _ Hm) as ->. by apply move_spec_index in Hm as [_ ?].
      * apply Hcr. intros id old' Hm. pose proof (Hid _ _ Hm) as ->. apply move_spec_index in Hm as [? _]. congruence.
  - intros (<- & Hk & Hc).
    destruct Hc as [p b a Hb Ha Hs|p b a Hb Ha Hs Hc|p b a Hb Ha Hs Hc Hm|id old new b a Hm Hb Ha|p a Ha Hb Hno|?|? ? ? [=]|? ? ? ? [=]|? ? ? [=]];
      cbn [ch_Path] in *; try rewrite Ha; try rewrite Hb.
    + rewrite Hs. cbn. by left.
    + rewrite Hs, Hc. cbn. by left.
    + rewrite Hs, Hc, decide_True by done. cbn. by left.
    + destruct (move_spec_ids _ _ _ Hm) as [_ (a' & Ha' & Hp & Hid)]. rewrite Ha in Ha'. injection Ha' as <-.
      apply move_spec_index in Hm as [H1 H2]. rewrite Hp, Hid, H1, decide_True, Hb by done. by left.
    + destruct (old_index !! st_ID a) as [old|] eqn:Eo; [|by left]. case_decide as Hn; [|by left].
      exfalso. eapply Hno, move_spec_index. eauto.
    + done.
Qed.

Lemma elem_of_deletion_at eligible p c :
  c ∈ deletion_at p ↔ ch_Path c = p ∧ ch_Kind c = Deleted ∧ change_spec previous actual None eligible c.
Proof.
  unfold deletion_at. split.
  - destruct (previous !! p) as [b|] eqn:Eb; [|by rewrite elem_of_nil].
    destruct (actual !! p) as [a|] eqn:Ea; [by rewrite elem_of_nil|]. case_decide as Hd; [by rewrite elem_of_nil|].
    rewrite list_elem_of_singleton. intros ->. split_and!; [done|done|]. constructor; [done|done|].
    intros id new Hm. apply Hd. destruct (move_spec_ids _ _ _ Hm) as [(b' & Hb' & _ & Hid) _].
    rewrite Eb in Hb'. injection Hb' as <-. subst id. apply move_spec_index in Hm as [? ?]. eauto.
  - intros (<- & Hk & Hc).
    destruct Hc as [| | | | |p b Hb Ha Hno|? ? ? [=]|? ? ? ? [=]|? ? ? [=]]; try done. cbn [ch_Path] in *.
    rewrite Hb, Ha. case_decide as Hd; [|by left]. destruct Hd as [Ho [new Hn]]. exfalso.
    eapply Hno, move_spec_index. eauto.
Qed.

Lemma change_spec_path eligible c :
  change_spec previous actual None eligible c →
  if decide (ch_Kind c = Deleted) then is_Some (previous !! ch_Path c) else is_Some (actual !! ch_Path c).
Proof.
  intros Hc. destruct Hc as [| | |id old new b a Hm Hb Ha| | |? ? ? [=]|? ? ? ? [=]|? ? ? [=]];
    case_decide; simplify_eq/=; eauto.
Qed.

Lemma change_at_single p : change_at p = [] ∨ ∃ c, change_at p = [c].
Proof. unfold change_at. repeat (case_match || case_decide); eauto. Qed.
Lemma deletion_at_single p : deletion_at p = [] ∨ ∃ c, deletion_at p = [c].
Proof. unfold deletion_at. repeat (case_match || case_decide); eauto. Qed.

(** Grouping by path is a permutation of the stream of the diff engine. *)
Lemma by_path_perm eligible : by_path ≡ₚ diff_changes previous actual None eligible.
Proof.
  apply NoDup_Permutation.
  - unfold by_path. apply NoDup_app. split_and!.
    + apply NoDup_bind; [|intros p _|apply NoDup_sortedKeys].
      * intros p q c _ _ (<- & _)%(elem_of_change_at eligible) (<- & _)%(elem_of_change_at eligible). done.
      * destruct (change_at_single p) as [->|[c ->]]; [constructor|apply NoDup_singleton].
    + intros c (p & Hp & _)%list_elem_of_bind (q & Hq & _)%list_elem_of_bind.
      apply (elem_of_change_at eligible) in Hp. apply (elem_of_deletion_at eligible) in Hq. naive_solver.
    + apply NoDup_bind; [|intros p _|apply NoDup_sortedKeys].
      * intros p q c _ _ (<- & _)%(elem_of_deletion_at eligible) (<- & _)%(elem_of_deletion_at eligible). done.
      * destruct (deletion_at_single p) as [->|[c ->]]; [constructor|apply NoDup_singleton].
  - apply NoDup_diff_changes.
  - intros c. rewrite elem_of_diff_changes. unfold by_path. rewrite elem_of_app, !list_elem_of_bind. split.
    + intros [(p & Hp & _)|(p & Hp & _)].
      * by apply (elem_of_change_at eligible) in Hp as (_ & _ & ?).
      * by apply (elem_of_deletion_at eligible) in Hp as (_ & _ & ?).
    + intros Hc. pose proof (change_spec_path _ _ Hc) as Hp.
      destruct (decide (ch_Kind c = Deleted)); [right|left]; exists (ch_Path c);
        (split; [|by apply elem_of_sortedKeys]); [by apply (elem_of_deletion_at eligible)|by apply (elem_of_change_at eligible)].
Qed.
End by_path.

(** ** The operations on the index *)

Section operations.
Context {W DB Ix : Type} `{BoltIndexLaws Ix}.
Context (config : Config W (BoltStore DB)) (clock : W → Z * W).

Abbreviation TW := (Tracker (BoltStore DB) * W)%type.
Abbreviation BW := (boltLocals * (Ix * TW))%type.
Abbreviation limit := (cf_ReportEventLimit config).

(** The maps of all buckets but some. *)
Definition same_buckets (except : list workBucket) (ix ix' : Ix) : Prop :=
  ∀ b, b ∉ except → ix_map ix' b = ix_map ix b.

Lemma staged_same except ix ix' bS bI v :
  same_buckets except ix ix' → bS ∉ except → bI ∉ except → staged ix bS bI v → staged ix' bS bI v.
Proof. intros Hs HS HI. apply staged_ext; by apply Hs. Qed.

Lemma bucket_Put_inv b k v (s s' : BW) u :
  bucket_Put b k v s = (inl u, s') →
  s'.1 = s.1 ∧ s'.2.2 = s.2.2 ∧ ix_map s'.2.1 b = <[k := v]> (ix_map s.2.1 b) ∧ same_buckets [b] s.2.1 s'.2.1.
Proof.
  destruct s as [l [ix tw]]. unfold bucket_Put. destruct (ix_Put ix b k v) as [ix'|e] eqn:E; [|done].
  intros Heq. injection Heq as _ <-. cbn [fst snd]. apply ix_Put_law in E as [Hm _].
  split; [done|]. split; [done|]. split; [rewrite Hm; by rewrite decide_True|].
  intros b' Hb'. rewrite Hm, decide_False; [done|]. set_solver.
Qed.

Lemma indexIdentity_inv b st (s s' : BW) u v :
  indexIdentity b (id_value (fs_ID st)) (fs_Path st) s = (inl u, s') →
  staged_ids s.2.1 b v → v !! fs_Path st = None → fs_Path st ≠ "" →
  s'.1 = s.1 ∧ s'.2.2 = s.2.2 ∧ staged_ids s'.2.1 b (<[fs_Path st := st]> v) ∧ same_buckets [b] s.2.1 s'.2.1.
Proof.
  intros E Hs Hp Hne. unfold indexIdentity in E. case_decide as Hid.
  { injection E as _ <-. split_and!; try done. by eapply ids_after. }
  rewrite bind_run in E. cbn [bucket_Get gets] in E. rewrite ix_Get_law in E.
  pose proof (ids_after s.2.1 s'.2.1 b v (fs_Path st) st Hs Hp Hne) as Hafter. cbv zeta in Hafter.
  destruct (ix_map s.2.1 b !! id_value (fs_ID st)) as [x|] eqn:El.
  - case_decide as Hr; [|by injection E as _ <-; split_and!; try done; apply Hafter].
    apply bucket_Put_inv in E as (-> & -> & Hm & Hsame). split_and!; try done. apply Hafter; [done|]. by intros _.
  - apply bucket_Put_inv in E as (-> & -> & Hm & Hsame). split_and!; try done. apply Hafter; [done|]. by intros _.
Qed.

Lemma stageState_inv bS bI st (s s' : BW) u v :
  stageState bS bI st s = (inl u, s') → bS ≠ bI →
  staged s.2.1 bS bI v → v !! fs_Path st = None → fs_Path st ≠ "" →
  s'.1 = s.1 ∧ s'.2.2 = s.2.2 ∧ staged s'.2.1 bS bI (<[fs_Path st := st]> v) ∧ same_buckets [bS; bI] s.2.1 s'.2.1.
Proof.
  intros E Hb [Hs Hi] Hp Hne. unfold stageState in E.
  apply bind_inv in E as (d & s1 & [Hd ->]%lift_inv & E). apply bind_inv in E as ([] & s2 & E1 & E2).
  apply bucket_Put_inv in E1 as (K1 & K2 & Hm & Hsame1).
  apply (indexIdentity_inv _ _ _ _ _ v) in E2 as (K3 & K4 & Hi' & Hsame2); [|intros id Hid|done|done].
  2: { rewrite (Hsame1 bI) by set_solver. by apply Hi. }
  split; [congruence|]. split; [congruence|]. split; [split; [|done]|].
  - intros p. rewrite (Hsame2 bS) by set_solver. rewrite Hm.
    destruct (decide (fs_Path st = p)) as [<-|Hnp]; [rewrite !lookup_insert_eq; eauto|].
    rewrite !lookup_insert_ne by done. apply Hs.
  - intros b Hin. rewrite Hsame2, Hsame1; [done|set_solver..].
Qed.

Lemma forM_stageState_inv bS bI sts (s s' : BW) u v :
  forM sts (stageState bS bI) s = (inl u, s') → bS ≠ bI →
  NoDup (fs_Path <$> sts) → Forall (λ st, v !! fs_Path st = None ∧ fs_Path st ≠ "") sts →
  staged s.2.1 bS bI v →
  s'.1 = s.1 ∧ s'.2.2 = s.2.2 ∧ staged s'.2.1 bS bI (foldl (λ a st, <[fs_Path st := st]> a) v sts) ∧
  same_buckets [bS; bI] s.2.1 s'.2.1.
Proof.
  intros E Hb. revert s v E. induction sts as [|st sts IH]; intros s v E Hnd Hf Hst.
  { injection E as _ <-. done. }
  cbn [forM] in E. apply bind_inv in E as ([] & s1 & E1 & E2).
  apply NoDup_cons in Hnd as [Hnin Hnd]. apply Forall_cons in Hf as [[Hf1 Hf2] Hf].
  apply (stageState_inv _ _ _ _ _ _ v) in E1 as (K1 & K2 & Hst1 & Hsame1); [|done..].
  destruct (IH s1 (<[fs_Path st := st]> v) E2 Hnd) as (K3 & K4 & Hst2 & Hsame2); [|done|].
  { apply Forall_forall. intros st' Hin. rewrite Forall_forall in Hf. destruct (Hf _ Hin) as [? ?]. split; [|done].
    rewrite lookup_insert_ne; [done|]. intros Heq. apply Hnin. rewrite Heq. by apply list_elem_of_fmap_2. }
  split; [congruence|]. split; [congruence|]. split; [done|]. intros b Hb'. by rewrite Hsame2, Hsame1.
Qed.

(** Recording an event touches the report and the bucket of changes. *)
Lemma stageReportEvent_inv e (s s' : BW) u :
  stageReportEvent config e s = (inl u, s') →
  s'.1 = bl_with_report (λ r, recordEvent limit r e) s.1 ∧ s'.2.2 = s.2.2 ∧ same_buckets [workChanges] s.2.1 s'.2.1.
Proof.
  intros E. unfold stageReportEvent in E. apply bind_inv in E as ([] & s1 & E1 & E).
  destruct s as [l [ix tw]]. injection E1 as <-. apply bind_inv in E as (n & s2 & E2 & E).
  unfold bucket_NextSequence in E2. destruct (ix_NextSequence ix workChanges) as [[n' ix']|] eqn:Eseq; [|done].
  injection E2 as -> <-. apply ix_NextSequence_law in Eseq as (_ & Hsame & _).
  apply bind_inv in E as (d & s3 & [_ ->]%lift_inv & E). apply bucket_Put_inv in E as (-> & -> & _ & Hsame2).
  split; [done|]. split; [done|]. intros b Hb. rewrite Hsame2 by done. apply Hsame.
Qed.

Lemma stageSemantic_inv kind p old b a (s s' : BW) u :
  stageSemantic config clock kind p old b a s = (inl u, s') →
  ∃ z w', s'.1 = bl_with_report (λ r, recordEvent limit r (semanticEvent kind p old b a z)) s.1 ∧
    s'.2.2 = (s.2.2.1, w') ∧ same_buckets [workChanges] s.2.1 s'.2.1.
Proof.
  intros E. destruct s as [l [ix [t w]]]. unfold stageSemantic in E. rewrite bind_run in E.
  unfold onTW, onSnd, time_Now in E. destruct (clock w) as [z w'].
  apply stageReportEvent_inv in E as (-> & -> & Hsame). by exists z, w'.
Qed.
End operations.

(** ** Comparing *)

(** A view the index can hold without loss. *)
Definition indexable (v : view) : Prop :=
  ∀ p st, v !! p = Some st → fs_Path st = p ∧ p ≠ "" ∧ storable st ∧ internal_ok st.

(** Identities occur once on each side, and the identity of an added path is not
    the old one of a path that is still there. *)
Record distinct_ids (v a : view) : Prop := {
  di_previous id p q : id ≠ "" → has_id v p id → has_id v q id → p = q;
  di_actual id p q : id ≠ "" → has_id a p id → has_id a q id → p = q;
  di_separate id p q : id ≠ "" → has_id a p id → v !! p = None → has_id v q id → a !! q = None
}.

Lemma same_identity p b a : sameFileIdentity b a = sameIdentity (toInternalState p b) (toInternalState p a).
Proof.
  unfold sameFileIdentity, sameIdentity, IsZero, Equal, toInternalState. simpl.
  destruct (fs_ID b) as [x], (fs_ID a) as [y]. simpl. destruct (decide (x = "" ∨ y = "")) as [[->| ->]|Hn].
  - by rewrite bool_decide_true.
  - by rewrite (bool_decide_true ("" = "")), orb_true_r.
  - rewrite !(bool_decide_false (_ = "")), bool_decide_true by tauto. done.
Qed.

Lemma internal_type_inj x y :
  (0 ≤ x ≤ 4)%Z → (0 ≤ y ≤ 4)%Z → internalTypeFromPublic x = internalTypeFromPublic y → x = y.
Proof.
  intros Hx Hy. assert (x = 0 ∨ x = 1 ∨ x = 2 ∨ x = 3 ∨ x = 4)%Z as [->|[->|[->|[->| ->]]]] by lia;
    assert (y = 0 ∨ y = 1 ∨ y = 2 ∨ y = 3 ∨ y = 4)%Z as [->|[->|[->|[->| ->]]]] by lia; vm_compute; congruence.
Qed.

Lemma same_content p b a :
  internal_ok b → internal_ok a →
  fileContentMetadataChanged b a = contentChanged (toInternalState p b) (toInternalState p a).
Proof.
  intros (Hb & _) (Ha & _). unfold fileContentMetadataChanged, contentChanged, toInternalState. simpl. do 2 f_equal.
  apply bool_decide_ext. split; intros Hne Heq; apply Hne; [by apply internal_type_inj|by rewrite Heq].
Qed.

Lemma same_mode p b a :
  internal_ok b → internal_ok a →
  fs_Mode b ≠ fs_Mode a ↔ st_Mode (toInternalState p b) ≠ st_Mode (toInternalState p a).
Proof.
  intros (_ & _ & Hb) (_ & _ & Ha). unfold toInternalState, u32. simpl. by rewrite !Z.mod_small.
Qed.

Section compare.
Context {W DB Ix : Type} `{BoltIndexLaws Ix}.
Context (config : Config W (BoltStore DB)) (ctx : M W ()) (clock : W → Z * W).
Context (v a : view) (Hv : indexable v) (Ha : indexable a) (Hd : distinct_ids v a).
Context (t : Tracker (BoltStore DB)) (r0 : ReconcileReport).

Abbreviation TW := (Tracker (BoltStore DB) * W)%type.
Abbreviation BW := (boltLocals * (Ix * TW))%type.
Abbreviation limit := (cf_ReportEventLimit config).
Abbreviation sv := (toInternalStates v).
Abbreviation sa := (toInternalStates a).

(** The state of the comparison: what is staged, the marked paths, and the changes
    recorded so far. *)
Definition cmp_inv (cs : list Change) (M : string → Prop) (s : BW) : Prop :=
  s.2.2.1 = t ∧ staged s.2.1 workPrevious workPreviousID v ∧ staged s.2.1 workActual workActualID a ∧
  (∀ q, is_Some (ix_map s.2.1 workMatched !! q) ↔ M q) ∧
  ∃ evs, Forall2 event_of cs evs ∧ bl_report s.1 = recordEvents limit r0 evs.

Lemma cmp_iff cs M M' s : (∀ q, M q ↔ M' q) → cmp_inv cs M s → cmp_inv cs M' s.
Proof. intros HM (K1 & K2 & K3 & K4 & K5). split_and!; try done. intros q. by rewrite K4. Qed.

Lemma cmp_world {A} (m : Prelude.M W A) cs M (s s' : BW) r :
  onWorld m s = (inl r, s') → cmp_inv cs M s → cmp_inv cs M s'.
Proof.
  destruct s as [l [ix [t' w]]]. unfold onWorld, onSnd. destruct (m w) as [[x|e] w']; [|done].
  intros Heq. by injection Heq as _ <-.
Qed.

Lemma cmp_stage kind p old b af c cs M (s s' : BW) u :
  stageSemantic config clock kind p old b af s = (inl u, s') → cmp_inv cs M s →
  (∀ z, semanticEvent kind p old b af z = eventFromChange z c) → cmp_inv (cs ++ [c]) M s'.
Proof.
  intros E (K1 & K2 & K3 & K4 & evs & K5 & K6) Hc.
  apply stageSemantic_inv in E as (z & w' & E1 & E2 & Hsame). unfold cmp_inv. rewrite E1, E2.
  split_and!; [done|by eapply staged_same; first [exact Hsame|set_solver]|by eapply staged_same; first [exact Hsame|set_solver]| |].
  - intros q. rewrite (Hsame workMatched) by set_solver. done.
  - exists (evs ++ [semanticEvent kind p old b af z]). split.
    + apply Forall2_app; [done|]. constructor; [|constructor]. exists z. apply Hc.
    + unfold recordEvents in *. rewrite foldl_app. cbn [foldl bl_with_report bl_report]. by rewrite K6.
Qed.

Lemma cmp_mark k x cs M (s s' : BW) u :
  bucket_Put workMatched k x s = (inl u, s') → cmp_inv cs M s → cmp_inv cs (λ q, q = k ∨ M q) s'.
Proof.
  intros E (K1 & K2 & K3 & K4 & K5). apply bucket_Put_inv in E as (E1 & E2 & Hm & Hsame). unfold cmp_inv.
  rewrite E1, E2.
  split_and!; [done|by eapply staged_same; first [exact Hsame|set_solver]|by eapply staged_same; first [exact Hsame|set_solver]| |done].
  intros q. rewrite Hm, lookup_insert_is_Some, K4. destruct (decide (k = q)); naive_solver.
Qed.

Lemma decode_staged ix b w p d st :
  indexable w → staged_states ix b w → ix_map ix b !! p = Some d → w !! p = Some st → decodeState d = inl st.
Proof.
  intros Hw Hs Hp Hst. specialize (Hs p). rewrite Hst in Hs. destruct Hs as (d' & He & Hp'). rewrite Hp in Hp'.
  injection Hp' as ->. simpl. apply decode_encoded; [|done]. by destruct (Hw _ _ Hst) as (_ & _ & ? & _).
Qed.

(** The event of a change at a path. *)
Lemma event_at kind k p old b af z :
  kind = eventKindFromInternal k →
  (∀ st, b = Some st → internal_ok st) → (∀ st, af = Some st → internal_ok st) →
  semanticEvent kind p old b af z =
  eventFromChange z (change k p old ((λ st, toInternalState (fs_Path st) st) <$> b)
    ((λ st, toInternalState (fs_Path st) st) <$> af)).
Proof.
  intros -> Hb Haf. unfold semanticEvent, eventFromChange. simpl.
  destruct b as [b|]; destruct af as [af|]; simpl; by rewrite ?internal_roundtrip by auto.
Qed.

(** *** The first loop *)

Lemma compareCommon_inv p b af cs M (s s' : BW) u :
  compareCommon config clock p b af s = (inl u, s') → v !! p = Some b → a !! p = Some af →
  cmp_inv cs M s → cmp_inv (cs ++ change_at sv sa p) (λ q, q = p ∨ M q) s'.
Proof.
  intros E Hb Haf Hi. unfold compareCommon in E. apply bind_inv in E as ([] & s1 & E1 & E).
  apply (cmp_mark _ _ cs M) in E1; [|done].
  destruct (Hv _ _ Hb) as (Pb & _ & _ & Ib). destruct (Ha _ _ Haf) as (Pa & _ & _ & Ia).
  unfold change_at. rewrite !lookup_toInternalStates, Hb, Haf. cbn [fmap option_fmap option_map].
  rewrite (same_identity p), (same_content p) in E by done.
  assert (∀ kind k, kind = eventKindFromInternal k → ∀ z,
    semanticEvent kind (fs_Path af) "" (Some b) (Some af) z =
    eventFromChange z (change k p "" (Some (toInternalState p b)) (Some (toInternalState p af)))) as Hev.
  { intros kind k Hk z. rewrite (event_at kind k) by (done || congruence). simpl. by rewrite Pb, Pa. }
  destruct (negb _); [eapply cmp_stage; [exact E|done|by apply Hev]|].
  destruct (contentChanged _ _); [eapply cmp_stage; [exact E|done|by apply Hev]|].
  pose proof (same_mode p b af Ib Ia) as Hmode.
  destruct (decide (fs_Mode b ≠ fs_Mode af)); [rewrite decide_True by tauto|rewrite decide_False by tauto].
  - eapply cmp_stage; [exact E|done|by apply Hev].
  - injection E as _ <-. by rewrite app_nil_r.
Qed.

Lemma internal_id w p id : (st_ID <$> toInternalStates w !! p) = Some id ↔ has_id w p id.
Proof.
  rewrite lookup_toInternalStates. unfold has_id. destruct (w !! p) as [st|]; simpl; [|naive_solver].
  split; [intros [= <-]; eauto|]. by intros (st' & [= <-] & <-).
Qed.

(** The indexes of the diff engine under distinct identities. *)
Lemma old_index_spec id q p :
  id ≠ "" → has_id a p id → v !! p = None →
  indexUniqueIDs (sv ∖ sa) !! id = Some q ↔ has_id v q id.
Proof.
  intros Hne Hp Hvp. rewrite indexUniqueIDs_spec. unfold unique_in. split.
  - intros (_ & Hq & _). apply fmap_Some in Hq as (b & [Hb _]%lookup_difference_Some & ->).
    apply internal_id. by rewrite Hb.
  - intros Hq. split; [done|].
    assert (sa !! q = None) as Hsa by (rewrite lookup_toInternalStates; by rewrite (di_separate _ _ Hd id p q)).
    split.
    + apply internal_id in Hq. apply fmap_Some in Hq as (b & Hb & ->). apply fmap_Some. exists b. split; [|done].
      by apply lookup_difference_Some.
    + intros q' st [Hq' _]%lookup_difference_Some Hid. apply (di_previous _ _ Hd id); [done| |done].
      apply internal_id. by rewrite Hq', <-Hid.
Qed.

Lemma new_index_spec id p :
  id ≠ "" → has_id a p id → v !! p = None → indexUniqueIDs (sa ∖ sv) !! id = Some p.
Proof.
  intros Hne Hp Hvp. apply indexUniqueIDs_spec. split; [done|]. split.
  - pose proof Hp as Hp'. apply internal_id in Hp'. apply fmap_Some in Hp' as (b & Hb & ->). apply fmap_Some. exists b. split; [|done].
    apply lookup_difference_Some. split; [done|]. by rewrite lookup_toInternalStates, Hvp.
  - intros q st [Hq _]%lookup_difference_Some Hid. apply (di_actual _ _ Hd id); [done| |done].
    apply internal_id. by rewrite Hq, <-Hid.
Qed.

Lemma staged_unique ix b w id q :
  staged_ids ix b w → (∀ p q, has_id w p id → has_id w q id → p = q) → id ≠ "" → has_id w q id →
  raw_bytes (ix_map ix b !! id) = q.
Proof.
  intros Hs Hu Hne Hq. specialize (Hs id Hne). destruct (ix_map ix b !! id) as [[d|x]|]; [done| |by apply Hs in Hq].
  destruct Hs as [[Hx _]|[-> (p1 & p2 & Hne' & Hp1 & Hp2)]]; [by apply Hu|]. exfalso. by apply Hne', Hu.
Qed.

Lemma staged_absent ix b w id :
  staged_ids ix b w → (∀ p, ¬ has_id w p id) → id ≠ "" → raw_bytes (ix_map ix b !! id) = "".
Proof.
  intros Hs Hu Hne. specialize (Hs id Hne). destruct (ix_map ix b !! id) as [[d|x]|]; [done| |done].
  destruct Hs as [[Hx _]|[-> _]]; [by apply Hu in Hx|done].
Qed.

(** The paths marked on behalf of a scanned path. *)
Definition marks (p q : string) : Prop :=
  match v !! p with
  | Some _ => q = p
  | None => ∃ id, id ≠ "" ∧ has_id a p id ∧ has_id v q id
  end.

Lemma compareAdded_inv p af cs M (s s' : BW) u :
  compareAdded config clock af s = (inl u, s') → v !! p = None → a !! p = Some af →
  (∀ q, marks p q → ¬ M q) →
  cmp_inv cs M s → cmp_inv (cs ++ change_at sv sa p) (λ q, marks p q ∨ M q) s'.
Proof.
  intros E Hvp Hap HM Hi. destruct (Ha _ _ Hap) as (Pa & Hpe & _ & Ia). unfold compareAdded in E. cbv zeta in E.
  rewrite !bind_run in E. cbn [bucket_Get gets] in E. rewrite !bind_run in E. cbn [bucket_Get gets] in E.
  rewrite !bind_run in E. cbn [bucket_Get gets] in E. rewrite !ix_Get_law in E.
  set (id := id_value (fs_ID af)) in *. assert (has_id a p id) as Hid by by exists af.
  pose proof Hi as (_ & [Hst Hids] & [_ Haids] & Hmat & _).
  assert (∀ k, semanticEvent (eventKindFromInternal Created) (fs_Path af) "" None (Some af) k =
    eventFromChange k (change Created p "" None (Some (toInternalState p af)))) as Hcreated.
  { intros z. rewrite (event_at _ Created) by (done || congruence). simpl. by rewrite Pa. }
  unfold change_at. rewrite !lookup_toInternalStates, Hvp, Hap. cbn [fmap option_fmap option_map].
  change (st_ID (toInternalState p af)) with id.
  assert ((∀ q, ¬ marks p q) → indexUniqueIDs (sv ∖ sa) !! id = None →
    stageSemantic config clock EventCreated (fs_Path af) "" None (Some af) s = (inl u, s') →
    cmp_inv (cs ++ match indexUniqueIDs (sv ∖ sa) !! id with
      | Some old => if decide (indexUniqueIDs (sa ∖ sv) !! id = Some p)
          then [change Moved p old (sv !! old) (Some (toInternalState p af))]
          else [change Created p "" None (Some (toInternalState p af))]
      | None => [change Created p "" None (Some (toInternalState p af))]
      end) (λ q, marks p q ∨ M q) s') as Hcr.
  { intros Hno -> E'. eapply cmp_iff; [|eapply cmp_stage; [exact E'|exact Hi|exact Hcreated]]. naive_solver. }
  destruct (decide (id = "")) as [E0|Hne].
  { assert (IsZero (fs_ID af) = true) as Hz by by apply bool_decide_eq_true. rewrite Hz in E. cbn [negb andb] in E.
    apply Hcr; [| |exact E].
    - intros q. unfold marks. rewrite Hvp. intros (id' & ? & (st & Hst' & ?) & _). unfold id in E0. congruence.
    - rewrite E0. destruct (indexUniqueIDs _ !! "") eqn:Ei; [|done]. apply indexUniqueIDs_spec in Ei as [? _]. done. }
  assert (IsZero (fs_ID af) = false) as Hz by by apply bool_decide_eq_false. rewrite Hz in E. cbn [negb andb] in E.
  rewrite (staged_unique _ _ a id p Haids) in E by (done || (intros; by apply (di_actual _ _ Hd id))).
  rewrite (bool_decide_true (p = fs_Path af)) in E by done. rewrite andb_true_r in E.
  destruct (indexUniqueIDs (sv ∖ sa) !! id) as [q|] eqn:Eq.
  - pose proof Eq as Hq. apply (old_index_spec id q p Hne Hid Hvp) in Hq.
    rewrite (new_index_spec id p) by done. rewrite decide_True by done.
    rewrite (staged_unique _ _ v id q Hids) in E by (done || (intros; by apply (di_previous _ _ Hd id))).
    destruct Hq as (b & Hb & Hbid). destruct (Hv _ _ Hb) as (Pb & Hqe & _ & Ib).
    rewrite (bool_decide_true (q ≠ "")) in E by done. cbn [andb] in E.
    assert (marks p q) as Hmq by (unfold marks; rewrite Hvp; exists id; split_and!; [done|done|by exists b]).
    assert (ix_map s.2.1 workMatched !! q = None) as Hnone.
    { apply eq_None_not_Some. rewrite Hmat. by apply HM. }
    rewrite Hnone, bool_decide_true in E by done. rewrite bind_run in E. cbn [bucket_Get gets] in E. rewrite ix_Get_law in E.
    pose proof (Hst q) as Hsq. rewrite Hb in Hsq. destruct Hsq as (d & He & Hdq). rewrite Hdq in E.
    apply bind_inv in E as (b' & s1 & [Hdec ->]%lift_inv & E).
    rewrite (decode_staged s.2.1 workPrevious v q (Doc d) b Hv Hst Hdq Hb) in Hdec. injection Hdec as <-.
    apply bind_inv in E as ([] & s2 & E1 & E2). apply (cmp_mark _ _ cs M) in E1; [|done].
    eapply cmp_iff; [|eapply cmp_stage; [exact E2|exact E1|]].
    + intros q'. simpl. split; [intros [->|?]; auto|]. intros [Hm'|?]; [|auto]. left.
      unfold marks in Hm'. rewrite Hvp in Hm'. destruct Hm' as (id' & Hne' & (st & Hst' & Hid') & Hq').
      assert (id' = id) as -> by (unfold id; congruence). eapply (di_previous _ _ Hd id); [done|done|by exists b].
    + intros z. rewrite (event_at _ Moved) by (done || congruence). simpl. by rewrite Pa, Pb, lookup_toInternalStates, Hb.
  - assert (∀ q, ¬ has_id v q id) as Hno.
    { intros q Hq. apply (old_index_spec id q p Hne Hid Hvp) in Hq. congruence. }
    rewrite (staged_absent _ _ v id Hids Hno Hne) in E. rewrite bool_decide_false in E by (intros Hx; by apply Hx).
    cbn [andb] in E. apply Hcr; [|done|exact E].
    intros q. unfold marks. rewrite Hvp. intros (id' & _ & (st & Hst' & Hid') & Hq').
    assert (id' = id) as -> by (unfold id; congruence). by apply Hno in Hq'.
Qed.

Definition marked (ks : list string) (q : string) : Prop := ∃ p, p ∈ ks ∧ marks p q.

Lemma marked_app ks p q : marked (ks ++ [p]) q ↔ marks p q ∨ marked ks q.
Proof. unfold marked. setoid_rewrite elem_of_app. setoid_rewrite list_elem_of_singleton. naive_solver. Qed.

Lemma has_id_fun w p id id' : has_id w p id → has_id w p id' → id = id'.
Proof. intros (st & H1 & <-) (st' & H2 & <-). congruence. Qed.

(** An added path marks a path that no other scanned path marks. *)
Lemma marks_fresh ks p q :
  p ∉ ks → Forall (λ p, is_Some (a !! p)) ks → v !! p = None → marks p q → ¬ marked ks q.
Proof.
  intros Hnin Hks Hvp Hm (p' & Hp' & Hm'). unfold marks in Hm, Hm'. rewrite Hvp in Hm.
  destruct Hm as (id & Hne & Hp & Hq). rewrite Forall_forall in Hks.
  destruct (v !! p') eqn:Hvp'.
  - subst q. destruct (Hks _ Hp') as [st Hst]. by rewrite (di_separate _ _ Hd id p p') in Hst.
  - destruct Hm' as (id' & _ & Hpa & Hq'). pose proof (has_id_fun _ _ _ _ Hq Hq') as <-.
    apply Hnin. by rewrite (di_actual _ _ Hd id p p').
Qed.

(** A pair of a bucket that holds a view. *)
Definition pair_of (w : view) (kv : string * value) : Prop :=
  ∃ st, w !! kv.1 = Some st ∧ decodeState kv.2 = inl st.

Lemma cursor_pairs ix b w :
  indexable w → staged_states ix b w →
  (ix_Cursor ix b).*1 = sortedKeys w ∧ Forall (pair_of w) (ix_Cursor ix b).
Proof.
  intros Hw Hs. rewrite ix_Cursor_law.
  assert (∀ p, is_Some (ix_map ix b !! p) ↔ is_Some (w !! p)) as Hdom.
  { intros p. specialize (Hs p). destruct (w !! p); [|by rewrite Hs]. destruct Hs as (d & _ & ->). done. }
  split.
  - rewrite <-list_fmap_compose. unfold compose. simpl. rewrite list_fmap_id. by apply sortedKeys_dom.
  - apply Forall_fmap, Forall_forall. intros p [x Hx]%elem_of_sortedKeys. unfold pair_of. simpl. rewrite Hx. simpl.
    destruct (proj1 (Hdom p)) as [st Hst]; [by rewrite Hx|]. exists st. split; [done|]. by eapply decode_staged.
Qed.

Lemma compareActual_inv kv ks cs (s s' : BW) u :
  compareActual config ctx clock kv s = (inl u, s') → pair_of a kv → kv.1 ∉ ks →
  Forall (λ p, is_Some (a !! p)) ks →
  cmp_inv cs (marked ks) s → cmp_inv (cs ++ change_at sv sa kv.1) (marked (ks ++ [kv.1])) s'.
Proof.
  intros E (af & Haf & Hdec) Hnin Hks Hi. destruct kv as [p d]. simpl in *. unfold compareActual in E. simpl in E.
  apply bind_inv in E as ([] & s1 & E1 & E). apply (cmp_world _ cs (marked ks)) in E1; [|done].
  apply bind_inv in E as (af' & s2 & [Haf' ->]%lift_inv & E). rewrite Hdec in Haf'. injection Haf' as <-.
  rewrite bind_run in E. cbn [bucket_Get gets] in E. rewrite ix_Get_law in E.
  pose proof E1 as (_ & [Hst _] & _). pose proof (Hst p) as Hp.
  destruct (v !! p) as [b|] eqn:Hvp.
  - destruct Hp as (d' & He & Hd'). rewrite Hd' in E.
    apply bind_inv in E as (b' & s3 & [Hb' ->]%lift_inv & E).
    rewrite (decode_staged s1.2.1 workPrevious v p (Doc d') b Hv Hst Hd' Hvp) in Hb'. injection Hb' as <-.
    eapply cmp_iff; [|by eapply compareCommon_inv; [exact E|..]].
    intros q. rewrite marked_app. unfold marks at 1. by rewrite Hvp.
  - rewrite Hp in E. eapply cmp_iff; [|eapply compareAdded_inv; [exact E|done|done| |exact E1]].
    + intros q. by rewrite marked_app.
    + intros q Hm. by eapply marks_fresh.
Qed.

Lemma forM_compareActual_inv pairs ks cs (s s' : BW) u :
  forM pairs (compareActual config ctx clock) s = (inl u, s') → Forall (pair_of a) pairs → NoDup (ks ++ pairs.*1) →
  Forall (λ p, is_Some (a !! p)) ks → cmp_inv cs (marked ks) s →
  cmp_inv (cs ++ (pairs.*1 ≫= change_at sv sa)) (marked (ks ++ pairs.*1)) s'.
Proof.
  intros E Hf. revert ks cs s E. induction Hf as [|kv pairs Hkv Hf IH]; intros ks cs s E Hnd Hks Hi.
  { injection E as _ <-. cbn. by rewrite !app_nil_r. }
  cbn [forM] in E. apply bind_inv in E as ([] & s1 & E1 & E). rewrite fmap_cons in *.
  assert (kv.1 ∉ ks) as Hnin by (apply NoDup_app in Hnd as (_ & Hx & _); intros Hin; apply (Hx _ Hin); left).
  apply (compareActual_inv kv ks cs) in E1; [|done..].
  rewrite cons_middle, app_assoc. rewrite cons_middle, app_assoc in Hnd.
  cbn [mbind list_bind]. rewrite app_assoc. apply (IH (ks ++ [kv.1]) _ s1); [done|done| |done].
  apply Forall_app_2; [done|]. constructor; [|constructor]. destruct Hkv as (st & -> & _). done.
Qed.

(** *** The second loop *)

Lemma marked_deletion q b :
  v !! q = Some b → marked (sortedKeys a) q ↔ deletion_at sv sa q = [].
Proof.
  intros Hb. unfold deletion_at. rewrite !lookup_toInternalStates, Hb. cbn [fmap option_fmap option_map].
  change (st_ID (toInternalState q b)) with (id_value (fs_ID b)). split.
  - intros (p & Hp%elem_of_sortedKeys & Hm). unfold marks in Hm. destruct (v !! p) eqn:Hvp.
    { subst. destruct Hp as [st ->]. done. }
    destruct Hm as (id & Hne & Hpa & Hq).
    assert (id_value (fs_ID b) = id) as -> by (eapply has_id_fun; [by exists b|done]).
    destruct (a !! q); [done|]. rewrite decide_True; [done|].
    rewrite (old_index_spec id q p), (new_index_spec id p) by done. eauto.
  - destruct (a !! q) as [st|] eqn:Haq; intros Hdel.
    { exists q. split; [by apply elem_of_sortedKeys; rewrite Haq|]. unfold marks. by rewrite Hb. }
    case_decide as Hdec; [|done]. destruct Hdec as [Ho [p Hp]].
    apply indexUniqueIDs_spec in Hp as (Hne & Hp & _).
    apply fmap_Some in Hp as (af & [Hpa Hpv]%lookup_difference_Some & Hid).
    assert (has_id a p (id_value (fs_ID b))) as Hida by (apply internal_id; by rewrite Hpa, Hid).
    rewrite lookup_toInternalStates in Hpv. apply fmap_None in Hpv.
    exists p. split; [apply elem_of_sortedKeys; destruct Hida as (? & -> & _); done|].
    unfold marks. rewrite Hpv. exists (id_value (fs_ID b)). split_and!; [done|done|by exists b].
Qed.

Lemma compareDeleted_inv kv cs (s s' : BW) u :
  compareDeleted config ctx clock kv s = (inl u, s') → pair_of v kv →
  cmp_inv cs (marked (sortedKeys a)) s → cmp_inv (cs ++ deletion_at sv sa kv.1) (marked (sortedKeys a)) s'.
Proof.
  intros E (b & Hb & Hdec) Hi. destruct kv as [q d]. simpl in *. unfold compareDeleted in E. simpl in E.
  apply bind_inv in E as ([] & s1 & E1 & E). apply (cmp_world _ cs (marked (sortedKeys a))) in E1; [|done].
  rewrite bind_run in E. cbn [bucket_Get gets] in E. rewrite ix_Get_law in E.
  pose proof E1 as (_ & _ & _ & Hmat & _). specialize (Hmat q). rewrite (marked_deletion q b Hb) in Hmat.
  destruct (ix_map s1.2.1 workMatched !! q) as [x|].
  - injection E as _ <-. rewrite (proj1 Hmat) by done. by rewrite app_nil_r.
  - apply bind_inv in E as (b' & s3 & [Hb' ->]%lift_inv & E). rewrite Hdec in Hb'. injection Hb' as <-.
    assert (deletion_at sv sa q = [change Deleted q "" (Some (toInternalState q b)) None]) as ->.
    { destruct (decide (deletion_at sv sa q = [])) as [Hn|Hn]; [by apply Hmat in Hn as [? ?]|].
      unfold deletion_at in *. rewrite !lookup_toInternalStates, Hb in *. cbn [fmap option_fmap option_map] in *.
      destruct (a !! q); [done|]. cbn [fmap option_fmap option_map] in *. by case_decide. }
    destruct (Hv _ _ Hb) as (Pb & _ & _ & Ib).
    eapply cmp_stage; [exact E|done|]. intros z. rewrite (event_at _ Deleted) by (done || congruence). simpl. by rewrite Pb.
Qed.

Lemma forM_compareDeleted_inv pairs cs (s s' : BW) u :
  forM pairs (compareDeleted config ctx clock) s = (inl u, s') → Forall (pair_of v) pairs →
  cmp_inv cs (marked (sortedKeys a)) s →
  cmp_inv (cs ++ (pairs.*1 ≫= deletion_at sv sa)) (marked (sortedKeys a)) s'.
Proof.
  intros E Hf. revert cs s E. induction Hf as [|kv pairs Hkv Hf IH]; intros cs s E Hi.
  { injection E as _ <-. cbn. by rewrite app_nil_r. }
  cbn [forM] in E. apply bind_inv in E as ([] & s1 & E1 & E). rewrite fmap_cons. cbn [mbind list_bind].
  rewrite app_assoc. eapply IH; [exact E|]. by eapply compareDeleted_inv.
Qed.

(** The comparison records the changes of the diff engine, path by path. *)
Lemma compareBuckets_inv (s s' : BW) u :
  compareBuckets config ctx clock s = (inl u, s') → cf_Expected config = None →
  cmp_inv [] (λ _, False) s → cmp_inv (by_path sv sa) (marked (sortedKeys a)) s'.
Proof.
  intros E Hex Hi. unfold compareBuckets, overBucket in E. rewrite Hex in E.
  apply bind_inv in E as ([] & s1 & E1 & E). apply bind_inv in E as ([] & s2 & E2 & E). injection E as _ <-.
  apply bind_inv in E1 as (pairs & s3 & E3 & E1). injection E3 as <- <-.
  apply bind_inv in E2 as (pairs & s3 & E3 & E2). injection E3 as <- <-.
  pose proof Hi as (_ & _ & [Hsta _] & _). destruct (cursor_pairs _ _ _ Ha Hsta) as [Hk1 Hf1].
  eapply (forM_compareActual_inv _ []) in E1; [|done| |constructor|].
  2: { rewrite Hk1. cbn. apply NoDup_sortedKeys. }
  2: { eapply cmp_iff; [|exact Hi]. unfold marked. set_solver. }
  rewrite Hk1 in E1. cbn [app] in E1. pose proof E1 as (_ & [Hstv _] & _).
  destruct (cursor_pairs _ _ _ Hv Hstv) as [Hk2 Hf2].
  eapply forM_compareDeleted_inv in E2; [|done|exact E1]. rewrite Hk2 in E2.
  assert ((λ p, sortedKeys p) sv = sortedKeys v ∧ sortedKeys sa = sortedKeys a) as [Kv Ka].
  { split; apply sortedKeys_dom; intros k; rewrite lookup_toInternalStates; apply fmap_is_Some. }
  unfold by_path. rewrite Kv, Ka. done.
Qed.
End compare.

(** ** Failure *)

Section frame.
Context {W H DB Bk Ix : Type} `{FileSystem W H} `{BoltDBLaws DB Bk} `{BoltIndexLaws Ix}.
Context (config : Config W (BoltStore DB)) (ctx : M W ()) (clock : W → Z * W).
Context (backend_Add backend_Remove : string → M W ()) (fuel : nat) (index_io : indexOp → M W ()).

Abbreviation TW := (Tracker (BoltStore DB) * W)%type.
Abbreviation BW := (boltLocals * (Ix * TW))%type.

(** A property of the tracker that a change of its watch tree keeps. *)
Context (J : Tracker (BoltStore DB) → Prop) (HJ : ∀ t wt, is_Some (tk_watchTree t) → J t → J (set_watchTree t wt)).
Abbreviation I := (λ s : BW, J s.2.2.1).

Lemma I_TW {A} (m : M TW A) : preserves (λ s : TW, J s.1) m → preserves I (onTW m).
Proof.
  intros Hm [l [ix [t w]]] Hs. specialize (Hm (t, w) Hs). unfold onTW, onSnd. by destruct (m (t, w)) as [r [t' w']].
Qed.
Lemma I_onWorld {A} (m : M W A) : preserves I (onWorld m).
Proof. intros [l [ix [t w]]] Hs. unfold onWorld, onSnd. by destruct (m w). Qed.
Lemma I_now : preserves I (onTW (time_Now clock)).
Proof. intros [l [ix [t w]]] Hs. unfold onTW, onSnd, time_Now. by destruct (clock w). Qed.
Lemma I_upd f : preserves I (updFst f).
Proof. by intros [l [ix [t w]]] Hs. Qed.
Lemma I_Get b k : preserves I (bucket_Get b k).
Proof. by intros s. Qed.
Lemma I_Put b k v : preserves I (bucket_Put b k v).
Proof. intros [l [ix tw]] Hs. unfold bucket_Put. by destruct (ix_Put ix b k v). Qed.
Lemma I_Next b : preserves I (bucket_NextSequence b).
Proof. intros [l [ix tw]] Hs. unfold bucket_NextSequence. by destruct (ix_NextSequence ix b) as [[n ix']|]. Qed.
Lemma I_Update m : preserves I m → preserves I (index_Update index_io m).
Proof.
  intros Hm [l [ix [t w]]] Hs. specialize (Hm (l, (ix, (t, w))) Hs). unfold index_Update.
  destruct (m _) as [[r|e] [l' [ix' [t' w']]]]; [|done]. by destruct (index_io CommitIndex w') as [[]].
Qed.
Lemma I_watchAdd p : preserves I (onTW (watchAdd backend_Add p)).
Proof.
  apply I_TW. intros [t w] Hs. unfold watchAdd. destruct (tk_watchTree t) as [tree|] eqn:Et; [|done].
  destruct (WatchTree.Add backend_Add p (tree, w)) as [r [tree' w']]. apply HJ; [by rewrite Et|done].
Qed.
Lemma I_watchSync scopes obs : preserves I (onTW (watchSync backend_Remove scopes obs)).
Proof.
  apply I_TW. intros [t w] Hs. unfold watchSync. destruct (tk_watchTree t) as [tree|] eqn:Et; [|done].
  destruct (WatchTree.Sync backend_Remove scopes obs (tree, w)) as [r [tree' w']]. apply HJ; [by rewrite Et|done].
Qed.

Ltac prim := first [apply I_onWorld | apply I_now | apply I_upd | apply I_Get | apply I_Put | apply I_Next
  | apply I_watchAdd | apply I_watchSync].
Ltac framed := repeat first [frame_step | prim].

Lemma I_identity b i p : preserves I (indexIdentity b i p).
Proof. unfold indexIdentity. framed. Qed.
Lemma I_event e : preserves I (stageReportEvent config e).
Proof. unfold stageReportEvent. framed. Qed.
Lemma I_semantic k p o b a : preserves I (stageSemantic config clock k p o b a).
Proof. unfold stageSemantic. framed. apply I_event. Qed.
Lemma I_state bS bI st : preserves I (stageState bS bI st).
Proof. unfold stageState. framed. apply I_identity. Qed.

Lemma I_entry e : preserves I (stageEntry config clock backend_Add e).
Proof.
  unfold stageEntry. cbv zeta.
  repeat first [frame_step | prim | apply I_semantic | apply I_state].
Qed.

Lemma I_previous : preserves I (stagePrevious ctx).
Proof.
  unfold stagePrevious. apply preserves_bind; [frame|intros t].
  exact (store_Walk_frame I (tk_store t) (onWorld ctx) (tk_root t) (stageState workPrevious workPreviousID)
    (I_onWorld ctx) (I_state workPrevious workPreviousID)).
Qed.

Lemma I_actual s : IsAbs (tk_root s.2.2.1) = true → I s → I (stageActual config ctx clock backend_Add fuel s).2.
Proof.
  intros Hroot Hs. unfold stageActual. rewrite bind_run. cbn [gets].
  assert (preserves I (Scan (theScanner config) (onWorld ctx) (stageEntry config clock backend_Add) fuel (tk_root s.2.2.1))) as Hscan.
  { apply keeps_same. apply Scan_keeps; [|done]. split; [done|apply I_onWorld|..].
    - intros p. apply (I_onWorld (os_Lstat p)).
    - intros p. apply (I_onWorld (os_Stat p)).
    - intros p. apply (I_onWorld (os_Open p)).
    - intros h n. apply (I_onWorld (h_ReadDir h n)).
    - intros e _. apply keeps_same, I_entry. }
  refine (preserves_bind I _ _ (preserves_try I _ Hscan) _ s Hs). intros r. framed.
Qed.

Lemma I_expected provider al : preserves I (stageExpected config provider al).
Proof.
  unfold stageExpected, stageExpectedEntry. framed. apply preserves_forM. intros e _. framed.
Qed.

Lemma I_compare : preserves I (compareBuckets config ctx clock).
Proof.
  unfold compareBuckets, overBucket, compareActual, compareCommon, compareAdded, compareDeleted, compareExpected, compareOrphan.
  cbv zeta.
  repeat first [frame_step | prim | apply I_semantic | apply preserves_forM; intros ? _].
Qed.

Lemma I_deliver : preserves I (deliverChanges config).
Proof. intros [l [ix [t w]]] Hs. unfold deliverChanges. by destruct ((forM _ _ ;; _) _) as [r [b w']]. Qed.

Lemma I_prepare :
  (∀ t, J t → IsAbs (tk_root t) = true) →
  preserves I (boltPrepare config ctx clock backend_Add backend_Remove fuel index_io).
Proof.
  intros Hroot. unfold boltPrepare.
  apply preserves_bind; [apply preserves_wrapping, I_Update, I_previous|intros _].
  apply preserves_bind; [apply preserves_wrapping, I_Update|intros _].
  { intros s Hs. by apply I_actual; [apply Hroot|]. }
  apply preserves_bind; [frame|intros t].
  apply preserves_bind; [apply preserves_if; frame; by apply I_watchSync|intros _].
  apply preserves_bind; [frame|intros _].
  { apply I_TW, expectedRoot_preserves. }
  { apply I_Update, I_expected. }
  apply preserves_bind; [apply preserves_wrapping, I_Update, I_compare|intros _].
  apply preserves_bind; [frame; apply I_upd|intros _]. apply I_deliver.
Qed.
End frame.

(** A tracker that differs from [t0] in its watch tree only. *)
Definition watched {St} (t0 t : Tracker St) : Prop := ∃ wt, t = set_watchTree t0 wt.

Lemma watched_refl {St} (t : Tracker St) : watched t t.
Proof. exists (tk_watchTree t). by destruct t. Qed.
Lemma watched_set {St} (t0 t : Tracker St) wt : watched t0 t → watched t0 (set_watchTree t wt).
Proof. intros [wt' ->]. exists wt. by destruct t0. Qed.
Lemma watched_fields {St} (t0 t : Tracker St) :
  watched t0 t → tk_store t = tk_store t0 ∧ tk_generation t = tk_generation t0 ∧ tk_root t = tk_root t0 ∧
  tk_closed t = tk_closed t0 ∧ tk_pending t = tk_pending t0 ∧ tk_started t = tk_started t0 ∧
  tk_backendHealthy t = tk_backendHealthy t0 ∧ tk_dirtyPending t = tk_dirtyPending t0.
Proof. intros [wt ->]. by destruct t0. Qed.

Section runs.
Context {W H DB Bk Ix : Type} `{FileSystem W H} `{BoltDBLaws DB Bk} `{BoltIndexLaws Ix}.
Context (config : Config W (BoltStore DB)) (ctx : M W ()) (clock : W → Z * W).
Context (backend_Add backend_Remove : string → M W ()) (fuel : nat) (index_io : indexOp → M W ()).

Abbreviation TW := (Tracker (BoltStore DB) * W)%type.
Abbreviation BW := (boltLocals * (Ix * TW))%type.
Abbreviation prepare := (boltPrepare config ctx clock backend_Add backend_Remove fuel index_io).

Lemma prepare_frame t0 (s : BW) :
  IsAbs (tk_root t0) = true → watched t0 s.2.2.1 → watched t0 (prepare s).2.2.2.1.
Proof.
  intros Hroot. revert s. apply I_prepare; [intros; by apply watched_set|].
  intros t Ht. by destruct (watched_fields _ _ Ht) as (_ & _ & -> & _).
Qed.

(** The commit after a successful preparation. *)
Lemma commit_run (s : BW) :
  match (wrapping "fsrecon: replace persistent snapshot" (replaceFromIndex ctx) ;; finishBolt config clock) s with
  | (inr _, s') => s'.2.2.1 = s.2.2.1
  | (inl _, s') => ∃ st' d w1 w2,
      replaceSnapshot (tk_store s.2.2.1) ctx (documents (ix_Cursor s.2.1 workActual)) w1 = (inl st', w2) ∧
      bl_report s'.1 = set_rp_Duration d (bl_report s.1) ∧
      s'.2.2.1 = finished config (set_store s.2.2.1 st') (bl_report s'.1)
  end.
Proof.
  destruct s as [l [ix [t w]]]. rewrite bind_run. unfold wrapping at 1, replaceFromIndex. rewrite bind_run. cbn [gets snd fst].
  unfold onTW at 1, onSnd at 1 2, onStore, mutating.
  destruct (replaceSnapshot (tk_store t) ctx _ w) as [[st'|e] w1] eqn:E; [|by destruct t].
  unfold finishBolt. rewrite bind_run. unfold onTW at 1, onSnd at 1 2, time_Now. destruct (clock w1) as [z w2].
  cbn. eexists st', _, w, w1. split; [done|]. by split.
Qed.

Lemma markDirty_fields {St} (t : Tracker St) :
  tk_store (markDirty t) = tk_store t ∧ tk_generation (markDirty t) = tk_generation t ∧
  tk_pending (markDirty t) = tk_pending t ∧
  (tk_closed t = false → tk_state (markDirty t) =
     if tk_started t && negb (tk_backendHealthy t) then StateDegraded else StateDirty).
Proof. unfold markDirty. destruct t as [? ? ? st cl bh ? ? ? ? ? ? ? ? ? ?]. simpl. by destruct cl, st, bh. Qed.

Abbreviation fastPath := (reconcileBoltLocked config ctx clock backend_Add backend_Remove fuel index_io).

(** C9: a failed run of the fast path changes nothing.  Whatever the file system,
    the database and the index answer, an error leaves the snapshot, the
    generation number and the pending generation as they were, and the tracker
    dirty, or degraded without its backend. *)
Theorem fast_path_atomic report t w r e t' w' :
  IsAbs (tk_root t) = true → tk_closed t = false →
  fastPath report (t, w) = ((r, Some e), (t', w')) →
  tk_store t' = tk_store t ∧ tk_generation t' = tk_generation t ∧ tk_pending t' = tk_pending t ∧
  tk_state t' = if tk_started t && negb (tk_backendHealthy t) then StateDegraded else StateDirty.
Proof.
  intros Hroot Hcl.
  assert (∀ rep err t1 w1 x, watched t t1 → x = failBolt clock rep err (t1, w1) ∨
      x = closeIndex index_io (failBolt clock rep err (t1, w1)) →
    x = ((r, Some e), (t', w')) →
    tk_store t' = tk_store t ∧ tk_generation t' = tk_generation t ∧ tk_pending t' = tk_pending t ∧
    tk_state t' = if tk_started t && negb (tk_backendHealthy t) then StateDegraded else StateDirty) as Hfail.
  { intros rep err t1 w1 x Hw Hx E. assert (t' = markDirty t1) as ->.
    { unfold failBolt, closeIndex in Hx. destruct (clock w1). destruct Hx as [->| ->]; by injection E. }
    destruct (watched_fields _ _ Hw) as (<- & <- & _ & Hc & <- & <- & <- & _).
    destruct (markDirty_fields t1) as (-> & -> & -> & ->); [done|congruence]. }
  unfold reconcileBoltLocked. destruct (openIndex index_io w) as [[[]|err] w1]; [|eapply Hfail; [apply watched_refl|by left]].
  destruct (wrapping _ _ w1) as [[[]|err] w2]; [|eapply Hfail; [apply watched_refl|by right]].
  unfold boltBody. rewrite bind_run.
  pose proof (prepare_frame t (mkBoltLocals report {[tk_root t]}, (ix_New, (t, w2))) Hroot (watched_refl t)) as Hpre.
  destruct (prepare _) as [[[]|err] [l [ix [t1 w3]]]]; [|eapply Hfail; [exact Hpre|by right]].
  pose proof (commit_run (l, (ix, (t1, w3)))) as Hcom.
  destruct ((wrapping _ _ ;; _) _) as [[[]|err] [l2 [ix2 [t2 w4]]]]; [by unfold closeIndex|].
  simpl in Hcom. subst t2. eapply Hfail; [exact Hpre|by right].
Qed.
End runs.

(** ** Success on an unchanging tree *)

(** The documents of a bucket that holds a view are the view's. *)
Lemma documents_staged {Ix} `{BoltIndexLaws Ix} (ix : Ix) b v :
  staged_states ix b v →
  ∃ m : gmap string json, foldl (λ m kv, <[kv.1 := kv.2]> m) ∅ (documents (ix_Cursor ix b)) = m ∧
    ∀ p, match v !! p with
         | Some st => ∃ d, encodeFileState st = inl d ∧ m !! p = Some d
         | None => m !! p = None
         end.
Proof.
  intros Hs. set (unDoc := λ x, match x with Doc d => Some d | Raw _ => None end).
  set (m := omap unDoc (ix_map ix b)). exists m.
  assert (∀ p, match v !! p with
    | Some st => ∃ d, encodeFileState st = inl d ∧ m !! p = Some d ∧ ix_map ix b !! p = Some (Doc d)
    | None => m !! p = None ∧ ix_map ix b !! p = None end) as Hm.
  { intros p. specialize (Hs p). unfold m. rewrite lookup_omap. destruct (v !! p); [|by rewrite Hs].
    destruct Hs as (d & He & ->). by exists d. }
  split.
  - assert (sortedKeys (ix_map ix b) = sortedKeys m) as Hk.
    { apply sortedKeys_dom. intros p. specialize (Hm p). destruct (v !! p); [|by destruct Hm as [-> ->]].
      by destruct Hm as (d & _ & -> & ->). }
    rewrite ix_Cursor_law, Hk. etrans; [|apply rebuild_map]. f_equal.
    assert (Forall (λ p, is_Some (m !! p)) (sortedKeys m)) as Hall.
    { apply Forall_forall. intros p. apply elem_of_sortedKeys. }
    clear Hk. induction Hall as [|p ks Hp Hall IH]; [done|]. rewrite !fmap_cons. unfold documents. cbn [omap list_omap fst snd].
    pose proof (Hm p) as Hmp. destruct (v !! p); [|by destruct Hmp as [Hn _]; rewrite Hn in Hp; destruct Hp].
    destruct Hmp as (d & _ & -> & ->). simpl. f_equal. exact IH.
  - intros p. specialize (Hm p). destruct (v !! p); [|by destruct Hm]. destruct Hm as (d & ? & ? & _). eauto.
Qed.

Section exact.
Context {W DB Bk Ix : Type} `{BoltDBLaws DB Bk} `{BoltIndexLaws Ix}.
Context (fs t0 : tree) (FS : FileSystem W (list string)) (Hfs : behaves_as fs FS).
Context (config : Config W (BoltStore DB)) (ctx : M W ()) (clock : W → Z * W).
Context (backend_Add backend_Remove : string → M W ()) (fuel : nat) (index_io : indexOp → M W ()) (cs : list string).
Context (Hpl : plain fs t0 config ctx fuel cs).

Abbreviation TW := (Tracker (BoltStore DB) * W)%type.
Abbreviation BW := (boltLocals * (Ix * TW))%type.
Abbreviation limit := (cf_ReportEventLimit config).
Abbreviation a := (tree_actual (theScanner config) (abs cs) t0).

Lemma stageEntry_inv e m (s s' : BW) u :
  stageEntry config clock backend_Add e s = (inl u, s') →
  staged s.2.1 workActual workActualID m → m !! en_Path e = None → en_Path e ≠ "" →
  bl_report s'.1 = inc_rp_Scanned (bl_report s.1) ∧ watched s.2.2.1 s'.2.2.1 ∧
  staged s'.2.1 workActual workActualID (<[en_Path e := stateFromEntry e]> m) ∧
  same_buckets [workActual; workActualID] s.2.1 s'.2.1.
Proof.
  intros E Hst Hm Hne. unfold stageEntry in E. cbv zeta in E. apply bind_inv in E as ([] & s1 & E1 & E).
  assert (bl_report s1.1 = bl_report s.1 ∧ watched s.2.2.1 s1.2.2.1 ∧ s1.2.1 = s.2.1) as (K1 & K2 & K3).
  { destruct (bool_decide (fs_Type (stateFromEntry e) = FileTypeDirectory) && _); [|injection E1 as <-; split_and!; [done|apply watched_refl|done]].
    destruct s as [l [ix [t w]]]. rewrite bind_run in E1. unfold onTW, onSnd, watchAdd in E1.
    destruct (tk_watchTree t) as [tree|]; [|injection E1 as <-; split_and!; [done|apply watched_refl|done]].
    destruct (WatchTree.Add _ _ _) as [[[]|err] [tree' w']]; [|done]. injection E1 as <-.
    split_and!; [done|apply watched_set, watched_refl|done]. }
  apply bind_inv in E as ([] & s2 & E2 & E).
  rewrite (decide_False (P := cf_HardlinkPolicy config = RejectHardlinks)) in E2 by (rewrite (pl_hard Hpl); done).
  rewrite (decide_False (P := cf_HardlinkPolicy config = ReportHardlinks)) in E2 by (rewrite (pl_hard Hpl); done).
  assert (s2 = s1) as -> by (destruct (bool_decide (fs_Type (stateFromEntry e) = FileTypeRegular) && _); by injection E2).
  apply bind_inv in E as ([] & s3 & E3 & E). rewrite <-K3 in Hst.
  apply (stageState_inv _ _ _ _ _ _ m) in E3 as (F1 & F2 & F3 & F4); [|done..].
  destruct s3 as [l3 [ix3 tw3]]. injection E as _ <-. simpl in *. rewrite F1, F2, K1, <-K3. done.
Qed.

(** Without a watch tree no error of the callback is taken for a missing root. *)
Lemma stageEntry_error e (s s' : BW) err :
  stageEntry config clock backend_Add e s = (inr err, s') → tk_watchTree s.2.2.1 = None →
  errors_Is err ErrNotExist = false.
Proof.
  intros E Hwt. unfold stageEntry in E. cbv zeta in E.
  assert (∀ b k x (s s' : BW), bucket_Put b k x s = (inr err, s') → errors_Is err ErrNotExist = false) as Hput.
  { intros b k x [l [ix tw]] s1. unfold bucket_Put. destruct (ix_Put ix b k x) eqn:Ep; [done|].
    intros Heq. injection Heq as -> _. by eapply ix_Put_error. }
  apply bind_err in E as [E|([] & s1 & E1 & E)].
  { destruct (bool_decide (fs_Type (stateFromEntry e) = FileTypeDirectory) && _); [|done]. destruct s as [l [ix [t w]]]. simpl in Hwt. rewrite bind_run in E.
    unfold onTW, onSnd, watchAdd in E. by rewrite Hwt in E. }
  apply bind_err in E as [E|([] & s2 & E2 & E)].
  { rewrite (decide_False (P := cf_HardlinkPolicy config = RejectHardlinks)) in E by (rewrite (pl_hard Hpl); done).
    rewrite (decide_False (P := cf_HardlinkPolicy config = ReportHardlinks)) in E by (rewrite (pl_hard Hpl); done).
    by destruct (bool_decide (fs_Type (stateFromEntry e) = FileTypeRegular) && _). }
  apply bind_err in E as [E|([] & s3 & E3 & E)]; [|by destruct s3].
  unfold stageState in E. apply bind_err in E as [E|(d & s4 & _ & E)].
  { unfold encodeFileState, marshal_stored, time_MarshalJSON in E. case_decide; [done|]. by injection E as <- _. }
  apply bind_err in E as [E|([] & s5 & _ & E)]; [by eapply Hput|].
  unfold indexIdentity in E. case_decide; [done|]. rewrite bind_run in E. cbn [bucket_Get gets] in E.
  destruct (ix_Get _ _ _); [case_decide; [by eapply Hput|done]|by eapply Hput].
Qed.

Lemma forM_stageEntry_error es (s s' : BW) err :
  forM es (stageEntry config clock backend_Add) s = (inr err, s') → tk_watchTree s.2.2.1 = None →
  errors_Is err ErrNotExist = false.
Proof.
  intros E Hwt. revert s E Hwt. induction es as [|e es IH]; intros s E Hwt; [done|]. cbn [forM] in E.
  apply bind_err in E as [E|([] & s1 & E1 & E)]; [by eapply stageEntry_error|]. apply (IH s1 E).
  pose proof (I_entry config clock backend_Add (λ t, t = s.2.2.1)) as Hk. rewrite <-Hwt. f_equal.
  replace s1 with (stageEntry config clock backend_Add e s).2 by by rewrite E1. apply Hk; [|done].
  intros t wt [tree Ht] ->. congruence.
Qed.

Lemma forM_stageEntry_inv es m (s s' : BW) u :
  forM es (stageEntry config clock backend_Add) s = (inl u, s') →
  NoDup (en_Path <$> es) → Forall (λ e, m !! en_Path e = None ∧ en_Path e ≠ "") es →
  staged s.2.1 workActual workActualID m →
  bl_report s'.1 = Nat.iter (length es) inc_rp_Scanned (bl_report s.1) ∧ watched s.2.2.1 s'.2.2.1 ∧
  staged s'.2.1 workActual workActualID (foldl (λ m e, <[en_Path e := stateFromEntry e]> m) m es) ∧
  same_buckets [workActual; workActualID] s.2.1 s'.2.1.
Proof.
  revert m s. induction es as [|e es IH]; intros m s E Hnd Hf Hst.
  { injection E as _ <-. split_and!; [done|apply watched_refl|done|done]. }
  cbn [forM] in E. apply bind_inv in E as ([] & s1 & E1 & E2).
  apply NoDup_cons in Hnd as [Hnin Hnd]. apply Forall_cons in Hf as [[Hf1 Hf2] Hf].
  apply (stageEntry_inv _ m) in E1 as (K1 & K2 & K3 & K4); [|done..].
  destruct (IH (<[en_Path e := stateFromEntry e]> m) s1 E2 Hnd) as (F1 & F2 & F3 & F4); [|done|].
  { apply Forall_forall. intros e' Hin. rewrite Forall_forall in Hf. destruct (Hf _ Hin) as [? ?]. split; [|done].
    rewrite lookup_insert_ne; [done|]. intros Heq. apply Hnin. rewrite Heq. by apply list_elem_of_fmap_2. }
  split; [|split; [|split; [done|]]].
  - rewrite F1, K1. cbn [length]. by rewrite Nat.iter_succ_r.
  - destruct K2 as [wt Hwt]. destruct F2 as [wt' ->]. exists wt'. rewrite Hwt. by destruct (s.2.2.1).
  - intros b Hb. by rewrite F4, K4.
Qed.

Lemma index_Update_inv m (s s' : BW) u :
  index_Update index_io m s = (inl u, s') →
  ∃ s1, m s = (inl (), s1) ∧ s'.1 = s1.1 ∧ s'.2.1 = s1.2.1 ∧ s'.2.2.1 = s1.2.2.1.
Proof.
  destruct s as [l [ix tw]]. unfold index_Update. destruct (m _) as [[[]|e] [l1 [ix1 [t1 w1]]]]; [|done].
  destruct (index_io CommitIndex w1) as [[[]|e] w2]; [|done]. intros Heq. injection Heq as _ <-. eauto 10.
Qed.

Lemma wrapping_inv {S A} c (m : M S A) s r s' : wrapping c m s = (inl r, s') → m s = (inl r, s').
Proof. unfold wrapping. by destruct (m s) as [[]]. Qed.

(** What the two staging transactions leave in the index. *)
Lemma stagePrevious_inv (s s' : BW) :
  stagePrevious ctx s = (inl (), s') → tk_root s.2.2.1 = abs cs → bolt_open (tk_store s.2.2.1) →
  (∀ p, is_Some (bolt_view (tk_store s.2.2.1) !! p) → within (abs cs) p = true) →
  staged s.2.1 workPrevious workPreviousID ∅ →
  s'.1 = s.1 ∧ s'.2.2 = s.2.2 ∧ staged s'.2.1 workPrevious workPreviousID (bolt_view (tk_store s.2.2.1)) ∧
  same_buckets [workPrevious; workPreviousID] s.2.1 s'.2.1.
Proof.
  intros E Hroot Hop Hin Hst. unfold stagePrevious in E. rewrite bind_run in E. cbn [gets] in E. rewrite Hroot in E.
  set (v := bolt_view (tk_store s.2.2.1)) in *. pose proof (clean_abs_abs cs (pl_good Hpl)) as Hc.
  assert (view_ok v) as Hvok by (apply bucket_view_ok, Hop).
  assert (ctx_live (onWorld (Ix := Ix) (DB := DB) ctx)) as Hctx.
  { intros [l [ix [t w]]]. unfold onWorld, onSnd. by rewrite (pl_ctx Hpl). }
  pose proof (store_Walk_live (St := BoltStore DB) (tk_store s.2.2.1) (onWorld (Ix := Ix) ctx) (abs cs)
    (stageState workPrevious workPreviousID) s Hop Hc) as Hwalk.
  cbn [store_Walk BoltStore_store] in Hwalk. unfold bolt_Walk in E. rewrite Hwalk in E; [|intros p Hp; left; by apply Hin|done].
  change (store_view (tk_store s.2.2.1)) with v in E.
  assert (∀ p, p ∈ sortedKeys (scope_view v (abs cs)) → ∃ st, v !! p = Some st ∧ fs_Path st = p ∧ p ≠ "") as Hkeys.
  { intros p [st [Hp _]%map_lookup_filter_Some]%elem_of_sortedKeys. exists st. destruct (Hvok _ _ Hp) as [[Ha _] ?].
    split_and!; [done|done|]. by intros ->. }
  apply (forM_stageState_inv _ _ _ _ _ _ ∅) in E as (K1 & K2 & K3 & K4); [|done| | |done].
  - split_and!; [done|done| |done].
    assert (foldl (λ m st, <[fs_Path st := st]> m) ∅ (scope_entries v (abs cs)) = v) as <-; [|done].
    apply map_eq. intros p. rewrite insert_scope_lookup by done. rewrite lookup_empty.
    destruct (v !! p) eqn:Ep; [|by rewrite andb_false_r]. by rewrite Hin by (by rewrite Ep).
  - unfold scope_entries. rewrite <-list_fmap_compose.
    rewrite (list_fmap_ext _ id); [rewrite list_fmap_id; apply NoDup_sortedKeys|].
    intros i p Hp%list_elem_of_lookup_2. destruct (Hkeys p Hp) as (st & Hst' & Hpath & _). simpl.
    by rewrite (lookup_total_correct _ _ _ Hst').
  - apply Forall_fmap, Forall_forall. intros p Hp. destruct (Hkeys p Hp) as (st & Hst' & Hpath & Hne). simpl.
    rewrite (lookup_total_correct _ _ _ Hst'), Hpath. by rewrite lookup_empty.
Qed.

Lemma stageActual_inv (s s' : BW) :
  stageActual (H := list string) config ctx clock backend_Add fuel s = (inl (), s') → tk_root s.2.2.1 = abs cs →
  tk_watchTree s.2.2.1 = None → staged s.2.1 workActual workActualID ∅ →
  bl_report s'.1 = Nat.iter (length (scan_spec (theScanner config) (abs cs) t0)) inc_rp_Scanned (bl_report s.1) ∧
  watched s.2.2.1 s'.2.2.1 ∧ staged s'.2.1 workActual workActualID a ∧
  same_buckets [workActual; workActualID] s.2.1 s'.2.1.
Proof.
  intros E Hroot Hwt Hst. unfold stageActual in E. rewrite bind_run in E. cbn [gets] in E. rewrite Hroot, bind_run in E.
  unfold try in E. rewrite (Scan_tree fs (theScanner config) (onWorld ctx) _) with (t := t0) (cs := cs) in E; [|try apply Hpl..].
  - rewrite bind_run in E. destruct (forM _ _ s) as [[[]|err] s1] eqn:Ef.
    + injection E as <-. eapply forM_stageEntry_inv; [exact Ef|apply scan_spec_NoDup; apply Hpl| |done].
      apply Forall_forall. intros e He. split; [apply lookup_empty|].
      destruct (scan_spec_below _ _ _ _ (pl_wf Hpl) (pl_good Hpl) He) as (k & _ & _ & ->). done.
    + rewrite (forM_stageEntry_error _ _ _ _ Ef Hwt) in E. done.
  - intros [l [ix [t w]]]. unfold onWorld, onSnd. by rewrite (pl_ctx Hpl).
  - apply (lift_behaves _ _ (lift_behaves _ _ (lift_behaves _ _ Hfs))).
  - cbn [theScanner sn_SymlinkPolicy]. unfold scannerPolicy. destruct (pl_links Hpl) as [->| ->]; [by left|by right].
Qed.
Lemma onTW_inv {A} (m : M TW A) (s s' : BW) r : onTW m s = (r, s') → s'.1 = s.1 ∧ s'.2.1 = s.2.1.
Proof. destruct s as [l [ix tw]]. unfold onTW, onSnd. destruct (m tw). intros Heq. by injection Heq as _ <-. Qed.

Lemma deliverChanges_inv (s s' : BW) r : deliverChanges config s = (r, s') → s'.1 = s.1 ∧ s'.2.1 = s.2.1.
Proof.
  destruct s as [l [ix [t w]]]. unfold deliverChanges. destruct ((forM _ _ ;; _) _) as [r' [b w']].
  intros Heq. by injection Heq as _ <-.
Qed.

(** What a successful preparation leaves: the scanned tree in its bucket and the
    changes of the diff in the report. *)
Lemma prepare_inv v r0 obs t w l ix t' w' :
  indexable v → indexable a → distinct_ids v a →
  boltPrepare (H := list string) config ctx clock backend_Add backend_Remove fuel index_io
    (mkBoltLocals r0 obs, (ix_New, (t, w))) = (inl (), (l, (ix, (t', w')))) →
  tk_root t = abs cs → tk_watchTree t = None → bolt_open (tk_store t) → bolt_view (tk_store t) = v →
  (∀ p, is_Some (v !! p) → within (abs cs) p = true) →
  t' = t ∧ staged_states ix workActual a ∧
  ∃ evs n h, Forall2 event_of (by_path (toInternalStates v) (toInternalStates a)) evs ∧
    bl_report l = set_rp_Healthy h (recordEvents limit (Nat.iter n inc_rp_Scanned r0) evs).
Proof.
  intros Hv Ha Hd E Hroot Hwt Hop Hview Hin.
  assert (t' = t) as ->.
  { pose proof (I_prepare (Ix := Ix) config ctx clock backend_Add backend_Remove fuel index_io (λ x, x = t)) as Hp.
    specialize (Hp ltac:(intros x wt [tree Hx] ->; congruence) ltac:(intros x ->; rewrite Hroot; apply (clean_abs_abs cs (pl_good Hpl)))).
    specialize (Hp (mkBoltLocals r0 obs, (ix_New, (t, w))) eq_refl). by rewrite E in Hp. }
  split; [done|]. unfold boltPrepare in E. rewrite (pl_expected Hpl) in E.
  apply bind_inv in E as ([] & s1 & E1%wrapping_inv%index_Update_inv & E).
  destruct E1 as (x1 & E1 & L1 & X1 & T1).
  apply stagePrevious_inv in E1 as (A1 & A2 & A3 & A4); [|done|done|simpl; by rewrite Hview|apply staged_New].
  apply bind_inv in E as ([] & s2 & E2%wrapping_inv%index_Update_inv & E).
  destruct E2 as (x2 & E2 & L2 & X2 & T2). simpl in A1, A2, A3, A4. rewrite Hview in A3.
  assert (s1.2.2.1 = t) as Ht1 by (rewrite T1, A2; done).
  apply stageActual_inv in E2 as (B1 & B2 & B3 & B4); [|by rewrite Ht1|by rewrite Ht1|].
  2: { rewrite X1. eapply staged_same; [exact A4|set_solver|set_solver|apply staged_New]. }
  rewrite bind_run in E. cbn [gets] in E. apply bind_inv in E as ([] & s3 & E3 & E).
  assert (s3.1 = s2.1 ∧ s3.2.1 = s2.2.1) as [L3 X3].
  { destruct (cf_Recursive config); [|by injection E3 as <-]. rewrite bind_run in E3. cbn [gets] in E3.
    apply wrapping_inv in E3. by eapply onTW_inv. }
  apply bind_inv in E as ([] & s4 & E4 & E). injection E4 as <-.
  apply bind_inv in E as ([] & s4 & E4%wrapping_inv%index_Update_inv & E).
  destruct E4 as (x4 & E4 & L4 & X4 & T4).
  apply (compareBuckets_inv config ctx clock v a Hv Ha Hd s3.2.2.1 (bl_report x2.1)) in E4 as (_ & _ & [C3 _] & _ & C5);
    [|apply Hpl|].
  2: { unfold cmp_inv. assert (s3.2.1 = x2.2.1) as -> by congruence. split_and!; [done| |done| |].
       - eapply staged_same; [exact B4|set_solver|set_solver|]. by rewrite X1.
       - intros q. rewrite (B4 workMatched), X1, (A4 workMatched) by set_solver.
         rewrite (proj1 (ix_New_law workMatched)), lookup_empty. by split; [intros [? ?]|].
       - exists []. split; [constructor|]. by rewrite L3, L2. }
  apply bind_inv in E as ([] & s5 & E5 & E).
  destruct C5 as (evs & HF & Hrep). destruct s4 as [l4 [ix4 tw4]]. injection E5 as <-.
  apply deliverChanges_inv in E as [L5 X5]. simpl in *. subst l ix. split; [by rewrite X4|].
  do 3 eexists. split; [exact HF|]. simpl. rewrite L4, Hrep, B1, L1, A1. reflexivity.
Qed.
(** The states the store and the index represent without loss. *)
Definition faithful (w : view) : Prop := ∀ p st, w !! p = Some st → bolt_state_ok st ∧ internal_ok st.

Lemma faithful_indexable w : view_ok w → faithful w → indexable w.
Proof.
  intros Hok Hf p st Hp. destruct (Hok _ _ Hp) as [[Habs _] ?], (Hf _ _ Hp) as [[? _] ?].
  split_and!; [done| |done|done]. by intros ->.
Qed.

(** A bucket filled with the documents of a view holds the view. *)
Lemma bucket_of_view (b : Bk) (m : gmap string json) (w : view) :
  bk_map b = m → view_ok w → faithful w →
  (∀ p, match w !! p with
        | Some st => ∃ d, encodeFileState st = inl d ∧ m !! p = Some d
        | None => m !! p = None
        end) →
  bucket_ok b ∧ bucket_view b = w.
Proof.
  intros Hb Hok Hf Hm. split.
  - intros p d Hp. rewrite Hb in Hp. specialize (Hm p). destruct (w !! p) as [st|] eqn:Ew; [|congruence].
    destruct Hm as (d' & He & Hd'). rewrite Hp in Hd'. injection Hd' as ->.
    destruct (Hok _ _ Ew) as [Hc <-], (Hf _ _ Ew) as [[Hst Hbs] _]. split; [done|]. split; [done|].
    exists st. split; [|done]. by apply decode_encoded.
  - apply map_eq. intros p. rewrite bucket_view_lookup, Hb. specialize (Hm p).
    destruct (w !! p) as [st|] eqn:Ew; [|by rewrite Hm]. destruct Hm as (d & He & ->). simpl.
    unfold decoded. destruct (Hf _ _ Ew) as [[Hst _] _]. by rewrite (decode_encoded _ _ Hst He).
Qed.

Abbreviation fastPath := (reconcileBoltLocked (H := list string) config ctx clock backend_Add backend_Remove fuel index_io).

Lemma fastPath_inv g st t w r t' w' :
  let v := bolt_view (tk_store t) in
  tk_root t = abs cs → tk_watchTree t = None → bolt_open (tk_store t) →
  (∀ p, is_Some (v !! p) → within (abs cs) p = true) → faithful v → faithful a → distinct_ids v a →
  fastPath (fresh_report g st) (t, w) = ((r, None), (t', w')) →
  ∃ st' evs, t' = finished config (set_store t st') r ∧ bolt_open st' ∧ bolt_view st' = a ∧
    Forall2 event_of (by_path (toInternalStates v) (toInternalStates a)) evs ∧ report_of limit evs g r.
Proof.
  cbv zeta. intros Hroot Hwt Hop Hin Hfv Hfa Hd. unfold reconcileBoltLocked.
  assert (∀ rep err x, failBolt clock rep err x = ((r, None), (t', w')) → False) as Hno.
  { intros rep err [t1 w1]. unfold failBolt. by destruct (clock w1). }
  assert (∀ rep err x, closeIndex index_io (failBolt clock rep err x) = ((r, None), (t', w')) → False) as Hno'.
  { intros rep err [t1 w1]. unfold failBolt. by destruct (clock w1). }
  destruct (openIndex index_io w) as [[[]|err] w1]; [|by intros ?%Hno].
  destruct (wrapping _ _ w1) as [[[]|err] w2]; [|by intros ?%Hno'].
  unfold boltBody. rewrite bind_run. destruct (boltPrepare _ _ _ _ _ _ _ _) as [[[]|err] [l [ix [t1 w3]]]] eqn:Ep;
    [|by intros ?%Hno'].
  apply (prepare_inv (bolt_view (tk_store t))) in Ep as (-> & Hst & evs & n & h & HF & Hrep); [|try done..].
  2: { apply faithful_indexable; [apply bucket_view_ok, Hop|done]. }
  2: { apply faithful_indexable; [apply tree_actual_ok; apply Hpl|done]. }
  pose proof (commit_run config ctx clock (l, (ix, (t, w3)))) as Hcom.
  destruct ((wrapping _ _ ;; _) _) as [[[]|err] [l2 [ix2 [t2 w4]]]]; [|by intros ?%Hno'].
  simpl in Hcom. destruct Hcom as (st' & d & w5 & w6 & Hr & Hrep2 & ->).
  unfold closeIndex. intros Heq. injection Heq as <- <- _. exists st', evs.
  apply replaceSnapshot_map in Hr as (Hm & _ & Hcl).
  destruct (documents_staged ix workActual a Hst) as (m & Hfold & Hdocs). rewrite Hfold in Hm.
  destruct (bucket_of_view _ m a Hm) as [Hok Hview]; [apply tree_actual_ok; apply Hpl|done..|].
  split; [done|]. split; [by split|]. split; [done|]. split; [done|].
  rewrite Hrep2, Hrep. apply report_of_stream, Hpl.
Qed.

End exact.

(** ** Examples *)

(** [distinct_ids] as a check on concrete views. *)
Definition separates (v a : view) (P : string → string → Prop) : Prop :=
  map_Forall (λ p x, map_Forall (λ q y, id_value (fs_ID x) ≠ "" → id_value (fs_ID x) = id_value (fs_ID y) → P p q) a) v.

Lemma distinct_ids_check v a :
  separates v v (=) → separates a a (=) →
  separates a v (λ p q, v !! p = None → a !! q = None) → distinct_ids v a.
Proof.
  intros H1 H2 H3. split.
  - intros id p q Hne (x & Hp & Hx) (y & Hq & Hy). apply (H1 p x Hp q y Hq); congruence.
  - intros id p q Hne (x & Hp & Hx) (y & Hq & Hy). apply (H2 p x Hp q y Hq); congruence.
  - intros id p q Hne (x & Hp & Hx) Hv (y & Hq & Hy). apply (H3 p x Hp q y Hq); congruence.
Qed.

(** [/data] of the demonstration tree, with a snapshot that knows [/data/b] under
    the name [/data/old]. *)
Definition bolt_cfg : Config () (BoltStore MapDB) :=
  mkConfig "/data" true None ExpectedRegularFiles None None None None IgnoreSymlinks AllowHardlinks 1 0 16 100 10.
Definition bolt_tracker_with (states : list FileState) : Tracker (BoltStore MapDB) :=
  mkTracker "/data" (demo_after [OpApply states []]) StateSynced false false false "session" None [] [] zero_stats 7 None false ChannelsOpen false.
Definition bolt_old : FileState := mkFileState "/data/old" (newFileID "1:3") FileTypeRegular 3 100 420.
Definition bolt_tracker : Tracker (BoltStore MapDB) := bolt_tracker_with [bolt_old].

Definition bolt_fast (fs : tree) (index_io : indexOp → M () ()) :=
  @reconcileBoltLocked () (list string) MapDB MapBucket MapIndex (TreeFS fs) _ _ bolt_cfg (mret ()) demo_clock
    (λ _, mret ()) (λ _, mret ()) 20 index_io.
Definition bolt_Reconcile (fs : tree) (fast : bool) :=
  @Reconcile () (list string) (BoltStore MapDB) (TreeFS fs) _ bolt_cfg (mret ()) demo_clock (λ _, mret ()) (λ _, mret ()) 20
    (if fast then Some (bolt_fast fs (λ _, mret ())) else None).

Lemma bolt_plain : plain demo_fs demo_tree bolt_cfg (mret ()) 20 ["data"].
Proof.
  split; [by intros []|by left|done|done|done|done|exact demo_tree_wf|done|by_decide|done|vm_compute; lia].
Qed.

Lemma bolt_tracker_open : bolt_open (tk_store bolt_tracker) ∧ bolt_view (tk_store bolt_tracker) = {["/data/old" := bolt_old]}.
Proof.
  destruct (bolt_run_ok (mret ()) demo_bolt [OpApply [bolt_old] []] () (tk_store bolt_tracker) ()) as [Hs Hv].
  - exact demo_bolt_open.
  - repeat (apply Forall_cons; split); [|apply Forall_nil; exact I]; by_decide.
  - vm_compute. reflexivity.
  - split; [exact Hs|]. rewrite Hv. reflexivity.
Qed.


(** The disk is full when the first transaction commits. *)
Definition full_disk (op : indexOp) : M () () :=
  match op with CommitIndex => throw (errors_New "no space left on device") | _ => mret () end.

Lemma fast_path_atomic_witness :
  ∃ r e t', bolt_fast demo_fs full_disk (fresh_report 8 0) (bolt_tracker, ()) = ((r, Some e), (t', ())) ∧
    tk_store t' = tk_store bolt_tracker ∧ tk_generation t' = 7%Z ∧ tk_state t' = StateDirty.
Proof.
  destruct (bolt_fast demo_fs full_disk (fresh_report 8 0) (bolt_tracker, ())) as [[r err] [t' []]] eqn:E.
  assert (is_Some err) as [e ->].
  { assert (err = (bolt_fast demo_fs full_disk (fresh_report 8 0) (bolt_tracker, ())).1.2) as -> by (rewrite E; reflexivity).
    vm_compute. eexists. reflexivity. }
  exists r, e, t'. split; [reflexivity|].
  destruct (@fast_path_atomic () (list string) MapDB MapBucket MapIndex (TreeFS demo_fs) _ _ _ bolt_cfg (mret ()) demo_clock
    (λ _, mret ()) (λ _, mret ()) 20 full_disk (fresh_report 8 0) bolt_tracker () r e t' ()) as (Hs & Hg & _ & Hst).
  1-2: reflexivity.
  { exact E. }
  split; [exact Hs|]. split; [exact Hg|exact Hst].
Defined.

(** ** An identity that moves away from a path in use *)

Definition two_files (name1 name2 : string) (ino1 ino2 : Z) : tree :=
  TDir (demo_info ModeDir 1) [("data", TDir (demo_info ModeDir 2)
    [(name1, TFile (demo_info 420 ino1)); (name2, TFile (demo_info 420 ino2))])].

Definition kinds_reported (fs : tree) (fast : bool) : list (Z * string) :=
  (λ e, (ev_Kind e, ev_Path e)) <$>
    rp_Events (bolt_Reconcile fs fast (bolt_tracker_with [stateFromEntry (entry_of "/data/b" (demo_info 420 7))], ())).1.1.

(** The fast path finds moves in the order of the names.  A file is renamed from
    [b] and a new file takes the name [b].  When the new name of the old file sorts
    before [b], the fast path reports a move together with the replacement; when it
    sorts after, [b] is already marked and the same history is a creation.  The
    diff engine of the generic path reports the creation in both cases. *)
Theorem fast_path_move_order :
  kinds_reported (two_files "a" "b" 7 8) true = [(EventMoved, "/data/a"); (EventReplaced, "/data/b")] ∧
  kinds_reported (two_files "b" "c" 8 7) true = [(EventReplaced, "/data/b"); (EventCreated, "/data/c")] ∧
  kinds_reported (two_files "a" "b" 7 8) false = [(EventReplaced, "/data/b"); (EventCreated, "/data/a")] ∧
  kinds_reported (two_files "b" "c" 8 7) false = [(EventReplaced, "/data/b"); (EventCreated, "/data/c")].
Proof. vm_compute. repeat split. Qed.
