(* ===== verification/Staging.v ===== *)
(** * What the fast path stages

    Two things the fast path keeps in its temporary index instead of in memory: the
    changes it is going to deliver, under keys that number them, and the expected
    entries.  The first are read back, and delivered, in the order they were staged;
    the second agree with the map the generic path builds from the same provider. *)

From Stdlib Require Import Ascii.
From S2P Require Import Prelude GoPath DirtySet Types Diff Delivery Store Json BoltStore Scopes Scanner Tracker Expected.
From S2P Require Import Reconcile ReconcileSpec ReconcileBolt ReconcileBoltSpec.

(** ** The keys of the staged changes *)

Lemma be_bytes_order n z z' :
  (z < z')%Z → (z `div` 256 ^ Z.of_nat n = z' `div` 256 ^ Z.of_nat n)%Z →
  String.le (be_bytes n z) (be_bytes n z') ∧ be_bytes n z ≠ be_bytes n z'.
Proof.
  revert z z'. induction n as [|n IH]; intros z z' Hlt Heq; [rewrite !Z.div_1_r in Heq; lia|].
  cbn [be_bytes]. set (B := (256 ^ Z.of_nat n)%Z) in *. assert (0 < B)%Z as HB by (apply Z.pow_pos_nonneg; lia).
  rewrite Nat2Z.inj_succ, Z.pow_succ_r, (Z.mul_comm 256) in Heq by lia. fold B in Heq.
  rewrite <-!Z.div_div in Heq by lia. pose proof (Z.div_le_mono z z' B HB ltac:(lia)) as Hle.
  set (q := (z `div` B)%Z) in *. set (q' := (z' `div` B)%Z) in *.
  assert (∀ x, N_of_ascii (ascii_of_N (Z.to_N (x `mod` 256))) = Z.to_N (x `mod` 256))%Z as Hn.
  { intros x. apply N_ascii_embedding. pose proof (Z.mod_pos_bound x 256). lia. }
  destruct (decide (q = q')) as [E|E].
  - destruct (IH z z' Hlt E) as [Hs Hne]. rewrite E. split; [apply le_cons; by right|]. intros Hx. injection Hx as Hx. done.
  - assert (q `mod` 256 < q' `mod` 256)%Z as Hmod.
    { pose proof (Z.div_mod q 256). pose proof (Z.div_mod q' 256). lia. }
    pose proof (Z.mod_pos_bound q 256). split.
    + apply le_cons. left. rewrite !Hn. lia.
    + intros Hx. injection Hx as Hx _. apply (f_equal N_of_ascii) in Hx. rewrite !Hn in Hx. lia.
Qed.

(** The byte order of the keys, in which a cursor runs, is the order of the numbers. *)
Lemma PutUint64_order z z' :
  (0 ≤ z)%Z → (z < z' < 2 ^ 64)%Z → String.le (PutUint64 z) (PutUint64 z') ∧ PutUint64 z ≠ PutUint64 z'.
Proof.
  intros H0 [Hlt Hmax]. apply be_bytes_order; [done|].
  rewrite !Z.div_small; [done|..]; change (256 ^ Z.of_nat 8)%Z with (2 ^ 64)%Z; lia.
Qed.

(** A key above all others comes last. *)
Lemma sortedKeys_last {V} (m : gmap string V) k v :
  m !! k = None → (∀ k', is_Some (m !! k') → String.le k' k) →
  sortedKeys (<[k := v]> m) = sortedKeys m ++ [k].
Proof.
  intros Hk Hle. apply (StronglySorted_unique String.le).
  - apply (Sorted_StronglySorted _), sort_strings_sorted.
  - apply StronglySorted_app_2; [|apply (Sorted_StronglySorted _), sort_strings_sorted|repeat constructor].
    intros x y Hx%elem_of_sortedKeys ->%list_elem_of_singleton. by apply Hle.
  - apply NoDup_Permutation; [apply NoDup_sortedKeys| |].
    + apply NoDup_app. split; [apply NoDup_sortedKeys|]. split; [|apply NoDup_singleton].
      intros x Hx%elem_of_sortedKeys ->%list_elem_of_singleton. rewrite Hk in Hx. by destruct Hx.
    + intros x. rewrite elem_of_app, list_elem_of_singleton, !elem_of_sortedKeys, lookup_insert_is_Some'. naive_solver.
Qed.

(** ** The staged changes *)

Section changes.
Context {W DB Ix : Type} `{BoltIndexLaws Ix}.
Context (config : Config W (BoltStore DB)).

Abbreviation TW := (Tracker (BoltStore DB) * W)%type.
Abbreviation BW := (boltLocals * (Ix * TW))%type.
Abbreviation limit := (cf_ReportEventLimit config).

(** The bucket of changes holds [events]: as many numbers were drawn, every key is one
    of them, and a cursor decodes to the events in order. *)
Record holds_changes (ix : Ix) (events : list Event) : Prop := {
  hc_seq : ix_seq ix workChanges = Z.of_nat (length events);
  hc_keys : ∀ k, is_Some (ix_map ix workChanges !! k) →
    ∃ i, k = PutUint64 i ∧ (1 ≤ i ≤ Z.of_nat (length events))%Z;
  hc_cursor : Forall2 (λ kv e, ∃ d, kv.2 = Doc d ∧ decodeStagedEvent d = inl e) (ix_Cursor ix workChanges) events
}.

Lemma holds_changes_New : holds_changes ix_New [].
Proof.
  destruct (ix_New_law workChanges) as [Hm Hs]. split; [done|..].
  - rewrite Hm. intros k [? Hk]. by rewrite lookup_empty in Hk.
  - rewrite ix_Cursor_law, Hm. constructor.
Qed.

Lemma holds_changes_same ix ix' events :
  ix_map ix' workChanges = ix_map ix workChanges → ix_seq ix' workChanges = ix_seq ix workChanges →
  holds_changes ix events → holds_changes ix' events.
Proof. intros Em Es []. split; rewrite ?ix_Cursor_law, ?Em, ?Es; try done. by rewrite <-ix_Cursor_law. Qed.

(** What the staging transactions do with the index, one call at a time. *)
Inductive stageAction : Type :=
  | StageEvent (event : Event)
  | StageState (states identities : workBucket) (state : FileState)
  | MarkPath (path : string).

Definition stage (a : stageAction) : M BW () :=
  match a with
  | StageEvent event => stageReportEvent config event
  | StageState states identities state => stageState states identities state
  | MarkPath path => bucket_Put workMatched path (Raw (String "001" ""))
  end.

Definition staged_event (a : stageAction) : option Event := match a with StageEvent e => Some e | _ => None end.

(** States go to the buckets of states and identities. *)
Definition action_ok (a : stageAction) : Prop :=
  match a with
  | StageEvent event => stageable event
  | StageState states identities _ => states ≠ workChanges ∧ identities ≠ workChanges
  | MarkPath _ => True
  end.

Lemma Put_keeps b k v (s s' : BW) u :
  bucket_Put b k v s = (inl u, s') → b ≠ workChanges →
  s'.1 = s.1 ∧ s'.2.2 = s.2.2 ∧ ∀ events, holds_changes s.2.1 events → holds_changes s'.2.1 events.
Proof.
  destruct s as [l [ix tw]]. unfold bucket_Put. destruct (ix_Put ix b k v) as [ix'|e] eqn:E; [|done].
  intros Heq Hb. injection Heq as _ <-. apply ix_Put_law in E as [Hm Hs]. split; [done|]. split; [done|].
  intros events. apply holds_changes_same; [rewrite Hm; by rewrite decide_False|by rewrite Hs].
Qed.

Lemma stageState_keeps bS bI st (s s' : BW) u :
  stageState bS bI st s = (inl u, s') → bS ≠ workChanges → bI ≠ workChanges →
  s'.1 = s.1 ∧ s'.2.2 = s.2.2 ∧ ∀ events, holds_changes s.2.1 events → holds_changes s'.2.1 events.
Proof.
  intros E HS HI. unfold stageState in E.
  apply bind_inv in E as (d & s1 & [_ ->]%lift_inv & E). apply bind_inv in E as ([] & s2 & E1 & E).
  apply Put_keeps in E1 as (K1 & K2 & K3); [|done]. unfold indexIdentity in E.
  case_decide; [injection E as _ <-; done|]. rewrite bind_run in E. cbn [bucket_Get gets] in E.
  destruct (ix_Get _ _ _); [case_decide; [|by injection E as _ <-]|];
    (apply Put_keeps in E as (K4 & K5 & K6); [|done]); (split; [congruence|split; [congruence|eauto]]).
Qed.

Lemma stageReportEvent_appends e events (s s' : BW) u :
  stageReportEvent config e s = (inl u, s') → stageable e → (Z.of_nat (length events) + 1 < 2 ^ 64)%Z →
  holds_changes s.2.1 events →
  s'.1 = bl_with_report (λ r, recordEvent limit r e) s.1 ∧ s'.2.2 = s.2.2 ∧ holds_changes s'.2.1 (events ++ [e]).
Proof.
  intros E He Hlen [Hseq Hkeys Hcur]. destruct s as [l [ix tw]]. cbn [fst snd] in *.
  unfold stageReportEvent in E. apply bind_inv in E as ([] & s1 & E1 & E). injection E1 as <-.
  apply bind_inv in E as (n & s2 & E2 & E). unfold bucket_NextSequence in E2.
  destruct (ix_NextSequence ix workChanges) as [[n' ix1]|] eqn:En; [|done]. injection E2 as -> <-.
  apply ix_NextSequence_law in En as (Hn & Hm1 & Hs1). specialize (Hm1 workChanges). specialize (Hs1 workChanges).
  rewrite decide_True in Hs1 by done. rewrite Hseq in Hn.
  apply bind_inv in E as (d & s3 & [Hd ->]%lift_inv & E). destruct (staged_roundtrip e He) as (d' & Hd' & Hdec).
  assert (d' = d) as -> by congruence. unfold bucket_Put in E.
  destruct (ix_Put ix1 workChanges (PutUint64 n) (Doc d)) as [ix2|] eqn:Ep; [|done]. injection E as _ <-. cbn [fst snd].
  apply ix_Put_law in Ep as [Hm2 Hs2]. specialize (Hm2 workChanges). rewrite decide_True, Hm1 in Hm2 by done.
  split; [done|]. split; [done|].
  assert (∀ k, is_Some (ix_map ix workChanges !! k) → String.le k (PutUint64 n) ∧ k ≠ PutUint64 n) as Hlast.
  { intros k (i & -> & Hi)%Hkeys. apply PutUint64_order; lia. }
  assert (ix_map ix workChanges !! PutUint64 n = None) as Hfree.
  { apply eq_None_not_Some. intros Hk. by apply Hlast in Hk as [_ ?]. }
  split.
  - rewrite Hs2, Hs1, length_app, Hn. simpl. lia.
  - intros k. rewrite Hm2, lookup_insert_is_Some', length_app, Nat2Z.inj_add. cbn [length].
    intros [<-|(i & -> & Hi)%Hkeys]; [exists n|exists i]; split; try done; lia.
  - rewrite ix_Cursor_law, Hm2, sortedKeys_last, fmap_app by (done || apply Hlast). apply Forall2_app.
    + rewrite ix_Cursor_law in Hcur. revert Hcur.
      assert (Forall (λ k, k ≠ PutUint64 n) (sortedKeys (ix_map ix workChanges))) as Hne.
      { apply Forall_forall. intros k Hk%elem_of_sortedKeys. by apply Hlast. }
      clear -Hne. revert events. induction Hne as [|k ks Hk Hks IH]; intros events; [done|].
      rewrite !fmap_cons. intros (e & es & Hhd & Htl & ->)%Forall2_cons_inv_l. constructor; [|by apply IH].
      cbn [snd] in *. by rewrite lookup_insert_ne.
    + constructor; [|done]. cbn [fmap list_fmap snd]. rewrite lookup_insert_eq. by exists d.
Qed.

Lemma stage_appends a events (s s' : BW) u :
  stage a s = (inl u, s') → action_ok a → (Z.of_nat (length events) + 1 < 2 ^ 64)%Z → holds_changes s.2.1 events →
  s'.1 = bl_with_report (λ r, recordEvents limit r (option_list (staged_event a))) s.1 ∧ s'.2.2 = s.2.2 ∧
  holds_changes s'.2.1 (events ++ option_list (staged_event a)).
Proof.
  intros E Hok Hlen Hh. assert (s.1 = bl_with_report (λ r, r) s.1) as Hid by by destruct (s.1).
  destruct a as [e|bS bI st|p]; cbn [staged_event option_list]; rewrite ?app_nil_r.
  - by apply (stageReportEvent_appends e events) in E.
  - destruct Hok. apply stageState_keeps in E as (-> & -> & K); eauto.
  - apply Put_keeps in E as (-> & -> & K); eauto.
Qed.

Lemma run_appends actions events (s s' : BW) u :
  forM actions stage s = (inl u, s') → Forall action_ok actions →
  (Z.of_nat (length events + length actions) < 2 ^ 64)%Z → holds_changes s.2.1 events →
  s'.1 = bl_with_report (λ r, recordEvents limit r (omap staged_event actions)) s.1 ∧ s'.2.2 = s.2.2 ∧
  holds_changes s'.2.1 (events ++ omap staged_event actions).
Proof.
  revert events s. induction actions as [|a actions IH]; intros events s E Hok Hlen Hh.
  { injection E as _ <-. rewrite app_nil_r. split; [by destruct (s.1)|done]. }
  cbn [forM] in E. apply bind_inv in E as ([] & s1 & E1 & E2). apply Forall_cons in Hok as [Ha Hok]. cbn [length] in Hlen.
  apply (stage_appends a events) in E1 as (K1 & K2 & K3); [|done|lia|done].
  apply (IH (events ++ option_list (staged_event a))) in E2 as (K4 & K5 & K6); [|done| |done].
  2: { rewrite length_app. destruct (staged_event a); simpl; lia. }
  assert (omap staged_event (a :: actions) = option_list (staged_event a) ++ omap staged_event actions) as ->
    by (cbn [omap list_omap]; by destruct (staged_event a)).
  rewrite app_assoc. split; [|split; [congruence|done]]. rewrite K4, K1. by destruct (staged_event a).
Qed.

(** Delivering the bucket is delivering the events. *)
Lemma deliverChanges_run ix events l t (w : W) :
  holds_changes ix events →
  deliverChanges config (l, (ix, (t, w))) =
    let '(r, w') := deliver (cf_ChangeSink config) (tk_sessionID t) (rp_Generation (bl_report l))
                      (cf_ChangeBatchSize config) events w in (r, (l, (ix, (t, w')))).
Proof.
  intros [_ _ Hc]. unfold deliverChanges, deliver.
  assert (∀ bw, forM (ix_Cursor ix workChanges) (deliverChange config) bw = forM events (batcher_Add (cf_ChangeSink config)) bw) as E.
  { induction Hc as [|[k v] e pairs es (d & Hv & Hd) Hc IH]; intros bw; [done|]. cbn [snd] in Hv. subst v. cbn [forM].
    rewrite !bind_run. unfold deliverChange at 1. cbn [snd]. rewrite Hd. cbn [lift]. rewrite bind_run. cbn [mret M_ret].
    destruct (batcher_Add _ e bw) as [[[]|err] bw']; [apply IH|done]. }
  rewrite !bind_run, E. destruct (forM events _ _) as [[[]|err] bw]; [|by destruct bw].
  by destruct (Finish _ bw) as [r [b w']].
Qed.
End changes.

(** C29: the staged changes are delivered in the order they were staged.  Whatever
    states, identities and marks are put in the index in between, staging stageable
    events, fewer than the counter of the bucket can number, records each in the
    report and leaves a bucket from which [deliverChanges] hands the sink exactly
    what delivering the list of those events would, after the events already there;
    the index starts with none. *)
Theorem staged_changes_delivered {W DB Ix : Type} `{BoltIndexLaws Ix} (config : Config W (BoltStore DB))
    (actions : list stageAction) (ix ix' : Ix) (events : list Event) l l' t (w : W) tw' u :
  Forall action_ok actions → (Z.of_nat (length events + length actions) < 2 ^ 64)%Z → holds_changes ix events →
  forM actions (stage config) (l, (ix, (t, w))) = (inl u, (l', (ix', tw'))) →
  holds_changes (Ix := Ix) ix_New [] ∧
  holds_changes ix' (events ++ omap staged_event actions) ∧ tw' = (t, w) ∧
  l' = bl_with_report (λ r, recordEvents (cf_ReportEventLimit config) r (omap staged_event actions)) l ∧
  deliverChanges config (l', (ix', (t, w))) =
    let '(r, w') := deliver (cf_ChangeSink config) (tk_sessionID t) (rp_Generation (bl_report l'))
                      (cf_ChangeBatchSize config) (events ++ omap staged_event actions) w in
    (r, (l', (ix', (t, w')))).
Proof.
  intros Hok Hlen Hh E. split; [apply holds_changes_New|].
  apply (run_appends config actions events) in E as (Hl & Htw & Hh'); [|done..]. cbn [fst snd] in *.
  split; [done|]. split; [done|]. split; [done|]. by apply deliverChanges_run.
Qed.

(** ** The expected entries *)

(** What Go's types give of an entry, and a path in UTF-8. *)
Definition storable_expected (path : string) (e : ExpectedEntry) : Prop :=
  valid_utf8 path ∧ (∀ z, ee_Type e = Some z → (0 ≤ z ≤ 255)%Z) ∧
  (∀ z, ee_Size e = Some z → (- 2 ^ 63 ≤ z ≤ 2 ^ 63 - 1)%Z).

Lemma read_pointer_number lo hi field z :
  (lo ≤ z ≤ hi)%Z → read_pointer 0%Z (read_number lo hi) field (JNumber z) = inl (Some z).
Proof. intros Hz. unfold read_pointer. by rewrite (read_number_in lo hi _ z Hz). Qed.

Lemma unmarshal_marshal_expected e :
  storable_expected (ee_Path e) e → unmarshal_expected (mkExpectedEntry "" None None []) (marshal_expected e) = inl e.
Proof.
  destruct e as [p ty sz fp]. intros (Hp & Ht & Hs). cbn [ee_Path ee_Type ee_Size] in *.
  unfold marshal_expected, unmarshal_expected, JText, valid_utf8 in *. cbn [ee_Path ee_Type ee_Size ee_Fingerprint]. rewrite Hp.
  erewrite ebind_inl by (eapply get_one; reflexivity).
  rewrite (ebind_inl _ _ ty), (ebind_inl _ _ sz).
  - erewrite ebind_inl by (eapply get_one; reflexivity). reflexivity.
  - eapply get_one; [reflexivity|]. destruct sz as [z|]; [|done]. by apply read_pointer_number, Hs.
  - eapply get_one; [reflexivity|]. destruct ty as [z|]; [|done]. by apply read_pointer_number, Ht.
Qed.

Section expected.
Context {W DB Ix : Type} `{BoltIndexLaws Ix}.
Context (config : Config W (BoltStore DB)) (allowed : bool).

Abbreviation TW := (Tracker (BoltStore DB) * W)%type.
Abbreviation BW := (boltLocals * (Ix * TW))%type.

(** The bucket of expected entries and the map of the generic path say the same of
    every path. *)
Definition same_expected (ix : Ix) (m : gmap string Expected) : Prop :=
  ∀ path, match m !! path with
  | None => ix_map ix workExpected !! path = None
  | Some x => ∃ v e, ix_map ix workExpected !! path = Some v ∧ decodeExpected v = inl e ∧
      x = mkExpected (ee_Path e) (internalTypeFromPublic <$> ee_Type e) (ee_Size e) (ee_Fingerprint e) ∧
      ee_Path e = path
  end.

(** The entries a provider hands over, once resolved. *)
Definition entries_ok (root : string) (entries : list ExpectedEntry) : Prop :=
  Forall (λ e, ∀ path, expectedPath root (ee_Path e) = inl path → storable_expected path e) entries.

Lemma stageExpectedEntry_agrees e m (s s' : BW) r :
  let root := tk_root s.2.2.1 in
  stageExpectedEntry config allowed e s = (r, s') → clean_abs root →
  (∀ path, expectedPath root (ee_Path e) = inl path → storable_expected path e) → same_expected s.2.1 m →
  s'.1 = s.1 ∧ s'.2.2 = s.2.2 ∧
  match r with
  | inl _ => ∃ m', consume config root [root] allowed m e = inl m' ∧ same_expected s'.2.1 m'
  | inr err => consume config root [root] allowed m e = inr err ∨ ∃ ix k v, ix_Put ix workExpected k v = inr err
  end.
Proof.
  destruct s as [l [ix [t w]]]. cbn [fst snd]. intros E Hr Hok Hm.
  unfold stageExpectedEntry in E. rewrite bind_run in E. cbn [gets fst snd] in E. unfold consume.
  destruct (expectedPath (tk_root t) (ee_Path e)) as [path|err] eqn:Ep.
  2: { injection E as <- <-. split; [done|]. split; [done|]. by left. }
  rewrite bind_run in E. cbn [lift mret M_ret] in E.
  destruct (expectedPath_spec _ _ _ Hr Ep) as (Hc & Hw & _).
  assert ((if decide (path = tk_root t) then bool_decide (is_Some (ee_Type e)) || allowed
           else existsb (λ scope, pathHasPrefix path scope) [tk_root t]) =
          negb (bool_decide (path = tk_root t) && bool_decide (ee_Type e = None) && negb allowed)) as Hin.
  { case_decide as Hroot.
    - rewrite (bool_decide_eq_true_2 _ Hroot). by destruct (ee_Type e), allowed.
    - rewrite (bool_decide_eq_false_2 _ Hroot). simpl. rewrite orb_false_r. apply clean_abs_elim in Hc as (p & -> & Gp & _).
      destruct (clean_abs_elim _ Hr) as (q & Eq & Gq & _). rewrite Eq in *. apply pathHasPrefix_complete; [done..|].
      by apply within_abs. }
  rewrite Hin. destruct (bool_decide _ && _ && _); cbn [negb] in *.
  { injection E as <- <-. split; [done|]. split; [done|]. exists m. split; [by destruct (expectedFiltered _ _ _)|done]. }
  destruct (expectedFiltered config path e); [injection E as <- <-; by eauto 6|].
  unfold bucket_Put in E. destruct (ix_Put ix workExpected path _) as [ix'|err] eqn:Eput.
  2: { injection E as <- <-. split; [done|]. split; [done|]. eauto 6. }
  injection E as <- <-. split; [done|]. split; [done|]. eexists. split; [reflexivity|].
  apply ix_Put_law in Eput as [Hmap _]. specialize (Hmap workExpected). rewrite decide_True in Hmap by done.
  intros p. cbn [fst snd]. rewrite Hmap. destruct (decide (path = p)) as [<-|Hne].
  2: { rewrite !lookup_insert_ne by done. apply Hm. }
  rewrite !lookup_insert_eq. eexists _, (mkExpectedEntry path (entryType config e) (ee_Size e) (ee_Fingerprint e)).
  split; [done|]. split; [|done]. cbn [decodeExpected].
  apply unmarshal_marshal_expected. destruct (Hok path eq_refl) as (? & Ht & ?). split; [done|]. split; [|done].
  clear Hin. cbn [ee_Type]. unfold entryType. intros z. destruct (ee_Type e) eqn:Et; [by apply Ht|].
  case_decide; [|done]. intros [= <-]. unfold FileTypeRegular. lia.
Qed.

Lemma forM_expected_agrees entries m (s s' : BW) r :
  let root := tk_root s.2.2.1 in
  forM entries (stageExpectedEntry config allowed) s = (r, s') → clean_abs root → entries_ok root entries →
  same_expected s.2.1 m →
  s'.1 = s.1 ∧ s'.2.2 = s.2.2 ∧
  let generic := foldM (λ m e, lift (consume config root [root] allowed m e)) m entries s.2.2 in
  match r with
  | inl _ => ∃ m', generic = (inl m', s.2.2) ∧ same_expected s'.2.1 m'
  | inr err => generic = (inr err, s.2.2) ∨ ∃ ix k v, ix_Put ix workExpected k v = inr err
  end.
Proof.
  cbv zeta. revert m s. induction entries as [|e entries IH]; intros m s E Hr Hok Hm.
  { injection E as <- <-. eauto 6. }
  apply Forall_cons in Hok as [He Hok]. cbn [forM foldM] in *. rewrite bind_run in E.
  destruct (stageExpectedEntry config allowed e s) as [r1 s1] eqn:E1.
  apply (stageExpectedEntry_agrees e m) in E1 as (K1 & K2 & K3); [|done..]. rewrite bind_run.
  destruct r1 as [[]|err].
  - destruct K3 as (m' & -> & Hm'). cbn [lift mret M_ret]. rewrite <-K2 in Hr, Hok |- *.
    destruct (IH m' s1 E Hr Hok Hm') as (L1 & L2 & L3). split; [congruence|]. split; [congruence|]. exact L3.
  - injection E as <- <-. split; [done|]. split; [done|]. destruct K3 as [->|?]; [by left|by right].
Qed.
End expected.

(** The part of [boltPrepare] that stages the expected state, inside its transaction. *)
Definition stageExpectedState {W H DB Bk Ix : Type} `{FileSystem W H} `{BoltDB DB Bk} `{BoltIndex Ix}
    (config : Config W (BoltStore DB)) (ctx : M W ()) (provider : ExpectedProvider W) :
    M (boltLocals * (Ix * (Tracker (BoltStore DB) * W))) () :=
  allowed ← onTW (expectedRootCanBeExpected ctx);
  stageExpected config provider allowed.

(** C30: both paths expect the same.  With a provider that has no scoped walk, whose
    entries have paths in UTF-8, staging the expected state in the index succeeds
    only where [loadExpected] does, with a bucket that agrees path by path with the
    map it returns: the same paths, and on each the same type, size and fingerprint,
    so the same root rule, filter and default type.  Where staging fails,
    [loadExpected] fails too, unless the index refused a write. *)
Theorem expected_stage_agrees {W H DB Bk Ix : Type} `{FileSystem W H} `{BoltDB DB Bk} `{BoltIndexLaws Ix}
    (config : Config W (BoltStore DB)) (ctx : M W ()) (provider : ExpectedProvider W) l (ix : Ix) t (w : W) r s' :
  cf_Expected config = Some provider → ep_WalkExpectedScope provider = None → clean_abs (tk_root t) →
  (∀ w entries err w', ep_WalkExpected provider (tk_root t) w = (inl (entries, err), w') → entries_ok (tk_root t) entries) →
  ix_map ix workExpected = ∅ →
  stageExpectedState config ctx provider (l, (ix, (t, w))) = (r, s') →
  match r with
  | inl _ => ∃ m, loadExpected config ctx (t, w) = (inl (Some m), s'.2.2) ∧ same_expected s'.2.1 m
  | inr err => (∃ err', loadExpected config ctx (t, w) = (inr err', s'.2.2)) ∨ ∃ ix k v, ix_Put (Ix := Ix) ix workExpected k v = inr err
  end.
Proof.
  intros Hc Hs Hr Hok Hix E. unfold loadExpected, loadExpectedScopes. rewrite bind_run. cbn [gets fst].
  rewrite Hc, Hs, bind_run. cbn [gets fst]. rewrite bind_run. unfold wrapping.
  pose proof (expectedRoot_preserves ctx (λ t', t' = t) (t, w) eq_refl) as Ht.
  unfold stageExpectedState in E. rewrite bind_run in E. unfold onTW at 1 in E. rewrite !onSnd_run in E.
  destruct (expectedRootCanBeExpected ctx (t, w)) as [[allowed|err] [t1 w1]]; cbn [fst snd] in Ht, E |- *; subst t1.
  2: { injection E as <- <-. by left; eexists. }
  unfold stageExpected in E. rewrite bind_run in E. cbn [gets fst snd] in E. rewrite bind_run in E.
  unfold onWorld in E. rewrite !onSnd_run in E. rewrite bind_run. unfold consumeStream. rewrite bind_run, onSnd_run.
  specialize (Hok w1). destruct (ep_WalkExpected provider (tk_root t) w1) as [[[entries err]|e] w2]; cbn [fst snd] in E |- *.
  2: { injection E as <- <-. by left; eexists. }
  specialize (Hok entries err w2 eq_refl). rewrite bind_run in E.
  destruct (forM entries _ _) as [r1 s1] eqn:E1.
  apply (forM_expected_agrees config allowed entries ∅) in E1 as (_ & Hw & Hag); [|done..|].
  2: { intros path. rewrite lookup_empty. cbn [fst snd]. by rewrite Hix. }
  cbn [fst snd] in Hw, Hag. rewrite bind_run. destruct r1 as [[]|e1].
  - destruct Hag as (m & -> & Hm). destruct err as [e|]; injection E as <- <-; rewrite ?Hw; [by left; eexists|].
    by exists m.
  - injection E as <- <-. rewrite Hw. destruct Hag as [->|Hput]; [by left; eexists|by right].
Qed.

(** ** Comparing with the expected entries *)

Lemma iter_healthy_record limit n r evs :
  recordEvents limit (Nat.iter n inc_rp_Healthy r) evs = Nat.iter n inc_rp_Healthy (recordEvents limit r evs).
Proof.
  assert (∀ r e, recordEvent limit (inc_rp_Healthy r) e = inc_rp_Healthy (recordEvent limit r e)) as Hone.
  { intros [] e. unfold recordEvent, countEvent, addReportEvent, inc_rp_Healthy, set_rp_Healthy. simpl.
    repeat case_decide; done. }
  revert r. induction evs as [|e evs IH]; intros r; [done|].
  change (recordEvents limit (recordEvent limit (Nat.iter n inc_rp_Healthy r) e) evs =
    Nat.iter n inc_rp_Healthy (recordEvents limit (recordEvent limit r e) evs)).
  rewrite <-IH. f_equal. clear IH. induction n as [|n IHn]; [done|]. rewrite !Nat.iter_succ. by rewrite Hone, IHn.
Qed.

Section expected_loops.
Context {W DB Ix : Type} `{BoltIndexLaws Ix}.
Context (config : Config W (BoltStore DB)) (clock : W → Z * W).
Context (a : view) (m : gmap string Expected) (bucket : gmap string value) (Ha : indexable a).
Context (Hscope : cf_ExpectedScope config ∈ [ExpectedRegularFiles; ExpectedAllEntries]).

Abbreviation TW := (Tracker (BoltStore DB) * W)%type.
Abbreviation BW := (boltLocals * (Ix * TW))%type.
Abbreviation limit := (cf_ReportEventLimit config).
Abbreviation sa := (toInternalStates a).
Abbreviation constrained := (constraint_change sa m).

(** The types of the bucket are types the diff engine tells apart. *)
Definition typed_entries : Prop :=
  ∀ path v e z, bucket !! path = Some v → decodeExpected v = inl e → ee_Type e = Some z → (0 ≤ z ≤ 4)%Z.

(** What the two loops keep, after the changes [cs] and [n] healthy entries. *)
Definition loop_inv (r0 : ReconcileReport) (cs : list Change) (n : nat) (s : BW) : Prop :=
  staged_states s.2.1 workActual a ∧ same_expected s.2.1 m ∧ ix_map s.2.1 workExpected = bucket ∧
  ∃ evs, Forall2 event_of cs evs ∧ bl_report s.1 = Nat.iter n inc_rp_Healthy (recordEvents limit r0 evs).

Lemma loop_stage kind p af c r0 cs n (s s' : BW) u :
  stageSemantic config clock kind p "" None af s = (inl u, s') → loop_inv r0 cs n s →
  (∀ z, semanticEvent kind p "" None af z = eventFromChange z c) → loop_inv r0 (cs ++ [c]) n s'.
Proof.
  intros E (K1 & K2 & K3 & evs & K4 & K5) Hc. apply stageSemantic_inv in E as (z & w' & E1 & _ & Hsame).
  assert (ix_map s'.2.1 workExpected = ix_map s.2.1 workExpected) as Ee by (apply Hsame; set_solver).
  unfold loop_inv. split_and!.
  - intros q. rewrite (Hsame workActual) by set_solver. apply K1.
  - intros q. rewrite Ee. apply K2.
  - by rewrite Ee.
  - exists (evs ++ [semanticEvent kind p "" None af z]). split.
    + apply Forall2_app; [done|]. constructor; [|constructor]. exists z. apply Hc.
    + rewrite E1. cbn [bl_with_report bl_report]. rewrite K5. unfold recordEvents at 2. rewrite foldl_app.
      exact (iter_healthy_record limit n (recordEvents limit r0 evs) [semanticEvent kind p "" None af z]).
Qed.

(** The two constraint tests agree. *)
Lemma differs_violates e state p :
  (∀ z, ee_Type e = Some z → (0 ≤ z ≤ 4)%Z) → (0 ≤ fs_Type state ≤ 4)%Z →
  differs (ee_Type e) (fs_Type state) || differs (ee_Size e) (fs_Size state) =
  violates (mkExpected (ee_Path e) (internalTypeFromPublic <$> ee_Type e) (ee_Size e) (ee_Fingerprint e)) (toInternalState p state).
Proof.
  intros Ht Hs. unfold violates, differs. simpl. f_equal. destruct (ee_Type e) as [z|]; [|done]. simpl.
  apply bool_decide_ext. split; intros Hne Heq; apply Hne; [|by rewrite Heq]. by apply internal_type_inj; [|apply Ht|].
Qed.

Lemma compareExpected_inv kv r0 cs n (s s' : BW) u :
  compareExpected config clock kv s = (inl u, s') → typed_entries → bucket !! kv.1 = Some kv.2 → loop_inv r0 cs n s →
  loop_inv r0 (cs ++ option_list (constrained kv.1)) (match constrained kv.1 with Some _ => n | None => S n end) s'.
Proof.
  destruct kv as [p x]. cbn [fst snd]. intros E Hty Hx Hi. pose proof Hi as (Hst & Hm & Hbk & evs & Hevs & Hrep).
  unfold compareExpected in E. cbn [fst snd] in E. apply bind_inv in E as (e & s1 & [He ->]%lift_inv & E).
  pose proof (Hm p) as Hmp. destruct (m !! p) as [y|] eqn:Emp; [|rewrite Hbk in Hmp; congruence]. destruct Hmp as (x' & e' & Hx' & He' & -> & <-). rewrite Hbk in Hx'.
  assert (x' = x ∧ e' = e) as [-> ->] by (split; congruence).
  unfold constraint_change. rewrite lookup_toInternalStates, (lookup_total_correct _ _ _ Emp).
  rewrite bind_run in E. cbn [bucket_Get gets] in E. rewrite ix_Get_law in E. pose proof (Hst (ee_Path e)) as Hsp.
  destruct (a !! ee_Path e) as [state|] eqn:Eap; cbn [fmap option_fmap option_map].
  2: { rewrite Hsp in E. by eapply loop_stage. }
  destruct Hsp as (d & _ & Hd). rewrite Hd in E. apply bind_inv in E as (state' & s2 & [Hdec ->]%lift_inv & E).
  rewrite (decode_staged s.2.1 workActual a _ _ state Ha Hst Hd Eap) in Hdec. injection Hdec as <-.
  destruct (Ha _ _ Eap) as (Pa & _ & _ & Ia).
  rewrite (differs_violates e state (ee_Path e)) in E by first [apply Ia | intros z Hz; by eapply Hty].
  destruct (violates _ _); cbn [option_list option_rect].
  - eapply loop_stage; [exact E|exact Hi|]. intros z. rewrite (event_at EventInvalid Invalid) by (done || congruence).
    simpl. by rewrite Pa.
  - destruct s as [l [ix tw]]. injection E as _ <-. rewrite app_nil_r. split_and!; try done. exists evs. split; [done|].
    cbn [fst bl_with_report bl_report]. cbn [fst] in Hrep. by rewrite Hrep.
Qed.

Lemma compareOrphan_inv kv r0 cs n (s s' : BW) u :
  compareOrphan config clock kv s = (inl u, s') → pair_of a kv → loop_inv r0 cs n s →
  loop_inv r0 (cs ++ option_list (orphan_change sa m (Some (orphanEligible config)) kv.1)) n s'.
Proof.
  destruct kv as [p x]. intros E (state & Eap & Hdec) Hi. cbn [fst snd] in *. pose proof Hi as (Hst & Hm & _).
  unfold compareOrphan in E. rewrite bind_run in E. cbn [bucket_Get gets fst snd] in E. rewrite ix_Get_law in E.
  destruct (Ha _ _ Eap) as (Pa & _ & _ & Ia). unfold orphan_change.
  assert (sa !!! p = toInternalState p state) as ->.
  { apply lookup_total_correct. by rewrite lookup_toInternalStates, Eap. }
  specialize (Hm p). destruct (m !! p) as [y|].
  { destruct Hm as (v & e & Hv & _). rewrite Hv in E. injection E as _ <-. destruct (negb _); by rewrite app_nil_r. }
  rewrite Hm in E. apply bind_inv in E as (state' & s1 & [Hd' ->]%lift_inv & E). rewrite Hdec in Hd'. injection Hd' as <-.
  assert (negb (orphanEligible config (toInternalState p state)) =
    bool_decide (cf_ExpectedScope config = ExpectedRegularFiles) && bool_decide (fs_Type state ≠ FileTypeRegular)) as ->.
  { unfold orphanEligible. assert (fileTypeFromInternal (st_Type (toInternalState p state)) = fs_Type state) as ->
      by (pose proof (internal_roundtrip state Ia) as Hr; apply (f_equal fs_Type) in Hr; exact Hr).
    rewrite negb_orb. f_equal; [|by rewrite bool_decide_not].
    apply elem_of_cons in Hscope as [->|[->|[]%elem_of_nil]%elem_of_cons]; done. }
  destruct (_ && _); [injection E as _ <-; by rewrite app_nil_r|].
  eapply loop_stage; [exact E|exact Hi|]. intros z. rewrite (event_at EventOrphan Orphan) by (done || congruence).
  simpl. by rewrite Pa.
Qed.

Lemma forM_compareExpected_inv pairs r0 cs n (s s' : BW) u :
  forM pairs (compareExpected config clock) s = (inl u, s') → typed_entries →
  Forall (λ kv, bucket !! kv.1 = Some kv.2) pairs → loop_inv r0 cs n s →
  loop_inv r0 (cs ++ omap constrained pairs.*1)
    (length (filter (λ p, constrained p = None) pairs.*1) + n) s'.
Proof.
  intros E Hty Hf. revert cs n s E. induction Hf as [|kv pairs Hkv Hf IH]; intros cs n s E Hi.
  { injection E as _ <-. by rewrite app_nil_r. }
  cbn [forM] in E. apply bind_inv in E as ([] & s1 & E1 & E).
  apply (compareExpected_inv kv r0 cs n) in E1; [|done..]. apply (IH _ _ _ E) in E1. revert E1. rewrite fmap_cons.
  destruct (constrained kv.1) as [c|] eqn:Ec; cbn [omap list_omap option_list option_rect]; rewrite Ec.
  - rewrite filter_cons_False by congruence. by rewrite <-app_assoc.
  - rewrite filter_cons_True by done. rewrite app_nil_r. by rewrite Nat.add_succ_r.
Qed.

Lemma forM_compareOrphan_inv pairs r0 cs n (s s' : BW) u :
  forM pairs (compareOrphan config clock) s = (inl u, s') → Forall (pair_of a) pairs → loop_inv r0 cs n s →
  loop_inv r0 (cs ++ omap (orphan_change sa m (Some (orphanEligible config))) pairs.*1) n s'.
Proof.
  intros E Hf. revert cs s E. induction Hf as [|kv pairs Hkv Hf IH]; intros cs s E Hi.
  { injection E as _ <-. by rewrite app_nil_r. }
  cbn [forM] in E. apply bind_inv in E as ([] & s1 & E1 & E).
  apply (compareOrphan_inv kv r0 cs n) in E1; [|done..]. apply (IH _ _ E) in E1. revert E1. rewrite fmap_cons.
  destruct (orphan_change sa m _ kv.1) as [c|] eqn:Ec; cbn [omap list_omap option_list option_rect]; rewrite Ec.
  - by rewrite <-app_assoc.
  - by rewrite app_nil_r.
Qed.
End expected_loops.

(** The entries of the map that are met are those without a constraint change. *)
Lemma healthy_count (a : view) (m : gmap string Expected) :
  length (filter (λ p, constraint_change (toInternalStates a) m p = None) (sortedKeys m)) =
  size (filter (λ kv, satisfied a kv.1 kv.2 = true) m).
Proof.
  assert (∀ p x, m !! p = Some x → constraint_change (toInternalStates a) m p = None ↔ satisfied a p x = true) as Hone.
  { intros p x Hx. unfold constraint_change, satisfied. rewrite lookup_toInternalStates, (lookup_total_correct _ _ _ Hx).
    destruct (a !! p) as [st|]; cbn [fmap option_fmap option_map]; [|done]. unfold violates. simpl.
    destruct (ex_Type x) as [ty|], (ex_Size x) as [n|]; rewrite ?bool_decide_not; repeat case_bool_decide; simpl; naive_solver. }
  rewrite <-length_sortedKeys. rewrite filter_sortedKeys. f_equal. apply sortedKeys_dom. intros p. unfold is_Some.
  setoid_rewrite map_lookup_filter_Some. cbn [fst snd]. split; intros (x & Hx & Hp); exists x; (split; [done|]); by apply (Hone p x Hx).
Qed.

(** C31: both paths judge the expected state alike.  When the bucket of scanned
    entries holds the states [a] and the bucket of expected entries agrees with the
    map [m] of the generic path, the two loops over the buckets that succeed record
    exactly the missing, invalid and orphan changes the diff engine computes from
    [a] and [m], in its order, and count as healthy exactly the entries the generic
    path counts. *)
Theorem expected_comparison_agrees {W DB Ix : Type} `{BoltIndexLaws Ix} (config : Config W (BoltStore DB)) (clock : W → Z * W)
    (a : view) (m : gmap string Expected) (s s' : boltLocals * (Ix * (Tracker (BoltStore DB) * W))) u :
  indexable a → cf_ExpectedScope config ∈ [ExpectedRegularFiles; ExpectedAllEntries] →
  staged_states s.2.1 workActual a → same_expected s.2.1 m → typed_entries (ix_map s.2.1 workExpected) →
  (overBucket workExpected (compareExpected config clock) ;; overBucket workActual (compareOrphan config clock)) s = (inl u, s') →
  ∃ evs, Forall2 event_of (expected_changes (toInternalStates a) (Some m) (Some (orphanEligible config))) evs ∧
    bl_report s'.1 = Nat.iter (size (filter (λ kv, satisfied a kv.1 kv.2 = true) m)) inc_rp_Healthy
      (recordEvents (cf_ReportEventLimit config) (bl_report s.1) evs).
Proof.
  intros Ha Hsc Hst Hm Hty E. apply bind_inv in E as ([] & s1 & E1 & E2). unfold overBucket in E1, E2.
  apply bind_inv in E1 as (pairs & s2 & E3 & E1). injection E3 as <- <-.
  apply bind_inv in E2 as (pairs & s2 & E3 & E2). injection E3 as <- <-.
  assert (loop_inv config a m (ix_map s.2.1 workExpected) (bl_report s.1) [] 0 s) as Hi.
  { split_and!; try done. exists []. by split. }
  assert (sortedKeys (ix_map s.2.1 workExpected) = sortedKeys m) as Hk.
  { apply sortedKeys_dom. intros p. specialize (Hm p). destruct (m !! p); [|by rewrite Hm].
    destruct Hm as (v & ? & -> & _). by split. }
  apply (forM_compareExpected_inv config clock a m (ix_map s.2.1 workExpected) Ha Hsc _ (bl_report s.1) [] 0) in E1; [|done| |done].
  2: { rewrite ix_Cursor_law. apply Forall_fmap, Forall_forall. intros p [x Hx]%elem_of_sortedKeys. simpl. by rewrite Hx. }
  pose proof E1 as (Hst1 & _). destruct (cursor_pairs _ _ _ Ha Hst1) as [Hk1 Hf1].
  apply (forM_compareOrphan_inv config clock a m _ Ha Hsc _ _ _ _ s1 s' u E2 Hf1) in E1 as (_ & _ & _ & evs & Hevs & Hrep).
  rewrite ix_Cursor_law, <-list_fmap_compose in Hevs, Hrep. unfold compose in Hevs, Hrep. simpl in Hevs, Hrep.
  rewrite list_fmap_id, Hk in Hevs, Hrep. rewrite Hk1 in Hevs.
  rewrite (sortedKeys_dom a (toInternalStates a)) in Hevs by (intros p; by rewrite lookup_toInternalStates, fmap_is_Some).
  exists evs. split; [exact Hevs|].
  by rewrite healthy_count, Nat.add_0_r in Hrep.
Qed.

(** ** Examples *)

(** A sink that keeps the batches it is given, two events at a time. *)
Definition sink_cfg : Config (list ChangeBatch) (BoltStore MapDB) :=
  mkConfig "/data" true None ExpectedRegularFiles (Some (λ b ws, (inl (), ws ++ [b]))) None None None
    IgnoreSymlinks AllowHardlinks 1 0 16 100 2.

Definition demo_actions : list stageAction :=
  [StageEvent (demo_event EventCreated "/data/z"); StageState workActual workActualID bolt_old;
   StageEvent (demo_event EventDeleted "/data/a"); MarkPath "/data/old"; StageEvent (demo_event EventModified "/data/m")].

Lemma staged_changes_delivered_witness :
  ∃ l' ix', forM demo_actions (stage (Ix := MapIndex) sink_cfg)
      (mkBoltLocals (fresh_report 8 0) ∅, (ix_New, (bolt_tracker, []))) = (inl (), (l', (ix', (bolt_tracker, [])))) ∧
    map (fmap ev_Path) (map cb_Events (deliverChanges sink_cfg (l', (ix', (bolt_tracker, [])))).2.2.2.2) =
      [["/data/z"; "/data/a"]; ["/data/m"]].
Proof.
  destruct (forM demo_actions (stage (Ix := MapIndex) sink_cfg)
      (mkBoltLocals (fresh_report 8 0) ∅, (ix_New, (bolt_tracker, [])))) as [r [l' [ix' tw']]] eqn:E.
  assert (r = inl ()) as ->.
  { assert (r = (forM demo_actions (stage (Ix := MapIndex) sink_cfg)
      (mkBoltLocals (fresh_report 8 0) ∅, (ix_New, (bolt_tracker, [])))).1) as -> by (rewrite E; reflexivity).
    vm_compute. reflexivity. }
  destruct (staged_changes_delivered sink_cfg demo_actions ix_New ix' [] (mkBoltLocals (fresh_report 8 0) ∅) l' bolt_tracker []
    tw' ()) as (_ & _ & -> & -> & Hd).
  - assert (∀ k p, (0 ≤ k ≤ 255)%Z → valid_utf8 p → stageable (demo_event k p)) as Hev.
    { intros k p Hk Hp. split; [exact Hk|by_decide|exact Hp|reflexivity|intros ? [=]|intros ? [=]|by_decide]. }
    unfold demo_actions. repeat first [apply Forall_nil; exact I | apply Forall_cons; split].
    all: first [exact I | apply Hev; [by_decide|reflexivity] | by split].
  - simpl. lia.
  - apply holds_changes_New.
  - exact E.
  - eexists _, ix'. split; [reflexivity|]. rewrite Hd. vm_compute. reflexivity.
Defined.

(** A provider that names a file, a directory it gives the type of, and the root. *)
Definition demo_provider : ExpectedProvider () :=
  mkProvider (λ _, mret ([mkExpectedEntry "b" None (Some 10%Z) [Byte.x01]; mkExpectedEntry "/data/d" (Some FileTypeDirectory) None [];
                          mkExpectedEntry "." None None []], None)) None.
Definition expected_cfg : Config () (BoltStore MapDB) :=
  mkConfig "/data" true (Some demo_provider) ExpectedRegularFiles None None None None IgnoreSymlinks AllowHardlinks 1 0 16 100 10.

Lemma expected_stage_agrees_witness :
  ∃ s' m, @stageExpectedState () (list string) MapDB MapBucket MapIndex (TreeFS demo_fs) _ _ expected_cfg (mret ()) demo_provider
      (mkBoltLocals (fresh_report 8 0) ∅, (ix_New, (bolt_tracker, ()))) = (inl (), s') ∧
    @loadExpected () (list string) (BoltStore MapDB) (TreeFS demo_fs) _ expected_cfg (mret ()) (bolt_tracker, ()) = (inl (Some m), s'.2.2) ∧
    same_expected s'.2.1 m ∧ sortedKeys m = ["/data/b"; "/data/d"].
Proof.
  set (run := @stageExpectedState () (list string) MapDB MapBucket MapIndex (TreeFS demo_fs) _ _ expected_cfg (mret ()) demo_provider
    (mkBoltLocals (fresh_report 8 0) ∅, (ix_New, (bolt_tracker, ())))).
  assert (run.1 = inl ()) as Hr by (vm_compute; reflexivity).
  destruct run as [r s'] eqn:E. cbn [fst] in Hr. subst r.
  destruct (@expected_stage_agrees () (list string) MapDB MapBucket MapIndex (TreeFS demo_fs) _ _ _ expected_cfg (mret ()) demo_provider
    (mkBoltLocals (fresh_report 8 0) ∅) ix_New bolt_tracker () (inl ()) s') as (m & Hm & Hs).
  1-2: reflexivity.
  - by_decide.
  - intros w entries err w' Hw. injection Hw as <- <- <-. apply Forall_forall. intros e He path Hp.
    repeat (apply elem_of_cons in He as [->|He]); [..|by apply elem_of_nil in He];
      vm_compute in Hp; injection Hp as <-; (split; [vm_compute; reflexivity|]); split; intros z Hz;
      first [discriminate Hz | injection Hz as <-; split; vm_compute; discriminate].
  - reflexivity.
  - exact E.
  - exists s', m. split; [reflexivity|]. split; [exact Hm|]. split; [exact Hs|].
    assert (inl (Some m) = (@loadExpected () (list string) (BoltStore MapDB) (TreeFS demo_fs) _ expected_cfg (mret ())
      (bolt_tracker, ())).1) as Em by (rewrite Hm; reflexivity). vm_compute in Em. injection Em as ->. vm_compute. reflexivity.
Defined.

(** One scanned file; of the expected ones it has another size, and [/data/c] is not
    there. *)
Definition judged_state : FileState := mkFileState "/data/b" (newFileID "1:3") FileTypeRegular 3 100 420.
Definition judged_view : view := {["/data/b" := judged_state]}.
Definition judged_entries : list ExpectedEntry :=
  [mkExpectedEntry "/data/b" (Some FileTypeRegular) (Some 10%Z) []; mkExpectedEntry "/data/c" (Some FileTypeRegular) None []].
Definition judged_map : gmap string Expected :=
  list_to_map ((λ e, (ee_Path e, mkExpected (ee_Path e) (internalTypeFromPublic <$> ee_Type e) (ee_Size e) (ee_Fingerprint e)))
               <$> judged_entries).
Definition judged_bucket : gmap string value := list_to_map ((λ e, (ee_Path e, Doc (marshal_expected e))) <$> judged_entries).

Definition judged_start : boltLocals * (MapIndex * (Tracker (BoltStore MapDB) * ())) :=
  let ix : MapIndex := λ b, match b with workExpected => (judged_bucket, 0%Z) | _ => (∅, 0%Z) end in
  (stageState workActual workActualID judged_state (mkBoltLocals (fresh_report 8 0) ∅, (ix, (bolt_tracker, ())))).2.

Lemma judged_lookup p :
  match judged_map !! p with
  | None => judged_bucket !! p = None
  | Some x => ∃ v e, judged_bucket !! p = Some v ∧ decodeExpected v = inl e ∧
      x = mkExpected (ee_Path e) (internalTypeFromPublic <$> ee_Type e) (ee_Size e) (ee_Fingerprint e) ∧ ee_Path e = p
  end.
Proof.
  unfold judged_map, judged_bucket, judged_entries. cbn [fmap list_fmap list_to_map foldr fst snd ee_Path].
  destruct (decide (p = "/data/b")) as [->|Hb]; [rewrite !lookup_insert_eq|rewrite !(lookup_insert_ne _ "/data/b") by done].
  { do 2 eexists. split; [reflexivity|]. split; [vm_compute; reflexivity|]. split; reflexivity. }
  destruct (decide (p = "/data/c")) as [->|Hc]; [rewrite !lookup_insert_eq|by rewrite !lookup_insert_ne].
  do 2 eexists. split; [reflexivity|]. split; [vm_compute; reflexivity|]. split; reflexivity.
Qed.

Lemma judged_typed : typed_entries judged_bucket.
Proof.
  intros p v e z Hv Hd Hz.
  assert (ee_Type e = Some FileTypeRegular) as Et; [|rewrite Et in Hz; injection Hz as <-; unfold FileTypeRegular; lia].
  unfold judged_bucket, judged_entries in Hv. cbn [fmap list_fmap list_to_map foldr fst snd ee_Path] in Hv.
  apply lookup_insert_Some in Hv as [[_ <-]|[_ Hv]]; [by injection Hd as <-|].
  apply lookup_insert_Some in Hv as [[_ <-]|[_ Hv]]; [by injection Hd as <-|by rewrite lookup_empty in Hv].
Qed.

Lemma expected_comparison_agrees_witness :
  ∃ s' evs, (overBucket workExpected (compareExpected expected_cfg demo_clock) ;;
      overBucket workActual (compareOrphan expected_cfg demo_clock)) judged_start = (inl (), s') ∧
    Forall2 event_of (expected_changes (toInternalStates judged_view) (Some judged_map) (Some (orphanEligible expected_cfg))) evs ∧
    (λ e, (ev_Kind e, ev_Path e)) <$> rp_Events (bl_report s'.1) = [(EventInvalid, "/data/b"); (EventMissing, "/data/c")].
Proof.
  set (run := (overBucket workExpected (compareExpected expected_cfg demo_clock) ;;
    overBucket workActual (compareOrphan expected_cfg demo_clock)) judged_start).
  assert (run.1 = inl () ∧ (λ e, (ev_Kind e, ev_Path e)) <$> rp_Events (bl_report run.2.1) =
    [(EventInvalid, "/data/b"); (EventMissing, "/data/c")]) as [Hr He] by (vm_compute; split; reflexivity).
  destruct run as [r s'] eqn:E. cbn [fst snd] in Hr, He. subst r.
  destruct (expected_comparison_agrees expected_cfg demo_clock judged_view judged_map judged_start s' ()) as (evs & Hevs & _).
  - unfold judged_view. intros p st [<- <-]%lookup_singleton_Some. split; [reflexivity|]. split; [discriminate|]. by_decide.
  - left.
  - intros p. destruct (decide (p = "/data/b")) as [->|Hne].
    + exists (default JNull (match encodeFileState judged_state with inl d => Some d | inr _ => None end)).
      split; vm_compute; reflexivity.
    + unfold judged_view. rewrite lookup_singleton_ne by done.
      change (ix_map judged_start.2.1 workActual) with
        (<["/data/b" := Doc (default JNull (match encodeFileState judged_state with inl d => Some d | inr _ => None end))]> (∅ : gmap string value)).
      by rewrite lookup_insert_ne, lookup_empty by done.
  - exact judged_lookup.
  - exact judged_typed.
  - exact E.
  - exists s', evs. split; [reflexivity|]. split; [exact Hevs|exact He].
Defined.
