(* ===== verification/Integrity.v ===== *)
(** * Integrity scrubbing: [Scrub] of integrity.go

    A scrub checks the content of every regular file against the application's
    checker and the fingerprints of the expected state, and reports the corrupt
    ones.  With a change sink the events go through a log file, of which the model
    keeps the documents; [stage_io] are the calls on that file, which can fail.
    The SHA-256 checker is one instance of the checker ([Checker]). *)

From S2P Require Import Prelude Frame GoPath Types Diff Delivery Store Json Scanner Tracker Expected Reconcile.
From S2P Require Import MemoryStore ReconcileSpec ReconcileTree.

(** ** Data *)

#[global] Instance byte_eq_decision : EqDecision Byte.byte := Byte.byte_eq_dec.

(** The calls on the log file: [os.CreateTemp], the write of [encoder.Encode],
    [stage.Close], [os.Open], [input.Close] and the deferred cleanup. *)
Inductive stageOp : Type := CreateTemp | EncodeWrite | CloseStage | OpenStage | CloseInput | Cleanup.

(** The locals that the callback of the scan updates. *)
Record scrub : Type := mkScrub {
  sb_report : IntegrityReport;
  sb_allEvents : list Event;
  sb_staged : list json
}.

Definition inc_ir_Scanned (s : scrub) : scrub :=
  let '(mkScrub (mkIntegrityReport g st d sc he co ev tr) all docs) := s in
  mkScrub (mkIntegrityReport g st d (u64 (sc + 1)) he co ev tr) all docs.
Definition inc_ir_Healthy (s : scrub) : scrub :=
  let '(mkScrub (mkIntegrityReport g st d sc he co ev tr) all docs) := s in
  mkScrub (mkIntegrityReport g st d sc (u64 (he + 1)) co ev tr) all docs.
Definition set_ir_Duration (z : Z) (r : IntegrityReport) : IntegrityReport :=
  let '(mkIntegrityReport g st _ sc he co ev tr) := r in mkIntegrityReport g st z sc he co ev tr.

(** [report.Corrupt++] and the bounded detail. *)
Definition recordCorrupt (limit : Z) (event : Event) (s : scrub) : scrub :=
  let '(mkScrub (mkIntegrityReport g st d sc he co ev tr) all docs) := s in
  let co := u64 (co + 1) in
  if decide (Z.of_nat (length ev) < limit)%Z
  then mkScrub (mkIntegrityReport g st d sc he co (ev ++ [event]) tr) all docs
  else mkScrub (mkIntegrityReport g st d sc he co ev (u64 (tr + 1))) all docs.
Definition stage_doc (doc : json) (s : scrub) : scrub := mkScrub (sb_report s) (sb_allEvents s) (sb_staged s ++ [doc]).
Definition keep_event (event : Event) (s : scrub) : scrub :=
  mkScrub (sb_report s) (sb_allEvents s ++ [event]) (sb_staged s).

Section scrub.
Context {W H St : Type} `{FileSystem W H} `{SnapshotStore St}.
Context (config : Config W St) (ctx : M W ()) (clock : W → Z * W) (fuel : nat) (stage_io : stageOp → M W ()).

Abbreviation TW := (Tracker St * W)%type.
Abbreviation SW := (scrub * TW)%type.

(** ** The scan *)

(** The verdict on a checked file. *)
Definition verdict (expected : option (gmap string Expected)) (state : FileState) (result : IntegrityResult) : bool :=
  match expected ≫= (λ m, m !! fs_Path state) with
  | Some entry =>
      if decide (ex_Fingerprint entry = []) then in_Valid result
      else in_Valid result && bool_decide (in_Fingerprint result = ex_Fingerprint entry)
  | None => in_Valid result
  end.

Definition corruptEvent (state : FileState) (z : Z) : Event :=
  mkEvent EventCorrupt (fs_Path state) "" None (Some state) SourceIntegrity z.

Definition stageEvent (event : Event) : M SW () :=
  match cf_ChangeSink config with
  | None => mret ()
  | Some _ =>
      doc ← lift (encodeStagedEvent event);
      onSnd (onSnd (stage_io EncodeWrite)) ;;
      updFst (stage_doc doc)
  end.

(** The callback of [s.Scan]. *)
Definition checkEntry (check : FileState → M W IntegrityResult) (expected : option (gmap string Expected))
    (entry : Entry) : M SW () :=
  let state := stateFromEntry entry in
  if decide (fs_Type state ≠ FileTypeRegular) then mret ()
  else
    result ← wrapping "check" (onSnd (onSnd (check state)));
    updFst inc_ir_Scanned ;;
    if verdict expected state result then updFst inc_ir_Healthy
    else
      z ← onSnd (time_Now clock);
      let event := corruptEvent state z in
      updFst (recordCorrupt (cf_ReportEventLimit config) event) ;;
      stageEvent event ;;
      updFst (keep_event event).

(** ** Delivery of the log *)

(** One decoded document: an error of the decoder is returned as a value, one of
    the sink is thrown. *)
Definition readStaged (sink : option (ChangeBatch → M W ())) (doc : json) : M (changeBatcher * W) (option error) :=
  match decodeStagedEvent doc with
  | inr e => mret (Some (Wrapf "fsrecon: read integrity change log" e))
  | inl event => batcher_Add sink event ;; mret None
  end.

Fixpoint readLog (sink : option (ChangeBatch → M W ())) (docs : list json) : M (changeBatcher * W) (option error) :=
  match docs with
  | [] => mret None
  | doc :: docs' =>
      r ← readStaged sink doc;
      match r with Some e => mret (Some e) | None => readLog sink docs' end
  end.

(** The loop, the close of the input and [Finish]; the input is closed on every
    exit from the loop. *)
Definition deliverLog (sink : option (ChangeBatch → M W ())) (docs : list json) : M (changeBatcher * W) (option error) :=
  r ← try (readLog sink docs);
  closed ← try (onSnd (stage_io CloseInput));
  match r, closed with
  | inr err, _ => throw err
  | inl (Some e), _ => mret (Some e)
  | inl None, inr e => mret (Some (Wrapf "fsrecon: close integrity change log" e))
  | inl None, inl _ => Finish sink ;; mret None
  end.

(** [stage.Close], [os.Open] and the delivery.  [inl None] is success, [inl (Some
    e)] an error of the log, [inr e] an error of the sink. *)
Definition deliverScrub (report : IntegrityReport) (docs : list json) : M TW (option error) := λ '(t, w),
  match cf_ChangeSink config with
  | None => (inl None, (t, w))
  | Some sink =>
      match stage_io CloseStage w with
      | (inr e, w) => (inl (Some (Wrapf "fsrecon: close integrity change log" e)), (t, w))
      | (inl _, w) =>
          match stage_io OpenStage w with
          | (inr e, w) => (inl (Some (Wrapf "fsrecon: open integrity change log" e)), (t, w))
          | (inl _, w) =>
              let '(r, (_, w)) := deliverLog (Some sink) docs
                (newChangeBatcher (tk_sessionID t) (ir_Generation report) (cf_ChangeBatchSize config), w) in
              (r, (t, w))
          end
      end
  end.

(** ** Scrub *)

Definition commitScrub (report : IntegrityReport) (t : Tracker St) : Tracker St :=
  let t := set_stats t (addIntegrityStats (tk_stats t) report) in
  let t := set_generation t (ir_Generation report) in
  foldl (sendEvent (cf_EventBuffer config)) t (ir_Events report).

(** The report, the events, and the deferred cleanup of the log. *)
Definition cleanup : TW → TW := λ '(t, w),
  match cf_ChangeSink config with None => (t, w) | Some _ => (t, (stage_io Cleanup w).2) end.

Definition scrubBody (check : FileState → M W IntegrityResult) : M SW () :=
  expected ← onSnd (t ← gets fst; loadExpectedScopes config ctx [tk_root t]);
  t ← gets (λ s, s.2.1);
  r ← try (Scan (theScanner config) (onSnd (onSnd ctx)) (checkEntry check expected) fuel (tk_root t));
  z ← onSnd (time_Now clock);
  updFst (λ s, mkScrub (set_ir_Duration (z - ir_StartedAt (sb_report s)) (sb_report s)) (sb_allEvents s) (sb_staged s)) ;;
  match r with
  | inl (Some _) => mret ()
  | inl None => throw (Sentinel OutOfFuel)
  | inr err => throw (Wrapf "fsrecon: integrity scrub" err)
  end.

(** From the new report on. *)
Definition newScrub (check : FileState → M W IntegrityResult) :
    TW → (IntegrityReport * option error) * TW := λ '(t, w),
  let '(started, w) := clock w in
  let report := mkIntegrityReport (u64 (tk_generation t + 1)) started 0 0 0 0 [] 0 in
  match match cf_ChangeSink config with None => (inl (), w) | Some _ => stage_io CreateTemp w end with
  | (inr e, w) => ((report, Some (Wrapf "fsrecon: create integrity change log" e)), (t, w))
  | (inl _, w) =>
      match scrubBody check (mkScrub report [] [], (t, w)) with
      | (inr err, (s, tw)) => ((sb_report s, Some err), cleanup tw)
      | (inl _, (s, tw)) =>
          match deliverScrub (sb_report s) (sb_staged s) tw with
          | (inl (Some err), tw) => ((sb_report s, Some err), cleanup tw)
          | (inr err, (t, w)) =>
              ((sb_report s, Some err), cleanup (set_pending t (Some (mkPending pendingIntegrity (tk_sessionID t)
                 (ir_Generation (sb_report s)) zero_report (cloneEvents (sb_allEvents s)) [] []
                 (Some (sb_report s)))), w))
          | (inl None, (t, w)) => ((sb_report s, None), cleanup (commitScrub (sb_report s) t, w))
          end
      end
  end.

(** The part under the two locks, after the check that the tracker is not closed. *)
Definition scrubLocked (check : FileState → M W IntegrityResult) : TW → (IntegrityReport * option error) * TW := λ '(t, w),
  match tk_pending t with
  | None => newScrub check (t, w)
  | Some p =>
      match pg_kind p with
      | pendingIntegrity => resumePendingIntegrity config (t, w)
      | pendingReconcile =>
          match resumePending config ctx clock p (t, w) with
          | ((_, Some err), tw) => ((zero_integrity_report, Some err), tw)
          | ((_, None), tw) => newScrub check tw
          end
      end
  end.

Definition Scrub : TW → (IntegrityReport * option error) * TW := λ '(t, w),
  match cf_Integrity config with
  | None => ((zero_integrity_report, Some (Sentinel ErrNoIntegrity)), (t, w))
  | Some check =>
      if tk_closed t then ((zero_integrity_report, Some (Sentinel ErrClosed)), (t, w)) else scrubLocked check (t, w)
  end.
End scrub.

(** ** What a scrub records *)

Definition corrupt (e : Event) : Prop :=
  ev_Kind e = EventCorrupt ∧ ev_Source e = SourceIntegrity ∧
  ∃ st, ev_After e = Some st ∧ ev_Path e = fs_Path st ∧ fs_Type st = FileTypeRegular.

(** The report of a list of corruption events. *)
Definition scrub_report (limit g : Z) (events : list Event) (r : IntegrityReport) : Prop :=
  ir_Generation r = g ∧ ir_Events r = take (Z.to_nat limit) events ∧
  ir_Corrupt r = u64 (Z.of_nat (length events)) ∧
  u64 (ir_EventsTruncated r) = u64 (Z.of_nat (length events - Z.to_nat limit)) ∧
  ir_Scanned r = u64 (ir_Healthy r + ir_Corrupt r).

Lemma u64_idemp z : u64 (u64 z) = u64 z.
Proof. unfold u64. by rewrite Z.mod_mod. Qed.

Lemma scrub_report_healthy limit g events r all docs :
  scrub_report limit g events r →
  scrub_report limit g events (sb_report (inc_ir_Healthy (inc_ir_Scanned (mkScrub r all docs)))).
Proof.
  destruct r. unfold scrub_report. simpl. intros (? & ? & ? & ? & ->). split_and!; try done.
  rewrite !u64_add_idemp. f_equal. lia.
Qed.

Lemma scrub_report_corrupt limit g events r e all docs :
  (0 ≤ limit)%Z → scrub_report limit g events r →
  scrub_report limit g (events ++ [e]) (sb_report (recordCorrupt limit e (inc_ir_Scanned (mkScrub r all docs)))).
Proof.
  intros Hl. destruct r as [g' st d sc he co ev tr]. unfold scrub_report. simpl. intros (-> & -> & -> & Htr & ->).
  rewrite length_take, length_app. cbn [length].
  assert (u64 (u64 (he + u64 (Z.of_nat (length events))) + 1) =
    u64 (he + u64 (u64 (Z.of_nat (length events)) + 1))) as Hsc.
  { unfold u64. rewrite ?Zplus_mod_idemp_l, ?Zplus_mod_idemp_r, (Z.add_assoc he).
    by rewrite <-(Zplus_mod_idemp_l (he + _)), Zplus_mod_idemp_r, Zplus_mod_idemp_l. }
  assert (u64 (u64 (Z.of_nat (length events)) + 1) = u64 (Z.of_nat (length events + 1))) as Hco.
  { rewrite u64_add_idemp. f_equal. lia. }
  case_decide as Hd; simpl.
  - split_and!; [done| |done| |done].
    + rewrite take_app, (take_ge events) by lia. f_equal. by rewrite (take_ge [e]) by (simpl; lia).
    + rewrite Htr. do 2 f_equal. lia.
  - split_and!; [done| |done| |done].
    + rewrite take_app_le by lia. done.
    + rewrite u64_idemp. rewrite <-u64_add_idemp, Htr, u64_add_idemp. f_equal. lia.
Qed.

Section lemmas.
Context {W H St : Type} `{FileSystem W H} `{SnapshotStore St}.
Context (config : Config W St) (ctx : M W ()) (clock : W → Z * W) (fuel : nat) (stage_io : stageOp → M W ()).

Abbreviation SW := (scrub * (Tracker St * W))%type.

(** The locals between two entries, and after a failure. *)
Record scrub_inv (t0 : Tracker St) (g : Z) (x : SW) : Prop := {
  sv_tracker : x.2.1 = t0;
  sv_corrupt : Forall corrupt (sb_allEvents x.1);
  sv_report : scrub_report (cf_ReportEventLimit config) g (sb_allEvents x.1) (sb_report x.1);
  sv_staged : match cf_ChangeSink config with
              | None => sb_staged x.1 = []
              | Some _ => Forall2 (λ e d, encodeStagedEvent e = inl d) (sb_allEvents x.1) (sb_staged x.1)
              end
}.

Record scrub_failed (t0 : Tracker St) (g : Z) (x : SW) : Prop := {
  sf_tracker : x.2.1 = t0;
  sf_report : ∃ events, Forall corrupt events ∧ scrub_report (cf_ReportEventLimit config) g events (sb_report x.1)
}.

Lemma scrub_inv_failed t0 g x : scrub_inv t0 g x → scrub_failed t0 g x.
Proof. intros [? ? ? ?]. split; [done|]. by exists (sb_allEvents x.1). Qed.

Lemma scrub_inv_world {A} t0 g (m : M W A) : preserves (scrub_inv t0 g) (onSnd (onSnd m)).
Proof. intros [s [t w]] Hs. unfold onSnd. destruct (m w) as [r w']. by destruct Hs. Qed.

Lemma checkEntry_keeps t0 g check expected entry :
  (0 ≤ cf_ReportEventLimit config)%Z →
  keeps (scrub_inv t0 g) (scrub_failed t0 g) (checkEntry config clock stage_io check expected entry).
Proof.
  intros Hl [s [t w]] Hs. unfold checkEntry. cbv zeta. case_decide as Hty; [done|].
  set (state := stateFromEntry entry) in *. rewrite bind_run. unfold wrapping at 1, onSnd at 1 2.
  destruct (check state w) as [[result|e] w1]; [|by apply scrub_inv_failed; destruct Hs].
  destruct Hs as [Ht Hc Hr Hd]. simpl in *. subst t. rewrite bind_run. cbn [updFst].
  destruct s as [r all docs]. cbn [sb_report sb_allEvents sb_staged] in *.
  destruct (verdict expected state result).
  { cbn [updFst]. pose proof (scrub_report_healthy _ _ _ _ all docs Hr) as Hr'. destruct r. split; done. }
  rewrite bind_run. unfold onSnd at 1, time_Now. destruct (clock w1) as [z w2].
  set (ev := corruptEvent state z). pose proof (scrub_report_corrupt _ _ _ _ ev all docs Hl Hr) as Hr'.
  assert (corrupt ev) as Hev.
  { split; [done|split; [done|]]. by exists state. }
  rewrite bind_run. cbn [updFst]. set (s1 := recordCorrupt _ ev _) in *.
  assert (sb_allEvents s1 = all ∧ sb_staged s1 = docs) as [Ha1 Hd1].
  { unfold s1. destruct r. simpl. by case_decide. }
  assert (∀ w3, scrub_failed t0 g (s1, (t0, w3))) as Hfail.
  { intros w3. split; [done|]. exists (all ++ [ev]). split; [by apply Forall_app_2; [|constructor]|done]. }
  rewrite bind_run. unfold stageEvent. destruct (cf_ChangeSink config) as [sink|] eqn:Esink.
  - rewrite bind_run. destruct (encodeStagedEvent ev) as [doc|e] eqn:Eenc; [|apply Hfail]. cbn [lift mret M_ret].
    rewrite bind_run. unfold onSnd at 1 2. destruct (stage_io EncodeWrite w2) as [[[]|e] w3]; [|apply Hfail].
    cbn [updFst]. split; simpl; rewrite ?Esink, ?Ha1, ?Hd1.
    + done.
    + by apply Forall_app_2; [|constructor].
    + done.
    + apply Forall2_app; [done|by constructor].
  - cbn [mret M_ret updFst]. split; simpl; rewrite ?Esink, ?Ha1, ?Hd1; [done| |done|done].
    by apply Forall_app_2; [|constructor].
Qed.

Lemma scrub_report_duration limit g events r z :
  scrub_report limit g events r → scrub_report limit g events (set_ir_Duration z r).
Proof. by destruct r. Qed.

Lemma scrub_Scan t0 g check expected root :
  (0 ≤ cf_ReportEventLimit config)%Z → IsAbs root = true →
  keeps (scrub_inv t0 g) (scrub_failed t0 g)
    (Scan (theScanner config) (onSnd (onSnd ctx)) (checkEntry config clock stage_io check expected) fuel root).
Proof.
  intros Hl Hr. apply Scan_keeps; [|done]. split.
  - apply scrub_inv_failed.
  - apply scrub_inv_world.
  - intros p. apply (scrub_inv_world _ _ (os_Lstat p)).
  - intros p. apply (scrub_inv_world _ _ (os_Stat p)).
  - intros p. apply (scrub_inv_world _ _ (os_Open p)).
  - intros h n. apply (scrub_inv_world _ _ (h_ReadDir h n)).
  - intros e _. by apply checkEntry_keeps.
Qed.

Lemma scrubBody_keeps t0 g check :
  (0 ≤ cf_ReportEventLimit config)%Z → IsAbs (tk_root t0) = true →
  keeps (scrub_inv t0 g) (scrub_failed t0 g) (scrubBody config ctx clock fuel stage_io check).
Proof.
  intros Hl Hr [s [t w]] Hs. pose proof (sv_tracker _ _ _ Hs) as Ht. simpl in Ht. subst t.
  unfold scrubBody. rewrite bind_run. unfold onSnd at 1. rewrite bind_run. cbn [gets fst].
  pose proof (loadExpected_preserves config ctx (λ t, t = t0) [tk_root t0] (t0, w) eq_refl) as Hx.
  destruct (loadExpectedScopes config ctx [tk_root t0] (t0, w)) as [[expected|e] [t1 w1]]; simpl in Hx; subst t1.
  2: { apply scrub_inv_failed. by destruct Hs. }
  rewrite bind_run. cbn [gets snd fst]. rewrite bind_run. unfold try.
  pose proof (scrub_Scan t0 g check expected (tk_root t0) Hl Hr (s, (t0, w1)) ltac:(by destruct Hs)) as Hscan.
  destruct (Scan _ _ _ _ _ _) as [r [s2 [t2 w2]]]. rewrite bind_run. unfold onSnd at 1, time_Now.
  destruct (clock w2) as [z w3]. rewrite bind_run. cbn [updFst].
  destruct r as [[[]|]|e]; cbn [mret M_ret throw].
  - destruct Hscan as [? ? ? ?]. split; simpl in *; try done. by apply scrub_report_duration.
  - destruct Hscan as [? ? ? ?]. split; simpl in *; [done|]. eexists. split; [done|]. by apply scrub_report_duration.
  - destruct Hscan as [? (evs & ? & ?)]. split; simpl in *; [done|]. exists evs. split; [done|]. by apply scrub_report_duration.
Qed.

Lemma deliverScrub_tracker report docs t w : (deliverScrub config stage_io report docs (t, w)).2.1 = t.
Proof.
  unfold deliverScrub. destruct (cf_ChangeSink config); [|done]. destruct (stage_io CloseStage w) as [[[]|] w1]; [|done].
  destruct (stage_io OpenStage w1) as [[[]|] w2]; [|done]. by destruct (deliverLog _ _ _ _) as [r [b w3]].
Qed.

Lemma cleanup_tracker t w t' w' : cleanup config stage_io (t, w) = (t', w') → t' = t.
Proof. unfold cleanup. by destruct (cf_ChangeSink config); intros Heq; injection Heq as <-. Qed.
End lemmas.

(** ** A scrub of an unchanging tree *)

(** The fingerprint expected of a file; empty when there is none. *)
Definition expected_fingerprint (expected : option (gmap string Expected)) (path : string) : list Byte.byte :=
  match expected with
  | Some m => match m !! path with Some entry => ex_Fingerprint entry | None => [] end
  | None => []
  end.

(** The checker accepts the file and finds the expected fingerprint. *)
Definition intact (expected : option (gmap string Expected)) (st : FileState) (r : IntegrityResult) : Prop :=
  in_Valid r = true ∧
  (expected_fingerprint expected (fs_Path st) = [] ∨ in_Fingerprint r = expected_fingerprint expected (fs_Path st)).

#[global] Instance intact_dec expected st r : Decision (intact expected st r).
Proof. apply _. Defined.

Lemma verdict_intact expected st r : verdict expected st r = bool_decide (intact expected st r).
Proof.
  apply eq_bool_prop_intro. rewrite bool_decide_spec. unfold verdict, intact, expected_fingerprint.
  destruct expected as [m|]; cbn; [destruct (m !! fs_Path st) as [entry|]; [case_decide as Hd|]|];
    destruct (in_Valid r); cbn [andb Is_true]; try case_bool_decide; naive_solver.
Qed.

(** The files a scrub checks, and those among them that are not intact when the
    checker answers [c]. *)
Definition scrubbed (es : list Entry) : list FileState :=
  filter (λ st, fs_Type st = FileTypeRegular) (stateFromEntry <$> es).
Definition rejected (expected : option (gmap string Expected)) (c : FileState → IntegrityResult) (es : list Entry) :
    list FileState :=
  filter (λ st, ¬ intact expected st (c st)) (scrubbed es).

(** The event of a rejected file. *)
Definition reports (st : FileState) (e : Event) : Prop :=
  ∃ z, e = mkEvent EventCorrupt (fs_Path st) "" None (Some st) SourceIntegrity z.

Section tree.
Context {W St : Type} `{SnapshotStore St} (fs t0 : tree) (FS : FileSystem W (list string)) (Hfs : behaves_as fs FS).
Context (config : Config W St) (ctx : M W ()) (clock : W → Z * W) (fuel : nat) (stage_io : stageOp → M W ()).
Context (check : FileState → M W IntegrityResult) (c : FileState → IntegrityResult).
Context (Hcheck : ∀ st w, ∃ w', check st w = (inl (c st), w')) (Hsink : cf_ChangeSink config = None).

Lemma checkEntry_run expected entry s (t : Tracker St) w :
  ∃ evs s' w',
    checkEntry config clock stage_io check expected entry (s, (t, w)) = (inl (), (s', (t, w'))) ∧
    Forall2 reports (rejected expected c [entry]) evs ∧ sb_allEvents s' = sb_allEvents s ++ evs ∧
    u64 (ir_Scanned (sb_report s')) = u64 (ir_Scanned (sb_report s) + Z.of_nat (length (scrubbed [entry]))).
Proof.
  unfold checkEntry, rejected, scrubbed. cbv zeta. cbn [fmap list_fmap].
  set (state := stateFromEntry entry). destruct s as [[g st d sc he co ev tr] all docs].
  case_decide as Hty; [rewrite filter_cons_False by done|rewrite (filter_cons_True _ state []) by (by destruct (decide (fs_Type state = FileTypeRegular)))].
  { exists [], (mkScrub (mkIntegrityReport g st d sc he co ev tr) all docs), w. cbn.
    split; [done|]. split; [constructor|]. split; [by rewrite app_nil_r|]. f_equal. lia. }
  cbn [filter list_filter]. rewrite bind_run. unfold wrapping, onSnd at 1 2.
  destruct (Hcheck state w) as [w1 ->]. rewrite bind_run. cbn [updFst inc_ir_Scanned].
  rewrite verdict_intact. case_bool_decide as Hin.
  { eexists [], _, w1. split; [reflexivity|]. rewrite decide_False by (intros Hnot; by apply Hnot). split; [constructor|].
    cbn. split; [by rewrite app_nil_r|]. unfold u64. by rewrite Zmod_mod. }
  rewrite decide_True by done. rewrite bind_run. unfold onSnd at 1, time_Now. destruct (clock w1) as [z w2].
  rewrite bind_run. cbn [updFst]. rewrite bind_run. unfold stageEvent. rewrite Hsink. cbn [mret M_ret updFst].
  eexists [_], _, w2. split; [reflexivity|]. split; [constructor; [by exists z|constructor]|].
  unfold recordCorrupt. case_decide; cbn; (split; [done|]; unfold u64; by rewrite Zmod_mod).
Qed.

Lemma forM_checkEntry expected es s (t : Tracker St) w :
  ∃ evs s' w',
    forM es (checkEntry config clock stage_io check expected) (s, (t, w)) = (inl (), (s', (t, w'))) ∧
    Forall2 reports (rejected expected c es) evs ∧ sb_allEvents s' = sb_allEvents s ++ evs ∧
    u64 (ir_Scanned (sb_report s')) = u64 (ir_Scanned (sb_report s) + Z.of_nat (length (scrubbed es))).
Proof.
  revert s w. induction es as [|e es IH]; intros s w.
  { exists [], s, w. split; [done|]. split; [constructor|]. split; [by rewrite app_nil_r|]. f_equal. cbn. lia. }
  destruct (checkEntry_run expected e s t w) as (ev1 & s1 & w1 & E1 & F1 & A1 & N1).
  destruct (IH s1 w1) as (ev2 & s2 & w2 & E2 & F2 & A2 & N2).
  assert (scrubbed (e :: es) = scrubbed [e] ++ scrubbed es) as Hs by (unfold scrubbed; by rewrite <-filter_app).
  exists (ev1 ++ ev2), s2, w2. split; [cbn [forM]; by rewrite bind_run, E1, E2|].
  split; [unfold rejected in *; rewrite Hs, filter_app; by apply Forall2_app|].
  split; [by rewrite A2, A1, app_assoc|].
  rewrite N2, <-u64_add_idemp, N1, u64_add_idemp, Hs, length_app. f_equal. lia.
Qed.
Lemma scrubBody_run expected cs (t : Tracker St) s w :
  ctx_live ctx → cf_SymlinkPolicy config = IgnoreSymlinks ∨ cf_SymlinkPolicy config = ReportSymlinks →
  tree_wf t0 → find fs cs = Some t0 → Forall good cs → mode_IsDir (fi_Mode (tree_info t0)) = true →
  2 * tree_size t0 ≤ fuel →
  (∀ w, ∃ w', loadExpectedScopes config ctx [abs cs] (t, w) = (inl expected, (t, w'))) → tk_root t = abs cs →
  ∃ evs s' w',
    scrubBody (H := list string) config ctx clock fuel stage_io check (s, (t, w)) = (inl (), (s', (t, w'))) ∧
    Forall2 reports (rejected expected c (scan_spec (theScanner config) (abs cs) t0)) evs ∧
    sb_allEvents s' = sb_allEvents s ++ evs ∧
    u64 (ir_Scanned (sb_report s')) = u64 (ir_Scanned (sb_report s) +
      Z.of_nat (length (scrubbed (scan_spec (theScanner config) (abs cs) t0)))).
Proof.
  intros Hctx Hpol Hwf Hfind Hgood Hdir Hfuel Hexp Hroot. unfold scrubBody. rewrite bind_run. unfold onSnd at 1.
  rewrite bind_run. cbn [gets fst]. rewrite Hroot. destruct (Hexp w) as [w1 ->].
  rewrite bind_run. cbn [gets snd fst]. rewrite Hroot, bind_run. unfold try.
  rewrite (Scan_tree fs (theScanner config) (onSnd (onSnd ctx)) _) with (t := t0) (cs := cs); try done.
  - rewrite bind_run.
    destruct (forM_checkEntry expected
      (scan_spec (theScanner config) (abs cs) t0) s t w1) as (evs & s' & w2 & -> & HF & Hall & Hn).
    cbn [mret M_ret]. rewrite bind_run. unfold onSnd at 1, time_Now. destruct (clock w2) as [z w3].
    rewrite bind_run. cbn [updFst mret M_ret]. eexists evs, _, w3. split; [reflexivity|]. split; [done|].
    cbn [sb_allEvents sb_report]. split; [done|]. by destruct (sb_report s').
  - intros [s1 [t1 w2]]. unfold onSnd. by rewrite Hctx.
  - apply (lift_behaves _ _ (lift_behaves _ _ Hfs)).
  - cbn [theScanner sn_SymlinkPolicy]. unfold scannerPolicy. destruct Hpol as [->| ->]; [by left|by right].
Qed.
End tree.

(** ** Properties *)

Section properties.
Context {W H St : Type} `{FileSystem W H} `{SnapshotStore St}.
Context (config : Config W St) (ctx : M W ()) (clock : W → Z * W) (fuel : nat) (stage_io : stageOp → M W ()).

Lemma commitScrub_fields report (t : Tracker St) :
  tk_store (commitScrub config report t) = tk_store t ∧ tk_generation (commitScrub config report t) = ir_Generation report ∧
  tk_pending (commitScrub config report t) = tk_pending t.
Proof.
  unfold commitScrub. destruct (sendEvents_fields config (ir_Events report)
    (set_generation (set_stats t (addIntegrityStats (tk_stats t) report)) (ir_Generation report))) as (-> & -> & -> & _).
  by destruct t.
Qed.

End properties.

(** C11: a scrub of an unchanging tree is exact.  Without a sink, on every file
    system that answers as the tree and for every checker that answers, the scrub
    succeeds; it has checked exactly the regular files that the scan admits, and
    the corruption events are those of the files that the checker rejects or whose
    fingerprint is not the expected one, in the order of the scan. *)
Theorem scrub_tree_exact {W St : Type} `{SnapshotStore St} (fs t0 : tree) (FS : FileSystem W (list string))
    (config : Config W St) (ctx : M W ()) (clock : W → Z * W) (fuel : nat) (stage_io : stageOp → M W ())
    (check : FileState → M W IntegrityResult) (c : FileState → IntegrityResult)
    (expected : option (gmap string Expected)) (cs : list string) (t : Tracker St) (w : W) :
  behaves_as fs FS → ctx_live ctx →
  cf_SymlinkPolicy config = IgnoreSymlinks ∨ cf_SymlinkPolicy config = ReportSymlinks →
  tree_wf t0 → find fs cs = Some t0 → Forall good cs → mode_IsDir (fi_Mode (tree_info t0)) = true →
  2 * tree_size t0 ≤ fuel → (0 ≤ cf_ReportEventLimit config)%Z →
  cf_Integrity config = Some check → (∀ st w, ∃ w', check st w = (inl (c st), w')) →
  cf_ChangeSink config = None → (∀ w, ∃ w', loadExpectedScopes config ctx [abs cs] (t, w) = (inl expected, (t, w'))) →
  tk_root t = abs cs → tk_closed t = false → tk_pending t = None →
  ∃ r t' w' events,
    Scrub (H := list string) config ctx clock fuel stage_io (t, w) = ((r, None), (t', w')) ∧
    Forall2 reports (rejected expected c (scan_spec (theScanner config) (abs cs) t0)) events ∧
    scrub_report (cf_ReportEventLimit config) (u64 (tk_generation t + 1)) events r ∧
    ir_Scanned r = u64 (Z.of_nat (length (scrubbed (scan_spec (theScanner config) (abs cs) t0)))) ∧
    tk_store t' = tk_store t ∧ tk_generation t' = u64 (tk_generation t + 1).
Proof.
  intros Hfs Hctx Hpol Hwf Hfind Hgood Hdir Hfuel Hl Hi Hcheck Hsink Hexp Hroot Hcl Hp.
  unfold Scrub, scrubLocked. rewrite Hi, Hcl, Hp. unfold newScrub. destruct (clock w) as [started w1]. rewrite Hsink.
  set (g := u64 (tk_generation t + 1)). set (s0 := mkScrub (mkIntegrityReport g started 0 0 0 0 [] 0) [] []).
  assert (scrub_inv config t g (s0, (t, w1))) as Hinit.
  { split; [done|constructor| |by rewrite Hsink]. cbn [fst s0 sb_allEvents sb_report].
    split_and!; cbn; by rewrite ?take_nil. }
  destruct (scrubBody_run fs t0 FS Hfs config ctx clock fuel stage_io check c Hcheck Hsink expected cs t s0 w1)
    as (evs & s' & w2 & Eb & HF & Hall & Hn); [done..|].
  pose proof (scrubBody_keeps config ctx clock fuel stage_io t g check Hl
    ltac:(rewrite Hroot; by apply clean_abs_abs) (s0, (t, w1)) Hinit) as Hb.
  rewrite Eb in *. destruct Hb as [_ _ Hr _]. cbn [fst] in Hr. rewrite Hall in Hr. simpl in Hr, Hn.
  unfold deliverScrub, cleanup. rewrite Hsink.
  destruct (commitScrub_fields config (sb_report s') t) as (Hs & Hg & _).
  exists (sb_report s'), (commitScrub config (sb_report s') t), w2, evs. split; [done|]. split; [done|]. split; [done|].
  pose proof Hr as (Hgen & _ & _ & _ & Hsc). split; [|by rewrite Hs, Hg].
  rewrite Z.add_0_l in Hn. by rewrite <-Hn, Hsc, u64_idemp.
Qed.

(** A scrub of the demonstration tree whose checker rejects [/data/b], with a sink
    that refuses the first batch. *)
Definition demo_check (state : FileState) : M demo_world IntegrityResult :=
  mret (mkIntegrityResult (negb (bool_decide (fs_Path state = "/data/b"))) [] "").
Definition demo_scrub_config : Config demo_world MemoryStore :=
  mkConfig "/data" true None ExpectedRegularFiles (Some demo_sink) (Some demo_check) None None IgnoreSymlinks
    AllowHardlinks 1 0 16 100 2.
Definition demo_Scrub := @Scrub demo_world (list string) MemoryStore (TreeFS demo_fs) _
  demo_scrub_config (mret ()) demo_clock 20 (λ _, mret ()).


Definition quiet_scrub_config : Config () MemoryStore :=
  mkConfig "/data" true None ExpectedRegularFiles None (Some (λ st, mret (mkIntegrityResult (bool_decide (fs_Path st ≠ "/data/b")) [] "")))
    None None IgnoreSymlinks AllowHardlinks 1 0 16 100 2.

(** The tree holds two regular files, of which the checker rejects one. *)
Lemma scrub_tree_exact_witness :
  ∃ r t' w' events,
    @Scrub () (list string) MemoryStore (TreeFS demo_fs) _ quiet_scrub_config (mret ()) demo_clock 20 (λ _, mret ())
      (demo_tracker, ()) = ((r, None), (t', w')) ∧
    Forall2 reports [stateFromEntry (entry_of "/data/b" (demo_info 420 3))] events ∧
    scrub_report 100 8 events r ∧ ir_Scanned r = 2%Z ∧ tk_store t' = tk_store demo_tracker ∧ tk_generation t' = 8%Z.
Proof.
  destruct (scrub_tree_exact demo_fs demo_tree (TreeFS demo_fs) quiet_scrub_config (mret ()) demo_clock 20 (λ _, mret ())
    (λ st, mret (mkIntegrityResult (bool_decide (fs_Path st ≠ "/data/b")) [] ""))
    (λ st, mkIntegrityResult (bool_decide (fs_Path st ≠ "/data/b")) [] "") None ["data"] demo_tracker ())
    as (r & t' & w' & events & H1 & H2 & H3 & H4 & H5 & H6);
    [apply TreeFS_behaves|intros ?; reflexivity|by left|exact demo_tree_wf|reflexivity|by_decide|reflexivity|vm_compute; lia
    |vm_compute; congruence|reflexivity|intros st w; exists w; reflexivity|reflexivity|intros w; exists w; reflexivity
    |reflexivity|reflexivity|reflexivity|].
  exists r, t', w', events. split; [exact H1|]. split; [|split; [exact H3|split; [exact H4|split; [exact H5|exact H6]]]].
  assert (rejected None (λ st, mkIntegrityResult (bool_decide (fs_Path st ≠ "/data/b")) [] "")
    (scan_spec (theScanner quiet_scrub_config) "/data" demo_tree) = [stateFromEntry (entry_of "/data/b" (demo_info 420 3))])
    as <- by (vm_compute; reflexivity).
  exact H2.
Defined.
