(* ===== verification/Locked.v ===== *)
(** * What the sections under [reconcileMu] leave alone

    [reconcileLocked], [scrubLocked] and the Bolt fast path change the tracker through
    a few setters and [sendEvent] only.  [tracker_closed] lists them: an invariant of
    the tracker that is closed under them holds after every such section, whether it
    succeeds or fails. *)

From S2P Require Import Prelude Frame GoPath Types Delivery Store BoltStore Scanner WatchTree Tracker Expected Scopes Reconcile.
From S2P Require Import ReconcileSpec ReconcileBolt ReconcileBoltSpec Integrity.

Record tracker_closed {W St} (config : Config W St) (J : Tracker St → Prop) : Prop := {
  tc_root t : J t → clean_abs (tk_root t);
  tc_watchTree t wt : J t → J (set_watchTree t wt);
  tc_store t s : J t → J (set_store t s);
  tc_pending t p : J t → J (set_pending t p);
  tc_stats t x : J t → J (set_stats t x);
  tc_generation t g : J t → J (set_generation t g);
  tc_state t x : J t → J (set_state_field t x);
  tc_send t e : J t → J (sendEvent (cf_EventBuffer config) t e)
}.
Arguments tc_root {_ _ _ _} _.
Arguments tc_watchTree {_ _ _ _} _.
Arguments tc_store {_ _ _ _} _.
Arguments tc_pending {_ _ _ _} _.
Arguments tc_stats {_ _ _ _} _.
Arguments tc_generation {_ _ _ _} _.
Arguments tc_state {_ _ _ _} _.
Arguments tc_send {_ _ _ _} _.

Section closed.
Context {W St : Type} {config : Config W St} {J : Tracker St → Prop} (HJ : tracker_closed config J).

Lemma tc_sends evs t : J t → J (foldl (sendEvent (cf_EventBuffer config)) t evs).
Proof. revert t. induction evs as [|e evs IH]; intros t Ht; [done|]. by apply IH, (tc_send HJ). Qed.

Lemma tc_setState t x : J t → J (setState t x).
Proof. intros Ht. unfold setState. destruct (tk_closed t); [done|]. by apply (tc_state HJ). Qed.

Lemma tc_markDirty t : J t → J (markDirty t).
Proof. intros Ht. unfold markDirty. repeat case_match; try done; by apply (tc_state HJ). Qed.

Lemma tc_consistent t : J t → J (setConsistentState t).
Proof.
  intros Ht. unfold setConsistentState. repeat case_match; try done; by apply (tc_state HJ).
Qed.

Lemma tc_finished t r : J t → J (finished config t r).
Proof. intros Ht. by apply tc_sends, tc_consistent, (tc_generation HJ), (tc_stats HJ). Qed.
End closed.

(** ** Reconciliation *)

Section reconcile.
Context {W H St : Type} `{FileSystem W H} `{SnapshotStoreLaws St}.
Context (config : Config W St) (ctx : M W ()) (clock : W → Z * W).
Context (backend_Add backend_Remove : string → M W ()) (fuel : nat).
Context (J : Tracker St → Prop) (HJ : tracker_closed config J).

Abbreviation TW := (Tracker St * W)%type.
Abbreviation TI := (λ s : TW, J s.1).

Lemma TI_onStore op : preserves TI (onStore op).
Proof. intros [t w] Ht. unfold onStore. destruct (op (tk_store t, w)) as [r [s w']]. by apply (tc_store HJ). Qed.

Lemma TI_apply wrap puts deletes : preserves TI (applySnapshot ctx wrap puts deletes).
Proof.
  unfold applySnapshot, in_context. apply preserves_bind; [frame|intros t].
  frame; try apply TI_onStore; apply preserves_forM; intros; destruct wrap; try apply preserves_wrapping; apply TI_onStore.
Qed.

Lemma TI_deliver : preserves TI (deliverPending config).
Proof. intros [t w] Ht. by rewrite (deliverPending_core config t w). Qed.

Lemma TI_journal l : preserves TI (journal config l).
Proof.
  unfold journal. destruct (cf_ChangeSink config); [|frame].
  apply preserves_bind; [apply preserves_updFst; intros t w; apply (tc_pending HJ)|intros _; apply TI_deliver].
Qed.

Lemma body_closed scopes : Forall clean_abs scopes →
  preserves (LI (λ _, J)) (reconcileBody config ctx clock backend_Add backend_Remove fuel scopes).
Proof.
  intros Hsc. unfold reconcileBody. apply preserves_bind; [|intros expected].
  { intros s Hs. rewrite observe_split. revert s Hs. apply preserves_bind.
    - unfold loadPrevious. apply preserves_forM. intros sc _. apply preserves_wrapping, preserves_bind; [frame|].
      intros t. apply store_Walk_frame; [apply LI_world|]. intros st. by apply LI_locals.
    - intros _. apply observe_rest_preserves; [|done]. split; try done. intros l t wt. apply (tc_watchTree HJ). }
  apply preserves_bind; [|intros _].
  { intros [l [t w]] Ht. destruct (compareStates_run config clock expected l t w) as (evs & w' & _ & ->). exact Ht. }
  apply preserves_bind; [frame|intros l].
  apply preserves_bind; [apply preserves_onSnd; intros ?; apply TI_journal|intros _].
  apply preserves_bind; [apply preserves_onSnd; intros ?; apply TI_apply|intros _].
  apply preserves_bind; [apply preserves_onSnd; intros ?; apply preserves_updFst; intros t w; apply (tc_pending HJ)|intros _].
  intros [l' [t w]] Ht. destruct (finishReport_run config clock expected l' t w) as (d & w' & ->). by apply (tc_finished HJ).
Qed.

Context (fast : option (ReconcileReport → TW → (ReconcileReport * option error) * TW)).
Context (Hfast : ∀ f, fast = Some f → ∀ rep t w, J t → J (f rep (t, w)).2.1).

Lemma newGeneration_closed requested t w :
  J t → J (newGeneration config ctx clock backend_Add backend_Remove fuel fast requested (t, w)).2.1.
Proof.
  intros Ht. unfold newGeneration. pose proof (tc_setState HJ t StateReconciling Ht) as H1'.
  set (t1 := setState t StateReconciling) in *. destruct (clock w) as [started w1].
  pose proof (collapse_clean _ requested (tc_root HJ _ H1')) as Hsc.
  assert (J (match reconcileBody config ctx clock backend_Add backend_Remove fuel (collapseScopes (tk_root t1) requested)
    (mkLocals (mkReport (u64 (tk_generation t1 + 1)) started 0 0 0 0 0 0 0 0 0 0 0 0 [] 0) ∅ ∅ [] {[tk_root t1]} [], (t1, w1))
    with (inr err, (l, tw)) => fail clock l err tw | (inl _, (l, tw)) => ((lc_report l, None), tw) end).2.1) as Hbody.
  { pose proof (body_closed _ Hsc (mkLocals (mkReport (u64 (tk_generation t1 + 1)) started 0 0 0 0 0 0 0 0 0 0 0 0 [] 0)
      ∅ ∅ [] {[tk_root t1]} [], (t1, w1)) H1') as Hb.
    destruct (reconcileBody _ _ _ _ _ _ _ _) as [[[]|err] [l [t2 w2]]]; [done|]. unfold fail.
    destruct (clock w2). by apply (tc_markDirty HJ). }
  destruct (collapseScopes (tk_root t1) requested) as [|sc scs].
  { destruct (clock w1). by apply (tc_consistent HJ), (tc_generation HJ). }
  destruct fast as [f|] eqn:Ef; [|done]. destruct (cf_ChangeSink config); [done|]. case_decide; [|done]. by apply Hfast.
Qed.

Lemma resumePending_closed p t w : J t → J (resumePending config ctx clock p (t, w)).2.1.
Proof.
  intros Ht. unfold resumePending, stamp. destruct (clock w) as [started w1].
  assert (preserves TI (deliverPending config ;; applySnapshot ctx false (pg_puts p) (pg_deletes p))) as Hp.
  { apply preserves_bind; [apply TI_deliver|intros _; apply TI_apply]. }
  specialize (Hp (t, w1) Ht).
  destruct ((deliverPending config ;; applySnapshot ctx false (pg_puts p) (pg_deletes p)) (t, w1)) as [[[]|err] [t2 w2]]; destruct (clock w2) as [z w3]; [|done].
  by apply (tc_consistent HJ), (tc_stats HJ), (tc_generation HJ), (tc_pending HJ).
Qed.

Lemma resumeIntegrity_closed t w : J t → J (resumePendingIntegrity config (t, w)).2.1.
Proof.
  intros Ht. unfold resumePendingIntegrity. destruct (tk_pending t) as [p|]; [|done].
  destruct (pg_integrity p) as [report|]; [|done]. destruct (deliver _ _ _ _ _ w) as [[[]|err] w1]; [|done].
  by apply (tc_sends HJ), (tc_stats HJ), (tc_generation HJ), (tc_pending HJ).
Qed.

Lemma reconcileLocked_closed requested t w :
  J t → J (reconcileLocked config ctx clock backend_Add backend_Remove fuel fast requested (t, w)).2.1.
Proof.
  intros Ht. unfold reconcileLocked. destruct (tk_pending t) as [p|]; [|by apply newGeneration_closed].
  destruct (pg_kind p); [by apply resumePending_closed|].
  pose proof (resumeIntegrity_closed t w Ht) as Hr.
  destruct (resumePendingIntegrity config (t, w)) as [[r [err|]] [t1 w1]]; [done|]. by apply newGeneration_closed.
Qed.

(** ** Scrubbing *)

Context (stage_io : stageOp → M W ()).

Abbreviation SI := (λ x : scrub * TW, J x.2.1).

Lemma SI_world {A} (m : M W A) : preserves SI (onSnd (onSnd m)).
Proof. intros [s [t w]] Hx. unfold onSnd. by destruct (m w). Qed.

Lemma SI_clock : preserves SI (onSnd (time_Now clock)).
Proof. intros [s [t w]] Hx. unfold onSnd, time_Now. by destruct (clock w). Qed.

Lemma SI_scrub f : preserves SI (updFst f).
Proof. by apply preserves_updFst. Qed.

Lemma SI_checkEntry check expected entry : preserves SI (checkEntry config clock stage_io check expected entry).
Proof.
  unfold checkEntry, stageEvent. cbv zeta.
  repeat first [frame_step | apply SI_world | apply SI_clock | apply SI_scrub].
Qed.

Lemma SI_Scan check expected root : IsAbs root = true →
  preserves SI (Scan (theScanner config) (onSnd (onSnd ctx)) (checkEntry config clock stage_io check expected) fuel root).
Proof.
  intros Hr. apply keeps_same, Scan_keeps; [|done].
  split; [done|apply SI_world|intros p; apply (SI_world (os_Lstat p))|intros p; apply (SI_world (os_Stat p))|
    intros p; apply (SI_world (os_Open p))|intros h n; apply (SI_world (h_ReadDir h n))|].
  intros e _. apply keeps_same, SI_checkEntry.
Qed.

Lemma SI_body check : preserves SI (scrubBody config ctx clock fuel stage_io check).
Proof.
  unfold scrubBody. apply preserves_bind; [|intros expected].
  { apply preserves_onSnd. intros s. apply preserves_bind; [frame|intros t]. apply loadExpected_preserves. }
  intros x Hx. assert (IsAbs (tk_root x.2.1) = true) as Hr by by destruct (tc_root HJ _ Hx).
  rewrite bind_run. cbn [gets]. revert x Hx Hr.
  assert (∀ root, IsAbs root = true → preserves SI (r ← try (Scan (theScanner config) (onSnd (onSnd ctx))
      (checkEntry config clock stage_io check expected) fuel root);
    z ← onSnd (time_Now clock);
    updFst (λ s, mkScrub (set_ir_Duration (z - ir_StartedAt (sb_report s)) (sb_report s)) (sb_allEvents s) (sb_staged s)) ;;
    match r with
    | inl (Some _) => mret ()
    | inl None => throw (Sentinel OutOfFuel)
    | inr err => throw (Wrapf "fsrecon: integrity scrub" err)
    end)) as Hrest.
  { intros root Hr. repeat first [apply SI_clock | apply SI_scrub | apply preserves_try, SI_Scan; done | frame_step]. }
  intros x Hx Hr. by apply Hrest.
Qed.

Lemma newScrub_closed check t w : J t → J (newScrub config ctx clock fuel stage_io check (t, w)).2.1.
Proof.
  intros Ht. unfold newScrub. destruct (clock w) as [started w1].
  destruct (match cf_ChangeSink config with None => _ | Some _ => _ end) as [[[]|e] w2]; [|done].
  pose proof (SI_body check (mkScrub (mkIntegrityReport (u64 (tk_generation t + 1)) started 0 0 0 0 [] 0) [] [], (t, w2)) Ht) as Hb.
  assert (∀ x : TW, (cleanup config stage_io x).1 = x.1) as Hcl.
  { intros [t' w']. unfold cleanup. by destruct (cf_ChangeSink config). }
  destruct (scrubBody _ _ _ _ _ _ _) as [[[]|err] [s [t3 w3]]]; cbn [snd fst] in *; [|by rewrite Hcl].
  pose proof (deliverScrub_tracker config stage_io (sb_report s) (sb_staged s) t3 w3) as Hd.
  destruct (deliverScrub _ _ _ _ _) as [[[err|]|err] [t4 w4]]; cbn [snd fst] in *; subst t4; rewrite Hcl; cbn [fst].
  - done.
  - by apply (tc_sends HJ), (tc_generation HJ), (tc_stats HJ).
  - by apply (tc_pending HJ).
Qed.

Lemma scrubLocked_closed check t w : J t → J (scrubLocked config ctx clock fuel stage_io check (t, w)).2.1.
Proof.
  intros Ht. unfold scrubLocked. destruct (tk_pending t) as [p|]; [|by apply newScrub_closed].
  destruct (pg_kind p); [|by apply resumeIntegrity_closed].
  pose proof (resumePending_closed p t w Ht) as Hr.
  destruct (resumePending config ctx clock p (t, w)) as [[r [err|]] [t1 w1]]; [done|]. by apply newScrub_closed.
Qed.
End reconcile.

(** ** The fast path *)

Section bolt.
Context {W H DB Bk Ix : Type} `{FileSystem W H} `{BoltDBLaws DB Bk} `{BoltIndexLaws Ix}.
Context (config : Config W (BoltStore DB)) (ctx : M W ()) (clock : W → Z * W).
Context (backend_Add backend_Remove : string → M W ()) (fuel : nat) (index_io : indexOp → M W ()).
Context (J : Tracker (BoltStore DB) → Prop) (HJ : tracker_closed config J).

(** The condition on [fast] above holds of the fast path. *)
Lemma fastPath_closed rep t w :
  J t → J (reconcileBoltLocked config ctx clock backend_Add backend_Remove fuel index_io rep (t, w)).2.1.
Proof.
  intros Ht. unfold reconcileBoltLocked.
  assert (∀ r e t' w', J t' → J (failBolt clock r e (t', w')).2.1) as Hf.
  { intros r e t' w' H'. unfold failBolt. destruct (clock w'). by apply (tc_markDirty HJ). }
  assert (∀ A (x : A * (Tracker (BoltStore DB) * W)), (closeIndex index_io x).2.1 = x.2.1) as Hcl by by intros A [a [? ?]].
  destruct (openIndex index_io w) as [[[]|err] w1]; [|by apply Hf].
  destruct (wrapping _ _ w1) as [[[]|err] w2]; [|rewrite Hcl; by apply Hf].
  unfold boltBody. rewrite bind_run.
  pose proof (I_prepare (Ix := Ix) config ctx clock backend_Add backend_Remove fuel index_io J) as Hp.
  specialize (Hp ltac:(intros t1 wt _; apply (tc_watchTree HJ)) ltac:(intros t1 H1'; by destruct (tc_root HJ _ H1'))).
  specialize (Hp (mkBoltLocals rep {[tk_root t]}, (ix_New, (t, w2))) Ht).
  destruct (boltPrepare _ _ _ _ _ _ _ _) as [[[]|err] [l [ix [t1 w3]]]]; cbn [snd fst] in Hp; [|rewrite Hcl; by apply Hf].
  pose proof (commit_run config ctx clock (l, (ix, (t1, w3)))) as Hcom.
  destruct ((wrapping _ _ ;; _) _) as [[[]|err] [l2 [ix2 [t2 w4]]]]; cbn [snd fst] in Hcom; rewrite Hcl.
  - destruct Hcom as (st' & d & _ & _ & _ & _ & ->). by apply (tc_finished HJ), (tc_store HJ).
  - subst t2. by apply Hf.
Qed.
End bolt.
