(* ===== verification/Checker.v ===== *)
(** * The SHA-256 checker: [SHA256Checker] of integrity.go

    [Check] reads a file in buffers of 128 KiB and hashes what it reads.  Opening,
    reading and closing the file are actions of the world, SHA-256 is a parameter
    with its streaming behaviour; the loop has a bound on the number of reads. *)

From S2P Require Import Prelude GoPath Types Diff Store Json Scanner Tracker Expected Integrity.

(** ** Definitions *)

Definition bufferSize : nat := Z.to_nat (128 * 1024).

Section checker.
Context {W F Hash : Type}.
Context (os_OpenFile : string → M W F) (file_Read : F → nat → M W (list Byte.byte * option error)) (file_Close : F → M W ()).
Context (sha256_New : Hash) (hash_Write : Hash → list Byte.byte → Hash + error) (hash_Sum : Hash → list Byte.byte).
Context (ctx : M W ()).

(** The loop; [None] when the bound is used up. *)
Fixpoint readLoop (fuel : nat) (file : F) (hash : Hash) : M W (option Hash) :=
  match fuel with
  | 0 => mret None
  | S fuel' =>
      ctx ;;
      '(data, readErr) ← file_Read file bufferSize;
      hash ← (if decide (data = []) then mret hash else lift (hash_Write hash data));
      match readErr with
      | Some err => if decide (err = EOF) then mret (Some hash) else throw err
      | None => readLoop fuel' file hash
      end
  end.

Definition Check (fuel : nat) (state : FileState) : M W IntegrityResult :=
  file ← os_OpenFile (fs_Path state);
  r ← try (readLoop fuel file sha256_New);
  _ ← try (file_Close file);
  match r with
  | inr err => throw err
  | inl None => throw (Sentinel OutOfFuel)
  | inl (Some hash) => mret (mkIntegrityResult true (hash_Sum hash) "")
  end.

(** ** The file and the hash *)

(** The bytes of [file] still to be read in a world: a read returns some of them, and
    none without an error only at the end of the file. *)
Definition reads (file : F) (rest : W → list Byte.byte) : Prop :=
  ∀ w, ∃ data err w', file_Read file bufferSize w = (inl (data, err), w') ∧ rest w = data ++ rest w' ∧
    (err = None ∧ data ≠ [] ∨ err = Some EOF ∧ rest w' = []).

(** The state of a hash after some bytes; writing never fails. *)
Record hashes (sha256 : list Byte.byte → list Byte.byte) (absorbed : Hash → list Byte.byte) : Prop := {
  hs_New : absorbed sha256_New = [];
  hs_Write h data : ∃ h', hash_Write h data = inl h' ∧ absorbed h' = absorbed h ++ data;
  hs_Sum h : hash_Sum h = sha256 (absorbed h)
}.

Lemma readLoop_total sha256 absorbed file rest fuel h w :
  hashes sha256 absorbed → reads file rest → ctx_live ctx → length (rest w) < fuel →
  ∃ h' w', readLoop fuel file h w = (inl (Some h'), w') ∧ absorbed h' = absorbed h ++ rest w.
Proof.
  intros Hh Hr Hctx. revert h w. induction fuel as [|fuel IH]; intros h w Hlen; [lia|]. cbn [readLoop].
  rewrite bind_run, Hctx, bind_run. destruct (Hr w) as (data & err & w1 & -> & Hrest & Herr). cbn beta iota. rewrite bind_run.
  assert (∃ h1, (if decide (data = []) then mret h else lift (hash_Write h data)) w1 = (inl h1, w1) ∧
    absorbed h1 = absorbed h ++ data) as (h1 & -> & Habs).
  { case_decide as Hd; [exists h; by rewrite Hd, app_nil_r|]. destruct (hs_Write _ _ Hh h data) as (h1 & E & Ha).
    exists h1. unfold lift. by rewrite E. }
  destruct Herr as [[-> Hne]|[-> Hend]].
  - destruct (IH h1 w1) as (h2 & w2 & -> & Ha2).
    { rewrite Hrest, length_app in Hlen. destruct data; [done|]. simpl in Hlen. lia. }
    exists h2, w2. split; [done|]. by rewrite Ha2, Habs, Hrest, app_assoc.
  - rewrite decide_True by done. exists h1, w1. split; [done|]. by rewrite Habs, Hrest, Hend, app_nil_r.
Qed.

(** C34: the checker fingerprints the whole file.  On a file that can be opened and
    read, however the reads split it, [Check] returns after at most one read more
    than the file has bytes, with the SHA-256 of exactly its contents; the scrub
    then accepts the file exactly when no fingerprint is expected or the expected
    one is that hash. *)
Theorem check_fingerprints sha256 absorbed file rest fuel state w w1 expected :
  hashes sha256 absorbed → reads file rest → ctx_live ctx →
  os_OpenFile (fs_Path state) w = (inl file, w1) → length (rest w1) < fuel →
  ∃ result w', Check fuel state w = (inl result, w') ∧
    result = mkIntegrityResult true (sha256 (rest w1)) "" ∧
    verdict expected state result =
      match expected ≫= (λ m, m !! fs_Path state) with
      | Some entry => bool_decide (ex_Fingerprint entry = [] ∨ ex_Fingerprint entry = sha256 (rest w1))
      | None => true
      end.
Proof.
  intros Hh Hr Hctx Hopen Hlen. destruct (readLoop_total _ _ _ _ fuel sha256_New w1 Hh Hr Hctx Hlen) as (h & w2 & E & Ha).
  rewrite (hs_New _ _ Hh) in Ha. simpl in Ha. exists (mkIntegrityResult true (sha256 (rest w1)) ""), (file_Close file w2).2. split.
  - unfold Check. rewrite bind_run, Hopen, bind_run. unfold try at 1. rewrite E, bind_run. unfold try.
    rewrite <-Ha, <-(hs_Sum _ _ Hh). by destruct (file_Close file w2).
  - split; [done|]. unfold verdict. destruct (expected ≫= _) as [entry|]; [|done]. simpl.
    case_decide as Hn; [by rewrite Hn|]. apply bool_decide_ext. naive_solver.
Qed.
End checker.

(** ** Witness *)

(** A world that is what is left of the open file, read two bytes at a time; the hash
    counts and adds up the bytes. *)
Definition toy_Open (path : string) : M (list Byte.byte) () := mret ().
Definition toy_Read (f : ()) (n : nat) : M (list Byte.byte) (list Byte.byte * option error) := λ w,
  match w with
  | [] => (inl ([], Some EOF), [])
  | a :: rest => (inl (take 2 w, None), drop 2 w)
  end.
Definition toy_sum (l : list Byte.byte) : list Byte.byte :=
  [default Byte.x00 (Byte.of_N (N.of_nat (length l))); default Byte.x00 (head l)].

Lemma toy_reads : reads toy_Read () id.
Proof.
  intros [|a w]; [eexists [], _, []; split; [done|]; split; [done|]; by right|].
  eexists _, None, (drop 2 (a :: w)). split; [done|]. unfold id. split; [by rewrite take_drop|]. by left.
Qed.

Lemma toy_hashes : hashes [] (λ h data, inl (h ++ data)) toy_sum toy_sum id.
Proof. split; [done|by eexists|done]. Qed.

Lemma check_fingerprints_witness :
  ∃ w', Check toy_Open toy_Read (λ _, mret ()) [] (λ h data, inl (h ++ data)) toy_sum (mret ()) 4
    (mkFileState "/data/b" (newFileID "1:3") FileTypeRegular 3 0 420) [Byte.x07; Byte.x08; Byte.x09] =
    (inl (mkIntegrityResult true [Byte.x03; Byte.x07] ""), w').
Proof.
  destruct (check_fingerprints toy_Open toy_Read (λ _, mret ()) [] (λ h data, inl (h ++ data)) toy_sum (mret ()) toy_sum id ()
    id 4 (mkFileState "/data/b" (newFileID "1:3") FileTypeRegular 3 0 420) [Byte.x07; Byte.x08; Byte.x09]
    [Byte.x07; Byte.x08; Byte.x09] None toy_hashes toy_reads) as (r & w' & E & -> & _).
  - intros ?. reflexivity.
  - reflexivity.
  - vm_compute. lia.
  - exists w'. exact E.
Defined.
