(* ===== verification/Observer.v ===== *)
(** * The observer: observer.go and observer_types.go

    The observer turns raw events into invalidation hints.  Hints wait in a
    bounded map (or as one pending hint for the whole root) and are moved to the
    public channel by [flush].  The collector, the emitter and the application are
    steps of a transition relation; [pendingMu] makes each [enqueue] and [flush]
    atomic.  The file system, the backend and the clock are parameters. *)

From S2P Require Import Prelude Frame GoPath DirtySet Types WatchTree Scanner Normalize.

(** ** observer_types.go *)

Record ObserverConfig : Type := mkObserverConfig {
  oc_Root : string;
  oc_Recursive : bool;
  oc_DebounceWindow : Z;
  oc_HintBuffer : Z;
  oc_MaxPendingHints : Z;
  oc_Filter : option (string → bool);
  oc_SymlinkPolicy : Z
}.

Inductive HintScope : Type := HintPath | HintSubtree.
Inductive HintCause : Type := HintNativeChange | HintStartup | HintOverflow | HintBackendStopped.
Inductive ObserverState : Type :=
  ObserverCreated | ObserverStarting | ObserverRunning | ObserverDegraded | ObserverStopped.

#[global] Instance HintScope_eq_dec : EqDecision HintScope.
Proof. solve_decision. Defined.
#[global] Instance HintCause_eq_dec : EqDecision HintCause.
Proof. solve_decision. Defined.
#[global] Instance ObserverState_eq_dec : EqDecision ObserverState.
Proof. solve_decision. Defined.

Definition HintScope_String (s : HintScope) : string :=
  match s with HintPath => "PATH" | HintSubtree => "SUBTREE" end.
Definition HintCause_String (c : HintCause) : string :=
  match c with
  | HintNativeChange => "NATIVE_CHANGE"
  | HintStartup => "STARTUP"
  | HintOverflow => "OVERFLOW"
  | HintBackendStopped => "BACKEND_STOPPED"
  end.
Definition ObserverState_String (s : ObserverState) : string :=
  match s with
  | ObserverCreated => "CREATED"
  | ObserverStarting => "STARTING"
  | ObserverRunning => "RUNNING"
  | ObserverDegraded => "DEGRADED"
  | ObserverStopped => "STOPPED"
  end.

Record Hint : Type := mkHint {
  hi_Path : string;
  hi_Scope : HintScope;
  hi_Cause : HintCause;
  hi_Time : Z
}.

(** The numeric order of the causes. *)
Definition cause_rank (c : HintCause) : Z :=
  match c with HintNativeChange => 0 | HintStartup => 1 | HintOverflow => 2 | HintBackendStopped => 3 end.

Record observerStats : Type := mkObserverStats {
  os_received : Z;
  os_emitted : Z;
  os_coalesced : Z;
  os_overflows : Z;
  os_dropped : Z
}.

(** The public counters. *)
Record ObserverStats : Type := mkPublicObserverStats {
  po_NativeEventsReceived : Z;
  po_HintsEmitted : Z;
  po_HintsCoalesced : Z;
  po_OverflowCount : Z;
  po_PendingHints : Z;
  po_HintDeliveryDeferred : Z;
  po_WatchedDirectories : Z
}.

(** [ob_hints] and [ob_errors] are the contents of the buffered channels,
    [ob_closed] that [Close] has entered [closeOnce], [ob_finished] that its
    [wg.Wait] has returned and it has closed the channels. *)
Record Observer : Type := mkObserver {
  ob_root : string;
  ob_state : ObserverState;
  ob_tree : option Tree;
  ob_hints : list Hint;
  ob_errors : list error;
  ob_pending : gmap string Hint;
  ob_rootPending : bool;
  ob_rootHint : Hint;
  ob_stats : observerStats;
  ob_closed : bool;
  ob_finished : bool
}.

Definition set_ob_state (o : Observer) x := let '(mkObserver r _ t h e p rp rh s c f) := o in mkObserver r x t h e p rp rh s c f.
Definition set_ob_tree (o : Observer) x := let '(mkObserver r st _ h e p rp rh s c f) := o in mkObserver r st x h e p rp rh s c f.
Definition set_ob_hints (o : Observer) x := let '(mkObserver r st t _ e p rp rh s c f) := o in mkObserver r st t x e p rp rh s c f.
Definition set_ob_errors (o : Observer) x := let '(mkObserver r st t h _ p rp rh s c f) := o in mkObserver r st t h x p rp rh s c f.
Definition set_ob_pending (o : Observer) x := let '(mkObserver r st t h e _ rp rh s c f) := o in mkObserver r st t h e x rp rh s c f.
Definition set_ob_rootPending (o : Observer) x := let '(mkObserver r st t h e p _ rh s c f) := o in mkObserver r st t h e p x rh s c f.
Definition set_ob_stats (o : Observer) x := let '(mkObserver r st t h e p rp rh _ c f) := o in mkObserver r st t h e p rp rh x c f.
Definition set_ob_closed (o : Observer) x := let '(mkObserver r st t h e p rp rh s _ f) := o in mkObserver r st t h e p rp rh s x f.
Definition set_ob_finished (o : Observer) x := let '(mkObserver r st t h e p rp rh s c _) := o in mkObserver r st t h e p rp rh s c x.

(** A hint for the whole root replaces everything pending. *)
Definition set_root_hint (o : Observer) (h : Hint) : Observer :=
  let '(mkObserver r st t hs e _ _ _ s c f) := o in mkObserver r st t hs e ∅ true h s c f.

Definition inc_received (s : observerStats) := let '(mkObserverStats a b c d e) := s in mkObserverStats (u64 (a + 1)) b c d e.
Definition inc_emitted (s : observerStats) := let '(mkObserverStats a b c d e) := s in mkObserverStats a (u64 (b + 1)) c d e.
Definition inc_coalesced (s : observerStats) := let '(mkObserverStats a b c d e) := s in mkObserverStats a b (u64 (c + 1)) d e.
Definition inc_overflows (s : observerStats) := let '(mkObserverStats a b c d e) := s in mkObserverStats a b c (u64 (d + 1)) e.
Definition inc_deferred (s : observerStats) := let '(mkObserverStats a b c d e) := s in mkObserverStats a b c d (u64 (e + 1)).
Definition upd_stats (f : observerStats → observerStats) (o : Observer) : Observer := set_ob_stats o (f (ob_stats o)).

(** ** Pending hints *)

Definition mergeHintCause (a b : HintCause) : HintCause := if decide (cause_rank a < cause_rank b)%Z then b else a.

Section pending.
Context (config : ObserverConfig).

Definition escalateRootLocked (cause : HintCause) (now : Z) (o : Observer) : Observer :=
  let cause := if ob_rootPending o then mergeHintCause (hi_Cause (ob_rootHint o)) cause else cause in
  set_root_hint o (mkHint (ob_root o) HintSubtree cause now).

Definition enqueue (h : Hint) (o : Observer) : Observer :=
  if bool_decide (hi_Scope h = HintSubtree) && bool_decide (hi_Path h = ob_root o) then
    let cause := if ob_rootPending o then mergeHintCause (hi_Cause (ob_rootHint o)) (hi_Cause h) else hi_Cause h in
    set_root_hint o (mkHint (hi_Path h) (hi_Scope h) cause (hi_Time h))
  else if ob_rootPending o then o
  else
    match ob_pending o !! hi_Path h with
    | Some _ => upd_stats inc_coalesced o
    | None =>
        if decide (oc_MaxPendingHints config ≤ Z.of_nat (size (ob_pending o)))%Z
        then escalateRootLocked HintNativeChange (hi_Time h) o
        else set_ob_pending o (<[hi_Path h := h]> (ob_pending o))
    end.

(** [trySend]: a full channel defers the hint. *)
Definition trySend (h : Hint) (o : Observer) : bool * Observer :=
  if decide (Z.of_nat (length (ob_hints o)) < oc_HintBuffer config)%Z
  then (true, upd_stats inc_emitted (set_ob_hints o (ob_hints o ++ [h])))
  else (false, upd_stats inc_deferred o).

(** The loop of [flush] over the pending map, in the order Go ranges over it. *)
Fixpoint flush_pending (order : list (string * Hint)) (o : Observer) : Observer :=
  match order with
  | [] => o
  | (path, h) :: rest =>
      let '(sent, o) := trySend h o in
      if sent then flush_pending rest (set_ob_pending o (delete path (ob_pending o))) else o
  end.

Definition flush (order : list (string * Hint)) (o : Observer) : Observer :=
  if ob_rootPending o then
    let '(sent, o) := trySend (ob_rootHint o) o in
    if sent then set_ob_rootPending o false else o
  else flush_pending order o.

Definition sendError (err : error) (o : Observer) : Observer :=
  if decide (length (ob_errors o) < 16) then set_ob_errors o (ob_errors o ++ [err]) else o.

Definition setState (s : ObserverState) (o : Observer) : Observer :=
  if decide (ob_state o = ObserverStopped) then o else set_ob_state o s.

Definition pendingCount (o : Observer) : Z :=
  if ob_rootPending o then 1 else Z.of_nat (size (ob_pending o)).

Definition treeCount (o : Observer) : nat := match ob_tree o with None => 0 | Some t => Count t end.

Definition observer_Stats (o : Observer) : ObserverStats :=
  mkPublicObserverStats (os_received (ob_stats o)) (os_emitted (ob_stats o)) (os_coalesced (ob_stats o))
    (os_overflows (ob_stats o)) (pendingCount o) (os_dropped (ob_stats o)) (Z.of_nat (treeCount o)).
End pending.

(** ** Walking directories *)

Section walk.
Context {S : Type} (ctx : M S ()) (os_Lstat os_Stat : string → M S FileInfo).
(** [os.ReadDir]: the names and types of the entries, sorted by name. *)
Context (os_ReadDir : string → M S (list (string * Z))).
Context (policy : Z) (fn : string → M S ()).

(** The callback of [walkObserverDirectoriesPolicy], on an entry without an error. *)
Definition visitDirectory (root path : string) (type : Z) : M S () :=
  ctx ;;
  if mode_IsSymlink type && bool_decide (policy = RejectSymlinks) then throw (Sentinel ErrSymlink)
  else if mode_IsSymlink type && bool_decide (policy ≠ FollowSymlinks) then mret ()
  else if decide (path = root) then fn path
  else if mode_IsDir type then fn path
  else mret ().

(** [filepath.WalkDir] below an entry; an error of [os.ReadDir] goes to the
    callback, which returns it. *)
Fixpoint WalkDir (fuel : nat) (root path : string) (type : Z) : M S () :=
  match fuel with
  | 0 => throw (Sentinel OutOfFuel)
  | Datatypes.S fuel' =>
      visitDirectory root path type ;;
      if mode_IsDir type then
        dirs ← os_ReadDir path;
        forM dirs (λ d, WalkDir fuel' root (Join path d.1) d.2)
      else mret ()
  end.

Definition walkObserverDirectoriesPolicy (fuel : nat) (root : string) : M S () :=
  info ← os_Stat root;
  if negb (mode_IsDir (fi_Mode info)) then mret ()
  else
    info ← os_Lstat root;
    WalkDir fuel root root (fi_Mode info).
End walk.

(** ** The collector *)

Section observer.
Context {W : Type} (config : ObserverConfig) (ctx : M W ()) (clock : W → Z * W).
Context (os_Lstat os_Stat : string → M W FileInfo) (os_ReadDir : string → M W (list (string * Z))).
Context (backend_Add backend_Remove : string → M W ()) (fuel : nat).

Abbreviation OW := (Observer * W)%type.

Definition now : M OW Z := λ '(o, w), let '(z, w') := clock w in (inl z, (o, w')).

(** An operation of the watch tree.  The collector starts after [Start] has set
    the tree, so that a nil tree is not reached. *)
Definition onTree {A} (m : M (Tree * W) A) : M OW A := λ '(o, w),
  match ob_tree o with
  | None => (inr (errors_New "nil watch tree"), (o, w))
  | Some t => let '(r, (t', w')) := m (t, w) in (r, (set_ob_tree o (Some t'), w'))
  end.

Definition enqueueNow (path : string) (scope : HintScope) (cause : HintCause) : M OW () :=
  z ← now;
  updFst (enqueue config (mkHint path scope cause z)).

Definition degrade (err : error) : M OW () :=
  updFst (setState ObserverDegraded) ;;
  o ← gets fst;
  enqueueNow (ob_root o) HintSubtree HintBackendStopped ;;
  updFst (sendError err).

(** [if err := m; err != nil { degrade(err); return }; k]. *)
Definition orDegrade (m : M OW ()) (k : M OW ()) : M OW () :=
  r ← try m;
  match r with inl _ => k | inr err => degrade err end.

Definition watchDirectories (root : string) (fn : string → M OW ()) : M OW () :=
  walkObserverDirectoriesPolicy (onSnd ctx) (λ p, onSnd (os_Lstat p)) (λ p, onSnd (os_Stat p))
    (λ p, onSnd (os_ReadDir p)) (oc_SymlinkPolicy config) fn fuel root.

(** The directories seen by [resyncWatchTree] are the local map [observed]. *)
Definition resyncWatchTree : M OW () := λ '(o, w),
  if negb (oc_Recursive config) then (inl (), (o, w))
  else
    let walk := walkObserverDirectoriesPolicy (onSnd (onSnd ctx)) (λ p, onSnd (onSnd (os_Lstat p)))
      (λ p, onSnd (onSnd (os_Stat p))) (λ p, onSnd (onSnd (os_ReadDir p))) (oc_SymlinkPolicy config)
      (λ path, updFst (union {[path]}) ;; onSnd (onTree (WatchTree.Add backend_Add path))) fuel (ob_root o) in
    match walk (∅ : gset string, (o, w)) with
    | (inr err, (_, ow)) => (inr err, ow)
    | (inl _, (observed, ow)) => onTree (WatchTree.Sync backend_Remove [ob_root o] observed) ow
    end.

Definition passes (path : string) : bool :=
  match oc_Filter config with None => true | Some f => f path end.

Definition enqueuePassing (path : string) : M OW () :=
  if passes path then enqueueNow path HintPath HintNativeChange else mret ().

Definition hasOp (raw : RawEvent) (op : Z) : bool := negb (bool_decide (Z.land (raw_Op raw) op = 0%Z)).

Definition handleRemove (path : string) (wasWatched : bool) : M OW () :=
  o ← gets fst;
  if decide (path = ob_root o) then degrade (Sentinel ErrBackendStopped)
  else
    orDegrade (match ob_tree o with None => mret () | Some _ => onTree (RemoveSubtree backend_Remove path) end)
      (if wasWatched then enqueueNow path HintSubtree HintNativeChange else enqueuePassing path).

Definition handleRename (path : string) : M OW () :=
  o ← gets fst;
  if decide (path = ob_root o) then degrade (Sentinel ErrBackendStopped)
  else
    orDegrade (match ob_tree o with None => mret () | Some _ => onTree (RemoveSubtree backend_Remove path) end)
      (orDegrade (if oc_Recursive config then resyncWatchTree else mret ())
        (enqueueNow (ob_root o) HintSubtree HintNativeChange)).

(** A created entry of a recursive observer; [rest] is what follows the branch. *)
Definition handleCreate (path : string) (rest : M OW ()) : M OW () :=
  r ← try (onSnd (os_Lstat path));
  match r with
  | inr _ => rest
  | inl info =>
      if mode_IsSymlink (fi_Mode info) then
        if decide (oc_SymlinkPolicy config = RejectSymlinks) then degrade (Sentinel ErrSymlink)
        else if decide (oc_SymlinkPolicy config ≠ FollowSymlinks) then enqueuePassing path
        else rest
      else if mode_IsDir (fi_Mode info) then
        orDegrade (onTree (WatchTree.Add backend_Add path))
          (orDegrade (watchDirectories path (λ p, onTree (WatchTree.Add backend_Add p)))
            (enqueueNow path HintSubtree HintNativeChange))
      else rest
  end.

Definition handleRaw (raw : RawEvent) : M OW () :=
  let path := Clean (raw_Path raw) in
  o ← gets fst;
  if negb (withinObserver (ob_root o) path) then mret ()
  else
    let wasWatched := match ob_tree o with None => false | Some t => IsWatched t path end in
    if hasOp raw OpRemove then handleRemove path wasWatched
    else if hasOp raw OpRename then handleRename path
    else if oc_Recursive config && hasOp raw OpCreate then handleCreate path (enqueuePassing path)
    else enqueuePassing path.

(** The cases of the [select] in [collect]: an event, the closed event channel, an
    error. *)
Definition onEvent (raw : RawEvent) : M OW () :=
  updFst (upd_stats inc_received) ;; handleRaw raw.

Definition onEventsClosed : M OW () :=
  r ← try (onSnd ctx);
  match r with inl _ => degrade (Sentinel ErrBackendStopped) | inr _ => mret () end.

Definition onError (err : error) : M OW () :=
  if errors_Is err ErrOverflow then
    updFst (upd_stats inc_overflows) ;;
    orDegrade (if oc_Recursive config then resyncWatchTree else mret ())
      (o ← gets fst;
       enqueueNow (ob_root o) HintSubtree HintOverflow ;;
       updFst (sendError err))
  else updFst (sendError err).

(** ** Life cycle *)

Context (backend_Start : string → M W ()) (backend_Close : M W ()).

Definition Start : M OW () :=
  o ← gets fst;
  if decide (ob_state o ≠ ObserverCreated) then throw (errors_New "fsrecon: observer already started")
  else
    updFst (λ o, set_ob_state o ObserverStarting) ;;
    r ← try (onSnd (os_Lstat (ob_root o)));
    if match r with
       | inl info => mode_IsSymlink (fi_Mode info) && bool_decide (oc_SymlinkPolicy config = RejectSymlinks)
       | inr _ => false
       end
    then updFst (setState ObserverDegraded) ;; throw (Sentinel ErrSymlink)
    else
      r ← try (onSnd (backend_Start (ob_root o)));
      match r with
      | inr err => updFst (setState ObserverDegraded) ;; throw (Wrapf "fsrecon: start observer watcher" err)
      | inl _ =>
          updFst (λ o, set_ob_tree o (Some (WatchTree.New (ob_root o)))) ;;
          r ← try (if oc_Recursive config
                   then watchDirectories (ob_root o) (λ p, onTree (WatchTree.Add backend_Add p)) else mret ());
          match r with
          | inr err => try (onSnd backend_Close) ;; updFst (setState ObserverDegraded) ;; throw err
          | inl _ => updFst (setState ObserverRunning) ;; enqueueNow (ob_root o) HintSubtree HintStartup
          end
      end.

(** [Close] up to [wg.Wait]. *)
Definition Close : M OW () :=
  o ← gets fst;
  if ob_closed o then mret ()
  else
    updFst (λ o, set_ob_closed (set_ob_state o ObserverStopped) true) ;;
    (match ob_tree o with None => mret () | Some _ => try (onSnd backend_Close) ;; mret () end).

(** ** Runs

    The steps of the collector, the emitter, the application and the environment,
    labelled with the hints sent to the channel.  An event is one step: before its
    hint is enqueued it touches the watch tree and the world only, so that a flush
    in between is a flush before it ([flush_tree]).  The collector and the emitter
    go on between the first part of [Close] and the return of its [wg.Wait]. *)
Inductive step : OW → list Hint → OW → Prop :=
  | step_event raw s : ob_finished s.1 = false → step s [] (onEvent raw s).2
  | step_events_closed s : ob_finished s.1 = false → step s [] (onEventsClosed s).2
  | step_error err s : ob_finished s.1 = false → step s [] (onError err s).2
  | step_flush order sent o w :
      ob_finished o = false → order ≡ₚ map_to_list (ob_pending o) →
      ob_hints (flush config order o) = ob_hints o ++ sent →
      step (o, w) sent (flush config order o, w)
  | step_receive h rest o w : ob_hints o = h :: rest → step (o, w) [] (set_ob_hints o rest, w)
  | step_receive_error e rest o w : ob_errors o = e :: rest → step (o, w) [] (set_ob_errors o rest, w)
  | step_close s : step s [] (Close s).2
  | step_close_end o w : ob_closed o = true → step (o, w) [] (set_ob_finished o true, w)
  | step_world o w w' : step (o, w) [] (o, w').

Inductive steps : OW → list Hint → OW → Prop :=
  | steps_refl s : steps s [] s
  | steps_cons s1 sent s2 l s3 : step s1 sent s2 → steps s2 l s3 → steps s1 (sent ++ l) s3.
End observer.

(** [NewObserver]; [Abs] reads the working directory. *)
Definition NewObserver {W} (Abs : string → M W string) (config : ObserverConfig) : M W (ObserverConfig * Observer) :=
  if decide (oc_Root config = "") then throw (errors_New "fsrecon: observer root is required")
  else if decide (oc_SymlinkPolicy config = FollowSymlinks) then
    throw (Sentinel ErrObserverFollowSymlinksUnsupported)
  else if decide (oc_HintBuffer config < 0 ∨ oc_MaxPendingHints config < 0 ∨ oc_DebounceWindow config < 0)%Z then
    throw (errors_New "fsrecon: invalid observer limits")
  else
    root ← Abs (oc_Root config);
    let root := Clean root in
    let nonzero n d := if decide (n = 0)%Z then d else n in
    mret (mkObserverConfig root (oc_Recursive config)
            (nonzero (oc_DebounceWindow config) (100 * 1000000)%Z)
            (nonzero (oc_HintBuffer config) 256%Z) (nonzero (oc_MaxPendingHints config) 10000%Z)
            (oc_Filter config) (oc_SymlinkPolicy config),
          mkObserver root ObserverCreated None [] [] ∅ false (mkHint "" HintPath HintNativeChange zeroTime)
            (mkObserverStats 0 0 0 0 0) false false).

(** ** Invariants *)

(** A hint tells the application to look at the path. *)
Definition covers (h : Hint) (p : string) : Prop :=
  hi_Path h = p ∨ (hi_Scope h = HintSubtree ∧ within (hi_Path h) p = true).

(** A hint for the path is waiting to be sent. *)
Definition owes (o : Observer) (p : string) : Prop :=
  ob_rootPending o = true ∨ is_Some (ob_pending o !! p).

Record ob_inv (o : Observer) : Prop := {
  oi_root : ob_rootPending o = true →
    ob_pending o = ∅ ∧ hi_Path (ob_rootHint o) = ob_root o ∧ hi_Scope (ob_rootHint o) = HintSubtree;
  oi_pending p h : ob_pending o !! p = Some h → hi_Path h = p
}.

Section invariants.
Context (config : ObserverConfig).

Lemma enqueue_inv h o : ob_inv o → ob_inv (enqueue config h o).
Proof.
  intros [Hr Hp]. unfold enqueue, escalateRootLocked. destruct (_ && _) eqn:E.
  { apply andb_true_iff in E as [E1%bool_decide_eq_true E2%bool_decide_eq_true]. destruct o; simpl in *.
    split; simpl; [by rewrite E1, E2|]. intros p h'. by rewrite lookup_empty. }
  destruct (ob_rootPending o) eqn:Erp; [by split; rewrite ?Erp|].
  destruct (ob_pending o !! hi_Path h) eqn:El; [by split; destruct o; simpl in *; rewrite ?Erp|].
  clear E. case_decide; destruct o; simpl in *; subst; split; simpl; try done; intros p h'.
  rewrite lookup_insert_Some. naive_solver.
Qed.

Lemma enqueue_keeps h o p : owes o p → owes (enqueue config h o) p.
Proof.
  unfold enqueue, owes, escalateRootLocked. intros Ho. destruct (_ && _); [by left; destruct o|].
  destruct (ob_rootPending o) eqn:Erp; [by left|]. destruct Ho as [?|Ho]; [done|].
  destruct (ob_pending o !! hi_Path h) eqn:El; [by right; destruct o|].
  case_decide; [by left; destruct o|]. right. destruct o; simpl in *. rewrite lookup_insert. by case_decide.
Qed.

Lemma enqueue_owes h o : owes (enqueue config h o) (hi_Path h).
Proof.
  unfold enqueue, owes, escalateRootLocked. destruct (_ && _); [by left; destruct o|].
  destruct (ob_rootPending o) eqn:Erp; [by left|].
  destruct (ob_pending o !! hi_Path h) eqn:El; [by right; destruct o; simpl in *; rewrite El|].
  case_decide; [by left; destruct o|]. right. destruct o; simpl in *. by rewrite lookup_insert_eq.
Qed.

(** *** Sending *)

Lemma trySend_fields h o :
  let '(sent, o') := trySend config h o in
  ob_rootPending o' = ob_rootPending o ∧ ob_pending o' = ob_pending o ∧ ob_rootHint o' = ob_rootHint o ∧
  ob_root o' = ob_root o ∧ ob_closed o' = ob_closed o ∧
  ob_hints o' = ob_hints o ++ (if sent then [h] else []).
Proof. unfold trySend. case_decide; destruct o; simpl; by rewrite ?app_nil_r. Qed.

(** The hints a loop over [order] sends, and what stays. *)
Lemma flush_pending_run order o :
  ob_rootPending o = false →
  ∃ n, let o' := flush_pending config order o in
    ob_hints o' = ob_hints o ++ take n order.*2 ∧
    ob_pending o' = foldr delete (ob_pending o) (take n order.*1) ∧ ob_rootPending o' = false ∧
    ob_root o' = ob_root o ∧
    ((Z.of_nat (length (ob_hints o) + length order) ≤ oc_HintBuffer config)%Z → n = length order).
Proof.
  revert o. induction order as [|[p h] order IH]; intros o Hr.
  { exists 0. simpl. by rewrite app_nil_r. }
  cbn [flush_pending]. pose proof (trySend_fields h o) as Hs. destruct (trySend config h o) as [sent o1] eqn:E.
  destruct Hs as (H1 & H2 & _ & H4 & _ & H6). destruct sent.
  - destruct (IH (set_ob_pending o1 (delete p (ob_pending o1)))) as (n & Hn1 & Hn2 & Hn3 & Hn4 & Hn5).
    { destruct o1; simpl in *; congruence. }
    cbv zeta in *. exists (S n). rewrite Hn1, Hn2, Hn3, Hn4.
    assert (ob_hints (set_ob_pending o1 (delete p (ob_pending o1))) = ob_hints o1 ∧
      ob_pending (set_ob_pending o1 (delete p (ob_pending o1))) = delete p (ob_pending o1) ∧
      ob_root (set_ob_pending o1 (delete p (ob_pending o1))) = ob_root o1) as (E1 & E2 & E3) by by destruct o1.
    rewrite E1, H6 in Hn5. rewrite E1, E2, E3, H6, H2, H4. cbn [fmap list_fmap take]. rewrite <-app_assoc.
    split_and!; [done| |done|done|].
    + clear. simpl. generalize (take n order.*1) as l. intros l. induction l as [|q l IH]; [done|]. cbn [foldr].
      by rewrite IH, delete_delete.
    + rewrite length_app in Hn5. simpl in *. intros Hle. rewrite Hn5; lia.
  - exists 0. cbn [take]. rewrite H6, H2, H1, H4. split_and!; try done.
    intros Hle. unfold trySend in E. case_decide; [done|]. simpl in Hle. lia.
Qed.

Lemma lookup_foldr_delete {A} (m : gmap string A) l p :
  foldr delete m l !! p = if decide (p ∈ l) then None else m !! p.
Proof.
  induction l as [|q l IH]; [done|]. cbn [foldr]. rewrite lookup_delete, IH.
  repeat case_decide; set_solver.
Qed.

(** A flush keeps a debt or pays it. *)
Lemma flush_owes order sent o p :
  ob_inv o → order ≡ₚ map_to_list (ob_pending o) → within (ob_root o) p = true →
  ob_hints (flush config order o) = ob_hints o ++ sent → owes o p →
  (owes (flush config order o) p ∨ ∃ h, h ∈ sent ∧ covers h p).
Proof.
  intros [Hroot Hpend] Hord Hin. unfold flush. destruct (ob_rootPending o) eqn:Hr.
  - pose proof (trySend_fields (ob_rootHint o) o) as Hs. destruct (trySend config (ob_rootHint o) o) as [[] o1].
    + destruct Hs as (_ & _ & _ & _ & _ & H6). intros Hh _. right. exists (ob_rootHint o).
      assert (ob_hints (set_ob_rootPending o1 false) = ob_hints o1) as E by by destruct o1.
      rewrite E, H6 in Hh. apply app_inv_head in Hh as <-. split; [set_solver|].
      destruct Hroot as (_ & Hpa & Hsc); [done|]. right. by rewrite Hpa.
    + destruct Hs as (H1 & _). intros _ _. left. left. congruence.
  - destruct (flush_pending_run order o Hr) as (n & H1 & H2 & _). intros Hh [?|[h Hh']]; [congruence|].
    unfold owes. rewrite H2, lookup_foldr_delete, H1 in *. apply app_inv_head in Hh as <-.
    case_decide as Hd; [|left; right; by rewrite Hh']. right.
    rewrite <-fmap_take in Hd. apply list_elem_of_fmap in Hd as ([q h'] & -> & Hq).
    exists h'. split; [rewrite <-fmap_take; apply list_elem_of_fmap; by exists (q, h')|].
    left. apply Hpend. apply elem_of_map_to_list. rewrite <-Hord.
    apply elem_of_take in Hq as (i & Hi & _). by eapply list_elem_of_lookup_2.
Qed.

(** The emitter does not see the watch tree. *)
Lemma flush_tree order o t : flush config order (set_ob_tree o t) = set_ob_tree (flush config order o) t.
Proof.
  assert (∀ h o, trySend config h (set_ob_tree o t) =
    ((trySend config h o).1, set_ob_tree (trySend config h o).2 t)) as Hs.
  { intros h [? ? ? ? ? ? ? ? ? ? ?]. unfold trySend. simpl. by case_decide. }
  unfold flush. assert (ob_rootPending (set_ob_tree o t) = ob_rootPending o ∧ ob_rootHint (set_ob_tree o t) = ob_rootHint o)
    as [-> ->] by by destruct o.
  destruct (ob_rootPending o).
  { rewrite Hs. destruct (trySend config (ob_rootHint o) o) as [[] o1]; [|done]. by destruct o1. }
  revert o. induction order as [|[p h] order IH]; intros o; [done|]. cbn [flush_pending]. rewrite Hs.
  destruct (trySend config h o) as [[] o1]; simpl; [|done].
  assert (set_ob_pending (set_ob_tree o1 t) (delete p (ob_pending (set_ob_tree o1 t))) =
    set_ob_tree (set_ob_pending o1 (delete p (ob_pending o1))) t) as -> by by destruct o1.
  apply IH.
Qed.

Lemma flush_inv order o : ob_inv o → ob_inv (flush config order o).
Proof.
  intros [Hroot Hpend]. unfold flush. destruct (ob_rootPending o) eqn:Hr.
  - pose proof (trySend_fields (ob_rootHint o) o) as Hs. destruct (trySend config (ob_rootHint o) o) as [[] o1].
    + destruct Hs as (_ & H2 & _). destruct o1; split; simpl in *; [done|]. rewrite H2. apply Hpend.
    + destruct Hs as (H1 & H2 & H3 & H4 & _). split; rewrite ?H1, ?H2, ?H3, ?H4; [by intros _; apply Hroot|done].
  - destruct (flush_pending_run order o Hr) as (n & _ & H2 & H3 & _). split; [by rewrite H3|].
    intros p h. rewrite H2, lookup_foldr_delete. case_decide; [done|]. apply Hpend.
Qed.
End invariants.

(** ** The collector keeps every debt *)

(** What holds after an action, failed or not. *)
Definition ensures {S A} (I : S → Prop) (m : M S A) (P : S → Prop) : Prop := ∀ s, I s → P (m s).2.

(** Actions that do not fail. *)
Definition total {S A} (m : M S A) : Prop := ∀ s, ∃ a s', m s = (inl a, s').

Lemma ensures_bind {S A B} (I P : S → Prop) (m : M S A) (k : A → M S B) :
  total m → preserves I m → (∀ a, ensures I (k a) P) → ensures I (m ≫= k) P.
Proof.
  intros Ht Hm Hk s Hs. destruct (Ht s) as (a & s' & E). specialize (Hm s Hs). rewrite bind_run, E in *.
  by apply Hk.
Qed.

Lemma ensures_after {S A B} (I P : S → Prop) (m : M S A) (k : A → M S B) :
  total m → ensures I m P → (∀ a, preserves P (k a)) → ensures I (m ≫= k) P.
Proof.
  intros Ht Hm Hk s Hs. destruct (Ht s) as (a & s' & E). specialize (Hm s Hs). rewrite bind_run, E in *.
  by apply Hk.
Qed.

Lemma total_try {S A} (m : M S A) : total (try m).
Proof. intros s. unfold try. destruct (m s) as [r s']. eauto. Qed.
Lemma total_gets {S A} (f : S → A) : total (gets f).
Proof. intros s. unfold gets. eauto. Qed.
Lemma total_updFst {X S} (f : X → X) : total (S := X * S) (updFst f).
Proof. intros [x s]. unfold updFst. eauto. Qed.

Section collector.
Context {W : Type} (config : ObserverConfig) (ctx : M W ()) (clock : W → Z * W).
Context (os_Lstat os_Stat : string → M W FileInfo) (os_ReadDir : string → M W (list (string * Z))).
Context (backend_Add backend_Remove : string → M W ()) (fuel : nat).

(** Invariants of the observer that no action of the collector breaks. *)
Record collector_closed (J : Observer → Prop) : Prop := {
  cc_tree o t : J o → J (set_ob_tree o (Some t));
  cc_enqueue h o : J o → J (enqueue config h o);
  cc_state x o : J o → J (set_ob_state o x);
  cc_close o : J o → J (set_ob_closed o true);
  cc_finish o : J o → J (set_ob_finished o true);
  cc_error e o : J o → J (sendError e o);
  cc_received o : J o → J (upd_stats inc_received o);
  cc_overflows o : J o → J (upd_stats inc_overflows o)
}.

Section closed.
Context (J : Observer → Prop) (HJ : collector_closed J).
Abbreviation I := (λ s : Observer * W, J s.1).

Lemma I_world {A} (m : M W A) : preserves I (onSnd m).
Proof. intros [o w] Hs. unfold onSnd. by destruct (m w). Qed.

Lemma I_onTree {A} (m : M (Tree * W) A) : preserves I (onTree m).
Proof.
  intros [o w] Hs. unfold onTree. destruct (ob_tree o) as [t|]; [|done].
  destruct (m (t, w)) as [r [t' w']]. by apply (cc_tree J HJ).
Qed.

Lemma I_setState x : preserves I (updFst (setState x)).
Proof. apply preserves_updFst. intros o w Hs. unfold setState. case_decide; [done|]. by apply (cc_state J HJ). Qed.

Lemma I_enqueueNow p sc c : preserves I (enqueueNow config clock p sc c).
Proof.
  intros [o w] Hs. unfold enqueueNow. rewrite bind_run. unfold now. destruct (clock w). by apply (cc_enqueue J HJ).
Qed.

Lemma I_degrade err : preserves I (degrade config clock err).
Proof.
  unfold degrade. frame; [apply I_setState| |].
  - apply I_enqueueNow.
  - apply preserves_updFst; intros o w; apply (cc_error J HJ).
Qed.

Lemma I_orDegrade m k : preserves I m → preserves I k → preserves I (orDegrade config clock m k).
Proof. intros Hm Hk. unfold orDegrade. frame; [done|done|apply I_degrade]. Qed.

(** The directory walk, in any state that carries the observer. *)
Lemma WalkDir_preserves {S} (K : S → Prop) (cx : M S ()) rd policy fn n root path ty :
  preserves K cx → (∀ p, preserves K (rd p)) → (∀ p, preserves K (fn p)) →
  preserves K (WalkDir cx rd policy fn n root path ty).
Proof.
  intros Hc Hr Hf. revert path ty. induction n as [|n IH]; intros path ty; cbn [WalkDir]; [frame|].
  unfold visitDirectory. frame; try done. apply preserves_forM. intros d _. apply IH.
Qed.

Lemma walk_preserves {S} (K : S → Prop) (cx : M S ()) ls st rd policy fn n root :
  preserves K cx → (∀ p, preserves K (ls p)) → (∀ p, preserves K (st p)) → (∀ p, preserves K (rd p)) →
  (∀ p, preserves K (fn p)) → preserves K (walkObserverDirectoriesPolicy cx ls st rd policy fn n root).
Proof.
  intros. unfold walkObserverDirectoriesPolicy. frame; try done. by apply WalkDir_preserves.
Qed.

Lemma I_resync : preserves I (resyncWatchTree config ctx os_Lstat os_Stat os_ReadDir backend_Add backend_Remove fuel).
Proof.
  intros [o w] Hs. unfold resyncWatchTree. destruct (negb _); [done|].
  set (walk := walkObserverDirectoriesPolicy _ _ _ _ _ _ _ _).
  assert (preserves (λ s : gset string * (Observer * W), J s.2.1) walk) as Hw.
  { apply walk_preserves; try (intros; apply preserves_onSnd; intros x; apply I_world).
    intros p. frame; [by apply preserves_updFst|]. apply preserves_onSnd. intros x. apply I_onTree. }
  specialize (Hw (∅, (o, w)) Hs). destruct (walk (∅, (o, w))) as [[[]|err] [obs ow]]; [|done].
  by apply I_onTree.
Qed.

Lemma I_enqueuePassing p : preserves I (enqueuePassing config clock p).
Proof. unfold enqueuePassing. frame. apply I_enqueueNow. Qed.

Lemma I_watchDirectories p :
  preserves I (watchDirectories config ctx os_Lstat os_Stat os_ReadDir fuel p (λ p, onTree (WatchTree.Add backend_Add p))).
Proof.
  unfold watchDirectories. apply walk_preserves; try (intros; apply I_world).
  intros q. apply I_onTree.
Qed.

Lemma I_handleRaw raw :
  preserves I (handleRaw config ctx clock os_Lstat os_Stat os_ReadDir backend_Add backend_Remove fuel raw).
Proof.
  unfold handleRaw, handleRemove, handleRename, handleCreate. cbv zeta.
  repeat first [ frame_step | apply I_degrade | apply I_orDegrade | apply I_onTree | apply I_enqueueNow
    | apply I_enqueuePassing | apply I_resync | apply I_watchDirectories | apply I_world ].
Qed.

Lemma I_onEvent raw :
  preserves I (onEvent config ctx clock os_Lstat os_Stat os_ReadDir backend_Add backend_Remove fuel raw).
Proof. unfold onEvent. frame; [apply preserves_updFst; intros o w; apply (cc_received J HJ)|apply I_handleRaw]. Qed.

Lemma I_onEventsClosed : preserves I (onEventsClosed config ctx clock).
Proof. unfold onEventsClosed. frame; [apply I_world|apply I_degrade]. Qed.

Lemma I_onError err :
  preserves I (onError config ctx clock os_Lstat os_Stat os_ReadDir backend_Add backend_Remove fuel err).
Proof.
  unfold onError. frame; try (apply preserves_updFst; intros o w; first [apply (cc_overflows J HJ)|apply (cc_error J HJ)]).
  apply I_orDegrade; [frame; apply I_resync|]. frame; [apply I_enqueueNow|].
  apply preserves_updFst; intros o w; apply (cc_error J HJ).
Qed.

Context (backend_Start : string → M W ()) (backend_Close : M W ()).

Lemma I_Start :
  preserves I (Start config ctx clock os_Lstat os_Stat os_ReadDir backend_Add fuel backend_Start backend_Close).
Proof.
  unfold Start.
  repeat first [ frame_step | apply I_setState | apply I_enqueueNow | apply I_watchDirectories | apply I_world
    | apply preserves_updFst; intros ? ?; first [apply (cc_state J HJ)|apply (cc_tree J HJ)] ].
Qed.

Lemma I_Close : preserves I (Close backend_Close).
Proof.
  unfold Close. repeat first [ frame_step | apply I_world | apply preserves_updFst; intros ? ? ? ].
  by apply (cc_close J HJ), (cc_state J HJ).
Qed.
End closed.

(** The sent hints and the root stay, the invariant holds. *)
Definition quiet (r : string) (hs : list Hint) (o : Observer) : Prop :=
  ob_inv o ∧ ob_root o = r ∧ ob_hints o = hs.

Lemma enqueue_fields h o :
  ob_root (enqueue config h o) = ob_root o ∧ ob_hints (enqueue config h o) = ob_hints o ∧
  ob_closed (enqueue config h o) = ob_closed o.
Proof.
  unfold enqueue, escalateRootLocked. destruct (_ && _); [by destruct o|]. destruct (ob_rootPending o); [done|].
  destruct (_ !! _); [by destruct o|]. by case_decide; destruct o.
Qed.

(** The fields the other actions leave alone. *)
Lemma ob_inv_fields o o' :
  ob_rootPending o' = ob_rootPending o → ob_pending o' = ob_pending o → ob_rootHint o' = ob_rootHint o →
  ob_root o' = ob_root o → ob_inv o → ob_inv o'.
Proof. intros E1 E2 E3 E4 [H1 H2]. by split; rewrite ?E1, ?E2, ?E3, ?E4. Qed.

Lemma quiet_closed r hs : collector_closed (quiet r hs).
Proof.
  split; unfold quiet.
  - intros o t (Hi & Hr & Hh). destruct o. by split; [eapply ob_inv_fields, Hi|].
  - intros h o (Hi & Hr & Hh). destruct (enqueue_fields h o) as (-> & -> & _). by split; [apply enqueue_inv|].
  - intros x o (Hi & Hr & Hh). destruct o. by split; [eapply ob_inv_fields, Hi|].
  - intros o (Hi & Hr & Hh). destruct o. by split; [eapply ob_inv_fields, Hi|].
  - intros o (Hi & Hr & Hh). destruct o. by split; [eapply ob_inv_fields, Hi|].
  - intros e o (Hi & Hr & Hh). unfold sendError. case_decide; [|done]. destruct o. by split; [eapply ob_inv_fields, Hi|].
  - intros o (Hi & Hr & Hh). destruct o. by split; [eapply ob_inv_fields, Hi|].
  - intros o (Hi & Hr & Hh). destruct o. by split; [eapply ob_inv_fields, Hi|].
Qed.

Lemma owes_closed p : collector_closed (λ o, owes o p).
Proof.
  split.
  - by intros [] t.
  - intros h o. apply enqueue_keeps.
  - by intros x [].
  - by intros [].
  - by intros [].
  - intros e o Ho. unfold sendError. case_decide; [|done]. by destruct o.
  - by intros [].
  - by intros [].
Qed.

Lemma collector_closed_and J1 J2 :
  collector_closed J1 → collector_closed J2 → collector_closed (λ o, J1 o ∧ J2 o).
Proof. intros [] []. split; naive_solver. Qed.

Definition paid (r : string) (hs : list Hint) (p : string) (s : Observer * W) : Prop := quiet r hs s.1 ∧ owes s.1 p.

Lemma paid_closed r hs p : collector_closed (λ o, quiet r hs o ∧ owes o p).
Proof. apply collector_closed_and; [apply quiet_closed|apply owes_closed]. Qed.

(** *** An event inside the root leaves a debt *)

Section ensures.
Context (r : string) (hs : list Hint) (p : string).
Abbreviation Q := (λ s : Observer * W, quiet r hs s.1).
Abbreviation P := (paid r hs p).

Lemma enqueueNow_path sc c : ensures Q (enqueueNow config clock p sc c) P.
Proof.
  intros [o w] Hq. unfold enqueueNow. rewrite bind_run. unfold now. destruct (clock w) as [z w']. simpl.
  split; [by apply (cc_enqueue _ (quiet_closed r hs))|]. apply (enqueue_owes config (mkHint p sc c z)).
Qed.

Lemma enqueueNow_root c : ensures Q (enqueueNow config clock r HintSubtree c) P.
Proof.
  intros [o w] Hq. unfold enqueueNow. rewrite bind_run. unfold now. destruct (clock w) as [z w']. simpl.
  split; [by apply (cc_enqueue _ (quiet_closed r hs))|]. left. destruct Hq as (_ & Hr & _). simpl in Hr.
  unfold enqueue. simpl. rewrite bool_decide_true by done. by destruct o.
Qed.

Lemma total_enqueueNow q sc c : total (enqueueNow (W := W) config clock q sc c).
Proof. intros [o w]. unfold enqueueNow. rewrite bind_run. unfold now. destruct (clock w). unfold updFst. eauto. Qed.

Lemma degrade_ensures err : ensures Q (degrade config clock err) P.
Proof.
  intros [o w] Hq. unfold degrade. rewrite bind_run. cbn [updFst]. rewrite bind_run. cbn [gets fst].
  pose proof (I_setState _ (quiet_closed r hs) ObserverDegraded (o, w) Hq) as Hq'. simpl in Hq'. assert (ob_root (setState ObserverDegraded o) = r) as -> by apply Hq'.
  apply (ensures_after Q); [apply total_enqueueNow|apply enqueueNow_root| |exact Hq'].
  intros _. apply preserves_updFst. intros o' w'. apply (cc_error _ (paid_closed r hs p)).
Qed.

Lemma orDegrade_ensures m k :
  preserves Q m → ensures Q k P → ensures Q (orDegrade config clock m k) P.
Proof.
  intros Hm Hk. unfold orDegrade. apply ensures_bind; [apply total_try|by apply preserves_try|].
  intros [[]|err]; [done|apply degrade_ensures].
Qed.

Lemma enqueuePassing_ensures : passes config p = true → ensures Q (enqueuePassing config clock p) P.
Proof. intros Hp. unfold enqueuePassing. rewrite Hp. apply enqueueNow_path. Qed.
End ensures.

(** The events whose hint the filter cannot hide: what passes it, the removal of a
    watched directory, and renames. *)
Definition hint_due (o : Observer) (raw : RawEvent) : bool :=
  let path := Clean (raw_Path raw) in
  passes config path ||
  (if hasOp raw OpRemove then match ob_tree o with None => false | Some t => IsWatched t path end
   else hasOp raw OpRename).

Lemma handleRaw_ensures raw r hs s :
  quiet r hs s.1 → within r (Clean (raw_Path raw)) = true → hint_due s.1 raw = true →
  paid r hs (Clean (raw_Path raw))
    (handleRaw config ctx clock os_Lstat os_Stat os_ReadDir backend_Add backend_Remove fuel raw s).2.
Proof.
  intros Hq Hin Hdue. set (p := Clean (raw_Path raw)) in *. unfold handleRaw. cbv zeta. rewrite bind_run.
  cbn [gets]. destruct s as [o w]. cbn [fst] in *. pose proof Hq as (_ & Hr & _). rewrite Hr. fold p. rewrite withinObserver_within, Hin. cbn [negb].
  pose proof (quiet_closed r hs) as Hqc. unfold hint_due in Hdue. cbv zeta in Hdue. fold p in Hdue.
  destruct (hasOp raw OpRemove).
  { unfold handleRemove. rewrite bind_run. cbn [gets fst]. case_decide; [by apply degrade_ensures|].
    apply orDegrade_ensures with (r := r) (hs := hs); [|  |done].
    - destruct (ob_tree o); [by apply I_onTree|frame].
    - destruct (ob_tree o) as [t|]; [destruct (IsWatched t p)|]; try apply enqueueNow_path;
        apply enqueuePassing_ensures; by rewrite orb_false_r in Hdue. }
  destruct (hasOp raw OpRename).
  { unfold handleRename. rewrite bind_run. cbn [gets fst]. case_decide; [by apply degrade_ensures|].
    apply orDegrade_ensures with (r := r) (hs := hs); [| |done].
    - destruct (ob_tree o); [by apply I_onTree|frame].
    - apply orDegrade_ensures; [frame; by apply I_resync|]. rewrite Hr. apply enqueueNow_root. }
  rewrite orb_false_r in Hdue. pose proof (enqueuePassing_ensures r hs p Hdue) as Hpass.
  destruct (oc_Recursive config && hasOp raw OpCreate); [|by apply Hpass].
  unfold handleCreate. apply (ensures_bind (λ s, quiet r hs s.1) (paid r hs p)); [apply total_try|apply preserves_try, I_world| |done].
  intros [info|e]; [|done]. destruct (mode_IsSymlink _).
  { case_decide; [apply degrade_ensures|]. by case_decide. }
  destruct (mode_IsDir _); [|done]. apply orDegrade_ensures; [by apply I_onTree|].
  apply orDegrade_ensures; [by apply I_watchDirectories|apply enqueueNow_path].
Qed.
End collector.

(** ** Properties *)

Section properties.
Context {W : Type} (config : ObserverConfig) (ctx : M W ()) (clock : W → Z * W).
Context (os_Lstat os_Stat : string → M W FileInfo) (os_ReadDir : string → M W (list (string * Z))).
Context (backend_Add backend_Remove : string → M W ()) (fuel : nat).
Context (backend_Start : string → M W ()) (backend_Close : M W ()).

Abbreviation OW := (Observer * W)%type.
Abbreviation onEvent := (onEvent config ctx clock os_Lstat os_Stat os_ReadDir backend_Add backend_Remove fuel).
Abbreviation step := (step config ctx clock os_Lstat os_Stat os_ReadDir backend_Add backend_Remove fuel backend_Close).
Abbreviation steps := (steps config ctx clock os_Lstat os_Stat os_ReadDir backend_Add backend_Remove fuel backend_Close).
Abbreviation Start := (Start config ctx clock os_Lstat os_Stat os_ReadDir backend_Add fuel backend_Start backend_Close).

(** Steps keep the invariant and the root, and keep a debt or pay it. *)
Lemma step_keeps s sent s' p :
  step s sent s' → ob_inv s.1 →
  ob_inv s'.1 ∧ ob_root s'.1 = ob_root s.1 ∧
  (within (ob_root s.1) p = true → owes s.1 p → owes s'.1 p ∨ ∃ h, h ∈ sent ∧ covers h p).
Proof.
  intros Hstep Hi.
  assert (quiet (ob_root s.1) (ob_hints s.1) s.1) as Hq by done.
  assert (∀ m : M OW (), (∀ J, collector_closed config J → preserves (λ s : OW, J s.1) m) →
    ob_inv (m s).2.1 ∧ ob_root (m s).2.1 = ob_root s.1 ∧
    (within (ob_root s.1) p = true → owes s.1 p → owes (m s).2.1 p ∨ ∃ h, h ∈ [] ∧ covers h p)) as Hm.
  { intros m Hm. destruct (Hm _ (quiet_closed config (ob_root s.1) (ob_hints s.1)) s Hq) as (H1 & H2 & _).
    split_and!; [done|done|]. intros _ Ho. left. by apply (Hm _ (owes_closed config p)). }
  destruct Hstep as [raw s Hc|s Hc|err s Hc|order sent o w Hc Hord Hsent|h rest o w Hh|e rest o w He|s|o w Hcl|o w w'].
  - apply Hm. intros J HJ. by apply I_onEvent.
  - apply Hm. intros J HJ. by apply I_onEventsClosed.
  - apply Hm. intros J HJ. by apply I_onError.
  - simpl in *. split; [by apply flush_inv|]. split; [|intros; by apply (flush_owes config)].
    unfold flush. destruct (ob_rootPending o) eqn:Hr.
    + pose proof (trySend_fields config (ob_rootHint o) o) as Hs. destruct (trySend _ _ o) as [[] o1];
        destruct Hs as (_ & _ & _ & <- & _); by destruct o1.
    + by destruct (flush_pending_run config order o Hr) as (n & _ & _ & _ & H4 & _).
  - destruct o. split_and!; [by eapply ob_inv_fields, Hi|done|by left].
  - destruct o. split_and!; [by eapply ob_inv_fields, Hi|done|by left].
  - apply Hm. intros J HJ. by apply (I_Close config).
  - simpl in *. split_and!; [by apply (cc_finish config _ (quiet_closed config (ob_root o) (ob_hints o)))|by destruct o|].
    intros _ Ho. left. by apply (cc_finish config _ (owes_closed config p)).
  - split_and!; [done|done|by left].
Qed.

Lemma steps_keep s sent s' p :
  steps s sent s' → ob_inv s.1 →
  ob_inv s'.1 ∧ ob_root s'.1 = ob_root s.1 ∧
  (within (ob_root s.1) p = true → owes s.1 p → owes s'.1 p ∨ ∃ h, h ∈ sent ∧ covers h p).
Proof.
  intros Hs. induction Hs as [s|s1 l1 s2 l2 s3 Hstep Hs IH]; intros Hi; [by split_and!; [..|left]|].
  destruct (step_keeps _ _ _ p Hstep Hi) as (Hi2 & Hr2 & Ho2).
  destruct (IH Hi2) as (Hi3 & Hr3 & Ho3). split_and!; [done|congruence|]. intros Hin.
  intros [Ho|(h & Hh & Hc)]%(Ho2 Hin); [|right; exists h; split; [apply elem_of_app; by left|done]].
  rewrite Hr2 in Ho3. destruct (Ho3 Hin Ho) as [?|(h & Hh & Hc)]; [by left|]. right. exists h. split; [apply elem_of_app; by right|done].
Qed.

(** States reached after [NewObserver] and [Start]. *)
Definition reachable (s : OW) : Prop :=
  ∃ Abs config0 w0 o0 w l, NewObserver Abs config0 w0 = (inl (config, o0), w) ∧ steps (Start (o0, w)).2 l s.

Lemma new_observer_inv (Abs : string → M W string) config0 w0 o0 w :
  NewObserver Abs config0 w0 = (inl (config, o0), w) →
  ob_inv o0 ∧ ob_root o0 = oc_Root config ∧ ob_hints o0 = [] ∧ ob_errors o0 = [] ∧ ob_pending o0 = ∅ ∧
  (0 < oc_HintBuffer config)%Z ∧ (0 < oc_MaxPendingHints config)%Z.
Proof.
  unfold NewObserver. do 3 (case_decide; [done|]). unfold mbind, M_bind. destruct (Abs _ w0) as [[root|e] w1]; [|done].
  intros Heq. injection Heq as <- <- <-. simpl. split; [by split|]. split_and!; try done; case_decide; lia.
Qed.

Lemma reachable_inv s : reachable s → ob_inv s.1 ∧ ob_root s.1 = oc_Root config.
Proof.
  intros (Abs & config0 & w0 & o0 & w & l & Hnew & Hs). destruct (new_observer_inv _ _ _ _ _ Hnew) as (Hi & Hr & _).
  destruct (I_Start config ctx clock os_Lstat os_Stat os_ReadDir backend_Add fuel _
    (quiet_closed config (ob_root o0) (ob_hints o0)) backend_Start backend_Close (o0, w)) as (Hi1 & Hr1 & _); [done|].
  destruct (steps_keep _ _ _ "" Hs Hi1) as (Hi2 & Hr2 & _). split; [done|congruence].
Qed.

(** A flush into a channel with room leaves no debt. *)
Lemma flush_drains order o p :
  ob_inv o → order ≡ₚ map_to_list (ob_pending o) →
  (Z.of_nat (length (ob_hints o)) + pendingCount o ≤ oc_HintBuffer config)%Z →
  ¬ owes (flush config order o) p.
Proof.
  intros [Hroot _] Hord Hroom. unfold flush, pendingCount in *. destruct (ob_rootPending o) eqn:Hr.
  - unfold trySend. rewrite decide_True by lia. destruct Hroot as (He & _); [done|]. destruct o; simpl in *. subst.
    intros [?|[? Hs]]; [done|]. simpl in Hs. by rewrite lookup_empty in Hs.
  - destruct (flush_pending_run config order o Hr) as (n & _ & H2 & H3 & _ & H5).
    assert (length order = size (ob_pending o)) as Hlen by (rewrite Hord; apply length_map_to_list).
    rewrite H5 in H2 by lia. intros [?|[h Hs]]; [congruence|].
    rewrite H2, lookup_foldr_delete, <-fmap_take, take_ge in Hs by done. case_decide as Hd; [done|].
    apply Hd, list_elem_of_fmap. exists (p, h). split; [done|]. rewrite Hord. by apply elem_of_map_to_list.
Qed.

(** C10: no invalidation is lost.  Take an event inside the root that reaches a
    started observer and that the filter may not hide (it passes the filter, or is
    the removal of a watched directory, or a rename).  Whatever the backend and the
    file system answer, and whatever happens afterwards, a hint covering its path
    is still waiting or has been sent; and a flush into a channel with room for
    what waits sends it. *)
Theorem no_invalidation_lost raw s sent s' :
  reachable s → within (oc_Root config) (Clean (raw_Path raw)) = true → hint_due config s.1 raw = true →
  steps (onEvent raw s).2 sent s' →
  (owes s'.1 (Clean (raw_Path raw)) ∨ ∃ h, h ∈ sent ∧ covers h (Clean (raw_Path raw))) ∧
  ∀ order, order ≡ₚ map_to_list (ob_pending s'.1) →
    (Z.of_nat (length (ob_hints s'.1)) + pendingCount s'.1 ≤ oc_HintBuffer config)%Z →
    ¬ owes (flush config order s'.1) (Clean (raw_Path raw)).
Proof.
  intros [Hi Hr]%reachable_inv Hin Hdue Hs.
  assert (paid (ob_root s.1) (ob_hints s.1) (Clean (raw_Path raw)) (onEvent raw s).2) as [[Hi1 [Hr1 _]] Ho1].
  { destruct s as [o w]. unfold Observer.onEvent. rewrite bind_run. cbn [updFst].
    apply (handleRaw_ensures config ctx clock os_Lstat os_Stat os_ReadDir backend_Add backend_Remove fuel raw).
    - by apply (cc_received config _ (quiet_closed config (ob_root o) (ob_hints o))).
    - simpl in *. congruence.
    - destruct o. exact Hdue. }
  destruct (steps_keep _ _ _ (Clean (raw_Path raw)) Hs Hi1) as (Hi2 & _ & Ho2). split.
  - apply Ho2; [congruence|done].
  - intros order Hord Hroom. by apply flush_drains.
Qed.

(** *** Bounds *)

Definition bounded (o : Observer) : Prop :=
  (Z.of_nat (size (ob_pending o)) ≤ oc_MaxPendingHints config)%Z ∧
  (Z.of_nat (length (ob_hints o)) ≤ oc_HintBuffer config)%Z ∧ length (ob_errors o) ≤ 16.

Lemma bounded_closed : (0 < oc_MaxPendingHints config)%Z → collector_closed config bounded.
Proof.
  intros Hmax. split; unfold bounded; [by intros [] t| |by intros x []|by intros []|by intros []| |by intros []|by intros []].
  - intros h o (Hp & Hh & He). unfold enqueue, escalateRootLocked.
    destruct (_ && _); [destruct o; simpl in *; rewrite map_size_empty; lia|].
    destruct (ob_rootPending o); [done|]. destruct (ob_pending o !! hi_Path h) eqn:El; [by destruct o|].
    case_decide; destruct o; simpl in *; [rewrite map_size_empty; lia|].
    rewrite map_size_insert, El. lia.
  - intros e o (Hp & Hh & He). unfold sendError. case_decide; [|done]. destruct o; simpl in *.
    rewrite length_app. simpl. lia.
Qed.

Lemma trySend_bounded h o : bounded o → bounded (trySend config h o).2.
Proof.
  unfold bounded, trySend. intros (Hp & Hh & He). case_decide; destruct o; simpl in *; [|done].
  rewrite length_app. simpl. lia.
Qed.

Lemma flush_bounded order o : bounded o → bounded (flush config order o).
Proof.
  unfold flush. intros Hb. destruct (ob_rootPending o).
  { pose proof (trySend_bounded (ob_rootHint o) o Hb) as Hs. destruct (trySend _ _ o) as [[] o1]; [|done]. by destruct o1. }
  revert o Hb. induction order as [|[p h] order IH]; intros o Hb; [done|]. cbn [flush_pending].
  pose proof (trySend_bounded h o Hb) as Hs. destruct (trySend _ h o) as [[] o1]; [|done]. apply IH.
  destruct o1; unfold bounded in *; simpl in *. destruct Hs as (Hp & ?). split; [|done].
  etrans; [|exact Hp]. apply inj_le. destruct (ob_pending0 !! p) as [h'|] eqn:E.
  - rewrite map_size_delete_Some by (by rewrite E). lia.
  - by rewrite delete_id.
Qed.

Lemma step_bounded s sent s' :
  (0 < oc_MaxPendingHints config)%Z → step s sent s' → bounded s.1 → bounded s'.1.
Proof.
  intros Hmax Hstep Hb. pose proof (bounded_closed Hmax) as Hc.
  destruct Hstep as [raw s ?|s ?|err s ?|order sent o w ? Hord Hsent|h rest o w Hh|e rest o w He|s|o w Hcl|o w w'].
  - by apply (I_onEvent config ctx clock os_Lstat os_Stat os_ReadDir backend_Add backend_Remove fuel bounded Hc).
  - by apply (I_onEventsClosed config ctx clock bounded Hc).
  - by apply (I_onError config ctx clock os_Lstat os_Stat os_ReadDir backend_Add backend_Remove fuel bounded Hc).
  - by apply flush_bounded.
  - destruct o; unfold bounded in *; simpl in *; subst; simpl in *. lia.
  - destruct o; unfold bounded in *; simpl in *; subst; simpl in *. lia.
  - by apply (I_Close config bounded Hc).
  - by apply (cc_finish config bounded Hc).
  - done.
Qed.

(** C19: the observer is bounded.  In every reachable state at most
    [MaxPendingHints] hints are pending (one when the root is), at most
    [HintBuffer] hints and sixteen errors are queued, every pending hint is kept
    under its own path, and a pending hint for the root replaces all others. *)
Theorem observer_bounded s :
  reachable s →
  (0 ≤ pendingCount s.1 ≤ oc_MaxPendingHints config)%Z ∧
  (Z.of_nat (length (ob_hints s.1)) ≤ oc_HintBuffer config)%Z ∧ length (ob_errors s.1) ≤ 16 ∧
  (∀ p h, ob_pending s.1 !! p = Some h → hi_Path h = p) ∧
  (ob_rootPending s.1 = true → ob_pending s.1 = ∅ ∧ hi_Path (ob_rootHint s.1) = oc_Root config ∧
     hi_Scope (ob_rootHint s.1) = HintSubtree).
Proof.
  intros Hreach. destruct (reachable_inv s Hreach) as [[Hroot Hpend] Hr].
  destruct Hreach as (Abs & config0 & w0 & o0 & w & l & Hnew & Hs).
  destruct (new_observer_inv _ _ _ _ _ Hnew) as (_ & _ & Hh & He & Hp & Hbuf & Hmax).
  assert (bounded (Start (o0, w)).2.1) as Hb.
  { apply (I_Start config ctx clock os_Lstat os_Stat os_ReadDir backend_Add fuel bounded (bounded_closed Hmax)
      backend_Start backend_Close (o0, w)). unfold bounded. simpl. rewrite Hh, He, Hp, map_size_empty. simpl. lia. }
  assert (bounded s.1) as (B1 & B2 & B3).
  { clear -Hs Hb Hmax. induction Hs as [|s1 l1 s2 l2 s3 Hstep Hs IH]; [done|]. apply IH. by eapply step_bounded. }
  unfold pendingCount. rewrite <-Hr. split; [destruct (ob_rootPending s.1); lia|]. split_and!; auto; lia.
Qed.
End properties.

(** ** Witnesses

    An observer of [/data] on the demonstration tree whose backend accepts every
    watch. *)

Definition demo_observer_config : ObserverConfig :=
  mkObserverConfig "/data" true 100000000 4 3 None IgnoreSymlinks.
Definition demo_observer : Observer :=
  mkObserver "/data" ObserverCreated None [] [] ∅ false (mkHint "" HintPath HintNativeChange zeroTime)
    (mkObserverStats 0 0 0 0 0) false false.
Definition demo_ReadDir (p : string) : M () (list (string * Z)) :=
  match find demo_fs (comps p) with
  | Some (TDir _ ch) => mret ((λ c, (c.1, fi_Mode (tree_info c.2))) <$> ch)
  | _ => throw (Sentinel ErrNotExist)
  end.
Definition demo_now (w : ()) : Z * () := (5%Z, w).
Definition demo_Start := Start demo_observer_config (mret ()) demo_now (tree_Lstat demo_fs) (tree_Stat demo_fs)
  demo_ReadDir (λ _, mret ()) 20 (λ _, mret ()) (mret ()).
Definition demo_onEvent := onEvent demo_observer_config (mret ()) demo_now (tree_Lstat demo_fs) (tree_Stat demo_fs)
  demo_ReadDir (λ _, mret ()) (λ _, mret ()) 20.

(** The observer after [Start] and a flush of the startup hint. *)
Definition demo_flushed (s : Observer * ()) : Observer * () :=
  (flush demo_observer_config (map_to_list (ob_pending s.1)) s.1, s.2).
Definition demo_running : Observer * () := demo_flushed (demo_Start (demo_observer, ())).2.
Definition demo_steps := steps demo_observer_config (mret ()) demo_now (tree_Lstat demo_fs) (tree_Stat demo_fs)
  demo_ReadDir (λ _, mret ()) (λ _, mret ()) 20 (mret ()).

Lemma demo_reachable :
  reachable demo_observer_config (mret ()) demo_now (tree_Lstat demo_fs) (tree_Stat demo_fs) demo_ReadDir
    (λ _, mret ()) (λ _, mret ()) 20 (λ _, mret ()) (mret ()) demo_running.
Proof.
  exists (λ p, mret p), demo_observer_config, (), demo_observer, (), ([mkHint "/data" HintSubtree HintStartup 5] ++ []).
  split; [vm_compute; reflexivity|]. eapply steps_cons; [|apply steps_refl].
  apply step_flush; [vm_compute; reflexivity|reflexivity|vm_compute; reflexivity].
Qed.

Definition demo_write : RawEvent := mkRaw "/data/b" OpWrite 5.

Lemma no_invalidation_lost_witness :
  ob_rootPending demo_running.1 = false ∧
  (owes (demo_flushed (demo_onEvent demo_write demo_running).2).1 "/data/b" ∨
   ∃ h, h ∈ [mkHint "/data/b" HintPath HintNativeChange 5] ∧ covers h "/data/b").
Proof.
  split; [vm_compute; reflexivity|].
  apply (no_invalidation_lost demo_observer_config (mret ()) demo_now (tree_Lstat demo_fs) (tree_Stat demo_fs)
    demo_ReadDir (λ _, mret ()) (λ _, mret ()) 20 (λ _, mret ()) (mret ()) demo_write demo_running
    ([mkHint "/data/b" HintPath HintNativeChange 5] ++ []) (demo_flushed (demo_onEvent demo_write demo_running).2)).
  - exact demo_reachable.
  - vm_compute. reflexivity.
  - vm_compute. reflexivity.
  - eapply steps_cons; [|apply steps_refl]. rewrite (surjective_pairing (_ : Observer * ())).
    apply step_flush; [vm_compute; reflexivity|reflexivity|vm_compute; reflexivity].
Defined.

Lemma observer_bounded_witness :
  (0 ≤ pendingCount demo_running.1 ≤ 3)%Z ∧ (Z.of_nat (length (ob_hints demo_running.1)) ≤ 4)%Z.
Proof.
  destruct (observer_bounded demo_observer_config (mret ()) demo_now (tree_Lstat demo_fs) (tree_Stat demo_fs)
    demo_ReadDir (λ _, mret ()) (λ _, mret ()) 20 (λ _, mret ()) (mret ()) demo_running demo_reachable) as (H1 & H2 & _).
  split; assumption.
Defined.

(** Coalescing can narrow a hint.  When the watched directory [/data/a]
    changes its mode and is then removed, the subtree hint of the removal is
    coalesced with the pending path hint of the mode change: the application gets
    one hint, for the path alone, and none that covers [/data/a/x]. *)
Theorem subtree_hint_absorbed :
  let s1 := (demo_onEvent (mkRaw "/data/a" OpChmod 5) demo_running).2 in
  let s2 := demo_flushed (demo_onEvent (mkRaw "/data/a" OpRemove 5) s1).2 in
  (∃ t, ob_tree s1.1 = Some t ∧ IsWatched t "/data/a" = true) ∧
  drop (length (ob_hints s1.1)) (ob_hints s2.1) = [mkHint "/data/a" HintPath HintNativeChange 5] ∧
  pendingCount s2.1 = 0%Z ∧ ob_state s2.1 = ObserverRunning ∧
  ¬ covers (mkHint "/data/a" HintPath HintNativeChange 5) "/data/a/x".
Proof.
  cbv zeta. split; [eexists; split; [reflexivity|vm_compute; reflexivity]|].
  split; [vm_compute; reflexivity|]. split; [vm_compute; reflexivity|]. split; [vm_compute; reflexivity|].
  by intros [?|[? _]].
Qed.
