(* ===== verification/TrackerRun.v ===== *)
(** * The life cycle of a tracker: [Start], [run] and [Close] of tracker.go

    [run] is two goroutines: the collector, a [select] loop over native events,
    native errors, the quiet timer and the periodic ticker, and the worker that
    drains the dirty set and reconciles.  They are a transition relation whose
    states hold the locals of [run] and a program counter for each goroutine, so
    that the worker can run between any two steps of [addDirty].  A reconciliation
    or a scrub is two steps: taking [reconcileMu] and finding the tracker open, and
    the rest up to the unlocking; the other goroutines run in between.  The end of
    [run] is one step per deferred call and per section under a lock.  [integrityMu]
    is only taken by holders of [reconcileMu], so the two are one lock here. *)

From S2P Require Import Prelude GoPath DirtySet Types Store WatchTree Scanner Normalize Debounce Tracker Reconcile.
From S2P Require Import Frame MemoryStore ReconcileSpec ReconcileTree Integrity Locked.

(** ** Statistics *)

Definition upd_received (s : trackerStats) : trackerStats :=
  let '(mkStats a b c d e f g h i j k l) := s in mkStats (u64 (a + 1)) b c d e f g h i j k l.
Definition upd_coalesced (s : trackerStats) : trackerStats :=
  let '(mkStats a b c d e f g h i j k l) := s in mkStats a (u64 (b + 1)) c d e f g h i j k l.
Definition upd_dirtyPaths (n : Z) (s : trackerStats) : trackerStats :=
  let '(mkStats a b c d e f g h i j k l) := s in mkStats a b c d e f (u64 n) h i j k l.
Definition upd_overflows (s : trackerStats) : trackerStats :=
  let '(mkStats a b c d e f g h i j k l) := s in mkStats a b c d e f g h i j k (u64 (l + 1)).

(** ** The goroutines of [run] *)

(** What the collector does after [addDirty]. *)
Inductive continuation : Type := ThenTrigger | ThenWake.
#[export] Instance continuation_eq_dec : EqDecision continuation.
Proof. solve_decision. Defined.

(** The collector: at the [select]; in [addDirty] before [dirty.Add], before the
    stores of its result, and before [markDirty]; before the continuation; after
    the return; and in the deferred functions of [run]: after [closeBackend], in
    [stopFromContext] before the locks, before [wg.Done], and at the end. *)
Inductive collectorPC : Type :=
  | AtSelect
  | AtAdd (path : string) (k : continuation)
  | AtStore (changed : bool) (count : Z) (k : continuation)
  | AtMark (k : continuation)
  | AtContinue (k : continuation)
  | Returned
  | AtStop
  | AtCloseChannels
  | AtWgDone
  | Stopped.
#[export] Instance collectorPC_eq_dec : EqDecision collectorPC.
Proof. solve_decision. Defined.

(** The worker: at its [select]; in [reconcileScopesAfterHint] before the lock, with
    the lock, and before [sendError]; after the return. *)
Inductive workerPC : Type :=
  | Waiting
  | Reconciling (scopes : list string)
  | Holding (scopes : list string)
  | Reporting (err : error)
  | WorkerDone.

(** Who holds [reconcileMu]: the worker, or the application in [Reconcile] or
    [Scrub]. *)
Inductive owner : Type := TheWorker | InReconcile | InScrub.
#[export] Instance owner_eq_dec : EqDecision owner.
Proof. solve_decision. Defined.

(** [rn_done]: the context is cancelled.  [rn_wake]: the token in [reconcileWake].
    [rn_events] and [rn_errors]: the native channels are not nil.  [rn_mu]: the
    holder of [reconcileMu]. *)
Record Run (St : Type) : Type := mkRun {
  rn_tracker : Tracker St;
  rn_dirty : Set_;
  rn_wake : bool;
  rn_quiet : Timer;
  rn_collector : collectorPC;
  rn_worker : workerPC;
  rn_stoppedReported : bool;
  rn_events : bool;
  rn_errors : bool;
  rn_done : bool;
  rn_mu : option owner
}.
Arguments mkRun {_}.
Arguments rn_tracker {_}.
Arguments rn_dirty {_}.
Arguments rn_wake {_}.
Arguments rn_quiet {_}.
Arguments rn_collector {_}.
Arguments rn_worker {_}.
Arguments rn_stoppedReported {_}.
Arguments rn_events {_}.
Arguments rn_errors {_}.
Arguments rn_done {_}.
Arguments rn_mu {_}.

Section run.
Context {W H St : Type} `{FileSystem W H} `{SnapshotStore St}.
Context (config : Config W St) (ctx : M W ()) (clock : W → Z * W).
Context (backend_Add backend_Remove : string → M W ()) (fuel : nat).
Context (fast : option (ReconcileReport → Tracker St * W → (ReconcileReport * option error) * (Tracker St * W))).

Abbreviation TW := (Tracker St * W)%type.
Abbreviation reconcile := (reconcileScopes config ctx clock backend_Add backend_Remove fuel fast).

(** [t.root] is [config.Root] and never changes. *)
Abbreviation root := (cf_Root config).

Definition onTracker (f : Tracker St → Tracker St) (r : Run St) : Run St :=
  mkRun (f (rn_tracker r)) (rn_dirty r) (rn_wake r) (rn_quiet r) (rn_collector r) (rn_worker r)
    (rn_stoppedReported r) (rn_events r) (rn_errors r) (rn_done r) (rn_mu r).
Definition goto (pc : collectorPC) (r : Run St) : Run St :=
  mkRun (rn_tracker r) (rn_dirty r) (rn_wake r) (rn_quiet r) pc (rn_worker r)
    (rn_stoppedReported r) (rn_events r) (rn_errors r) (rn_done r) (rn_mu r).
Definition with_dirty (d : Set_) (r : Run St) : Run St :=
  mkRun (rn_tracker r) d (rn_wake r) (rn_quiet r) (rn_collector r) (rn_worker r)
    (rn_stoppedReported r) (rn_events r) (rn_errors r) (rn_done r) (rn_mu r).
Definition with_wake (b : bool) (r : Run St) : Run St :=
  mkRun (rn_tracker r) (rn_dirty r) b (rn_quiet r) (rn_collector r) (rn_worker r)
    (rn_stoppedReported r) (rn_events r) (rn_errors r) (rn_done r) (rn_mu r).
Definition with_quiet (q : Timer) (r : Run St) : Run St :=
  mkRun (rn_tracker r) (rn_dirty r) (rn_wake r) q (rn_collector r) (rn_worker r)
    (rn_stoppedReported r) (rn_events r) (rn_errors r) (rn_done r) (rn_mu r).
Definition with_worker (pc : workerPC) (r : Run St) : Run St :=
  mkRun (rn_tracker r) (rn_dirty r) (rn_wake r) (rn_quiet r) (rn_collector r) pc
    (rn_stoppedReported r) (rn_events r) (rn_errors r) (rn_done r) (rn_mu r).
Definition with_done (r : Run St) : Run St :=
  mkRun (rn_tracker r) (rn_dirty r) (rn_wake r) (rn_quiet r) (rn_collector r) (rn_worker r)
    (rn_stoppedReported r) (rn_events r) (rn_errors r) true (rn_mu r).
Definition with_mu (o : option owner) (r : Run St) : Run St :=
  mkRun (rn_tracker r) (rn_dirty r) (rn_wake r) (rn_quiet r) (rn_collector r) (rn_worker r)
    (rn_stoppedReported r) (rn_events r) (rn_errors r) (rn_done r) o.

(** *** The collector *)

(** [case raw := <-nativeEvents]. *)
Definition onNativeEvent (raw : RawEvent) (r : Run St) : Run St :=
  let r := onTracker (λ t, set_stats t (upd_received (tk_stats t))) r in
  match normalize_Event raw root with
  | None => r
  | Some hint => goto (AtAdd (h_Scope hint) ThenTrigger) r
  end.

(** The closed event channel. *)
Definition onNativeClosed (r : Run St) : Run St :=
  let '(mkRun t d w q c wk rep _ er dn mu) := r in
  if negb dn && negb rep then
    let t := Tracker.sendError (markBackendUnhealthy t) (Sentinel ErrBackendStopped) in
    mkRun t d w q (AtAdd root ThenWake) wk true false er dn mu
  else mkRun t d w q c wk rep false er dn mu.

Definition handleBackendError (err : error) (z : Z) (t : Tracker St) : Tracker St :=
  let t := markDirty t in
  let t := Tracker.sendError t (Wrapf "fsrecon: native watcher" err) in
  if errors_Is err ErrOverflow then
    let t := set_stats t (upd_overflows (tk_stats t)) in
    let t := sendEvent (cf_EventBuffer config) t (mkEvent EventOverflow root "" None None SourceWatcher z) in
    sendEvent (cf_EventBuffer config) t (mkEvent EventRescanRequired root "" None None SourceWatcher z)
  else t.

Definition onNativeError (err : error) (z : Z) (r : Run St) : Run St :=
  goto (AtAdd root ThenWake) (onTracker (handleBackendError err z) r).

(** [case <-ticks]. *)
Definition onTick (r : Run St) : Run St :=
  goto (AtAdd root ThenWake) (with_quiet (Stop (rn_quiet r)) r).

(** The steps of [addDirty] and of what follows it. *)
Definition addDirty_Add (path : string) (k : continuation) (r : Run St) : Run St :=
  let '(changed, d) := DirtySet.Add (rn_dirty r) path in
  goto (AtStore changed (Len d) k) (with_dirty d r).

Definition addDirty_Store (changed : bool) (count : Z) (k : continuation) (r : Run St) : Run St :=
  goto (AtMark k) (onTracker (λ t,
    let t := set_dirtyPending t (bool_decide (0 < count)%Z) in
    let t := set_stats t (upd_dirtyPaths count (tk_stats t)) in
    if changed then t else set_stats t (upd_coalesced (tk_stats t))) r).

Definition wakeReconciler (r : Run St) : Run St := with_wake true r.

Definition continue (now : Z) (k : continuation) (r : Run St) : Run St :=
  goto AtSelect (match k with
                 | ThenTrigger => with_quiet (Trigger now (rn_quiet r)) r
                 | ThenWake => wakeReconciler r
                 end).

(** *** The worker *)

Definition drainDirty (r : Run St) : list string * Run St :=
  let '(scopes, d) := Drain (rn_dirty r) in
  (scopes, onTracker (λ t, set_dirtyPending (set_stats t (upd_dirtyPaths 0 (tk_stats t))) false)
             (with_wake false (with_dirty d r))).

(** The error of a reconciliation that is sent on. *)
Definition hintError (err : option error) : option error :=
  match err with
  | Some e => if errors_Is e Canceled || errors_Is e ErrClosed then None else Some e
  | None => None
  end.

Definition reconcileScopesAfterHint (scopes : list string) : TW → TW := λ '(t, w),
  let '((_, err), (t', w')) := reconcile scopes (t, w) in
  match hintError err with Some e => (Tracker.sendError t' e, w') | None => (t', w') end.

(** *** Close and the end of [run] *)

Definition markStopped (t : Tracker St) : Tracker St := set_state_field (set_closed t true) StateStopped.

(** [stopFromContext]: the section under [mu], then the one under the two locks. *)
Definition stopFromContext (t : Tracker St) : Tracker St := closeChannels (markStopped t).

(** [Close]: the section under [mu], and, after [wg.Wait] and under the two locks,
    the closing of the channels. *)
Definition beginClose (t : Tracker St) : Tracker St := if tk_closed t then t else markStopped t.
Definition Close (t : Tracker St) : Tracker St := closeChannels (beginClose t).

Definition closeBackend (backend_Close : M W ()) : TW → TW := λ '(t, w),
  match backend_Close w with
  | (inr err, w') => (Tracker.sendError t (Wrapf "fsrecon: close native watcher" err), w')
  | (inl _, w') => (t, w')
  end.

(** *** Start *)

(** The part of [Start] before the goroutines exist. *)
Definition startBackend (backend_Start : string → M W ()) : M TW () := λ '(t, w),
  if tk_closed t then (inr (Sentinel ErrClosed), (t, w))
  else if tk_started t then (inr (Sentinel ErrAlreadyStarted), (t, w))
  else
    let t := set_state_field (set_started t true) StateStarting in
    match backend_Start root w with
    | (inr err, w') => (inr (Wrapf "fsrecon: start native watcher" err), (setState t StateDirty, w'))
    | (inl _, w') =>
        (inl (), (setState (set_backendHealthy (set_watchTree t (Some (WatchTree.New root))) true) StateSyncing, w'))
    end.

(** [run] before its loops. *)
Definition initial_run (t : Tracker St) : Run St :=
  mkRun t (DirtySet.New root) false (Debounce.New (cf_DebounceWindow config)) AtSelect Waiting false true true false None.

(** The rest of [Start]: the initial reconciliation; on an error the loop is
    stopped and waited for. *)
Definition startReconcile (backend_Close : M W ()) : M TW () := λ '(t, w),
  match reconcile [root] (t, w) with
  | ((_, None), tw) => (inl (), tw)
  | ((_, Some err), (t', w')) =>
      let '(t'', w'') := closeBackend backend_Close (setState t' StateDirty, w') in
      (inr err, (stopFromContext t'', w''))
  end.

(** ** Runs *)

(** Labels: what the collector took from the native channels, and the scopes the
    worker drained. *)
Inductive label : Type :=
  | Took (raw : RawEvent)
  | TookError (err : error)
  | SawEventsClosed
  | SawErrorsClosed
  | Drained (scopes : list string)
  | Internal.

Abbreviation RW := (Run St * W)%type.

Context (backend_Close : M W ()) (stage_io : stageOp → M W ()).

Abbreviation locked := (reconcileLocked config ctx clock backend_Add backend_Remove fuel fast).

(** The part under the lock of a call of the application: [Reconcile], or [Scrub]. *)
Inductive call : owner → TW → TW → Prop :=
  | call_Reconcile res tw tw' : locked [root] tw = (res, tw') → call InReconcile tw tw'
  | call_Scrub check res tw tw' :
      cf_Integrity config = Some check → scrubLocked config ctx clock fuel stage_io check tw = (res, tw') →
      call InScrub tw tw'.

Inductive step : RW → label → RW → Prop :=
  (* the collector *)
  | step_event raw r w :
      rn_collector r = AtSelect → rn_events r = true → step (r, w) (Took raw) (onNativeEvent raw r, w)
  | step_events_closed r w :
      rn_collector r = AtSelect → rn_events r = true → step (r, w) SawEventsClosed (onNativeClosed r, w)
  | step_error err z r w :
      rn_collector r = AtSelect → rn_errors r = true → step (r, w) (TookError err) (onNativeError err z r, w)
  | step_errors_closed r w :
      rn_collector r = AtSelect → rn_errors r = true →
      step (r, w) SawErrorsClosed (mkRun (rn_tracker r) (rn_dirty r) (rn_wake r) (rn_quiet r) AtSelect (rn_worker r)
        (rn_stoppedReported r) (rn_events r) false (rn_done r) (rn_mu r), w)
  | step_quiet q r w :
      rn_collector r = AtSelect → receive (rn_quiet r) = Some q →
      step (r, w) Internal (goto (AtContinue ThenWake) (with_quiet q r), w)
  | step_tick r w :
      rn_collector r = AtSelect → (0 < cf_ReconcileInterval config)%Z → step (r, w) Internal (onTick r, w)
  | step_return r w :
      rn_collector r = AtSelect → rn_done r = true →
      step (r, w) Internal (goto Returned (with_quiet (Stop (rn_quiet r)) r), w)
  | step_add path k r w : rn_collector r = AtAdd path k → step (r, w) Internal (addDirty_Add path k r, w)
  | step_store changed count k r w :
      rn_collector r = AtStore changed count k → step (r, w) Internal (addDirty_Store changed count k r, w)
  | step_mark k r w : rn_collector r = AtMark k → step (r, w) Internal (goto (AtContinue k) (onTracker markDirty r), w)
  | step_continue now k r w : rn_collector r = AtContinue k → step (r, w) Internal (continue now k r, w)
  (* the worker *)
  | step_drain scopes r r' w :
      rn_worker r = Waiting → rn_wake r = true → drainDirty r = (scopes, r') →
      step (r, w) (Drained scopes) (if decide (scopes = []) then r' else with_worker (Reconciling scopes) r', w)
  | step_lock scopes r w :
      rn_worker r = Reconciling scopes → rn_mu r = None →
      step (r, w) Internal (if tk_closed (rn_tracker r) then with_worker Waiting r
                            else with_mu (Some TheWorker) (with_worker (Holding scopes) r), w)
  | step_reconcile scopes rep err t' r w w' :
      rn_worker r = Holding scopes → locked scopes (rn_tracker r, w) = ((rep, err), (t', w')) →
      step (r, w) Internal (with_mu None (with_worker (match hintError err with Some e => Reporting e | None => Waiting end)
        (onTracker (λ _, t') r)), w')
  | step_report err r w :
      rn_worker r = Reporting err →
      step (r, w) Internal (with_worker Waiting (onTracker (λ t, Tracker.sendError t err) r), w)
  | step_worker_done r w :
      rn_worker r = Waiting → rn_done r = true → step (r, w) Internal (with_worker WorkerDone r, w)
  (* the deferred end of [run] *)
  | step_close_backend t' r w w' :
      rn_collector r = Returned → rn_worker r = WorkerDone → closeBackend backend_Close (rn_tracker r, w) = (t', w') →
      step (r, w) Internal (goto AtStop (onTracker (λ _, t') r), w')
  | step_mark_stopped r w :
      rn_collector r = AtStop → step (r, w) Internal (goto AtCloseChannels (onTracker markStopped r), w)
  | step_close_channels r w :
      rn_collector r = AtCloseChannels → rn_mu r = None →
      step (r, w) Internal (goto AtWgDone (onTracker closeChannels r), w)
  | step_wg_done r w : rn_collector r = AtWgDone → step (r, w) Internal (goto Stopped r, w)
  (* the application, time and the world *)
  | step_call_lock o r w :
      o ≠ TheWorker → rn_mu r = None → tk_closed (rn_tracker r) = false → step (r, w) Internal (with_mu (Some o) r, w)
  | step_call o t' r w w' :
      rn_mu r = Some o → call o (rn_tracker r, w) (t', w') →
      step (r, w) Internal (with_mu None (onTracker (λ _, t') r), w')
  | step_receive_event e rest r w :
      tk_events (rn_tracker r) = e :: rest → step (r, w) Internal (onTracker (λ t, set_events t rest) r, w)
  | step_receive_error e rest r w :
      tk_errors (rn_tracker r) = e :: rest → step (r, w) Internal (onTracker (λ t, set_errors t rest) r, w)
  | step_close r w : step (r, w) Internal (with_done (onTracker beginClose r), w)
  | step_close_end r w :
      tk_closed (rn_tracker r) = true → rn_collector r = Stopped → rn_mu r = None →
      step (r, w) Internal (onTracker closeChannels r, w)
  | step_cancel r w : step (r, w) Internal (with_done r, w)
  | step_time now r w : step (r, w) Internal (with_quiet (advance now (rn_quiet r)) r, w)
  | step_world r w w' : step (r, w) Internal (r, w').

Inductive steps : RW → list label → RW → Prop :=
  | steps_refl s : steps s [] s
  | steps_cons s1 l s2 ls s3 : step s1 l s2 → steps s2 ls s3 → steps s1 (l :: ls) s3.
End run.

(** The steps, with the names the proofs use. *)
Ltac step_cases Hs :=
  destruct Hs as [raw r w Hpc Hev|r w Hpc Hev|err z r w Hpc He|r w Hpc He|q r w Hpc Hq|r w Hpc Ht|r w Hpc Hd
    |path k r w Hpc|ch n k r w Hpc|k r w Hpc|now k r w Hpc|scs r r' w Hw Hwk Hdr|scs r w Hw Hmu
    |scs rep err t' r w w' Hw Hr|err r w Hw|r w Hw Hd|t' r w w' Hpc Hw Hcb|r w Hpc|r w Hpc Hmu|r w Hpc
    |o r w Ho Hmu Hcl|o t' r w w' Hmu Hr|e rest r w He|e rest r w He|r w|r w Hcl Hpc Hmu|r w|now r w|r w w'].

(** ** Invariants *)

(** A tick of the quiet timer is due or waiting. *)
Definition armed (q : Timer) : Prop :=
  t_ch q = true ∧ ∃ g, t_timer q = Some g ∧ (is_Some (gt_deadline g) ∨ gt_tick g = true).

(** The collector is on its way to a trigger or a wake-up. *)
Definition busy (pc : collectorPC) : Prop :=
  match pc with AtAdd _ _ | AtStore _ _ _ | AtMark _ | AtContinue _ => True | _ => False end.

Lemma Trigger_armed now q : armed (Trigger now q).
Proof.
  unfold Trigger. destruct (t_timer q) as [g|]; [destruct (gotimer_Stop g) as [stopped g']|];
    (split; [done|]); eexists; (split; [reflexivity|]); left; simpl; eauto.
Qed.

Lemma advance_armed now q : armed q → armed (advance now q).
Proof.
  intros (Hch & [dl tick] & Ht & Hd). unfold advance. rewrite Ht. destruct dl as [d|]; [|by split; [|eexists]].
  case_decide; [|by split; [|eexists]]. split; [done|]. eexists. split; [reflexivity|]. by right.
Qed.

(** An armed timer delivers its tick when time has passed. *)
Lemma armed_receive q : armed q → ∃ now q', receive (advance now q) = Some q'.
Proof.
  intros (Hch & [dl tick] & Ht & Hd). unfold advance, receive. rewrite Ht. destruct dl as [d|].
  - exists d. rewrite decide_True by done. simpl. rewrite Hch. eauto.
  - exists 0%Z. rewrite Hch, Ht. simpl in *. destruct Hd as [[? ?]| ->]; [done|]. eauto.
Qed.

Section invariants.
Context {W H St : Type} `{FileSystem W H} `{SnapshotStore St}.
Context (config : Config W St) (ctx : M W ()) (clock : W → Z * W).
Context (backend_Add backend_Remove : string → M W ()) (fuel : nat).
Context (fast : option (ReconcileReport → Tracker St * W → (ReconcileReport * option error) * (Tracker St * W))).
Context (backend_Close : M W ()) (stage_io : stageOp → M W ()).

Abbreviation RW := (Run St * W)%type.
Abbreviation root := (cf_Root config).
Abbreviation step := (step config ctx clock backend_Add backend_Remove fuel fast backend_Close stage_io).
Abbreviation steps := (steps config ctx clock backend_Add backend_Remove fuel fast backend_Close stage_io).

Record run_inv (r : Run St) : Prop := {
  ri_set : inv_set (rn_dirty r);
  ri_root : ds_root (rn_dirty r) = root;
  ri_add path k : rn_collector r = AtAdd path k → clean_abs path ∧ within root path = true;
  ri_wake : scopes (rn_dirty r) ≠ [] →
    rn_wake r = true ∨ armed (rn_quiet r) ∨ busy (rn_collector r) ∨ rn_done r = true
}.

(** The path lies in a scope that is dirty or about to be. *)
Definition due (r : Run St) (p : string) : Prop :=
  (∃ sc k, rn_collector r = AtAdd sc k ∧ within sc p = true) ∨
  (∃ sc, sc ∈ scopes (rn_dirty r) ∧ within sc p = true).

(** A drain of the run covers the path. *)
Definition drained (ls : list label) (p : string) : Prop :=
  ∃ scs sc, Drained scs ∈ ls ∧ sc ∈ scs ∧ within sc p = true.

Lemma scope_of_inside path : clean_abs path → within root path = true → scope_of root path = path.
Proof. intros [_ Hc] Hw. unfold scope_of. by rewrite Hc, Hw. Qed.

(** Adding a scope keeps what is due and makes the scope dirty. *)
Lemma Add_due d path :
  inv_set d → ds_root d = root → clean_abs path → within root path = true →
  let d' := (DirtySet.Add d path).2 in
  inv_set d' ∧ ds_root d' = root ∧
  (∃ sc, sc ∈ scopes d' ∧ within sc path = true) ∧
  ∀ p, clean_abs p → (∃ sc, sc ∈ scopes d ∧ within sc p = true) → ∃ sc, sc ∈ scopes d' ∧ within sc p = true.
Proof.
  intros Hi Hr Hc Hw. cbv zeta. destruct (Add_spec d path Hi) as (Hi' & Hr' & Hspec).
  rewrite Hr, (scope_of_inside path Hc Hw) in Hspec. split; [done|]. split; [congruence|].
  destruct (DirtySet.Add d path) as [[] d']; cbn [fst snd] in *.
  - destruct Hspec as [_ Hsc]. split; [exists path; split; [by apply Hsc; left|by apply within_refl]|].
    intros p Hp (sc & Hin & Hsw). destruct (within path sc) eqn:E.
    + exists path. split; [by apply Hsc; left|]. apply (within_trans path sc p); [done| |done|done|done].
      by apply (scopes_clean d).
    + exists sc. split; [apply Hsc; by right|done].
  - destruct Hspec as [-> (sc & Hin & Hsw)]. split; [by exists sc|]. auto.
Qed.

(** Steps that leave the dirty set, the wake-up and the timer alone, and the
    collector where it is or in the middle of its work. *)
Lemma run_inv_same r r' :
  rn_dirty r' = rn_dirty r → rn_wake r' = rn_wake r → rn_quiet r' = rn_quiet r → rn_collector r' = rn_collector r →
  (rn_done r = true → rn_done r' = true) → run_inv r → run_inv r'.
Proof.
  intros E1 E2 E3 E4 E5 [K1 K2 K3 K4]. split; rewrite ?E1, ?E2, ?E3, ?E4; try done. intros Hs. destruct (K4 Hs) as [?|[?|[?|?]]]; auto.
Qed.

(** The collector moves on after its loop. *)
Lemma run_inv_quiet r r' :
  rn_dirty r' = rn_dirty r → rn_wake r' = rn_wake r → rn_quiet r' = rn_quiet r → rn_done r' = rn_done r →
  (∀ path k, rn_collector r' ≠ AtAdd path k) → ¬ busy (rn_collector r) → run_inv r → run_inv r'.
Proof.
  intros E1 E2 E3 E4 E5 Hb [K1 K2 K3 K4]. split; rewrite ?E1, ?E2, ?E3, ?E4; try done; [naive_solver|].
  intros Hs. destruct (K4 Hs) as [?|[?|[?|?]]]; auto.
Qed.

Lemma run_inv_goto r r' pc :
  rn_dirty r' = rn_dirty r → rn_collector r' = pc → busy pc →
  (∀ path k, pc = AtAdd path k → clean_abs path ∧ within root path = true) → run_inv r → run_inv r'.
Proof. intros E1 E2 Hb Hp [K1 K2 K3 K4]. split; rewrite ?E1, ?E2; try done. intros _. right. right. by left. Qed.

Lemma root_inside r : run_inv r → clean_abs root ∧ within root root = true.
Proof. intros [(Hc & _) Hr _ _]. rewrite Hr in Hc. split; [done|]. by apply within_refl. Qed.

Lemma AtAdd_root r path k k' : run_inv r → AtAdd root k' = AtAdd path k → clean_abs path ∧ within root path = true.
Proof. intros Hi Heq. injection Heq as <- _. by apply (root_inside r). Qed.

(** What a step does to the dirty set: the collector adds, the worker drains. *)
Lemma step_inv s l s' : step s l s' → run_inv s.1 → run_inv s'.1.
Proof.
  intros Hs Hi. destruct (root_inside _ Hi) as [Hrc Hrr].
  step_cases Hs; simpl in *.
  - unfold onNativeEvent. destruct (normalize_Event raw root) as [h|] eqn:En; [|by eapply run_inv_same, Hi].
    eapply run_inv_goto, Hi; [done|done|done|]. intros path k Heq. injection Heq as <- _.
    destruct Hrc as [Habs Hcl].
    destruct (normalize_spec raw root Habs) as [_ Hn]. destruct (Hn h En) as (K1 & K2 & _). by rewrite Hcl in K2.
  - unfold onNativeClosed. destruct r as [t d wk q c wr rep ev er dn]. simpl in *. subst c.
    destruct (negb dn && negb rep); [|by eapply run_inv_same, Hi].
    eapply run_inv_goto, Hi; [done|done|done|]. intros path k. by apply (AtAdd_root _ _ _ _ Hi).
  - eapply run_inv_goto, Hi; [done|done|done|]. intros path k. by apply (AtAdd_root _ _ _ _ Hi).
  - by eapply run_inv_same, Hi.
  - by eapply run_inv_goto, Hi.
  - eapply run_inv_goto, Hi; [done|done|done|]. intros path k. by apply (AtAdd_root _ _ _ _ Hi).
  - destruct Hi as [K1 K2 K3 K4]. split; try done. simpl. auto.
  - unfold addDirty_Add. destruct (ri_add _ Hi _ _ Hpc) as [Hc Hin].
    destruct (Add_due (rn_dirty r) path (ri_set _ Hi) (ri_root _ Hi) Hc Hin) as (K1 & K2 & _).
    destruct (DirtySet.Add (rn_dirty r) path) as [changed d]. split; simpl in *; try done. intros _. auto.
  - by eapply run_inv_goto, Hi.
  - by eapply run_inv_goto, Hi.
  - destruct Hi as [K1 K2 K3 K4]. unfold continue. destruct k; split; simpl; try done; intros _.
    + right. left. apply Trigger_armed.
    + by left.
  - unfold drainDirty in Hdr. injection Hdr as <- <-. destruct Hi as [K1 K2 K3 K4].
    assert (run_inv (onTracker (λ t, set_dirtyPending (set_stats t (upd_dirtyPaths 0 (tk_stats t))) false)
      (with_wake false (with_dirty (Drain (rn_dirty r)).2 r)))) as Hi'.
    { split; simpl; [|done|done|].
      - destruct K1 as (Hc & _ & _). split; [done|split; [apply wf_empty|]]. simpl. by rewrite map_fold_empty.
      - intros Hne. exfalso. apply Hne. unfold scopes. simpl. by rewrite map_fold_empty. }
    by case_decide; [|eapply run_inv_same, Hi'].
  - destruct (tk_closed _); by eapply run_inv_same, Hi.
  - by eapply run_inv_same, Hi.
  - by eapply run_inv_same, Hi.
  - by eapply run_inv_same, Hi.
  - eapply run_inv_quiet, Hi; try done. rewrite Hpc. by intros [].
  - eapply run_inv_quiet, Hi; try done. rewrite Hpc. by intros [].
  - eapply run_inv_quiet, Hi; try done. rewrite Hpc. by intros [].
  - eapply run_inv_quiet, Hi; try done. rewrite Hpc. by intros [].
  - by eapply run_inv_same, Hi.
  - by eapply run_inv_same, Hi.
  - by eapply run_inv_same, Hi.
  - by eapply run_inv_same, Hi.
  - by eapply run_inv_same, Hi.
  - by eapply run_inv_same, Hi.
  - by eapply run_inv_same, Hi.
  - destruct Hi as [K1 K2 K3 K4]. split; simpl; try done. intros Hs. destruct (K4 Hs) as [?|[?|[?|?]]]; auto.
    right. left. by apply advance_armed.
  - done.
Qed.

Lemma due_same r r' p :
  rn_dirty r' = rn_dirty r → (rn_collector r' = rn_collector r ∨ ∀ path k, rn_collector r ≠ AtAdd path k) →
  due r p → due r' p.
Proof.
  intros E1 E2 [(sc & k & Hpc & Hw)|Hd]; [|right; by rewrite E1].
  destruct E2 as [E2|E2]; [|by destruct (E2 sc k)]. left. exists sc, k. by rewrite E2.
Qed.

(** What is due stays due until it is drained. *)
Lemma step_due s l s' p :
  step s l s' → run_inv s.1 → clean_abs p → due s.1 p → due s'.1 p ∨ drained [l] p.
Proof.
  intros Hs Hi Hp Hdue. destruct (root_inside _ Hi) as [Hrc Hrr].
  step_cases Hs; simpl in *.
  12: { unfold drainDirty in Hdr. injection Hdr as <- <-. destruct Hdue as [(sc & k & Hpc & Hsw)|(sc & Hin & Hsw)].
    - left. left. exists sc, k. split; [|done]. by case_decide.
    - right. exists (sort_strings (scopes (rn_dirty r))), sc. split; [by left|]. split; [|done].
      by rewrite elem_of_sort_strings. }
  8: { left. right. destruct (ri_add _ Hi _ _ Hpc) as [Hc Hin].
    destruct (Add_due (rn_dirty r) path (ri_set _ Hi) (ri_root _ Hi) Hc Hin) as (K1 & K2 & (sc & Hsc & Hsw) & Hkeep).
    unfold addDirty_Add. destruct (DirtySet.Add (rn_dirty r) path) as [changed d]. simpl in *.
    destruct Hdue as [(sc' & k' & Hpc' & Hsw')|Hd]; [|by apply Hkeep].
    rewrite Hpc' in Hpc. injection Hpc as -> ->. exists sc. split; [done|].
    apply (within_trans sc path p); try done. by apply (scopes_clean d). }
  all: left; eapply due_same, Hdue; try done; try (by left); try (right; intros ? ?; congruence).
  - unfold onNativeEvent. by destruct (normalize_Event _ _).
  - unfold onNativeClosed. destruct r. by destruct (_ && _).
  - by destruct k.
  - by destruct (tk_closed _).
  - left. by destruct (tk_closed _).
Qed.

Lemma steps_due s ls s' p :
  steps s ls s' → run_inv s.1 → clean_abs p → run_inv s'.1 ∧ (due s.1 p → due s'.1 p ∨ drained ls p).
Proof.
  intros Hs. induction Hs as [s|s1 l s2 ls s3 Hstep Hs IH]; intros Hi Hp; [by split; [|left]|].
  destruct (IH (step_inv _ _ _ Hstep Hi) Hp) as [Hi3 Hd3]. split; [done|].
  intros [Hd|(scs & sc & Hin & ? & ?)]%(step_due _ _ _ p Hstep Hi Hp).
  - destruct (Hd3 Hd) as [?|(scs & sc & Hin & ? & ?)]; [by left|]. right. exists scs, sc. split; [by right|done].
  - right. exists scs, sc. apply list_elem_of_singleton in Hin as <-. split; [by left|done].
Qed.

(** The worker's steps through the lock compute [reconcileScopesAfterHint]. *)
Lemma hint_steps scopes r w :
  rn_worker r = Reconciling scopes → rn_mu r = None →
  ∃ ls r' w', steps (r, w) ls (r', w') ∧ rn_worker r' = Waiting ∧ rn_mu r' = None ∧
    (rn_tracker r', w') =
      reconcileScopesAfterHint config ctx clock backend_Add backend_Remove fuel fast scopes (rn_tracker r, w).
Proof.
  intros Hw Hmu. pose proof (step_lock config ctx clock backend_Add backend_Remove fuel fast backend_Close stage_io
    scopes r w Hw Hmu) as Hl. unfold reconcileScopesAfterHint, reconcileScopes.
  destruct (tk_closed (rn_tracker r)).
  { eexists _, _, _. split; [eapply steps_cons; [exact Hl|apply steps_refl]|]. done. }
  destruct (reconcileLocked _ _ _ _ _ _ _ scopes (rn_tracker r, w)) as [[rep err] [t' w']] eqn:Er.
  set (r1 := with_mu (Some TheWorker) (with_worker (Holding scopes) r)) in Hl.
  pose proof (step_reconcile config ctx clock backend_Add backend_Remove fuel fast backend_Close stage_io
    scopes rep err t' r1 w w' eq_refl Er) as Hs. destruct (hintError err) as [e|].
  - eexists _, _, w'. split; [|split; [|split]].
    + eapply steps_cons; [exact Hl|]. eapply steps_cons; [exact Hs|]. eapply steps_cons; [by apply step_report|]. apply steps_refl.
    + done.
    + done.
    + done.
  - eexists _, _, w'. split; [eapply steps_cons; [exact Hl|]; eapply steps_cons; [exact Hs|apply steps_refl]|]. done.
Qed.

(** The labels of steps that do not touch the native channels. *)
Definition own_label (l : label) : Prop := match l with Internal | Drained _ => True | _ => False end.

(** An idle collector and worker drain what is dirty. *)
Lemma idle_drains r w :
  run_inv r → rn_collector r = AtSelect → rn_worker r = Waiting → rn_done r = false → scopes (rn_dirty r) ≠ [] →
  ∃ ls s', steps (r, w) ls s' ∧ Drained (sort_strings (scopes (rn_dirty r))) ∈ ls ∧ Forall own_label ls.
Proof.
  intros Hi Hpc Hw Hdn Hne.
  assert (∀ r, rn_worker r = Waiting → rn_wake r = true →
    ∃ ls s', steps (r, w) ls s' ∧ Drained (sort_strings (scopes (rn_dirty r))) ∈ ls ∧ Forall own_label ls) as Hdrain.
  { intros r1 Hw1 Hk1. eexists [_], _. split; [|split; [left|by constructor]].
    eapply steps_cons; [|apply steps_refl]. by apply step_drain. }
  destruct (ri_wake _ Hi Hne) as [Hk|[Ha|[Hb|Hd]]]; [by apply Hdrain|..|congruence].
  - destruct (armed_receive _ Ha) as (now & q & Hq).
    destruct (Hdrain (continue now ThenWake (goto (AtContinue ThenWake) (with_quiet q (with_quiet (advance now (rn_quiet r)) r)))))
      as (ls & s' & Hs & Hin & Hown); [done|done|].
    exists (Internal :: Internal :: Internal :: ls), s'. split; [|split; [set_solver|by repeat constructor]].
    eapply steps_cons; [apply (step_time _ _ _ _ _ _ _ _ _ now)|].
    eapply steps_cons; [by apply step_quiet|]. eapply steps_cons; [|exact Hs]. by apply step_continue.
  - by rewrite Hpc in Hb.
Qed.

(** The collector comes back to its [select] by its own steps. *)
Definition comes_back (r : Run St) (w : W) : Prop :=
  ∃ ls r', steps (r, w) ls (r', w) ∧ Forall own_label ls ∧ rn_collector r' = AtSelect ∧ rn_worker r' = rn_worker r ∧
    rn_done r' = rn_done r ∧ rn_events r' = rn_events r ∧ rn_errors r' = rn_errors r.

Lemma comes_back_step r r1 w :
  step (r, w) Internal (r1, w) → rn_worker r1 = rn_worker r → rn_done r1 = rn_done r → rn_events r1 = rn_events r →
  rn_errors r1 = rn_errors r → comes_back r1 w → comes_back r w.
Proof.
  intros Hstep K1 K2 K3 K4 (ls & r' & Hs & Hl & ? & ? & ? & ? & ?). exists (Internal :: ls), r'.
  split; [by eapply steps_cons|]. split; [by constructor|]. split_and!; congruence.
Qed.

Lemma collector_returns r w : busy (rn_collector r) → comes_back r w.
Proof.
  assert (∀ r, rn_collector r = AtSelect → comes_back r w) as H5.
  { intros r1 Hpc. exists [], r1. split; [apply steps_refl|]. by split; [constructor|]. }
  assert (∀ r k, rn_collector r = AtContinue k → comes_back r w) as H4.
  { intros r1 k Hpc. eapply (comes_back_step _ (continue 0 k r1)); [by apply step_continue|by destruct k..|].
    apply H5. by destruct k. }
  assert (∀ r k, rn_collector r = AtMark k → comes_back r w) as H3.
  { intros r1 k Hpc. eapply comes_back_step; [by apply step_mark|done..|]. by eapply H4. }
  assert (∀ r ch n k, rn_collector r = AtStore ch n k → comes_back r w) as H2'.
  { intros r1 ch n k Hpc. eapply comes_back_step; [by apply step_store|done..|]. by eapply H3. }
  intros Hb. destruct (rn_collector r) as [|path k|ch n k|k|k| | | | |] eqn:Hpc; try done; [|by eapply H2'|by eapply H3|by eapply H4].
  eapply (comes_back_step _ (addDirty_Add path k r)); [by apply step_add|..];
    unfold addDirty_Add; destruct (DirtySet.Add (rn_dirty r) path); try done. by eapply H2'.
Qed.

(** The path of a received event is due, and every path after an error. *)
Lemma took_due s raw s' :
  clean_abs root → step s (Took raw) s' → within root (Clean (raw_Path raw)) = true → due s'.1 (Clean (raw_Path raw)).
Proof.
  intros [Habs Hcl] Hstep Hin.
  inversion Hstep as [raw' r w Hpc Hev| | | | | | | | | | | | | | | | | | | | | | | | | | | |]; subst. simpl. unfold onNativeEvent.
  destruct (normalize_spec raw root Habs) as [Hnone Hsome]. rewrite Hcl in *.
  destruct (normalize_Event raw root) as [h|] eqn:En.
  - left. exists (h_Scope h), ThenTrigger. split; [done|]. by destruct (Hsome h eq_refl) as (_ & _ & ? & _).
  - by rewrite (proj1 Hnone eq_refl) in Hin.
Qed.

Lemma error_due s err s' p : step s (TookError err) s' → within root p = true → due s'.1 p.
Proof.
  intros Hstep Hin. inversion Hstep; subst. simpl. left. by exists root, ThenWake.
Qed.

Lemma initial_inv t : clean_abs root → run_inv (initial_run config t).
Proof.
  intros [Ha Hc]. split; simpl; [by apply inv_New|done|done|]. intros Hne. exfalso. apply Hne. apply scopes_New.
Qed.

(** C17: the run loop forgets nothing.  Take a native event inside the root that
    the collector has received.  In every later state, under every interleaving of
    the collector, the worker, the application and the clock, the worker has
    drained a scope containing its path, or such a scope is dirty (or being added)
    while a wake-up, the quiet timer or the collector's next step will get it
    drained, unless the tracker is stopping; and whenever both goroutines are idle
    there is a run that drains it. *)
Theorem run_never_forgets t0 w0 ls raw s s1 ls' s' :
  clean_abs root → steps (initial_run config t0, w0) ls s → step s (Took raw) s1 → steps s1 ls' s' →
  within root (Clean (raw_Path raw)) = true →
  let p := Clean (raw_Path raw) in
  drained ls' p ∨
  due s'.1 p ∧
  (rn_wake s'.1 = true ∨ armed (rn_quiet s'.1) ∨ busy (rn_collector s'.1) ∨ rn_done s'.1 = true) ∧
  (rn_collector s'.1 = AtSelect → rn_worker s'.1 = Waiting → rn_done s'.1 = false →
     ∃ ls2 s2, steps s' ls2 s2 ∧ drained ls2 p).
Proof.
  intros Hroot Hs Hstep Hs' Hin p. destruct Hroot as [Habs Hcl].
  assert (clean_abs p) as Hp.
  { by destruct (within_inv root (raw_Path raw) (conj Habs Hcl) Hin) as [? _]. }
  destruct (steps_due _ _ _ p Hs (initial_inv t0 (conj Habs Hcl)) Hp) as [Hi _].
  pose proof (step_inv _ _ _ Hstep Hi) as Hi1.
  assert (due s1.1 p) as Hd1 by by eapply took_due.
  destruct (steps_due _ _ _ p Hs' Hi1 Hp) as [Hi' Hd]. destruct (Hd Hd1) as [Hdue|Hdr]; [right|by left].
  split; [done|]. split.
  - destruct Hdue as [(sc & k & Hpc & _)|(sc & Hsc & _)]; [rewrite Hpc; by do 2 right; left|].
    apply (ri_wake _ Hi'). intros E. by rewrite E in Hsc; apply not_elem_of_nil in Hsc.
  - intros Hpc Hw Hdn. destruct Hdue as [(sc & k & Hpc' & _)|(sc & Hsc & Hsw)]; [congruence|].
    destruct s' as [r' w']. destruct (idle_drains r' w' Hi' Hpc Hw Hdn) as (ls2 & s2 & H2' & Hin2 & _).
    { intros E. simpl in Hsc. rewrite E in Hsc. by apply not_elem_of_nil in Hsc. }
    exists ls2, s2. split; [done|]. eexists _, sc. split; [done|]. split; [|done]. by rewrite elem_of_sort_strings.
Qed.
End invariants.

(** ** The public channels *)

Section channels.
Context {W H St : Type} `{FileSystem W H} `{SnapshotStoreLaws St}.
Context (config : Config W St) (ctx : M W ()) (clock : W → Z * W).
Context (backend_Add backend_Remove : string → M W ()) (fuel : nat).
Context (fast : option (ReconcileReport → Tracker St * W → (ReconcileReport * option error) * (Tracker St * W))).
Context (Hfast : ∀ J f, tracker_closed config J → fast = Some f → ∀ rep t w, J t → J (f rep (t, w)).2.1).
Context (backend_Close : M W ()) (stage_io : stageOp → M W ()).

Abbreviation step := (step config ctx clock backend_Add backend_Remove fuel fast backend_Close stage_io).
Abbreviation steps := (steps config ctx clock backend_Add backend_Remove fuel fast backend_Close stage_io).

(** A tracker whose channels are open. *)
Definition open_tracker (root : string) (closed : bool) (t : Tracker St) : Prop :=
  tk_root t = root ∧ tk_closed t = closed ∧ tk_closeOnce t = false ∧ tk_channels t = ChannelsOpen.

Lemma open_closed root closed : clean_abs root → tracker_closed config (open_tracker root closed).
Proof.
  intros Hr. split; unfold open_tracker; try (intros [] ?; done); [by intros t (-> & _)|].
  intros t e (K1 & K2 & K3 & K4). unfold sendEvent. rewrite K4. case_decide; by destruct t.
Qed.

Lemma open_sendError root closed t e : open_tracker root closed t → open_tracker root closed (Tracker.sendError t e).
Proof. intros (K1 & K2 & K3 & K4). unfold Tracker.sendError, open_tracker. rewrite K4. case_decide; by destruct t. Qed.

(** The collector has left its loop and the worker is gone; the tracker is marked as
    stopped; the channels are closed. *)
Definition past_backend (pc : collectorPC) : Prop :=
  match pc with AtStop | AtCloseChannels | AtWgDone | Stopped => True | _ => False end.
Definition past_mark (pc : collectorPC) : Prop :=
  match pc with AtCloseChannels | AtWgDone | Stopped => True | _ => False end.
Definition past_close (pc : collectorPC) : Prop := match pc with AtWgDone | Stopped => True | _ => False end.

Record chan_inv (r : Run St) : Prop := {
  ci_root : clean_abs (tk_root (rn_tracker r));
  ci_open : tk_closeOnce (rn_tracker r) = false → tk_channels (rn_tracker r) = ChannelsOpen;
  ci_shut : tk_closeOnce (rn_tracker r) = true → tk_channels (rn_tracker r) = ChannelsClosed ∧ rn_mu r = None;
  ci_once : tk_closeOnce (rn_tracker r) = true ↔ past_close (rn_collector r);
  ci_worker : past_backend (rn_collector r) → rn_worker r = WorkerDone;
  ci_marked : past_mark (rn_collector r) → tk_closed (rn_tracker r) = true;
  ci_mu : rn_mu r = Some TheWorker ↔ ∃ scopes, rn_worker r = Holding scopes
}.

(** The channels are open before the end of [run], and while the lock is held. *)
Lemma chan_open r :
  chan_inv r → ¬ past_close (rn_collector r) →
  open_tracker (tk_root (rn_tracker r)) (tk_closed (rn_tracker r)) (rn_tracker r).
Proof.
  intros Hi Hp. assert (tk_closeOnce (rn_tracker r) = false) as Ho.
  { apply not_true_is_false. by intros ?%(ci_once _ Hi). }
  split_and!; [done|done|done|]. by apply (ci_open _ Hi).
Qed.

Lemma locked_open r : chan_inv r → is_Some (rn_mu r) → ¬ past_close (rn_collector r).
Proof. intros Hi [o Ho] Hp. apply (ci_once _ Hi), (ci_shut _ Hi) in Hp as [_ ?]. congruence. Qed.

Lemma working_open r : chan_inv r → rn_worker r ≠ WorkerDone → ¬ past_close (rn_collector r).
Proof. intros Hi Hw Hp. apply Hw, (ci_worker _ Hi). by destruct (rn_collector r). Qed.

(** Steps that change an open tracker into an open one. *)
Lemma chan_inv_tracker r r' :
  chan_inv r → ¬ past_close (rn_collector r) →
  open_tracker (tk_root (rn_tracker r)) (tk_closed (rn_tracker r)) (rn_tracker r') →
  ¬ past_close (rn_collector r') →
  (past_backend (rn_collector r') → rn_worker r' = WorkerDone) →
  (past_mark (rn_collector r') → past_mark (rn_collector r)) →
  (rn_mu r' = Some TheWorker ↔ ∃ scopes, rn_worker r' = Holding scopes) → chan_inv r'.
Proof.
  intros Hi _ (E1 & E2 & E3 & E4) Hp Hb Hm Hmu. split; try done.
  - rewrite E1. apply (ci_root _ Hi).
  - congruence.
  - rewrite E3. by split.
  - intros ?%Hm. rewrite E2. by apply (ci_marked _ Hi).
Qed.

(** The collector in its loop. *)
Lemma chan_inv_loop r r' :
  chan_inv r → ¬ past_backend (rn_collector r) → ¬ past_backend (rn_collector r') →
  open_tracker (tk_root (rn_tracker r)) (tk_closed (rn_tracker r)) (rn_tracker r') →
  rn_worker r' = rn_worker r → rn_mu r' = rn_mu r → chan_inv r'.
Proof.
  intros Hi Hp Hp' Ht E1 E2. assert (∀ pc, past_close pc → past_backend pc) as Hpc by by intros [].
  assert (∀ pc, past_mark pc → past_backend pc) as Hpm by by intros [].
  apply (chan_inv_tracker r); [done|by intros ?%Hpc|done|by intros ?%Hpc|done|by intros ?%Hpm|].
  rewrite E1, E2. apply (ci_mu _ Hi).
Qed.

(** Steps that leave the channels and the collector alone. *)
Lemma chan_inv_same r r' :
  chan_inv r → tk_root (rn_tracker r') = tk_root (rn_tracker r) →
  tk_closeOnce (rn_tracker r') = tk_closeOnce (rn_tracker r) → tk_channels (rn_tracker r') = tk_channels (rn_tracker r) →
  (tk_closed (rn_tracker r) = true → tk_closed (rn_tracker r') = true) → rn_collector r' = rn_collector r →
  (rn_worker r = WorkerDone → rn_worker r' = WorkerDone) → (tk_closeOnce (rn_tracker r) = true → rn_mu r' = None) →
  (rn_mu r' = Some TheWorker ↔ ∃ scopes, rn_worker r' = Holding scopes) → chan_inv r'.
Proof.
  intros [K1 K2 K3 K4 K5 K6 K7] E1 E2 E3 E4 E5 E6 E7 E8. split; rewrite ?E1, ?E2, ?E3, ?E5; auto.
  intros Ho. split; [by apply K3|by apply E7].
Qed.

Lemma open_unhealthy root closed t : open_tracker root closed t → open_tracker root closed (markBackendUnhealthy t).
Proof. unfold markBackendUnhealthy, open_tracker. destruct t. simpl. intros (-> & -> & -> & ->). by destruct closed. Qed.

Lemma open_handle root closed err z t :
  clean_abs root → open_tracker root closed t → open_tracker root closed (handleBackendError config err z t).
Proof.
  intros Hr Ht. pose proof (open_closed root closed Hr) as Hc. unfold handleBackendError.
  pose proof (open_sendError _ _ _ (Wrapf "fsrecon: native watcher" err) (tc_markDirty Hc _ Ht)) as H1'.
  destruct (errors_Is err ErrOverflow); [|done]. by do 2 apply (tc_send Hc); apply (tc_stats Hc).
Qed.

Lemma onTracker_closed (r : Run St) : tk_closeOnce (rn_tracker r) = true → onTracker closeChannels r = r.
Proof. intros Ho. unfold onTracker, closeChannels. rewrite Ho. by destruct r. Qed.

(** The collector is known to be before the end of [run]. *)
Ltac not_past := simpl; repeat match goal with E : rn_collector _ = _ |- _ => rewrite E end; by intros [].

Lemma step_chan s l s' : step s l s' → chan_inv s.1 → chan_inv s'.1.
Proof.
  intros Hs Hi. pose proof (open_closed _ (tk_closed (rn_tracker s.1)) (ci_root _ Hi)) as Hc.
  pose proof (chan_open _ Hi) as Hopen. pose proof (working_open _ Hi) as Hwork. pose proof (locked_open _ Hi) as Hlock.
  step_cases Hs; cbn [fst] in *.
  all: try (rewrite Hpc in Hopen; specialize (Hopen ltac:(by intros []))).
  - eapply chan_inv_loop; [exact Hi|not_past|..]; unfold onNativeEvent; destruct (normalize_Event _ _);
      try done; try not_past; by apply (tc_stats Hc).
  - assert (open_tracker (tk_root (rn_tracker r)) (tk_closed (rn_tracker r)) (rn_tracker (onNativeClosed config r))) as Ht.
    { unfold onNativeClosed. destruct r. destruct (_ && _); [|done]. simpl. by apply open_sendError, open_unhealthy. }
    eapply chan_inv_loop; [exact Hi|not_past| |exact Ht|..]; unfold onNativeClosed; destruct r; simpl in *;
      subst; destruct (_ && _); try done; by intros [].
  - eapply chan_inv_loop; [exact Hi|not_past|not_past| |done|done]. by apply open_handle; [apply (ci_root _ Hi)|].
  - by eapply chan_inv_loop; [exact Hi|not_past|not_past|..].
  - by eapply chan_inv_loop; [exact Hi|not_past|not_past|..].
  - by eapply chan_inv_loop; [exact Hi|not_past|not_past|..].
  - by eapply chan_inv_loop; [exact Hi|not_past|not_past|..].
  - assert (rn_tracker (addDirty_Add path k r) = rn_tracker r) as Ht.
    { unfold addDirty_Add. by destruct (DirtySet.Add _ _). }
    eapply chan_inv_loop; [exact Hi|not_past| |by rewrite Ht|..]; unfold addDirty_Add; destruct (DirtySet.Add _ _); done || not_past.
  - eapply chan_inv_loop; [exact Hi|not_past|not_past| |done|done]. simpl.
    destruct Hopen as (K1 & K2 & K3 & K4). destruct ch; by destruct (rn_tracker r).
  - eapply chan_inv_loop; [exact Hi|not_past|not_past| |done|done]. by apply (tc_markDirty Hc).
  - eapply chan_inv_loop; [exact Hi|not_past|..]; destruct k; done || not_past.
  - unfold drainDirty in Hdr. injection Hdr as <- <-.
    eapply chan_inv_same; [exact Hi|..]; case_decide; simpl; try done; try (by destruct (rn_tracker r)); try congruence.
    all: try (intros Ho; by apply (ci_shut _ Hi) in Ho as [_ ?]).
    all: rewrite (ci_mu _ Hi), ?Hw; naive_solver.
  - assert (¬ past_close (rn_collector r)) as Hnp by (apply Hwork; congruence).
    destruct (tk_closed (rn_tracker r)) eqn:E; (eapply chan_inv_same; [exact Hi|..]); simpl; try done; try congruence.
    all: try (intros Ho%(ci_once _ Hi); done). all: rewrite ?Hmu; naive_solver.
  - assert (¬ past_close (rn_collector r)) as Hnp by (apply Hwork; congruence).
    pose proof (reconcileLocked_closed config ctx clock backend_Add backend_Remove fuel _ Hc fast
      (λ f, Hfast _ f Hc) scs _ w (Hopen Hnp)) as Ht. rewrite Hr in Ht. cbn [snd fst] in Ht.
    eapply chan_inv_tracker; [exact Hi|done|exact Ht|done|..]; simpl; [|done|destruct (hintError err); naive_solver].
    intros Hb. by rewrite (ci_worker _ Hi Hb) in Hw.
  - assert (¬ past_close (rn_collector r)) as Hnp by (apply Hwork; congruence).
    eapply chan_inv_tracker; [exact Hi|done|by apply open_sendError, Hopen|done|..]; simpl; [|done|].
    { intros Hb. by rewrite (ci_worker _ Hi Hb) in Hw. }
    rewrite (ci_mu _ Hi), Hw. naive_solver.
  - eapply chan_inv_same; [exact Hi|..]; simpl; try done; try (intros Ho; by apply (ci_shut _ Hi) in Ho as [_ ?]).
    rewrite (ci_mu _ Hi), Hw. naive_solver.
  - assert (open_tracker (tk_root (rn_tracker r)) (tk_closed (rn_tracker r)) t') as Ht.
    { unfold closeBackend in Hcb. destruct (backend_Close w) as [[[]|e] w1]; injection Hcb as <- <-; [done|by apply open_sendError]. }
    eapply chan_inv_tracker; [exact Hi|not_past|exact Ht|by intros []|done|by intros []|]. simpl. rewrite (ci_mu _ Hi), Hw. done.
  - destruct Hi as [K1 K2 K3 K4 K5 K6 K7]. rewrite Hpc in *. destruct Hopen as (_ & _ & Ho & Hch).
    split; simpl; try done.
    all: destruct (rn_tracker r); simpl in *; subst; try done.
  - destruct Hi as [K1 K2 K3 K4 K5 K6 K7]. rewrite Hpc in *. destruct Hopen as (_ & _ & Ho & Hch).
    assert (rn_worker r = WorkerDone) as Hwd by by apply K5. assert (tk_closed (rn_tracker r) = true) as Hcl by by apply K6.
    unfold closeChannels. split; simpl; rewrite ?Ho, ?Hch; try done.
    all: destruct (rn_tracker r); simpl in *; subst; done.
  - destruct Hi as [K1 K2 K3 K4 K5 K6 K7]. rewrite Hpc in *. by split; simpl.
  - eapply chan_inv_same; [exact Hi|..]; simpl; try done.
    + intros Hon%(ci_once _ Hi). assert (past_mark (rn_collector r)) as Hm by by destruct (rn_collector r).
      apply (ci_marked _ Hi) in Hm. congruence.
    + pose proof (ci_mu _ Hi) as Hm. rewrite Hmu in Hm. naive_solver.
  - assert (¬ past_close (rn_collector r)) as Hnp by (apply Hlock; by rewrite Hmu).
    assert (open_tracker (tk_root (rn_tracker r)) (tk_closed (rn_tracker r)) t') as Ht.
    { inversion Hr as [res tw tw' E|check res tw tw' Hchk E]; subst.
      - pose proof (reconcileLocked_closed config ctx clock backend_Add backend_Remove fuel _ Hc fast
          (λ f, Hfast _ f Hc) [cf_Root config] _ w (Hopen Hnp)) as Ht. by rewrite E in Ht.
      - pose proof (scrubLocked_closed config ctx clock fuel _ Hc stage_io check _ w (Hopen Hnp)) as Ht. by rewrite E in Ht. }
    eapply chan_inv_tracker; [exact Hi|done|exact Ht|done|apply (ci_worker _ Hi)|done|]. simpl.
    pose proof (ci_mu _ Hi) as Hm. rewrite Hmu in Hm. assert (o ≠ TheWorker) by (inversion Hr; by subst). naive_solver.
  - eapply chan_inv_same; [exact Hi|..]; simpl; try (by destruct (rn_tracker r)); try done; [|apply (ci_mu _ Hi)].
    intros Ho. by apply (ci_shut _ Hi) in Ho as [_ ?].
  - eapply chan_inv_same; [exact Hi|..]; simpl; try (by destruct (rn_tracker r)); try done; [|apply (ci_mu _ Hi)].
    intros Ho. by apply (ci_shut _ Hi) in Ho as [_ ?].
  - eapply chan_inv_same; [exact Hi|..]; simpl; unfold beginClose, markStopped; try done;
      try (destruct (tk_closed (rn_tracker r)) eqn:E; by destruct (rn_tracker r)); [|apply (ci_mu _ Hi)].
    intros Ho. by apply (ci_shut _ Hi) in Ho as [_ ?].
  - assert (tk_closeOnce (rn_tracker r) = true) as Ho by (apply (ci_once _ Hi); by rewrite Hpc).
    by rewrite onTracker_closed.
  - eapply chan_inv_same; [exact Hi|..]; simpl; try done; [|apply (ci_mu _ Hi)].
    intros Ho. by apply (ci_shut _ Hi) in Ho as [_ ?].
  - eapply chan_inv_same; [exact Hi|..]; simpl; try done; [|apply (ci_mu _ Hi)].
    intros Ho. by apply (ci_shut _ Hi) in Ho as [_ ?].
  - done.
Qed.

Lemma steps_chan s ls s' : steps s ls s' → chan_inv s.1 → chan_inv s'.1.
Proof. induction 1 as [|s1 l s2 ls s3 Hstep Hs IH]; [done|]. eauto using step_chan. Qed.

Lemma initial_chan t :
  clean_abs (tk_root t) → tk_channels t = ChannelsOpen → tk_closeOnce t = false → chan_inv (initial_run config t).
Proof. intros Hr Hch Ho. split; simpl; try done; [congruence|by rewrite Ho|naive_solver]. Qed.

(** What is left of the public channels: the receiver has taken a prefix. *)
Definition only_received (t t' : Tracker St) : Prop :=
  tk_events t' `suffix_of` tk_events t ∧ tk_errors t' `suffix_of` tk_errors t.

Lemma step_shut s l s' :
  step s l s' → chan_inv s.1 → tk_closeOnce (rn_tracker s.1) = true →
  tk_closeOnce (rn_tracker s'.1) = true ∧ only_received (rn_tracker s.1) (rn_tracker s'.1).
Proof.
  intros Hs Hi Hon. pose proof (proj1 (ci_once _ Hi) Hon) as Hpast. destruct (ci_shut _ Hi Hon) as [Hch Hnone].
  assert (past_mark (rn_collector s.1) ∧ past_backend (rn_collector s.1)) as [Hm Hb] by by destruct (rn_collector s.1).
  apply (ci_marked _ Hi) in Hm. apply (ci_worker _ Hi) in Hb. unfold only_received.
  step_cases Hs; cbn [fst] in *; try (by rewrite Hpc in Hpast); try congruence.
  all: rewrite ?onTracker_closed by done; simpl; unfold beginClose; rewrite ?Hm; try done.
  - destruct (rn_tracker r); simpl in *. subst. split_and!; try done. by exists [e].
  - destruct (rn_tracker r); simpl in *. subst. split_and!; try done. by exists [e].
Qed.

(** C18: the tracker never panics on its public channels.  From a launch of [run] with
    open channels on,
    under every interleaving of the two goroutines, the application's calls of
    [Reconcile], [Scrub] and [Close], the receiver and a cancelled context, nobody
    sends on a closed channel and no channel is closed twice.  When [run] has
    returned the channels are closed and the tracker is marked as closed; once they
    are closed they only lose what the receiver takes from their front. *)
Theorem tracker_never_panics t0 w0 ls s :
  clean_abs (tk_root t0) → tk_channels t0 = ChannelsOpen → tk_closeOnce t0 = false →
  steps (initial_run config t0, w0) ls s →
  tk_channels (rn_tracker s.1) ≠ Panicked ∧
  (rn_collector s.1 = Stopped → tk_channels (rn_tracker s.1) = ChannelsClosed ∧ tk_closed (rn_tracker s.1) = true) ∧
  ∀ ls' s', steps s ls' s' → tk_channels (rn_tracker s.1) = ChannelsClosed →
    only_received (rn_tracker s.1) (rn_tracker s'.1).
Proof.
  intros Hr Hch Ho Hs. pose proof (steps_chan _ _ _ Hs (initial_chan t0 Hr Hch Ho)) as Hi. clear Hs.
  assert (∀ r, chan_inv r → tk_channels (rn_tracker r) = ChannelsClosed → tk_closeOnce (rn_tracker r) = true) as Hshut.
  { intros r Hri Hc. destruct (tk_closeOnce (rn_tracker r)) eqn:E; [done|]. by rewrite (ci_open _ Hri E) in Hc. }
  split_and!.
  - destruct (tk_closeOnce (rn_tracker s.1)) eqn:E; [by destruct (ci_shut _ Hi E) as [-> _]|by rewrite (ci_open _ Hi E)].
  - intros Hst. split; [|apply (ci_marked _ Hi); by rewrite Hst].
    apply (ci_shut _ Hi). apply (ci_once _ Hi). by rewrite Hst.
  - intros ls' s' Hs' Hc. pose proof (Hshut _ Hi Hc) as Hon. clear Hc.
    induction Hs' as [s|s1 l s2 ls' s3 Hstep Hs' IH]; [by split|].
    destruct (step_shut _ _ _ Hstep Hi Hon) as (Hon2 & He & Hre).
    destruct (IH (step_chan _ _ _ Hstep Hi) Hon2). split; by etrans.
Qed.
End channels.


(** ** Executing a schedule *)

(** The choices of a scheduler: which goroutine moves, and the times of the clock. *)
Inductive choice : Type :=
  | Event (raw : RawEvent)
  | Collector (now : Z)
  | Quiet
  | Worker
  | Clock (now : Z).

Section execute.
Context {W H St : Type} `{FileSystem W H} `{SnapshotStore St}.
Context (config : Config W St) (ctx : M W ()) (clock : W → Z * W).
Context (backend_Add backend_Remove : string → M W ()) (fuel : nat).
Context (fast : option (ReconcileReport → Tracker St * W → (ReconcileReport * option error) * (Tracker St * W))).
Context (backend_Close : M W ()) (stage_io : stageOp → M W ()).
Abbreviation RW := (Run St * W)%type.

Definition execute (c : choice) (s : RW) : option (label * RW) :=
  let '(r, w) := s in
  match c, rn_collector r, rn_worker r with
  | Event raw, AtSelect, _ => if rn_events r then Some (Took raw, (onNativeEvent config raw r, w)) else None
  | Collector _, AtAdd path k, _ => Some (Internal, (addDirty_Add path k r, w))
  | Collector _, AtStore changed count k, _ => Some (Internal, (addDirty_Store changed count k r, w))
  | Collector _, AtMark k, _ => Some (Internal, (goto (AtContinue k) (onTracker markDirty r), w))
  | Collector now, AtContinue k, _ => Some (Internal, (continue now k r, w))
  | Quiet, AtSelect, _ =>
      match receive (rn_quiet r) with
      | Some q => Some (Internal, (goto (AtContinue ThenWake) (with_quiet q r), w))
      | None => None
      end
  | Worker, _, Waiting =>
      if rn_wake r then
        let '(scopes, r') := drainDirty r in
        Some (Drained scopes, (if decide (scopes = []) then r' else with_worker (Reconciling scopes) r', w))
      else None
  | Worker, _, Reconciling scopes =>
      match rn_mu r with
      | Some _ => None
      | None => Some (Internal, (if tk_closed (rn_tracker r) then with_worker Waiting r
                                 else with_mu (Some TheWorker) (with_worker (Holding scopes) r), w))
      end
  | Worker, _, Holding scopes =>
      let '((_, err), (t', w')) :=
        reconcileLocked config ctx clock backend_Add backend_Remove fuel fast scopes (rn_tracker r, w) in
      Some (Internal, (with_mu None (with_worker (match hintError err with Some e => Reporting e | None => Waiting end)
        (onTracker (λ _, t') r)), w'))
  | Worker, _, Reporting err =>
      Some (Internal, (with_worker Waiting (onTracker (λ t, Tracker.sendError t err) r), w))
  | Clock now, _, _ => Some (Internal, (with_quiet (advance now (rn_quiet r)) r, w))
  | _, _, _ => None
  end.

Fixpoint execute_all (cs : list choice) (s : RW) : option (list label * RW) :=
  match cs with
  | [] => Some ([], s)
  | c :: cs' =>
      match execute c s with
      | Some (l, s1) => match execute_all cs' s1 with Some (ls, s2) => Some (l :: ls, s2) | None => None end
      | None => None
      end
  end.

(** A schedule that executes is a run. *)
Lemma execute_step c s l s' :
  execute c s = Some (l, s') → step config ctx clock backend_Add backend_Remove fuel fast backend_Close stage_io s l s'.
Proof.
  destruct s as [r w]. unfold execute.
  destruct c; [destruct (rn_collector r) eqn:Ec|destruct (rn_collector r) eqn:Ec|destruct (rn_collector r) eqn:Ec
    |destruct (rn_worker r) eqn:Ew|]; try done.
  - destruct (rn_events r) eqn:Ee; [|done]. intros Heq. injection Heq as <- <-. by apply step_event.
  - intros Heq. injection Heq as <- <-. by apply step_add.
  - intros Heq. injection Heq as <- <-. by apply step_store.
  - intros Heq. injection Heq as <- <-. by apply step_mark.
  - intros Heq. injection Heq as <- <-. by apply step_continue.
  - destruct (receive (rn_quiet r)) eqn:Eq; [|done]. intros Heq. injection Heq as <- <-. by apply step_quiet.
  - destruct (rn_collector r), (rn_wake r) eqn:Ek; try done; destruct (drainDirty r) as [scs r'] eqn:Ed;
      intros Heq; injection Heq as <- <-; by apply step_drain.
  - destruct (rn_collector r), (rn_mu r) eqn:Em; try done; intros Heq; injection Heq as <- <-; by apply step_lock.
  - destruct (rn_collector r); destruct (reconcileLocked _ _ _ _ _ _ _ scopes _) as [[rep err] [t' w']] eqn:Er;
      intros Heq; injection Heq as <- <-; by eapply step_reconcile.
  - destruct (rn_collector r); intros Heq; injection Heq as <- <-; by apply step_report.
  - destruct (rn_collector r), (rn_worker r); intros Heq; injection Heq as <- <-; apply step_time.
Qed.

Lemma execute_steps cs s ls s' :
  execute_all cs s = Some (ls, s') → steps config ctx clock backend_Add backend_Remove fuel fast backend_Close stage_io s ls s'.
Proof.
  revert s ls. induction cs as [|c cs IH]; intros s ls; cbn [execute_all].
  { intros Heq. injection Heq as <- <-. apply steps_refl. }
  destruct (execute c s) as [[l s1]|] eqn:Ec; [|done]. destruct (execute_all cs s1) as [[ls' s2]|] eqn:Es; [|done].
  intros Heq. injection Heq as <- <-. eapply steps_cons; [by eapply execute_step|by apply IH].
Qed.
End execute.

(** ** Witnesses and executions *)

Definition demo_run_steps := @steps () (list string) MemoryStore (TreeFS demo_fs) _ demo_cfg (mret ()) demo_clock
  (λ _, mret ()) (λ _, mret ()) 20 None (mret ()) (λ _, mret ()).
Definition demo_after_event (r : Run MemoryStore) (raw : RawEvent) (now : Z) : Run MemoryStore :=
  continue now ThenTrigger (goto (AtContinue ThenTrigger) (onTracker markDirty
    (addDirty_Store true 1 ThenTrigger (addDirty_Add "/data" ThenTrigger (onNativeEvent demo_cfg raw r))))).

Lemma demo_event_steps raw now :
  raw_Path raw = "/data/b" →
  demo_run_steps (onNativeEvent demo_cfg raw (initial_run demo_cfg demo_tracker), ()) [Internal; Internal; Internal; Internal]
    (demo_after_event (initial_run demo_cfg demo_tracker) raw now, ()).
Proof.
  destruct raw as [p op z]. simpl. intros ->.
  eapply steps_cons; [apply (step_add _ _ _ _ _ _ _ _ _ "/data" ThenTrigger); reflexivity|].
  eapply steps_cons; [apply (step_store _ _ _ _ _ _ _ _ _ true 1 ThenTrigger); vm_compute; reflexivity|].
  eapply steps_cons; [apply (step_mark _ _ _ _ _ _ _ _ _ ThenTrigger); reflexivity|].
  eapply steps_cons; [apply (step_continue _ _ _ _ _ _ _ _ _ now ThenTrigger); reflexivity|]. apply steps_refl.
Qed.

Lemma run_never_forgets_witness :
  let r' := demo_after_event (initial_run demo_cfg demo_tracker) (mkRaw "/data/b" OpWrite 0) 5 in
  drained [Internal; Internal; Internal; Internal] "/data/b" ∨
  due r' "/data/b" ∧ (rn_wake r' = true ∨ armed (rn_quiet r') ∨ busy (rn_collector r') ∨ rn_done r' = true) ∧
  (rn_collector r' = AtSelect → rn_worker r' = Waiting → rn_done r' = false →
     ∃ ls2 s2, demo_run_steps (r', ()) ls2 s2 ∧ drained ls2 "/data/b").
Proof.
  apply (@run_never_forgets () (list string) MemoryStore (TreeFS demo_fs) _ demo_cfg (mret ()) demo_clock
    (λ _, mret ()) (λ _, mret ()) 20 None (mret ()) (λ _, mret ()) demo_tracker () [] (mkRaw "/data/b" OpWrite 0)
    (initial_run demo_cfg demo_tracker, ())
    (onNativeEvent demo_cfg (mkRaw "/data/b" OpWrite 0) (initial_run demo_cfg demo_tracker), ())
    [Internal; Internal; Internal; Internal]
    (demo_after_event (initial_run demo_cfg demo_tracker) (mkRaw "/data/b" OpWrite 0) 5, ())).
  - by_decide.
  - apply steps_refl.
  - apply step_event; reflexivity.
  - apply demo_event_steps. reflexivity.
  - vm_compute. reflexivity.
Defined.

(** The context is cancelled, both goroutines return and [run] ends. *)
Definition demo_stopped : Run MemoryStore :=
  goto Stopped (goto AtWgDone (onTracker closeChannels (goto AtCloseChannels (onTracker markStopped (goto AtStop
    (onTracker (λ _, demo_tracker) (with_worker WorkerDone (goto Returned
      (with_quiet (Stop (rn_quiet (initial_run demo_cfg demo_tracker))) (with_done (initial_run demo_cfg demo_tracker))))))))))).

Lemma demo_stop_steps :
  demo_run_steps (initial_run demo_cfg demo_tracker, ()) (repeat Internal 7) (demo_stopped, ()).
Proof.
  eapply steps_cons; [apply step_cancel|].
  eapply steps_cons; [by apply step_return|].
  eapply steps_cons; [by apply step_worker_done|].
  eapply steps_cons; [by apply (step_close_backend _ _ _ _ _ _ _ _ _ demo_tracker)|].
  eapply steps_cons; [by apply step_mark_stopped|].
  eapply steps_cons; [by apply step_close_channels|].
  eapply steps_cons; [by apply step_wg_done|]. apply steps_refl.
Qed.

Lemma tracker_never_panics_witness :
  tk_channels (rn_tracker demo_stopped) ≠ Panicked ∧ tk_channels (rn_tracker demo_stopped) = ChannelsClosed ∧
  only_received (rn_tracker demo_stopped) (rn_tracker (onTracker closeChannels demo_stopped)).
Proof.
  destruct (@tracker_never_panics () (list string) MemoryStore (TreeFS demo_fs) _ _ demo_cfg (mret ()) demo_clock
    (λ _, mret ()) (λ _, mret ()) 20 None ltac:(discriminate) (mret ()) (λ _, mret ()) demo_tracker ()
    (repeat Internal 7) (demo_stopped, ())) as (Hp & Hc & Hr).
  - by_decide.
  - reflexivity.
  - reflexivity.
  - apply demo_stop_steps.
  - split; [exact Hp|]. split; [apply Hc; reflexivity|].
    apply (Hr [Internal] (onTracker closeChannels demo_stopped, ())); [|reflexivity].
    eapply steps_cons; [by apply step_close_end|]. apply steps_refl.
Defined.

(** [Close] can overtake [Start].  Between the start of the watcher and
    [t.wg.Add(1)] nothing holds [Close] back: its [wg.Wait] returns at once and the
    public channels are closed.  The loop that [Start] then launches on the cancelled
    context may still take an error of the watcher at its [select]: it sends it on
    the closed channel and panics. *)
Theorem late_start_panics :
  ∃ t1 r1, startBackend demo_cfg (λ _, mret ()) (demo_tracker, ()) = (inl (), (t1, ())) ∧
    demo_run_steps (initial_run demo_cfg (Close t1), ()) [Internal; TookError (Sentinel ErrOverflow)] (r1, ()) ∧
    tk_channels (rn_tracker r1) = Panicked.
Proof.
  eexists _, _. split; [vm_compute; reflexivity|]. split.
  - eapply steps_cons; [apply step_cancel|]. eapply steps_cons; [by apply (step_error _ _ _ _ _ _ _ _ _ _ 0)|]. apply steps_refl.
  - vm_compute. reflexivity.
Qed.

(** Nothing is dirty, in progress or scheduled. *)
Definition at_rest {St} (r : Run St) : Prop :=
  rn_collector r = AtSelect ∧ rn_worker r = Waiting ∧ rn_wake r = false ∧ rn_done r = false ∧
  receive (rn_quiet r) = None ∧ (∀ g, t_timer (rn_quiet r) = Some g → gt_deadline g = None) ∧
  scopes (rn_dirty r) = [].

Definition demo_execute := @execute_all () (list string) MemoryStore (TreeFS demo_fs) _ demo_cfg (mret ()) demo_clock
  (λ _, mret ()) (λ _, mret ()) 20 None.
Definition stale_schedule : list choice :=
  [Event (mkRaw "/data/b" OpWrite 0); Collector 0; Collector 0; Collector 0; Collector 0; Clock 1; Quiet; Collector 1;
   Event (mkRaw "/data/b" OpWrite 1); Collector 1; Worker; Worker; Worker; Collector 2; Collector 2; Collector 2;
   Clock 9; Quiet; Collector 9; Worker].
Definition stale_end : Run MemoryStore * () :=
  match demo_execute stale_schedule (initial_run demo_cfg demo_tracker, ()) with
  | Some (_, s) => s
  | None => (initial_run demo_cfg demo_tracker, ())
  end.

(** The dirty state can stick.  [addDirty] stores its count and marks the
    tracker dirty after it has released the lock; when the worker drains and
    reconciles in between, the tracker is marked dirty for a scope that is already
    reconciled.  The next wake-up finds an empty set and does nothing: the run
    comes to rest with the snapshot up to date and the state still [DIRTY]. *)
Theorem dirty_state_sticks :
  ∃ ls, demo_run_steps (initial_run demo_cfg demo_tracker, ()) ls stale_end ∧ at_rest stale_end.1 ∧
    tk_state (rn_tracker stale_end.1) = StateDirty ∧ tk_dirtyPending (rn_tracker stale_end.1) = false ∧
    ms_entries (tk_store (rn_tracker stale_end.1)) = tree_actual (theScanner demo_cfg) "/data" demo_tree.
Proof.
  eexists. split.
  { apply (execute_steps _ _ _ _ _ _ _ _ _ stale_schedule). vm_compute. reflexivity. }
  split.
  { split_and!; try (vm_compute; reflexivity). intros g. vm_compute. intros Heq. by injection Heq as <-. }
  split; [vm_compute; reflexivity|]. split; [vm_compute; reflexivity|]. vm_compute. reflexivity.
Qed.

(** The tree after [/data/a/x] has been replaced. *)
Definition changed_fs : tree :=
  TDir (demo_info ModeDir 1) [("data", TDir (demo_info ModeDir 2)
    [("b", TFile (demo_info 420 3)); ("a", TDir (demo_info ModeDir 4) [("x", TFile (demo_info 420 55))])])].
Definition deferred_steps := @steps demo_world (list string) MemoryStore (TreeFS changed_fs) _ demo_sink_config (mret ())
  demo_clock (λ _, mret ()) (λ _, mret ()) 20 None (mret ()) (λ _, mret ()).
Definition deferred_execute := @execute_all demo_world (list string) MemoryStore (TreeFS changed_fs) _ demo_sink_config
  (mret ()) demo_clock (λ _, mret ()) (λ _, mret ()) 20 None.
Definition change_event : RawEvent := mkRaw "/data/a/x" OpWrite 0.
Definition deferred_schedule : list choice :=
  [Event change_event; Collector 0; Collector 0; Collector 0; Collector 0; Clock 9; Quiet; Collector 9; Worker; Worker; Worker].
Definition deferred_end : Run MemoryStore * demo_world :=
  match deferred_execute deferred_schedule (initial_run demo_sink_config demo_pending, (0, [])) with
  | Some (_, s) => s
  | None => (initial_run demo_sink_config demo_pending, (0, []))
  end.

(** A change seen while a generation is pending is forgotten.  After a refused
    delivery, the event of a changed file wakes the worker, which drains its scope
    and calls [reconcileScopes]; that call only resumes the pending generation.  The
    run comes to rest in state [SYNCED], with nothing pending or dirty, and the
    snapshot still has the old identity of the file. *)
Theorem deferred_change_forgotten :
  ∃ ls, deferred_steps (initial_run demo_sink_config demo_pending, (0, [])) ls deferred_end ∧
    Took change_event ∈ ls ∧ at_rest deferred_end.1 ∧
    tk_state (rn_tracker deferred_end.1) = StateSynced ∧ tk_pending (rn_tracker deferred_end.1) = None ∧
    fs_ID <$> ms_entries (tk_store (rn_tracker deferred_end.1)) !! "/data/a/x" =
      Some (fs_ID (stateFromEntry (entry_of "/data/a/x" (demo_info 420 5)))) ∧
    (tree_Lstat changed_fs "/data/a/x" (0, []) : (FileInfo + error) * demo_world).1 = inl (demo_info 420 55).
Proof.
  eexists. split.
  { apply (execute_steps _ _ _ _ _ _ _ _ _ deferred_schedule). vm_compute. reflexivity. }
  split; [left|]. split.
  { split_and!; try (vm_compute; reflexivity). intros g. vm_compute. intros Heq. by injection Heq as <-. }
  split_and!; vm_compute; reflexivity.
Qed.
