(* ===== verification/Backend.v ===== *)
(** * The native backend: internal/backend/fsnotify/backend.go

    The backend pumps the events of the fsnotify library into a bounded channel,
    turns a full channel into an overflow error, and closes its two channels once.
    The library is a parameter: creating, closing and changing a watcher are
    actions on a world [W]; what the watcher delivers are choices of the step
    relation.  A send on a closed channel and a second [close] are panics.

    [Start], [Add] and [Remove] hold the mutex where they touch the fields and are
    one step each; [pump] and the calls of [Close] move between the points where
    they can be interrupted ([pumpPC], [closerPC]). *)

From Stdlib Require Import Ascii.
From S2P Require Import Prelude GoPath Types WatchTree Normalize.

(** ** Channels *)

Record chan (A : Type) : Type := mkChan {
  ch_cap : Z;
  ch_items : list A;
  ch_closed : bool
}.
Arguments mkChan {_}.
Arguments ch_cap {_}.
Arguments ch_items {_}.
Arguments ch_closed {_}.

Inductive sent (A : Type) : Type :=
  | Sent (c : chan A)
  | Full
  | Panicked.
Arguments Sent {_}.
Arguments Full {_}.
Arguments Panicked {_}.

(** [select { case c <- x: default: }]. *)
Definition try_send {A} (c : chan A) (x : A) : sent A :=
  if ch_closed c then Panicked
  else if decide (Z.of_nat (length (ch_items c)) < ch_cap c)%Z then
    Sent (mkChan (ch_cap c) (ch_items c ++ [x]) false)
  else Full.

(** [close(c)]; [None] is the panic. *)
Definition chan_close {A} (c : chan A) : option (chan A) :=
  if ch_closed c then None else Some (mkChan (ch_cap c) (ch_items c) true).

(** [x, ok := <-c] with a value. *)
Definition chan_receive {A} (c : chan A) : option (A * chan A) :=
  match ch_items c with
  | [] => None
  | x :: rest => Some (x, mkChan (ch_cap c) rest (ch_closed c))
  end.

(** ** The backend *)

Definition DefaultBuffer : Z := 1024.

(** The goroutine of [pump]: before [Start], at its [select], in its deferred
    calls, and after its return. *)
Inductive pumpPC : Type :=
  | NotStarted
  | AtSelect
  | AtCloseNative
  | AtCloseOutputs
  | AtDone
  | Finished.

(** A call of [Close] after it has set [closed]: before [closeNative], in
    [wg.Wait], before [closeOutputs], and returned. *)
Inductive closerPC : Type :=
  | InCloseNative
  | InWait (err : option error)
  | InCloseOutputs (err : option error)
  | CloseReturned (err : option error).

#[global] Instance pumpPC_eq_dec : EqDecision pumpPC.
Proof. solve_decision. Defined.
#[global] Instance closerPC_eq_dec : EqDecision closerPC.
Proof. solve_decision. Defined.

Record Backend (Wt : Type) : Type := mkBackend {
  be_buffer : Z;
  be_events : chan RawEvent;
  be_errors : chan error;
  be_watcher : option Wt;
  be_started : bool;
  be_closed : bool;
  be_nativeCloseOnce : bool;
  be_outputCloseOnce : bool;
  be_pump : pumpPC;
  be_closers : list closerPC
}.
Arguments mkBackend {_}.
Arguments be_buffer {_}.
Arguments be_events {_}.
Arguments be_errors {_}.
Arguments be_watcher {_}.
Arguments be_started {_}.
Arguments be_closed {_}.
Arguments be_nativeCloseOnce {_}.
Arguments be_outputCloseOnce {_}.
Arguments be_pump {_}.
Arguments be_closers {_}.

Section setters.
Context {Wt : Type}.
Definition set_be_events (b : Backend Wt) x : Backend Wt :=
  let '(mkBackend bu _ er wt st cl n o p cs) := b in mkBackend bu x er wt st cl n o p cs.
Definition set_be_errors (b : Backend Wt) x : Backend Wt :=
  let '(mkBackend bu ev _ wt st cl n o p cs) := b in mkBackend bu ev x wt st cl n o p cs.
Definition set_be_native (b : Backend Wt) x : Backend Wt :=
  let '(mkBackend bu ev er wt st cl _ o p cs) := b in mkBackend bu ev er wt st cl x o p cs.
Definition set_be_pump (b : Backend Wt) x : Backend Wt :=
  let '(mkBackend bu ev er wt st cl n o _ cs) := b in mkBackend bu ev er wt st cl n o x cs.
Definition set_be_closers (b : Backend Wt) x : Backend Wt :=
  let '(mkBackend bu ev er wt st cl n o p _) := b in mkBackend bu ev er wt st cl n o p x.
End setters.

Definition New {Wt} (buffer : Z) : Backend Wt :=
  let buffer := if decide (buffer = 0)%Z then DefaultBuffer else buffer in
  mkBackend buffer (mkChan buffer [] false) (mkChan 16 [] false) None false false false false NotStarted [].

(** An event of the library: its name and the bits of its operation. *)
Record nativeEvent : Type := mkNative {
  ne_Name : string;
  ne_Create : bool;
  ne_Write : bool;
  ne_Remove : bool;
  ne_Rename : bool;
  ne_Chmod : bool
}.

(** [strconv.Quote]; runes above ASCII are taken to be printable. *)
Definition hex_digit (n : nat) : ascii :=
  ascii_of_nat (if decide (n < 10) then 48 + n else 87 + n).
Definition quote_char (c : ascii) : string :=
  let n := nat_of_ascii c in
  if decide (n = 34) then String "\" (String "034" "")
  else if decide (n = 92) then "\\"
  else if decide (n = 7) then "\a"
  else if decide (n = 8) then "\b"
  else if decide (n = 9) then "\t"
  else if decide (n = 10) then "\n"
  else if decide (n = 11) then "\v"
  else if decide (n = 12) then "\f"
  else if decide (n = 13) then "\r"
  else if decide (n < 32 ∨ n = 127) then String "\" (String "x" (String (hex_digit (n / 16)) (String (hex_digit (n mod 16)) "")))
  else String c "".
Fixpoint quote_chars (s : string) : string :=
  match s with EmptyString => "" | String c s' => quote_char c +:+ quote_chars s' end.
Definition Quote (s : string) : string := String "034" (quote_chars s +:+ String "034" "").

(** [os.IsNotExist] looks below one path or system call error. *)
Definition os_IsNotExist (err : error) : bool :=
  match err with
  | Sentinel s | Wrapf _ (Sentinel s) => bool_decide (s = ErrNotExist)
  | _ => false
  end.

(** [linux]: [runtime.GOOS] is linux. *)
Definition isRemovedWatchError (linux : bool) (err : error) : bool :=
  errors_Is err ErrNonExistentWatch || errors_Is err ErrNotExist || os_IsNotExist err || (linux && errors_Is err EINVAL).

Section backend.
Context {W Wt : Type}.
Context (NewBufferedWatcher : Z → M W Wt) (watcher_Add watcher_Remove : Wt → string → M W ()) (watcher_Close : Wt → M W ()).
Context (linux : bool) (ctx : M W ()).

Abbreviation BW := (Backend Wt * W)%type.

(** ** Operations *)

Definition Start (root : string) : M BW () := λ '(b, w),
  (onSnd ctx ;;
   if be_closed b then throw (errors_New "fsnotify backend: closed")
   else if be_started b then throw (errors_New "fsnotify backend: already started")
   else
     watcher ← wrapping "create fsnotify watcher" (onSnd (NewBufferedWatcher (be_buffer b)));
     let root := Clean root in
     r ← try (onSnd (watcher_Add watcher root));
     match r with
     | inr err =>
         _ ← try (onSnd (watcher_Close watcher));
         throw (Wrapf ("watch " +:+ Quote root) err)
     | inl _ =>
         updFst (λ b, let '(mkBackend bu ev er _ _ cl n o _ cs) := b in
                      mkBackend bu ev er (Some watcher) true cl n o AtSelect cs)
     end) (b, w).

Definition Add (path : string) : M BW () :=
  b ← gets fst;
  match be_closed b, be_watcher b with
  | false, Some watcher => wrapping ("watch " +:+ Quote path) (onSnd (watcher_Add watcher (Clean path)))
  | _, _ => throw (errors_New "fsnotify backend: not running")
  end.

Definition Remove (path : string) : M BW () :=
  b ← gets fst;
  match be_closed b, be_watcher b with
  | false, Some watcher =>
      r ← try (onSnd (watcher_Remove watcher (Clean path)));
      match r with
      | inl _ => mret ()
      | inr err =>
          if isRemovedWatchError linux err then mret ()
          else throw (Wrapf ("remove watch " +:+ Quote path) err)
      end
  | _, _ => mret ()
  end.

Definition sendError (err : error) (b : Backend Wt) : option (Backend Wt) :=
  match try_send (be_errors b) err with
  | Sent c => Some (set_be_errors b c)
  | Full => Some b
  | Panicked => None
  end.

Definition rawEvent (event : nativeEvent) (now : Z) : RawEvent :=
  mkRaw (Clean (ne_Name event))
    (mapOp (ne_Create event) (ne_Write event) (ne_Remove event) (ne_Rename event) (ne_Chmod event)) now.

(** [case event := <-watcher.Events]. *)
Definition pumpEvent (event : nativeEvent) (now : Z) (b : Backend Wt) : option (Backend Wt) :=
  let raw := rawEvent event now in
  if decide (raw_Op raw = 0)%Z then Some b
  else match try_send (be_events b) raw with
       | Sent c => Some (set_be_events b c)
       | Full => sendError (Sentinel ErrOverflow) b
       | Panicked => None
       end.

(** [case err := <-watcher.Errors]. *)
Definition pumpError (err : error) (b : Backend Wt) : option (Backend Wt) :=
  let err := if errors_Is err ErrEventOverflow
             then Wrapf (Error err) (Sentinel ErrOverflow)   (* "%w: %v" *)
             else err in
  sendError err b.

Definition closeNative : BW → option error * BW := λ '(b, w),
  if be_nativeCloseOnce b then (None, (b, w))
  else
    let b := set_be_native b true in
    match be_watcher b with
    | None => (None, (b, w))
    | Some watcher =>
        match watcher_Close watcher w with
        | (inr err, w') => (Some err, (b, w'))
        | (inl _, w') => (None, (b, w'))
        end
    end.

Definition closeOutputs (b : Backend Wt) : option (Backend Wt) :=
  if be_outputCloseOnce b then Some b
  else
    match chan_close (be_events b), chan_close (be_errors b) with
    | Some ev, Some er =>
        let '(mkBackend bu _ _ wt st cl n _ p cs) := b in Some (mkBackend bu ev er wt st cl n true p cs)
    | _, _ => None
    end.

(** [Close] up to the end of its critical section. *)
Definition beginClose (b : Backend Wt) : Backend Wt :=
  let '(mkBackend bu ev er wt st _ n o p cs) := b in
  mkBackend bu ev er wt st true n o p (cs ++ [if st then InCloseNative else InCloseOutputs None]).

(** ** Steps *)

(** Labels: an event or an error the pump took from the library, with whether the
    event found room, and what a client received. *)
Inductive label : Type :=
  | Pumped (raw : RawEvent) (kept : bool)
  | PumpedError (err : error)
  | ReceivedEvent (raw : RawEvent)
  | ReceivedError (err : error)
  | Silent.

(** The steps that end the pump and the calls of [Close]. *)
Inductive closing : BW → BW → Prop :=
  | closing_channels b w :
      be_pump b = AtSelect → be_nativeCloseOnce b = true → closing (b, w) (set_be_pump b AtCloseNative, w)
  | closing_native b w :
      be_pump b = AtCloseNative →
      closing (b, w) (let '(_, (b', w')) := closeNative (b, w) in (set_be_pump b' AtCloseOutputs, w'))
  | closing_outputs b b' w :
      be_pump b = AtCloseOutputs → closeOutputs b = Some b' → closing (b, w) (set_be_pump b' AtDone, w)
  | closing_done b w : be_pump b = AtDone → closing (b, w) (set_be_pump b Finished, w)
  | closer_native i b w :
      be_closers b !! i = Some InCloseNative →
      closing (b, w) (let '(err, (b', w')) := closeNative (b, w) in
                      (set_be_closers b' (<[i := InWait err]> (be_closers b')), w'))
  | closer_wait i err b w :
      be_closers b !! i = Some (InWait err) → be_pump b = Finished →
      closing (b, w) (set_be_closers b (<[i := InCloseOutputs err]> (be_closers b)), w)
  | closer_outputs i err b b' w :
      be_closers b !! i = Some (InCloseOutputs err) → closeOutputs b = Some b' →
      closing (b, w) (set_be_closers b' (<[i := CloseReturned err]> (be_closers b')), w).

Inductive step : BW → label → BW → Prop :=
  | step_Start root s : step s Silent (Start root s).2
  | step_Add path s : step s Silent (Add path s).2
  | step_Remove path s : step s Silent (Remove path s).2
  | step_Close b w : step (b, w) Silent (beginClose b, w)
  (* the pump *)
  | step_event event now b b' w :
      be_pump b = AtSelect → pumpEvent event now b = Some b' →
      step (b, w) (if decide (raw_Op (rawEvent event now) = 0)%Z then Silent
                   else Pumped (rawEvent event now)
                     (bool_decide (Z.of_nat (length (ch_items (be_events b))) < ch_cap (be_events b))%Z)) (b', w)
  | step_error err b b' w :
      be_pump b = AtSelect → pumpError err b = Some b' → step (b, w) (PumpedError err) (b', w)
  (* the context is cancelled, or the library has closed its channels *)
  | step_return b w : be_pump b = AtSelect → step (b, w) Silent (set_be_pump b AtCloseNative, w)
  | step_closing s s' : closing s s' → step s Silent s'
  (* the client and the world *)
  | step_receive_event raw c b w :
      chan_receive (be_events b) = Some (raw, c) → step (b, w) (ReceivedEvent raw) (set_be_events b c, w)
  | step_receive_error err c b w :
      chan_receive (be_errors b) = Some (err, c) → step (b, w) (ReceivedError err) (set_be_errors b c, w)
  | step_world b w w' : step (b, w) Silent (b, w').

Inductive steps : BW → list label → BW → Prop :=
  | steps_refl s : steps s [] s
  | steps_snoc s1 ls s2 l s3 : steps s1 ls s2 → step s2 l s3 → steps s1 (ls ++ [l]) s3.
End backend.

(** ** The invariant *)

(** What holds of a call of [Close] at each of its points. *)
Definition closer_ok {Wt} (b : Backend Wt) (pc : closerPC) : Prop :=
  match pc with
  | InCloseNative => be_started b = true
  | InWait _ => be_started b = true ∧ be_nativeCloseOnce b = true
  | InCloseOutputs _ => be_pump b = Finished ∨ be_pump b = NotStarted
  | CloseReturned _ => be_outputCloseOnce b = true
  end.

Record be_inv {Wt} (buffer : Z) (b : Backend Wt) : Prop := {
  bi_buffer : be_buffer b = buffer;
  bi_events : ch_cap (be_events b) = buffer ∧ (Z.of_nat (length (ch_items (be_events b))) ≤ buffer)%Z;
  bi_errors : ch_cap (be_errors b) = 16%Z ∧ (Z.of_nat (length (ch_items (be_errors b))) ≤ 16)%Z;
  bi_outputs : ch_closed (be_events b) = be_outputCloseOnce b ∧ ch_closed (be_errors b) = be_outputCloseOnce b;
  bi_started : be_started b = bool_decide (be_pump b ≠ NotStarted);
  bi_open : be_outputCloseOnce b = true → be_pump b = AtDone ∨ be_pump b = Finished ∨ be_pump b = NotStarted;
  bi_native : be_pump b = AtCloseOutputs ∨ be_pump b = AtDone ∨ be_pump b = Finished → be_nativeCloseOnce b = true;
  bi_finished : be_pump b = AtDone ∨ be_pump b = Finished → be_outputCloseOnce b = true;
  bi_closers : Forall (closer_ok b) (be_closers b);
  bi_closed : be_closed b = false → be_closers b = [] ∧ (be_pump b = NotStarted → be_outputCloseOnce b = false)
}.

Lemma New_inv {Wt} buffer : (0 ≤ buffer)%Z → be_inv (Wt := Wt) (be_buffer (New (Wt := Wt) buffer)) (New buffer).
Proof.
  intros Hb. unfold New. cbv zeta. set (n := if decide _ then _ else _).
  assert (0 ≤ n)%Z by (unfold n, DefaultBuffer; case_decide; lia).
  split; simpl; try done; try (by intros [?|[?|?]]); try (by intros [?|?]); try lia.
Qed.

(** The fields of the invariant for a changed backend. *)
Ltac be_solve :=
  simpl in *; subst; split; simpl in *; try done; try (intuition congruence);
  try (eapply Forall_impl; [eassumption|]; intros []; simpl; intuition congruence).

Section invariant.
Context {W Wt : Type}.
Context (NewBufferedWatcher : Z → M W Wt) (watcher_Add watcher_Remove : Wt → string → M W ()) (watcher_Close : Wt → M W ()).
Context (linux : bool) (ctx : M W ()).

Abbreviation BW := (Backend Wt * W)%type.
Abbreviation closing := (closing watcher_Close).
Abbreviation step := (step NewBufferedWatcher watcher_Add watcher_Remove watcher_Close linux ctx).
Abbreviation steps := (steps NewBufferedWatcher watcher_Add watcher_Remove watcher_Close linux ctx).

Lemma try_send_spec {A} (c : chan A) x :
  ch_closed c = false →
  try_send c x = if bool_decide (Z.of_nat (length (ch_items c)) < ch_cap c)%Z
                 then Sent (mkChan (ch_cap c) (ch_items c ++ [x]) false) else Full.
Proof. intros Hc. unfold try_send. rewrite Hc. by case_decide; [rewrite bool_decide_true|rewrite bool_decide_false]. Qed.

Lemma sendError_spec err (b : Backend Wt) :
  ch_closed (be_errors b) = false →
  ∃ items, sendError err b = Some (set_be_errors b (mkChan (ch_cap (be_errors b)) items false)) ∧
    items = if bool_decide (Z.of_nat (length (ch_items (be_errors b))) < ch_cap (be_errors b))%Z
            then ch_items (be_errors b) ++ [err] else ch_items (be_errors b).
Proof.
  intros Hc. unfold sendError. rewrite try_send_spec by done.
  destruct (bool_decide _); eexists; (split; [|done]); [done|]. f_equal.
  destruct b as [bu ev [cap it cl] wt st c n o p cs]. simpl in *. by subst.
Qed.

Lemma set_errors_inv buffer (b : Backend Wt) items :
  be_inv buffer b → (Z.of_nat (length items) ≤ 16)%Z →
  be_inv buffer (set_be_errors b (mkChan (ch_cap (be_errors b)) items (ch_closed (be_errors b)))).
Proof. intros [] Hl. destruct b. be_solve. Qed.

Lemma set_events_inv buffer (b : Backend Wt) items :
  be_inv buffer b → (Z.of_nat (length items) ≤ buffer)%Z →
  be_inv buffer (set_be_events b (mkChan (ch_cap (be_events b)) items (ch_closed (be_events b)))).
Proof. intros [] Hl. destruct b. be_solve. Qed.

(** The pump never sends on a closed channel. *)
Lemma pump_open buffer (b : Backend Wt) :
  be_inv buffer b → be_pump b = AtSelect → ch_closed (be_events b) = false ∧ ch_closed (be_errors b) = false.
Proof.
  intros [] Hp. destruct bi_outputs0 as [-> ->]. destruct (be_outputCloseOnce b); [|done].
  destruct (bi_open0 eq_refl) as [?|[?|?]]; congruence.
Qed.

Lemma sendError_inv buffer err (b : Backend Wt) :
  be_inv buffer b → be_pump b = AtSelect → ∃ b', sendError err b = Some b' ∧ be_inv buffer b'.
Proof.
  intros Hi Hp. destruct (pump_open _ _ Hi Hp) as [_ Hc]. destruct (sendError_spec err b Hc) as (items & -> & Hit).
  eexists. split; [done|]. pose proof (set_errors_inv buffer b items Hi) as Hs. rewrite Hc in Hs. apply Hs.
  destruct (bi_errors _ _ Hi) as [Hcap Hlen]. rewrite Hcap in Hit.
  case_bool_decide; subst items; rewrite ?length_app; cbn [length]; lia.
Qed.

Lemma pumpEvent_inv buffer event now (b : Backend Wt) :
  be_inv buffer b → be_pump b = AtSelect → ∃ b', pumpEvent event now b = Some b' ∧ be_inv buffer b'.
Proof.
  intros Hi Hp. destruct (pump_open _ _ Hi Hp) as [Hc _]. unfold pumpEvent. cbv zeta. case_decide; [by eexists|].
  rewrite try_send_spec by done. destruct (bi_events _ _ Hi) as [Hcap Hlen].
  case_bool_decide; [|by apply sendError_inv]. eexists. split; [done|].
  pose proof (set_events_inv buffer b (ch_items (be_events b) ++ [rawEvent event now]) Hi) as Hs. rewrite Hc in Hs.
  apply Hs. rewrite length_app. simpl. lia.
Qed.

Lemma pumpError_inv buffer err (b : Backend Wt) :
  be_inv buffer b → be_pump b = AtSelect → ∃ b', pumpError err b = Some b' ∧ be_inv buffer b'.
Proof. apply sendError_inv. Qed.

Lemma closeOutputs_spec buffer (b : Backend Wt) :
  be_inv buffer b → ∃ ev er, closeOutputs b = Some (mkBackend (be_buffer b) ev er (be_watcher b) (be_started b) (be_closed b)
      (be_nativeCloseOnce b) true (be_pump b) (be_closers b)) ∧
    ev = mkChan (ch_cap (be_events b)) (ch_items (be_events b)) true ∧
    er = mkChan (ch_cap (be_errors b)) (ch_items (be_errors b)) true.
Proof.
  intros Hi. destruct (bi_outputs _ _ Hi) as [H1 H2]. unfold closeOutputs, chan_close.
  destruct b as [bu [? ? ev] [? ? er] wt st cl n o p cs]. simpl in *. subst. destruct o; eauto 10.
Qed.

Lemma closeNative_spec (b : Backend Wt) w : ∃ err w', closeNative watcher_Close (b, w) = (err, (set_be_native b true, w')).
Proof.
  unfold closeNative. destruct b as [bu ev er wt st cl n o p cs]. simpl. destruct n; [eauto|].
  destruct wt as [x|]; [|eauto]. destruct (watcher_Close x w) as [[]]; eauto.
Qed.

Lemma closer_insert (b b' : Backend Wt) i pc :
  Forall (closer_ok b) (be_closers b) → (∀ pc, closer_ok b pc → closer_ok b' pc) → closer_ok b' pc →
  Forall (closer_ok b') (<[i := pc]> (be_closers b)).
Proof. intros Hf Hk Hpc. apply Forall_insert; [|done]. by eapply Forall_impl. Qed.

Lemma closing_inv buffer s s' : closing s s' → be_inv buffer s.1 → be_inv buffer s'.1.
Proof.
  intros Hs Hi. pose proof Hi as []. destruct Hs as [b w Hp Hn|b w Hp|b b' w Hp Hc|b w Hp|i b w Hi'|i err b w Hi' Hp|i err b b' w Hi' Hc];
    cbn [fst] in *.
  - destruct b. be_solve.
  - destruct (closeNative_spec b w) as (err & w' & ->). destruct b. be_solve.
  - destruct (closeOutputs_spec _ _ Hi) as (ev & er & E & -> & ->). rewrite E in Hc. injection Hc as <-. destruct b. be_solve.
  - destruct b. be_solve.
  - destruct (closeNative_spec b w) as (err & w' & ->). pose proof (Forall_lookup_1 _ _ _ _ bi_closers0 Hi') as Hok.
    destruct b. be_solve.
    + apply Forall_insert; [|done]. eapply Forall_impl; [eassumption|]. intros []; simpl; intuition congruence.
    + intros Hcl. destruct (bi_closed0 Hcl) as [-> _]. done.
  - pose proof (Forall_lookup_1 _ _ _ _ bi_closers0 Hi') as Hok. destruct b. be_solve.
    + apply Forall_insert; [|by left]. eapply Forall_impl; [eassumption|]. intros []; simpl; intuition congruence.
    + intros Hcl. destruct (bi_closed0 Hcl) as [-> _]. done.
  - destruct (closeOutputs_spec _ _ Hi) as (ev & er & E & -> & ->). rewrite E in Hc. injection Hc as <-.
    pose proof (Forall_lookup_1 _ _ _ _ bi_closers0 Hi') as Hok. destruct b. be_solve.
    + apply Forall_insert; [|done]. eapply Forall_impl; [eassumption|]. intros []; simpl; intuition congruence.
    + intros Hcl. destruct (bi_closed0 Hcl) as [-> _]. done.
Qed.

(** [Add] and [Remove] leave the fields of the backend alone. *)
Lemma Add_frame path (s : BW) : (Add watcher_Add path s).2.1 = s.1.
Proof.
  destruct s as [b w]. unfold Add. rewrite bind_run. cbn [gets fst]. destruct (be_closed b); [done|].
  destruct (be_watcher b) as [x|]; [|done]. unfold wrapping, onSnd. by destruct (watcher_Add x (Clean path) w) as [[]].
Qed.

Lemma Remove_frame path (s : BW) : (Remove watcher_Remove linux path s).2.1 = s.1.
Proof.
  destruct s as [b w]. unfold Remove. rewrite bind_run. cbn [gets fst]. destruct (be_closed b); [done|].
  destruct (be_watcher b) as [x|]; [|done]. rewrite bind_run. unfold try, onSnd.
  destruct (watcher_Remove x (Clean path) w) as [[]]; [done|]. by destruct (isRemovedWatchError _ _).
Qed.

(** [Start] leaves the backend alone, or marks it started when it may. *)
Lemma Start_frame root (s : BW) :
  let b' := (Start NewBufferedWatcher watcher_Add watcher_Close ctx root s).2.1 in
  b' = s.1 ∨ be_closed s.1 = false ∧ be_started s.1 = false ∧
    ∃ x, b' = mkBackend (be_buffer s.1) (be_events s.1) (be_errors s.1) (Some x) true false (be_nativeCloseOnce s.1)
      (be_outputCloseOnce s.1) AtSelect (be_closers s.1).
Proof.
  destruct s as [b w]. cbv zeta. unfold Start. cbn [fst]. rewrite bind_run, onSnd_run. destruct (ctx w) as [[[]|e] w1]; [|by left].
  destruct (be_closed b) eqn:Hcl; [by left|]. destruct (be_started b) eqn:Hst; [by left|].
  rewrite bind_run. unfold wrapping. rewrite onSnd_run. destruct (NewBufferedWatcher _ _) as [[x|e] w2]; [|by left].
  rewrite bind_run. unfold try. rewrite onSnd_run. destruct (watcher_Add x (Clean root) w2) as [[[]|e] w3].
  - right. split; [done|]. split; [done|]. exists x. destruct b. simpl in *. by subst.
  - left. rewrite bind_run, onSnd_run. by destruct (watcher_Close x w3).
Qed.

Lemma be_step_inv buffer s l s' : step s l s' → be_inv buffer s.1 → be_inv buffer s'.1.
Proof.
  intros Hs Hi. destruct Hs as [root s|path s|path s|b w|event now b b' w Hp Hpump|err b b' w Hp Hpump|b w Hp|s s' Hc
    |raw c b w Hr|err c b w Hr|b w w'].
  - destruct (Start_frame root s) as [->|(Hcl & Hst & x & ->)]; [done|]. destruct Hi, s as [[] w].
    simpl in *. rewrite Hst in bi_started0. symmetry in bi_started0. apply bool_decide_eq_false in bi_started0.
    assert (be_pump0 = NotStarted) as -> by (by destruct (decide (be_pump0 = NotStarted)); [|tauto]).
    destruct (bi_closed0 Hcl) as [-> Ho]. specialize (Ho eq_refl). subst. split; simpl; try done; intuition congruence.
  - by rewrite Add_frame.
  - by rewrite Remove_frame.
  - destruct Hi, b. simpl in *. subst. split; simpl; try done. apply Forall_app_2.
    + eapply Forall_impl; [exact bi_closers0|]. by intros [].
    + constructor; [|constructor]. destruct be_pump0; simpl; tauto.
  - destruct (pumpEvent_inv _ event now _ Hi Hp) as (b1 & E & Hb1). simpl in *. congruence.
  - destruct (pumpError_inv _ err _ Hi Hp) as (b1 & E & Hb1). simpl in *. congruence.
  - destruct Hi, b. be_solve.
  - by eapply closing_inv.
  - unfold chan_receive in Hr. destruct (ch_items (be_events b)) as [|x rest] eqn:Ei; [done|]. injection Hr as <- <-.
    apply set_events_inv; [done|]. destruct (bi_events _ _ Hi) as [_ Hl]. simpl in Hl. rewrite Ei in Hl. cbn [length] in Hl. lia.
  - unfold chan_receive in Hr. destruct (ch_items (be_errors b)) as [|x rest] eqn:Ei; [done|]. injection Hr as <- <-.
    apply set_errors_inv; [done|]. destruct (bi_errors _ _ Hi) as [_ Hl]. simpl in Hl. rewrite Ei in Hl. cbn [length] in Hl. lia.
  - done.
Qed.

Lemma be_steps_inv buffer s ls s' : steps s ls s' → be_inv buffer s.1 → be_inv buffer s'.1.
Proof. intros Hs Hi. induction Hs; [done|]. by eapply be_step_inv; [|apply IHHs]. Qed.

(** ** What the channels hold *)

Definition kept_event (l : label) : option RawEvent :=
  match l with Pumped raw true => Some raw | _ => None end.
Definition received_event (l : label) : option RawEvent :=
  match l with ReceivedEvent raw => Some raw | _ => None end.

Lemma closing_items s s' :
  closing s s' → ch_items (be_events s'.1) = ch_items (be_events s.1) ∧ ch_items (be_errors s'.1) = ch_items (be_errors s.1).
Proof.
  assert (∀ b b' : Backend Wt, closeOutputs b = Some b' →
    ch_items (be_events b') = ch_items (be_events b) ∧ ch_items (be_errors b') = ch_items (be_errors b)) as Hout.
  { intros [] b'. unfold closeOutputs, chan_close. simpl. destruct be_outputCloseOnce0; [by intros [= <-]|].
    destruct (ch_closed be_events0), (ch_closed be_errors0); try done. by intros [= <-]. }
  intros [b w Hp Hn|b w Hp|b b' w Hp Hc|b w Hp|i b w Hi'|i err b w Hi' Hp|i err b b' w Hi' Hc].
  1, 4, 6: by destruct b.
  1, 3: destruct (closeNative_spec b w) as (e & w' & ->); by destruct b.
  all: apply Hout in Hc; by destruct b'.
Qed.

Lemma sendError_items err (b b' : Backend Wt) :
  sendError err b = Some b' →
  be_events b' = be_events b ∧ (ch_items (be_errors b) ≠ [] → ch_items (be_errors b') ≠ []) ∧
  ((0 < ch_cap (be_errors b))%Z → ch_items (be_errors b') ≠ []).
Proof.
  unfold sendError, try_send. destruct (ch_closed _); [done|]. case_decide as Hlt; intros [= <-].
  - destruct b. simpl in *. split; [done|]. split; intros _ Hn; by apply app_nil in Hn as [_ ?].
  - split; [done|]. split; [done|]. intros Hcap Hn. rewrite Hn in Hlt. simpl in Hlt. lia.
Qed.

Lemma step_items buffer s l s' :
  step s l s' → be_inv buffer s.1 →
  option_list (kept_event l) = [] ∧ ch_items (be_events s.1) = option_list (received_event l) ++ ch_items (be_events s'.1) ∨
  received_event l = None ∧ ch_items (be_events s'.1) = ch_items (be_events s.1) ++ option_list (kept_event l).
Proof.
  intros Hs Hi. destruct Hs as [root s|path s|path s|b w|event now b b' w Hp Hpump|err b b' w Hp Hpump|b w Hp|s s' Hc
    |raw c b w Hr|err c b w Hr|b w w']; cbn [fst].
  - left. split; [done|]. destruct (Start_frame root s) as [->|(_ & _ & x & ->)]; done.
  - left. by rewrite Add_frame.
  - left. by rewrite Remove_frame.
  - left. by destruct b.
  - destruct (pump_open _ _ Hi Hp) as [Hc _]. unfold pumpEvent in Hpump. cbv zeta in Hpump.
    destruct (decide (raw_Op (rawEvent event now) = 0%Z)); [left; by injection Hpump as <-|].
    rewrite try_send_spec in Hpump by done. right. simpl. destruct (bool_decide _); [by injection Hpump as <-; destruct b|].
    apply sendError_items in Hpump as (-> & _). simpl. by rewrite app_nil_r.
  - left. split; [done|]. apply sendError_items in Hpump as (-> & _). done.
  - left. by destruct b.
  - left. split; [done|]. by destruct (closing_items _ _ Hc) as [-> _].
  - left. split; [done|]. unfold chan_receive in Hr. destruct b as [? [? [|x rest] ?]]; [done|]. simpl in *. by injection Hr as <- <-.
  - left. by destruct b.
  - by left.
Qed.

Lemma step_errors buffer s l s' :
  step s l s' → be_inv buffer s.1 →
  (ch_items (be_errors s.1) ≠ [] → ch_items (be_errors s'.1) ≠ [] ∨ ∃ err, l = ReceivedError err) ∧
  (∀ raw, l = Pumped raw false → ch_items (be_errors s'.1) ≠ []).
Proof.
  intros Hs Hi. destruct Hs as [root s|path s|path s|b w|event now b b' w Hp Hpump|err b b' w Hp Hpump|b w Hp|s s' Hc
    |raw c b w Hr|err c b w Hr|b w w']; cbn [fst].
  - split; [|done]. destruct (Start_frame root s) as [->|(_ & _ & x & ->)]; by left.
  - rewrite Add_frame. by split; [left|].
  - rewrite Remove_frame. by split; [left|].
  - destruct b. by split; [left|].
  - destruct (pump_open _ _ Hi Hp) as [Hc _]. unfold pumpEvent in Hpump. cbv zeta in Hpump.
    destruct (decide (raw_Op (rawEvent event now) = 0%Z)); [by injection Hpump as <-; split; [left|]|]. rewrite try_send_spec in Hpump by done.
    case_bool_decide; [by injection Hpump as <-; split; [destruct b; left|]|].
    apply sendError_items in Hpump as (_ & Hk & Hn). split; [left; by apply Hk|]. intros raw _. apply Hn.
    destruct (bi_errors _ _ Hi) as [Hcap _]. simpl in Hcap. lia.
  - apply sendError_items in Hpump as (_ & Hk & _). by split; [left; apply Hk|].
  - destruct b. by split; [left|].
  - destruct (closing_items _ _ Hc) as [_ ->]. by split; [left|].
  - destruct b. by split; [left|].
  - split; [|done]. right. by exists err.
  - by split; [left|].
Qed.

(** A closed channel stays closed and is not filled again. *)
Lemma closing_closed s s' :
  closing s s' → be_outputCloseOnce s.1 = true → be_outputCloseOnce s'.1 = true.
Proof.
  assert (∀ b b' : Backend Wt, closeOutputs b = Some b' → be_outputCloseOnce b = true → be_outputCloseOnce b' = true) as Hout.
  { intros b b' E Ho. unfold closeOutputs in E. rewrite Ho in E. by injection E as <-. }
  intros [b w Hp Hn|b w Hp|b b' w Hp Hc|b w Hp|i b w Hi'|i err b w Hi' Hp|i err b b' w Hi' Hc] Ho; cbn [fst] in *.
  1, 4, 6: by destruct b.
  1, 3: destruct (closeNative_spec b w) as (e & w' & ->); by destruct b.
  all: apply Hout in Hc; [|done]; by destruct b'.
Qed.

Lemma step_closed buffer s l s' :
  step s l s' → be_inv buffer s.1 → be_outputCloseOnce s.1 = true →
  be_outputCloseOnce s'.1 = true ∧ (ch_items (be_events s.1) = [] → ch_items (be_events s'.1) = []) ∧
  (ch_items (be_errors s.1) = [] → ch_items (be_errors s'.1) = []).
Proof.
  intros Hs Hi Ho. destruct Hs as [root s|path s|path s|b w|event now b b' w Hp Hpump|err b b' w Hp Hpump|b w Hp|s s' Hc
    |raw c b w Hr|err c b w Hr|b w w']; cbn [fst] in *.
  - destruct (Start_frame root s) as [->|(_ & _ & x & ->)]; done.
  - by rewrite Add_frame.
  - by rewrite Remove_frame.
  - by destruct b.
  - destruct (bi_open _ _ Hi Ho) as [?|[?|?]]; congruence.
  - destruct (bi_open _ _ Hi Ho) as [?|[?|?]]; congruence.
  - by destruct b.
  - destruct (closing_items _ _ Hc) as [-> ->]. split; [by eapply closing_closed|done].
  - unfold chan_receive in Hr. destruct b as [? [? [|x rest] ?]]; [done|]. simpl in *. injection Hr as <- <-. by split_and!.
  - unfold chan_receive in Hr. destruct b as [? ? [? [|x rest] ?]]; [done|]. simpl in *. injection Hr as <- <-. by split_and!.
  - done.
Qed.

(** ** Properties *)

(** C15: the backend never panics and its channels are bounded.  However [Start],
    [Add], [Remove], concurrent calls of [Close], the pump, the library and the
    client interleave: the channels hold at most their capacities, the pump at its
    [select] can send whatever it receives, and closing the outputs is safe. *)
Theorem backend_never_panics buffer w0 ls b w :
  (0 ≤ buffer)%Z → steps (New buffer, w0) ls (b, w) →
  (Z.of_nat (length (ch_items (be_events b))) ≤ be_buffer b)%Z ∧ length (ch_items (be_errors b)) ≤ 16 ∧
  (be_pump b = AtSelect → (∀ event now, is_Some (pumpEvent event now b)) ∧ ∀ err, is_Some (pumpError err b)) ∧
  is_Some (closeOutputs b).
Proof.
  intros Hbuf Hs. pose proof (be_steps_inv _ _ _ _ Hs (New_inv _ Hbuf)) as Hi. simpl in Hi.
  destruct (bi_events _ _ Hi) as [_ H1], (bi_errors _ _ Hi) as [_ H2]. rewrite (bi_buffer _ _ Hi).
  split; [done|]. split; [lia|]. split.
  - intros Hp. split; [intros event now; by destruct (pumpEvent_inv _ event now _ Hi Hp) as (? & -> & _)|].
    intros err. by destruct (pumpError_inv _ err _ Hi Hp) as (? & -> & _).
  - by destruct (closeOutputs_spec _ _ Hi) as (? & ? & -> & _).
Qed.

(** C13: an event is delivered or reported as lost.  In every execution the events
    the client has received, followed by those waiting, are exactly the native
    events that found room, in their order; and after an event that found no room
    an error is waiting, or one has been received since. *)
Theorem backend_reports_loss buffer w0 ls b w :
  (0 ≤ buffer)%Z → steps (New buffer, w0) ls (b, w) →
  omap kept_event ls = omap received_event ls ++ ch_items (be_events b) ∧
  ∀ ls1 raw ls2, ls = ls1 ++ Pumped raw false :: ls2 →
    ch_items (be_errors b) ≠ [] ∨ ∃ err, ReceivedError err ∈ ls2.
Proof.
  intros Hbuf Hs. remember (New buffer, w0) as s0 eqn:E0. change b with (b, w).1 at 1 2. revert Hs.
  generalize (b, w) as s. clear b w. intros s Hs. induction Hs as [s|s1 ls s2 l s3 Hs IH Hstep]; subst.
  { split; [done|]. intros [] ? ? ?; done. }
  specialize (IH eq_refl) as [IH1 IH2]. pose proof (be_steps_inv _ _ _ _ Hs (New_inv _ Hbuf)) as Hi. split.
  - rewrite !omap_app, IH1. cbn [omap list_omap].
    destruct (step_items _ _ _ _ Hstep Hi) as [[E1 E2]|[E1 E2]].
    + rewrite E2. destruct (kept_event l); [done|]. by destruct (received_event l); simpl; rewrite ?app_nil_r, <-?app_assoc.
    + rewrite E2, E1. destruct (kept_event l); simpl; by rewrite ?app_nil_r, <-?app_assoc.
  - intros ls1 raw ls2 E. destruct (step_errors _ _ _ _ Hstep Hi) as [He1 He2].
    destruct ls2 as [|x ls2 _] using rev_ind.
    + apply app_inj_tail in E as [_ ->]. left. by eapply He2.
    + rewrite app_comm_cons, app_assoc in E. apply app_inj_tail in E as [E ->].
      destruct (IH2 _ _ _ E) as [Hne|(err & Hin)]; [|right; exists err; set_solver].
      destruct (He1 Hne) as [?|[err ->]]; [by left|]. right. exists err. set_solver.
Qed.

(** *** Closing *)

Definition pump_rank (pc : pumpPC) : nat :=
  match pc with NotStarted | Finished => 0 | AtDone => 1 | AtCloseOutputs => 2 | AtCloseNative => 3 | AtSelect => 4 end.
Definition closer_rank (pc : closerPC) : nat :=
  match pc with InCloseNative => 3 | InWait _ => 2 | InCloseOutputs _ => 1 | CloseReturned _ => 0 end.

(** The closing steps a state has left. *)
Definition closing_rank (b : Backend Wt) : nat := pump_rank (be_pump b) + sum_list_with closer_rank (be_closers b).

Lemma sum_insert l i pc pc' :
  l !! i = Some pc → closer_rank pc' < closer_rank pc →
  sum_list_with closer_rank (<[i := pc']> l) < sum_list_with closer_rank l.
Proof.
  revert i. induction l as [|x l IH]; intros [|i] Hi Hlt; simplify_eq/=; [lia|]. specialize (IH i Hi Hlt). lia.
Qed.

Lemma closing_decreases s s' : closing s s' → closing_rank s'.1 < closing_rank s.1.
Proof.
  assert (∀ b b' : Backend Wt, closeOutputs b = Some b' → be_pump b' = be_pump b ∧ be_closers b' = be_closers b) as Hout.
  { intros [] b'. unfold closeOutputs. simpl. destruct be_outputCloseOnce0; [by intros [= <-]|].
    destruct (chan_close be_events0), (chan_close be_errors0); try done. by intros [= <-]. }
  intros [b w Hp Hn|b w Hp|b b' w Hp Hc|b w Hp|i b w Hi'|i err b w Hi' Hp|i err b b' w Hi' Hc]; cbn [fst]; unfold closing_rank.
  - destruct b. simpl in *. rewrite Hp. simpl. lia.
  - destruct (closeNative_spec b w) as (e & w' & ->). destruct b. simpl in *. rewrite Hp. simpl. lia.
  - destruct (Hout _ _ Hc) as [E1 E2]. destruct b'. simpl in *. rewrite E2, Hp. simpl. lia.
  - destruct b. simpl in *. rewrite Hp. simpl. lia.
  - destruct (closeNative_spec b w) as (e & w' & ->). destruct b. simpl in *.
    pose proof (sum_insert _ _ _ (InWait e) Hi' ltac:(simpl; lia)). lia.
  - destruct b. simpl in *. pose proof (sum_insert _ _ _ (InCloseOutputs err) Hi' ltac:(simpl; lia)). lia.
  - destruct (Hout _ _ Hc) as [E1 E2]. destruct b'. simpl in *. rewrite E2, E1.
    pose proof (sum_insert _ _ _ (CloseReturned err) Hi' ltac:(simpl; lia)). lia.
Qed.

Lemma closing_sn s : sn closing s.
Proof.
  assert (∀ n s, closing_rank s.1 < n → sn closing s) as Hn.
  { induction n as [|n IH]; intros s' Hlt; [lia|]. constructor. intros s'' Hc. apply IH.
    pose proof (closing_decreases _ _ Hc). lia. }
  apply (Hn (S (closing_rank s.1))). lia.
Qed.

(** A call of [Close] that has not returned has a closing step to wait for. *)
Lemma closing_progress buffer b w i pc :
  be_inv buffer b → be_closers b !! i = Some pc → (∀ err, pc ≠ CloseReturned err) → red closing (b, w).
Proof.
  intros Hi Hpc Hne. pose proof (Forall_lookup_1 _ _ _ _ (bi_closers _ _ Hi) Hpc) as Hok.
  destruct (closeOutputs_spec _ _ Hi) as (ev & er & Eo & _).
  destruct pc as [|err|err|err]; [..|by destruct (Hne err)].
  - eexists. by eapply closer_native.
  - destruct Hok as [Hst Hn]. rewrite (bi_started _ _ Hi) in Hst. apply bool_decide_eq_true in Hst.
    destruct (be_pump b) eqn:Ep; [done|..].
    + eexists. by apply closing_channels.
    + eexists. by apply closing_native.
    + eexists. by eapply closing_outputs.
    + eexists. by apply closing_done.
    + eexists. by eapply closer_wait.
  - eexists. by eapply closer_outputs.
Qed.

Lemma rtc_closing_inv buffer s s' : rtc closing s s' → be_inv buffer s.1 → be_inv buffer s'.1.
Proof. intros Hs. induction Hs; [done|]. intros Hi. by eauto using closing_inv. Qed.

(** C14: [Close] returns.  From every reachable state the steps that end the pump and
    the calls of [Close] terminate, in every order, and when none is left all
    calls have returned; if there was one, both channels are closed and the pump,
    if it was started, has finished. *)
Theorem close_returns buffer w0 ls s :
  (0 ≤ buffer)%Z → steps (New buffer, w0) ls s →
  sn closing s ∧
  ∀ s', rtc closing s s' → nf closing s' →
    Forall (λ pc, ∃ err, pc = CloseReturned err) (be_closers s'.1) ∧
    (be_closers s'.1 ≠ [] → ch_closed (be_events s'.1) = true ∧ ch_closed (be_errors s'.1) = true ∧
       (be_pump s'.1 = Finished ∨ be_pump s'.1 = NotStarted)).
Proof.
  intros Hbuf Hs. split; [apply closing_sn|]. intros [b w] Hr Hnf.
  pose proof (rtc_closing_inv _ _ _ Hr (be_steps_inv _ _ _ _ Hs (New_inv _ Hbuf))) as Hi. cbn [fst] in *.
  assert (Forall (λ pc, ∃ err, pc = CloseReturned err) (be_closers b)) as Hall.
  { apply Forall_lookup_2. intros i pc Hpc. destruct pc as [| | |err]; [..|by exists err]; exfalso; apply Hnf;
      (eapply closing_progress; [exact Hi|exact Hpc|done]). }
  split; [done|]. intros Hne. destruct (be_closers b) as [|pc cs] eqn:Ecs; [done|].
  assert (be_outputCloseOnce b = true) as Ho.
  { pose proof (bi_closers _ _ Hi) as Hok. rewrite Ecs in Hok. apply Forall_cons in Hok as [Hok _].
    apply Forall_cons in Hall as [[err ->] _]. exact Hok. }
  destruct (bi_outputs _ _ Hi) as [-> ->]. split; [done|]. split; [done|].
  destruct (bi_open _ _ Hi Ho) as [Hp|[?|?]]; [|by left|by right].
  exfalso. apply Hnf. eexists. by apply closing_done.
Qed.
End invariant.

(** ** The promises to the watch tree *)

Section laws.
Context {W Wt : Type}.
Context (NewBufferedWatcher : Z → M W Wt) (watcher_Add watcher_Remove : Wt → string → M W ()) (watcher_Close : Wt → M W ()).
Context (linux : bool) (ctx : M W ()).
Context (regs : Wt → W → gset string).

(** The documented behaviour of a watcher with the registrations [regs]: a call that
    succeeds has changed them, one that fails has not, and the errors for a watch
    that does not exist are returned for those only. *)
Record native_laws : Prop := {
  nl_new n w x w' : NewBufferedWatcher n w = (inl x, w') → regs x w' = ∅;
  nl_add x p w w' : watcher_Add x p w = (inl (), w') → regs x w' = {[p]} ∪ regs x w;
  nl_add_err x p w e w' : watcher_Add x p w = (inr e, w') → regs x w' = regs x w;
  nl_remove x p w w' : watcher_Remove x p w = (inl (), w') → regs x w' = regs x w ∖ {[p]};
  nl_remove_err x p w e w' : watcher_Remove x p w = (inr e, w') → regs x w' = regs x w;
  nl_removed x p w e w' : watcher_Remove x p w = (inr e, w') → isRemovedWatchError linux e = true → p ∉ regs x w
}.

Abbreviation BW := (Backend Wt * W)%type.

(** The registrations of a running backend. *)
Definition be_regs (s : BW) : gset string :=
  match be_closed s.1, be_watcher s.1 with false, Some x => regs x s.2 | _, _ => ∅ end.

(** A path whose removal can fail with an error that the watch tree reads as "the
    watch is gone": the backend's error quotes the path and the library's text. *)
Definition misread (p : string) : Prop :=
  ∃ x w e w', watcher_Remove x p w = (inr e, w') ∧ isRemovedWatchError linux e = false ∧
    isAlreadyGone (Wrapf ("remove watch " +:+ Quote p) e) = true.

Lemma Add_regs p b w r s :
  native_laws → clean_abs p → Add watcher_Add p (b, w) = (r, s) →
  match r with inl _ => be_regs s = {[p]} ∪ be_regs (b, w) | inr _ => be_regs s = be_regs (b, w) end.
Proof.
  intros Hl [_ Hp] E. unfold Add in E. rewrite bind_run in E. cbn [gets fst] in E.
  destruct (be_closed b) eqn:Hcl; [by injection E as <- <-|].
  destruct (be_watcher b) as [x|] eqn:Hx; [|by injection E as <- <-].
  unfold wrapping in E. rewrite onSnd_run, Hp in E. destruct (watcher_Add x p w) as [[[]|e] w'] eqn:Ex; injection E as <- <-;
    unfold be_regs; cbn [fst snd]; rewrite Hcl, Hx; [by eapply nl_add|by eapply nl_add_err].
Qed.

Lemma Remove_regs p b w r s :
  native_laws → clean_abs p → Remove watcher_Remove linux p (b, w) = (r, s) →
  match r with
  | inl _ => be_regs s = be_regs (b, w) ∖ {[p]}
  | inr e => be_regs s = be_regs (b, w) ∧ (isAlreadyGone e = true → misread p)
  end.
Proof.
  intros Hl [_ Hp] E. unfold Remove in E. rewrite bind_run in E. cbn [gets fst] in E.
  destruct (be_closed b) eqn:Hcl; [injection E as <- <-; unfold be_regs; cbn [fst]; rewrite Hcl; set_solver|].
  destruct (be_watcher b) as [x|] eqn:Hx; [|injection E as <- <-; unfold be_regs; cbn [fst]; rewrite Hcl, Hx; set_solver].
  rewrite bind_run in E. unfold try in E. rewrite onSnd_run, Hp in E.
  destruct (watcher_Remove x p w) as [[[]|e] w'] eqn:Ex; [|destruct (isRemovedWatchError linux e) eqn:Er]; injection E as <- <-;
    unfold be_regs; cbn [fst snd]; rewrite Hcl, Hx.
  - by eapply nl_remove.
  - pose proof (nl_removed Hl _ _ _ _ _ Ex Er). rewrite (nl_remove_err Hl _ _ _ _ _ Ex). set_solver.
  - split; [by eapply nl_remove_err|]. intros Hg. by exists x, w, e, w'.
Qed.

(** The interface of the watch tree, for the paths that are not misread. *)
Lemma backend_discharges :
  native_laws → backend_laws (Add watcher_Add) (Remove watcher_Remove linux) (λ p, ¬ misread p) be_regs.
Proof.
  intros Hl. split.
  - intros p [b w] w' Hc _ E. by apply Add_regs in E.
  - intros p [b w] e w' Hc _ E. by apply Add_regs in E.
  - intros p [b w] w' Hc _ E. by apply Remove_regs in E.
  - intros p [b w] e w' Hc Hn E. apply Remove_regs in E as [-> Hg]; [|done..]. split; [done|]. intros Hx. by apply Hg in Hx.
Qed.

(** The tree and the registrations, up to the watches in [dropped], which the library
    has given up. *)
Record tracked (dropped : gset string) (st : Tree * BW) : Prop := {
  tr_live p : p ∈ be_regs st.2 → p ∈ wt_watched st.1 ∨ misread p;
  tr_watched p : p ∈ wt_watched st.1 → p ∈ be_regs st.2 ∨ p ∈ dropped;
  tr_root : wt_root st.1 ∈ wt_watched st.1;
  tr_clean p : p ∈ wt_watched st.1 → clean_abs p
}.

Lemma tracked_unwatch dropped t s s' p :
  tracked dropped (t, s) → p ≠ wt_root t → be_regs s' = be_regs s ∖ {[p]} ∨ (be_regs s' = be_regs s ∧ misread p) →
  tracked dropped (mkTree (wt_root t) (wt_watched t ∖ {[p]}), s').
Proof.
  intros [H1 H2 H3 H4] Hp Hr. cbn [fst snd] in *. split; cbn [fst snd wt_watched wt_root].
  - intros q Hq. destruct (decide (q = p)) as [->|Hne]; [destruct Hr as [Hr|[_ ?]]; [set_solver|by right]|].
    destruct (H1 q); [|set_solver|by right]. destruct Hr as [Hr|[Hr _]]; set_solver.
  - intros q Hq. destruct (H2 q); [set_solver| |by right]. left. destruct Hr as [Hr|[Hr _]]; set_solver.
  - set_solver.
  - intros q Hq. apply H4. set_solver.
Qed.

Lemma tracked_same dropped t s s' : be_regs s' = be_regs s → tracked dropped (t, s) → tracked dropped (t, s').
Proof. intros E [H1 H2 H3 H4]. cbn [fst snd] in *. split; cbn [fst snd]; [by rewrite E|by rewrite E|done..]. Qed.

Lemma Sync_loop_tracked l dropped st :
  native_laws → tracked dropped st → wt_root st.1 ∉ l → Forall clean_abs l →
  tracked dropped (forM l (λ path, onSnd (Remove watcher_Remove linux path) ;; unwatch path) st).2.
Proof.
  intros Hl. revert st. induction l as [|p l IH]; intros [t [b w]] Ht Hr Hc; cbn [forM]; [done|].
  apply Forall_cons in Hc as [Hp Hc]. rewrite !bind_run. unfold onSnd at 1.
  destruct (Remove watcher_Remove linux p (b, w)) as [[[]|e] s'] eqn:E; (apply Remove_regs in E; [|done..]).
  - cbn. apply IH; [|cbn in *; set_solver|done]. eapply tracked_unwatch; [done|cbn in *; set_solver|by left].
  - cbn. destruct E as [E _]. by eapply tracked_same.
Qed.

Lemma RemoveSubtree_loop_tracked l dropped st :
  native_laws → tracked dropped st → wt_root st.1 ∉ l → Forall clean_abs l →
  tracked dropped (forM l (λ watched, r ← try (onSnd (Remove watcher_Remove linux watched));
    match r with
    | inr err => if isAlreadyGone err then unwatch watched else throw err
    | inl _ => unwatch watched
    end) st).2.
Proof.
  intros Hl. revert st. induction l as [|p l IH]; intros [t [b w]] Ht Hr Hc; cbn [forM]; [done|].
  apply Forall_cons in Hc as [Hp Hc]. rewrite !bind_run. unfold try, onSnd at 1.
  destruct (Remove watcher_Remove linux p (b, w)) as [[[]|e] s'] eqn:E; (apply Remove_regs in E; [|done..]); cbn -[unwatch].
  - cbn. apply IH; [|cbn in *; set_solver|done]. eapply tracked_unwatch; [done|cbn in *; set_solver|by left].
  - destruct E as [E Hg]. destruct (isAlreadyGone e); cbn; [|by eapply tracked_same].
    apply IH; [|cbn in *; set_solver|done]. eapply tracked_unwatch; [done|cbn in *; set_solver|right; auto].
Qed.

Lemma tree_op_tracked dropped st op :
  native_laws → clean_abs (wt_root st.1) → tracked dropped st →
  tracked dropped (run_tree_op (Add watcher_Add) (Remove watcher_Remove linux) st op).
Proof.
  destruct st as [t [b w]]. cbn [fst]. intros Hl Hroot Ht. pose proof Ht as [H1 H2 H3 H4]. cbn [fst snd] in *.
  destruct op as [path|scopes observed|path]; cbn [run_tree_op].
  - unfold WatchTree.Add. rewrite bind_run. cbn [gets fst].
    destruct (within (wt_root t) (Clean path)) eqn:Hw; cbn [negb]; [|done]. case_decide as Hin; [done|].
    destruct (within_inv (wt_root t) path Hroot Hw) as [Hcp _]. rewrite bind_run. unfold onSnd.
    destruct (Add watcher_Add (Clean path) (b, w)) as [[[]|e] s'] eqn:E; (apply Add_regs in E; [|done..]); cbn.
    + split; cbn [fst snd wt_watched wt_root]; [intros p; rewrite E; set_solver..|set_solver|].
      intros p [->%elem_of_singleton|Hp]%elem_of_union; [done|by apply H4].
    + by eapply tracked_same.
  - unfold Sync. rewrite bind_run. cbn [gets fst]. apply Sync_loop_tracked; [done..| |].
    + cbn [fst]. rewrite elem_of_sync_removes. tauto.
    + apply Forall_forall. intros p (Hp & _)%elem_of_sync_removes. by apply H4.
  - unfold RemoveSubtree. rewrite bind_run. cbn [gets fst]. apply RemoveSubtree_loop_tracked; [done..| |].
    + cbn [fst]. rewrite elem_of_subtree_removes. tauto.
    + apply Forall_forall. intros p (Hp & _)%elem_of_subtree_removes. by apply H4.
Qed.

(** What happens to the tree and the library between two looks: an operation of the
    tree, or the library giving up watches by itself, as it does when a directory is
    deleted.  The last index holds the directories of the tree whose watch was given
    up since the tree took them in. *)
Inductive history (st0 : Tree * BW) : Tree * BW → gset string → Prop :=
  | history_start : history st0 st0 ∅
  | history_op st st' dropped op :
      history st0 st dropped →
      st' = run_tree_op (Add watcher_Add) (Remove watcher_Remove linux) st op →
      history st0 st' (dropped ∩ wt_watched st'.1)
  | history_drop t b w w' gone dropped :
      history st0 (t, (b, w)) dropped →
      (∀ x, be_watcher b = Some x → regs x w' = regs x w ∖ gone) →
      history st0 (t, (b, w')) ((dropped ∪ gone) ∩ wt_watched t).

Lemma tree_op_root st op : wt_root (run_tree_op (Add watcher_Add) (Remove watcher_Remove linux) st op).1 = wt_root st.1.
Proof.
  assert (∀ l body (st : Tree * BW), (∀ (p : string) st, wt_root ((body p st).2 : Tree * BW).1 = wt_root st.1) →
    wt_root (forM l body st).2.1 = wt_root st.1) as Hloop.
  { induction l as [|p l IH]; intros body st' Hb; [done|]. cbn [forM]. rewrite bind_run.
    specialize (Hb p st') as Hp. destruct (body p st') as [[[]|e] st'']; [|done]. by rewrite IH. }
  destruct st as [t s], op as [path|scopes observed|path]; cbn [run_tree_op].
  - unfold WatchTree.Add. rewrite bind_run. cbn [gets fst]. destruct (negb _); [done|]. case_decide; [done|].
    rewrite bind_run. unfold onSnd. by destruct (Add watcher_Add _ s) as [[[]|e] s'].
  - unfold Sync. rewrite bind_run. cbn [gets fst]. apply Hloop. intros p [t' s']. rewrite bind_run. unfold onSnd.
    by destruct (Remove _ _ p s') as [[[]|e] s''].
  - unfold RemoveSubtree. rewrite bind_run. cbn [gets fst]. apply Hloop. intros p [t' s']. rewrite bind_run. unfold try, onSnd.
    destruct (Remove _ _ p s') as [[[]|e] s'']; [done|]. cbn -[unwatch]. by destruct (isAlreadyGone e).
Qed.

Lemma history_tracked st0 st dropped :
  native_laws → clean_abs (wt_root st0.1) → tracked ∅ st0 → history st0 st dropped →
  tracked dropped st ∧ wt_root st.1 = wt_root st0.1.
Proof.
  intros Hl Hc H0. induction 1 as [|st st' dropped op Hh [IH Hr] ->|t b w w' gone dropped Hh [IH Hr] Hg]; [done|..].
  - split; [|by rewrite tree_op_root]. rewrite <-Hr in Hc. destruct (tree_op_tracked dropped st op Hl Hc IH) as [H1 H2 H3 H4].
    split; [done| |done..]. intros p Hp. destruct (H2 p Hp); [by left|right; set_solver].
  - split; [|done]. destruct IH as [H1 H2 H3 H4]. cbn [fst snd] in *.
    assert (be_regs (b, w') = be_regs (b, w) ∖ gone ∨ be_regs (b, w') = be_regs (b, w)) as Hregs.
    { unfold be_regs. cbn [fst snd]. destruct (be_closed b); [by right|]. destruct (be_watcher b); [left; by apply Hg|by right]. }
    split; cbn [fst snd]; [|..|done|done].
    + intros p Hp. apply H1. destruct Hregs as [E|E]; set_solver.
    + intros p Hp. destruct (H2 p Hp) as [Hq|Hq]; [|right; set_solver].
      destruct (decide (p ∈ gone)); [right; set_solver|]. left. destruct Hregs as [E|E]; set_solver.
Qed.

(** C16: the watch tree over the native backend.  After a successful [Start] and any
    history of tree operations, successful or failed half way, in which the library
    may also give up watches by itself: every registration of the library's watcher
    belongs to a directory of the tree, unless the removal of that directory can
    fail with an error whose text the tree misreads; every directory of the tree is
    registered, unless the library gave its watch up while it was in the tree; and
    the root is always in the tree. *)
Theorem watch_tree_over_backend buffer root w0 b w st dropped :
  native_laws → IsAbs root = true →
  Start NewBufferedWatcher watcher_Add watcher_Close ctx root (New buffer, w0) = (inl (), (b, w)) →
  history (WatchTree.New root, (b, w)) st dropped →
  (∀ p, p ∈ be_regs st.2 → p ∈ wt_watched st.1 ∨ misread p) ∧
  (∀ p, p ∈ wt_watched st.1 → p ∈ be_regs st.2 ∨ p ∈ dropped) ∧
  wt_root st.1 = Clean root ∧ Clean root ∈ wt_watched st.1.
Proof.
  intros Hl Hroot E Hh. pose proof (clean_abs_Clean root Hroot) as Hc.
  assert (be_regs (b, w) = {[Clean root]}) as Hregs.
  { unfold Start in E. cbn [be_closed be_started be_buffer New] in E. rewrite bind_run, onSnd_run in E.
    destruct (ctx w0) as [[[]|e] w1]; [|done]. rewrite bind_run in E. unfold wrapping in E. rewrite onSnd_run in E.
    destruct (NewBufferedWatcher _ w1) as [[x|e] w2] eqn:Ex; [|done]. rewrite bind_run in E. unfold try in E.
    rewrite onSnd_run in E. destruct (watcher_Add x (Clean root) w2) as [[[]|e] w3] eqn:Ea.
    - injection E as <- <-. unfold be_regs. simpl. rewrite (nl_add Hl _ _ _ _ Ea), (nl_new Hl _ _ _ _ Ex). set_solver.
    - rewrite bind_run, onSnd_run in E. by destruct (watcher_Close x w3). }
  apply history_tracked in Hh as [[H1 H2 H3 _] Hr]; [|done..|].
  - cbn [fst] in Hr. change (wt_root (WatchTree.New root)) with (Clean root) in Hr. rewrite Hr in H3. done.
  - split; cbn [fst snd wt_watched wt_root WatchTree.New]; [rewrite Hregs; set_solver|rewrite Hregs; set_solver|set_solver|].
    by intros p ->%elem_of_singleton.
Qed.
End laws.

(** ** Witnesses *)

(** A library that keeps a set of registrations and cannot remove those of [stuck]. *)
Definition lib_New (n : Z) : M (gset string) () := modify (λ _, ∅).
Definition lib_Add (x : ()) (p : string) : M (gset string) () := modify (λ regs, {[p]} ∪ regs).
Definition lib_Remove (stuck : gset string) (x : ()) (p : string) : M (gset string) () := λ regs,
  if decide (p ∈ stuck) then (inr (errors_New "permission denied"), regs)
  else if decide (p ∈ regs) then (inl (), regs ∖ {[p]})
  else (inr (Sentinel ErrNonExistentWatch), regs).
Definition lib_Close (x : ()) : M (gset string) () := modify (λ _, ∅).

Lemma lib_laws stuck : native_laws lib_New lib_Add (lib_Remove stuck) true (λ _ regs, regs).
Proof.
  split; unfold lib_New, lib_Add, lib_Remove.
  - intros n w x w'. by intros [= <-].
  - intros x p w w'. by intros [= <-].
  - by intros.
  - intros x p w w'. case_decide; [done|]. case_decide; [|done]. by intros [= <-].
  - intros x p w e w'. case_decide; [by intros [= _ <-]|]. case_decide; [done|]. by intros [= _ <-].
  - intros x p w e w'. case_decide; [by intros [= <- _]|]. case_decide; [done|]. by intros [= <- _].
Qed.

Abbreviation lib_steps := (steps lib_New lib_Add (lib_Remove ∅) lib_Close true (mret ())).

(** The started backend. *)
Definition lib_started : Backend () * gset string :=
  (mkBackend 1 (mkChan 1 [] false) (mkChan 16 [] false) (Some ()) true false false false AtSelect [], {["/d"]}).

(** A channel with room for one event: the second of two is lost. *)
Definition loss_labels : list label :=
  [Silent; Pumped (mkRaw "/d/a" OpCreate 1) true; Pumped (mkRaw "/d/b" OpWrite 2) false].
Definition loss_state : Backend () * gset string :=
  (mkBackend 1 (mkChan 1 [mkRaw "/d/a" OpCreate 1] false) (mkChan 16 [Sentinel ErrOverflow] false) (Some ()) true false
     false false AtSelect [], {["/d"]}).

Lemma loss_run : lib_steps (New 1, ∅) loss_labels loss_state.
Proof.
  change loss_labels with ((([] ++ [Silent]) ++ [Pumped (mkRaw "/d/a" OpCreate 1) true]) ++ [Pumped (mkRaw "/d/b" OpWrite 2) false]).
  set (s2 := (mkBackend 1 (mkChan 1 [mkRaw "/d/a" OpCreate 1] false) (mkChan 16 [] false) (Some ()) true false false false
    AtSelect [], {["/d"]} : gset string)).
  apply steps_snoc with s2; [apply steps_snoc with lib_started; [apply steps_snoc with (New 1, ∅); [apply steps_refl|]|]|].
  - replace lib_started with (Start lib_New lib_Add lib_Close (mret ()) "/d" (New 1, ∅)).2 by (vm_compute; reflexivity).
    apply step_Start.
  - exact (step_event lib_New lib_Add (lib_Remove ∅) lib_Close true (mret ()) (mkNative "/d/a" true false false false false) 1
      lib_started.1 s2.1 lib_started.2 eq_refl eq_refl).
  - exact (step_event lib_New lib_Add (lib_Remove ∅) lib_Close true (mret ()) (mkNative "/d/b" false true false false false) 2
      s2.1 loss_state.1 s2.2 eq_refl eq_refl).
Qed.

Lemma backend_never_panics_witness :
  length (ch_items (be_errors loss_state.1)) ≤ 16 ∧ is_Some (closeOutputs loss_state.1).
Proof.
  destruct (backend_never_panics lib_New lib_Add (lib_Remove ∅) lib_Close true (mret ()) 1 ∅ loss_labels loss_state.1 loss_state.2)
    as (_ & Hl & _ & Hc); [lia|exact loss_run|]. split; [exact Hl|exact Hc].
Defined.

Lemma backend_reports_loss_witness :
  ch_items (be_events loss_state.1) = [mkRaw "/d/a" OpCreate 1] ∧
  (ch_items (be_errors loss_state.1) ≠ [] ∨ ∃ err, ReceivedError err ∈ []).
Proof.
  split; [reflexivity|].
  apply (proj2 (backend_reports_loss lib_New lib_Add (lib_Remove ∅) lib_Close true (mret ()) 1 ∅ loss_labels loss_state.1
    loss_state.2 ltac:(lia) loss_run) (take 2 loss_labels) (mkRaw "/d/b" OpWrite 2)). reflexivity.
Defined.

Lemma close_returns_witness :
  let s := (beginClose loss_state.1, loss_state.2) in
  be_closers s.1 = [InCloseNative] ∧ sn (closing lib_Close) s.
Proof.
  split; [reflexivity|].
  apply (close_returns lib_New lib_Add (lib_Remove ∅) lib_Close true (mret ()) 1 ∅ (loss_labels ++ [Silent])); [lia|].
  exact (steps_snoc _ _ _ _ _ _ _ _ _ _ _ loss_run (step_Close _ _ _ _ _ _ _ _)).
Defined.

(** A failed removal, a watch given up, and what the tree and the library hold. *)
Definition lib_op := run_tree_op (Add lib_Add) (Remove (lib_Remove {["/d/x"]}) true).
Definition lib_drop (gone : gset string) (st : Tree * (Backend () * gset string)) : Tree * (Backend () * gset string) :=
  (st.1, (st.2.1, st.2.2 ∖ gone)).
Definition lib_tree0 : Tree * (Backend () * gset string) := (WatchTree.New "/d", lib_started).
Definition lib_tree1 := lib_op (lib_op (lib_op lib_tree0 (WAdd "/d/a")) (WAdd "/d/x")) (WRemoveSubtree "/d/x").
Definition lib_tree2 := lib_op (lib_drop {["/d/a"]} lib_tree1) (WAdd "/d/a").

Lemma watch_tree_over_backend_witness :
  ∃ dropped, history lib_Add (lib_Remove {["/d/x"]}) true (λ _ regs, regs) lib_tree0 lib_tree2 dropped ∧
    dropped = {["/d/a"]} ∧ wt_watched lib_tree2.1 = {["/d"; "/d/a"; "/d/x"]} ∧
    ∀ p, p ∈ wt_watched lib_tree2.1 → p ∈ be_regs (λ _ regs, regs) lib_tree2.2 ∨ p ∈ dropped.
Proof.
  assert (∃ dropped, history lib_Add (lib_Remove {["/d/x"]}) true (λ _ regs, regs) lib_tree0 lib_tree2 dropped ∧
    dropped = {["/d/a"]}) as (dropped & Hh & Hd).
  { eexists. split.
    - eapply (history_op _ _ _ _ _ _ _ _ (WAdd "/d/a")); [|reflexivity].
      refine (history_drop _ _ _ _ _ lib_tree1.1 lib_tree1.2.1 lib_tree1.2.2 _ {["/d/a"]} _ _ _); [|reflexivity].
      eapply (history_op _ _ _ _ _ (lib_op (lib_op lib_tree0 (WAdd "/d/a")) (WAdd "/d/x")) _ _ (WRemoveSubtree "/d/x"));
        [|vm_compute; reflexivity].
      eapply (history_op _ _ _ _ _ _ _ _ (WAdd "/d/x")); [|reflexivity].
      eapply (history_op _ _ _ _ _ _ _ _ (WAdd "/d/a")); [|reflexivity]. apply history_start.
    - vm_compute. reflexivity. }
  exists dropped. split; [exact Hh|]. split; [exact Hd|]. split; [vm_compute; reflexivity|].
  refine (proj1 (proj2 (watch_tree_over_backend lib_New lib_Add (lib_Remove {["/d/x"]}) lib_Close true (mret ()) (λ _ regs, regs)
    1 "/d" ∅ lib_started.1 lib_started.2 lib_tree2 dropped (lib_laws _) _ _ Hh))); vm_compute; reflexivity.
Defined.

(** ** A directory that comes back *)

(** A directory that is deleted and created again is no longer watched.  The library
    drops the watch of a deleted directory by itself, but the tree keeps it; when the
    next scan finds a directory of that name, [Add] takes it for registered and
    [Sync] keeps it, so that its watch is never renewed. *)
Theorem recreated_directory_unwatched :
  let st := lib_op (lib_op (lib_drop {["/d/a"]} (lib_op lib_tree0 (WAdd "/d/a"))) (WAdd "/d/a"))
    (WSync ["/d"] {["/d"; "/d/a"]}) in
  IsWatched st.1 "/d/a" = true ∧ "/d/a" ∉ be_regs (λ _ regs, regs) st.2.
Proof. cbv zeta. split; [vm_compute; reflexivity|]. by_decide. Qed.

(** ** A path that reads like an error *)

(** A failed removal is taken for a removed watch.  The watch tree recognises a
    watch that is gone by the words "not found" in the text of the error, but the
    backend's error quotes the path.  When the library cannot remove the watch of a
    directory with these words in its name, [RemoveSubtree] succeeds and forgets
    the directory, although it is still registered; for another name it fails and
    keeps it. *)
Theorem path_text_hides_failure :
  let remove path := RemoveSubtree (Remove (lib_Remove {[path]}) true) path
    (mkTree "/d" {["/d"; path]}, (lib_started.1, {["/d"; path]})) in
  (remove "/d/not found").1 = inl () ∧ wt_watched (remove "/d/not found").2.1 = {["/d"]} ∧
  be_regs (λ _ regs, regs) (remove "/d/not found").2.2 = {["/d"; "/d/not found"]} ∧
  (∃ e, (remove "/d/other").1 = inr e) ∧ wt_watched (remove "/d/other").2.1 = {["/d"; "/d/other"]}.
Proof.
  cbv zeta. split_and!; [vm_compute; reflexivity..| |vm_compute; reflexivity].
  exists (Wrapf ("remove watch " +:+ Quote "/d/other") (errors_New "permission denied")). vm_compute. reflexivity.
Qed.
