(* ===== verification/Native.v ===== *)
(** * The tracker and its native backend together

    [Tracker.Start] creates the backend and [Tracker.run] reads its two channels.
    Here the steps of Backend.v and of TrackerRun.v run side by side: what the
    collector takes is the head of a channel, and it sees a channel closed when the
    channel is closed and empty. *)

From S2P Require Import Prelude GoPath DirtySet Types Delivery Store MemoryStore Scanner Normalize Debounce WatchTree Tracker Reconcile ReconcileSpec ReconcileTree Integrity Observer TrackerRun Backend.

(** ** Definitions *)

Inductive label : Type :=
  | OfBackend (l : Backend.label)
  | OfRun (l : TrackerRun.label).

Definition run_label (l : label) : option TrackerRun.label :=
  match l with OfRun l => Some l | OfBackend _ => None end.

Section native.
Context {W H St : Type} `{FileSystem W H} `{SnapshotStore St}.
Context (config : Config W St) (ctx : M W ()) (clock : W → Z * W).
Context (backend_Add backend_Remove : string → M W ()) (fuel : nat).
Context (fast : option (ReconcileReport → Tracker St * W → (ReconcileReport * option error) * (Tracker St * W))).
Context (backend_Close : M W ()) (stage_io : stageOp → M W ()).
(** The fsnotify library and its world. *)
Context {L Wt : Type}.
Context (NewBufferedWatcher : Z → M L Wt) (watcher_Add watcher_Remove : Wt → string → M L ()) (watcher_Close : Wt → M L ()).
Context (linux : bool) (ctxL : M L ()).

Abbreviation RW := (Run St * W)%type.
Abbreviation BW := (Backend Wt * L)%type.
Abbreviation root := (cf_Root config).
Abbreviation rstep := (TrackerRun.step config ctx clock backend_Add backend_Remove fuel fast backend_Close stage_io).
Abbreviation rsteps := (TrackerRun.steps config ctx clock backend_Add backend_Remove fuel fast backend_Close stage_io).
Abbreviation bstep := (Backend.step NewBufferedWatcher watcher_Add watcher_Remove watcher_Close linux ctxL).
Abbreviation bsteps := (Backend.steps NewBufferedWatcher watcher_Add watcher_Remove watcher_Close linux ctxL).

(** The backend steps that are not a receive of the collector. *)
Definition own_backend (l : Backend.label) : Prop :=
  match l with ReceivedEvent _ | ReceivedError _ => False | _ => True end.

Inductive step : BW * RW → label → BW * RW → Prop :=
  | step_backend b l b' s : bstep b l b' → own_backend l → step (b, s) (OfBackend l) (b', s)
  | step_run b l s s' : rstep s l s' → own_label l → step (b, s) (OfRun l) (b, s')
  | step_took b b' raw s s' :
      bstep b (ReceivedEvent raw) b' → rstep s (Took raw) s' → step (b, s) (OfRun (Took raw)) (b', s')
  | step_took_error b b' err s s' :
      bstep b (ReceivedError err) b' → rstep s (TookError err) s' → step (b, s) (OfRun (TookError err)) (b', s')
  | step_events_closed b s s' :
      ch_items (be_events b.1) = [] → ch_closed (be_events b.1) = true → rstep s SawEventsClosed s' →
      step (b, s) (OfRun SawEventsClosed) (b, s')
  | step_errors_closed b s s' :
      ch_items (be_errors b.1) = [] → ch_closed (be_errors b.1) = true → rstep s SawErrorsClosed s' →
      step (b, s) (OfRun SawErrorsClosed) (b, s').

Inductive steps : BW * RW → list label → BW * RW → Prop :=
  | steps_refl s : steps s [] s
  | steps_cons s1 l s2 ls s3 : step s1 l s2 → steps s2 ls s3 → steps s1 (l :: ls) s3.

Lemma steps_app s1 ls1 s2 ls2 s3 : steps s1 ls1 s2 → steps s2 ls2 s3 → steps s1 (ls1 ++ ls2) s3.
Proof. induction 1; [done|]. intros. simpl. eapply steps_cons; [done|]. auto. Qed.

Lemma steps_run b s ls s' : rsteps s ls s' → Forall own_label ls → steps (b, s) (OfRun <$> ls) (b, s').
Proof.
  induction 1 as [|s1 l s2 ls s3 Hstep Hs IH]; intros Hl; [apply steps_refl|]. apply Forall_cons in Hl as [Hl Hls].
  rewrite fmap_cons. eapply steps_cons; [by apply step_run|]. by apply IH.
Qed.

Lemma omap_run_label (ls : list TrackerRun.label) : omap run_label (OfRun <$> ls) = ls.
Proof. induction ls as [|l ls IH]; [done|]. simpl. by f_equal. Qed.

(** ** The invariant *)

Record native_inv (buffer : Z) (s : BW * RW) : Prop := {
  ni_backend : be_inv buffer s.1.1;
  ni_run : run_inv config s.2.1;
  ni_events : rn_events s.2.1 = false → ch_items (be_events s.1.1) = [] ∧ ch_closed (be_events s.1.1) = true;
  ni_errors : rn_errors s.2.1 = false → ch_items (be_errors s.1.1) = [] ∧ ch_closed (be_errors s.1.1) = true
}.

(** The collector gives up a channel only when it has seen it closed. *)
Lemma run_channels s l s' :
  rstep s l s' → (rn_events s'.1 = rn_events s.1 ∨ l = SawEventsClosed) ∧ (rn_errors s'.1 = rn_errors s.1 ∨ l = SawErrorsClosed).
Proof.
  intros Hs. step_cases Hs; cbn [fst]; try (by split; left).
  - unfold onNativeEvent. destruct (normalize_Event _ _); by split; left.
  - split; [by right|]. left. unfold onNativeClosed. destruct r. by destruct (_ && _).
  - split; [by left|by right].
  - unfold addDirty_Add. destruct (DirtySet.Add _ _). by split; left.
  - unfold continue. destruct k; by split; left.
  - unfold drainDirty in Hdr. injection Hdr as <- <-. case_decide; by split; left.
  - destruct (tk_closed _); by split; left.
Qed.

(** A closed and empty channel stays so. *)
Lemma closed_stays buffer b l b' :
  bstep b l b' → be_inv buffer b.1 →
  (ch_items (be_events b.1) = [] ∧ ch_closed (be_events b.1) = true →
   ch_items (be_events b'.1) = [] ∧ ch_closed (be_events b'.1) = true) ∧
  (ch_items (be_errors b.1) = [] ∧ ch_closed (be_errors b.1) = true →
   ch_items (be_errors b'.1) = [] ∧ ch_closed (be_errors b'.1) = true).
Proof.
  intros Hs Hi. pose proof (Backend.be_step_inv _ _ _ _ _ _ _ _ _ _ Hs Hi) as Hi'.
  destruct (bi_outputs _ _ Hi) as [Ev Er], (bi_outputs _ _ Hi') as [Ev' Er'].
  split; intros [Hit Hcl]; destruct (step_closed _ _ _ _ _ _ _ _ _ _ Hs Hi) as (Ho & H1' & H2'); try congruence;
    (split; [auto|congruence]).
Qed.

Lemma native_step_inv buffer s l s' : step s l s' → native_inv buffer s → native_inv buffer s'.
Proof.
  intros Hs [Hb Hr He Her].
  destruct Hs as [b l b' s Hbs Hown|b l s s' Hrs Hown|b b' raw s s' Hbs Hrs|b b' err s s' Hbs Hrs|b s s' Hemp Hcl Hrs|b s s' Hemp Hcl Hrs];
    cbn [fst snd] in *.
  - destruct (closed_stays _ _ _ _ Hbs Hb) as [K1 K2].
    split; cbn [fst snd]; [by eapply Backend.be_step_inv|done|intros ?; by apply K1, He|intros ?; by apply K2, Her].
  - destruct (run_channels _ _ _ Hrs) as [[E1|?] [E2|?]]; try (by subst).
    split; cbn [fst snd]; [done|by eapply TrackerRun.step_inv|by rewrite E1|by rewrite E2].
  - destruct (closed_stays _ _ _ _ Hbs Hb) as [K1 K2]. destruct (run_channels _ _ _ Hrs) as [[E1|?] [E2|?]]; try done.
    split; cbn [fst snd]; [by eapply Backend.be_step_inv|by eapply TrackerRun.step_inv|..].
    + rewrite E1. intros ?. by apply K1, He.
    + rewrite E2. intros ?. by apply K2, Her.
  - destruct (closed_stays _ _ _ _ Hbs Hb) as [K1 K2]. destruct (run_channels _ _ _ Hrs) as [[E1|?] [E2|?]]; try done.
    split; cbn [fst snd]; [by eapply Backend.be_step_inv|by eapply TrackerRun.step_inv|..].
    + rewrite E1. intros ?. by apply K1, He.
    + rewrite E2. intros ?. by apply K2, Her.
  - destruct (run_channels _ _ _ Hrs) as [_ [E2|?]]; [|done].
    split; cbn [fst snd]; [done|by eapply TrackerRun.step_inv|done|by rewrite E2].
  - destruct (run_channels _ _ _ Hrs) as [[E1|?] _]; [|done].
    split; cbn [fst snd]; [done|by eapply TrackerRun.step_inv|by rewrite E1|done].
Qed.

Lemma native_steps_inv buffer s ls s' : steps s ls s' → native_inv buffer s → native_inv buffer s'.
Proof. induction 1; [done|]. eauto using native_step_inv. Qed.

(** ** What is owed for an event *)

Section owed.
Context (Hroot : clean_abs root) (raw : RawEvent) (Hin : within root (Clean (raw_Path raw)) = true).
Abbreviation p := (Clean (raw_Path raw)).

(** The event waits in its channel, an error waits, or the path is due. *)
Definition owed (s : BW * RW) : Prop :=
  raw ∈ ch_items (be_events s.1.1) ∨ ch_items (be_errors s.1.1) ≠ [] ∨ due s.2.1 p.

Lemma path_clean : clean_abs p.
Proof. by destruct (within_inv root (raw_Path raw) Hroot Hin) as [? _]. Qed.

Lemma pumped_owed buffer s kept s' : step s (OfBackend (Pumped raw kept)) s' → native_inv buffer s → owed s'.
Proof.
  intros Hs Hi. inversion Hs as [b l b' r Hbs _| | | | |]; subst. destruct kept.
  - left. destruct (step_items _ _ _ _ _ _ _ _ _ _ Hbs (ni_backend _ _ Hi)) as [[? _]|[_ Hit]]; [done|]. cbn [fst snd] in *.
    rewrite Hit. simpl. set_solver.
  - right. left. by destruct (step_errors _ _ _ _ _ _ _ _ _ _ Hbs (ni_backend _ _ Hi)) as [_ He]; eapply He.
Qed.

Lemma step_owed buffer s l s' :
  step s l s' → native_inv buffer s → owed s → owed s' ∨ drained (option_list (run_label l)) p.
Proof.
  intros Hs Hi Ho. pose proof path_clean as Hp.
  assert (∀ s s' l, rstep s l s' → run_inv config s.1 → due s.1 p → due s'.1 p ∨ drained [l] p) as Hdue.
  { intros r r' lr Hrs Hri Hd. by eapply step_due. }
  destruct Hi as [Hb Hr _ _].
  destruct Hs as [b l b' s Hbs Hown|b l s s' Hrs Hown|b b' raw' s s' Hbs Hrs|b b' err s s' Hbs Hrs|b s s' Hemp Hcl Hrs|b s s' Hemp Hcl Hrs];
    cbn [fst snd run_label option_list] in *; unfold owed in *; cbn [fst snd] in *.
  - left. destruct Ho as [Ho|[Ho|Ho]]; [|right; left|by right; right].
    + left. destruct (step_items _ _ _ _ _ _ _ _ _ _ Hbs Hb) as [[_ E]|[_ E]]; cbn [fst] in E.
      * rewrite E in Ho. by destruct l.
      * rewrite E. set_solver.
    + destruct (step_errors _ _ _ _ _ _ _ _ _ _ Hbs Hb) as [He _]. by destruct (He Ho) as [?|[err ->]].
  - destruct Ho as [Ho|[Ho|Ho]]; [by left; left|by left; right; left|].
    destruct (Hdue _ _ _ Hrs Hr Ho); [left; by right; right|by right].
  - destruct (step_items _ _ _ _ _ _ _ _ _ _ Hbs Hb) as [[_ E]|[? _]]; [|done]. cbn [fst received_event option_list app] in E.
    destruct (step_errors _ _ _ _ _ _ _ _ _ _ Hbs Hb) as [He _]. destruct Ho as [Ho|[Ho|Ho]].
    + rewrite E in Ho. apply elem_of_cons in Ho as [->|Ho]; [|by left; left].
      left. right. right. by eapply took_due.
    + left. right. left. by destruct (He Ho) as [?|[err ?]].
    + destruct (Hdue _ _ _ Hrs Hr Ho); [left; by right; right|by right].
  - left. right. right. by eapply error_due.
  - destruct Ho as [Ho|[Ho|Ho]]; [by left; left|by left; right; left|].
    destruct (Hdue _ _ _ Hrs Hr Ho); [left; by right; right|by right].
  - destruct Ho as [Ho|[Ho|Ho]]; [by left; left|by left; right; left|].
    destruct (Hdue _ _ _ Hrs Hr Ho); [left; by right; right|by right].
Qed.

Lemma drained_app_l ls1 ls2 q : drained ls1 q → drained (ls1 ++ ls2) q.
Proof. intros (scs & sc & ? & ? & ?). exists scs, sc. set_solver. Qed.
Lemma drained_app_r ls1 ls2 q : drained ls2 q → drained (ls1 ++ ls2) q.
Proof. intros (scs & sc & ? & ? & ?). exists scs, sc. set_solver. Qed.

Lemma steps_owed buffer s ls s' :
  steps s ls s' → native_inv buffer s → owed s → owed s' ∨ drained (omap run_label ls) p.
Proof.
  induction 1 as [s|s1 l s2 ls s3 Hstep Hs IH]; intros Hi Ho; [by left|].
  assert (omap run_label (l :: ls) = option_list (run_label l) ++ omap run_label ls) as ->
    by (cbn [omap list_omap]; by destruct (run_label l)).
  destruct (step_owed _ _ _ _ Hstep Hi Ho) as [Ho'|Hd]; [|right; by apply drained_app_l].
  destruct (IH (native_step_inv _ _ _ _ Hstep Hi) Ho') as [?|Hd]; [by left|]. right. by apply drained_app_r.
Qed.

(** *** An idle tracker pays *)

Definition idle (r : Run St) : Prop :=
  (busy (rn_collector r) ∨ rn_collector r = TrackerRun.AtSelect) ∧ rn_worker r = Waiting ∧ rn_done r = false.
Definition pays (s : BW * RW) : Prop := ∃ ls2 s2, steps s ls2 s2 ∧ drained (omap run_label ls2) p.

Lemma pays_steps s ls s' : steps s ls s' → pays s' → pays s.
Proof.
  intros Hs (ls2 & s2 & Hs2 & Hd). exists (ls ++ ls2), s2. split; [by eapply steps_app|].
  rewrite omap_app. by apply drained_app_r.
Qed.

Abbreviation returns := (collector_returns config ctx clock backend_Add backend_Remove fuel fast backend_Close stage_io).

(** The collector comes back, and nothing is forgotten meanwhile. *)
Lemma idle_select buffer b r w :
  native_inv buffer (b, (r, w)) → idle r →
  ∃ ls r', steps (b, (r, w)) ls (b, (r', w)) ∧ idle r' ∧ rn_collector r' = TrackerRun.AtSelect ∧
    (due r p → due r' p ∨ drained (omap run_label ls) p).
Proof.
  intros Hi ([Hb|Hsel] & Hw & Hdn); [|exists [], r; split; [apply steps_refl|]; split; [by split; [right|]|by split; [|left]]].
  destruct (returns r w Hb) as (ls & r' & Hs & Hl & Hpc & Hwk & Hdn' & _ & _). exists (OfRun <$> ls), r'.
  split; [by apply steps_run|]. split; [split; [by right|split; congruence]|]. split; [done|]. rewrite omap_run_label.
  exact (proj2 (steps_due config ctx clock backend_Add backend_Remove fuel fast backend_Close stage_io _ _ _ p Hs
    (ni_run _ _ Hi) path_clean)).
Qed.

Lemma due_pays buffer b r w : native_inv buffer (b, (r, w)) → idle r → due r p → pays (b, (r, w)).
Proof.
  intros Hi Hid Hd. destruct (idle_select buffer b r w Hi Hid) as (ls & r' & Hs & (_ & Hw & Hdn) & Hpc & Hdue).
  pose proof (native_steps_inv _ _ _ _ Hs Hi) as Hi'. destruct (Hdue Hd) as [Hd'|Hdr]; [|by exists ls, (b, (r', w))].
  eapply pays_steps; [exact Hs|]. destruct Hd' as [(sc & k & ? & _)|(sc & Hsc & Hsw)]; [congruence|].
  destruct (idle_drains config ctx clock backend_Add backend_Remove fuel fast backend_Close stage_io r' w (ni_run _ _ Hi'))
    as (ls2 & s2 & H2' & Hin2 & Hown); [done..| |].
  { intros E. rewrite E in Hsc. by apply not_elem_of_nil in Hsc. }
  exists (OfRun <$> ls2), (b, s2). split; [by apply steps_run|]. rewrite omap_run_label.
  eexists _, sc. split; [done|]. split; [by rewrite elem_of_sort_strings|done].
Qed.

Lemma error_pays buffer b r w :
  native_inv buffer (b, (r, w)) → idle r → rn_collector r = TrackerRun.AtSelect → ch_items (be_errors b.1) ≠ [] →
  pays (b, (r, w)).
Proof.
  intros Hi (_ & Hw & Hdn) Hpc Hne. destruct b as [b lw]. cbn [fst] in Hne.
  destruct (ch_items (be_errors b)) as [|err rest] eqn:Eit; [done|].
  assert (rn_errors r = true) as Her.
  { destruct (rn_errors r) eqn:E; [done|]. destruct (ni_errors _ _ Hi E) as [E' _]. cbn [fst] in E'. congruence. }
  set (b' := set_be_errors b (mkChan (ch_cap (be_errors b)) rest (ch_closed (be_errors b)))).
  assert (step ((b, lw), (r, w)) (OfRun (TookError err)) ((b', lw), (onNativeError config err 0 r, w))) as Hstep.
  { apply step_took_error; [|by apply TrackerRun.step_error]. apply Backend.step_receive_error. unfold chan_receive. by rewrite Eit. }
  pose proof (native_step_inv _ _ _ _ Hstep Hi) as Hi'.
  eapply pays_steps; [eapply steps_cons; [exact Hstep|apply steps_refl]|]. eapply due_pays; [exact Hi'| |].
  - split; [by left|]. done.
  - left. by exists root, ThenWake.
Qed.

(** The collector takes the first event. *)
Lemma take_event buffer b lw r w x rest :
  native_inv buffer ((b, lw), (r, w)) → idle r → rn_collector r = TrackerRun.AtSelect → ch_items (be_events b) = x :: rest →
  let b' := set_be_events b (mkChan (ch_cap (be_events b)) rest (ch_closed (be_events b))) in
  let r' := onNativeEvent config x r in
  rstep (r, w) (Took x) (r', w) ∧ step ((b, lw), (r, w)) (OfRun (Took x)) ((b', lw), (r', w)) ∧ idle r' ∧
  ch_items (be_events b') = rest.
Proof.
  intros Hi (_ & Hw & Hdn) Hpc Hit. cbv zeta.
  assert (rn_events r = true) as Hev.
  { destruct (rn_events r) eqn:E; [done|]. destruct (ni_events _ _ Hi E) as [E' _]. cbn [fst] in E'. congruence. }
  assert (rstep (r, w) (Took x) (onNativeEvent config x r, w)) as Hrs by by apply TrackerRun.step_event.
  split; [done|]. split; [|split; [|by destruct b]].
  - apply step_took; [|done]. apply Backend.step_receive_event. unfold chan_receive. by rewrite Hit.
  - unfold onNativeEvent, idle. destruct (normalize_Event _ _); (split; [simpl; auto|done]).
Qed.

Lemma event_pays buffer pre post b r w :
  native_inv buffer (b, (r, w)) → idle r → rn_collector r = TrackerRun.AtSelect →
  ch_items (be_events b.1) = pre ++ raw :: post → pays (b, (r, w)).
Proof.
  revert b r. induction pre as [|x pre IH]; intros [b lw] r Hi Hid Hpc Hit; cbn [fst] in Hit.
  - destruct (take_event buffer b lw r w _ _ Hi Hid Hpc Hit) as (Hrs & Hstep & Hid' & _).
    pose proof (native_step_inv _ _ _ _ Hstep Hi) as Hi'.
    eapply pays_steps; [eapply steps_cons; [exact Hstep|apply steps_refl]|]. eapply due_pays; [exact Hi'|exact Hid'|].
    by eapply (took_due _ _ _ _ _ _ _ _ _ _ _ _ Hroot Hrs).
  - destruct (take_event buffer b lw r w _ _ Hi Hid Hpc Hit) as (_ & Hstep & Hid' & Hit').
    pose proof (native_step_inv _ _ _ _ Hstep Hi) as Hi'.
    destruct (idle_select buffer _ _ w Hi' Hid') as (ls & r' & Hs & Hid2 & Hpc2 & _).
    eapply pays_steps; [eapply steps_cons; [exact Hstep|exact Hs]|]. apply IH; [by eapply native_steps_inv|done..].
Qed.

Lemma owed_pays buffer b r w :
  native_inv buffer (b, (r, w)) → idle r → rn_collector r = TrackerRun.AtSelect → owed (b, (r, w)) → pays (b, (r, w)).
Proof.
  intros Hi Hid Hpc [(pre & post & Hit)%list_elem_of_split|[Hne|Hd]]; [by eapply event_pays|by eapply error_pays|by eapply due_pays].
Qed.
End owed.

(** C4: no native event is forgotten on its way to a reconciliation.  Take an event
    inside the root that the pump has taken from the library, whether or not its
    channel had room.  Under every interleaving of the pump, the collector, the
    worker, calls of [Close], the application and the clock: in every later state
    the event waits in the channel, or an error waits in its channel, or the path
    lies in a scope that is dirty or being added, or the worker has drained such a
    scope since; and whenever the collector and the worker are idle and the tracker
    is not stopping, there is a run in which the worker drains such a scope. *)
Theorem native_never_forgets buffer lw0 bls b0 t0 w0 ls raw kept s s1 ls' s' :
  (0 ≤ buffer)%Z → clean_abs root → bsteps (Backend.New buffer, lw0) bls b0 →
  steps (b0, (initial_run config t0, w0)) ls s → step s (OfBackend (Pumped raw kept)) s1 → steps s1 ls' s' →
  within root (Clean (raw_Path raw)) = true →
  let p := Clean (raw_Path raw) in
  drained (omap run_label ls') p ∨
  (raw ∈ ch_items (be_events s'.1.1) ∨ ch_items (be_errors s'.1.1) ≠ [] ∨ due s'.2.1 p) ∧
  (rn_collector s'.2.1 = TrackerRun.AtSelect → rn_worker s'.2.1 = Waiting → rn_done s'.2.1 = false →
     ∃ ls2 s2, steps s' ls2 s2 ∧ drained (omap run_label ls2) p).
Proof.
  intros Hbuf Hroot Hb Hs Hstep Hs' Hin p.
  assert (native_inv (be_buffer (Backend.New (Wt := Wt) buffer)) (b0, (initial_run config t0, w0))) as Hi0.
  { split; [|by apply initial_inv|done|done]. exact (Backend.be_steps_inv _ _ _ _ _ _ _ _ _ _ Hb (New_inv _ Hbuf)). }
  pose proof (native_steps_inv _ _ _ _ Hs Hi0) as Hi. pose proof (native_step_inv _ _ _ _ Hstep Hi) as Hi1.
  pose proof (native_steps_inv _ _ _ _ Hs' Hi1) as Hi'.
  destruct (steps_owed Hroot raw Hin _ _ _ _ Hs' Hi1 (pumped_owed Hroot raw Hin _ _ _ _ Hstep Hi)) as [Ho|Hd]; [|by left].
  right. split; [exact Ho|]. intros Hpc Hw Hdn. destruct s' as [b' [r' w']].
  eapply owed_pays; [done|done|exact Hi'| |done|done]. split; [by right|done].
Qed.
End native.

(** ** Witness *)

(** A channel for one event: the second event finds it full. *)
Definition busy_backend : Backend () * gset string :=
  (mkBackend 1 (mkChan 1 [mkRaw "/data/a" OpCreate 1] false) (mkChan 16 [] false) (Some ()) true false false false
     Backend.AtSelect [], {["/d"]}).
Definition full_backend : Backend () * gset string :=
  (mkBackend 1 (mkChan 1 [mkRaw "/data/a" OpCreate 1] false) (mkChan 16 [Sentinel ErrOverflow] false) (Some ()) true false
     false false Backend.AtSelect [], {["/d"]}).
Definition demo_native_step := @step () (list string) MemoryStore (TreeFS demo_fs) _ demo_cfg (mret ()) demo_clock
  (λ _, mret ()) (λ _, mret ()) 20 None (mret ()) (λ _, mret ()) (gset string) () lib_New lib_Add (lib_Remove ∅) lib_Close true (mret ()).
Definition demo_native_steps := @steps () (list string) MemoryStore (TreeFS demo_fs) _ demo_cfg (mret ()) demo_clock
  (λ _, mret ()) (λ _, mret ()) 20 None (mret ()) (λ _, mret ()) (gset string) () lib_New lib_Add (lib_Remove ∅) lib_Close true (mret ()).

Lemma native_never_forgets_witness :
  ∃ ls2 s2, demo_native_steps (full_backend, (initial_run demo_cfg demo_tracker, ())) ls2 s2 ∧
    drained (omap run_label ls2) "/data/b".
Proof.
  destruct (@native_never_forgets () (list string) MemoryStore (TreeFS demo_fs) _ demo_cfg (mret ()) demo_clock
    (λ _, mret ()) (λ _, mret ()) 20 None (mret ()) (λ _, mret ()) (gset string) () lib_New lib_Add (lib_Remove ∅) lib_Close true (mret ())
    1 ∅ ([] ++ [Silent]) lib_started demo_tracker () [OfBackend (Pumped (mkRaw "/data/a" OpCreate 1) true)]
    (mkRaw "/data/b" OpWrite 2) false (busy_backend, (initial_run demo_cfg demo_tracker, ()))
    (full_backend, (initial_run demo_cfg demo_tracker, ())) [] (full_backend, (initial_run demo_cfg demo_tracker, ())))
    as [(scs & sc & Hd & _)|[_ Hrun]].
  - lia.
  - by_decide.
  - apply Backend.steps_snoc with (Backend.New 1, ∅); [apply Backend.steps_refl|].
    replace lib_started with (Start lib_New lib_Add lib_Close (mret ()) "/d" (Backend.New 1, ∅)).2 by (vm_compute; reflexivity).
    apply Backend.step_Start.
  - eapply steps_cons; [|apply steps_refl]. apply step_backend; [|exact I].
    exact (Backend.step_event lib_New lib_Add (lib_Remove ∅) lib_Close true (mret ()) (mkNative "/data/a" true false false false false) 1
      lib_started.1 busy_backend.1 lib_started.2 eq_refl eq_refl).
  - apply step_backend; [|exact I].
    exact (Backend.step_event lib_New lib_Add (lib_Remove ∅) lib_Close true (mret ()) (mkNative "/data/b" false true false false false) 2
      busy_backend.1 full_backend.1 busy_backend.2 eq_refl eq_refl).
  - apply steps_refl.
  - vm_compute. reflexivity.
  - exfalso. apply not_elem_of_nil in Hd. exact Hd.
  - apply Hrun; reflexivity.
Defined.

(** ** An overflow the observer does not see *)

Definition demo_onError := onError demo_observer_config (mret ()) demo_now (tree_Lstat demo_fs) (tree_Stat demo_fs)
  demo_ReadDir (λ _, mret ()) (λ _, mret ()) 20.

(** Sixteen read errors and two events while the client is busy. *)
Definition overflowed : option (Backend ()) :=
  let b := foldl (λ (b : option (Backend ())) err, b ≫= pumpError err) (Some lib_started.1)
    (replicate 16 (errors_New "read error")) in
  let b := b ≫= pumpEvent (mkNative "/data/a/x" false true false false false) 5 in
  b ≫= pumpEvent (mkNative "/data/b" false true false false false) 5.

(** An overflow can go unreported.  [sendError] drops an error when sixteen are
    waiting, the overflow error too.  A client that handles every error as a sign
    of loss, as the tracker does, learns of the loss all the same; the observer
    does so only for [ErrOverflow]: after it has taken everything from both
    channels, no hint covers the file whose event was dropped. *)
Theorem overflow_unreported :
  ∃ b, overflowed = Some b ∧ ch_items (be_events b) = [mkRaw "/data/a/x" OpWrite 5] ∧
    Forall (λ err, errors_Is err ErrOverflow = false) (ch_items (be_errors b)) ∧
    let s1 := foldl (λ s raw, (demo_onEvent raw s).2) demo_running (ch_items (be_events b)) in
    let s2 := foldl (λ s err, (demo_onError err s).2) s1 (ch_items (be_errors b)) in
    ob_rootPending s2.1 = false ∧ ob_pending s2.1 !! "/data/b" = None ∧ ob_hints s2.1 = ob_hints demo_running.1 ∧
    ob_state s2.1 = ObserverRunning.
Proof.
  eexists. split; [vm_compute; reflexivity|]. split; [reflexivity|]. split; [by_decide|].
  cbv zeta. split_and!; vm_compute; reflexivity.
Qed.
